(* ===== verification/_CoqProject ===== *)
-Q . S2P
Prelude.v
Closer.v
Io.v
LogId.v
Script.v
Stream.v
Cobs.v
Framing.v
Sealing.v
Outbound.v
Sender.v
Endpoint.v
Handshake.v
TransportClient.v
TransportServer.v
Connection.v
Memory.v
Message.v
Protobuf.v
Schema.v
Envelope.v
SchemaContent.v
SchemaCodec.v
Generator.v
WireProto.v
SchemaSource.v
Promise.v
Settling.v
Session.v
SessionInv.v
SessionPass.v
SessionMachine.v
SessionFixture.v
Conversation.v
ProtocolServer.v
ProtocolClient.v
ServerWire.v
EndToEnd.v
EndToEndClient.v
Handles.v
Worker.v
