(* ===== verification/Prelude.v ===== *)
(** * wire-rs: verification of the Ark encrypted wire protocol

    The program ([src/src/]) carries requests and responses between a host and
    an Ark over one byte stream. Bottom up it is a stack:
    - [transport/stream.rs], [transport/io.rs]: a byte stream of two halves with
      deadlines, and the shutdown every thread can ask for ([Closer]);
    - [transport/framing.rs]: zero-delimited COBS frames, with recovery after a
      failed write;
    - [transport/sealing.rs], [transport/outbound.rs], [transport/sender.rs]:
      sealing a message with the session's xHPKE context, and the output that
      the sessions of a stream share, from many threads;
    - [transport/handshake.rs], [transport/client.rs], [transport/server.rs]: the
      three-message handshake that authenticates the Ark and sets up a context
      for each direction, and the client and server that run it, receive, end
      and replace sessions over one stream;
    - [protocol/message.rs], [protocol/envelope.rs]: message bodies of the two
      directions, and the protobuf envelope with its request ID;
    - [protocol/promise.rs], [protocol/operation.rs], [protocol/session.rs],
      [protocol/responder.rs]: a session's queues, limits, deadlines and
      promises, shared by a reader, a writer, a deadline worker and the
      application;
    - [protocol/server.rs]: successive sessions over one stream;
    - [protocol/generated/]: the protobuf schema as generated code, its structures,
      enumerations and tables, which the generator beside the crate
      ([generator/src/main.rs]) derives from [proto/wire.proto];
    - [protocol/worker.rs]: the threads of sessions and servers;
    - [protocol/requester.rs], [protocol/closer.rs]: the weak handles an
      application keeps.
    [memory/mod.rs] is an in-memory stream for tests and embedding.

    ** Method

    The model is a shallow embedding. Data are the source's records and enums;
    an operation is a function of the state it locks; what two threads may
    interleave are the critical sections, each one step of a machine. Time is
    [Z] nanoseconds, read where the code reads its clock and otherwise passed in.
    Machine integers are [Z] with their width written out ([checked_add],
    [u64_max], [usize_max], the wrap of [release]). Panics, and loops that do not
    end, are values of [outcome]. Code outside [src/] is an interface with laws:
    the adapters ([Io.Env]), [darkbio-cobs] ([Cobs]), xHPKE ([Sealing]), keys, CBOR,
    COSE, wall time and randomness ([Handshake.Keys], [Messages], [Crypto],
    [Host]), [prost] ([Envelope.Prost]); each has a concrete instance, so that every theorem
    under laws is also applied to a case that satisfies them. The instances of [prost]
    say nothing of that crate's own code: one is a toy coding of empty payloads
    ([Envelope.Plain]), the other the whole schema under the documented protobuf format
    ([Protobuf], [SchemaCodec]), which shows that the laws can hold together with
    the generated tables, and which the cases of the repository's own tests are
    evaluated on.

    Where the code releases its lock before it notifies a condition variable, the
    change and the notification are two steps that others may come between ([Worker],
    [Memory]).

    ** Files

    - [Prelude]: results, outcomes, the state monad [M] with its weakest
      preconditions, byte and list lemmas, hints.
    - [Closer] ([transport/stream.rs], [Closer]): phases, admission and the close
      protocol; the machine of any number of closers and operations. A close
      that returned left the stream closed, its callback run once and no
      operation inside; closing completes, and admits nothing more.
    - [Io], [Script], [Stream]: errors, limits, deadlines, the adapter interface;
      a scripted adapter; the read and write halves with their retries; closing the
      stream as an endpoint does it when it is dropped ([Stream.close_stream]), where
      other closers and operations are the adapter's.
    - [Cobs], [Framing] ([transport/framing.rs]): the codec's interface;
      [FrameReader] and [FrameWriter]. The reader refines the grammar of the wire
      under any chunking; packets round trip; sends recover after failures at any
      byte; a closed stream drains what it buffered.
    - [Sealing], [Outbound], [Sender]: sealed messages open in order;
      [MAX_MESSAGE_SIZE] is exact; a failed send ends its session and, on the
      server, attempts exactly one notification; an ended session is inert; under any interleaving of concurrent sends the wire
      follows the sealing order of each session.
    - [Endpoint]: the reader, output and session contexts that the transport's
      client and server share, with the measure of what is left to read.
    - [Handshake] ([transport/handshake.rs]): its messages, signing time,
      attestations and trust policies, over the interfaces of the cryptography.
    - [TransportClient] ([transport/client.rs]): [connect] accepts only an
      authenticated hello and retires every sender issued before; [recv] agrees
      with a reference function; the state stays well formed.
    - [TransportServer] ([transport/server.rs]): [recv] returns; in a session its
      result, what it sends and what it keeps are those of the next wire event, a new
      session comes from a bound pair of hello and ack, and the server refines an
      abstract one with one session at a time.
    - [Connection]: both together: by their own code each side accepts the other's
      handshake, an honest server is never turned away, a session delivers the peer's
      messages in order.
    - [Memory] ([memory/mod.rs]): the bounded pipe and its condition variable: a
      lossless queue that loses no wakeup: whoever sleeps and could go on has a
      notification on its way.
    - [Protobuf]: the wire format: base-128 integers, keys, values, unknown fields, and
      the kinds of fields with their combinators, whose round trip is proved once
      for each; it models no code of the repository.
    - [Schema], [SchemaContent] ([protocol/generated/]): every enumeration and
      structure with the kind and tag of its fields, the contents of both envelopes,
      of the routing view, and its names. [SchemaCodec]: the envelopes on the wire.
      With the tables of the sources the protobuf format meets the interface of
      [Envelope]: it round trips in both views also among unknown fields; routing reads
      nothing below the envelope, and the generated tables agree.
    - [Generator] ([generator/src/main.rs]): the schema generator, over descriptors as
      data and with the texts it writes, compared with a reference that names the
      lines of the sources directly ([Generator.Reference]). It panics exactly where an
      envelope breaks the tag layout, and otherwise writes the sorted set of bodies, and
      conversions and names of exactly the contents; the routing view keeps every field
      but the types of messages. [WireProto]: the descriptors of [proto/wire.proto].
      [SchemaSource]: a test by evaluation: on them the generator writes the checked-in
      [message.rs] and [darkbio.wire.names.rs], and the structures and enumerations of
      [Schema] have the declared tags, names and numbers.
    - [LogId] ([lib.rs]): the labels of sessions in log lines, distinct until the
      counter wraps.
    - [Message], [Envelope]: schema tables and conversions; headers, encoding,
      decoding, ID parity, byte charges. Envelopes round trip, and routing is
      total and unambiguous.
    - [Promise]: the store of a session's promises, with the one-slot channel,
      notification and byte charge of each; [Settling]: promises against pending
      operations, and what settling leaves alone.
    - [Session] ([protocol/session.rs]): the locked state and every critical
      section over it; [SessionInv]: the invariant, kept by closing, expiry,
      submission, admission and routing; [SessionPass]: kept by the rest, and
      what every section preserves ([keeps]).
    - [SessionMachine]: reader, writer, deadline worker and application as one
      machine ([step], [reachable]), and the theorems over it: promises settle
      once and none is stranded; inbound IDs and bytes are exact and within
      their limits; request IDs increase; answers and requests sent by the peer
      reach the application; the writer takes live messages in order; the
      deadline worker never oversleeps; closing is final; admission, writes,
      dropped responders on every branch; no panic but for used-up IDs.
    - [SessionFixture] ([protocol/session.rs]): the entry points that drive a session by
      hand for scenarios and fuzzing, each compared with the worker whose place it
      takes, and the one line a session logs when it ends.
    - [Conversation]: two session machines joined by the messages they send, both
      sides' threads interleaving freely ([step2], [reachable2]). What a promise
      holds is the one reply to the one request made under it; a request taken is the
      one its peer sent; honest sides never end each other as malformed. A message is
      delivered once its send returned; an answer that comes before the writer has
      recorded its write is a step of the single machine of [SessionMachine]. Its
      channels are what [Connection] and [Sender] establish of the transport: the
      messages of a session arrive whole and in the order they were sealed.
    - [ProtocolServer] ([protocol/server.rs]): the server over the interface
      [Sessions], which [Session] implements: at most one session is served,
      closing ends everything with the first reason, acceptance hands over the newest session with the
      policy, a closed server stays closed.
    - [ProtocolClient] ([protocol/session.rs], [connect] and [run_reader]): the
      transport's client feeding a session among its threads, from the handshake
      to the end, where stream, session and transport are closed.
    - [ServerWire] ([protocol/server.rs], [run_reader]): the transport's server
      under the protocol's; their sessions are the same.
    - [EndToEnd], [EndToEndClient]: the whole stack of either side: a request that
      the client encoded, sealed and framed ends in the queue of the server's
      session as the message that was sent; a reply ends in the promise that waits
      for it.
    - [Handles] ([protocol/requester.rs], [protocol/responder.rs],
      [protocol/operation.rs], [protocol/closer.rs]): a handle acts on its own session
      alone.
    - [Worker] ([protocol/worker.rs]): spawning, the guard that aborts on a panic, and
      the tracker, which counts a worker out before it notifies: waiting for the
      workers is exact and loses no wakeup.

    ** Bounds and fuel

    The loops over the adapter ([Stream.read_half], [Stream.write_loop],
    [Framing.next_frame]) take fuel. An adapter has a budget that every call uses
    up, and the totality theorems give the fuel from it, so the theorems about
    them state that they return. The receiving loops ([await_hello], [exchange],
    [passes], [run_reader]) are measured by [Framing.unread], what the buffer and
    the budget still hold: every pass takes an event, and [max + 2] units and
    [max + 1] for each unit of the budget are enough for frames of [max] bytes; a
    server's receive may take a pass for a handshake beside each event, hence
    twice the fuel. [Envelope.unknown_content] scans with one unit
    of fuel more than the bytes it is given, which suffices because the scanner
    consumes its input; so do the readers of [Protobuf], whose fuel is the length of
    their input, every field taking a byte at least. Everything else is structural,
    or a step of a machine whose runs are as long as the threads make them.

    ** Not modelled

    Log texts, test hooks that only signal or pause a thread, the raw frame and packet
    accessors and the fixed signing time of test vectors, mocks, fuzz drivers, benchmarks
    and the build script are left out: they are harness code around the operations
    modelled here. Of the generator, loading the descriptors and compiling the bindings
    from them are calls of protoc and [prost-build]. The [prost] crate's own code is not part of the
    sources: its recursion limit, and the values that its derived enumeration
    conversions accept, are not modelled. The calls of a transport endpoint
    are atomic towards each other; what other threads do through senders while
    one of them waits is an argument of it ([others]), and [close] is the
    closer's. A condition variable is modelled where its wakeups
    are the point ([Closer], [Memory], [Worker]); elsewhere a waiting call is one that does
    not return yet. *)

From Stdlib Require Export ZArith Lia.
From Stdlib Require Import Strings.Byte.
From stdpp Require Export base tactics list option numbers gmap strings.

#[global] Set Default Goal Selector "!".

(** ** Results, as in [core::result] *)

Inductive result (A E : Type) : Type :=
  | Ok (a : A)
  | Err (e : E).
Arguments Ok {A E} a.
Arguments Err {A E} e.

Definition is_ok {A E} (r : result A E) : bool :=
  match r with Ok _ => true | Err _ => false end.

Definition is_err {A E} (r : result A E) : bool := negb (is_ok r).

Definition map_err {A E F} (f : E → F) (r : result A E) : result A F :=
  match r with Ok a => Ok a | Err e => Err (f e) end.

Lemma map_err_Ok {A E F} (f : E → F) (r : result A E) a : map_err f r = Ok a → r = Ok a.
Proof. destruct r; naive_solver. Qed.

Lemma map_err_Err {A E F} (f : E → F) (r : result A E) e :
  map_err f r = Err e → ∃ e', e = f e'.
Proof. destruct r; naive_solver. Qed.

Lemma map_err_Err_eq {A E F} (f : E → F) (r : result A E) e :
  map_err f r = Err e → ∃ e', e = f e' ∧ r = Err e'.
Proof. destruct r as [a|e']; simpl; [done|]. intros [= <-]. by exists e'. Qed.

Definition result_ok {A E} (r : result A E) : option A :=
  match r with Ok a => Some a | Err _ => None end.

(** [Result::and]: the first error, else the second result. *)
Definition result_and {A B E} (r : result A E) (s : result B E) : result B E :=
  match r with Ok _ => s | Err e => Err e end.

#[global] Instance result_eq_dec {A E} `{EqDecision A, EqDecision E} :
  EqDecision (result A E).
Proof. solve_decision. Defined.

(** ** Bytes *)

Abbreviation byte := Byte.byte.

#[global] Instance byte_eq_dec : EqDecision byte := Byte.byte_eq_dec.

Definition is_zero (b : byte) : bool := bool_decide (b = Byte.x00).

(** A block without the frame delimiter. *)
Definition zero_free (bs : list byte) : Prop := Forall (λ b, b ≠ Byte.x00) bs.

#[global] Instance zero_free_dec bs : Decision (zero_free bs).
Proof. unfold zero_free. apply _. Defined.

Definition byte_value (b : byte) : Z := Z.of_N (Byte.to_N b).

Definition between (a b : Z) (x : byte) : bool :=
  (a <=? byte_value x)%Z && (byte_value x <=? b)%Z.

(** The well-formed byte sequences of the Unicode standard, which the contents of
    a Rust [String] are. *)
Fixpoint utf8 (bs : list byte) : bool :=
  match bs with
  | [] => true
  | a :: r =>
      if between 0x00 0x7f a then utf8 r
      else
        match r with
        | b :: r =>
            if between 0xc2 0xdf a && between 0x80 0xbf b then utf8 r
            else
              match r with
              | c :: r =>
                  if (between 0xe0 0xe0 a && between 0xa0 0xbf b
                      || between 0xe1 0xec a && between 0x80 0xbf b
                      || between 0xed 0xed a && between 0x80 0x9f b
                      || between 0xee 0xef a && between 0x80 0xbf b)
                     && between 0x80 0xbf c
                  then utf8 r
                  else
                    match r with
                    | d :: r =>
                        (between 0xf0 0xf0 a && between 0x90 0xbf b
                         || between 0xf1 0xf3 a && between 0x80 0xbf b
                         || between 0xf4 0xf4 a && between 0x80 0x8f b)
                        && between 0x80 0xbf c && between 0x80 0xbf d && utf8 r
                    | [] => false
                    end
              | [] => false
              end
        | [] => false
        end
  end.

(** A Rust [String]. *)
Definition utf8_string (s : string) : bool := utf8 (String.list_byte_of_string s).

Lemma byte_value_range b : (0 ≤ byte_value b < 256)%Z.
Proof. unfold byte_value. pose proof (Byte.to_N_bounded b). lia. Qed.

(** ** Outcomes and the effect monad

    A computation over a world [Ω] returns a value and the next world, or
    panics, or runs out of the fuel that bounds its loops. *)

Inductive outcome (A : Type) : Type :=
  | Ret (a : A)
  | Panicked
  | Diverged.
Arguments Ret {A} a.
Arguments Panicked {A}.
Arguments Diverged {A}.

Definition M (Ω A : Type) : Type := Ω → outcome (A * Ω).

#[global] Instance M_ret {Ω} : MRet (M Ω) := λ A a ω, Ret (a, ω).

#[global] Instance M_bind {Ω} : MBind (M Ω) := λ A B f m ω,
  match m ω with
  | Ret (a, ω') => f a ω'
  | Panicked => Panicked
  | Diverged => Diverged
  end.

Definition panic {Ω A} : M Ω A := λ _, Panicked.
Definition diverge {Ω A} : M Ω A := λ _, Diverged.

(** Lifts a total operation of the world. *)
Definition op {Ω A} (f : Ω → A * Ω) : M Ω A := λ ω, Ret (f ω).

(** [Option::expect] *)
Definition expect {Ω A} (o : option A) : M Ω A :=
  match o with Some a => mret a | None => panic end.

(** [wp d m ω Q]: running [m] in [ω] does not panic, where it returns [Q] holds
    of the value and the world, and where its fuel runs out [d] holds. So
    [post] is partial correctness and [tpost] total correctness, both without
    panics. *)
Definition wp {Ω A} (d : Prop) (m : M Ω A) (ω : Ω) (Q : A → Ω → Prop) : Prop :=
  match m ω with
  | Ret (a, ω') => Q a ω'
  | Panicked => False
  | Diverged => d
  end.

Abbreviation post := (wp True).
Abbreviation tpost := (wp False).

(** The [?] operator: continue with the value, or return the error. *)
Definition try_ {Ω A B E} (m : M Ω (result A E)) (k : A → M Ω (result B E)) :
  M Ω (result B E) :=
  r ← m;
  match r with Ok a => k a | Err e => mret (Err e) end.

Notation "x ←? m ; k" := (try_ m (λ x, k))
  (at level 20, m at level 100, k at level 200, right associativity, only parsing)
  : stdpp_scope.

(** The [?] operator on a call that also returns the state it changed. *)
Definition try_in {Ω S A B E} (m : M Ω (result A E * S))
    (k : A → S → M Ω (result B E * S)) : M Ω (result B E * S) :=
  '(r, s) ← m;
  match r with Ok a => k a s | Err e => mret (Err e, s) end.

(** The [?] operator on a value. *)
Definition try_of {Ω A B E} (r : result A E) (k : A → M Ω (result B E)) :
  M Ω (result B E) :=
  match r with Ok a => k a | Err e => mret (Err e) end.

Notation "x 'of?' r ; k" := (try_of r (λ x, k))
  (at level 20, r at level 100, k at level 200, right associativity, only parsing)
  : stdpp_scope.

Section wp.
Context {Ω : Type} (d : Prop).

Lemma wp_ret {A} (a : A) (ω : Ω) (Q : A → Ω → Prop) : Q a ω → wp d (mret a) ω Q.
Proof. done. Qed.

Lemma wp_op {A} (f : Ω → A * Ω) (ω : Ω) (Q : A → Ω → Prop) :
  Q (f ω).1 (f ω).2 → wp d (op f) ω Q.
Proof. unfold wp, op. by destruct (f ω). Qed.

Lemma wp_bind {A B} (m : M Ω A) (f : A → M Ω B) (ω : Ω) (Q : B → Ω → Prop) :
  wp d m ω (λ a ω', wp d (f a) ω' Q) → wp d (m ≫= f) ω Q.
Proof. unfold wp, mbind, M_bind. by destruct (m ω) as [[a ω']| |]. Qed.

Lemma wp_try {A B E} (m : M Ω (result A E)) (k : A → M Ω (result B E)) (ω : Ω)
    (Q : result B E → Ω → Prop) :
  wp d m ω (λ r ω', match r with
                    | Ok a => wp d (k a) ω' Q
                    | Err e => Q (Err e) ω'
                    end) →
  wp d (try_ m k) ω Q.
Proof.
  unfold try_, wp, mbind, M_bind. by destruct (m ω) as [[[] ω']| |].
Qed.

Lemma wp_try_in {S A B E} (m : M Ω (result A E * S))
    (k : A → S → M Ω (result B E * S)) (ω : Ω) (Q : result B E * S → Ω → Prop) :
  wp d m ω (λ p ω', match p.1 with
                    | Ok a => wp d (k a p.2) ω' Q
                    | Err e => Q (Err e, p.2) ω'
                    end) →
  wp d (try_in m k) ω Q.
Proof.
  unfold try_in, wp, mbind, M_bind. by destruct (m ω) as [[[[] s] ω']| |].
Qed.

Lemma wp_try_of {A B E} (r : result A E) (k : A → M Ω (result B E)) (ω : Ω)
    (Q : result B E → Ω → Prop) :
  (∀ a, r = Ok a → wp d (k a) ω Q) → (∀ e, r = Err e → Q (Err e) ω) →
  wp d (try_of r k) ω Q.
Proof. intros Hok Herr. destruct r; simpl; [by apply Hok|by apply Herr]. Qed.

Lemma wp_mono {A} (m : M Ω A) (ω : Ω) (P Q : A → Ω → Prop) :
  wp d m ω P → (∀ a ω', P a ω' → Q a ω') → wp d m ω Q.
Proof. unfold wp. destruct (m ω) as [[a ω']| |]; eauto. Qed.

Lemma wp_diverge {A} (ω : Ω) (Q : A → Ω → Prop) : d → wp d diverge ω Q.
Proof. done. Qed.

Lemma wp_elim {A} (m : M Ω A) (ω ω' : Ω) (Q : A → Ω → Prop) a :
  wp d m ω Q → m ω = Ret (a, ω') → Q a ω'.
Proof. unfold wp. intros Hm E. by rewrite E in Hm. Qed.

(** What is shown of a run may mention the run. *)
Lemma wp_run {A} (m : M Ω A) (ω : Ω) (Q : A → Ω → Prop) :
  wp d m ω Q → wp d m ω (λ a ω', m ω = Ret (a, ω') ∧ Q a ω').
Proof. unfold wp. by destruct (m ω) as [[a ω']| |]. Qed.

Lemma wp_and {A} (m : M Ω A) (ω : Ω) (P Q : A → Ω → Prop) :
  wp d m ω P → wp d m ω Q → wp d m ω (λ a ω', P a ω' ∧ Q a ω').
Proof. unfold wp. destruct (m ω) as [[a ω']| |]; eauto. Qed.

Lemma wp_total_partial {A} (m : M Ω A) (ω : Ω) (P Q : A → Ω → Prop) :
  wp d m ω P → post m ω Q → wp d m ω (λ a ω', P a ω' ∧ Q a ω').
Proof. unfold wp. destruct (m ω) as [[a ω']| |]; eauto. Qed.
End wp.

(** Total correctness names the result. *)
Lemma tpost_returns {Ω A} (m : M Ω A) (ω : Ω) (Q : A → Ω → Prop) :
  tpost m ω Q → ∃ a ω', m ω = Ret (a, ω') ∧ Q a ω'.
Proof. unfold wp. destruct (m ω) as [[a ω']| |]; naive_solver. Qed.

(** One symbolic step through a monadic program. *)
Ltac post_step :=
  match goal with
  | |- wp _ (mbind _ _) _ _ => apply wp_bind
  | |- wp _ (try_ _ _) _ _ => apply wp_try
  | |- wp _ (try_in _ _) _ _ => apply wp_try_in
  | |- wp _ (mret _) _ _ => apply wp_ret
  | |- wp _ (op _) _ _ => apply wp_op
  end.

Ltac post_steps := repeat post_step.

(** ** Machine integers *)

Definition usize_max : Z := 2 ^ 64 - 1.
Definition u64_max : Z := 2 ^ 64 - 1.

(** A value of an integer type. *)
Definition in_range (a b v : Z) : bool := (a <=? v)%Z && (v <=? b)%Z.

Lemma in_range_true a b v : in_range a b v = true → (a ≤ v ≤ b)%Z.
Proof. unfold in_range. intros [?%Z.leb_le ?%Z.leb_le]%andb_true_iff. lia. Qed.

(** [u64::checked_add] / [usize::checked_add] on the values that fit. *)
Definition checked_add (max a b : Z) : option Z :=
  if decide (a + b ≤ max)%Z then Some (a + b)%Z else None.

Lemma checked_add_Some max a b c :
  checked_add max a b = Some c ↔ c = (a + b)%Z ∧ (a + b ≤ max)%Z.
Proof. unfold checked_add. case_decide; naive_solver. Qed.

(** ** Lists *)

(** Position of the first element satisfying a test, as [memchr] reports it. *)
Fixpoint find_index {A} (p : A → bool) (l : list A) : option nat :=
  match l with
  | [] => None
  | x :: l => if p x then Some 0 else S <$> find_index p l
  end.

Lemma find_index_Some {A} (p : A → bool) l i :
  find_index p l = Some i →
  ∃ x l1 l2, l = l1 ++ x :: l2 ∧ length l1 = i ∧ p x = true
    ∧ Forall (λ y, p y = false) l1.
Proof.
  revert i. induction l as [|x l IH]; intros i; simpl; [done|].
  destruct (p x) eqn:Hp.
  - intros [= <-]. by exists x, [], l.
  - destruct (find_index p l) as [j|] eqn:E; simpl; [|done].
    intros [= <-]. destruct (IH j eq_refl) as (y & l1 & l2 & -> & <- & ? & ?).
    exists y, (x :: l1), l2. repeat split; eauto.
Qed.

Lemma find_index_None {A} (p : A → bool) l :
  find_index p l = None ↔ Forall (λ y, p y = false) l.
Proof.
  induction l as [|x l IH]; simpl; [done|].
  rewrite Forall_cons. destruct (p x); [naive_solver|].
  destruct (find_index p l); naive_solver.
Qed.

Lemma is_zero_false_Forall bs :
  Forall (λ b, is_zero b = false) bs ↔ zero_free bs.
Proof.
  unfold zero_free, is_zero. apply Forall_iff. intros b.
  by rewrite bool_decide_eq_false.
Qed.

Lemma is_zero_true b : is_zero b = true ↔ b = Byte.x00.
Proof. unfold is_zero. by rewrite bool_decide_eq_true. Qed.

Lemma is_zero_x00 : is_zero Byte.x00 = true.
Proof. reflexivity. Qed.

Lemma is_zero_ne b : b ≠ Byte.x00 → is_zero b = false.
Proof. apply bool_decide_eq_false_2. Qed.

Lemma zero_free_app l k : zero_free (l ++ k) ↔ zero_free l ∧ zero_free k.
Proof. apply Forall_app. Qed.

Lemma zero_free_take n l : zero_free l → zero_free (take n l).
Proof. apply Forall_take. Qed.

Lemma zero_free_nil : zero_free [].
Proof. constructor. Qed.

Create HintDb wire.
#[export] Hint Resolve zero_free_nil zero_free_take : wire.
#[export] Hint Resolve Forall_nil_2 prefix_nil : wire.

(** Breaks every pair, conjunction and existential of the context. *)
Ltac destruct_all :=
  repeat match goal with
  | H : _ ∧ _ |- _ => destruct H
  | H : ∃ _, _ |- _ => destruct H
  | p : (_ * _)%type |- _ => destruct p
  end; simplify_eq.
