(* ===== verification/Closer.v ===== *)
(** * Shutdown coordination of a byte stream ([transport/stream.rs], [Closer])

    The state guarded by the stream's lock, the critical sections that read and
    write it, and the machine of the threads that run them: any number of
    closers, each with its program counter and its condition-variable wait, and
    any number of admitted adapter operations. *)

From stdpp Require Import relations.
From S2P Require Import Prelude.

Module Shutdown.

(** ** State and critical sections *)

Inductive Phase := Open | Closing | Closed.

#[global] Instance Phase_eq_dec : EqDecision Phase.
Proof. solve_decision. Defined.

(** [State]: lifecycle phase, admitted operations, and the shutdown callback
    until the first closer takes it. *)
Record State := MkState {
  phase : Phase;
  active : nat;
  action : option unit;
}.

(** [Closer::new] *)
Definition closer_new : State := MkState Open 0 (Some tt).

(** [Closer::enter]: admits one adapter call while the stream is open. *)
Definition enter (st : State) : option State :=
  if decide (phase st ≠ Open) then None
  else Some (MkState (phase st) (S (active st)) (action st)).

(** [Activity::drop]: the next state and whether waiting closers are notified,
    or [None] where the count would underflow. *)
Definition activity_drop (st : State) : option (State * bool) :=
  match active st with
  | O => None
  | S n => Some (MkState (phase st) n (action st), bool_decide (n = 0))
  end.

(** While the stream is open the callback has not been taken. *)
Definition armed (st : State) : Prop := phase st = Open → action st = Some tt.

(** What a closer does in the first critical section of [Closer::close]. *)
Inductive CloseDecision :=
  | CloseReturns
  | CloseWaits
  | CloseRuns (st : State)
  | ClosePanics.

Definition close_begin (st : State) : CloseDecision :=
  match phase st with
  | Closed => CloseReturns
  | Closing => CloseWaits
  | Open =>
      match action st with
      | Some _ => CloseRuns (MkState Closing (active st) None)
      | None => ClosePanics
      end
  end.

(** The last critical section of [Closer::close]: [None] waits for admitted
    operations, and completion notifies every waiter. *)
Definition close_finish (st : State) : option State :=
  if decide (active st ≠ 0) then None
  else Some (MkState Closed (active st) (action st)).

(** ** The threads *)

(** Program counter of one [close] call: before the first critical section,
    waiting in it, running the callback, before the last critical section,
    waiting in it, returned. *)
Inductive pc := Begin | Sleeping | Running | Draining | DrainSleeping | Returned.

#[global] Instance pc_eq_dec : EqDecision pc.
Proof. solve_decision. Defined.

(** [Condvar::notify_all] *)
Definition wake (p : pc) : pc :=
  match p with Sleeping => Begin | DrainSleeping => Draining | p => p end.

Definition wake_if (b : bool) (ps : list pc) : list pc :=
  if b then wake <$> ps else ps.

(** The shared state, the closers, the admission guards held by operations and
    the number of times the callback ran. *)
Record sys := MkSys {
  st : State;
  closers : list pc;
  ops : nat;
  runs : nat;
}.

Definition sys_init : sys := MkSys closer_new [] 0 0.

(** Steps that bring a close call closer to its return. *)
Inductive pstep : sys → sys → Prop :=
  | step_returns s i :
      closers s !! i = Some Begin → close_begin (st s) = CloseReturns →
      pstep s (MkSys (st s) (<[i:=Returned]> (closers s)) (ops s) (runs s))
  | step_waits s i :
      closers s !! i = Some Begin → close_begin (st s) = CloseWaits →
      pstep s (MkSys (st s) (<[i:=Sleeping]> (closers s)) (ops s) (runs s))
  | step_takes s i st' :
      closers s !! i = Some Begin → close_begin (st s) = CloseRuns st' →
      pstep s (MkSys st' (<[i:=Running]> (closers s)) (ops s) (runs s))
  | step_action s i :
      closers s !! i = Some Running →
      pstep s (MkSys (st s) (<[i:=Draining]> (closers s)) (ops s) (S (runs s)))
  | step_drain_waits s i :
      closers s !! i = Some Draining → close_finish (st s) = None →
      pstep s (MkSys (st s) (<[i:=DrainSleeping]> (closers s)) (ops s) (runs s))
  | step_drained s i st' :
      closers s !! i = Some Draining → close_finish (st s) = Some st' →
      pstep s (MkSys st' (wake <$> <[i:=Returned]> (closers s)) (ops s) (runs s))
  | step_exit s n st' b :
      ops s = S n → activity_drop (st s) = Some (st', b) →
      pstep s (MkSys st' (wake_if b (closers s)) n (runs s)).

(** Every step: also new calls, admissions and spurious wakeups. *)
Inductive step : sys → sys → Prop :=
  | step_progress s s' : pstep s s' → step s s'
  | step_call s :
      step s (MkSys (st s) (closers s ++ [Begin]) (ops s) (runs s))
  | step_enter s st' :
      enter (st s) = Some st' → step s (MkSys st' (closers s) (S (ops s)) (runs s))
  | step_spurious s i p :
      closers s !! i = Some p →
      step s (MkSys (st s) (<[i:=wake p]> (closers s)) (ops s) (runs s)).

Definition reachable (s : sys) : Prop := rtc step sys_init s.

(** ** The invariant *)

(** A closer between taking the callback and publishing [Closed]. *)
Definition owning (p : pc) : Prop := p = Running ∨ p = Draining ∨ p = DrainSleeping.

Definition waiting (p : pc) : Prop := p = Begin ∨ p = Sleeping.

Definition finished (p : pc) : Prop := p = Begin ∨ p = Returned.

Definition owned_by (s : sys) (i : nat) (p : pc) : Prop :=
  closers s !! i = Some p ∧ owning p
  ∧ (∀ j q, j ≠ i → closers s !! j = Some q → waiting q)
  ∧ runs s = (if decide (p = Running) then 0 else 1)
  ∧ (p = DrainSleeping → ops s ≠ 0).

Record inv (s : sys) : Prop := MkInv {
  inv_active : active (st s) = ops s;
  inv_phase :
    match phase (st s) with
    | Open => action (st s) = Some tt ∧ runs s = 0 ∧ Forall (λ p, p = Begin) (closers s)
    | Closing => action (st s) = None ∧ ∃ i p, owned_by s i p
    | Closed => action (st s) = None ∧ runs s = 1 ∧ ops s = 0
        ∧ Forall finished (closers s)
    end;
}.

(** ** Lemmas *)

Section steps.
Implicit Types s : sys.

Lemma inv_init : inv sys_init.
Proof. by split. Qed.

Lemma close_begin_inv s : inv s → close_begin (st s) ≠ ClosePanics.
Proof.
    intros [_ Hp]. unfold close_begin.
    destruct (phase (st s)); [|done..]. by destruct Hp as (-> & _).
Qed.

Lemma activity_drop_inv s n :
    inv s → ops s = S n →
    activity_drop (st s)
    = Some (MkState (phase (st s)) n (action (st s)), bool_decide (n = 0)).
Proof. intros [Ha _] Ho. unfold activity_drop. by rewrite Ha, Ho. Qed.

Lemma waiting_wake p : waiting p → waiting (wake p).
Proof. by intros [->| ->]; left. Qed.

Lemma finished_wake p : waiting p ∨ p = Returned → finished (wake p).
Proof. intros [[->| ->]| ->]; unfold finished; simpl; auto. Qed.

Lemma owning_wake p : owning p → owning (wake p).
Proof. unfold owning. intros [->|[->| ->]]; simpl; auto. Qed.

(** Waking every waiter keeps the owner, which has nothing to sleep on. *)
Lemma owned_by_wake s i p n :
    owned_by s i p →
    owned_by (MkSys (st s) (wake <$> closers s) n (runs s)) i (wake p).
Proof.
    intros (Hi & Ho & Hw & Hr & Hd). unfold owned_by; simpl.
    rewrite list_lookup_fmap, Hi; simpl. split_and!; [done|by apply owning_wake| | |].
    - intros j q Hj. rewrite list_lookup_fmap.
      destruct (closers s !! j) eqn:E; simpl; [|done]. intros [= <-].
      eapply waiting_wake, Hw; eauto.
    - rewrite Hr. destruct p; done.
    - by destruct p.
Qed.

(** Moving one thread: the owner to an owning point, or a waiter to a waiting
      point, keeps the stream owned. *)
Lemma owned_by_insert_owner s i p p' n r :
    owned_by s i p → owning p' → r = (if decide (p' = Running) then 0 else 1) →
    (p' = DrainSleeping → n ≠ 0) →
    owned_by (MkSys (st s) (<[i:=p']> (closers s)) n r) i p'.
Proof.
    intros (Hi & Ho & Hw & Hr & Hd) ???. unfold owned_by; simpl.
    split_and!; auto.
    - apply list_lookup_insert_eq. by eapply lookup_lt_Some.
    - intros j q Hj. rewrite list_lookup_insert_ne by done. eauto.
Qed.

Lemma owned_by_insert_waiter s i p j q q' :
    owned_by s i p → closers s !! j = Some q → waiting q → waiting q' →
    owned_by (MkSys (st s) (<[j:=q']> (closers s)) (ops s) (runs s)) i p.
Proof.
    intros (Hi & Ho & Hw & Hr & Hd) Hj Hq Hq'.
    assert (i ≠ j) as Hij.
    { intros ->. rewrite Hi in Hj. simplify_eq. destruct Ho, Hq; naive_solver. }
    unfold owned_by; simpl. split_and!; auto.
    - by rewrite list_lookup_insert_ne.
    - intros k r' Hk. destruct (decide (k = j)) as [->|?].
      + rewrite list_lookup_insert_eq by (by eapply lookup_lt_Some). naive_solver.
      + rewrite list_lookup_insert_ne by done. eauto.
Qed.

Lemma not_owned_Open s i p : inv s → closers s !! i = Some p → owning p →
    phase (st s) = Closing ∧ owned_by s i p.
Proof.
    intros [_ Hp] Hi Ho. destruct (phase (st s)).
    - destruct Hp as (_ & _ & HF). rewrite Forall_lookup in HF.
      apply HF in Hi. subst. by destruct Ho as [|[|]].
    - destruct Hp as (_ & j & q & Hown). split; [done|].
      destruct (decide (i = j)) as [->|Hne].
      + destruct Hown as (Hj & ?). by simplify_eq.
      + destruct Hown as (_ & _ & Hw & _). destruct (Hw _ _ Hne Hi), Ho; naive_solver.
    - destruct Hp as (_ & _ & _ & HF). rewrite Forall_lookup in HF.
      destruct (HF _ _ Hi), Ho; naive_solver.
Qed.

(** An operation leaves, waking the closer it was waiting for. *)
Lemma inv_exit s n :
  inv s → ops s = S n →
  inv (MkSys (MkState (phase (st s)) n (action (st s)))
         (wake_if (bool_decide (n = 0)) (closers s)) n (runs s)).
Proof.
  intros [Ha Hp] Hn. split; [done|]. simpl.
  destruct (phase (st s)) eqn:E.
  + destruct Hp as (? & ? & HF). split_and!; auto. unfold wake_if.
    destruct (bool_decide _); [|done]. apply Forall_fmap.
    eapply Forall_impl; [done|]. by intros ? ->.
  + destruct Hp as (? & i & p & Hown). split; [done|]. unfold wake_if.
    case_bool_decide as Hz.
    * exists i, (wake p). apply (owned_by_wake _ _ _ n) in Hown. done.
    * exists i, p. destruct Hown as (?&?&?&?&Hsl). unfold owned_by; simpl. by split_and!.
  + destruct Hp as (_ & _ & Hz & _). by rewrite Hz in Hn.
Qed.

(** The owner of a shutdown runs the callback, then drains. *)
Lemma owner_runs s i :
  inv s → closers s !! i = Some Running →
  phase (st s) = Closing ∧ owned_by s i Running
  ∧ owned_by (MkSys (st s) (<[i:=Draining]> (closers s)) (ops s) (S (runs s))) i Draining.
Proof.
  intros Hinv Hi. destruct (not_owned_Open s i Running) as (E & Hown); auto; [by left|].
  split_and!; try done. destruct Hown as (? & ? & ? & Hr & ?).
  apply owned_by_insert_owner with Running; unfold owning, owned_by; auto; by rewrite ?Hr.
Qed.

Lemma owner_waits s i :
  inv s → closers s !! i = Some Draining → close_finish (st s) = None →
  phase (st s) = Closing ∧ owned_by s i Draining
  ∧ owned_by (MkSys (st s) (<[i:=DrainSleeping]> (closers s)) (ops s) (runs s))
      i DrainSleeping.
Proof.
  intros Hinv Hi Hf.
  destruct (not_owned_Open s i Draining) as (E & Hown); auto; [right; by left|].
  split_and!; try done. apply owned_by_insert_owner with Draining; unfold owning; auto.
  - by destruct Hown as (_ & _ & _ & -> & _).
  - pose proof Hinv as [Ha _]. unfold close_finish in Hf. case_decide; [|done]. congruence.
Qed.

Lemma inv_pstep s s' : inv s → pstep s s' → inv s'.
Proof.
    intros Hinv Hs. pose proof Hinv as [Ha Hp].
    destruct Hs as [s i Hi Hc|s i Hi Hc|s i st' Hi Hc|s i Hi|s i Hi Hf|s i st' Hi Hf
                   |s n st' b Hn Hd].
    - unfold close_begin in Hc. split; [done|]. simpl.
      destruct (phase (st s)); [destruct (action (st s)); done|done|].
      destruct Hp as (? & ? & ? & ?). split_and!; try done.
      apply Forall_insert; [done|by right].
    - unfold close_begin in Hc. split; [done|]. simpl.
      destruct (phase (st s)); [destruct (action (st s)); done| |done].
      destruct Hp as (? & j & p & Hown). split; [done|]. exists j, p.
      eapply owned_by_insert_waiter; eauto; unfold waiting; auto.
    - unfold close_begin in Hc. destruct (phase (st s)) eqn:E; [|done..].
      destruct Hp as (Hact & Hr & HF). rewrite Hact in Hc. simplify_eq.
      split; simpl; [done|]. split; [done|]. exists i, Running. unfold owned_by; simpl.
      split_and!; try done; [|unfold owning; auto|].
      + apply list_lookup_insert_eq. by eapply lookup_lt_Some.
      + intros j q Hj. rewrite list_lookup_insert_ne by done.
        intros Hq. rewrite Forall_lookup in HF. left. eauto.
    - destruct (owner_runs s i Hinv Hi) as (E & _ & Hown).
      rewrite E in Hp. destruct Hp as (? & _). split; [done|]. simpl. rewrite E. eauto.
    - destruct (owner_waits s i Hinv Hi Hf) as (E & _ & Hown).
      rewrite E in Hp. destruct Hp as (? & _). split; [done|]. simpl. rewrite E. eauto.
    - destruct (not_owned_Open s i Draining) as (E & Hown); auto; [right; by left|].
      rewrite E in Hp. destruct Hp as (Hact & _).
      unfold close_finish in Hf. case_decide as Hz; [done|].
      simplify_eq. split; simpl; [done|].
      destruct Hown as (_ & _ & Hw & Hr & _). split_and!; try done; [lia|].
      apply Forall_fmap, Forall_lookup. intros j q Hq; simpl. apply finished_wake.
      destruct (decide (j = i)) as [->|Hne].
      + rewrite list_lookup_insert_eq in Hq by (by eapply lookup_lt_Some).
        simplify_eq. by right.
      + rewrite list_lookup_insert_ne in Hq by done. left. eauto.
    - erewrite activity_drop_inv in Hd by eauto. simplify_eq. by apply inv_exit.
Qed.

Lemma inv_step s s' : inv s → step s s' → inv s'.
Proof.
    intros Hinv Hs. pose proof Hinv as [Ha Hp].
    destruct Hs as [s s' Hs|s|s st' He|s i p Hi]; [by eapply inv_pstep| | |].
    - split; [done|]. simpl. destruct (phase (st s)) eqn:E.
      + destruct Hp as (?&?&HF). split_and!; auto. apply Forall_app. auto.
      + destruct Hp as (?&i&p&Hi&Ho&Hw&Hr&Hd). split; [done|]. exists i, p.
        unfold owned_by; simpl. split_and!; auto; [by apply lookup_app_l_Some|].
        intros j q Hj [Hq|[_ Hq]]%lookup_app_Some; [eauto|].
        apply list_lookup_singleton_Some in Hq as (_ & <-). by left.
      + destruct Hp as (?&?&?&HF). split_and!; auto. apply Forall_app.
        split; [done|]. repeat constructor.
    - unfold enter in He. case_decide as Hph; [done|].
      simplify_eq. split; simpl; [by rewrite Ha|]. by rewrite Hph in *.
    - split; [done|]. simpl. destruct (phase (st s)) eqn:E.
      + destruct Hp as (?&?&HF). split_and!; auto. apply Forall_insert; [done|].
        rewrite Forall_lookup in HF. by rewrite (HF _ _ Hi).
      + destruct Hp as (?&j&q&Hown). split; [done|].
        destruct (decide (i = j)) as [->|Hne].
        * pose proof Hown as (Hj & Ho & Hw & Hr & Hd). simplify_eq.
          exists j, (wake p). apply owned_by_insert_owner with p; auto.
          -- by apply owning_wake.
          -- rewrite Hr. by destruct p.
          -- by destruct p.
        * exists j, q. eapply owned_by_insert_waiter; eauto.
          -- destruct Hown as (_&_&Hw&_). eauto.
          -- apply waiting_wake. destruct Hown as (_&_&Hw&_). eauto.
      + destruct Hp as (?&?&?&HF). split_and!; auto. apply Forall_insert; [done|].
        rewrite Forall_lookup in HF. destruct (HF _ _ Hi) as [->| ->];
          unfold finished; simpl; auto.
Qed.

Lemma reachable_inv s : reachable s → inv s.
Proof.
    unfold reachable. intros Hr. remember sys_init as s0.
    assert (inv s0) as Hinv by (subst; apply inv_init). clear Heqs0.
    induction Hr; eauto using inv_step.
Qed.
End steps.

(** ** Termination measure *)

(** Steps left before [Closed] is published, counting an admitted operation
    twice: its return may wake the draining closer once. *)
Definition stage (s : sys) : nat :=
  match phase (st s) with
  | Open => 4
  | Closed => 0
  | Closing =>
      if decide (Running ∈ closers s) then 3
      else if decide (Draining ∈ closers s) then 2 else 1
  end.

Definition weight (p : pc) : nat :=
  match p with Begin => 2 | Sleeping => 1 | _ => 0 end.

Definition weights (ps : list pc) : nat := sum_list (weight <$> ps).

(** Bound on the progress steps a state still allows. *)
Definition work (s : sys) : nat :=
  (stage s + 2 * ops s) * (2 * length (closers s) + 1) + weights (closers s).

Section termination.
Implicit Types s : sys.

Lemma weights_insert ps i p q :
    ps !! i = Some p → weights (<[i:=q]> ps) + weight p = weights ps + weight q.
Proof.
    intros Hi. unfold weights. rewrite list_fmap_insert.
    revert i Hi. induction ps as [|x ps IH]; intros [|i]; csimpl; try done.
    - intros [= ->]. lia.
    - intros Hi. specialize (IH i Hi). lia.
Qed.

Lemma weights_bound ps : weights ps ≤ 2 * length ps.
Proof.
    unfold weights. induction ps as [|p ps IH]; csimpl; [lia|]. destruct p; simpl; lia.
Qed.

Lemma stage_owned s i p : phase (st s) = Closing → owned_by s i p →
    stage s = match p with Running => 3 | Draining => 2 | _ => 1 end.
Proof.
    intros Hph (Hi & Ho & Hw & _). unfold stage. rewrite Hph.
    assert (∀ q, owning q → q ∈ closers s → q = p) as Huniq.
    { intros q Hq (j & Hj)%list_elem_of_lookup. destruct (decide (j = i)); [naive_solver|].
      destruct (Hw _ _ n Hj), Hq; naive_solver. }
    assert (p ∈ closers s) by (apply list_elem_of_lookup; eauto).
    destruct (decide (Running ∈ _)) as [Hin|?]; [apply Huniq in Hin; [by subst|by left]|].
    destruct (decide (Draining ∈ _)) as [Hin|?];
      [apply Huniq in Hin; [by subst|right; by left]|].
    by destruct Ho as [->|[->| ->]].
Qed.

(** Every progress step does some of the work that is left. *)
Lemma exit_work s n :
  inv s → ops s = S n →
  work (MkSys (MkState (phase (st s)) n (action (st s)))
          (wake_if (bool_decide (n = 0)) (closers s)) n (runs s)) < work s.
Proof.
  intros [Ha Hp] Hn. unfold work; simpl. rewrite Hn.
  assert (length (wake_if (bool_decide (n = 0)) (closers s)) = length (closers s))
    as Hlen by (unfold wake_if; destruct (bool_decide _); by rewrite ?length_fmap).
  pose proof (weights_bound (wake_if (bool_decide (n = 0)) (closers s))) as Hb.
  rewrite Hlen in *.
  enough (stage (MkSys (MkState (phase (st s)) n (action (st s)))
    (wake_if (bool_decide (n = 0)) (closers s)) n (runs s)) ≤ S (stage s)) by nia.
  destruct (phase (st s)) eqn:E; [unfold stage; simpl; rewrite E; lia| |unfold stage; simpl; rewrite E; lia].
  destruct Hp as (_ & i & p & Hown). rewrite (stage_owned s i p) by done.
  unfold wake_if. case_bool_decide.
  + pose proof (owned_by_wake _ _ _ n Hown).
    rewrite (stage_owned _ i (wake p)) by done. destruct p; simpl; lia.
  + rewrite (stage_owned _ i p); [lia|done|].
    destruct Hown as (?&?&?&?&?). unfold owned_by; simpl. by split_and!.
Qed.

Lemma pstep_work s s' : inv s → pstep s s' → work s' < work s.
Proof.
    intros Hinv Hs. pose proof Hinv as [Ha Hp].
    destruct Hs as [s i Hi Hc|s i Hi Hc|s i st' Hi Hc|s i Hi|s i Hi Hf|s i st' Hi Hf
                   |s n st' b Hn Hd]; unfold work; simpl.
    - unfold close_begin in Hc. pose proof (weights_insert _ _ _ Returned Hi).
      rewrite length_insert. unfold stage; simpl.
      destruct (phase (st s)); [destruct (action (st s)); done|done|]. simpl in *. lia.
    - unfold close_begin in Hc. pose proof (weights_insert _ _ _ Sleeping Hi).
      rewrite length_insert.
      destruct (phase (st s)) eqn:E; [destruct (action (st s)); done| |done].
      destruct Hp as (_ & j & p & Hown).
      assert (owned_by (MkSys (st s) (<[i:=Sleeping]> (closers s)) (ops s) (runs s)) j p)
        by (eapply owned_by_insert_waiter; eauto; unfold waiting; auto).
      rewrite (stage_owned s j p), (stage_owned _ j p) by done. simpl in *. lia.
    - unfold close_begin in Hc. destruct (phase (st s)) eqn:E; [|done..].
      destruct (action (st s)); [|done]. simplify_eq.
      pose proof (weights_insert _ _ _ Running Hi). rewrite length_insert.
      unfold stage; simpl. rewrite E. simpl in *. case_decide; [|case_decide]; lia.
    - destruct (owner_runs s i Hinv Hi) as (E & Hown & Hown').
      pose proof (weights_insert _ _ _ Draining Hi). rewrite length_insert.
      rewrite (stage_owned s i Running), (stage_owned _ i Draining) by done.
      simpl in *. lia.
    - destruct (owner_waits s i Hinv Hi Hf) as (E & Hown & Hown').
      pose proof (weights_insert _ _ _ DrainSleeping Hi). rewrite length_insert.
      rewrite (stage_owned s i Draining), (stage_owned _ i DrainSleeping) by done.
      simpl in *. lia.
    - destruct (not_owned_Open s i Draining) as (E & Hown); auto; [right; by left|].
      unfold close_finish in Hf. case_decide; [done|]. simplify_eq.
      rewrite (stage_owned s i Draining) by done.
      change (stage (MkSys _ _ _ _)) with 0.
      pose proof (weights_bound (wake <$> <[i:=Returned]> (closers s))) as Hb.
      rewrite length_fmap, length_insert in *. simpl. lia.
    - rewrite Hn. erewrite activity_drop_inv in Hd by eauto. simplify_eq.
      pose proof (exit_work s n Hinv Hn) as Hw. unfold work in Hw. by rewrite Hn in Hw.
Qed.
End termination.

(** ** Properties *)

(** C30: When any call of [close] has returned, the stream is closed: the
    shutdown callback ran exactly once, whoever ran it, and no admitted adapter
    operation is in progress, under every interleaving of closers, operations
    and spurious wakeups. *)
Theorem close_returns_closed s i :
  reachable s → closers s !! i = Some Returned →
  phase (st s) = Closed ∧ ops s = 0 ∧ runs s = 1.
Proof.
  intros Hr Hi. pose proof (reachable_inv s Hr) as [_ Hp].
  destruct (phase (st s)).
  - destruct Hp as (_ & _ & HF). rewrite Forall_lookup in HF. by apply HF in Hi.
  - destruct Hp as (_ & j & p & Hj & Ho & Hw & _).
    destruct (decide (i = j)) as [->|Hne].
    + rewrite Hi in Hj. simplify_eq. by destruct Ho as [|[|]].
    + by destruct (Hw _ _ Hne Hi).
  - by destruct Hp as (_ & ? & ? & _).
Qed.

(** C31: Closing makes progress. From any reachable state at most [work s] steps
    of the closers and of the operations leaving remain, and when none is left
    every [close] call has returned: no wakeup is lost and none waits for ever. *)
Theorem close_completes s n s' :
  reachable s → nsteps pstep n s s' →
  n ≤ work s
  ∧ ((∀ s'', ¬ pstep s' s'') → Forall (λ p, p = Returned) (closers s') ∧ ops s' = 0).
Proof.
  intros Hr Hn. pose proof (reachable_inv s Hr) as Hinv. clear Hr.
  assert (n + work s' ≤ work s ∧ inv s') as [Hw Hinv'].
  { induction Hn as [|k s1 s2 s3 Hs _ IH]; [auto|].
    pose proof (pstep_work _ _ Hinv Hs). destruct IH; [by eapply inv_pstep|]. split; [lia|done]. }
  split; [lia|]. intros Hstuck. destruct Hinv' as [Ha Hp].
  assert (ops s' = 0) as Ho.
  { destruct (ops s') as [|k] eqn:E; [done|]. exfalso. eapply Hstuck, step_exit; [done|].
    unfold activity_drop. by rewrite Ha. }
  split; [|done]. apply Forall_lookup. intros i p Hi.
  destruct p; [|exfalso..|done].
  - exfalso. destruct (close_begin (st s')) eqn:E; [by eapply Hstuck, step_returns
      |by eapply Hstuck, step_waits|by eapply Hstuck, step_takes|].
    by eapply close_begin_inv; [split|].
  - destruct (phase (st s')).
    + destruct Hp as (_ & _ & HF). rewrite Forall_lookup in HF. by apply HF in Hi.
    + destruct Hp as (_ & j & q & Hj & Hq & _ & _ & Hd). destruct Hq as [->|[->| ->]].
      * by eapply Hstuck, step_action.
      * destruct (close_finish (st s')) eqn:E;
          [by eapply Hstuck, step_drained|by eapply Hstuck, step_drain_waits].
      * by apply Hd.
    + destruct Hp as (_ & _ & _ & HF). rewrite Forall_lookup in HF.
      by destruct (HF _ _ Hi).
  - by eapply Hstuck, step_action.
  - destruct (close_finish (st s')) eqn:E;
      [by eapply Hstuck, step_drained|by eapply Hstuck, step_drain_waits].
  - destruct (not_owned_Open s' i DrainSleeping) as (_ & _ & _ & _ & _ & Hd);
      [by split|done|unfold owning; auto|]. by apply Hd.
Qed.

(** Once closing began, at every later moment admission is refused, the
    number of admitted operations has only fallen, and a further [close] does
    not panic. *)
Theorem closing_refuses_admission s s' :
  reachable s → phase (st s) ≠ Open → rtc step s s' →
  enter (st s') = None ∧ ops s' ≤ ops s ∧ close_begin (st s') ≠ ClosePanics.
Proof.
  intros Hr Hph Hss. pose proof (reachable_inv s Hr) as Hinv. clear Hr.
  assert (phase (st s') ≠ Open ∧ ops s' ≤ ops s ∧ inv s') as (Hph' & ? & Hinv').
  { induction Hss as [|s1 s2 s3 Hs _ IH]; [auto|].
    assert (phase (st s2) ≠ Open ∧ ops s2 ≤ ops s1) as [Hp2 Ho].
    { destruct Hs as [s1 s2 Hs|s1|s1 st' He|s1 i p Hi]; simpl; try (split; [done|lia]).
      - destruct Hs as [s1 i Hi Hc|s1 i Hi Hc|s1 i st' Hi Hc|s1 i Hi|s1 i Hi Hf
          |s1 i st' Hi Hf|s1 n st' b Hn Hd]; simpl; try (split; [done|lia]).
        + unfold close_begin in Hc. by destruct (phase (st s1)).
        + unfold close_finish in Hf. case_decide; by simplify_eq.
        + unfold activity_drop in Hd. case_match; simplify_eq; simpl. split; [done|lia].
      - unfold enter in He. by case_decide. }
    destruct IH as (? & ? & ?); [done|by eapply inv_step|]. split_and!; [done|lia|done]. }
  split_and!; [|done|by apply close_begin_inv].
  unfold enter. by case_decide.
Qed.

(** A run with two closers and one admitted operation: the second closer waits,
    the operation returns, both closers return. *)
Definition run_closing : sys :=
  MkSys (MkState Closing 1 None) [Running; Sleeping] 1 0.

Definition run_closed : sys := MkSys (MkState Closed 0 None) [Returned; Returned] 0 1.

Lemma run_closing_reachable : reachable run_closing.
Proof.
  unfold reachable.
  eapply rtc_l; [eapply (step_enter sys_init); reflexivity|].
  eapply rtc_l; [apply step_call|]. eapply rtc_l; [apply step_call|].
  eapply rtc_l; [apply step_progress, step_takes with (i := 0); reflexivity|].
  eapply rtc_l; [apply step_progress, step_waits with (i := 1); reflexivity|].
  apply rtc_refl.
Qed.

Lemma run_closing_closed : nsteps pstep 5 run_closing run_closed.
Proof.
  eapply nsteps_l; [apply step_action with (i := 0); reflexivity|].
  eapply nsteps_l; [apply step_drain_waits with (i := 0); reflexivity|].
  eapply nsteps_l; [eapply step_exit; reflexivity|].
  eapply nsteps_l; [eapply step_drained with (i := 0); reflexivity|].
  eapply nsteps_l; [eapply step_returns with (i := 1); reflexivity|]. apply nsteps_O.
Qed.

Lemma run_closed_reachable : reachable run_closed.
Proof.
  eapply rtc_trans; [apply run_closing_reachable|].
  eapply rtc_subrel; [apply step_progress|].
  apply rtc_nsteps. eauto using run_closing_closed.
Qed.

Lemma close_returns_closed_witness :
  phase (st run_closed) = Closed ∧ ops run_closed = 0 ∧ runs run_closed = 1.
Proof.
  apply (close_returns_closed run_closed 0); [apply run_closed_reachable|reflexivity].
Defined.

Lemma close_completes_witness :
  5 ≤ work run_closing
  ∧ ((∀ s'', ¬ pstep run_closed s'') →
     Forall (λ p, p = Returned) (closers run_closed) ∧ ops run_closed = 0).
Proof.
  apply (close_completes run_closing 5 run_closed);
    [apply run_closing_reachable|apply run_closing_closed].
Defined.

Lemma closing_refuses_admission_witness :
  enter (st run_closed) = None ∧ ops run_closed ≤ ops run_closing
  ∧ close_begin (st run_closed) ≠ ClosePanics.
Proof.
  apply (closing_refuses_admission run_closing run_closed);
    [apply run_closing_reachable|discriminate|].
  eapply rtc_subrel; [apply step_progress|].
  apply rtc_nsteps. eauto using run_closing_closed.
Defined.

End Shutdown.
