(* ===== verification/Io.v ===== *)
(** * The byte stream seen by the transport ([transport/io.rs], [transport/mod.rs])

    Time, I/O errors, the adapters' interface with the standard library's read
    and write contracts as its laws, the deadline helpers, and the transport's
    errors and limits. *)

From S2P Require Import Prelude Closer.

(** ** Errors *)

(** [std::io::ErrorKind]: the kinds the code tells apart, and any other. *)
Inductive ErrorKind :=
  | TimedOut
  | Interrupted
  | NotConnected
  | WriteZero
  | BrokenPipe
  | OtherKind (code : N).

#[global] Instance ErrorKind_eq_dec : EqDecision ErrorKind.
Proof. solve_decision. Defined.

(** [transport::Error]. The COBS decoder's error is kept as its text, as are
    the handshake and encryption failures. *)
Inductive Error :=
  | PacketTooLarge (size : Z)
  | FrameTooLarge (size : Z)
  | FrameDecodingFailed (error : string)
  | SendFailed (error : ErrorKind)
  | RecvFailed (error : ErrorKind)
  | Terminated
  | SessionReset
  | InvalidAttestation
  | HandshakeFailed (reason : string)
  | EncryptionFailed (reason : string).

#[global] Instance Error_eq_dec : EqDecision Error.
Proof. solve_decision. Defined.

(** ** Time *)

(** [std::time::Instant] and [Duration], in nanoseconds. *)
Abbreviation Instant := Z (only parsing).
Abbreviation Duration := Z (only parsing).

(** Latest representable instant: [i64] seconds and their nanoseconds. *)
Definition instant_max : Instant := (2 ^ 63 * 10 ^ 9 - 1)%Z.

(** [Instant::checked_add] *)
Definition instant_add (t : Instant) (d : Duration) : option Instant :=
  checked_add instant_max t d.

Definition secs (n : Z) : Duration := (n * 10 ^ 9)%Z.
Definition millis (n : Z) : Duration := (n * 10 ^ 6)%Z.

(** ** Limits ([transport/mod.rs]) *)

Definition DEFAULT_HANDSHAKE_TIMEOUT : Duration := secs 5.
Definition DEFAULT_WRITE_TIMEOUT : Duration := secs 5.
Definition MAX_FRAME_SIZE : Z := (2 * 1024 * 1024)%Z.

(** ** Adapters

    [Ω] is everything outside the transport: the adapters with the bytes on
    their way, the clock, and the other threads, which share the stream's
    shutdown state. [closer_wait] is a wait on the condition variable of that
    state, the other threads' steps until the next notification, and [shutdown]
    the callback the stream was made with. [rx] and [tx] record the bytes the reader handed out and
    the writer accepted so far; no operation reads them. *)
Class Env (Ω : Type) := {
  clock_now : Ω → Instant * Ω;
  get_closer : Ω → Shutdown.State;
  set_closer : Shutdown.State → Ω → Ω;
  closer_wait : Ω → Ω;
  shutdown : Ω → Ω;
  set_read_deadline : option Instant → Ω → result unit ErrorKind * Ω;
  adapter_read : nat → Ω → result (list byte) ErrorKind * Ω;
  set_write_deadline : Instant → Ω → result unit ErrorKind * Ω;
  adapter_write : list byte → Ω → result nat ErrorKind * Ω;
  adapter_flush : Ω → result unit ErrorKind * Ω;
  rx : Ω → list byte;
  tx : Ω → list byte;
}.

(** What the other threads do to the shutdown state while this one holds an
    admission guard: the guard stays counted and the phase never goes back. *)
Definition closer_le (c c' : Shutdown.State) : Prop :=
  (Shutdown.active c ≠ 0 → Shutdown.active c' ≠ 0)
  ∧ (Shutdown.phase c ≠ Shutdown.Open → Shutdown.phase c' ≠ Shutdown.Open).

(** An operation that moves no bytes. *)
Definition quiet {Ω} `{Env Ω} (ω ω' : Ω) : Prop :=
  rx ω' = rx ω ∧ tx ω' = tx ω ∧ closer_le (get_closer ω) (get_closer ω').

(** The contracts of [io::Read] and [io::Write]: a read returns at most the
    bytes asked for, a write accepts a prefix, and a failed or other call moves
    none. *)
Class EnvLaws (Ω : Type) `{Env Ω} : Prop := {
  clock_now_law ω : quiet ω (clock_now ω).2;
  closer_armed ω : Shutdown.armed (get_closer ω);
  get_set_closer c ω : Shutdown.armed c → get_closer (set_closer c ω) = c;
  closer_wait_law ω : rx (closer_wait ω) = rx ω ∧ tx (closer_wait ω) = tx ω;
  shutdown_law ω : rx (shutdown ω) = rx ω ∧ tx (shutdown ω) = tx ω;
  set_closer_rx c ω : rx (set_closer c ω) = rx ω;
  set_closer_tx c ω : tx (set_closer c ω) = tx ω;
  set_read_deadline_law d ω : quiet ω (set_read_deadline d ω).2;
  set_write_deadline_law d ω : quiet ω (set_write_deadline d ω).2;
  adapter_flush_law ω : quiet ω (adapter_flush ω).2;
  adapter_read_law n ω :
    closer_le (get_closer ω) (get_closer (adapter_read n ω).2)
    ∧ tx (adapter_read n ω).2 = tx ω
    ∧ match (adapter_read n ω).1 with
      | Ok bs => length bs ≤ n ∧ rx (adapter_read n ω).2 = rx ω ++ bs
      | Err _ => rx (adapter_read n ω).2 = rx ω
      end;
  adapter_write_law bs ω :
    closer_le (get_closer ω) (get_closer (adapter_write bs ω).2)
    ∧ rx (adapter_write bs ω).2 = rx ω
    ∧ match (adapter_write bs ω).1 with
      | Ok k => k ≤ length bs ∧ tx (adapter_write bs ω).2 = tx ω ++ take k bs
      | Err _ => tx (adapter_write bs ω).2 = tx ω
      end;
}.

Section io.
Context {Ω : Type} `{Env Ω}.

(** [io::deadline_after] *)
Definition deadline_after (timeout : Duration) : M Ω Instant :=
    now ← op clock_now;
    mret (default now (instant_add now timeout)).

(** [io::check_deadline] *)
Definition check_deadline (deadline : Instant) : M Ω (result unit ErrorKind) :=
    now ← op clock_now;
    mret (if decide (deadline ≤ now)%Z then Err TimedOut else Ok tt).
End io.

#[global] Instance closer_le_refl : Reflexive closer_le.
Proof. by split. Qed.

#[global] Instance closer_le_trans : Transitive closer_le.
Proof. intros ??? [] []. split; auto. Qed.

(** An adapter that gives up: [budget] bounds the reads that return data or ask
    to be retried, and the writes that ask to be retried. *)
Class EnvBudget (Ω : Type) `{Env Ω} (budget : Ω → nat) : Prop := {
  budget_clock ω : budget (clock_now ω).2 ≤ budget ω;
  budget_closer c ω : budget (set_closer c ω) ≤ budget ω;
  budget_wait ω :
    budget (closer_wait ω) ≤ budget ω
    ∧ (budget (closer_wait ω) < budget ω
       ∨ if decide (Shutdown.active (get_closer ω) = 0)
         then Shutdown.phase (get_closer (closer_wait ω)) = Shutdown.Closed
         else Shutdown.active (get_closer (closer_wait ω)) = 0);
  budget_shutdown ω : budget (shutdown ω) ≤ budget ω;
  budget_set_read d ω : budget (set_read_deadline d ω).2 ≤ budget ω;
  budget_set_write d ω : budget (set_write_deadline d ω).2 ≤ budget ω;
  budget_flush ω : budget (adapter_flush ω).2 ≤ budget ω;
  budget_read n ω :
    match (adapter_read n ω).1 with
    | Ok (_ :: _) | Err TimedOut | Err Interrupted =>
        budget (adapter_read n ω).2 < budget ω
    | _ => budget (adapter_read n ω).2 ≤ budget ω
    end;
  budget_write bs ω :
    match (adapter_write bs ω).1 with
    | Err Interrupted => budget (adapter_write bs ω).2 < budget ω
    | _ => budget (adapter_write bs ω).2 ≤ budget ω
    end;
}.

Section io_lemmas.
Context {Ω : Type} `{EnvLaws Ω}.

#[global] Instance quiet_refl : Reflexive (quiet (Ω:=Ω)).
Proof. intros ω. unfold quiet. by split_and!. Qed.

#[global] Instance quiet_trans : Transitive (quiet (Ω:=Ω)).
Proof.
    intros ??? (Ea&Eb&?) (Ec&Ed&?). unfold quiet. split_and!; [congruence..|by etrans].
Qed.

Lemma check_deadline_wp d deadline ω (Q : result unit ErrorKind → Ω → Prop) :
  (∀ r, (r = Ok tt ∨ r = Err TimedOut) → Q r (clock_now ω).2) →
  wp d (check_deadline deadline) ω Q.
Proof.
  intros HQ. unfold check_deadline. post_steps. apply HQ. case_decide; auto.
Qed.

Lemma deadline_after_wp d timeout ω (Q : Instant → Ω → Prop) :
  (∀ t, Q t (clock_now ω).2) → wp d (deadline_after timeout) ω Q.
Proof. intros HQ. unfold deadline_after. post_steps. apply HQ. Qed.

Lemma deadline_after_wp_run d timeout ω (Q : Instant → Ω → Prop) :
  (∀ t, deadline_after timeout ω = Ret (t, (clock_now ω).2) → Q t (clock_now ω).2) →
  wp d (deadline_after timeout) ω Q.
Proof.
  intros HQ. eapply wp_mono; [apply wp_run, (deadline_after_wp d timeout ω (λ _ ω', ω' = (clock_now ω).2)); by intros t|].
  intros t ω' [Hrun ->]. by apply HQ.
Qed.

Lemma deadline_after_runs timeout ω :
  deadline_after timeout ω
  = Ret (default (clock_now ω).1 (instant_add (clock_now ω).1 timeout), (clock_now ω).2).
Proof. unfold deadline_after, op, mbind, M_bind. by destruct (clock_now ω). Qed.
End io_lemmas.
