(* ===== verification/LogId.v ===== *)
(** * Labels of log lines ([lib.rs])

    The process-wide counter that labels sessions. Threads allocate in any order, each
    with one atomic addition, so a run of the process is the sequence of its
    allocations. *)

From S2P Require Import Prelude.
#[local] Open Scope Z_scope.

Module LogId.

(** [LogId] *)
Record LogId := MkLogId { number : Z }.

#[global] Instance LogId_eq_dec : EqDecision LogId.
Proof. solve_decision. Defined.

(** [LogId::default] *)
Definition default : LogId := MkLogId 0.

(** [AtomicU64::fetch_add] of one: the old value; the counter wraps. *)
Definition fetch_add_one : M Z Z := λ counter, Ret (counter, (counter + 1) mod 2 ^ 64).

(** [next_log_id]; the addition to the old value is a checked one. *)
Definition next_log_id : M Z LogId :=
  old ← fetch_add_one;
  label ← expect (checked_add u64_max old 1);
  mret (MkLogId label).

(** The allocations of a process, in the order of their additions. *)
Fixpoint allocations (n : nat) : M Z (list LogId) :=
  match n with
  | O => mret []
  | S n => label ← next_log_id; labels ← allocations n; mret (label :: labels)
  end.

Lemma allocations_from n counter :
  0 ≤ counter → counter + Z.of_nat n < 2 ^ 64 →
  allocations n counter
  = Ret (MkLogId <$> seqZ (counter + 1) (Z.of_nat n), counter + Z.of_nat n).
Proof.
  revert counter. induction n as [|n IH]; intros counter H0 Hn.
  { simpl. by rewrite Z.add_0_r. }
  cbn [allocations]. unfold mbind, M_bind, next_log_id, mbind, M_bind, fetch_add_one, expect.
  rewrite Z.mod_small by lia. unfold checked_add. rewrite decide_True by (unfold u64_max; lia).
  simpl. rewrite IH by lia. rewrite (seqZ_cons _ (Z.of_nat (S n))) by lia. rewrite fmap_cons.
  replace (Z.pred (Z.of_nat (S n))) with (Z.of_nat n) by lia.
  by replace (counter + Z.of_nat (S n)) with (counter + 1 + Z.of_nat n) by lia.
Qed.

(** The labels start from one and are distinct, so none is the default. *)
Lemma labels_distinct n :
  Z.of_nat n < 2 ^ 64 →
  ∃ labels, allocations n 0 = Ret (labels, Z.of_nat n) ∧ length labels = n
    ∧ NoDup labels ∧ default ∉ labels
    ∧ ∀ k, (k < n)%nat → labels !! k = Some (MkLogId (Z.of_nat k + 1)).
Proof.
  intros Hn. eexists. split; [by apply allocations_from|]. split_and!.
  - by rewrite length_fmap, length_seqZ, Nat2Z.id.
  - apply NoDup_fmap_2; [by intros ? ? [= ->]|apply NoDup_seqZ].
  - intros (x & [= <-] & Hx)%list_elem_of_fmap. apply elem_of_seqZ in Hx. lia.
  - intros k Hk. rewrite list_lookup_fmap, lookup_seqZ_lt by lia. simpl. do 2 f_equal. lia.
Qed.
End LogId.
