(* ===== verification/Script.v ===== *)
(** * A scripted byte stream

    An instance of the adapter interface that answers from a script: what each
    read returns, how much each write takes, and how far the clock moves at
    every look. It satisfies the interface's laws, so the theorems stated over
    the interface can be evaluated on concrete streams. *)

From S2P Require Import Prelude Closer Io.

Module Script.

Record world := MkWorld {
  now : Instant;
  tick : Duration;
  closer : Shutdown.State;
  script_reads : list (result (list byte) ErrorKind);
  script_writes : list (result nat ErrorKind);
  got : list byte;
  put : list byte;
}.

Definition start (rs : list (result (list byte) ErrorKind))
    (ws : list (result nat ErrorKind)) : world :=
  MkWorld 0 0 Shutdown.closer_new rs ws [] [].

Definition read (n : nat) (w : world) : result (list byte) ErrorKind * world :=
  match script_reads w with
  | [] => (Ok [], w)
  | Err e :: rs =>
      (Err e, MkWorld (now w) (tick w) (closer w) rs (script_writes w) (got w) (put w))
  | Ok bs :: rs =>
      let bs' := take n bs in
      let rest := drop n bs in
      (Ok bs', MkWorld (now w) (tick w) (closer w)
                 (if decide (rest = []) then rs else Ok rest :: rs)
                 (script_writes w) (got w ++ bs') (put w))
  end.

Definition write (bs : list byte) (w : world) : result nat ErrorKind * world :=
  match script_writes w with
  | [] => (Ok (length bs), MkWorld (now w) (tick w) (closer w) (script_reads w) []
                             (got w) (put w ++ bs))
  | Err e :: ws =>
      (Err e, MkWorld (now w) (tick w) (closer w) (script_reads w) ws (got w) (put w))
  | Ok k :: ws =>
      (Ok (k `min` length bs),
       MkWorld (now w) (tick w) (closer w) (script_reads w) ws (got w)
         (put w ++ take k bs))
  end.

(** The other threads of a script let go of the stream at once. *)
Definition let_go (c : Shutdown.State) : Shutdown.State :=
  if decide (Shutdown.active c = 0) then Shutdown.MkState Shutdown.Closed 0 None
  else Shutdown.MkState (Shutdown.phase c) 0 (Shutdown.action c).

Definition arm (c : Shutdown.State) : Shutdown.State :=
  if decide (Shutdown.phase c = Shutdown.Open)
  then Shutdown.MkState Shutdown.Open (Shutdown.active c) (Some tt) else c.

Definition with_closer (c : Shutdown.State) (w : world) : world :=
  MkWorld (now w) (tick w) c (script_reads w) (script_writes w) (got w) (put w).

#[global] Instance env : Env world := {
  clock_now w := (now w, MkWorld (now w + tick w) (tick w) (closer w) (script_reads w)
                           (script_writes w) (got w) (put w));
  get_closer w := arm (closer w);
  set_closer := with_closer;
  closer_wait w := with_closer (let_go (closer w)) w;
  shutdown w := w;
  set_read_deadline _ w := (Ok tt, w);
  adapter_read := read;
  set_write_deadline _ w := (Ok tt, w);
  adapter_write := write;
  adapter_flush w := (Ok tt, w);
  rx := got;
  tx := put;
}.

#[global] Instance env_laws : EnvLaws world.
Proof.
  split; simpl; try (by intros; unfold quiet).
  - intros w. unfold arm, Shutdown.armed. by case_decide.
  - intros c w Hc. unfold arm. case_decide as Ho; [|done]. specialize (Hc Ho).
    destruct c; simpl in *; congruence.
  - intros n w. unfold read. destruct (script_reads w) as [|[bs|e] rs]; simpl;
      split_and!; try done; [lia|by rewrite app_nil_r|].
    rewrite length_take. lia.
  - intros bs w. unfold write. destruct (script_writes w) as [|[k|e] ws]; simpl;
      split_and!; try done; [by rewrite take_ge by lia|lia|].
    destruct (decide (k ≤ length bs)); [by rewrite Nat.min_l by lia|].
    by rewrite Nat.min_r, !take_ge by lia.
Qed.

(** Script entries left, a read entry counting its bytes. *)
Fixpoint entries (rs : list (result (list byte) ErrorKind)) : nat :=
  match rs with
  | [] => 0
  | Ok bs :: rs => 1 + length bs + entries rs
  | Err _ :: rs => 1 + entries rs
  end.

Definition budget (w : world) : nat := entries (script_reads w) + length (script_writes w).

#[global] Instance env_budget : EnvBudget world budget.
Proof.
  split; unfold budget; simpl; try lia.
  - intros w. split; [done|]. right. unfold let_go, arm.
    destruct (closer w) as [[] [] a]; simpl; repeat case_decide; done.
  - intros n w. unfold read. destruct (script_reads w) as [|[bs|e] rs] eqn:Er; simpl;
      [rewrite Er; simpl; lia| |destruct e; simpl; lia].
    pose proof (length_drop bs n). pose proof (length_take bs n) as Ht.
    destruct (take n bs) as [|b bs'] eqn:E; case_decide as Hd; simpl in *; lia.
  - intros bs w. unfold write.
    destruct (script_writes w) as [|[k|e] ws]; simpl; [lia..|]. destruct e; simpl; lia.
Qed.
End Script.
