(* ===== verification/Stream.v ===== *)
(** * The owned stream and its two halves ([transport/stream.rs])

    Adapter calls run under an admission guard of the shutdown coordinator.
    Reading retries idle timeouts and interruptions within its deadline; writing
    puts every byte out and flushes under one deadline. Closing runs the close protocol
    of [Closer] over the adapter. *)

From S2P Require Import Prelude Closer Io.

(** ** [Stream] *)

Section stream.
Context {R W : Type}.

(** The adapters until a transport takes them, and the frame budget. *)
Record Stream := MkStream {
  s_io : option (R * W);
  s_timeout : Duration;
}.

(** [Stream::new] *)
Definition stream_new (reader : R) (writer : W) (same_clock : bool) : outcome Stream :=
  if same_clock then Ret (MkStream (Some (reader, writer)) DEFAULT_WRITE_TIMEOUT)
  else Panicked.

(** [Stream::set_write_timeout] *)
Definition set_write_timeout (timeout : Duration) (s : Stream) : Stream :=
  MkStream (s_io s) timeout.

(** [Stream::into_parts]: the parts, and the stream left to drop. *)
Definition into_parts (s : Stream) : outcome (R * W * Duration * Stream) :=
  match s_io s with
  | Some (r, w) => Ret (r, w, s_timeout s, MkStream None (s_timeout s))
  | None => Panicked
  end.

(** [Stream::drop]: whether dropping closes the stream. *)
Definition stream_drop_closes (s : Stream) : bool := bool_decide (is_Some (s_io s)).
End stream.
Arguments Stream : clear implicits.

(** ** The halves *)

Section halves.
Context {Ω : Type} `{Env Ω}.

(** [Activity::drop] on the shared state. *)
Definition leave : M Ω unit := λ ω,
  match Shutdown.activity_drop (get_closer ω) with
  | Some (c, _) => Ret (tt, set_closer c ω)
  | None => Panicked
  end.

(** Runs [m] holding an admission guard, or returns [None] once closing began. *)
Definition admitted {A} (m : M Ω A) : M Ω (option A) := λ ω,
  match Shutdown.enter (get_closer ω) with
  | None => Ret (None, ω)
  | Some c => (a ← m; _ ← leave; mret (Some a)) (set_closer c ω)
  end.

(** The last part of [Closer::close]: waits for the admitted calls, then marks the
    stream closed. *)
Fixpoint close_drain (n : nat) : M Ω unit :=
  match n with
  | O => diverge
  | S n => λ ω,
      match Shutdown.close_finish (get_closer ω) with
      | Some c => Ret (tt, set_closer c ω)
      | None => close_drain n (closer_wait ω)
      end
  end.

(** [Closer::close], with [fuel] for each of its loops: it waits for another closer, or
    takes the shutdown callback and runs it. *)
Fixpoint close_begin (fuel n : nat) : M Ω unit :=
  match n with
  | O => diverge
  | S n => λ ω,
      match Shutdown.close_begin (get_closer ω) with
      | Shutdown.CloseReturns => Ret (tt, ω)
      | Shutdown.CloseWaits => close_begin fuel n (closer_wait ω)
      | Shutdown.CloseRuns c => close_drain fuel (shutdown (set_closer c ω))
      | Shutdown.ClosePanics => Panicked
      end
  end.

Definition close_stream (fuel : nat) : M Ω unit := close_begin fuel fuel.

(** One pass of [ReadHalf::read]: [Err] for the setter's failure, [Ok] for the
    adapter's own result. *)
Definition read_attempt (n : nat) (deadline : option Instant) :
  M Ω (result (result (list byte) ErrorKind) ErrorKind) :=
  _ ←? op (set_read_deadline deadline);
  r ← op (adapter_read n);
  mret (Ok r).

Definition retries (r : result (list byte) ErrorKind) : bool :=
  match r with Err TimedOut | Err Interrupted => true | _ => false end.

(** [ReadHalf::read] into a buffer of [n] bytes: the bytes read, empty at EOF
    and once closing began. *)
Fixpoint read_half (fuel : nat) (n : nat) (deadline : option Instant) :
  M Ω (result (list byte) ErrorKind) :=
  match fuel with
  | O => diverge
  | S fuel =>
      _ ←? (match deadline with
            | Some deadline => check_deadline deadline
            | None => mret (Ok tt)
            end);
      a ← admitted (read_attempt n deadline);
      match a with
      | None => mret (Ok [])
      | Some (Err e) => mret (Err e)
      | Some (Ok r) => if retries r then read_half fuel n deadline else mret r
      end
  end.

(** An adapter call of the writer, refused once closing began. *)
Definition admitted_io {A} (m : M Ω (result A ErrorKind)) : M Ω (result A ErrorKind) :=
  a ← admitted m;
  mret (default (Err NotConnected) a).

(** The loop of [WriteHalf::write]. *)
Fixpoint write_loop (fuel : nat) (bytes : list byte) (deadline : Instant) :
  M Ω (result unit ErrorKind) :=
  match fuel with
  | O => diverge
  | S fuel =>
      if decide (bytes = []) then mret (Ok tt)
      else
        _ ←? check_deadline deadline;
        a ← admitted (op (adapter_write bytes));
        match a with
        | None => mret (Err NotConnected)
        | Some (Ok O) => mret (Err WriteZero)
        | Some (Ok n) =>
            if decide (n ≤ length bytes) then write_loop fuel (drop n bytes) deadline
            else panic
        | Some (Err Interrupted) => write_loop fuel bytes deadline
        | Some (Err e) => mret (Err e)
        end
  end.

(** [WriteHalf::write] *)
Definition write_half (fuel : nat) (bytes : list byte) (deadline : Instant) :
  M Ω (result unit ErrorKind) :=
  _ ←? check_deadline deadline;
  _ ←? admitted_io (op (set_write_deadline deadline));
  _ ←? write_loop fuel bytes deadline;
  _ ←? check_deadline deadline;
  admitted_io (op adapter_flush).
End halves.

(** ** Lemmas *)

Section halves_lemmas.
Context {Ω : Type} `{EnvLaws Ω}.

Lemma enter_active c c' : Shutdown.enter c = Some c' → Shutdown.active c' ≠ 0.
Proof. unfold Shutdown.enter. case_decide; naive_solver. Qed.

Lemma enter_armed c c' :
  Shutdown.armed c → Shutdown.enter c = Some c' → Shutdown.armed c'.
Proof. unfold Shutdown.enter, Shutdown.armed. case_decide; [done|]. intros Ha [= <-]. done. Qed.

(** Running under a guard: the caller learns the result in the world the guard
    was released in, whatever the shutdown state has become. *)
Lemma admitted_wp {A} d (m : M Ω A) ω (Q : option A → Ω → Prop) :
  Q None ω →
  (∀ c, Shutdown.active c ≠ 0 → Shutdown.armed c →
    wp d m (set_closer c ω) (λ a ω',
      Shutdown.active (get_closer ω') ≠ 0 ∧ ∀ c', Q (Some a) (set_closer c' ω'))) →
  wp d (admitted m) ω Q.
Proof.
  intros HN HS. unfold admitted, wp at 1.
  destruct (Shutdown.enter (get_closer ω)) as [c|] eqn:E; [|done].
  change (wp d (a ← m; _ ← leave; mret (Some a)) (set_closer c ω) Q).
  post_step. eapply wp_mono; [apply HS; [by eapply enter_active|]|].
  { eapply enter_armed; [apply closer_armed|done]. }
  intros a ω' (Hact & HQ). post_step. unfold wp, leave.
  unfold Shutdown.activity_drop. destruct (Shutdown.active _) eqn:Ea; [done|]. apply HQ.
Qed.

(** What a half leaves on the other direction. *)
Definition reads (ω ω' : Ω) (bs : list byte) : Prop :=
  tx ω' = tx ω ∧ rx ω' = rx ω ++ bs.

Definition writes (ω ω' : Ω) (bs : list byte) : Prop :=
  rx ω' = rx ω ∧ tx ω' = tx ω ++ bs.

Lemma quiet_reads ω ω1 ω' bs : quiet ω ω1 → reads ω1 ω' bs → reads ω ω' bs.
Proof. intros (Er&Et&_) (?&?). split; congruence. Qed.

Lemma quiet_writes ω ω1 ω' bs : quiet ω ω1 → writes ω1 ω' bs → writes ω ω' bs.
Proof. intros (Er&Et&_) (?&?). split; congruence. Qed.

Lemma quiet_reads_nil ω ω' : quiet ω ω' → reads ω ω' [].
Proof. intros (?&?&_). split; [done|]. by rewrite app_nil_r. Qed.

Lemma quiet_writes_nil ω ω' : quiet ω ω' → writes ω ω' [].
Proof. intros (?&?&_). split; [done|]. by rewrite app_nil_r. Qed.

Lemma writes_trans ω ω1 ω' bs bs' :
  writes ω ω1 bs → writes ω1 ω' bs' → writes ω ω' (bs ++ bs').
Proof. intros (?&?) (?&?). split; [congruence|]. rewrite app_assoc. congruence. Qed.

Lemma reads_trans ω ω1 ω' bs bs' :
  reads ω ω1 bs → reads ω1 ω' bs' → reads ω ω' (bs ++ bs').
Proof. intros (?&?) (?&?). split; [congruence|]. rewrite app_assoc. congruence. Qed.

(** A guarded call on the writing side. *)
Lemma admitted_op_writes {A} d (f : Ω → result A ErrorKind * Ω) ω
    (W : result A ErrorKind → list byte → Prop)
    (Q : option (result A ErrorKind) → Ω → Prop) :
  (∀ ω, closer_le (get_closer ω) (get_closer (f ω).2)
        ∧ ∃ bs, writes ω (f ω).2 bs ∧ W (f ω).1 bs) →
  Q None ω →
  (∀ r ω' bs, writes ω ω' bs → W r bs → Q (Some r) ω') →
  wp d (admitted (op f)) ω Q.
Proof.
  intros Hf HN HS. apply admitted_wp; [done|]. intros c Hc Hca. post_step.
  destruct (Hf (set_closer c ω)) as ([Hact _] & bs & (Er & Et) & HW).
  rewrite get_set_closer in Hact by done. split; [auto|]. intros c'. apply (HS _ _ bs); [|done].
  split; rewrite ?set_closer_rx, ?set_closer_tx in *; by rewrite ?Er, ?Et.
Qed.

Lemma quiet_op_writes {A} (f : Ω → result A ErrorKind * Ω) :
  (∀ ω, quiet ω (f ω).2) →
  ∀ ω, closer_le (get_closer ω) (get_closer (f ω).2)
        ∧ ∃ bs, writes ω (f ω).2 bs ∧ bs = [].
Proof.
  intros Hf ω. pose proof (Hf ω) as Hq. split; [apply Hq|].
  exists []. split; [by apply quiet_writes_nil|done].
Qed.

Lemma admitted_io_quiet_wp {A} d (f : Ω → result A ErrorKind * Ω) ω Q :
  (∀ ω, quiet ω (f ω).2) →
  (∀ r ω', writes ω ω' [] → Q r ω') →
  wp d (admitted_io (op f)) ω Q.
Proof.
  intros Hf HQ. unfold admitted_io. post_step.
  apply (admitted_op_writes d f ω (λ _ bs, bs = [])).
  - by apply quiet_op_writes.
  - post_step. apply HQ. apply quiet_writes_nil. done.
  - intros r ω' bs Hw ->. post_step. by apply HQ.
Qed.

(** What an adapter's write result says of the bytes it took. *)
Definition accepts (bs : list byte) (r : result nat ErrorKind) (out : list byte) : Prop :=
  match r with
  | Ok k => k ≤ length bs ∧ out = take k bs
  | Err _ => out = []
  end.

Lemma adapter_write_writes bs :
  ∀ ω, closer_le (get_closer ω) (get_closer (adapter_write bs ω).2)
    ∧ ∃ out, writes ω (adapter_write bs ω).2 out ∧ accepts bs (adapter_write bs ω).1 out.
Proof.
  intros ω. destruct (adapter_write_law bs ω) as (Hc & Hr & Ht). split; [done|].
  destruct (adapter_write bs ω).1 as [k|e].
  - destruct Ht. exists (take k bs). by split_and!.
  - exists []. split; [|done]. split; [done|]. by rewrite app_nil_r.
Qed.

Lemma write_loop_wp fuel bytes deadline ω :
  post (write_loop fuel bytes deadline) ω (λ r ω',
    ∃ k, writes ω ω' (take k bytes) ∧ (r = Ok tt → take k bytes = bytes)).
Proof.
  revert bytes ω. induction fuel as [|fuel IH]; intros bytes ω; [done|]. simpl.
  assert (∀ ω', quiet ω ω' → writes ω ω' (take 0 bytes)) as Hq
    by (intros; by apply quiet_writes_nil).
  case_decide as Hb.
  { post_step. exists 0. split; [by apply Hq|]. intros _. by subst. }
  post_step. apply check_deadline_wp. intros r [->| ->];
    [|exists 0; split; [apply Hq, clock_now_law|done]].
  pose proof (clock_now_law ω) as Hnow. post_step.
  apply (admitted_op_writes _ _ _ (accepts bytes)); [apply adapter_write_writes| |].
  { post_step. exists 0. split; [by apply Hq|done]. }
  intros [[|n]|e] ω' out Hw HW; simpl in HW.
  - destruct HW as (_ & ->). post_step. exists 0.
    split; [by eapply quiet_writes|done].
  - destruct HW as (Hn & ->). rewrite decide_True by done.
    eapply wp_mono; [apply IH|]. intros r ω'' (k & Hw' & Hr). exists (S n + k).
    rewrite <-take_take_drop.
    split; [by eapply quiet_writes, writes_trans|].
    intros ->%Hr. by rewrite take_drop.
  - subst out.
    assert (post (mret (Err e)) ω' (λ r ω'', ∃ k, writes ω ω'' (take k bytes)
      ∧ (r = Ok tt → take k bytes = bytes))) as Herr.
    { post_step. exists 0. split; [by eapply quiet_writes|done]. }
    destruct e; try done. eapply wp_mono; [apply IH|]. intros r ω'' (k & Hw' & Hr).
    exists k. split; [|done]. eapply quiet_writes; [done|].
    change (take k bytes) with ([] ++ take k bytes). by eapply writes_trans.
Qed.

(** [WriteHalf::write] puts a prefix of its bytes on the wire, and all of them
    where it succeeds. *)
Lemma write_half_wp fuel bytes deadline ω :
  post (write_half fuel bytes deadline) ω (λ r ω',
    ∃ k, writes ω ω' (take k bytes) ∧ (r = Ok tt → take k bytes = bytes)).
Proof.
  unfold write_half. pose proof (clock_now_law ω) as Hnow.
  post_step. apply check_deadline_wp.
  intros r [->| ->]; [|exists 0; split; [by apply quiet_writes_nil|done]].
  post_step. apply admitted_io_quiet_wp; [apply set_write_deadline_law|].
  intros [[]|e] ω1 Hw1; [|exists 0; split; [by eapply quiet_writes|done]].
  post_step. eapply wp_mono; [apply write_loop_wp|].
  intros r ω2 (k & Hw2 & Hk).
  assert (writes ω ω2 (take k bytes)) as Hw.
  { eapply quiet_writes; [done|].
    change (take k bytes) with ([] ++ take k bytes). by eapply writes_trans. }
  destruct r as [[]|e]; [|by exists k].
  assert (∀ ω', writes ω2 ω' [] → writes ω ω' (take k bytes)) as Hfin.
  { intros ω' Hw'. rewrite <-(app_nil_r (take k bytes)). by eapply writes_trans. }
  post_step. apply check_deadline_wp. intros r Hr.
  assert (writes ω2 (clock_now ω2).2 []) by apply quiet_writes_nil, clock_now_law.
  destruct Hr as [->| ->]; [|exists k; eauto].
  apply admitted_io_quiet_wp; [apply adapter_flush_law|].
  intros r ω' Hw'. exists k. split; [|by intros; apply Hk].
  apply Hfin. change [] with ([] ++ [] : list byte). by eapply writes_trans.
Qed.

(** What a read call that returned [r] for a buffer of [n] bytes took. *)
Definition delivers (n : nat) (r : result (list byte) ErrorKind) (ω ω' : Ω) : Prop :=
  match r with
  | Ok bs => length bs ≤ n ∧ reads ω ω' bs
  | Err _ => reads ω ω' []
  end.

Lemma quiet_delivers n r ω ω1 ω' :
  quiet ω ω1 → delivers n r ω1 ω' → delivers n r ω ω'.
Proof. destruct r; simpl; intuition eauto using quiet_reads. Qed.

Lemma read_attempt_wp d n deadline ω (Q : option _ → Ω → Prop) :
  Q None ω →
  (∀ e ω', reads ω ω' [] → Q (Some (Err e)) ω') →
  (∀ r ω', delivers n r ω ω' → Q (Some (Ok r)) ω') →
  wp d (admitted (read_attempt n deadline)) ω Q.
Proof.
  intros HN HE HO. apply admitted_wp; [done|]. intros c Hc Hca. unfold read_attempt.
  post_steps. set (ω1 := set_closer c ω).
  destruct (set_read_deadline_law deadline ω1) as (Er1 & Et1 & [Ha1 _]).
  unfold ω1 in Ha1 at 1. rewrite get_set_closer in Ha1 by done. specialize (Ha1 Hc).
  assert (∀ ω' bs, reads (set_read_deadline deadline ω1).2 ω' bs →
    ∀ c', reads ω (set_closer c' ω') bs) as Hset.
  { intros ω' bs (Et & Er) c'. subst ω1.
    split; rewrite ?set_closer_rx, ?set_closer_tx in *; congruence. }
  destruct (set_read_deadline deadline ω1).1 as [[]|e].
  - post_steps. set (ω2 := (set_read_deadline deadline ω1).2) in *.
    destruct (adapter_read_law n ω2) as ([Ha2 _] & Et2 & Hr2). split; [auto|].
    intros c'. apply HO. unfold delivers.
    destruct (adapter_read n ω2).1 as [bs|e]; [destruct Hr2 as (? & Hr2); split; [done|]|];
      apply Hset; (split; [done|]); by rewrite ?app_nil_r.
  - split; [done|]. intros c'. apply HE, Hset. split; [done|]. by rewrite app_nil_r.
Qed.

Lemma check_optional_wp d deadline ω (Q : result unit ErrorKind → Ω → Prop) :
  (∀ ω', quiet ω ω' → Q (Ok tt) ω') → (∀ ω', quiet ω ω' → Q (Err TimedOut) ω') →
  wp d (match deadline with
        | Some deadline => check_deadline deadline
        | None => mret (Ok tt)
        end) ω Q.
Proof.
  intros HO HE. pose proof (clock_now_law ω). destruct deadline.
  - apply check_deadline_wp. intros r [->| ->]; auto.
  - post_step. by apply HO.
Qed.

(** [ReadHalf::read] returns at most the bytes asked for, and a failed read
    takes none from the stream. *)
Lemma read_half_wp fuel n deadline ω :
  post (read_half fuel n deadline) ω (λ r ω', delivers n r ω ω').
Proof.
  revert ω. induction fuel as [|fuel IH]; intros ω; [done|]. simpl.
  post_step. apply check_optional_wp; intros ω1 Hq; [|by apply quiet_reads_nil].
  post_step. apply read_attempt_wp.
  - post_step. simpl. split; [lia|]. by apply quiet_reads_nil.
  - intros e ω2 Hr. post_step. simpl. by eapply quiet_reads.
  - intros r ω2 Hr. destruct (retries r) eqn:E; [|post_step; by eapply quiet_delivers].
    assert (reads ω ω2 []) as Hn.
    { eapply quiet_reads; [done|]. by destruct r as [|[]]. }
    eapply wp_mono; [apply IH|]. intros r' ω3 Hr'.
    destruct r' as [bs|e]; simpl in *.
    + destruct Hr'. split; [done|]. change bs with ([] ++ bs). by eapply reads_trans.
    + change [] with ([] ++ [] : list byte). by eapply reads_trans.
Qed.
End halves_lemmas.

(** ** Termination *)

Section halves_termination.
Context {Ω : Type} `{EnvLaws Ω} (budget : Ω → nat) `{!EnvBudget Ω budget}.

Lemma admitted_budget {A} (m : M Ω A) ω b (P : A → nat → Prop) :
  budget ω ≤ b →
  (∀ ω1, Shutdown.active (get_closer ω1) ≠ 0 → budget ω1 ≤ b →
    tpost m ω1 (λ a ω', Shutdown.active (get_closer ω') ≠ 0 ∧ P a (budget ω'))) →
  (∀ a n n', n' ≤ n → P a n → P a n') →
  tpost (admitted m) ω (λ o ω', match o with
                                 | None => budget ω' ≤ b
                                 | Some a => P a (budget ω')
                                 end).
Proof.
  intros Hb Hm Hmono. apply admitted_wp; [done|]. intros c Hc Hca.
  eapply wp_mono; [apply Hm|].
  - by rewrite get_set_closer.
  - pose proof (budget_closer c ω). lia.
  - intros a ω' (? & ?). split; [done|]. intros c'.
    eapply Hmono; [apply budget_closer|done].
Qed.

(** A stream that has been closed, with nothing moved on it. *)
Definition shut (ω ω' : Ω) : Prop :=
  Shutdown.phase (get_closer ω') = Shutdown.Closed
  ∧ rx ω' = rx ω ∧ tx ω' = tx ω ∧ budget ω' ≤ budget ω.

Lemma shut_after ω ω1 ω' :
  rx ω1 = rx ω → tx ω1 = tx ω → budget ω1 ≤ budget ω → shut ω1 ω' → shut ω ω'.
Proof. intros ??? (?&?&?&?). split_and!; [done|congruence..|lia]. Qed.

Lemma wait_shut ω ω' : shut (closer_wait ω) ω' → shut ω ω'.
Proof. destruct (closer_wait_law ω). apply shut_after; [done..|apply budget_wait]. Qed.

Lemma close_drain_wp n ω :
  2 * budget ω + (if decide (Shutdown.active (get_closer ω) = 0) then 0 else 1) < n →
  tpost (close_drain n) ω (λ _ ω', shut ω ω').
Proof.
  revert ω. induction n as [|n IH]; intros ω Hn; [lia|]. unfold wp. simpl.
  unfold Shutdown.close_finish. destruct (decide _) as [Ha|Ha] in Hn;
    [rewrite decide_False by (by intros [])|rewrite decide_True by done].
  - split_and!; [by rewrite get_set_closer|apply set_closer_rx|apply set_closer_tx|apply budget_closer].
  - eapply wp_mono; [apply IH|intros ? ω'; apply wait_shut].
    destruct (budget_wait ω) as [Hle [Hlt|Hz]]; [case_decide; lia|].
    rewrite decide_False in Hz by done. rewrite decide_True by done. lia.
Qed.

Lemma close_drain_enough n ω :
  2 * budget ω + 1 < n → tpost (close_drain n) ω (λ _ ω', shut ω ω').
Proof. intros Hn. apply close_drain_wp. case_decide; lia. Qed.

Lemma close_begin_wp fuel n ω :
  2 * budget ω + 1 < fuel →
  2 * budget ω + (if decide (Shutdown.phase (get_closer ω) = Shutdown.Closed) then 0
                  else if decide (Shutdown.active (get_closer ω) = 0) then 1 else 2) < n →
  tpost (close_begin fuel n) ω (λ _ ω', shut ω ω').
Proof.
  revert ω. induction n as [|n IH]; intros ω Hf Hn; [lia|]. unfold wp. simpl.
  unfold Shutdown.close_begin. destruct (Shutdown.phase (get_closer ω)) eqn:Ep.
  - rewrite (closer_armed ω Ep). set (c := Shutdown.MkState _ _ _).
    destruct (shutdown_law (set_closer c ω)) as [Hr Ht].
    pose proof (budget_shutdown (set_closer c ω)). pose proof (budget_closer c ω).
    eapply wp_mono; [apply close_drain_enough; lia|].
    intros [] ω'.
    apply shut_after; [by rewrite Hr, set_closer_rx|by rewrite Ht, set_closer_tx|lia].
  - destruct (budget_wait ω) as [Hle Hw].
    eapply wp_mono; [apply IH; [lia|]|intros ? ω'; apply wait_shut].
    destruct (decide (Shutdown.Closing = Shutdown.Closed)); [done|]. destruct Hw as [Hlt|Hw];
      [clear IH; repeat case_decide; lia|]. clear IH. destruct (decide (Shutdown.active (get_closer ω) = 0));
      repeat case_decide; first [lia|congruence].
  - split_and!; [done..|lia].
Qed.

(** Closing a stream returns, and then it is closed. *)
Lemma close_stream_wp fuel ω :
  2 * budget ω + 2 < fuel → tpost (close_stream fuel) ω (λ _ ω', shut ω ω').
Proof. intros Hf. apply close_begin_wp; [lia|]. repeat case_decide; lia. Qed.

(** A read call ends within the adapter's budget. *)
Lemma read_half_total fuel n deadline ω :
  budget ω < fuel →
  tpost (read_half fuel n deadline) ω (λ r ω',
    match r with
    | Ok (_ :: _) => budget ω' < budget ω
    | _ => budget ω' ≤ budget ω
    end).
Proof.
  revert ω. induction fuel as [|fuel IH]; intros ω Hf; [lia|]. simpl.
  assert (∀ ω1, budget ω1 ≤ budget ω →
    tpost (a ← admitted (read_attempt n deadline);
      match a with
      | None => mret (Ok [])
      | Some (Err e) => mret (Err e)
      | Some (Ok r) => if retries r then read_half fuel n deadline else mret r
      end) ω1 (λ r ω', match r with
                       | Ok (_ :: _) => budget ω' < budget ω
                       | _ => budget ω' ≤ budget ω
                       end)) as Hbody.
  { intros ω1 Hb. post_step.
    eapply wp_mono; [apply (admitted_budget _ ω1 (budget ω)
      (λ a k, match a with
              | Ok (Ok (_ :: _)) | Ok (Err TimedOut) | Ok (Err Interrupted) => k < budget ω
              | _ => k ≤ budget ω
              end)); [done| |]|].
    - intros ω2 Ha Hb2. unfold read_attempt. post_steps.
      pose proof (budget_set_read deadline ω2).
      destruct (set_read_deadline_law deadline ω2) as (_ & _ & [Ha2 _]).
      destruct (set_read_deadline deadline ω2).1; [|split; [auto|lia]].
      post_steps. set (ω3 := (set_read_deadline deadline ω2).2) in *.
      destruct (adapter_read_law n ω3) as ([Ha3 _] & _). split; [auto|].
      pose proof (budget_read n ω3) as Hr.
      destruct (adapter_read n ω3).1 as [[|]|[]]; lia.
    - intros a k k' ?. repeat case_match; lia.
    - intros [[r|e]|] ω2 HP; simpl in HP; [|done..].
      destruct (retries r) eqn:E; [|post_step; by repeat case_match].
      eapply wp_mono; [apply IH|].
      + destruct r as [|[]]; simpl in E; try done; lia.
      + intros r' ω3 Hr'. assert (budget ω2 < budget ω)
          by (by destruct r as [|[]]).
        repeat case_match; lia. }
  post_step. destruct deadline.
  - apply check_deadline_wp. pose proof (budget_clock ω). intros r [->| ->]; auto.
  - post_step. by apply Hbody.
Qed.

Lemma admitted_io_budget {A} (f : Ω → result A ErrorKind * Ω) ω :
  (∀ ω, quiet ω (f ω).2) → (∀ ω, budget (f ω).2 ≤ budget ω) →
  tpost (admitted_io (op f)) ω (λ _ ω', budget ω' ≤ budget ω).
Proof.
  intros Hq Hb. unfold admitted_io. post_step.
  eapply wp_mono; [apply (admitted_budget _ ω (budget ω) (λ _ k, k ≤ budget ω)); [done| |]|].
  - intros ω1 Ha H1. post_step. destruct (Hq ω1) as (_ & _ & [? _]).
    pose proof (Hb ω1). split; [auto|lia].
  - intros; lia.
  - by intros [] ω' ?.
Qed.

Lemma write_loop_total fuel bytes deadline ω :
  length bytes + budget ω < fuel →
  tpost (write_loop fuel bytes deadline) ω (λ _ ω', budget ω' ≤ budget ω).
Proof.
  revert bytes ω. induction fuel as [|fuel IH]; intros bytes ω Hf; [lia|]. simpl.
  case_decide; [by post_step|]. pose proof (budget_clock ω) as Hc.
  post_step. apply check_deadline_wp. intros r [->| ->]; [|done].
  set (ω1 := (clock_now ω).2) in *. post_step.
  eapply wp_mono; [apply (admitted_budget _ ω1 (budget ω)
    (λ a k, match a with
            | Err Interrupted => k < budget ω
            | Ok j => j ≤ length bytes ∧ k ≤ budget ω
            | _ => k ≤ budget ω
            end)); [done| |]|].
  - intros ω2 Ha Hb. post_step.
    destruct (adapter_write_law bytes ω2) as ([? _] & _ & Hw). split; [auto|].
    pose proof (budget_write bytes ω2). destruct (adapter_write bytes ω2).1 as [|[]];
      naive_solver lia.
  - intros a k k' ?. repeat case_match; naive_solver lia.
  - intros [[[|j]|e]|] ω2 HP; try done.
    + post_step. by destruct HP.
    + destruct HP as [Hj Hk]. rewrite decide_True by done.
      eapply wp_mono; [apply IH|].
      * rewrite length_drop. lia.
      * intros; simpl in *; lia.
    + destruct e; try done. eapply wp_mono; [apply IH; lia|]. intros; simpl in *; lia.
Qed.

(** A complete write and flush ends within its bytes and the budget. *)
Lemma write_half_total fuel bytes deadline ω :
  length bytes + budget ω < fuel →
  tpost (write_half fuel bytes deadline) ω (λ _ ω', budget ω' ≤ budget ω).
Proof.
  intros Hf. unfold write_half. pose proof (budget_clock ω) as Hc.
  post_step. apply check_deadline_wp. intros r [->| ->]; [|done].
  post_step. eapply wp_mono; [apply admitted_io_budget; [apply set_write_deadline_law
    |apply budget_set_write]|].
  intros [|] ω1 H1; [|lia].
  post_step. eapply wp_mono; [apply write_loop_total; lia|].
  intros [|] ω2 H2; [|lia].
  post_step. pose proof (budget_clock ω2). apply check_deadline_wp.
  intros r [->| ->]; [|lia].
  eapply wp_mono; [apply admitted_io_budget; [apply adapter_flush_law|apply budget_flush]|].
  intros; simpl in *; lia.
Qed.
End halves_termination.
