(* ===== verification/Cobs.v ===== *)
(** * COBS, as the framer uses it

    The encoder and decoder are the [darkbio-cobs] crate's: here they are an
    interface with the laws the framer relies on. The reference codec at the
    end satisfies them, so statements under the interface can be evaluated. *)

From Stdlib Require Import Strings.Byte.
From S2P Require Import Prelude.

(** [encode_buffer n] is the buffer that holds the encoding of any [n] bytes.
    [encode cap p] and [decode_nonzero cap e] write into buffers of [cap]
    bytes; the decoder is given input without zeros. *)
Class Cobs := {
  encode_buffer : nat → nat;
  cobs_encode : nat → list byte → option (list byte);
  cobs_decode_nonzero : nat → list byte → result (list byte) string;
}.

(** What the crate documents: a buffer of [encode_buffer] bytes is enough,
    encodings are zero free and not empty, decoding inverts encoding into any
    buffer the encoding itself would fit, and the bound grows with the size. *)
Class CobsLaws `{Cobs} : Prop := {
  encode_fits cap p :
    encode_buffer (length p) ≤ cap →
    ∃ e, cobs_encode cap p = Some e ∧ length e ≤ encode_buffer (length p);
  encode_zero_free cap p e : cobs_encode cap p = Some e → zero_free e;
  encode_nonempty cap p e : cobs_encode cap p = Some e → e ≠ [];
  decode_encode cap cap' p e :
    cobs_encode cap p = Some e → length e ≤ cap' → cobs_decode_nonzero cap' e = Ok p;
  encode_buffer_mono n m : n ≤ m → encode_buffer n ≤ encode_buffer m;
  encode_buffer_lt n : n < encode_buffer n;
}.

(** ** Reference codec *)

Module Reference.

#[local] Arguments Nat.div : simpl never.

Definition code (n : nat) : byte := default Byte.x00 (Byte.of_N (N.of_nat n)).
Definition value (b : byte) : nat := N.to_nat (Byte.to_N b).

#[local] Arguments code : simpl never.
#[local] Arguments value : simpl never.

(** Runs of at most 254 nonzero bytes behind their length plus one; a full run
    is not followed by a zero, and one that ends the packet by no other run. *)
Fixpoint encode_run (p run : list byte) : list byte :=
  match p with
  | [] => code (S (length run)) :: run
  | b :: p' =>
      if decide (b = Byte.x00) then code (S (length run)) :: run ++ encode_run p' []
      else if decide (length run = 253) then
        code 255 :: (run ++ [b])
          ++ match p' with [] => [] | _ => encode_run p' [] end
      else encode_run p' (run ++ [b])
  end.

Fixpoint decode_runs (fuel : nat) (e : list byte) : result (list byte) string :=
  match fuel, e with
  | S fuel, c :: e' =>
      let n := pred (value c) in
      if decide (length e' < n) then Err "truncated run"%string
      else
        match drop n e' with
        | [] => Ok (take n e')
        | rest =>
            match decode_runs fuel rest with
            | Ok p => Ok (take n e' ++ (if decide (n = 254) then p else Byte.x00 :: p))
            | Err err => Err err
            end
        end
  | _, _ => Err "empty frame"%string
  end.

#[global] Instance cobs : Cobs := {
  encode_buffer n := n + n / 254 + 1;
  cobs_encode cap p :=
    let e := encode_run p [] in if decide (length e ≤ cap) then Some e else None;
  cobs_decode_nonzero cap e :=
    match decode_runs (length e) e with
    | Ok p => if decide (length p ≤ cap) then Ok p else Err "buffer too small"%string
    | Err err => Err err
    end;
}.

Lemma value_code n : n ≤ 255 → value (code n) = n.
Proof.
  intros Hn. unfold value, code.
  destruct (Byte.of_N (N.of_nat n)) as [b|] eqn:E; simpl.
  - apply Byte.to_of_N in E. lia.
  - apply Byte.of_N_None_iff in E. lia.
Qed.

Lemma code_nonzero n : 0 < n ≤ 255 → code n ≠ Byte.x00.
Proof.
  intros Hn E. pose proof (value_code n ltac:(lia)) as Hv. rewrite E in Hv.
  unfold value in Hv. simpl in Hv. lia.
Qed.

Lemma encode_run_zero_free p run :
  zero_free run → length run < 254 → zero_free (encode_run p run).
Proof.
  revert run. induction p as [|b p IH]; intros run Hz Hl; simpl.
  { constructor; [apply code_nonzero; lia|done]. }
  case_decide; [|case_decide].
  - constructor; [apply code_nonzero; lia|].
    apply zero_free_app. split; [done|]. apply IH; simpl; [apply zero_free_nil|lia].
  - constructor; [by apply code_nonzero; lia|].
    rewrite !zero_free_app. split_and!; [done|by repeat constructor|].
    destruct p; [apply zero_free_nil|]. apply IH; simpl; [apply zero_free_nil|lia].
  - apply IH; [|rewrite length_app; simpl; lia].
    apply zero_free_app. split; [done|by repeat constructor].
Qed.

Lemma encode_run_nonempty p run : encode_run p run ≠ [].
Proof.
  revert run. induction p as [|b p IH]; intros run; simpl; [done|].
  repeat case_decide; done.
Qed.

Lemma encode_run_length p run :
  length run < 254 →
  length (encode_run p run)
  ≤ length run + length p + (length run + length p) / 254 + 1.
Proof.
  revert run. induction p as [|b p IH]; intros run Hl; simpl; [lia|].
  case_decide; [|case_decide as Hr].
  - simpl. rewrite length_app. specialize (IH [] ltac:(simpl; lia)). simpl in IH.
    pose proof (Nat.Div0.div_le_mono (length p) (length run + S (length p)) 254
      ltac:(lia)). lia.
  - simpl. rewrite !length_app; simpl.
    replace (length run + S (length p)) with (length p + 1 * 254) by lia.
    rewrite Nat.div_add by lia.
    destruct p as [|b' p']; [simpl; lia|].
    specialize (IH [] ltac:(simpl; lia)).
    set (q := encode_run (b' :: p') []) in *. change (length []) with 0 in IH.
    rewrite Nat.add_0_l in IH. lia.
  - etrans; [apply IH|]; rewrite length_app; simpl; [lia|].
    replace (length run + 1 + length p) with (length run + S (length p)) by lia. lia.
Qed.

(** Enough fuel decodes the run in progress and then the rest. *)
Lemma decode_encode_run p run fuel :
  length run < 254 → length (encode_run p run) ≤ fuel →
  decode_runs fuel (encode_run p run) = Ok (run ++ p).
Proof.
  revert run fuel. induction p as [|b p IH]; intros run fuel Hl Hf; simpl in *.
  { destruct fuel as [|fuel]; simpl in *; [lia|]. rewrite value_code by lia.
    simpl. rewrite decide_False by lia. rewrite drop_all, take_ge by lia.
    by rewrite app_nil_r. }
  case_decide as Hb; [|case_decide as Hr].
  - subst b. destruct fuel as [|fuel]; simpl in *; [lia|].
    rewrite value_code by lia. simpl. rewrite length_app in *.
    rewrite decide_False by lia. rewrite drop_app_length, take_app_length.
    destruct (encode_run p []) as [|c e] eqn:E; [by apply encode_run_nonempty in E|].
    rewrite <-E, IH by (simpl in *; rewrite ?E; simpl; lia).
    rewrite decide_False by lia. done.
  - destruct fuel as [|fuel]; simpl in *; [lia|].
    rewrite !length_app in *. simpl in *. rewrite decide_False by (simpl; lia).
    replace 254 with (length (run ++ [b])) by (rewrite length_app; simpl; lia).
    rewrite drop_app_length, take_app_length.
    destruct p as [|b' p']; [done|].
    destruct (encode_run (b' :: p') []) as [|c e] eqn:E;
      [by apply encode_run_nonempty in E|].
    rewrite <-E, IH by (simpl in *; rewrite ?E; simpl in *; lia).
    by rewrite <-app_assoc.
  - rewrite IH; [|rewrite length_app; simpl; lia|done]. by rewrite <-app_assoc.
Qed.

Lemma decode_runs_length fuel e p : decode_runs fuel e = Ok p → length p ≤ length e.
Proof.
  revert e p. induction fuel as [|fuel IH]; intros [|c e] p; simpl; try done.
  case_decide; [done|].
  pose proof (length_drop e (pred (value c))) as Hd.
  destruct (drop (pred (value c)) e) as [|c' rest] eqn:E.
  { intros [= <-]. rewrite length_take. lia. }
  destruct (decode_runs fuel (c' :: rest)) as [q|] eqn:Eq; [|done].
  intros [= <-]. apply IH in Eq. rewrite length_app, length_take.
  case_decide; simpl in *; lia.
Qed.

#[global] Instance cobs_laws : CobsLaws.
Proof.
  split.
  - intros cap p Hc. simpl in *. exists (encode_run p []).
    pose proof (encode_run_length p [] ltac:(simpl; lia)) as Hl. simpl in Hl.
    rewrite decide_True by lia. split; [done|lia].
  - simpl. intros cap p e. case_decide; [|done]. intros [= <-].
    apply encode_run_zero_free; [apply zero_free_nil|simpl; lia].
  - simpl. intros cap p e. case_decide; [|done]. intros [= <-]. apply encode_run_nonempty.
  - simpl. intros cap cap' p e. case_decide; [|done]. intros [= <-] Hc.
    pose proof (decode_encode_run p [] (length (encode_run p []))) as Hd.
    rewrite Hd by (simpl; lia). simpl.
    rewrite decide_True; [done|].
    apply decode_runs_length in Hd; simpl in *; lia.
  - simpl. intros n m Hnm. pose proof (Nat.Div0.div_le_mono n m 254 Hnm). lia.
  - simpl. lia.
Qed.

(** The vectors of [framing.rs]. *)
Example encode_empty : cobs_encode 9 [] = Some [Byte.x01].
Proof. reflexivity. Qed.

Example encode_foo :
  cobs_encode 9 [Byte.x66; Byte.x6f; Byte.x6f] = Some [Byte.x04; Byte.x66; Byte.x6f; Byte.x6f].
Proof. reflexivity. Qed.

Example encode_zeros :
  cobs_encode 9 [Byte.x0a; Byte.x00; Byte.x00; Byte.x00]
  = Some [Byte.x02; Byte.x0a; Byte.x01; Byte.x01; Byte.x01].
Proof. reflexivity. Qed.

Example encode_full_run :
  cobs_encode 300 (code <$> seq 1 254) = Some (Byte.xff :: (code <$> seq 1 254)).
Proof. vm_compute. reflexivity. Qed.

Example encode_two_runs :
  cobs_encode 300 (code <$> seq 1 255)
  = Some (Byte.xff :: (code <$> seq 1 254) ++ [Byte.x02; Byte.xff]).
Proof. vm_compute. reflexivity. Qed.

Example decode_truncated : is_err (cobs_decode_nonzero 9 [Byte.xff; Byte.x01]) = true.
Proof. reflexivity. Qed.
End Reference.
