(* ===== verification/Framing.v ===== *)
(** * COBS framing over the byte stream ([transport/framing.rs])

    The reader finds zero-delimited frames in its fixed buffer and decodes
    them; the writer encodes packets into its own buffer and starts the frame
    after a failed one with an extra delimiter. Both are stated for a frame
    limit [max], which the transport sets to [MAX_FRAME_SIZE]. *)

From S2P Require Import Prelude Closer Io Script Stream Cobs.

(** [&l[a..b]], or [None] where Rust panics. *)
Definition slice (l : list byte) (a b : nat) : option (list byte) :=
  if decide (a ≤ b ∧ b ≤ length l) then Some (take (b - a) (drop a l)) else None.

(** [l[at..at + bs.len()].copy_from_slice(bs)], within bounds. *)
Definition overwrite (at_ : nat) (bs l : list byte) : list byte :=
  take at_ l ++ bs ++ drop (at_ + length bs) l.

(** [memchr::memchr(0, bs)] *)
Definition memchr_zero (bs : list byte) : option nat := find_index is_zero bs.

(** ** The reader *)

(** [FrameReader]: the input buffer and its cursors. The decoded packet, which
    the code keeps in a buffer of its own and hands out as a view, is returned
    by value. *)
Record FrameReader := MkReader {
  buffer : list byte;
  filled : nat;
  offset : nat;
  search : nat;
  discard : bool;
}.

(** [FrameWriter]: whether the last send may have left a frame open, and the
    recovery zero, the encoded frame and its delimiter. *)
Record FrameWriter := MkWriter {
  resync : bool;
  frame : list byte;
}.

Section framing.
Context {Ω : Type} `{Env Ω, Cobs} (max : nat).

(** [FrameReader::new] *)
Definition reader_new : FrameReader :=
  MkReader (replicate (max + 1) Byte.x00) 0 0 0 false.

(** The buffer moves after a search that found no delimiter. *)
Definition compact (fr : FrameReader) : M Ω FrameReader :=
  if discard fr then mret (MkReader (buffer fr) 0 0 0 true)
  else if decide (0 < offset fr) then
    part ← expect (slice (buffer fr) (offset fr) (filled fr));
    let used := filled fr - offset fr in
    mret (MkReader (overwrite 0 part (buffer fr)) used 0 used (discard fr))
  else mret fr.

(** [FrameReader::next_frame]: the frame's range within the buffer. *)
Fixpoint next_frame (fuel : nat) (deadline : option Instant) (fr : FrameReader) :
  M Ω (result (nat * nat) Error * FrameReader) :=
  match fuel with
  | O => diverge
  | S fuel =>
      d ← (match deadline with
           | Some deadline => check_deadline deadline
           | None => mret (Ok tt)
           end);
      match d with
      | Err e => mret (Err (RecvFailed e), fr)
      | Ok _ =>
          region ← expect (slice (buffer fr) (search fr) (filled fr));
          match memchr_zero region with
          | Some found =>
              let start := offset fr in
              let end_ := search fr + found in
              let fr' := MkReader (buffer fr) (filled fr) (end_ + 1) (end_ + 1) false in
              if discard fr then next_frame fuel deadline fr'
              else mret (Ok (start, end_), fr')
          | None =>
              let fr := MkReader (buffer fr) (filled fr) (offset fr) (filled fr) (discard fr) in
              fr ← compact fr;
              if decide (filled fr = max + 1) then
                mret (Err (FrameTooLarge (Z.of_nat (max + 1))),
                      MkReader (buffer fr) 0 0 0 true)
              else
                tail ← expect (slice (buffer fr) (filled fr) (length (buffer fr)));
                r ← read_half fuel (length tail) deadline;
                match r with
                | Err e => mret (Err (RecvFailed e), fr)
                | Ok [] => mret (Err Terminated, fr)
                | Ok bs =>
                    next_frame fuel deadline
                      (MkReader (overwrite (filled fr) bs (buffer fr))
                         (filled fr + length bs) (offset fr) (search fr) (discard fr))
                end
          end
      end
  end.

(** [FrameReader::next_packet]: [None] for the empty frame of a session signal. *)
Definition next_packet (fuel : nat) (deadline : option Instant) (fr : FrameReader) :
  M Ω (result (option (list byte)) Error * FrameReader) :=
  '(r, fr) ← next_frame fuel deadline fr;
  match r with
  | Err e => mret (Err e, fr)
  | Ok (start, end_) =>
      if decide (start = end_) then mret (Ok None, fr)
      else
        encoded ← expect (slice (buffer fr) start end_);
        match cobs_decode_nonzero max encoded with
        | Ok packet => mret (Ok (Some packet), fr)
        | Err e => mret (Err (FrameDecodingFailed e), fr)
        end
  end.

(** ** The writer *)

(** [FrameWriter::new] *)
Definition writer_new : FrameWriter := MkWriter false (replicate (max + 2) Byte.x00).

(** [self.frame[i] = b] *)
Definition set_byte (i : nat) (b : byte) (l : list byte) : M Ω (list byte) :=
  if decide (i < length l) then mret (<[i:=b]> l) else panic.

(** [FrameWriter::send_frame] *)
Definition send_frame (fuel : nat) (size : nat) (deadline : Instant) (fw : FrameWriter) :
  M Ω (result unit Error * FrameWriter) :=
  frame ← set_byte (size + 1) Byte.x00 (frame fw);
  let start := if resync fw then 0 else 1 in
  out ← expect (slice frame start (size + 2));
  result ← write_half fuel out deadline;
  late ← check_deadline deadline;
  let result := result_and late result in
  mret (map_err SendFailed result, MkWriter (is_err result) frame).

(** [FrameWriter::send_reset] *)
Definition send_reset (fuel : nat) (deadline : Instant) (fw : FrameWriter) :
  M Ω (result unit Error * FrameWriter) :=
  frame ← set_byte 1 Byte.x00 (frame fw);
  send_frame fuel 1 deadline (MkWriter false frame).

(** [FrameWriter::send_dropped] *)
Definition send_dropped (fuel : nat) (deadline : Instant) (fw : FrameWriter) :
  M Ω (result unit Error * FrameWriter) :=
  send_frame fuel 0 deadline fw.

(** [FrameWriter::send_packet] *)
Definition send_packet (fuel : nat) (packet : list byte) (deadline : Instant)
    (fw : FrameWriter) : M Ω (result unit Error * FrameWriter) :=
  let len := encode_buffer (length packet) in
  if decide (max < len) then mret (Err (FrameTooLarge (Z.of_nat len)), fw)
  else
    _ ← expect (slice (frame fw) 1 (max + 1));
    encoded ← expect (cobs_encode max packet);
    send_frame fuel (length encoded) deadline
      (MkWriter (resync fw) (overwrite 1 encoded (frame fw))).
End framing.

(** ** The wire's grammar: what a byte sequence says *)

Inductive event :=
  | EFrame (f : list byte)
  | EOversized.

#[global] Instance event_eq_dec : EqDecision event.
Proof. solve_decision. Defined.

(** Scanner state: the bytes of the frame in progress, or the need to discard an
    oversized one. *)
Abbreviation scanner := (list byte * bool)%type.

Definition at_boundary : scanner := ([], false).

Section scan.
Context (max : nat).

Definition scan_byte (s : scanner) (b : byte) : scanner * list event :=
  let '(acc, discarding) := s in
  if discarding then (([], negb (is_zero b)), [])
  else if is_zero b then (at_boundary, [EFrame acc])
  else if decide (length acc = max) then (([], true), [EOversized])
  else ((acc ++ [b], false), []).

Fixpoint scan (s : scanner) (bs : list byte) : scanner * list event :=
  match bs with
  | [] => (s, [])
  | b :: bs =>
      let '(s, evs) := scan_byte s b in
      let '(s, evs') := scan s bs in
      (s, evs ++ evs')
  end.
End scan.

(** ** Lemmas on scanning *)

Section scan_lemmas.
Context (max : nat).
Abbreviation scan := (scan max).

Lemma scan_app s a b :
  scan s (a ++ b)
  = ((scan (scan s a).1 b).1, (scan s a).2 ++ (scan (scan s a).1 b).2).
Proof.
  revert s. induction a as [|x a IH]; intros s; simpl.
  { by destruct (scan s b). }
  destruct (scan_byte max s x) as [s' evs]. rewrite IH.
  destruct (scan s' a) as [s1 e1]; simpl.
  destruct (scan s1 b) as [s2 e2]; simpl. by rewrite app_assoc.
Qed.

Lemma scan_run acc bs :
  zero_free bs → length acc + length bs ≤ max →
  scan (acc, false) bs = ((acc ++ bs, false), []).
Proof.
  revert acc. induction bs as [|b bs IH]; intros acc Hz Hl; simpl in *.
  { by rewrite app_nil_r. }
  apply Forall_cons in Hz as [Hb Hz].
  rewrite is_zero_ne by done.
  rewrite decide_False by lia. rewrite IH; [|done|rewrite length_app; simpl; lia].
  by rewrite <-app_assoc.
Qed.

Lemma scan_frame acc f rest :
  zero_free f → length acc + length f ≤ max →
  scan (acc, false) (f ++ Byte.x00 :: rest)
  = ((scan at_boundary rest).1, EFrame (acc ++ f) :: (scan at_boundary rest).2).
Proof.
  intros Hz Hl. rewrite scan_app, scan_run by done. cbn.
  rewrite is_zero_x00. cbn. fold (scan at_boundary rest). by destruct (scan at_boundary rest).
Qed.

Lemma scan_discard bs : zero_free bs → scan ([], true) bs = (([], true), []).
Proof.
  induction 1 as [|b bs Hb Hz IH]; simpl; [done|].
  rewrite is_zero_ne by done. simpl. by rewrite IH.
Qed.

Lemma scan_discard_end bs rest :
  zero_free bs → scan ([], true) (bs ++ Byte.x00 :: rest) = scan at_boundary rest.
Proof.
  intros Hz. rewrite scan_app, scan_discard by done. cbn.
  rewrite is_zero_x00. cbn. unfold at_boundary. by destruct (scan ([], false) rest).
Qed.

Lemma scan_oversized f rest :
  zero_free f → length f = max + 1 →
  scan at_boundary (f ++ rest)
  = ((scan ([], true) rest).1, EOversized :: (scan ([], true) rest).2).
Proof.
  intros Hz Hl. destruct f as [|b f _] using rev_ind; simpl in Hl; [lia|].
  rewrite length_app in Hl. simpl in Hl. apply zero_free_app in Hz as [Hz Hb].
  apply Forall_cons in Hb as [Hb _]. rewrite <-app_assoc, scan_app.
  unfold at_boundary. rewrite scan_run by (simpl; done || lia). simpl.
  rewrite (is_zero_ne b Hb).
  rewrite decide_True by lia. by destruct (scan ([], true) rest).
Qed.
End scan_lemmas.

(** ** Lemmas on the buffer *)

Definition sub (l : list byte) (a b : nat) : list byte := take (b - a) (drop a l).

#[global] Arguments sub : simpl never.

Lemma slice_Some l a b : a ≤ b → b ≤ length l → slice l a b = Some (sub l a b).
Proof. intros. unfold slice. by rewrite decide_True. Qed.

Lemma sub_length l a b : b ≤ length l → length (sub l a b) = b - a.
Proof. intros. unfold sub. rewrite length_take, length_drop. lia. Qed.

Lemma sub_split l a c b : a ≤ c → c ≤ b → sub l a b = sub l a c ++ sub l c b.
Proof.
  intros. unfold sub. replace (b - a) with ((c - a) + (b - c)) by lia.
  rewrite <-take_take_drop, drop_drop. do 3 f_equal. lia.
Qed.

Lemma sub_nil l a : sub l a a = [].
Proof. unfold sub. by rewrite Nat.sub_diag. Qed.

Lemma length_overwrite at_ bs l :
  at_ + length bs ≤ length l → length (overwrite at_ bs l) = length l.
Proof.
  intros. unfold overwrite. rewrite !length_app, length_take, length_drop. lia.
Qed.

Lemma sub_overwrite_before at_ bs l a b :
  b ≤ at_ → at_ ≤ length l → sub (overwrite at_ bs l) a b = sub l a b.
Proof.
  intros. unfold sub, overwrite.
  destruct (decide (a ≤ b)); [|by replace (b - a) with 0 by lia].
  rewrite drop_app_le by (rewrite length_take; lia).
  rewrite take_app_le by (rewrite length_drop, length_take; lia).
  rewrite <-(take_drop at_ l) at 2.
  rewrite drop_app_le by (rewrite length_take; lia).
  by rewrite take_app_le by (rewrite length_drop, length_take; lia).
Qed.

Lemma sub_overwrite_at at_ bs l :
  at_ ≤ length l → sub (overwrite at_ bs l) at_ (at_ + length bs) = bs.
Proof.
  intros. unfold sub, overwrite.
  rewrite drop_app_ge by (rewrite length_take; lia).
  rewrite length_take, Nat.min_l, Nat.sub_diag, drop_0 by lia.
  by rewrite take_app_le, take_ge by lia.
Qed.

(** ** The reader refines the grammar *)

(** Bytes received and not yet consumed. *)
Definition pend (fr : FrameReader) : list byte := sub (buffer fr) (offset fr) (filled fr).

(** Cursors in order within the buffer, and no delimiter left behind the
    search. *)
Record reader_ok (max : nat) (fr : FrameReader) : Prop := MkReaderOk {
  ok_length : length (buffer fr) = max + 1;
  ok_offset : offset fr ≤ search fr;
  ok_search : search fr ≤ filled fr;
  ok_filled : filled fr ≤ max + 1;
  ok_searched : zero_free (sub (buffer fr) (offset fr) (search fr));
}.

(** The scanner's state before the unconsumed bytes. *)
Definition boundary (fr : FrameReader) : scanner := ([], discard fr).

(** What the unconsumed bytes and any further input say. *)
Definition ahead (max : nat) (fr : FrameReader) (bs : list byte) : scanner * list event :=
  scan max (boundary fr) (pend fr ++ bs).

(** The event a call reports. *)
Definition reports (buf : list byte) (r : result (nat * nat) Error) : list event :=
  match r with
  | Ok (a, b) => [EFrame (sub buf a b)]
  | Err (FrameTooLarge _) => [EOversized]
  | Err _ => []
  end.

Definition report (evs : list event) (p : scanner * list event) : scanner * list event :=
  (p.1, evs ++ p.2).

Section reader_lemmas.
Context {Ω : Type} `{EnvLaws Ω, Cobs} (max : nat).

Lemma reader_new_ok : reader_ok max (reader_new max).
Proof.
  split; simpl; try lia.
  - by rewrite length_replicate.
  - apply zero_free_nil.
Qed.

(** A delimiter found at [search + found] ends the first unconsumed frame. *)
Lemma pend_found fr found :
  reader_ok max fr →
  memchr_zero (sub (buffer fr) (search fr) (filled fr)) = Some found →
  let end_ := search fr + found in
  end_ < filled fr
  ∧ zero_free (sub (buffer fr) (offset fr) end_)
  ∧ pend fr = sub (buffer fr) (offset fr) end_
              ++ Byte.x00 :: sub (buffer fr) (end_ + 1) (filled fr)
  ∧ ∀ d, reader_ok max (MkReader (buffer fr) (filled fr) (end_ + 1) (end_ + 1) d).
Proof.
  intros [Hl Ho Hs Hf Hz] (x & l1 & l2 & Hsub & Hfound & Hx & Hl1)%find_index_Some.
  simpl. apply is_zero_true in Hx as ->. apply is_zero_false_Forall in Hl1.
  pose proof (sub_length (buffer fr) (search fr) (filled fr) ltac:(lia)) as Hlen.
  rewrite Hsub, length_app in Hlen. simpl in Hlen.
  assert (search fr + found < filled fr) as Hend by lia.
  assert (sub (buffer fr) (search fr) (search fr + found) = l1
    ∧ sub (buffer fr) (search fr + found + 1) (filled fr) = l2) as [Hpre Hpost].
  { rewrite (sub_split _ _ (search fr + found)) in Hsub by lia.
    apply app_inj_1 in Hsub as [-> Hrest];
      [|rewrite sub_length by lia; lia].
    split; [done|].
    rewrite (sub_split _ _ (search fr + found + 1)) in Hrest by lia.
    change (Byte.x00 :: l2) with ([Byte.x00] ++ l2) in Hrest.
    apply app_inj_1 in Hrest as [_ ->]; [done|]. rewrite sub_length by lia. simpl. lia. }
  split_and!; [done| | |].
  - rewrite (sub_split _ _ (search fr)), Hpre by lia. by apply zero_free_app.
  - unfold pend. rewrite (sub_split _ (offset fr) (search fr)), Hsub by lia.
    rewrite (sub_split _ (offset fr) (search fr) (search fr + found)), Hpre, Hpost by lia.
    by rewrite <-app_assoc.
  - intros d. split; simpl; try lia. rewrite sub_nil. apply zero_free_nil.
Qed.

(** Without a delimiter in sight the unconsumed bytes are zero free. *)
Lemma pend_not_found fr :
  reader_ok max fr →
  memchr_zero (sub (buffer fr) (search fr) (filled fr)) = None → zero_free (pend fr).
Proof.
  intros [Hl Ho Hs Hf Hz] Hn%find_index_None%is_zero_false_Forall.
  unfold pend. rewrite (sub_split _ _ (search fr)) by lia. by apply zero_free_app.
Qed.

(** Making room drops nothing but an oversized frame's bytes. *)
Lemma compact_wp d fr (Q : FrameReader → Ω → Prop) ω :
  reader_ok max fr → search fr = filled fr → zero_free (pend fr) →
  (∀ fr', reader_ok max fr' → search fr' = filled fr' → offset fr' = 0 →
    discard fr' = discard fr → (discard fr = true → filled fr' = 0) →
    (∀ bs, ahead max fr' bs = ahead max fr bs) → zero_free (pend fr') →
    length (pend fr') ≤ length (pend fr) → Q fr' ω) →
  wp d (compact fr) ω Q.
Proof.
  intros Hok Hsf Hz HQ. pose proof Hok as [Hl Ho Hs Hf Hzs].
  unfold compact. destruct (discard fr) eqn:Ed.
  { post_step. apply HQ; simpl; try done.
    - split; simpl; try lia. apply zero_free_nil.
    - intros bs. transitivity (scan max ([], true) bs); [done|].
      unfold ahead, boundary. rewrite Ed, scan_app, (scan_discard _ (pend fr)) by done.
      simpl. by destruct (scan _ _ bs).
    - apply zero_free_nil.
    - apply Nat.le_0_l. }
  case_decide as Hoff.
  - rewrite slice_Some by lia. post_step. unfold wp at 1; simpl. post_step.
    change (sub (buffer fr) (offset fr) (filled fr)) with (pend fr).
    assert (length (pend fr) = filled fr - offset fr) as Hlp
      by (unfold pend; rewrite sub_length; lia).
    assert (sub (overwrite 0 (pend fr) (buffer fr)) 0 (filled fr - offset fr) = pend fr)
      as Hsub by (rewrite <-Hlp; apply (sub_overwrite_at 0); lia).
    apply HQ; simpl; try done.
    + split; simpl; try lia.
      * rewrite length_overwrite; simpl; lia.
      * by rewrite Hsub.
    + intros bs. unfold ahead, boundary; cbn [discard]. rewrite Ed. by do 2 f_equal.
    + by change (zero_free (sub (overwrite 0 (pend fr) (buffer fr)) 0
        (filled fr - offset fr))); rewrite Hsub.
    + change (length (sub (overwrite 0 (pend fr) (buffer fr)) 0 (filled fr - offset fr))
        ≤ length (pend fr)). by rewrite Hsub.
  - post_step. apply HQ; try done; lia.
Qed.

(** New bytes extend the unconsumed ones. *)
Lemma pend_fill fr bs :
  reader_ok max fr → length bs ≤ max + 1 - filled fr →
  let fr' := MkReader (overwrite (filled fr) bs (buffer fr))
               (filled fr + length bs) (offset fr) (search fr) (discard fr) in
  reader_ok max fr' ∧ ∀ bs', ahead max fr' bs' = ahead max fr (bs ++ bs').
Proof.
  intros [Hl Ho Hs Hf Hz] Hbs fr'.
  assert (length (overwrite (filled fr) bs (buffer fr)) = max + 1) as Hl'
    by (rewrite length_overwrite; lia).
  split.
  - split; simpl; try lia. by rewrite sub_overwrite_before by lia.
  - intros bs'. unfold ahead, boundary, pend; simpl.
    rewrite (sub_split _ _ (filled fr)) by lia.
    by rewrite sub_overwrite_before, sub_overwrite_at, <-app_assoc by lia.
Qed.

(** One call of [next_frame]: the bytes it read, with those left from before,
    say the event it reports and then what the new state still has ahead. *)
Definition next_frame_spec (fr : FrameReader) (ω : Ω)
    (p : result (nat * nat) Error * FrameReader) (ω' : Ω) : Prop :=
  let '(r, fr') := p in
  ∃ bs, reads ω ω' bs ∧ reader_ok max fr'
    ∧ (∀ more, ahead max fr (bs ++ more)
               = report (reports (buffer fr') r) (ahead max fr' more))
    ∧ match r with
      | Ok (a, b) => a ≤ b ∧ b ≤ length (buffer fr') ∧ b - a ≤ max
      | Err (FrameTooLarge size) => size = Z.of_nat (max + 1)
      | Err (RecvFailed _) | Err Terminated => True
      | Err _ => False
      end.

Lemma next_frame_spec_step fr fr1 ω ω1 bs p ω' :
  reads ω ω1 bs → (∀ more, ahead max fr1 more = ahead max fr (bs ++ more)) →
  next_frame_spec fr1 ω1 p ω' → next_frame_spec fr ω p ω'.
Proof.
  intros Hr Ha. destruct p as [r fr']. intros (bs' & Hr' & Hok & Hev & Hres).
  exists (bs ++ bs'). split_and!; [by eapply reads_trans|done| |done].
  intros more. by rewrite <-app_assoc, <-Ha, Hev.
Qed.

(** A call that reports an error and read nothing. *)
Lemma next_frame_spec_quiet fr fr1 ω ω' e :
  reads ω ω' [] → reader_ok max fr1 → (∀ more, ahead max fr1 more = ahead max fr more) →
  (∃ k, e = RecvFailed k) ∨ e = Terminated →
  next_frame_spec fr ω (Err e, fr1) ω'.
Proof.
  intros Hr Hok Ha He. exists []. split_and!; [done|done| |].
  - intros more. simpl. rewrite <-Ha.
    destruct He as [(k & ->)| ->]; unfold report; simpl; by destruct (ahead max fr1 more).
  - destruct He as [(k & ->)| ->]; done.
Qed.

Lemma next_frame_found fr found ω :
  reader_ok max fr →
  memchr_zero (sub (buffer fr) (search fr) (filled fr)) = Some found →
  let end_ := search fr + found in
  let fr' := MkReader (buffer fr) (filled fr) (end_ + 1) (end_ + 1) false in
  reader_ok max fr'
  ∧ (if discard fr then ∀ more, ahead max fr' more = ahead max fr more
     else next_frame_spec fr ω (Ok (offset fr, end_), fr') ω).
Proof.
  intros Hok Hm. destruct (pend_found fr found Hok Hm) as (Hend & Hz & Hp & Hok').
  simpl. split; [apply Hok'|]. pose proof Hok as [Hl Ho Hs Hf _].
  destruct (discard fr) eqn:Ed.
  - intros more. unfold ahead, boundary. rewrite Ed, Hp, <-app_assoc. simpl.
    by rewrite scan_discard_end.
  - exists []. split_and!; try (simpl; lia); [|apply Hok'|].
    { split; [done|]. by rewrite app_nil_r. }
    intros more. simpl. unfold ahead, boundary. rewrite Ed, Hp, <-app_assoc. simpl.
    rewrite scan_frame; [done|done|]. rewrite sub_length by lia. simpl. lia.
Qed.

Lemma next_frame_overflow fr ω :
  reader_ok max fr → offset fr = 0 → filled fr = max + 1 → discard fr = false →
  zero_free (pend fr) →
  next_frame_spec fr ω
    (Err (FrameTooLarge (Z.of_nat (max + 1))), MkReader (buffer fr) 0 0 0 true) ω.
Proof.
  intros [Hl Ho Hs Hf _] Hoff Hfull Hd Hz. exists []. split_and!; [| | |done].
  - split; [done|]. by rewrite app_nil_r.
  - split; simpl; try lia. apply zero_free_nil.
  - intros more. simpl. unfold ahead, boundary. rewrite Hd. fold at_boundary.
    rewrite scan_oversized; [done|done|]. unfold pend. rewrite sub_length by lia. lia.
Qed.

Lemma next_frame_wp fuel deadline fr ω :
  reader_ok max fr → post (next_frame max fuel deadline fr) ω (next_frame_spec fr ω).
Proof.
  revert fr ω. induction fuel as [|fuel IH]; intros fr ω Hok; [done|].
  simpl. post_step.
  apply check_optional_wp; intros ω1 Hq;
    [|post_step; eapply next_frame_spec_quiet; eauto using quiet_reads_nil].
  assert (reads ω ω1 []) as Hr1 by (by apply quiet_reads_nil).
  pose proof Hok as [Hl Ho Hs Hf _].
  rewrite slice_Some by lia. post_step. unfold wp at 1; simpl.
  destruct (memchr_zero _) as [found|] eqn:Em.
  - destruct (next_frame_found fr found ω1 Hok Em) as [Hok' Hspec].
    destruct (discard fr).
    + eapply wp_mono; [by apply IH|]. intros p ω' Hp.
      by eapply next_frame_spec_step.
    + post_step. by eapply next_frame_spec_step.
  - pose proof (pend_not_found fr Hok Em) as Hz.
    set (fr1 := MkReader (buffer fr) (filled fr) (offset fr) (filled fr) (discard fr)).
    assert (reader_ok max fr1) as Hok1 by (split; simpl; auto; lia).
    post_step. apply compact_wp; [done..|]. intros fr2 Hok2 Hsf Hoff Hdisc Hdf Ha Hz2 _.
    change (∀ more, ahead max fr2 more = ahead max fr more) in Ha.
    case_decide as Hfull.
    + post_step. eapply next_frame_spec_step; [done..|].
      apply next_frame_overflow; auto. rewrite Hdisc.
      destruct (discard fr1) eqn:E; [|done]. rewrite (Hdf eq_refl) in Hfull. lia.
    + pose proof Hok2 as [Hl2 _ _ Hf2 _].
      rewrite slice_Some by lia. post_step. unfold wp at 1; simpl.
      rewrite sub_length, Hl2 by lia.
      post_step. eapply wp_mono; [apply read_half_wp|]. intros r ω2 Hr.
      assert (∀ bs, reads ω1 ω2 bs → reads ω ω2 bs) as Htr.
      { intros bs Hbs. change bs with ([] ++ bs). by eapply reads_trans. }
      destruct r as [[|b bs]|e]; simpl in Hr.
      * post_step. destruct Hr. eapply next_frame_spec_quiet; eauto.
      * destruct Hr as [Hlen Hr]. destruct (pend_fill fr2 (b :: bs) Hok2 Hlen) as [Hok3 Ha3].
        eapply wp_mono; [by apply IH|]. intros p ω' Hp.
        eapply next_frame_spec_step; [by apply Htr| |done].
        intros more. by rewrite Ha3, Ha.
      * post_step. eapply next_frame_spec_quiet; eauto.
Qed.
End reader_lemmas.

(** ** Reading packets *)

(** What a peer's wire event means to the transport. *)
Definition meaning `{Cobs} (max : nat) (ev : event) : result (option (list byte)) Error :=
  match ev with
  | EOversized => Err (FrameTooLarge (Z.of_nat (max + 1)))
  | EFrame [] => Ok None
  | EFrame e =>
      match cobs_decode_nonzero max e with
      | Ok packet => Ok (Some packet)
      | Err err => Err (FrameDecodingFailed err)
      end
  end.

#[global] Arguments meaning : simpl never.

(** Results that report an event, rather than the stream's end or failure. *)
Definition reports_event {A} (r : result A Error) : bool :=
  match r with Err (RecvFailed _) | Err Terminated => false | _ => true end.

(** A caller reading one packet per deadline of the list. *)
Fixpoint next_packets {Ω} `{Env Ω, Cobs} (max fuel : nat) (deadlines : list (option Instant))
    (fr : FrameReader) : M Ω (list (result (option (list byte)) Error) * FrameReader) :=
  match deadlines with
  | [] => mret ([], fr)
  | d :: deadlines =>
      '(r, fr) ← next_packet max fuel d fr;
      '(rs, fr) ← next_packets max fuel deadlines fr;
      mret (r :: rs, fr)
  end.

Section reader_packets.
Context {Ω : Type} `{EnvLaws Ω, Cobs} (max : nat).

(** The bytes read say the events behind the results, then what is ahead. *)
Definition packets_spec (fr : FrameReader) (ω : Ω)
    (rs : list (result (option (list byte)) Error)) (fr' : FrameReader) (ω' : Ω) : Prop :=
  ∃ bs evs, reads ω ω' bs ∧ reader_ok max fr'
    ∧ (∀ more, ahead max fr (bs ++ more) = report evs (ahead max fr' more))
    ∧ filter (λ r, reports_event r = true) rs = meaning max <$> evs.

Lemma meaning_frame buf a b :
  a ≤ b → b ≤ length buf →
  meaning max (EFrame (sub buf a b))
  = if decide (a = b) then Ok None
    else match cobs_decode_nonzero max (sub buf a b) with
         | Ok packet => Ok (Some packet)
         | Err e => Err (FrameDecodingFailed e)
         end.
Proof.
  intros Hab Hb. pose proof (sub_length buf a b Hb) as Hl.
  case_decide as E; [subst; by rewrite sub_nil|].
  destruct (sub buf a b); simpl in *; [lia|done].
Qed.

Lemma next_packet_wp d fuel deadline fr ω
    (T : result (nat * nat) Error * FrameReader → Ω → Prop) :
  wp d (next_frame max fuel deadline fr) ω T → reader_ok max fr →
  wp d (next_packet max fuel deadline fr) ω (λ p ω', packets_spec fr ω [p.1] p.2 ω'
    ∧ ∃ r, T (r, p.2) ω' ∧ (∀ e, p.1 = Err e → reports_event p.1 = false → r = Err e)
      ∧ reports_event r = reports_event p.1).
Proof.
  intros HT Hok. unfold next_packet. post_step.
  eapply wp_mono; [apply (wp_total_partial d _ _ _ _ HT (next_frame_wp max _ _ _ _ Hok))|].
  intros [r fr'] ω' [HTr (bs & Hr & Hok' & Ha & Hres)].
  assert (∀ r' evs, reports (buffer fr') r = evs →
    filter (λ r, reports_event r = true) [r'] = meaning max <$> evs →
    packets_spec fr ω [r'] fr' ω') as Hone.
  { intros r' evs <- Hev. by exists bs, (reports (buffer fr') r). }
  destruct r as [[a b]|e].
  - destruct Hres as (Hab & Hb & Hm). rewrite slice_Some by done.
    specialize (λ r', Hone r' _ eq_refl). simpl in Hone.
    rewrite meaning_frame in Hone by done.
    case_decide; [post_step; split; [by apply Hone|exists (Ok (a, b)); naive_solver]|].
    post_step. unfold expect. post_step.
    destruct (cobs_decode_nonzero max _) as [p|err]; post_step;
      (split; [by apply Hone|exists (Ok (a, b)); naive_solver]).
  - post_step. split; [|exists (Err e); naive_solver]. eapply Hone; [done|].
    destruct e; try done. simpl in Hres. by subst.
Qed.

Lemma packets_spec_nil fr ω : reader_ok max fr → packets_spec fr ω [] fr ω.
Proof.
  intros Hok. exists [], []. split_and!; try done.
  - split; [done|]. by rewrite app_nil_r.
  - intros more. unfold report. simpl. by destruct (ahead max fr more).
Qed.

Lemma packets_spec_trans fr fr1 fr2 ω ω1 ω2 rs rs' :
  packets_spec fr ω rs fr1 ω1 → packets_spec fr1 ω1 rs' fr2 ω2 →
  packets_spec fr ω (rs ++ rs') fr2 ω2.
Proof.
  intros (bs & evs & Hr & Hok & Ha & Hf) (bs' & evs' & Hr' & Hok' & Ha' & Hf').
  exists (bs ++ bs'), (evs ++ evs'). split_and!; [by eapply reads_trans|done| |].
  - intros more. rewrite <-app_assoc, Ha, Ha'. unfold report. simpl. by rewrite app_assoc.
  - by rewrite filter_app, fmap_app, Hf, Hf'.
Qed.

Lemma next_packets_wp fuel deadlines fr ω :
  reader_ok max fr →
  post (next_packets max fuel deadlines fr) ω
    (λ p ω', packets_spec fr ω p.1 p.2 ω').
Proof.
  revert fr ω. induction deadlines as [|d ds IH]; intros fr ω Hok; simpl.
  { post_step. by apply packets_spec_nil. }
  post_step. eapply wp_mono; [apply (next_packet_wp _ _ _ _ _ (λ _ _, True)); [|done]|].
  { eapply wp_mono; [by apply next_frame_wp|done]. }
  intros [r fr1] ω1 [Hs _]. simpl in Hs. post_step.
  eapply wp_mono; [apply IH; by destruct Hs as (?&?&_&?&_)|].
  intros [rs fr2] ω2 Hs'. post_step. by apply (packets_spec_trans _ fr1 _ _ ω1 _ [r]).
Qed.
End reader_packets.

(** ** Termination of the reader *)

Section reader_termination.
Context {Ω : Type} `{EnvLaws Ω, Cobs} (max : nat) (budget : Ω → nat) `{!EnvBudget Ω budget}.

Lemma check_optional_budget deadline ω (Q : result unit ErrorKind → Ω → Prop) :
  (∀ r ω', budget ω' ≤ budget ω → Q r ω') →
  tpost (match deadline with
         | Some deadline => check_deadline deadline
         | None => mret (Ok tt)
         end) ω Q.
Proof.
  intros HQ. destruct deadline; [|by post_step; apply HQ].
  apply check_deadline_wp. intros r _. apply HQ, budget_clock.
Qed.

(** Input a reader may still turn into events: the bytes it holds and those its
    adapter may return. *)
Definition unread (fr : FrameReader) (ω : Ω) : nat :=
  length (pend fr) + (max + 1) * budget ω.

Definition consumed {A} (r : result A Error) : nat := Nat.b2n (reports_event r).

Lemma length_pend fr : reader_ok max fr → length (pend fr) = filled fr - offset fr.
Proof. intros [Hl _ _ Hf _]. apply sub_length. lia. Qed.

(** Each pass finds a frame, ends a discard, reads more input or stops. *)
Lemma next_frame_unread fuel deadline fr ω :
  reader_ok max fr → budget ω + Nat.b2n (discard fr) + 1 < fuel →
  tpost (next_frame max fuel deadline fr) ω (λ p ω', budget ω' ≤ budget ω
    ∧ unread p.2 ω' + consumed p.1 ≤ unread fr ω).
Proof.
  revert fr ω. induction fuel as [|fuel IH]; intros fr ω Hok Hf; [lia|].
  simpl. post_step. apply check_optional_budget. intros d ω1 Hb1.
  destruct d; [|post_step; split; [done|]; unfold unread, consumed; simpl; nia].
  pose proof Hok as [Hl Ho Hs Hfl _].
  rewrite slice_Some by lia. post_step. unfold wp at 1; simpl.
  pose proof (length_pend fr Hok) as Hlp.
  destruct (memchr_zero _) as [found|] eqn:Em.
  - destruct (pend_found max fr found Hok Em) as (Hend & _ & _ & Hok').
    pose proof (length_pend _ (Hok' false)) as Hlp'. simpl in Hlp'.
    destruct (discard fr).
    + eapply wp_mono; [apply IH; [done|simpl in *; lia]|]. intros p ω' [Hb' Hl'].
      split; [lia|]. unfold unread in *. cbn [pend offset filled buffer] in *. nia.
    + post_step. split; [done|]. unfold unread, consumed. simpl. nia.
  - pose proof (pend_not_found max fr Hok Em) as Hz.
    set (fr1 := MkReader (buffer fr) (filled fr) (offset fr) (filled fr) (discard fr)).
    assert (reader_ok max fr1) as Hok1 by (split; simpl; auto; lia).
    post_step. apply compact_wp with (max := max); [done..|].
    intros fr2 Hok2 _ Hoff Hdisc _ _ _ Hlen2.
    change (length (pend fr2) ≤ length (pend fr)) in Hlen2.
    pose proof (length_pend fr2 Hok2) as Hlp2. case_decide as Hfull.
    { post_step. split; [done|]. unfold unread, consumed.
      change (length (pend (MkReader (buffer fr2) 0 0 0 true))) with 0. simpl. nia. }
    pose proof Hok2 as [Hl2 _ _ Hf2 _].
    rewrite slice_Some by lia. post_step. unfold wp at 1; simpl.
    rewrite sub_length, Hl2 by lia. post_step.
    eapply wp_mono; [eapply wp_total_partial;
      [apply (read_half_total budget); lia|apply read_half_wp]|].
    intros [[|b bs]|e] ω2 [Hb2 Hr];
      [post_step; split; [lia|]; unfold unread, consumed; simpl; nia| |
       post_step; split; [lia|]; unfold unread, consumed; simpl; nia].
    destruct Hr as [Hlen _]. destruct (pend_fill max fr2 (b :: bs) Hok2 Hlen) as [Hok3 _].
    pose proof (length_pend _ Hok3) as Hlp3. cbn [filled offset] in Hlp3.
    eapply wp_mono; [apply IH; [done|]|].
    + simpl. rewrite Hdisc. simpl. lia.
    + intros p ω' [Hb' Hl']. split; [lia|]. etrans; [exact Hl'|].
      unfold unread. rewrite Hlp3. nia.
Qed.

Lemma next_frame_total fuel deadline fr ω :
  reader_ok max fr → budget ω + Nat.b2n (discard fr) + 1 < fuel →
  tpost (next_frame max fuel deadline fr) ω (λ _ ω', budget ω' ≤ budget ω).
Proof.
  intros Hok Hf. eapply wp_mono; [by apply next_frame_unread|]. by intros p ω' [].
Qed.

Lemma next_packets_total fuel deadlines fr ω :
  reader_ok max fr → budget ω + 2 < fuel →
  tpost (next_packets max fuel deadlines fr) ω
    (λ p ω', packets_spec max fr ω p.1 p.2 ω').
Proof.
  revert fr ω. induction deadlines as [|d ds IH]; intros fr ω Hok Hf; simpl.
  { post_step. by apply packets_spec_nil. }
  post_step. eapply wp_mono;
    [apply (next_packet_wp max False _ _ _ _ (λ _ ω', budget ω' ≤ budget ω)); [|done]|].
  { apply next_frame_total; [done|]. destruct (discard fr); simpl; lia. }
  intros [r fr1] ω1 [Hs (_ & Hb & _)]. simpl in Hs. post_step.
  eapply wp_mono; [apply IH; [by destruct Hs as (?&?&_&?&_)|lia]|].
  intros [rs fr2] ω2 Hs'. post_step. by apply (packets_spec_trans _ _ fr1 _ _ ω1 _ [r]).
Qed.
End reader_termination.

(** ** The writer *)

(** The buffer's size and its reserved zero. *)
Definition writer_ok (max : nat) (fw : FrameWriter) : Prop :=
  ∃ rest, frame fw = Byte.x00 :: rest ∧ length rest = max + 1.

(** Where a peer's scanner stands after everything written: never discarding,
    and between frames unless recovery is due. *)
Definition in_sync (max : nat) (fw : FrameWriter) (s : scanner) : Prop :=
  writer_ok max fw ∧ s.2 = false ∧ length s.1 ≤ max
  ∧ (resync fw = false → s = at_boundary).

Section writer_lemmas.
Context {Ω : Type} `{EnvLaws Ω, CobsLaws} (max : nat).

Lemma writer_new_ok : in_sync max (writer_new max) at_boundary.
Proof.
  split_and!; simpl; try done; [|lia].
  exists (replicate (max + 1) Byte.x00). split; [|by rewrite length_replicate].
  unfold writer_new. simpl. by replace (max + 2) with (S (max + 1)) by lia.
Qed.

(** The bytes of one frame: recovery zero, body and delimiter. *)
Definition wire_bytes (recover : bool) (body : list byte) : list byte :=
  (if recover then [Byte.x00] else []) ++ body ++ [Byte.x00].

Definition sends (fw : FrameWriter) (body : list byte) (ω : Ω)
    (p : result unit Error * FrameWriter) (ω' : Ω) : Prop :=
  writer_ok max p.2 ∧ (resync p.2 = is_err p.1 ∧ ∀ e, p.1 = Err e → ∃ k, e = SendFailed k)
  ∧ ∃ k, writes ω ω' (take k (wire_bytes (resync fw) body))
         ∧ (p.1 = Ok tt → take k (wire_bytes (resync fw) body)
                          = wire_bytes (resync fw) body).

Lemma send_frame_slice rest size (r : bool) body :
  size ≤ max → length rest = max + 1 → take size rest = body →
  slice (<[size + 1:=Byte.x00]> (Byte.x00 :: rest)) (if r then 0 else 1) (size + 2)
  = Some (wire_bytes r body).
Proof.
  intros Hs Hl <-. rewrite slice_Some; [|destruct r; lia|rewrite length_insert; simpl; lia].
  unfold sub, wire_bytes. f_equal.
  replace (size + 1) with (S size) by lia. simpl.
  assert (∀ l, l = <[size:=Byte.x00]> rest → take (S size) l = take size rest ++ [Byte.x00])
    as Ht.
  { intros l ->. rewrite (take_S_r _ _ Byte.x00).
    - by rewrite take_insert_ge by lia.
    - by rewrite list_lookup_insert_eq by lia. }
  destruct r; simpl.
  - replace (size + 2) with (S (S size)) by lia. simpl. f_equal. by apply Ht.
  - rewrite drop_0. replace (size + 2 - 1) with (S size) by lia. by apply Ht.
Qed.

Lemma send_frame_wp d fuel size deadline fw body ω (T : Ω → Prop) :
  (∀ out, length out ≤ max + 2 →
    wp d (write_half fuel out deadline) ω (λ _ ω', T (clock_now ω').2)) →
  (∃ rest, frame fw = Byte.x00 :: rest ∧ length rest = max + 1 ∧ take size rest = body) →
  size ≤ max →
  wp d (send_frame fuel size deadline fw) ω (λ p ω', sends fw body ω p ω' ∧ T ω').
Proof.
  intros HT (rest & Hf & Hl & Hb) Hs. unfold send_frame, set_byte. post_step. rewrite Hf.
  rewrite decide_True by (simpl; lia). post_steps.
  rewrite (send_frame_slice rest size (resync fw) body Hs Hl Hb). unfold expect. post_steps.
  eapply wp_mono; [eapply wp_total_partial; [apply HT|apply write_half_wp]|].
  { unfold wire_bytes. subst body.
    destruct (resync fw); simpl; rewrite ?length_app, length_take; simpl; lia. }
  intros r ω1 [HT1 (k & Hw & Hk)]. post_step. apply check_deadline_wp. intros late Hlate.
  pose proof (clock_now_law ω1) as Hnow. post_step. split; [|done].
  unfold sends. simpl. split_and!.
  - exists (<[size:=Byte.x00]> rest). replace (size + 1) with (S size) by lia.
    by rewrite length_insert.
  - by destruct (result_and late r) as [|].
  - destruct (result_and late r); naive_solver.
  - exists k. split.
    + rewrite <-(app_nil_r (take k _)). eapply writes_trans; [done|].
      by apply quiet_writes_nil.
    + destruct Hlate as [->| ->]; simpl; [|done]. destruct r as [[]|]; simpl; auto. done.
Qed.

(** Scanning what a send put out, complete or cut anywhere. *)
Lemma scan_cut_body k body :
  zero_free body → length body ≤ max →
  let s := (scan max at_boundary (take k (body ++ [Byte.x00]))).1 in
  s.2 = false ∧ length s.1 ≤ max.
Proof.
  intros Hz Hl. destruct (decide (k ≤ length body)).
  - rewrite take_app_le by done. unfold at_boundary. rewrite scan_run.
    + simpl. rewrite length_take. lia.
    + by apply zero_free_take.
    + simpl. rewrite length_take. lia.
  - rewrite take_ge by (rewrite length_app; simpl; lia). unfold at_boundary.
    rewrite scan_frame by done. simpl. lia.
Qed.

Lemma scan_cut k s recover body :
  s.2 = false → length s.1 ≤ max → (recover = false → s = at_boundary) →
  zero_free body → length body ≤ max →
  let s' := (scan max s (take k (wire_bytes recover body))).1 in
  s'.2 = false ∧ length s'.1 ≤ max.
Proof.
  destruct s as [acc []]; simpl; [done|]. intros _ Ha Hs Hz Hl. unfold wire_bytes.
  destruct recover.
  - destruct k as [|k]; [done|]. simpl. rewrite ?is_zero_x00.
    pose proof (scan_cut_body k body Hz Hl) as Hc. by destruct (scan max at_boundary _).
  - cbn [app]. rewrite (Hs eq_refl). by apply scan_cut_body.
Qed.

Lemma scan_sent s recover body :
  s.2 = false → (recover = false → s = at_boundary) →
  zero_free body → length body ≤ max →
  scan max s (wire_bytes recover body)
  = (at_boundary, (if recover then [EFrame s.1] else []) ++ [EFrame body]).
Proof.
  destruct s as [acc []]; simpl; [done|]. intros _ Hs Hz Hl. unfold wire_bytes.
  assert (scan max at_boundary (body ++ [Byte.x00]) = (at_boundary, [EFrame body])) as Hb
    by (unfold at_boundary at 1; by rewrite scan_frame).
  destruct recover; simpl.
  - rewrite ?is_zero_x00. by rewrite Hb.
  - by rewrite (Hs eq_refl).
Qed.
End writer_lemmas.

(** ** Sequences of sends *)

Inductive SendOp :=
  | OpReset
  | OpDropped
  | OpPacket (packet : list byte).

Section send_ops.
Context {Ω : Type} `{Env Ω, Cobs} (max fuel : nat).

Definition send_op (o : SendOp) (deadline : Instant) (fw : FrameWriter) :
  M Ω (result unit Error * FrameWriter) :=
  match o with
  | OpReset => send_reset fuel deadline fw
  | OpDropped => send_dropped fuel deadline fw
  | OpPacket packet => send_packet max fuel packet deadline fw
  end.

Fixpoint send_ops (os : list (SendOp * Instant)) (fw : FrameWriter) :
  M Ω (list (result unit Error) * FrameWriter) :=
  match os with
  | [] => mret ([], fw)
  | (o, deadline) :: os =>
      '(r, fw) ← send_op o deadline fw;
      '(rs, fw) ← send_ops os fw;
      mret (r :: rs, fw)
  end.
End send_ops.

(** The frame a send puts on the wire. *)
Definition body_of `{Cobs} (max : nat) (o : SendOp) : list byte :=
  match o with
  | OpPacket packet => default [] (cobs_encode max packet)
  | _ => []
  end.

(** Every event of a send whose peer is between frames: a reset first ends the
    frame in progress, here an empty one. *)
Definition events_of `{Cobs} (max : nat) (o : SendOp) : list event :=
  match o with
  | OpReset => [EFrame []; EFrame []]
  | o => [EFrame (body_of max o)]
  end.

(** What the peer's reader returns for each send. *)
Definition received (o : SendOp) : list (result (option (list byte)) Error) :=
  match o with
  | OpReset => [Ok None; Ok None]
  | OpDropped => [Ok None]
  | OpPacket packet => [Ok (Some packet)]
  end.

(** Within the frame limit. *)
Definition fits `{Cobs} (max : nat) (o : SendOp) : Prop :=
  match o with
  | OpPacket packet => encode_buffer (length packet) ≤ max
  | _ => True
  end.

(** The frames of the sends that succeeded, in order. *)
Definition delivered `{Cobs} (max : nat) (os : list SendOp)
    (rs : list (result unit Error)) : list event :=
  omap (λ '(o, r), if is_ok r then Some (EFrame (body_of max o)) else None) (zip os rs).

Section send_lemmas.
Context {Ω : Type} `{EnvLaws Ω, CobsLaws} (max : nat) (Hmax : 0 < max).

(** One send by a writer in sync with a scanner in state [s]. *)
Definition send_spec (o : SendOp) (fw : FrameWriter) (s : scanner) (ω : Ω)
    (p : result unit Error * FrameWriter) (ω' : Ω) : Prop :=
  ∃ bs, writes ω ω' bs ∧ in_sync max p.2 (scan max s bs).1
    ∧ (p.1 = Ok tt → (∃ pre, (scan max s bs).2 = pre ++ [EFrame (body_of max o)])
         ∧ resync p.2 = false ∧ fits max o
         ∧ (resync fw = false → (scan max s bs).2 = events_of max o))
    ∧ (fits max o → resync p.2 = is_err p.1 ∧ ∀ e, p.1 = Err e → ∃ k, e = SendFailed k).

Lemma sends_spec o fw s ω p ω' :
  o ≠ OpReset → fits max o → zero_free (body_of max o) → length (body_of max o) ≤ max →
  in_sync max fw s → sends max fw (body_of max o) ω p ω' → send_spec o fw s ω p ω'.
Proof.
  intros Ho Hfit Hz Hl (_ & Hd & Ha & Hb) (Hok & Hre' & k & Hw & Hk). pose proof (proj1 Hre') as Hre.
  destruct p as [r fw'].
  simpl in *. exists (take k (wire_bytes (resync fw) (body_of max o))).
  pose proof (scan_sent max s (resync fw) _ Hd Hb Hz Hl) as Hsent.
  destruct (scan_cut max k s (resync fw) (body_of max o)) as [Hd' Ha']; try done.
  split_and!; [done| | |done].
  - split_and!; try done. simpl. rewrite Hre. destruct r as [[]|]; [|done].
    intros _. by rewrite (Hk eq_refl), Hsent.
  - simpl. intros Hr. rewrite (Hk Hr), Hsent, Hre, Hr. simpl. split_and!; [eauto|done|done|].
    intros ->. by destruct o.
Qed.

(** Two zeros end whatever the scanner is in and signal a reset. *)
Lemma scan_reset s :
  ∃ pre, scan max s [Byte.x00; Byte.x00] = (at_boundary, pre ++ [EFrame []]).
Proof. destruct s as [acc []]; [by exists []|by exists [EFrame acc]]. Qed.

Lemma sends_reset fw s ω p ω' :
  in_sync max fw s → sends max (MkWriter false (frame fw)) [Byte.x00] ω p ω' →
  send_spec OpReset fw s ω p ω'.
Proof.
  intros (_ & Hd & Ha & Hb) (Hok & Hre' & k & Hw & Hk). pose proof (proj1 Hre') as Hre.
  destruct p as [r fw'].
  simpl in *. exists (take k [Byte.x00; Byte.x00]). change [Byte.x00; Byte.x00] with
    (wire_bytes false [Byte.x00]) at 1. split; [done|].
  assert (∀ k, let s' := (scan max s (take k [Byte.x00; Byte.x00])).1 in
    s'.2 = false ∧ length s'.1 ≤ max) as Hcut.
  { intros [|[|j]]; [done| |rewrite (take_ge _ (S (S j))) by (simpl; lia)];
      destruct s as [acc []]; try done; simpl; split; try done; lia. }
  destruct (scan_reset s) as [pre Hpre]. destruct (Hcut k) as [Hd' Ha'].
  change (wire_bytes false [Byte.x00]) with [Byte.x00; Byte.x00] in Hk.
  split_and!; [| |done].
  - split_and!; try done. simpl. rewrite Hre. destruct r as [[]|]; [|done].
    intros _. by rewrite (Hk eq_refl), Hpre.
  - simpl. intros Hr. rewrite (Hk Hr), Hre, Hr, Hpre. simpl. split_and!; [by exists pre|done|done|].
    intros Hs. specialize (Hb Hs) as ->. vm_compute in Hpre. by simplify_eq/=.
Qed.

Lemma send_op_wp d fuel o deadline fw s ω (T : Ω → Prop) :
  (∀ out, length out ≤ max + 2 →
    wp d (write_half fuel out deadline) ω (λ _ ω', T (clock_now ω').2)) →
  T ω → in_sync max fw s →
  wp d (send_op max fuel o deadline fw) ω (λ p ω', send_spec o fw s ω p ω' ∧ T ω').
Proof.
  intros HT HTω Hsync. pose proof Hsync as ((rest & Hf & Hl) & _). destruct o; simpl.
  - unfold send_reset, set_byte. rewrite Hf. post_step. rewrite decide_True by (simpl; lia).
    post_step. eapply wp_mono; [apply (send_frame_wp max _ _ _ _ _ [Byte.x00] _ _ HT)|].
    + exists (<[0:=Byte.x00]> rest). split_and!; [done|by rewrite length_insert|].
      destruct rest; simpl in *; [lia|done].
    + lia.
    + intros p ω' [Hs ?]. split; [|done]. by apply sends_reset.
  - unfold send_dropped.
    eapply wp_mono; [apply (send_frame_wp max _ _ _ _ _ [] _ _ HT); [by exists rest|lia]|].
    intros p ω' [Hs ?]. split; [|done]. apply sends_spec; simpl; auto with wire; try lia.
  - unfold send_packet. case_decide as Hlen.
    { post_step. split; [|done]. exists []. simpl. split_and!; try done; [|lia].
      by apply quiet_writes_nil. }
    rewrite slice_Some by (rewrite ?Hf; simpl; lia). unfold expect at 1. post_steps.
    destruct (encode_fits max packet) as (e & He & Hle); [lia|]. rewrite He.
    unfold expect. post_steps.
    eapply wp_mono; [apply (send_frame_wp max _ _ _ _ _ e _ _ HT)|].
    + exists (overwrite 0 e rest). rewrite Hf. split_and!.
      * unfold overwrite. by rewrite take_0.
      * rewrite length_overwrite; simpl; lia.
      * unfold overwrite. simpl. by rewrite take_app_length.
    + lia.
    + intros p ω' [Hs ?]. split; [|done].
      assert (body_of max (OpPacket packet) = e) as Hbody by (simpl; by rewrite He).
      apply sends_spec; rewrite ?Hbody; [done|simpl; lia| |lia|done|done].
      by eapply encode_zero_free.
Qed.

(** A sequence of sends. *)
Definition sends_all_spec (os : list SendOp) (fw : FrameWriter) (s : scanner) (ω : Ω)
    (rs : list (result unit Error)) (fw' : FrameWriter) (ω' : Ω) : Prop :=
  ∃ bs, writes ω ω' bs ∧ in_sync max fw' (scan max s bs).1
    ∧ sublist (delivered max os rs) (scan max s bs).2
    ∧ (Forall (λ r, r = Ok tt) rs → Forall (fits max) os
        ∧ (resync fw = false → (scan max s bs).2 = os ≫= events_of max)).

Lemma sends_all_spec_cons o os fw fw1 s ω ω1 r :
  send_spec o fw s ω (r, fw1) ω1 →
  ∃ s1, in_sync max fw1 s1
    ∧ ∀ rs fw2 ω2, sends_all_spec os fw1 s1 ω1 rs fw2 ω2 →
                   sends_all_spec (o :: os) fw s ω (r :: rs) fw2 ω2.
Proof.
  intros (bs & Hw & Hsync & Hok & _). simpl in *. eexists. split; [done|].
  intros rs fw2 ω2 (bs' & Hw' & Hsync' & Hsub & Hall).
  exists (bs ++ bs'). rewrite scan_app. simpl. split_and!; [by eapply writes_trans|done| |].
  - unfold delivered. simpl. destruct r as [[]|e]; simpl.
    + destruct (Hok eq_refl) as ((pre & ->) & _). rewrite <-app_assoc. simpl.
      by apply sublist_inserts_l, sublist_skip.
    + by apply sublist_inserts_l.
  - intros [-> Hrs]%Forall_cons. destruct (Hok eq_refl) as (_ & Hre1 & Hfit & Hev).
    destruct (Hall Hrs) as [Hfits Hevs]. split; [by constructor|]. intros Hre.
    by rewrite Hev, Hevs.
Qed.

Lemma send_ops_wp fuel os fw s ω :
  in_sync max fw s →
  post (send_ops max fuel os fw) ω
    (λ p ω', sends_all_spec os.*1 fw s ω p.1 p.2 ω').
Proof.
  revert fw s ω. induction os as [|[o deadline] os IH]; intros fw s ω Hsync; simpl.
  { post_step. exists []. simpl. split_and!; try done. by apply quiet_writes_nil. }
  post_step. eapply wp_mono; [apply (send_op_wp _ _ _ _ _ s _ (λ _, True)); [|done..]|].
  { intros out _. eapply wp_mono; [apply write_half_wp|done]. }
  intros [r fw1] ω1 [Hs _]. destruct (sends_all_spec_cons _ os.*1 _ _ _ _ _ _ Hs)
    as (s1 & Hsync1 & Hcons).
  post_step. eapply wp_mono; [by apply IH|]. intros [rs fw2] ω2 Hs'. post_step. by apply Hcons.
Qed.

(** Sending ends within the adapter's budget. *)
Lemma send_ops_total (budget : Ω → nat) `{!EnvBudget Ω budget} fuel os fw s ω :
  max + 2 + budget ω < fuel → in_sync max fw s →
  tpost (send_ops max fuel os fw) ω
    (λ p ω', sends_all_spec os.*1 fw s ω p.1 p.2 ω').
Proof.
  revert fw s ω. induction os as [|[o deadline] os IH]; intros fw s ω Hf Hsync; simpl.
  { post_step. exists []. simpl. split_and!; try done. by apply quiet_writes_nil. }
  post_step. eapply wp_mono;
    [apply (send_op_wp _ _ _ _ _ s _ (λ ω', budget ω' ≤ budget ω)); [|done..]|].
  { intros out Hout. eapply wp_mono; [apply (write_half_total budget); lia|].
    intros r ω' Hb. simpl in Hb. pose proof (budget_clock ω'). lia. }
  intros [r fw1] ω1 [Hs Hb]. destruct (sends_all_spec_cons _ os.*1 _ _ _ _ _ _ Hs)
    as (s1 & Hsync1 & Hcons).
  post_step. eapply wp_mono; [apply IH; [lia|done]|]. intros [rs fw2] ω2 Hs'.
  post_step. by apply Hcons.
Qed.
End send_lemmas.

(** ** A closed stream still drains *)

Section closed_stream.
Context {Ω : Type} `{Env Ω, Cobs} (max : nat).

Lemma read_half_closed fuel n ω :
  Shutdown.phase (get_closer ω) ≠ Shutdown.Open →
  read_half (S fuel) n None ω = Ret (Ok [], ω).
Proof.
  intros Hp. simpl. unfold try_, mbind, M_bind. simpl.
  unfold admitted, Shutdown.enter. by rewrite decide_True.
Qed.

(** Without input a call takes the next buffered event, and reports the end only
    where the buffer holds none. *)
Lemma next_frame_closed fuel fr ω :
  reader_ok max fr → Shutdown.phase (get_closer ω) ≠ Shutdown.Open →
  Nat.b2n (discard fr) + 1 < fuel →
  tpost (next_frame max fuel None fr) ω (λ p ω', ω' = ω
    ∧ match p.1 with
      | Ok _ | Err (FrameTooLarge _) => True
      | Err Terminated => (ahead max p.2 []).2 = []
      | Err _ => False
      end).
Proof.
  revert fr. induction fuel as [|fuel IH]; intros fr Hok Hp Hf; [lia|].
  pose proof Hok as [Hl Ho Hs Hfl _]. simpl. post_steps.
  rewrite slice_Some by lia. unfold wp at 1; simpl.
  destruct (memchr_zero _) as [found|] eqn:Em.
  - destruct (pend_found max fr found Hok Em) as (_ & _ & _ & Hok').
    destruct (discard fr); [|by post_step]. apply IH; [done..|simpl in *; lia].
  - pose proof (pend_not_found max fr Hok Em) as Hz.
    set (fr1 := MkReader (buffer fr) (filled fr) (offset fr) (filled fr) (discard fr)).
    assert (reader_ok max fr1) as Hok1 by (split; simpl; auto; lia).
    post_step. apply compact_wp with (max := max); [done..|].
    intros fr2 Hok2 _ Hoff Hdisc _ _ Hz2 _. case_decide as Hfull; [by post_step|].
    pose proof Hok2 as [Hl2 _ _ Hf2 _]. rewrite slice_Some by lia.
    post_step. unfold wp at 1; simpl. post_step. unfold wp at 1.
    destruct fuel as [|fuel]; [destruct (discard fr); simpl in *; lia|].
    rewrite read_half_closed by done. post_step. split; [done|]. simpl.
    unfold ahead, boundary. rewrite app_nil_r. destruct (discard fr2).
    + by rewrite scan_discard.
    + rewrite scan_run; [done..|]. unfold pend. rewrite sub_length; simpl; lia.
Qed.
End closed_stream.

Section closed_packets.
Context {Ω : Type} `{EnvLaws Ω, Cobs} (max : nat).

Lemma next_packet_closed fuel fr ω :
  reader_ok max fr → Shutdown.phase (get_closer ω) ≠ Shutdown.Open → 2 < fuel →
  tpost (next_packet max fuel None fr) ω (λ p ω', ω' = ω ∧ reader_ok max p.2
    ∧ match (ahead max fr []).2 with
      | [] => p.1 = Err Terminated ∧ (ahead max p.2 []).2 = []
      | ev :: evs => p.1 = meaning max ev ∧ (ahead max p.2 []).2 = evs
      end).
Proof.
  intros Hok Hp Hf.
  eapply wp_mono; [apply (next_packet_wp max False); [apply next_frame_closed|]; try done|].
  { destruct (discard fr); simpl; lia. }
  intros [r fr'] ω' [(bs & evs & (_ & Hr) & Hok' & Ha & Hf') (r' & [-> Hr'] & Herr & _)].
  simpl in *. split_and!; [done..|].
  assert (bs = []) as -> by (by apply (app_inv_head (rx ω)); rewrite app_nil_r).
  specialize (Ha []). simpl in Ha. rewrite Ha. simpl.
  rewrite filter_cons in Hf'. destruct (reports_event r) eqn:Ev.
  - rewrite decide_True in Hf' by done. destruct evs as [|ev [|]]; simplify_eq/=. done.
  - rewrite decide_False in Hf' by done. destruct evs as [|]; simplify_eq/=.
    destruct r as [|e]; [done|]. rewrite (Herr e eq_refl eq_refl) in Hr'.
    destruct e; try done. by rewrite Hr'.
Qed.

Lemma next_packets_closed fuel n fr ω :
  reader_ok max fr → Shutdown.phase (get_closer ω) ≠ Shutdown.Open → 2 < fuel →
  let evs := (ahead max fr []).2 in
  tpost (next_packets max fuel (replicate n None) fr) ω (λ p ω', ω' = ω
    ∧ p.1 = take n ((meaning max <$> evs) ++ replicate n (Err Terminated))).
Proof.
  intros Hok Hp Hf. revert fr Hok. induction n as [|n IH]; intros fr Hok; simpl.
  { by post_step. }
  post_step. eapply wp_mono; [by apply next_packet_closed|].
  intros [r fr1] ω1 (-> & Hok1 & Hr). simpl in Hok1, Hr. post_step.
  eapply wp_mono; [by apply IH|]. intros [rs fr2] ω2 [-> Hrs]. post_step.
  simpl in *. split; [done|]. destruct (ahead max fr []).2 as [|ev evs]; simpl.
  - destruct Hr as [-> Hev]. rewrite Hev in Hrs. simpl in *. by rewrite Hrs.
  - destruct Hr as [-> Hev]. rewrite Hev in Hrs. rewrite Hrs. f_equal.
    change (Err Terminated :: replicate n (Err Terminated)) with
      (replicate (S n) (Err Terminated : result (option (list byte)) Error)).
    rewrite !take_app, !take_replicate, !length_fmap. do 2 f_equal. lia.
Qed.
End closed_packets.

(** ** What the framer guarantees *)

(** C19: Reading is independent of how the stream is cut. For any adapter that
    keeps the [io::Read] contract, any sequence of deadlines, timeouts,
    interruptions and partial reads, the calls return, and the packets, session
    signals, decoding failures and oversize reports they return are exactly the
    wire events of the bytes received, in order; what is not reported yet is
    still ahead in the reader's buffer. *)
Theorem reader_refines_grammar {Ω : Type} `{EnvLaws Ω, Cobs} (budget : Ω → nat)
    `{!EnvBudget Ω budget} (max fuel : nat) (deadlines : list (option Instant)) (ω : Ω) :
  budget ω + 2 < fuel →
  ∃ rs fr' ω' bs evs,
    next_packets max fuel deadlines (reader_new max) ω = Ret ((rs, fr'), ω')
    ∧ tx ω' = tx ω ∧ rx ω' = rx ω ++ bs
    ∧ filter (λ r, reports_event r = true) rs = meaning max <$> evs
    ∧ scan max at_boundary bs = report evs (scan max (boundary fr') (pend fr')).
Proof.
  intros Hf. pose proof (next_packets_total max budget fuel deadlines (reader_new max) ω
    (reader_new_ok max) Hf) as Ht.
  apply tpost_returns in Ht as ([rs fr'] & ω' & Hrun & bs & evs & (Ht & Hr) & _ & Ha & Hev).
  exists rs, fr', ω', bs, evs. split_and!; try done.
  specialize (Ha []). unfold ahead in Ha. rewrite !app_nil_r in Ha. exact Ha.
Qed.

(** Three reads that cut a frame, an interruption and a session signal. *)
Definition cut_stream : Script.world :=
  Script.start [Ok [Byte.x04; Byte.x66]; Err Interrupted; Ok [Byte.x6f; Byte.x6f; Byte.x00];
                Ok [Byte.x00; Byte.x01]] [].

Lemma reader_refines_grammar_witness :
  ∃ rs fr' ω' bs evs,
    next_packets 8 30 [None; None; None] (reader_new 8) cut_stream = Ret ((rs, fr'), ω')
    ∧ tx ω' = tx cut_stream ∧ rx ω' = rx cut_stream ++ bs
    ∧ filter (λ r, reports_event r = true) rs = meaning 8 <$> evs
    ∧ scan 8 at_boundary bs = report evs (scan 8 (boundary fr') (pend fr')).
Proof.
  apply (reader_refines_grammar Script.budget). vm_compute. lia.
Defined.

Example cut_stream_packets :
  match next_packets 8 30 [None; None; None] (reader_new 8) cut_stream with
  | Ret ((rs, _), _) =>
      rs = [Ok (Some [Byte.x66; Byte.x6f; Byte.x6f]); Ok None; Err Terminated]
  | _ => False
  end.
Proof. vm_compute. reflexivity. Qed.

(** Once the stream is closing, packets already buffered are still
    returned, one per call and in order, without touching the adapter or the
    clock; after them every call reports the end of the stream. *)
Theorem closed_reader_drains {Ω : Type} `{EnvLaws Ω, Cobs} (max fuel n : nat)
    (fr : FrameReader) (ω : Ω) :
  reader_ok max fr → Shutdown.phase (get_closer ω) ≠ Shutdown.Open → 2 < fuel →
  let evs := (scan max (boundary fr) (pend fr)).2 in
  ∃ fr', next_packets max fuel (replicate n None) fr ω
    = Ret ((take n ((meaning max <$> evs) ++ replicate n (Err Terminated)), fr'), ω).
Proof.
  intros Hok Hp Hf. pose proof (next_packets_closed max fuel n fr ω Hok Hp Hf) as Ht.
  apply tpost_returns in Ht as ([rs fr'] & ω' & Hrun & -> & Hrs). simpl in Hrs.
  unfold ahead in Hrs. rewrite app_nil_r in Hrs. exists fr'. by rewrite Hrun, Hrs.
Qed.

(** Two frames and a fragment in the buffer of a closed stream. *)
Definition closed_stream : Script.world :=
  set_closer (Shutdown.MkState Shutdown.Closing 0 None) cut_stream.

Definition buffered : FrameReader :=
  MkReader [Byte.x02; Byte.x66; Byte.x00; Byte.x00; Byte.x05; Byte.x00; Byte.x00;
            Byte.x00; Byte.x00] 5 0 1 false.

Lemma closed_reader_drains_witness :
  ∃ fr', next_packets 8 3 (replicate 4 None) buffered closed_stream
    = Ret (([Ok (Some [Byte.x66]); Ok None; Err Terminated; Err Terminated], fr'),
           closed_stream).
Proof.
  refine (closed_reader_drains 8 3 4 buffered closed_stream _ _ _); [|done|lia].
  split; simpl; try lia. by apply (bool_decide_unpack _).
Defined.

(** C21: Every send returns, and whatever failed before, at any byte, the frames
    of the sends that succeeded reach the peer's scanner whole and in order; if
    every send succeeded it sees exactly their events. At all times it stands
    between frames unless the writer owes a recovery delimiter. *)
Theorem sends_recover {Ω : Type} `{EnvLaws Ω, CobsLaws} (budget : Ω → nat)
    `{!EnvBudget Ω budget} (max fuel : nat) (os : list (SendOp * Instant)) (ω : Ω) :
  0 < max → max + 2 + budget ω < fuel →
  ∃ rs fw' ω' bs,
    send_ops max fuel os (writer_new max) ω = Ret ((rs, fw'), ω')
    ∧ rx ω' = rx ω ∧ tx ω' = tx ω ++ bs
    ∧ sublist (delivered max os.*1 rs) (scan max at_boundary bs).2
    ∧ (Forall (λ r, r = Ok tt) rs →
        (scan max at_boundary bs).2 = os.*1 ≫= events_of max)
    ∧ (resync fw' = false → (scan max at_boundary bs).1 = at_boundary).
Proof.
  intros Hm Hf. pose proof (send_ops_total max Hm budget fuel os _ _ ω Hf
    (writer_new_ok max)) as Ht.
  apply tpost_returns in Ht as ([rs fw'] & ω' & Hrun & bs & (Hr & Ht) & Hsync & Hsub & Hall).
  exists rs, fw', ω', bs. split_and!; try done.
  - intros Hrs. by apply Hall.
  - apply Hsync.
Qed.

(** The first packet is cut after two bytes; the next one recovers. *)
Definition failing_stream : Script.world :=
  Script.start [] [Ok 2; Err BrokenPipe; Ok 1; Err Interrupted].

Definition two_packets : list (SendOp * Instant) :=
  [(OpPacket [Byte.x66; Byte.x6f], 5%Z); (OpPacket [Byte.x00], 5%Z)].

Lemma sends_recover_witness :
  ∃ rs fw' ω' bs,
    send_ops 8 30 two_packets (writer_new 8) failing_stream = Ret ((rs, fw'), ω')
    ∧ rx ω' = rx failing_stream ∧ tx ω' = tx failing_stream ++ bs
    ∧ sublist (delivered 8 two_packets.*1 rs) (scan 8 at_boundary bs).2
    ∧ (Forall (λ r, r = Ok tt) rs →
        (scan 8 at_boundary bs).2 = two_packets.*1 ≫= events_of 8)
    ∧ (resync fw' = false → (scan 8 at_boundary bs).1 = at_boundary).
Proof.
  apply (sends_recover Script.budget); [lia|]. vm_compute. lia.
Defined.

Example failing_stream_output :
  match send_ops 8 30 two_packets (writer_new 8) failing_stream with
  | Ret ((rs, _), ω') =>
      rs = [Err (SendFailed BrokenPipe); Ok tt]
      ∧ tx ω' = [Byte.x03; Byte.x66; Byte.x00; Byte.x01; Byte.x01; Byte.x00]
  | _ => False
  end.
Proof. vm_compute. by split. Qed.

Section round_trip.
Context `{CobsLaws} (max : nat).

(** Events carry their packets. *)
Lemma meaning_events o : fits max o → meaning max <$> events_of max o = received o.
Proof.
  destruct o as [| |packet]; simpl; [done..|]. intros Hfit.
  destruct (encode_fits max packet Hfit) as (e & He & Hle). rewrite He. simpl.
  unfold meaning. pose proof (encode_nonempty _ _ _ He) as Hne.
  destruct e as [|b e]; [done|].
  by rewrite (decode_encode max max packet (b :: e) He) by lia.
Qed.

Lemma meaning_all os :
  Forall (fits max) os → meaning max <$> (os ≫= events_of max) = os ≫= received.
Proof.
  induction 1 as [|o os Hfit _ IH]; [done|].
  rewrite !bind_cons, fmap_app, IH. by rewrite meaning_events.
Qed.
End round_trip.

(** C17: Packets round trip. When every send of one side succeeds, and the other
    side's adapter delivers any part of those bytes in any pieces, the packets
    and signals read are the ones sent, in order, none lost, altered or made
    up; and once all bytes arrived, those not yet returned are what the
    reader's buffer still holds. *)
Theorem packets_round_trip {Ω Υ : Type} `{EnvLaws Ω, EnvLaws Υ, CobsLaws}
    (budget : Υ → nat) `{!EnvBudget Υ budget} (max fuel fuel' : nat)
    (os : list (SendOp * Instant)) (rs : list (result unit Error)) (fw' : FrameWriter)
    (ω ω' : Ω) (deadlines : list (option Instant)) (υ : Υ) :
  0 < max →
  send_ops max fuel os (writer_new max) ω = Ret ((rs, fw'), ω') →
  Forall (λ r, r = Ok tt) rs → budget υ + 2 < fuel' →
  ∃ ps fr' υ',
    next_packets max fuel' deadlines (reader_new max) υ = Ret ((ps, fr'), υ')
    ∧ ∀ received_bytes missing_bytes,
      tx ω' = tx ω ++ received_bytes ++ missing_bytes → rx υ' = rx υ ++ received_bytes →
      ∃ rest,
        os.*1 ≫= received = filter (λ r, reports_event r = true) ps ++ rest
        ∧ (missing_bytes = [] →
            rest = meaning max <$> (scan max (boundary fr') (pend fr')).2).
Proof.
  intros Hm Hsend Hrs Hf.
  destruct (wp_elim _ _ _ _ _ _ (send_ops_wp max Hm fuel os _ _ ω (writer_new_ok max)) Hsend)
    as (bs & (_ & Ht) & _ & _ & Hall). destruct (Hall Hrs) as [Hfits Hevs].
  pose proof (next_packets_total max budget fuel' deadlines
    (reader_new max) υ (reader_new_ok max) Hf) as Hread.
  apply tpost_returns in Hread as ([ps fr'] & υ' & Hrun & bs' & evs & (_ & Hr) & _ & Ha & Hev).
  exists ps, fr', υ'. split; [done|]. intros got missing Htx Hrx. simpl in *.
  assert (bs = got ++ missing) as -> by (apply (app_inv_head (tx ω)); congruence).
  assert (bs' = got) as -> by (apply (app_inv_head (rx υ)); congruence).
  rewrite <-(meaning_all max _ Hfits), <-Hevs by done.
  change at_boundary with (boundary (reader_new max)).
  change (got ++ missing) with (pend (reader_new max) ++ got ++ missing).
  fold (ahead max (reader_new max) (got ++ missing)). rewrite Ha. simpl.
  rewrite fmap_app, Hev. eexists. split; [done|]. intros ->.
  unfold ahead. by rewrite app_nil_r.
Qed.

Definition three_sends : list (SendOp * Instant) :=
  [(OpReset, 5%Z); (OpPacket [Byte.x66; Byte.x00], 5%Z); (OpPacket [], 5%Z)].

Definition three_sent : list byte :=
  [Byte.x00; Byte.x00; Byte.x02; Byte.x66; Byte.x01; Byte.x00; Byte.x01; Byte.x00].

Lemma packets_round_trip_witness :
  ∃ ps fr' υ',
    next_packets 8 40 [None; None; None; None] (reader_new 8)
      (Script.start [Ok (take 3 three_sent); Err TimedOut; Ok (drop 3 three_sent)] [])
    = Ret ((ps, fr'), υ')
    ∧ ∀ received_bytes missing_bytes,
      tx (Script.MkWorld 0 0 Shutdown.closer_new [] [] [] three_sent)
      = tx (Script.start [] [Ok 1]) ++ received_bytes ++ missing_bytes →
      rx υ' = rx (Script.start [Ok (take 3 three_sent); Err TimedOut;
                                Ok (drop 3 three_sent)] []) ++ received_bytes →
      ∃ rest,
        three_sends.*1 ≫= received = filter (λ r, reports_event r = true) ps ++ rest
        ∧ (missing_bytes = [] →
            rest = meaning 8 <$> (scan 8 (boundary fr') (pend fr')).2).
Proof.
  eapply (packets_round_trip Script.budget 8 30 40 three_sends [Ok tt; Ok tt; Ok tt]).
  - lia.
  - vm_compute. reflexivity.
  - by repeat constructor.
  - vm_compute. lia.
Defined.
