(* ===== verification/Sealing.v ===== *)
(** * Message sealing ([transport/sealing.rs]) and the sending limit

    The xHPKE contexts are the [darkbio-crypto] crate's: an interface with the
    behaviour the transport relies on. [seal] refuses what could not fit a
    frame before it advances the sequence. *)

From Stdlib Require Import Strings.Byte.
From S2P Require Import Prelude Io Cobs.

(** [xhpke::Sender] and [xhpke::Receiver] with their [seal] and [open]. *)
Class Hpke := {
  SealCtx : Type;
  OpenCtx : Type;
  hpke_seal : SealCtx → list byte → result (list byte) string * SealCtx;
  hpke_open : OpenCtx → list byte → result (list byte) string * OpenCtx;
}.

(** [sealing::OVERHEAD] *)
Definition OVERHEAD : nat := 16.

(** What the crate documents: sealing adds the AEAD tag, the two contexts of one
    session stay in step while every packet is opened in order, and a failed
    open leaves its context unchanged. *)
Class HpkeLaws `{Hpke} (in_step : SealCtx → OpenCtx → Prop) : Prop := {
  seal_length s m p s' :
    hpke_seal s m = (Ok p, s') → length p = length m + OVERHEAD;
  open_seal s o m p s' :
    in_step s o → hpke_seal s m = (Ok p, s') →
    (hpke_open o p).1 = Ok m ∧ in_step s' (hpke_open o p).2;
  open_failed o p : is_err (hpke_open o p).1 = true → (hpke_open o p).2 = o;
}.

Section sealing.
Context `{Cobs, Hpke} (max : nat).

(** The loop of [MAX_MESSAGE_SIZE]; the subtraction below zero is a compile-time
    error. *)
Fixpoint shrink (size : nat) : option nat :=
  if decide (max < encode_buffer (size + OVERHEAD)) then
    match size with O => None | S size => shrink size end
  else Some size.

Definition MAX_MESSAGE_SIZE : option nat := shrink max.

(** [sealing::seal] for the limit [limit]. *)
Definition seal (limit : nat) (sender : SealCtx) (message : list byte) :
  result (list byte) Error * SealCtx :=
  if decide (limit < length message) then
    (Err (PacketTooLarge (Z.of_nat (length message))), sender)
  else
    let '(r, sender) := hpke_seal sender message in (map_err EncryptionFailed r, sender).

(** [sealing::open] *)
Definition open (receiver : OpenCtx) (packet : list byte) :
  result (list byte) Error * OpenCtx :=
  let '(r, receiver) := hpke_open receiver packet in (map_err EncryptionFailed r, receiver).

(** A peer sealing messages one after another, until the first failure. *)
Fixpoint seal_all (limit : nat) (sender : SealCtx) (messages : list (list byte)) :
  list (result (list byte) Error) * SealCtx :=
  match messages with
  | [] => ([], sender)
  | m :: messages =>
      let '(r, sender) := seal limit sender m in
      let '(rs, sender) := seal_all limit sender messages in (r :: rs, sender)
  end.

Fixpoint open_all (receiver : OpenCtx) (packets : list (list byte)) :
  list (result (list byte) Error) * OpenCtx :=
  match packets with
  | [] => ([], receiver)
  | p :: packets =>
      let '(r, receiver) := open receiver p in
      let '(rs, receiver) := open_all receiver packets in (r :: rs, receiver)
  end.
End sealing.

Section sealing_lemmas.
Context `{CobsLaws}.

Lemma shrink_Some max size limit :
  shrink max size = Some limit →
  limit ≤ size ∧ encode_buffer (limit + OVERHEAD) ≤ max
  ∧ ∀ n, n ≤ size → encode_buffer (n + OVERHEAD) ≤ max → n ≤ limit.
Proof.
  induction size as [|size IH]; simpl; case_decide as Hd; [done| | |].
  - intros [= <-]. split_and!; simpl in *; intros; lia.
  - intros (Hle & Hfit & Hmax)%IH. split_and!; [lia|done|]. intros n Hn Hf.
    destruct (decide (n = S size)) as [->|]; [simpl in Hf; lia|]. apply Hmax; lia.
  - intros [= <-]. split_and!; simpl; lia.
Qed.

Lemma shrink_total max size :
  encode_buffer OVERHEAD ≤ max → is_Some (shrink max size).
Proof.
  intros Hb. induction size as [|size IH]; simpl; case_decide as Hd; eauto.
  simpl in Hd. lia.
Qed.
End sealing_lemmas.

Section opening.
Context `{HpkeLaws} (limit : nat).

Lemma open_failed_keeps o p : is_err (open o p).1 = true → (open o p).2 = o.
Proof.
  unfold open. pose proof (open_failed o p) as Hf.
  destruct (hpke_open o p) as [[|] o']; simpl in *; [done|auto].
Qed.

(** What sealing one message does to two contexts in step. *)
Lemma open_seal_one s o m r s' :
  in_step s o → seal limit s m = (r, s') →
  match r with
  | Ok p => length m ≤ limit ∧ length p = length m + OVERHEAD
            ∧ ∃ o', open o p = (Ok m, o') ∧ in_step s' o'
  | Err (EncryptionFailed _) => length m ≤ limit
  | Err e => e = PacketTooLarge (Z.of_nat (length m)) ∧ limit < length m ∧ s' = s
  end.
Proof.
  intros Hstep. unfold seal, open. case_decide as Hl; [by intros [= <- <-]|].
  destruct (hpke_seal s m) as [[p|e] s1] eqn:Eh; intros [= <- <-]; simpl; [|lia].
  destruct (open_seal s o m p s1 Hstep Eh) as [Ho Hs].
  split_and!; [lia|by eapply seal_length|].
  destruct (hpke_open o p) as [r o']; simpl in *. subst r. by exists o'.
Qed.

Lemma open_seal_all s s' o messages rs :
  in_step s o → seal_all limit s messages = (rs, s') →
  Forall (λ r, ∀ e, r ≠ Err (EncryptionFailed e)) rs →
  (open_all o (omap result_ok rs)).1 = Ok <$> filter (λ m, length m ≤ limit) messages
  ∧ in_step s' (open_all o (omap result_ok rs)).2
  ∧ Forall2 (λ m r, r = Err (PacketTooLarge (Z.of_nat (length m))) ↔ limit < length m)
      messages rs.
Proof.
  revert s o rs. induction messages as [|m ms IH]; intros s o rs Hstep; simpl;
    [by intros [= <- <-]|].
  destruct (seal limit s m) as [r s1] eqn:Es.
  destruct (seal_all limit s1 ms) as [rs1 s2] eqn:Ea. intros [= <- <-] [Hr Hrs]%Forall_cons.
  pose proof (open_seal_one s o m r s1 Hstep Es) as Hone. rewrite filter_cons.
  destruct r as [p|e]; simpl.
  - destruct Hone as (Hl & _ & o1 & Ho & Hstep'). rewrite decide_True, Ho by done.
    destruct (IH _ _ _ Hstep' Ea Hrs) as (H1 & H2 & H3).
    destruct (open_all o1 _) as [ros o2]; simpl in *. subst ros.
    split_and!; [done..|]. constructor; [|done]. split; [done|lia].
  - assert (e = PacketTooLarge (Z.of_nat (length m)) ∧ limit < length m ∧ s1 = s)
      as (-> & Hl & ->) by (destruct e; try done; by destruct (Hr reason)).
    rewrite decide_False by lia. destruct (IH _ _ _ Hstep Ea Hrs) as (?&?&?).
    split_and!; try done. by constructor.
Qed.

Lemma seal_all_snoc s ms m rs s1 r s2 :
  seal_all limit s ms = (rs, s1) → seal limit s1 m = (r, s2) →
  seal_all limit s (ms ++ [m]) = (rs ++ [r], s2).
Proof.
  revert s rs. induction ms as [|m' ms IH]; intros s rs; simpl.
  { intros [= <- <-] ->. done. }
  destruct (seal limit s m') as [r' s'] eqn:Es.
  destruct (seal_all limit s' ms) as [rs' s''] eqn:Ea. intros [= <- <-] Hs.
  by rewrite (IH _ _ Ea Hs).
Qed.

Lemma open_all_app o ps qs :
  (open_all o (ps ++ qs)).1 = (open_all o ps).1 ++ (open_all (open_all o ps).2 qs).1.
Proof.
  revert o. induction ps as [|p ps IH]; intros o; simpl; [done|].
  destruct (open o p) as [r o']. specialize (IH o').
  destruct (open_all o' (ps ++ qs)), (open_all o' ps); simpl in *. by rewrite IH.
Qed.

Lemma omap_Ok (l : list (list byte)) :
  omap result_ok (Ok <$> l : list (result (list byte) Error)) = l.
Proof. induction l as [|x l IH]; simpl; [done|]. by f_equal. Qed.

(** A receiver in step opens what was sealed without refusals. *)
Lemma open_sealed s s' o ms ps :
  in_step s o → seal_all limit s ms = (Ok <$> ps, s') → (open_all o ps).1 = Ok <$> ms.
Proof.
  intros Hstep Hs. destruct (open_seal_all s s' o ms (Ok <$> ps) Hstep Hs) as (Ho & _ & Hsize).
  { apply Forall_fmap, Forall_true. by intros p e. }
  rewrite omap_Ok in Ho. rewrite Ho. f_equal. clear Ho Hs.
  apply Forall2_fmap_r in Hsize. induction Hsize as [|m p ms ps Hm _ IH]; [done|].
  rewrite filter_cons, decide_True, IH; [done|].
  destruct (decide (length m ≤ limit)) as [|Hl]; [done|].
  simpl in Hm. assert (limit < length m) as Hc by lia. by apply Hm in Hc.
Qed.
End opening.

(** ** A concrete context: the sequence number in the clear

    No secrecy: it only shows that the interface's laws can hold together. *)
Module Clear.

Definition tag (seq : nat) : list byte :=
  Reference.code seq :: replicate (OVERHEAD - 1) Byte.x00.

#[local] Arguments tag : simpl never.

#[export] Instance hpke : Hpke := {
  SealCtx := nat;
  OpenCtx := nat;
  hpke_seal s m :=
    if decide (s < 255) then (Ok (tag s ++ m), S s) else (Err "sequence exhausted"%string, s);
  hpke_open o p :=
    if decide (take OVERHEAD p = tag o) then (Ok (drop OVERHEAD p), S o)
    else (Err "message authentication failed"%string, o);
}.

Definition in_step (s o : nat) : Prop := s = o.

#[export] Instance hpke_laws : HpkeLaws in_step.
Proof.
  split; unfold in_step; simpl.
  - intros s m p s'. case_decide; [|done]. intros [= <- <-].
    unfold OVERHEAD. simpl. lia.
  - intros s o m p s' <-. case_decide; [|done]. intros [= <- <-].
    by rewrite decide_True.
  - intros o p. by case_decide.
Qed.
End Clear.

(** ** What sealing guarantees *)

(** C40: The constant [MAX_MESSAGE_SIZE] is well defined for any frame limit that
    holds an empty sealed message, and it is the largest message whose sealed
    packet is sure to fit a frame: no smaller message is refused for a later
    [FrameTooLarge], and a larger one might not fit. *)
Theorem max_message_size_exact `{CobsLaws} (max : nat) :
  encode_buffer OVERHEAD ≤ max →
  ∃ limit, MAX_MESSAGE_SIZE max = Some limit
    ∧ ∀ n, n ≤ limit ↔ encode_buffer (n + OVERHEAD) ≤ max.
Proof.
  intros Hb. destruct (shrink_total max max Hb) as [limit Hl]. exists limit.
  split; [done|]. apply shrink_Some in Hl as (Hle & Hfit & Hmax). intros n. split.
  - intros Hn. etrans; [|done]. apply encode_buffer_mono. lia.
  - intros Hn. apply Hmax; [|done]. pose proof (encode_buffer_lt (n + OVERHEAD)). lia.
Qed.

Lemma max_message_size_exact_witness :
  ∃ limit, MAX_MESSAGE_SIZE 300 = Some limit
    ∧ ∀ n, n ≤ limit ↔ encode_buffer (n + OVERHEAD) ≤ 300.
Proof.
  apply (max_message_size_exact 300). vm_compute. lia.
Defined.

Example max_message_size_300 : MAX_MESSAGE_SIZE 300 = Some 282.
Proof. vm_compute. reflexivity. Qed.

(** Messages round trip through a session. Opening the packets sealed so
    far, in order, returns the messages; refused oversized messages and a
    rejected forgery in between cost neither side a sequence number. *)
Theorem sealed_messages_open `{HpkeLaws} (limit : nat) (s s' : SealCtx) (o : OpenCtx)
    (messages : list (list byte)) (rs : list (result (list byte) Error))
    (forged : list byte) :
  in_step s o → seal_all limit s messages = (rs, s') →
  Forall (λ r, ∀ e, r ≠ Err (EncryptionFailed e)) rs →
  is_err (open o forged).1 = true →
  let sent := filter (λ m, length m ≤ limit) messages in
  (open_all o (forged :: omap result_ok rs)).1 = (open o forged).1 :: (Ok <$> sent)
  ∧ in_step s' (open_all o (forged :: omap result_ok rs)).2
  ∧ Forall2 (λ m r, r = Err (PacketTooLarge (Z.of_nat (length m))) ↔ limit < length m)
      messages rs.
Proof.
  intros Hstep Hseal Hrs Hforged sent.
  destruct (open_seal_all limit s s' o messages rs Hstep Hseal Hrs) as (Hopen & Hstep' & Hsize).
  simpl. pose proof (open_failed_keeps o forged Hforged) as Ho.
  destruct (open o forged) as [rf o1]; simpl in *; subst o1.
  destruct (open_all o _) as [ros o2]; simpl in *. by subst ros.
Qed.

Import Clear.

Lemma sealed_messages_open_witness :
  let messages := [[Byte.x66]; replicate 3 Byte.x01; []] in
  let '(rs, s') := seal_all 2 (0 : nat) messages in
  let sent := filter (λ m, length m ≤ 2) messages in
  (open_all (0 : nat) ([Byte.x07] :: omap result_ok rs)).1
  = (open (0 : nat) [Byte.x07]).1 :: (Ok <$> sent)
  ∧ s' = (open_all (0 : nat) ([Byte.x07] :: omap result_ok rs)).2
  ∧ Forall2 (λ m r, r = Err (PacketTooLarge (Z.of_nat (length m))) ↔ 2 < length m)
      messages rs.
Proof.
  apply (@sealed_messages_open Clear.hpke Clear.in_step _ 2 0 2 0); [done|reflexivity| |reflexivity].
  repeat constructor; by intros.
Defined.
