(* ===== verification/Outbound.v ===== *)
(** * Output shared by the sessions of a stream ([transport/outbound.rs])

    The frame writer, the binding that says which session may use it, and the
    operations that run under the writer's lock. A sending context is known by
    its allocation: [Some c] is a weak reference to context [c], and [None] the
    empty one, equal to no context. *)

From S2P Require Import Prelude Closer Io Script Stream Cobs Framing.

Module Outbound.

(** ** Data *)

Inductive Side := Client | Server.

#[global] Instance Side_eq_dec : EqDecision Side.
Proof. solve_decision. Defined.

(** [Outbound], without its test fence and its shutdown handle, which is part of
    the stream. *)
Record State := MkOutbound {
  writer : FrameWriter;
  binding : option nat;
  timeout : Duration;
  side : Side;
}.

Definition set_writer (fw : FrameWriter) (ob : State) : State :=
  MkOutbound fw (binding ob) (timeout ob) (side ob).

Definition set_binding (b : option nat) (ob : State) : State :=
  MkOutbound (writer ob) b (timeout ob) (side ob).

Definition session_ended : Error := EncryptionFailed "session ended".

Section outbound.
Context {Ω : Type} `{Env Ω, Cobs} (max fuel : nat).

(** [Outbound::new] *)
Definition new (side : Side) (timeout : Duration) : State :=
  MkOutbound (writer_new max) None timeout side.

(** ** Under the writer's lock ([Writer]) *)

(** [Writer::bind] *)
Definition bind (sealer : nat) (ob : State) : State := set_binding (Some sealer) ob.

(** [Writer::unbind] *)
Definition unbind (ob : State) : State := set_binding None ob.

(** [Writer::end]: whether it removed the binding. *)
Definition end_ (sealer : nat) (ob : State) : bool * State :=
  if decide (binding ob = Some sealer) then (true, set_binding None ob) else (false, ob).

(** A frame writer's send on the shared state. *)
Definition framed {A} (send : FrameWriter → M Ω (A * FrameWriter)) (ob : State) :
  M Ω (A * State) :=
  '(r, fw) ← send (writer ob);
  mret (r, set_writer fw ob).

Definition is_timeout (e : Error) : bool :=
  match e with SendFailed TimedOut => true | _ => false end.

(** [Writer::notify_failure] *)
Definition notify_failure (error : Error) (deadline : Instant) (ob : State) : M Ω State :=
  if decide (side ob = Server ∧ is_timeout error = false) then
    '(_, ob) ← framed (Framing.send_dropped fuel deadline) ob;
    mret ob
  else mret ob.

(** [Writer::send] *)
Definition send (sealer : nat) (packet : list byte) (ob : State) :
  M Ω (result unit Error * State) :=
  if decide (binding ob ≠ Some sealer) then mret (Err session_ended, ob)
  else
    deadline ← deadline_after (timeout ob);
    '(r, ob) ← framed (Framing.send_packet max fuel packet deadline) ob;
    match r with
    | Err err =>
        let '(ended, ob) := end_ sealer ob in
        ob ← (if ended then notify_failure err deadline ob else mret ob);
        mret (Err err, ob)
    | Ok _ => mret (Ok tt, ob)
    end.

(** ** Whole operations ([Outbound]) *)

(** [Outbound::disconnect] *)
Definition disconnect (sealer : nat) (ob : State) : M Ω (result unit Error * State) :=
  let '(ended, ob) := end_ sealer ob in
  if ended && bool_decide (side ob = Server) then
    deadline ← deadline_after (timeout ob);
    framed (Framing.send_dropped fuel deadline) ob
  else mret (Ok tt, ob).

(** [Outbound::finish_receive] *)
Definition finish_receive (sealer : nat) (r : result (list byte) Error) (ob : State) :
  result (list byte) Error :=
  if decide (binding ob = Some sealer) then r else Err session_ended.

(** [Outbound::refuse_oversized] *)
Definition refuse_oversized (sealer : nat) (size : nat) (ob : State) : result unit Error :=
  if decide (binding ob = Some sealer) then Err (PacketTooLarge (Z.of_nat size))
  else Err session_ended.

(** [Outbound::close]: takes no lock and leaves the binding. *)
Definition close : M Ω unit := close_stream fuel.

(** [Outbound::send_reset] *)
Definition send_reset (deadline : Instant) (ob : State) : M Ω (result unit Error * State) :=
  let ob := unbind ob in
  budget ← deadline_after (timeout ob);
  framed (Framing.send_reset fuel (Z.min deadline budget)) ob.

(** The frame's deadline: the write budget, or an earlier limit. *)
Definition limited (limit : option Instant) (budget : Instant) : Instant :=
  match limit with Some limit => Z.min limit budget | None => budget end.

(** [Outbound::send_dropped] *)
Definition send_dropped (limit : option Instant) (ob : State) :
  M Ω (result unit Error * State) :=
  let ob := unbind ob in
  budget ← deadline_after (timeout ob);
  framed (Framing.send_dropped fuel (limited limit budget)) ob.

(** [Outbound::send_packet] *)
Definition send_packet (packet : list byte) (limit : option Instant) (ob : State) :
  M Ω (result unit Error * State) :=
  budget ← deadline_after (timeout ob);
  let deadline := limited limit budget in
  '(r, ob) ← framed (Framing.send_packet max fuel packet deadline) ob;
  match r with
  | Err (SendFailed e) =>
      ob ← notify_failure (SendFailed e) deadline ob;
      mret (r, ob)
  | _ => mret (r, ob)
  end.
End outbound.

(** Everything that takes the writer's lock. *)
Inductive Op :=
  | OpBind (sealer : nat)
  | OpEnd (sealer : nat)
  | OpUnbind
  | OpDisconnect (sealer : nat)
  | OpSend (sealer : nat) (packet : list byte)
  | OpSendReset (deadline : Instant)
  | OpSendDropped (limit : option Instant)
  | OpSendPacket (packet : list byte) (limit : option Instant).

Section run.
Context {Ω : Type} `{Env Ω, Cobs} (max fuel : nat).

Definition run (o : Op) (ob : State) : M Ω (result unit Error * State) :=
  match o with
  | OpBind c => mret (Ok tt, bind c ob)
  | OpEnd c => mret (Ok tt, (end_ c ob).2)
  | OpUnbind => mret (Ok tt, unbind ob)
  | OpDisconnect c => disconnect fuel c ob
  | OpSend c packet => send max fuel c packet ob
  | OpSendReset deadline => send_reset fuel deadline ob
  | OpSendDropped limit => send_dropped fuel limit ob
  | OpSendPacket packet limit => send_packet max fuel packet limit ob
  end.

Fixpoint run_all (os : list Op) (ob : State) : M Ω (list (result unit Error) * State) :=
  match os with
  | [] => mret ([], ob)
  | o :: os =>
      '(r, ob) ← run o ob;
      '(rs, ob) ← run_all os ob;
      mret (r :: rs, ob)
  end.
End run.

(** ** Specification *)

(** The binding after an operation with result [r]. *)
Definition next_binding (o : Op) (b : option nat) (r : result unit Error) : option nat :=
  match o with
  | OpBind c => Some c
  | OpEnd c | OpDisconnect c => if decide (b = Some c) then None else b
  | OpUnbind | OpSendReset _ | OpSendDropped _ => None
  | OpSend c _ => if decide (b = Some c) then if is_ok r then b else None else b
  | OpSendPacket _ _ => b
  end.

(** The frame of an operation that succeeds. *)
Definition signals `{Cobs} (max : nat) (o : Op) (ob : State) : list event :=
  match o with
  | OpSend _ packet | OpSendPacket packet _ => [EFrame (body_of max (OpPacket packet))]
  | OpSendReset _ | OpSendDropped _ => [EFrame []]
  | OpDisconnect c =>
      if decide (binding ob = Some c ∧ side ob = Server) then [EFrame []] else []
  | _ => []
  end.

Section spec.
Context {Ω : Type} `{EnvLaws Ω, CobsLaws} (max fuel : nat) (Hmax : 0 < max).

(** One operation, whose output a peer scans from state [s]. *)
Definition run_spec (o : Op) (ob : State) (s : scanner) (ω : Ω)
    (p : result unit Error * State) (ω' : Ω) : Prop :=
  let '(r, ob') := p in
  timeout ob' = timeout ob ∧ side ob' = side ob
  ∧ binding ob' = next_binding o (binding ob) r
  ∧ ∃ bs, writes ω ω' bs ∧ in_sync max (writer ob') (scan max s bs).1
    ∧ (r = Ok tt → ∃ pre, (scan max s bs).2 = pre ++ signals max o ob)
    ∧ (∀ c packet e, o = OpSend c packet → binding ob = Some c → r = Err e →
        side ob = Server → is_timeout e = false → resync (writer ob') = false →
        ∃ pre, (scan max s bs).2 = pre ++ [EFrame []]).

(** [d] and [T] choose between partial and total correctness. *)
Context (d : Prop) (T : Ω → Prop)
  (Hwrite : ∀ out deadline ω, length out ≤ max + 2 → T ω →
    wp d (write_half fuel out deadline) ω (λ _ ω', T (clock_now ω').2))
  (Hclock : ∀ ω, T ω → T (clock_now ω).2).

Lemma framed_wp o deadline ob s ω :
  T ω → in_sync max (writer ob) s →
  wp d (framed (send_op max fuel o deadline) ob) ω (λ p ω',
    let '(r, ob') := p in
    ∃ fw', ob' = set_writer fw' ob ∧ send_spec max o (writer ob) s ω (r, fw') ω' ∧ T ω').
Proof.
  intros HT Hsync. unfold framed. post_step.
  eapply wp_mono; [apply (send_op_wp max Hmax d fuel o deadline _ s ω T); auto|].
  intros [r fw] ω' [Hs HT']. post_step. eauto.
Qed.

(** Looking at the clock writes nothing. *)
Lemma send_spec_clock o fw s ω p ω' :
  send_spec max o fw s (clock_now ω).2 p ω' → send_spec max o fw s ω p ω'.
Proof.
  intros (bs & Hw & Hrest). exists bs. split; [|done].
  eapply quiet_writes; [apply clock_now_law|done].
Qed.

Lemma send_spec_run o so ob ob0 s ω r fw' ω' :
  send_spec max so (writer ob) s ω (r, fw') ω' →
  writer ob0 = writer ob → timeout ob0 = timeout ob → side ob0 = side ob →
  binding ob0 = next_binding o (binding ob) r →
  signals max o ob = [EFrame (body_of max so)] →
  (∀ c packet, o = OpSend c packet → r = Ok tt) →
  run_spec o ob s ω (r, set_writer fw' ob0) ω'.
Proof.
  intros (bs & Hw & Hsync & Hok & _) ? ? ? ? Hsig Hnot. split_and!; try done.
  exists bs. split_and!; [done..| |].
  - rewrite Hsig. intros Hr. by apply Hok.
  - intros c packet e Ho _ Hr. by rewrite (Hnot _ _ Ho) in Hr.
Qed.

(** The failure notification keeps the peer in sync, and where it went out the
    peer sees the empty frame. *)
Lemma notify_failure_wp e deadline ob s ω :
  T ω → in_sync max (writer ob) s →
  wp d (notify_failure fuel e deadline ob) ω (λ ob' ω', T ω'
    ∧ (∃ fw', ob' = set_writer fw' ob)
    ∧ ∃ bs, writes ω ω' bs ∧ in_sync max (writer ob') (scan max s bs).1
      ∧ (side ob = Server → is_timeout e = false → resync (writer ob') = false →
          ∃ pre, (scan max s bs).2 = pre ++ [EFrame []])).
Proof.
  intros HT Hsync. unfold notify_failure. case_decide as Hside.
  - post_step. eapply wp_mono; [by apply (framed_wp OpDropped _ _ s)|].
    intros [r ob'] ω' (fw' & -> & (bs & Hw & Hs & Hok & Hre) & HT'). post_step.
    split_and!; eauto. exists bs. split_and!; [done..|]. simpl in *. intros _ _ Hf.
    destruct (Hre I) as [Hre' _]. rewrite Hf in Hre'. destruct r as [[]|]; [|done].
    by apply Hok.
  - post_step. split_and!; [done| |].
    + exists (writer ob). by destruct ob.
    + exists []. split_and!; [by apply quiet_writes_nil|done|naive_solver].
Qed.

Lemma failed_run o ob ob1 s ω ω1 bs e deadline :
  T ω1 → writes ω ω1 bs → in_sync max (writer ob1) (scan max s bs).1 →
  timeout ob1 = timeout ob → side ob1 = side ob →
  binding ob1 = next_binding o (binding ob) (Err e) →
  wp d (ob2 ← notify_failure fuel e deadline ob1; mret (Err e, ob2)) ω1
    (λ p ω', run_spec o ob s ω p ω' ∧ T ω').
Proof.
  intros HT Hw Hsync Ht Hsd Hb. post_step.
  eapply wp_mono; [by apply (notify_failure_wp e deadline ob1 (scan max s bs).1)|].
  intros ob2 ω' (HT' & (fw' & ->) & bs' & Hw' & Hsync' & Hnotice). post_step.
  split; [|done]. split_and!; try done.
  exists (bs ++ bs'). rewrite scan_app. split_and!; [by eapply writes_trans|done..|].
  intros c packet e' _ _ [= <-] Hserver Htime Hre. simpl. rewrite Hsd in Hnotice.
  destruct (Hnotice Hserver Htime Hre) as [pre ->]. eexists. by rewrite app_assoc.
Qed.

Lemma quiet_run o ob ob' s ω :
  in_sync max (writer ob) s → writer ob' = writer ob → timeout ob' = timeout ob →
  side ob' = side ob → binding ob' = next_binding o (binding ob) (Ok tt) →
  signals max o ob = [] → run_spec o ob s ω (Ok tt, ob') ω.
Proof.
  intros Hsync Hw ? ? ? Hsig. split_and!; try done. exists [].
  rewrite Hw, Hsig. simpl. split_and!; [by apply quiet_writes_nil|done| |done].
  intros _. by exists [].
Qed.

Lemma send_wp c packet ob s ω :
  T ω → in_sync max (writer ob) s →
  wp d (send max fuel c packet ob) ω (λ p ω', run_spec (OpSend c packet) ob s ω p ω' ∧ T ω').
Proof.
  intros HT Hsync. unfold send. case_decide as Hb.
  { post_step. split; [|done]. split_and!; try done; simpl.
    - by rewrite decide_False.
    - exists []. split_and!; try done; [by apply quiet_writes_nil|].
      intros c' packet' e [= <- <-]. done. }
  post_step. apply deadline_after_wp. intros deadline. post_step.
  eapply wp_mono; [apply (framed_wp (OpPacket packet) deadline ob s); auto|].
  intros [r ob1] ω1 (fw' & -> & Hs%send_spec_clock & HT1). simpl in Hs.
  destruct r as [[]|e]; cbn [fst snd].
  - post_step. split; [|done]. eapply send_spec_run; eauto; simpl. by rewrite decide_True.
  - destruct Hs as (bs & Hw & Hsync1 & _). unfold end_. simpl. rewrite decide_True by done.
    eapply failed_run; [done|done|done|done|done|]. simpl. by rewrite decide_True.
Qed.

(** A packet that fits a frame fails only in the adapter. *)
Lemma send_fits_wp c packet ob s ω :
  T ω → in_sync max (writer ob) s → binding ob = Some c → fits max (OpPacket packet) →
  wp d (send max fuel c packet ob) ω (λ p _, p.1 = Ok tt ∨ ∃ e, p.1 = Err (SendFailed e)).
Proof.
  intros HT Hsync Hb Hfit. unfold send. rewrite decide_False by naive_solver.
  post_step. apply deadline_after_wp. intros deadline. post_step.
  eapply wp_mono; [apply (framed_wp (OpPacket packet) deadline ob s); auto|].
  intros [r ob1] ω1 (fw' & -> & Hs%send_spec_clock & HT1).
  destruct Hs as (bs & _ & Hsync1 & _ & Hre). destruct (Hre Hfit) as [_ Herr].
  destruct r as [[]|e]; [post_step; by left|].
  destruct (Herr e eq_refl) as [k ->]. unfold end_. simpl. rewrite decide_True by done.
  post_step. eapply wp_mono; [by apply (notify_failure_wp _ _ _ (scan max s bs).1)|].
  intros ob2 ω2 _. post_step. right. by exists k.
Qed.

Lemma disconnect_wp c ob s ω :
  T ω → in_sync max (writer ob) s →
  wp d (disconnect fuel c ob) ω (λ p ω', run_spec (OpDisconnect c) ob s ω p ω' ∧ T ω').
Proof.
  intros HT Hsync. unfold disconnect, end_. case_decide as Hb; simpl.
  - case_bool_decide as Hsd; simpl in Hsd.
    + post_step. apply deadline_after_wp. intros deadline.
      eapply wp_mono; [apply (framed_wp OpDropped deadline _ s); auto|].
      intros [r ob1] ω1 (fw' & -> & Hs%send_spec_clock & HT1). split; [|done].
      eapply send_spec_run; eauto; simpl; first [done|by rewrite decide_True].
    + post_step. split; [|done]. apply quiet_run; try done; simpl.
      * by rewrite decide_True.
      * rewrite decide_False; naive_solver.
  - post_step. split; [|done]. apply quiet_run; try done; simpl.
    + by rewrite decide_False.
    + rewrite decide_False; naive_solver.
Qed.

Lemma send_packet_wp packet limit ob s ω :
  T ω → in_sync max (writer ob) s →
  wp d (send_packet max fuel packet limit ob) ω
    (λ p ω', run_spec (OpSendPacket packet limit) ob s ω p ω' ∧ T ω').
Proof.
  intros HT Hsync. unfold send_packet. post_step. apply deadline_after_wp.
  intros budget. post_step.
  eapply wp_mono; [apply (framed_wp (OpPacket packet) (limited limit budget) ob s); auto|].
  intros [r ob1] ω1 (fw' & -> & Hs%send_spec_clock & HT1). simpl in Hs.
  assert (run_spec (OpSendPacket packet limit) ob s ω (r, set_writer fw' ob) ω1) as Hrun
    by (eapply send_spec_run; eauto; done).
  destruct r as [|[]]; cbn [fst snd]; try (post_step; done).
  destruct Hs as (bs & Hw & Hsync1 & _).
  by eapply failed_run.
Qed.

Lemma run_wp o ob s ω :
  T ω → in_sync max (writer ob) s →
  wp d (run max fuel o ob) ω (λ p ω', run_spec o ob s ω p ω' ∧ T ω').
Proof.
  intros HT Hsync. destruct o as [c|c| |c|c packet|deadline|limit|packet limit]; simpl.
  - post_step. split; [|done]. by apply quiet_run.
  - post_step. split; [|done]. unfold end_. case_decide; apply quiet_run; try done; simpl;
      first [by rewrite decide_True|by rewrite decide_False].
  - post_step. split; [|done]. by apply quiet_run.
  - by apply disconnect_wp.
  - by apply send_wp.
  - unfold send_reset. post_step. apply deadline_after_wp. intros budget.
    eapply wp_mono; [apply (framed_wp OpReset _ _ s); auto|].
    intros [r ob1] ω1 (fw' & -> & Hs%send_spec_clock & HT1). split; [|done].
    by eapply send_spec_run.
  - unfold send_dropped. post_step. apply deadline_after_wp. intros budget.
    eapply wp_mono; [apply (framed_wp OpDropped _ _ s); auto|].
    intros [r ob1] ω1 (fw' & -> & Hs%send_spec_clock & HT1). split; [|done].
    by eapply send_spec_run.
  - by apply send_packet_wp.
Qed.
End spec.

(** ** Sequences of operations *)

(** The frames that a successful operation always sends. *)
Definition frame_of `{Cobs} (max : nat) (o : Op) : list event :=
  match o with
  | OpSend _ packet | OpSendPacket packet _ => [EFrame (body_of max (OpPacket packet))]
  | OpSendReset _ | OpSendDropped _ => [EFrame []]
  | _ => []
  end.

Definition frames_sent `{Cobs} (max : nat) (os : list Op) (rs : list (result unit Error)) :
  list event :=
  zip os rs ≫= λ '(o, r), if is_ok r then frame_of max o else [].

Lemma frame_of_signals `{Cobs} max o ob : sublist (frame_of max o) (signals max o ob).
Proof. destruct o; simpl; try done. apply sublist_nil_l. Qed.

Section sequences.
Context {Ω : Type} `{EnvLaws Ω, CobsLaws} (max fuel : nat) (Hmax : 0 < max).

(** With fuel for the adapter's budget an operation returns, and leaves enough for the
    next. *)
Lemma run_total (budget : Ω → nat) `{!EnvBudget Ω budget} o ob s ω :
  max + 2 + budget ω < fuel → in_sync max (writer ob) s →
  tpost (run max fuel o ob) ω
    (λ p ω', run_spec max o ob s ω p ω' ∧ max + 2 + budget ω' < fuel).
Proof.
  intros Hf Hsync. apply (run_wp max fuel Hmax False (λ ω, max + 2 + budget ω < fuel)); [| |done..].
  - intros out deadline ω1 Hout Hb.
    eapply wp_mono; [apply (write_half_total budget); lia|].
    intros r ω' Hb'. simpl in Hb'. pose proof (budget_clock ω'). lia.
  - intros ω1 Hb. pose proof (budget_clock ω1). lia.
Qed.

Lemma run_all_total (budget : Ω → nat) `{!EnvBudget Ω budget} os ob s ω :
  max + 2 + budget ω < fuel → in_sync max (writer ob) s →
  tpost (run_all max fuel os ob) ω (λ p ω', ∃ bs, writes ω ω' bs
    ∧ in_sync max (writer p.2) (scan max s bs).1
    ∧ sublist (frames_sent max os p.1) (scan max s bs).2).
Proof.
  revert ob s ω. induction os as [|o os IH]; intros ob s ω Hf Hsync; simpl.
  { post_step. exists []. split_and!; try done. by apply quiet_writes_nil. }
  post_step. eapply wp_mono; [by apply (run_total budget) with (s := s)|].
  intros [r ob1] ω1 [(_ & _ & _ & bs & Hw & Hsync1 & Hok & _) Hb]. post_step.
  eapply wp_mono; [by apply IH|]. intros [rs ob2] ω2 (bs' & Hw' & Hsync' & Hsub).
  post_step. exists (bs ++ bs'). rewrite scan_app.
  split_and!; [by eapply writes_trans|done|]. unfold frames_sent. simpl.
  apply sublist_app; [|done]. destruct r as [[]|]; simpl; [|apply sublist_nil_l].
  destruct (Hok eq_refl) as [pre ->].
  apply sublist_inserts_l, frame_of_signals.
Qed.
End sequences.

(** ** Ended sessions *)

(** Calls through the handles of context [c]. *)
Definition concerns (c : nat) (o : Op) : bool :=
  match o with
  | OpSend c' _ | OpDisconnect c' | OpEnd c' => bool_decide (c' = c)
  | _ => false
  end.

(** Their results once the session has ended, among the results of the others. *)
Fixpoint refused (c : nat) (os : list Op) (rs : list (result unit Error)) :
  list (result unit Error) :=
  match os with
  | [] => []
  | o :: os =>
      if concerns c o then
        match o with OpSend _ _ => Err session_ended | _ => Ok tt end :: refused c os rs
      else match rs with r :: rs => r :: refused c os rs | [] => [] end
  end.

Section ended.
Context {Ω : Type} `{Env Ω, Cobs} (max fuel : nat).

Lemma framed_binding {A} (f : FrameWriter → M Ω (A * FrameWriter)) ob ω r ob' ω' :
  framed f ob ω = Ret ((r, ob'), ω') → binding ob' = binding ob ∧ side ob' = side ob.
Proof.
  unfold framed, mbind, M_bind. destruct (f (writer ob) ω) as [[[a fw] ω1]| |]; [|done..].
  by intros [= <- <- <-].
Qed.

Lemma notify_failure_binding e deadline ob ω ob' ω' :
  notify_failure fuel e deadline ob ω = Ret (ob', ω') → binding ob' = binding ob.
Proof.
  unfold notify_failure. case_decide; [|by intros [= <- <-]].
  unfold mbind at 1, M_bind at 1.
  destruct (framed _ ob ω) as [[[r ob1] ω1]| |] eqn:E; [|done..].
  intros [= <- <-]. by apply framed_binding in E as [].
Qed.

(** The binding an operation leaves, from the code alone. *)
Lemma run_binding o ob ω r ob' ω' :
  run max fuel o ob ω = Ret ((r, ob'), ω') → binding ob' = next_binding o (binding ob) r.
Proof.
  destruct o as [c|c| |c|c packet|deadline|limit|packet limit]; simpl;
    try (by intros [= <- <- <-]).
  - intros [= <- <- <-]. unfold end_. by case_decide.
  - unfold disconnect, end_. case_decide; simpl; [|by intros [= <- <- <-]].
    case_bool_decide; [|by intros [= <- <- <-]]. unfold mbind at 1, M_bind at 1.
    destruct (deadline_after _ ω) as [[]| |]; [|done..]. by intros []%framed_binding.
  - unfold send. case_decide as Hb; [by intros [= <- <- <-]; rewrite decide_False|].
    unfold mbind at 1, M_bind at 1.
    destruct (deadline_after _ ω) as [[deadline ω1]| |]; [|done..].
    unfold mbind at 1, M_bind at 1. rewrite decide_True by done.
    destruct (framed _ ob ω1) as [[[[[]|e] ob1] ω2]| |] eqn:E; [| |done..].
    + intros [= <- <- <-]. by apply framed_binding in E as [-> _].
    + apply framed_binding in E as [Eb _]. unfold end_. rewrite decide_True by congruence.
      unfold mbind, M_bind. destruct (notify_failure _ _ _ _ ω2) as [[ob2 ω3]| |] eqn:En;
        [|done..].
      intros [= <- <- <-]. by apply notify_failure_binding in En as ->.
  - unfold send_reset, mbind at 1, M_bind at 1.
    destruct (deadline_after _ ω) as [[]| |]; [|done..]. by intros []%framed_binding.
  - unfold send_dropped, mbind at 1, M_bind at 1.
    destruct (deadline_after _ ω) as [[]| |]; [|done..]. by intros []%framed_binding.
  - unfold send_packet, mbind at 1, M_bind at 1.
    destruct (deadline_after _ ω) as [[deadline ω1]| |]; [|done..].
    unfold mbind at 1, M_bind at 1.
    destruct (framed _ ob ω1) as [[[r' ob1] ω2]| |] eqn:E; [|done..].
    apply framed_binding in E as [Eb _].
    destruct r' as [|[]]; try (by intros [= <- <- <-]). unfold mbind, M_bind.
    destruct (notify_failure _ _ _ _ ω2) as [[ob2 ω3]| |] eqn:En; [|done..].
    intros [= <- <- <-]. apply notify_failure_binding in En. congruence.
Qed.

Lemma next_binding_other c o b r :
  b ≠ Some c → o ≠ OpBind c → next_binding o b r ≠ Some c.
Proof. destruct o; simpl; repeat case_decide; repeat case_match; naive_solver. Qed.

(** A call through an ended session's handle does nothing. *)
Lemma run_refused c o ob ω :
  binding ob ≠ Some c → concerns c o = true →
  run max fuel o ob ω
  = Ret ((match o with OpSend _ _ => Err session_ended | _ => Ok tt end, ob), ω).
Proof.
  intros Hb Hc. destruct o; simpl in *; try done; apply bool_decide_eq_true in Hc as ->.
  - unfold end_. by rewrite decide_False.
  - unfold disconnect, end_. by rewrite decide_False.
  - unfold send. by rewrite decide_True.
Qed.

Lemma run_all_refused c os ob ω :
  binding ob ≠ Some c → OpBind c ∉ os →
  run_all max fuel os ob ω
  = match run_all max fuel (filter (λ o, concerns c o = false) os) ob ω with
    | Ret ((rs, ob'), ω') => Ret ((refused c os rs, ob'), ω')
    | Panicked => Panicked
    | Diverged => Diverged
    end.
Proof.
  revert ob ω. induction os as [|o os IH]; intros ob ω Hb Hos; [done|].
  apply not_elem_of_cons in Hos as [Ho Hos]. rewrite filter_cons.
  destruct (concerns c o) eqn:Ec; simpl.
  - unfold mbind at 1, M_bind at 1.
    rewrite (run_refused c o ob ω Hb Ec). unfold mbind, M_bind. rewrite IH by done.
    destruct (run_all _ _ (filter _ os) ob ω) as [[[rs ob'] ω']| |]; simpl; [|done..].
    by rewrite Ec.
  - unfold mbind, M_bind.
    destruct (run max fuel o ob ω) as [[[r ob1] ω1]| |] eqn:Er; [|done..].
    apply run_binding in Er. unfold mbind, M_bind. rewrite IH; [|rewrite Er|done].
    + destruct (run_all _ _ (filter _ os) ob1 ω1) as [[[rs ob'] ω']| |]; simpl; [|done..].
      by rewrite Ec.
    + by apply next_binding_other.
Qed.
End ended.

(** ** What the shared output guarantees *)

(** Every operation on the output returns, and through any sequence of
    binds, session ends, resets, notifications and sends, failing at any byte,
    the frames of the operations that succeeded reach the peer whole and in
    order; the peer stands between frames unless a recovery delimiter is due. *)
Theorem output_in_order {Ω : Type} `{EnvLaws Ω, CobsLaws} (budget : Ω → nat)
    `{!EnvBudget Ω budget} (max fuel : nat) (side : Side) (timeout : Duration)
    (os : list Op) (ω : Ω) :
  0 < max → max + 2 + budget ω < fuel →
  ∃ rs ob' ω' bs,
    run_all max fuel os (new max side timeout) ω = Ret ((rs, ob'), ω')
    ∧ rx ω' = rx ω ∧ tx ω' = tx ω ++ bs
    ∧ sublist (frames_sent max os rs) (scan max at_boundary bs).2
    ∧ (resync (writer ob') = false → (scan max at_boundary bs).1 = at_boundary).
Proof.
  intros Hm Hf.
  pose proof (run_all_total max fuel Hm budget os (new max side timeout) at_boundary ω Hf
    (writer_new_ok max)) as Ht.
  apply tpost_returns in Ht as ([rs ob'] & ω' & Hrun & bs & (Hr & Ht) & Hsync & Hsub).
  exists rs, ob', ω', bs. split_and!; try done. apply Hsync.
Qed.

(** A session that fails, a stale send, and the session that replaces it. *)
Definition two_sessions : list Op :=
  [OpBind 0; OpSend 0 [Byte.x66]; OpSend 0 [Byte.x67]; OpSend 0 [Byte.x68];
   OpSendReset 7; OpBind 1; OpSend 0 [Byte.x69]; OpSend 1 [Byte.x6a]].

Definition flaky : Script.world := Script.start [] [Ok 9; Ok 1; Err BrokenPipe; Ok 9].

Lemma output_in_order_witness :
  ∃ rs ob' ω' bs,
    run_all 8 40 two_sessions (new 8 Server 5) flaky = Ret ((rs, ob'), ω')
    ∧ rx ω' = rx flaky ∧ tx ω' = tx flaky ++ bs
    ∧ sublist (frames_sent 8 two_sessions rs) (scan 8 at_boundary bs).2
    ∧ (resync (writer ob') = false → (scan 8 at_boundary bs).1 = at_boundary).
Proof.
  apply (output_in_order Script.budget); [lia|]. vm_compute. lia.
Defined.

Example two_sessions_results :
  match run_all 8 40 two_sessions (new 8 Server 5) flaky with
  | Ret ((rs, _), ω') =>
      rs = [Ok tt; Ok tt; Err (SendFailed BrokenPipe); Err session_ended; Ok tt; Ok tt;
            Err session_ended; Ok tt]
      ∧ (scan 8 at_boundary (tx ω')).2
        = [EFrame [Byte.x02; Byte.x66]; EFrame [Byte.x02]; EFrame []; EFrame []; EFrame [];
           EFrame [Byte.x02; Byte.x6a]]
  | _ => False
  end.
Proof. vm_compute. by split. Qed.

(** Handles of an ended session are inert. While its context is not bound
    again, dropping every send, disconnect and end made through them from any
    sequence of operations changes nothing: not a byte on the wire, not the
    clock, not the state, not the other calls' results; and each such send
    reports the ended session. *)
Theorem ended_session_inert {Ω : Type} `{Env Ω, Cobs} (max fuel c : nat) (os : list Op)
    (ob : State) (ω : Ω) :
  binding ob ≠ Some c → OpBind c ∉ os →
  run_all max fuel os ob ω
  = match run_all max fuel (filter (λ o, concerns c o = false) os) ob ω with
    | Ret ((rs, ob'), ω') => Ret ((refused c os rs, ob'), ω')
    | Panicked => Panicked
    | Diverged => Diverged
    end.
Proof. apply run_all_refused. Qed.

Lemma ended_session_inert_witness :
  run_all 8 40 (drop 4 two_sessions) (new 8 Server 5) flaky
  = match run_all 8 40 [OpSendReset 7; OpBind 1; OpSend 1 [Byte.x6a]]
            (new 8 Server 5) flaky with
    | Ret ((rs, ob'), ω') => Ret ((refused 0 (drop 4 two_sessions) rs, ob'), ω')
    | Panicked => Panicked
    | Diverged => Diverged
    end.
Proof.
  refine (ended_session_inert 8 40 0 (drop 4 two_sessions) (new 8 Server 5) flaky _ _);
    [done|]. cbn. rewrite !not_elem_of_cons. split_and!; try done. apply not_elem_of_nil.
Defined.

(** The steps of a send that failed: the packet's frame, then the notification or
    nothing. *)
Lemma send_failed {Ω : Type} `{Env Ω, Cobs} (max fuel c : nat) packet ob ω e ob' ω' :
  binding ob = Some c → send max fuel c packet ob ω = Ret ((Err e, ob'), ω') →
  ∃ deadline ω0 fw1 ω1,
    deadline_after (timeout ob) ω = Ret (deadline, ω0)
    ∧ Framing.send_packet max fuel packet deadline (writer ob) ω0 = Ret ((Err e, fw1), ω1)
    ∧ (side ob = Client ∨ is_timeout e = true → writer ob' = fw1 ∧ ω' = ω1)
    ∧ (side ob = Server → is_timeout e = false → ∃ r,
        Framing.send_dropped fuel deadline fw1 ω1 = Ret ((r, writer ob'), ω')).
Proof.
  intros Hb. unfold send. rewrite decide_False by naive_solver. unfold mbind at 1, M_bind at 1.
  destruct (deadline_after _ ω) as [[deadline ω0]| |]; [|done..].
  unfold mbind at 1, M_bind at 1. unfold framed at 1, mbind at 1, M_bind at 1.
  destruct (Framing.send_packet _ _ _ _ _ ω0) as [[[[[]|e'] fw1] ω1]| |] eqn:Ep; [done| |done..].
  unfold end_. simpl. rewrite decide_True by done. unfold notify_failure. simpl.
  case_decide as Hn.
  - unfold framed, mbind, M_bind. simpl.
    destruct (Framing.send_dropped _ _ _ ω1) as [[[r fw2] ω2]| |] eqn:Ed; [|done..].
    intros [= <- <- <-]. exists deadline, ω0, fw1, ω1. destruct Hn as [Hsd Hto].
    split_and!; [done..|by rewrite Hsd, Hto; intros [?|?]|]. intros _ _. by exists r.
  - intros [= <- <- <-]. exists deadline, ω0, fw1, ω1. split_and!; [done..|].
    intros Hsd Hto. by destruct Hn.
Qed.

(** A send of the framer that returned, as the peer sees it. *)
Lemma send_op_seen {Ω : Type} `{EnvLaws Ω, CobsLaws} (max fuel : nat) o deadline fw s ω r fw' ω' :
  0 < max → in_sync max fw s → send_op max fuel o deadline fw ω = Ret ((r, fw'), ω') →
  send_spec max o fw s ω (r, fw') ω'.
Proof.
  intros Hm Hsync Hrun.
  refine (proj1 (wp_elim True _ _ _ _ _
    (send_op_wp max Hm True fuel o deadline fw s ω (λ _, True) _ I Hsync) Hrun)).
  intros out _. eapply wp_mono; [apply write_half_wp|done].
Qed.

(** What a send of a bound session that returned [r] leaves. *)
Definition send_outcome {Ω : Type} `{Env Ω, Cobs} (max fuel c : nat) (packet : list byte)
    (ob ob' : State) (r : result unit Error) (s : scanner) (ω ω' : Ω) : Prop :=
  match r with
  | Ok _ =>
      binding ob' = Some c ∧ ∃ bs pre, tx ω' = tx ω ++ bs
        ∧ (scan max s bs).2 = pre ++ [EFrame (body_of max (OpPacket packet))]
  | Err e =>
      binding ob' = None
      ∧ (∀ message, finish_receive c (Ok message) ob' = Err session_ended)
      ∧ ∃ deadline ω0 fw1 ω1 bs1,
          deadline_after (timeout ob) ω = Ret (deadline, ω0)
          ∧ Framing.send_packet max fuel packet deadline (writer ob) ω0 = Ret ((Err e, fw1), ω1)
          ∧ tx ω1 = tx ω ++ bs1
          ∧ (side ob = Client ∨ is_timeout e = true → writer ob' = fw1 ∧ ω' = ω1)
          ∧ (side ob = Server → is_timeout e = false → ∃ notice bs2,
              Framing.send_dropped fuel deadline fw1 ω1 = Ret ((notice, writer ob'), ω')
              ∧ tx ω' = tx ω1 ++ bs2
              ∧ let seen := (scan max (scan max s bs1).1 bs2).2 in
                match notice with
                | Ok _ =>
                    resync (writer ob') = false ∧ (∃ pre, seen = pre ++ [EFrame []])
                    ∧ (resync fw1 = false → seen = [EFrame []])
                | Err e' => (∃ k, e' = SendFailed k) ∧ resync (writer ob') = true
                end)
  end.

Lemma send_outcome_holds {Ω : Type} `{EnvLaws Ω, CobsLaws} (max fuel c : nat)
    (packet : list byte) (ob ob' : State) (r : result unit Error) (s : scanner) (ω ω' : Ω) :
  0 < max → in_sync max (writer ob) s → binding ob = Some c →
  send max fuel c packet ob ω = Ret ((r, ob'), ω') →
  send_outcome max fuel c packet ob ob' r s ω ω'.
Proof.
  intros Hm Hsync Hb Hrun.
  assert (post (send max fuel c packet ob) ω
    (λ p ω', run_spec max (OpSend c packet) ob s ω p ω' ∧ True)) as Hpost.
  { apply send_wp; try done. intros out deadline ω1 _ _.
    eapply wp_mono; [apply write_half_wp|done]. }
  destruct (wp_elim _ _ _ _ _ _ Hpost Hrun)
    as ((_ & _ & Hb' & bs & (_ & Ht) & _ & Hok & _) & _).
  simpl in Hb'. rewrite decide_True in Hb' by done.
  destruct r as [[]|e]; simpl in Hb'.
  { split; [congruence|]. destruct (Hok eq_refl) as [pre Hs]. by exists bs, pre. }
  split_and!; [done|intros message; unfold finish_receive; by rewrite Hb', decide_False|].
  destruct (send_failed _ _ _ _ _ _ _ _ _ Hb Hrun) as (deadline & ω0 & fw1 & ω1 & Hd & Hp & Hq & Hn).
  pose proof (send_op_seen max fuel (OpPacket packet) _ _ s _ _ _ _ Hm Hsync Hp) as Hs.
  assert (ω0 = (clock_now ω).2) as -> by (rewrite deadline_after_runs in Hd; congruence).
  apply send_spec_clock in Hs as (bs1 & [_ Ht1] & Hsync1 & _).
  exists deadline, (clock_now ω).2, fw1, ω1, bs1. split_and!; [done..|].
  intros Hsd Hto. destruct (Hn Hsd Hto) as [notice Hdr].
  pose proof (send_op_seen max fuel OpDropped _ _ _ _ _ _ _ Hm Hsync1 Hdr)
    as (bs2 & [_ Ht2] & _ & Hok2 & Hre). destruct (Hre I) as [Hre' Herr].
  exists notice, bs2. split_and!; [done..|]. simpl in *.
  destruct notice as [[]|e']; [|split; [by apply Herr|done]]. naive_solver.
Qed.

(** C27: An output failure ends its session before the send returns, and the server
    tells the client. With fuel for the adapter's budget the send returns. A failure is
    that of the packet's frame; the binding is gone, so no later message is accepted in
    either direction. On the client, or after a timeout, nothing follows the failed
    frame. Otherwise the server sends an empty frame, within the failed frame's
    deadline: where the adapter takes it, it is the last thing the client reads, alone
    if the failed frame left nothing behind, and the writer has recovered; where it
    fails too, a recovery delimiter stays due. A successful send leaves the session
    bound and the packet's frame as the last one read. *)
Theorem failed_send_ends_session {Ω : Type} `{EnvLaws Ω, CobsLaws} (budget : Ω → nat)
    `{!EnvBudget Ω budget} (max fuel c : nat) (packet : list byte) (ob : State) (s : scanner)
    (ω : Ω) :
  0 < max → in_sync max (writer ob) s → binding ob = Some c →
  (max + 2 + budget ω < fuel → ∃ r ob' ω', send max fuel c packet ob ω = Ret ((r, ob'), ω'))
  ∧ ∀ r ob' ω', send max fuel c packet ob ω = Ret ((r, ob'), ω') →
      send_outcome max fuel c packet ob ob' r s ω ω'.
Proof.
  intros Hm Hsync Hb. split.
  - intros Hf. destruct (tpost_returns _ _ _ (run_total max fuel Hm budget (OpSend c packet) ob s ω
      Hf Hsync)) as ([r ob'] & ω' & Hrun & _). by exists r, ob', ω'.
  - intros r ob' ω'. by apply send_outcome_holds.
Qed.

(** A send that breaks after one byte, and a notification that goes out. *)
Lemma failed_send_ends_session_witness :
  let ob := bind 0 (new 8 Server 5) in
  let ω := Script.start [] [Ok 1; Err BrokenPipe] in
  ∃ ob' ω', send 8 40 0 [Byte.x66] ob ω = Ret ((Err (SendFailed BrokenPipe), ob'), ω')
  ∧ binding ob' = None
  ∧ ∃ deadline fw1 ω1 notice,
      Framing.send_dropped 40 deadline fw1 ω1 = Ret ((notice, writer ob'), ω').
Proof.
  eexists _, _. split; [vm_compute; reflexivity|].
  pose proof (failed_send_ends_session Script.budget 8 40 0 [Byte.x66] (bind 0 (new 8 Server 5))
    at_boundary (Script.start [] [Ok 1; Err BrokenPipe])
    ltac:(lia) (writer_new_ok 8) eq_refl) as [_ Hout].
  pose proof (Hout (Err (SendFailed BrokenPipe)) _ _ ltac:(vm_compute; reflexivity))
    as (Hb & _ & deadline & ω0 & fw1 & ω1 & bs1 & _ & _ & _ & _ & Hn).
  split; [exact Hb|]. destruct (Hn eq_refl eq_refl) as (notice & bs2 & Hd & _).
  exists deadline, fw1, ω1, notice. exact Hd.
Defined.
End Outbound.
