(* ===== verification/Sender.v ===== *)
(** * Sending into a session from many threads ([transport/sender.rs])

    [Sender::send] as one call, and the machine of its critical sections: the
    encryption lock of each context, held from sealing until the writer is
    acquired, and the writer's lock, held through the write. *)

From stdpp Require Import relations.
From S2P Require Import Prelude Closer Io Script Stream Cobs Framing Sealing Outbound.

Module Sender.

(** ** One call *)

Section sender.
Context {Ω : Type} `{Env Ω, Cobs, Hpke} (max limit fuel : nat).

(** What the weak references of a handle lead to: the output while its owner
    lives, and the live encryption contexts. *)
Record Shared := MkShared {
  outbound : option Outbound.State;
  contexts : gmap nat SealCtx;
}.

(** [Sender::send] through a handle of context [sealer]. *)
Definition send (sealer : nat) (message : list byte) (sh : Shared) :
  M Ω (result unit Error * Shared) :=
  match outbound sh with
  | None => mret (Err Terminated, sh)
  | Some ob =>
      match contexts sh !! sealer with
      | None => mret (Err Outbound.session_ended, sh)
      | Some context =>
          match seal limit context message with
          | (Err (PacketTooLarge size), context) =>
              mret (Outbound.refuse_oversized sealer (Z.to_nat size) ob,
                    MkShared (Some ob) (<[sealer:=context]> (contexts sh)))
          | (Err _, _) => panic
          | (Ok packet, context) =>
              '(r, ob) ← Outbound.send max fuel sealer packet ob;
              mret (r, MkShared (Some ob) (<[sealer:=context]> (contexts sh)))
          end
      end
  end.

(** [Sender::disconnect] *)
Definition disconnect (sealer : nat) (sh : Shared) : M Ω (result unit Error * Shared) :=
  match outbound sh, contexts sh !! sealer with
  | Some ob, Some _ =>
      '(r, ob) ← Outbound.disconnect fuel sealer ob;
      mret (r, MkShared (Some ob) (contexts sh))
  | _, _ => mret (Ok tt, sh)
  end.
End sender.
Arguments Shared {_}.

(** ** Concurrent calls *)

Section machine.
Context {Ω : Type} `{Env Ω, Cobs, Hpke} (max limit fuel : nat).

(** The output, the contexts, for each context the packet sealed by the thread
    that holds its lock and waits for the writer, the packet of the thread that
    holds the writer, and the world. [sealed] and [written] record the history:
    context, message and packet, and context, packet and result. *)
Record sys := MkSys {
  ob : Outbound.State;
  ctxs : gmap nat SealCtx;
  waiting : gmap nat (list byte);
  writing : option (nat * list byte);
  world : Ω;
  sealed : list (nat * list byte * list byte);
  written : list (nat * list byte * result unit Error);
}.

(** Operations on the output besides binding a context and sending. *)
Definition other (o : Outbound.Op) : bool :=
  match o with Outbound.OpBind _ | Outbound.OpSend _ _ => false | _ => true end.

Inductive step : sys → sys → Prop :=
  | step_bind y c ctx :
      writing y = None → ctxs y !! c = None →
      step y (MkSys (Outbound.bind c (ob y)) (<[c:=ctx]> (ctxs y)) (waiting y) None
                (world y) (sealed y) (written y))
  | step_seal y c ctx ctx' message packet :
      ctxs y !! c = Some ctx → waiting y !! c = None →
      seal limit ctx message = (Ok packet, ctx') →
      step y (MkSys (ob y) (<[c:=ctx']> (ctxs y)) (<[c:=packet]> (waiting y)) (writing y)
                (world y) (sealed y ++ [(c, message, packet)]) (written y))
  | step_acquire y c packet :
      waiting y !! c = Some packet → writing y = None →
      step y (MkSys (ob y) (ctxs y) (delete c (waiting y)) (Some (c, packet))
                (world y) (sealed y) (written y))
  | step_write y c packet r ob' ω' :
      writing y = Some (c, packet) →
      Outbound.send max fuel c packet (ob y) (world y) = Ret ((r, ob'), ω') →
      step y (MkSys ob' (ctxs y) (waiting y) None ω' (sealed y)
                (written y ++ [(c, packet, r)]))
  | step_other y o r ob' ω' :
      writing y = None → other o = true →
      Outbound.run max fuel o (ob y) (world y) = Ret ((r, ob'), ω') →
      step y (MkSys ob' (ctxs y) (waiting y) None ω' (sealed y) (written y))
  | step_world y ω' :
      tx ω' = tx (world y) →
      step y (MkSys (ob y) (ctxs y) (waiting y) (writing y) ω' (sealed y) (written y)).

Definition start (side : Outbound.Side) (timeout : Duration) (ω : Ω) : sys :=
  MkSys (Outbound.new max side timeout) ∅ ∅ None ω [] [].

(** Packets sealed for a context, and those written completely. *)
Definition packets_of (c : nat) (l : list (nat * list byte * list byte)) : list (list byte) :=
  omap (λ '(c', _, p), if decide (c' = c) then Some p else None) l.

Definition sent_of (c : nat) (l : list (nat * list byte * result unit Error)) :
  list (list byte) :=
  omap (λ '(c', p, r), if decide (c' = c) then if is_ok r then Some p else None else None) l.

(** The frames of all complete writes. *)
Definition frames_written (l : list (nat * list byte * result unit Error)) : list event :=
  omap (λ '(_, p, r), if is_ok r then Some (EFrame (body_of max (OpPacket p))) else None) l.

(** Packets of a context that were sealed and not yet written. *)
Definition in_flight (c : nat) (y : sys) : list (list byte) :=
  match writing y with
  | Some (c', p) => if decide (c' = c) then [p] else []
  | None => []
  end ++ match waiting y !! c with Some p => [p] | None => [] end.

Record inv (y : sys) : Prop := MkInv {
  (** Only contexts that exist seal, wait or write. *)
  inv_waiting c : is_Some (waiting y !! c) → is_Some (ctxs y !! c);
  inv_writing c p : writing y = Some (c, p) → is_Some (ctxs y !! c);
  inv_binding c : Outbound.binding (ob y) = Some c → is_Some (ctxs y !! c);
  inv_sealed c : ctxs y !! c = None → packets_of c (sealed y) = [];
  (** What was written of a context leads what was sealed, and the bound one
      has only the packets in flight left. *)
  inv_prefix c : sent_of c (written y) `prefix_of` packets_of c (sealed y);
  inv_bound c :
    Outbound.binding (ob y) = Some c →
    packets_of c (sealed y) = sent_of c (written y) ++ in_flight c y;
}.

Lemma packets_of_snoc c l c' m p :
  packets_of c (l ++ [(c', m, p)])
  = packets_of c l ++ if decide (c' = c) then [p] else [].
Proof. unfold packets_of. rewrite omap_app. simpl. by case_decide. Qed.

Lemma sent_of_snoc c l c' p r :
  sent_of c (l ++ [(c', p, r)])
  = sent_of c l ++ if decide (c' = c) then if is_ok r then [p] else [] else [].
Proof. unfold sent_of. rewrite omap_app. simpl. case_decide; [|done]. by destruct r. Qed.

Lemma other_binding o b r :
  other o = true → Outbound.next_binding o b r = b ∨ Outbound.next_binding o b r = None.
Proof. destruct o; simpl; try done; intros _; try case_decide; auto. Qed.

Lemma send_binding c packet st ω r st' ω' :
  Outbound.send max fuel c packet st ω = Ret ((r, st'), ω') →
  Outbound.binding st'
  = if decide (Outbound.binding st = Some c)
    then if is_ok r then Some c else None else Outbound.binding st.
Proof.
  intros Hs. rewrite (Outbound.run_binding max fuel (Outbound.OpSend c packet) _ _ _ _ _ Hs).
  simpl. case_decide; [|done]. by destruct r.
Qed.

Lemma send_ok_bound c packet st ω st' ω' :
  Outbound.send max fuel c packet st ω = Ret ((Ok tt, st'), ω') →
  Outbound.binding st = Some c.
Proof. unfold Outbound.send. by case_decide. Qed.

(** A smaller binding keeps what is known of the bound context. *)
Lemma inv_step_binding y st' ω' :
  inv y →
  Outbound.binding st' = Outbound.binding (ob y) ∨ Outbound.binding st' = None →
  inv (MkSys st' (ctxs y) (waiting y) (writing y) ω' (sealed y) (written y)).
Proof.
  intros [I1 I2 I3 I4 I5 I6] Hb. split; simpl; try done; intros c Hc;
    (destruct Hb as [Hb|Hb]; rewrite Hb in Hc; [|done]).
  - by apply I3.
  - by apply (I6 c).
Qed.

Lemma inv_step_bind y c ctx :
  inv y → writing y = None → ctxs y !! c = None →
  inv (MkSys (Outbound.bind c (ob y)) (<[c:=ctx]> (ctxs y)) (waiting y) None
         (world y) (sealed y) (written y)).
Proof.
  intros [I1 I2 I3 I4 I5 I6] Hw Hc. split; simpl; try done.
  - intros c' Hc'. apply lookup_insert_is_Some'. auto.
  - intros c' [= <-]. by rewrite lookup_insert_eq.
  - intros c' [Hn _]%lookup_insert_None. auto.
  - intros c' [= <-]. rewrite (I4 c Hc). pose proof (I5 c) as Hp. rewrite (I4 c Hc) in Hp.
    apply prefix_nil_inv in Hp as ->. unfold in_flight. simpl.
    destruct (waiting y !! c) eqn:E; [|done].
    destruct (I1 c) as [? Hs]; [by rewrite E|]. congruence.
Qed.

Lemma inv_step_seal y c ctx ctx' m p :
  inv y → ctxs y !! c = Some ctx → waiting y !! c = None →
  inv (MkSys (ob y) (<[c:=ctx']> (ctxs y)) (<[c:=p]> (waiting y)) (writing y)
         (world y) (sealed y ++ [(c, m, p)]) (written y)).
Proof.
  intros [I1 I2 I3 I4 I5 I6] Hc Hw. split; simpl.
  - intros c'. rewrite !lookup_insert_is_Some'. naive_solver.
  - intros c' p' Hp. apply lookup_insert_is_Some'. eauto.
  - intros c' Hb. apply lookup_insert_is_Some'. eauto.
  - intros c' [Hn Hne]%lookup_insert_None. rewrite packets_of_snoc, decide_False by done.
    rewrite app_nil_r. auto.
  - intros c'. rewrite packets_of_snoc. by apply prefix_app_r.
  - intros c' Hb. rewrite packets_of_snoc, (I6 c' Hb). unfold in_flight. simpl.
    case_decide as E; [subst c'; rewrite Hw, lookup_insert_eq|rewrite lookup_insert_ne by done];
      by rewrite ?app_nil_r, <-?app_assoc.
Qed.

Lemma inv_step_acquire y c p :
  inv y → waiting y !! c = Some p → writing y = None →
  inv (MkSys (ob y) (ctxs y) (delete c (waiting y)) (Some (c, p)) (world y)
         (sealed y) (written y)).
Proof.
  intros [I1 I2 I3 I4 I5 I6] Hc Hw. split; simpl; try done.
  - intros c'. rewrite lookup_delete_is_Some. naive_solver.
  - intros c' p' [= <- <-]. apply I1. by rewrite Hc.
  - intros c' Hb. rewrite (I6 c' Hb). unfold in_flight. simpl. rewrite Hw. simpl.
    case_decide as E; [subst c'; by rewrite Hc, lookup_delete_eq|].
    by rewrite lookup_delete_ne by done.
Qed.

Lemma inv_step_write y c p r st' ω' :
  inv y → writing y = Some (c, p) →
  Outbound.send max fuel c p (ob y) (world y) = Ret ((r, st'), ω') →
  inv (MkSys st' (ctxs y) (waiting y) None ω' (sealed y) (written y ++ [(c, p, r)])).
Proof.
  intros [I1 I2 I3 I4 I5 I6] Hw Hsend. pose proof (send_binding _ _ _ _ _ _ _ Hsend) as Hb.
  assert (∀ c', Outbound.binding st' = Some c' → Outbound.binding (ob y) = Some c'
    ∧ (c' = c → is_ok r = true)) as Hkeep.
  { intros c' Hc'. rewrite Hc' in Hb. case_decide as E; [|by split; [|congruence]].
    destruct (is_ok r); [|done]. naive_solver. }
  assert (is_ok r = true → packets_of c (sealed y)
    = (sent_of c (written y) ++ [p]) ++ match waiting y !! c with Some p => [p] | None => [] end)
    as Hok.
  { destruct r as [[]|]; [|done]. intros _. apply send_ok_bound in Hsend.
    rewrite (I6 c Hsend). unfold in_flight. rewrite Hw, decide_True by done.
    by rewrite <-app_assoc. }
  split; simpl; try done.
  - intros c' [Hc' _]%Hkeep. auto.
  - intros c'. rewrite sent_of_snoc. destruct (decide (c = c')) as [<-|E];
      [|by rewrite app_nil_r].
    destruct (is_ok r); [|by rewrite app_nil_r]. rewrite (Hok eq_refl). by eexists.
  - intros c' [Hc' Hr]%Hkeep. rewrite sent_of_snoc. destruct (decide (c = c')) as [<-|E].
    + rewrite Hr by done. rewrite (Hok (Hr eq_refl)). by unfold in_flight.
    + rewrite (I6 c' Hc'), app_nil_r. unfold in_flight. rewrite Hw. simpl.
      by rewrite decide_False.
Qed.

Lemma inv_steps y y' : inv y → step y y' → inv y'.
Proof.
  intros Hi Hs. destruct Hs as [| | | |y o r ob' ω' Hw Ho Hrun|].
  - by apply inv_step_bind.
  - by eapply inv_step_seal.
  - by apply inv_step_acquire.
  - by eapply inv_step_write.
  - rewrite <-Hw. apply inv_step_binding; [done|].
    rewrite (Outbound.run_binding _ _ _ _ _ _ _ _ Hrun). by apply other_binding.
  - apply inv_step_binding; auto.
Qed.

Lemma inv_reachable side timeout ω y : rtc step (start side timeout ω) y → inv y.
Proof.
  intros Hr. assert (inv (start side timeout ω)) as Hi.
  { split; simpl; try done. intros c. rewrite lookup_empty. by intros []. }
  induction Hr as [|y1 y2 y3 Hs _ IH]; [done|]. eauto using inv_steps.
Qed.
End machine.

(** ** The wire *)

Section wire.
Context {Ω : Type} `{EnvLaws Ω, CobsLaws, Hpke} (max limit fuel : nat) (Hmax : 0 < max).

(** The bytes written so far carry every complete write's frame in order. *)
Definition wire_inv (ω0 : Ω) (y : sys) : Prop :=
  ∃ bs, tx (world y) = tx ω0 ++ bs
    ∧ in_sync max (Outbound.writer (ob y)) (scan max at_boundary bs).1
    ∧ sublist (frames_written max (written y)) (scan max at_boundary bs).2.

Lemma run_partial o st s ω r st' ω' :
  in_sync max (Outbound.writer st) s →
  Outbound.run max fuel o st ω = Ret ((r, st'), ω') →
  Outbound.run_spec max o st s ω (r, st') ω'.
Proof.
  intros Hsync Hrun.
  assert (post (Outbound.run max fuel o st) ω
    (λ p ω', Outbound.run_spec max o st s ω p ω' ∧ True)) as Hpost.
  { apply Outbound.run_wp; try done. intros out deadline ω1 _ _.
    eapply wp_mono; [apply write_half_wp|done]. }
  by apply (wp_elim _ _ _ _ _ _ Hpost Hrun).
Qed.

(** Running an operation extends the wire. *)
Lemma wire_inv_run ω0 y o r st' ω' w :
  wire_inv ω0 y → Outbound.run max fuel o (ob y) (world y) = Ret ((r, st'), ω') →
  (w = written y ∨ ∃ c p, o = Outbound.OpSend c p ∧ w = written y ++ [(c, p, r)]) →
  ∀ cs wt wr se, wire_inv ω0 (MkSys st' cs wt wr ω' se w).
Proof.
  intros (bs & Ht & Hsync & Hsub) Hrun Hw cs wt wr se.
  destruct (run_partial _ _ _ _ _ _ _ Hsync Hrun)
    as (_ & _ & _ & bs' & (_ & Ht') & Hsync' & Hok & _).
  exists (bs ++ bs'). rewrite scan_app. simpl. split_and!; [|done|].
  { by rewrite Ht', Ht, app_assoc. }
  destruct Hw as [->|(c & p & -> & ->)]; [by apply sublist_inserts_r|].
  unfold frames_written. rewrite omap_app. apply sublist_app; [done|].
  destruct r as [[]|]; simpl; [|apply sublist_nil_l].
  destruct (Hok eq_refl) as [pre ->]. by apply sublist_inserts_l.
Qed.

Lemma wire_inv_step ω0 y y' : wire_inv ω0 y → step max limit fuel y y' → wire_inv ω0 y'.
Proof.
  intros Hi Hs.
  destruct Hs as [| | |y c p r ob' ω' Hw Hsend|y o r ob' ω' Hw Ho Hrun|y ω' Ht]; try done.
  - eapply (wire_inv_run _ _ (Outbound.OpSend c p)); eauto.
  - eapply wire_inv_run; eauto.
  - destruct Hi as (bs & Ht' & Hrest). exists bs. simpl. by rewrite Ht.
Qed.

Lemma wire_inv_reachable side timeout ω0 y :
  rtc (step max limit fuel) (start max side timeout ω0) y → wire_inv ω0 y.
Proof.
  intros Hr. assert (wire_inv ω0 (start max side timeout ω0)) as Hi.
  { exists []. simpl. rewrite app_nil_r. split_and!; [done|apply writer_new_ok|done]. }
  induction Hr as [|y1 y2 y3 Hs _ IH]; [done|]. eauto using wire_inv_step.
Qed.

Lemma send_sealed_result c packet st s ω r st' ω' :
  in_sync max (Outbound.writer st) s → Outbound.binding st = Some c →
  fits max (OpPacket packet) →
  Outbound.send max fuel c packet st ω = Ret ((r, st'), ω') →
  r = Ok tt ∨ ∃ e, r = Err (SendFailed e).
Proof.
  intros Hsync Hb Hfit Hrun.
  assert (post (Outbound.send max fuel c packet st) ω
    (λ p _, p.1 = Ok tt ∨ ∃ e, p.1 = Err (SendFailed e))) as Hpost.
  { apply (Outbound.send_fits_wp max fuel Hmax True (λ _, True)) with (s := s); try done.
    intros out deadline ω1 _ _. eapply wp_mono; [apply write_half_wp|done]. }
  by apply (wp_elim _ _ _ _ _ _ Hpost Hrun).
Qed.

(** A whole call is the steps of one thread. *)
Lemma send_steps c message y r sh' ω' :
  waiting y !! c = None → writing y = None →
  send max limit fuel c message (MkShared (Some (ob y)) (ctxs y)) (world y)
  = Ret ((r, sh'), ω') →
  (∃ y', rtc (step max limit fuel) y y' ∧ outbound sh' = Some (ob y')
    ∧ contexts sh' = ctxs y' ∧ world y' = ω' ∧ waiting y' = waiting y ∧ writing y' = None).
Proof.
  intros Hwait Hwrite. unfold send. simpl.
  destruct (ctxs y !! c) as [ctx|] eqn:Ec; [|intros [= <- <- <-]; by exists y].
  destruct (seal limit ctx message) as [[p|e] ctx'] eqn:Es.
  - unfold mbind, M_bind.
    destruct (Outbound.send max fuel c p (ob y) (world y)) as [[[r1 ob1] ω1]| |] eqn:Eo;
      [|done..].
    intros [= <- <- <-].
    set (y1 := MkSys (ob y) (<[c:=ctx']> (ctxs y)) (<[c:=p]> (waiting y)) (writing y)
      (world y) (sealed y ++ [(c, message, p)]) (written y)).
    set (y2 := MkSys (ob y1) (ctxs y1) (delete c (waiting y1)) (Some (c, p)) (world y1)
      (sealed y1) (written y1)).
    exists (MkSys ob1 (ctxs y2) (waiting y2) None ω1 (sealed y2) (written y2 ++ [(c, p, r1)])).
    split_and!; try done; [|by simpl; rewrite delete_insert_id].
    eapply rtc_l; [by eapply step_seal|]. fold y1.
    eapply rtc_l; [apply (step_acquire _ _ _ y1 c p)|]; [by apply lookup_insert_eq|done|].
    fold y2. apply rtc_once, step_write; [done|exact Eo].
  - destruct e; try done. intros [= <- <- <-]. exists y. split_and!; try done.
    simpl. unfold seal in Es. case_decide; [|by destruct (hpke_seal ctx message) as [[] ?]].
    simplify_eq. by apply insert_id.
Qed.
End wire.

(** ** Sealing history of one context *)

Definition messages_of (c : nat) (l : list (nat * list byte * list byte)) : list (list byte) :=
  omap (λ '(c', m, _), if decide (c' = c) then Some m else None) l.

Section history.
Context {Ω : Type} `{Env Ω, Cobs, Hpke} (max limit fuel : nat).

Lemma messages_of_snoc c l c' m p :
  messages_of c (l ++ [(c', m, p)])
  = messages_of c l ++ if decide (c' = c) then [m] else [].
Proof. unfold messages_of. rewrite omap_app. simpl. by case_decide. Qed.

Lemma messages_of_nil c l : packets_of c l = [] → messages_of c l = [].
Proof.
  induction l as [|[[c' m] p] l IH]; [done|]. unfold packets_of, messages_of in *. simpl.
  by case_decide.
Qed.

(** The context has sealed the messages of the history, from its first state. *)
Definition sealed_from (c : nat) (ctx0 : SealCtx) (y : sys (Ω:=Ω)) : Prop :=
  ∃ ctx, ctxs y !! c = Some ctx
    ∧ seal_all limit ctx0 (messages_of c (sealed y)) = (Ok <$> packets_of c (sealed y), ctx).

Lemma sealed_from_step c ctx0 y y' :
  sealed_from c ctx0 y → step max limit fuel y y' → sealed_from c ctx0 y'.
Proof.
  intros (ctx & Hc & Hall) Hs.
  destruct Hs as [y c' ctx' _ Hnone|y c' ctx1 ctx2 m p Hc' _ Hseal| | | |];
    try (by exists ctx); simpl.
  - exists ctx. simpl. rewrite lookup_insert_ne by congruence. done.
  - unfold sealed_from. simpl. rewrite messages_of_snoc, packets_of_snoc, fmap_app.
    destruct (decide (c' = c)) as [->|Hne].
    + assert (ctx1 = ctx) as -> by congruence. exists ctx2.
      rewrite lookup_insert_eq. split; [done|]. by eapply seal_all_snoc.
    + exists ctx. rewrite lookup_insert_ne by done. by rewrite !app_nil_r.
Qed.

Lemma sealed_from_reachable c ctx0 y y' :
  sealed_from c ctx0 y → rtc (step max limit fuel) y y' → sealed_from c ctx0 y'.
Proof. intros Hi Hr. induction Hr; eauto using sealed_from_step. Qed.
End history.

(** ** What concurrent sending guarantees *)

(** C16: Wire order is sealing order. However threads interleave their sends,
    with resets, session ends and replacements between them, the complete
    writes appear on the wire whole and in the order they happened, and for
    each session they are exactly the first packets it sealed: none skipped,
    repeated or reordered, so the peer's sequence never has a gap before the
    session's end. *)
Theorem wire_follows_sealing_order {Ω : Type} `{EnvLaws Ω, CobsLaws, Hpke}
    (max limit fuel : nat) (side : Outbound.Side) (timeout : Duration) (ω0 : Ω) (y : sys) :
  0 < max → rtc (step max limit fuel) (start max side timeout ω0) y →
  (∃ bs, tx (world y) = tx ω0 ++ bs
    ∧ sublist (frames_written max (written y)) (scan max at_boundary bs).2)
  ∧ ∀ c, sent_of c (written y) `prefix_of` packets_of c (sealed y).
Proof.
  intros Hm Hr. split.
  - destruct (wire_inv_reachable max limit fuel Hm side timeout ω0 y Hr) as (bs & ? & _ & ?).
    by exists bs.
  - apply (inv_reachable max limit fuel side timeout ω0 y Hr).
Qed.

(** A schedule of the machine's steps, run. *)
Inductive act `{Hpke} :=
  | ABind (c : nat) (ctx : SealCtx)
  | ASeal (c : nat) (message : list byte)
  | AAcquire (c : nat)
  | AWrite
  | AOther (o : Outbound.Op).

Section schedule.
Context {Ω : Type} `{Env Ω, Cobs, Hpke} (max limit fuel : nat).

Definition act_step (a : act) (y : sys (Ω:=Ω)) : option sys :=
  match a with
  | ABind c ctx =>
      match writing y, ctxs y !! c with
      | None, None =>
          Some (MkSys (Outbound.bind c (ob y)) (<[c:=ctx]> (ctxs y)) (waiting y) None
                  (world y) (sealed y) (written y))
      | _, _ => None
      end
  | ASeal c message =>
      match ctxs y !! c, waiting y !! c with
      | Some ctx, None =>
          match seal limit ctx message with
          | (Ok packet, ctx') =>
              Some (MkSys (ob y) (<[c:=ctx']> (ctxs y)) (<[c:=packet]> (waiting y))
                      (writing y) (world y) (sealed y ++ [(c, message, packet)]) (written y))
          | _ => None
          end
      | _, _ => None
      end
  | AAcquire c =>
      match waiting y !! c, writing y with
      | Some packet, None =>
          Some (MkSys (ob y) (ctxs y) (delete c (waiting y)) (Some (c, packet))
                  (world y) (sealed y) (written y))
      | _, _ => None
      end
  | AWrite =>
      match writing y with
      | Some (c, packet) =>
          match Outbound.send max fuel c packet (ob y) (world y) with
          | Ret ((r, ob'), ω') =>
              Some (MkSys ob' (ctxs y) (waiting y) None ω' (sealed y)
                      (written y ++ [(c, packet, r)]))
          | _ => None
          end
      | None => None
      end
  | AOther o =>
      match writing y, other o, Outbound.run max fuel o (ob y) (world y) with
      | None, true, Ret ((_, ob'), ω') =>
          Some (MkSys ob' (ctxs y) (waiting y) None ω' (sealed y) (written y))
      | _, _, _ => None
      end
  end.

Fixpoint schedule (acts : list act) (y : sys) : option sys :=
  match acts with
  | [] => Some y
  | a :: acts => match act_step a y with Some y => schedule acts y | None => None end
  end.

Lemma schedule_sound acts y y' :
  schedule acts y = Some y' → rtc (step max limit fuel) y y'.
Proof.
  revert y. induction acts as [|a acts IH]; intros y; simpl; [by intros [= <-]|].
  destruct (act_step a y) as [y1|] eqn:Ea; [|done]. intros Hs%IH.
  eapply rtc_l; [|done]. clear IH Hs.
  destruct a; simpl in Ea; repeat case_match; simplify_eq;
    eauto using step_bind, step_seal, step_acquire, step_write, step_other.
Qed.
End schedule.

#[local] Existing Instance Clear.hpke.

(** Two threads send into one session, the second sealing while the first
    writes; another session follows. *)
Definition two_threads : list (act (H:=Clear.hpke)) :=
  [ASeal 0 [Byte.x66]; AAcquire 0; ASeal 0 [Byte.x67]; AWrite; AAcquire 0; AWrite;
   ABind 1 (0 : nat); ASeal 0 []; ASeal 1 [Byte.x68]; AAcquire 0; AWrite; AAcquire 1; AWrite].

Definition before : sys (H1:=Clear.hpke) :=
  start 30 Outbound.Server 5 (Script.start [] [Ok 3]).

Definition bound : sys (H1:=Clear.hpke) :=
  MkSys (Outbound.bind 0 (ob before)) (<[0:=(0 : nat)]> (ctxs before)) (waiting before) None
    (world before) (sealed before) (written before).

Definition after : sys (H1:=Clear.hpke) :=
  default before (schedule 30 12 100 two_threads bound).

Lemma bound_after : rtc (step 30 12 100) bound after.
Proof. eapply (schedule_sound 30 12 100 two_threads). vm_compute. reflexivity. Qed.

Example after_sent :
  (sent_of 0 (written after), sent_of 1 (written after))
  = ([Clear.tag 0 ++ [Byte.x66]; Clear.tag 1 ++ [Byte.x67]], [Clear.tag 0 ++ [Byte.x68]]).
Proof. vm_compute. reflexivity. Qed.

Lemma wire_follows_sealing_order_witness :
  (∃ bs, tx (world after) = tx (world before) ++ bs
    ∧ sublist (frames_written 30 (written after)) (scan 30 at_boundary bs).2)
  ∧ ∀ c, sent_of c (written after) `prefix_of` packets_of c (sealed after).
Proof.
  apply (wire_follows_sealing_order 30 12 100 Outbound.Server 5); [lia|].
  eapply rtc_l; [|apply bound_after]. by apply (step_bind 30 12 100 before 0 0).
Defined.

(** The peer decrypts every delivered message. A receiver in step with a
    session's context when it was bound opens the packets completely written
    for it, in wire order, to the first messages sent into it, in the order
    they were sealed. *)
Theorem delivered_messages_open {Ω : Type} `{EnvLaws Ω, CobsLaws, HpkeLaws}
    (max limit fuel : nat) (side : Outbound.Side) (timeout : Duration) (ω0 : Ω)
    (y1 y : sys) (c : nat) (ctx0 : SealCtx) (receiver : OpenCtx) :
  rtc (step max limit fuel) (start max side timeout ω0) y1 →
  writing y1 = None → ctxs y1 !! c = None →
  rtc (step max limit fuel)
    (MkSys (Outbound.bind c (ob y1)) (<[c:=ctx0]> (ctxs y1)) (waiting y1) None
       (world y1) (sealed y1) (written y1)) y →
  in_step ctx0 receiver →
  (open_all receiver (sent_of c (written y))).1
    `prefix_of` (Ok <$> messages_of c (sealed y)).
Proof.
  intros Hr1 Hw Hc Hr Hstep. set (y2 := MkSys _ _ _ _ _ _ _) in Hr.
  assert (sealed_from limit c ctx0 y2) as Hfrom.
  { exists ctx0. split; [apply lookup_insert_eq|]. simpl.
    pose proof (inv_sealed y1 (inv_reachable _ _ _ _ _ _ _ Hr1) c Hc) as Hp.
    by rewrite Hp, (messages_of_nil _ _ Hp). }
  destruct (sealed_from_reachable _ _ _ _ _ _ _ Hfrom Hr) as (ctx & _ & Hall).
  assert (inv y) as Hinv.
  { apply (inv_reachable max limit fuel side timeout ω0). etrans; [done|].
    eapply rtc_l; [|done]. by apply step_bind. }
  destruct (inv_prefix y Hinv c) as [rest Hrest].
  pose proof (open_sealed limit _ _ _ _ _ Hstep Hall) as Hopen.
  rewrite Hrest, open_all_app in Hopen. rewrite <-Hopen. by eexists.
Qed.

Lemma delivered_messages_open_witness :
  (open_all (0 : nat) (sent_of 0 (written after))).1
    `prefix_of` (Ok <$> messages_of 0 (sealed after)).
Proof.
  apply (@delivered_messages_open Script.world Script.env Script.env_laws Reference.cobs
    Reference.cobs_laws Clear.hpke Clear.in_step Clear.hpke_laws 30 12 100 Outbound.Server 5
    (world before) before after 0 0 0); [done..|apply bound_after|done].
Defined.

(** [Sender::send] on every branch. With the limit [MAX_MESSAGE_SIZE] a
    message over it changes nothing and is refused with its size, or with the
    ended session where its own is gone; any other message either reaches the
    writer, which can then only fail in its adapter, or is refused without a
    byte written for an ended session or a released transport. *)
Theorem send_branches {Ω : Type} `{EnvLaws Ω, CobsLaws, HpkeLaws}
    (max limit fuel c : nat) (message : list byte) (sh sh' : Shared)
    (r : result unit Error) (s : scanner) (ω ω' : Ω) :
  0 < max → MAX_MESSAGE_SIZE max = Some limit →
  (∀ context, contexts sh !! c = Some context → ∃ receiver, in_step context receiver) →
  (∀ ob, outbound sh = Some ob → in_sync max (Outbound.writer ob) s) →
  send max limit fuel c message sh ω = Ret ((r, sh'), ω') →
  match outbound sh, contexts sh !! c with
  | None, _ => r = Err Terminated ∧ sh' = sh ∧ ω' = ω
  | Some _, None => r = Err Outbound.session_ended ∧ sh' = sh ∧ ω' = ω
  | Some ob, Some _ =>
      if decide (limit < length message) then
        r = (if decide (Outbound.binding ob = Some c)
             then Err (PacketTooLarge (Z.of_nat (length message)))
             else Err Outbound.session_ended)
        ∧ sh' = sh ∧ ω' = ω
      else if decide (Outbound.binding ob = Some c) then
        r = Ok tt ∨ ∃ e, r = Err (SendFailed e)
      else r = Err Outbound.session_ended ∧ outbound sh' = Some ob ∧ ω' = ω
  end.
Proof.
  intros Hm Hlim Hctx Hsync. unfold send.
  destruct (outbound sh) as [ob|] eqn:Eo; [|by intros [= <- <- <-]].
  destruct (contexts sh !! c) as [ctx|] eqn:Hc; [|by intros [= <- <- <-]].
  destruct (Hctx ctx eq_refl) as [receiver Hstep].
  destruct (seal limit ctx message) as [rs ctx'] eqn:Es.
  pose proof (open_seal_one limit _ _ _ _ _ Hstep Es) as Hone.
  destruct rs as [packet|e].
  - destruct Hone as (Hl & Hpl & _). rewrite decide_False by lia.
    unfold mbind, M_bind.
    destruct (Outbound.send _ _ _ _ _ _) as [[[r1 ob1] ω1]| |] eqn:Esend; [|done..].
    intros [= <- <- <-]. case_decide as Hb.
    + apply shrink_Some in Hlim as (_ & Hfit & _).
      eapply send_sealed_result; eauto. simpl. rewrite Hpl.
      etrans; [apply encode_buffer_mono|done]. lia.
    + unfold Outbound.send in Esend. rewrite decide_True in Esend by done.
      by injection Esend as <- <- <-.
  - destruct e; try done. destruct Hone as ([= ->] & Hl & ->).
    rewrite decide_True by done. intros [= <- <- <-]. split_and!; [| |done].
    + unfold Outbound.refuse_oversized. by rewrite Nat2Z.id.
    + rewrite (insert_id _ _ _ Hc). destruct sh. by simplify_eq/=.
Qed.

Definition one_session : Shared (H1:=Clear.hpke) :=
  MkShared (Some (Outbound.bind 0 (Outbound.new 30 Outbound.Server 5))) {[0 := 0 : nat]}.

Lemma send_branches_witness :
  (Err (PacketTooLarge 14) : result unit Error)
  = Err (PacketTooLarge (Z.of_nat (length (replicate 14 Byte.x01))))
  ∧ one_session = one_session ∧ Script.start [] [] = Script.start [] [].
Proof.
  refine (@send_branches Script.world Script.env Script.env_laws Reference.cobs
    Reference.cobs_laws Clear.hpke Clear.in_step Clear.hpke_laws 30 13 40 0
    (replicate 14 Byte.x01) one_session one_session (Err (PacketTooLarge 14)) at_boundary
    (Script.start [] []) (Script.start [] []) _ _ _ _ _);
    [lia|vm_compute; reflexivity| | |vm_compute; reflexivity].
  - intros context _. by exists context.
  - intros ob [= <-]. apply writer_new_ok.
Defined.
End Sender.
