(* ===== verification/Endpoint.v ===== *)
(** * What the client and the server of the transport share

    The part of [Client] ([transport/client.rs]) and [Server]
    ([transport/server.rs]) that both have: the frame reader, the shared output
    and the contexts of the current session, with the calls on them. *)

From S2P Require Import Prelude Closer Io Script Stream Cobs Framing Sealing Outbound.

Module Endpoint.

(** ** State *)

(** [sealer] is the allocation of the session's sending context, which names
    the session; the context itself is used by the senders only. [allocated]
    counts the allocations so far: the next one is fresh. *)
Record State `{Hpke} := MkEndpoint {
  reader : FrameReader;
  outbound : Outbound.State;
  receiver : option OpenCtx;
  sealer : option nat;
  allocated : nat;
}.
Arguments State {_}.

(** What a new [Sender] leads to: the allocation of its context, and the context
    as negotiated. *)
Abbreviation handle := (nat * SealCtx)%type.

Section endpoint.
Context {Ω : Type} `{Env Ω, Cobs, Hpke} (max fuel : nat).

Definition set_reader (fr : FrameReader) (ep : State) : State :=
  MkEndpoint _ fr (outbound ep) (receiver ep) (sealer ep) (allocated ep).

Definition set_outbound (ob : Outbound.State) (ep : State) : State :=
  MkEndpoint _ (reader ep) ob (receiver ep) (sealer ep) (allocated ep).

Definition set_receiver (rc : OpenCtx) (ep : State) : State :=
  MkEndpoint _ (reader ep) (outbound ep) (Some rc) (sealer ep) (allocated ep).

(** Both contexts released, the binding left as it is. *)
Definition release (ep : State) : State :=
  MkEndpoint _ (reader ep) (outbound ep) None None (allocated ep).

(** A new endpoint over a stream with the write timeout [timeout]. *)
Definition new (side : Outbound.Side) (timeout : Duration) : State :=
  MkEndpoint _ (reader_new max) (Outbound.new max side timeout) None None 0.

(** [new_session] *)
Definition new_session (sender : SealCtx) (receiver : OpenCtx) (ep : State) :
  handle * State :=
  let sealer := allocated ep in
  ((sealer, sender),
   MkEndpoint _ (reader ep) (Outbound.bind sealer (outbound ep)) (Some receiver)
     (Some sealer) (S sealer)).

(** [end_session]: whether it removed a receive context. *)
Definition end_session (ep : State) : bool * State :=
  let ob := match sealer ep with
            | Some sealer => (Outbound.end_ sealer (outbound ep)).2
            | None => outbound ep
            end in
  (bool_decide (is_Some (receiver ep)), release (set_outbound ob ep)).

(** [self.reader.next_packet(deadline)] *)
Definition next_packet (deadline : option Instant) (ep : State) :
  M Ω (result (option (list byte)) Error * State) :=
  '(r, fr) ← Framing.next_packet max fuel deadline (reader ep);
  mret (r, set_reader fr ep).

(** A call on [self.outbound]. *)
Definition output (o : Outbound.Op) (ep : State) : M Ω (result unit Error * State) :=
  '(r, ob) ← Outbound.run max fuel o (outbound ep);
  mret (r, set_outbound ob ep).

(** What other threads do through senders while this one waits. *)
Definition interfere (others : list Outbound.Op) (ep : State) : M Ω State :=
  '(_, ob) ← Outbound.run_all max fuel others (outbound ep);
  mret (set_outbound ob ep).

(** Opening a packet of the session: [sealing::open] and
    [Outbound::finish_receive]. *)
Definition open_packet (rc : OpenCtx) (packet : list byte) (ep : State) :
  M Ω (result (list byte) Error * State) :=
  sealer ← expect (sealer ep);
  let '(opened, rc) := open rc packet in
  mret (Outbound.finish_receive sealer opened (outbound ep), set_receiver rc ep).
End endpoint.

(** The calls a [Sender] makes on the output. *)
Definition through_sender (o : Outbound.Op) : bool :=
  match o with Outbound.OpSend _ _ | Outbound.OpDisconnect _ => true | _ => false end.

(** ** Invariant *)

(** A session has both contexts or none; the output is bound to the session or,
    where that has failed, to none; allocations are fresh. *)
Record session_ok `{Hpke} (ep : State) : Prop := MkSessionOk {
  ok_contexts : is_Some (receiver ep) ↔ is_Some (sealer ep);
  ok_binding c : Outbound.binding (outbound ep) = Some c → sealer ep = Some c;
  ok_allocated c : sealer ep = Some c → c < allocated ep;
}.

(** The reader's cursors are in order, and a peer that scans the output stands
    at [s]. *)
Record io_ok `{Hpke} (max : nat) (ep : State) (s : scanner) : Prop := MkIoOk {
  ok_reader : reader_ok max (reader ep);
  ok_writer : in_sync max (Outbound.writer (outbound ep)) s;
}.

(** No session, and no sender can use the output. *)
Definition no_session `{Hpke} (ep : State) : Prop :=
  receiver ep = None ∧ sealer ep = None ∧ Outbound.binding (outbound ep) = None.

#[export] Hint Resolve ok_reader ok_writer ok_contexts ok_binding : wire.

(** ** Lemmas *)

Section sessions.
Context `{Hpke}.

Lemma no_session_ok ep : no_session ep → session_ok ep.
Proof.
  intros (Hr & Hs & Hb). split; rewrite ?Hr, ?Hs, ?Hb; [|done..].
  by split; intros [? ?].
Qed.

Lemma new_session_ok sender rc ep : session_ok (new_session sender rc ep).2.
Proof. split; simpl; [by split; eauto|by intros c [= ->]|intros c [= <-]; lia]. Qed.

(** Ending leaves nothing behind. *)
Lemma end_session_none ep : session_ok ep → no_session (end_session ep).2.
Proof.
  intros [Hc Hb _]. split_and!; [done..|]. simpl. unfold Outbound.end_.
  destruct (sealer ep) as [c|] eqn:Es.
  - destruct (Outbound.binding (outbound ep)) as [c'|] eqn:Eb.
    + pose proof (Hb c' eq_refl) as [= <-]. by rewrite decide_True.
    + by rewrite decide_False.
  - destruct (Outbound.binding (outbound ep)) as [c'|] eqn:Eb; [|done].
    by pose proof (Hb c' eq_refl).
Qed.

Lemma end_session_writer ep :
  Outbound.writer (outbound (end_session ep).2) = Outbound.writer (outbound ep)
  ∧ Outbound.side (outbound (end_session ep).2) = Outbound.side (outbound ep)
  ∧ Outbound.timeout (outbound (end_session ep).2) = Outbound.timeout (outbound ep).
Proof.
  simpl. unfold Outbound.end_. destruct (sealer ep); [|done]. by case_decide.
Qed.

Lemma session_none_iff ep : session_ok ep → receiver ep = None → no_session ep.
Proof.
  intros [Hc Hb _] Hr. assert (sealer ep = None) as Hs.
  { destruct (sealer ep); [|done]. rewrite Hr in Hc. destruct Hc as [_ [? ?]]; eauto; done. }
  split_and!; [done..|]. destruct (Outbound.binding _) as [c|] eqn:E; [|done].
  specialize (Hb c eq_refl). congruence.
Qed.
End sessions.

(** ** What an endpoint reads and writes *)

Section moves.
Context {Ω : Type} `{EnvLaws Ω, Cobs, Hpke} (max : nat).

(** From [ep] in [ω] to [ep'] in [ω'] the reader took the wire events [evs], and
    a peer scanning the output from [s] saw [sent] and stands at [s']. *)
Definition moves (ep : State) (s : scanner) (ω : Ω) (evs sent : list event)
    (ep' : State) (s' : scanner) (ω' : Ω) : Prop :=
  ∃ bs out, rx ω' = rx ω ++ bs ∧ tx ω' = tx ω ++ out
    ∧ (∀ more, ahead max (reader ep) (bs ++ more)
               = report evs (ahead max (reader ep') more))
    ∧ scan max s out = (s', sent).

Lemma moves_refl ep ep' s ω ω' :
  rx ω' = rx ω → tx ω' = tx ω → reader ep' = reader ep → moves ep s ω [] [] ep' s ω'.
Proof.
  intros Hr Ht He. exists [], []. rewrite !app_nil_r, He. split_and!; try done.
  intros more. unfold report. simpl. by destruct (ahead max _ more).
Qed.

Lemma moves_quiet ep s ω ω' : quiet ω ω' → moves ep s ω [] [] ep s ω'.
Proof. intros (?&?&_). by apply moves_refl. Qed.

Lemma moves_trans ep ep1 ep2 s s1 s2 ω ω1 ω2 evs evs' sent sent' :
  moves ep s ω evs sent ep1 s1 ω1 → moves ep1 s1 ω1 evs' sent' ep2 s2 ω2 →
  moves ep s ω (evs ++ evs') (sent ++ sent') ep2 s2 ω2.
Proof.
  intros (bs & out & Hr & Ht & Ha & Hs) (bs' & out' & Hr' & Ht' & Ha' & Hs').
  exists (bs ++ bs'), (out ++ out'). split_and!.
  - by rewrite Hr', Hr, app_assoc.
  - by rewrite Ht', Ht, app_assoc.
  - intros more. rewrite <-app_assoc, Ha, Ha'. unfold report. simpl. by rewrite app_assoc.
  - rewrite scan_app, Hs. simpl. by rewrite Hs'.
Qed.

(** Steps that move nothing, before and after. *)
Lemma moves_before ep ep1 ep2 s s2 ω ω1 ω2 evs sent :
  moves ep s ω [] [] ep1 s ω1 → moves ep1 s ω1 evs sent ep2 s2 ω2 →
  moves ep s ω evs sent ep2 s2 ω2.
Proof. intros Ha Hb. by apply (moves_trans _ _ _ _ _ _ _ _ _ [] evs [] sent Ha Hb). Qed.

Lemma moves_reader ep ep1 ep' ep1' s s' ω ω' evs sent :
  reader ep1 = reader ep → reader ep1' = reader ep' →
  moves ep s ω evs sent ep' s' ω' → moves ep1 s ω evs sent ep1' s' ω'.
Proof. unfold moves. by intros -> ->. Qed.
End moves.

(** ** The calls, with the fuel the adapters' budget asks for *)

(** What the result of a read says of the events it took. *)
Definition says `{Cobs} (max : nat) (r : result (option (list byte)) Error)
    (evs : list event) : Prop :=
  match r with
  | Err (RecvFailed _) | Err Terminated => evs = []
  | _ => ∃ ev, evs = [ev] ∧ r = meaning max ev
  end.

(** The results of a read, by whether they took an event. *)
Lemma says_cases `{Cobs} max r evs :
  says max r evs →
  (∃ ev, evs = [ev] ∧ r = meaning max ev
    ∧ match r with
      | Ok _ | Err (FrameTooLarge _) | Err (FrameDecodingFailed _) => True
      | Err _ => False
      end)
  ∨ evs = [] ∧ ((∃ k, r = Err (RecvFailed k)) ∨ r = Err Terminated).
Proof.
  assert (∀ ev, match meaning max ev with
    | Ok _ | Err (FrameTooLarge _) | Err (FrameDecodingFailed _) => True
    | Err _ => False
    end) as Hm.
  { intros ev. unfold meaning. repeat case_match; naive_solver. }
  assert (∀ ev, r = meaning max ev → match r with
    | Ok _ | Err (FrameTooLarge _) | Err (FrameDecodingFailed _) => True
    | Err _ => False
    end) as Hm' by (intros ev ->; apply Hm).
  unfold says. intros Hs. destruct r as [o|[]]; simpl in *;
    try (destruct Hs as (ev & ? & Hr); specialize (Hm' ev Hr)); try done; eauto 10.
Qed.

Section calls.
Context {Ω : Type} `{EnvLaws Ω, CobsLaws, Hpke} (max fuel : nat) (Hmax : 0 < max).
Context (budget : Ω → nat) `{!EnvBudget Ω budget}.

Abbreviation moves := (moves max).
Abbreviation io_ok := (io_ok max).
Abbreviation unread := (unread max budget).

Definition enough (ep : State) (ω : Ω) : Prop := max + 2 + unread (reader ep) ω < fuel.

Lemma enough_le ep ω ep' ω' :
  enough ep ω → unread (reader ep') ω' ≤ unread (reader ep) ω → enough ep' ω'.
Proof. unfold enough. lia. Qed.

Lemma unread_budget fr ω ω' : budget ω' ≤ budget ω → unread fr ω' ≤ unread fr ω.
Proof. unfold Framing.unread. nia. Qed.

Lemma budget_unread fr ω : budget ω ≤ unread fr ω.
Proof. unfold Framing.unread. nia. Qed.

Lemma endpoint_next_packet_wp deadline ep s ω :
  io_ok ep s → enough ep ω →
  tpost (next_packet max fuel deadline ep) ω (λ p ω', ∃ evs fr',
    p.2 = set_reader fr' ep ∧ io_ok p.2 s ∧ moves ep s ω evs [] p.2 s ω'
    ∧ unread fr' ω' + length evs ≤ unread (reader ep) ω ∧ says max p.1 evs).
Proof.
  intros [Hr Hw] Hf. unfold next_packet. post_step.
  pose proof (budget_unread (reader ep) ω) as Hb. unfold enough in Hf.
  eapply wp_mono; [apply (Framing.next_packet_wp max False); [|done];
    apply (next_frame_unread max budget); [done|destruct (discard _); simpl; lia]|].
  intros [r fr'] ω' [(bs & evs & [Ht Hrx] & Hok & Ha & Hev) (r' & [_ Hu] & _ & Hre)].
  simpl in *. post_step. exists evs, fr'. simpl. rewrite filter_cons in Hev.
  unfold consumed in Hu. rewrite Hre in Hu. split_and!; [done|by split| | |].
  - exists bs, []. rewrite app_nil_r. by split_and!.
  - destruct (reports_event r);
      [rewrite decide_True in Hev by done|rewrite decide_False in Hev by done];
      destruct evs as [|? [|]]; simplify_eq/=; lia.
  - unfold says. destruct (reports_event r) eqn:Er;
      [rewrite decide_True in Hev by done|rewrite decide_False in Hev by done];
      destruct evs as [|ev [|]]; simplify_eq/=; repeat case_match; naive_solver.
Qed.

(** A call on the output. *)
Lemma output_wp o ep s ω :
  io_ok ep s → enough ep ω →
  tpost (output max fuel o ep) ω (λ p ω', ∃ ob' sent s',
    p.2 = set_outbound ob' ep ∧ io_ok p.2 s' ∧ moves ep s ω [] sent p.2 s' ω'
    ∧ unread (reader ep) ω' ≤ unread (reader ep) ω
    ∧ Outbound.side ob' = Outbound.side (outbound ep)
    ∧ Outbound.timeout ob' = Outbound.timeout (outbound ep)
    ∧ Outbound.binding ob' = Outbound.next_binding o (Outbound.binding (outbound ep)) p.1
    ∧ (p.1 = Ok tt → ∃ pre, sent = pre ++ Outbound.signals max o (outbound ep))).
Proof.
  intros [Hr Hw] Hf. unfold output. post_step.
  pose proof (budget_unread (reader ep) ω) as Hb. unfold enough in Hf.
  eapply wp_mono; [apply (Outbound.run_wp max fuel Hmax False
    (λ ω1, budget ω1 ≤ budget ω)) with (s := s); [| |done..]|].
  - intros out dl ω1 Hout Hb1. eapply wp_mono; [apply (write_half_total budget); lia|].
    intros r ω' Hb'. simpl in Hb'. pose proof (budget_clock ω'). lia.
  - intros ω1 Hb1. pose proof (budget_clock ω1). lia.
  - intros [r ob'] ω' [(Ht & Hsd & Hbd & bs & [Hrx Htx] & Hsync & Hok & _) Hb']. post_step.
    destruct (scan max s bs) as [s' sent] eqn:Es. exists ob', sent, s'. simpl in *.
    split_and!; try done; [|by apply unread_budget].
    exists [], bs. rewrite app_nil_r. split_and!; try done.
    intros more. simpl. unfold report. simpl. by destruct (ahead _ _ more).
Qed.

(** A step outside the stream: no bytes move and the budget does not grow. *)
Definition still (ω ω' : Ω) : Prop := quiet ω ω' ∧ budget ω' ≤ budget ω.

#[global] Instance still_refl : Reflexive still.
Proof. by split. Qed.

#[global] Instance still_trans : Transitive still.
Proof. intros ω ω1 ω2 [? Hb] [? Hb']. split; [by etrans|]. exact (Nat.le_trans _ _ _ Hb' Hb). Qed.

Lemma still_clock ω : still ω (clock_now ω).2.
Proof. split; [apply clock_now_law|apply budget_clock]. Qed.

Lemma still_moves ep s ω ω' : still ω ω' → moves ep s ω [] [] ep s ω'.
Proof. intros [Hq _]. by apply moves_quiet. Qed.

Lemma still_unread fr ω ω' : still ω ω' → unread fr ω' ≤ unread fr ω.
Proof. intros [_ Hb]. by apply unread_budget. Qed.

Lemma still_enough ep ω ω' : still ω ω' → enough ep ω → enough ep ω'.
Proof. intros Hs He. eapply enough_le; [done|]. by apply still_unread. Qed.

(** Other threads can do no more to the endpoint than end its session. *)
Lemma interfere_wp others ep s ω :
  io_ok ep s → enough ep ω → Forall (λ o, through_sender o = true) others →
  tpost (interfere max fuel others ep) ω (λ ep' ω', ∃ ob' sent s',
    ep' = set_outbound ob' ep ∧ io_ok ep' s' ∧ moves ep s ω [] sent ep' s' ω'
    ∧ unread (reader ep) ω' ≤ unread (reader ep) ω
    ∧ Outbound.side ob' = Outbound.side (outbound ep)
    ∧ Outbound.timeout ob' = Outbound.timeout (outbound ep)
    ∧ (Outbound.binding ob' = Outbound.binding (outbound ep)
       ∨ others ≠ [] ∧ Outbound.binding ob' = None)).
Proof.
  revert ep s ω. induction others as [|o os IH]; intros ep s ω Hok Hf Hall.
  { unfold interfere. simpl. post_steps. exists (outbound ep), [], s. split_and!; auto.
    - by destruct ep.
    - by apply moves_refl. }
  apply Forall_cons in Hall as [Ho Hall].
  pose proof (output_wp o ep s ω Hok Hf) as Hout. unfold output, wp, mbind, M_bind in Hout.
  unfold interfere. simpl. post_steps. unfold wp at 1.
  destruct (Outbound.run max fuel o (outbound ep) ω) as [[[r ob1] ω1]| |] eqn:Er; [|done..].
  destruct Hout as (ob' & sent & s1 & He & Hok1 & Hmv & Hu & Hsd & Ht & Hb & _).
  cbn [fst snd] in *. assert (ob1 = ob') as -> by by injection He.
  post_step. specialize (IH (set_outbound ob' ep) s1 ω1 Hok1).
  unfold interfere in IH. cbn [outbound set_outbound] in IH.
  assert (enough (set_outbound ob' ep) ω1) as Hf1 by (by eapply enough_le).
  specialize (IH Hf1 Hall). unfold wp, mbind, M_bind in *.
  destruct (Outbound.run_all max fuel os ob' ω1) as [[[rs ob2] ω2]| |]; [|done..].
  destruct IH as (ob3 & sent' & s2 & He2 & Hok2 & Hmv2 & Hu2 & Hsd2 & Ht2 & Hb2).
  cbn in He2 |- *. assert (ob2 = ob3) as -> by by injection He2.
  exists ob3, (sent ++ sent'), s2. split_and!; try done; try congruence.
  - by apply (moves_trans max _ _ _ _ _ _ _ _ _ [] [] sent sent' Hmv Hmv2).
  - cbn in Hu2. lia.
  - assert (Outbound.binding ob' = Outbound.binding (outbound ep)
      ∨ Outbound.binding ob' = None) as Hb1.
    { rewrite Hb. destruct o; simpl in Ho |- *; try done; repeat case_match; auto. }
    cbn in Hb2. destruct Hb1 as [Hb1|Hb1], Hb2 as [Hb2|[_ Hb2]];
      rewrite Hb2, ?Hb1; auto.
Qed.

(** ** Steps without a session *)

(** From [ep] in [ω] the endpoint reached [ep'] in [ω'] and has no session, with
    [evs] read and [sent] written in between. *)
Record idles (ep : State) (s : scanner) (ω : Ω) (evs sent : list event)
    (ep' : State) (s' : scanner) (ω' : Ω) : Prop := MkIdles {
  idle_moves : moves ep s ω evs sent ep' s' ω';
  idle_io : io_ok ep' s';
  idle_none : no_session ep';
  idle_allocated : allocated ep' = allocated ep;
  idle_side : Outbound.side (outbound ep') = Outbound.side (outbound ep);
  idle_unread : unread (reader ep') ω' ≤ unread (reader ep) ω;
}.

Lemma idles_trans ep s ω evs sent ep1 s1 ω1 evs' sent' ep2 s2 ω2 :
  idles ep s ω evs sent ep1 s1 ω1 → idles ep1 s1 ω1 evs' sent' ep2 s2 ω2 →
  idles ep s ω (evs ++ evs') (sent ++ sent') ep2 s2 ω2.
Proof.
  intros [] []. split; try done; [by eapply moves_trans|congruence..|lia].
Qed.

(** Steps of a session before it went idle. *)
Lemma idles_before ep s ω evs sent ep1 s1 ω1 evs' sent' ep2 s2 ω2 :
  moves ep s ω evs sent ep1 s1 ω1 → allocated ep1 = allocated ep →
  Outbound.side (outbound ep1) = Outbound.side (outbound ep) →
  unread (reader ep1) ω1 ≤ unread (reader ep) ω →
  idles ep1 s1 ω1 evs' sent' ep2 s2 ω2 →
  idles ep s ω (evs ++ evs') (sent ++ sent') ep2 s2 ω2.
Proof.
  intros Hmv Hal Hsd Hu []. split; try done; [by eapply moves_trans|congruence..|lia].
Qed.

Lemma idles_refl ep s ω : io_ok ep s → no_session ep → idles ep s ω [] [] ep s ω.
Proof. intros. split; try done. by apply moves_refl. Qed.

Lemma idles_enough ep s ω evs sent ep' s' ω' :
  idles ep s ω evs sent ep' s' ω' → enough ep ω → enough ep' ω'.
Proof. intros [] ?. by eapply enough_le. Qed.

Lemma idles_still ep s ω evs sent ep' s' ω1 ω' :
  idles ep s ω evs sent ep' s' ω1 → still ω1 ω' → idles ep s ω evs sent ep' s' ω'.
Proof.
  intros Hi Hst. rewrite <-(app_nil_r evs), <-(app_nil_r sent).
  eapply idles_trans; [exact Hi|]. destruct Hi.
  split; try done; [by apply still_moves|by apply still_unread].
Qed.

Lemma idles_release ep s ω evs sent ep' s' ω' :
  idles (release ep) s ω evs sent ep' s' ω' → idles ep s ω evs sent ep' s' ω'.
Proof. intros []. by split. Qed.

Lemma release_io ep s : io_ok ep s → io_ok (release ep) s.
Proof. by intros []. Qed.

(** Ending a session moves nothing. *)
Lemma end_session_idles ep s ω :
  session_ok ep → io_ok ep s → idles ep s ω [] [] (end_session ep).2 s ω.
Proof.
  intros Hses [Hr Hw]. destruct (end_session_writer ep) as (Ew & Es & _).
  split; try done; [by apply moves_refl| |by apply end_session_none].
  split; [done|]. by rewrite Ew.
Qed.

(** A frame sent while no session is bound, or that ends the binding. *)
Lemma output_idles o ep s ω :
  receiver ep = None → sealer ep = None →
  (∀ r, Outbound.next_binding o (Outbound.binding (outbound ep)) r = None) →
  io_ok ep s → enough ep ω →
  tpost (output max fuel o ep) ω (λ p ω', ∃ sent s', idles ep s ω [] sent p.2 s' ω'
    ∧ (p.1 = Ok tt → ∃ pre, sent = pre ++ Outbound.signals max o (outbound ep))).
Proof.
  intros Hrc Hse Hnone Hok Hf. eapply wp_mono; [by apply output_wp|].
  intros [r ep'] ω' (ob' & sent & s' & He & Hok' & Hmv & Hu & Hsd & _ & Hb & Hs).
  cbn in He. subst ep'. exists sent, s'. split; [|done]. split; try done.
  split_and!; try done. simpl. by rewrite Hb.
Qed.

Lemma send_packet_idles packet limit ep s ω :
  no_session ep → io_ok ep s → enough ep ω →
  tpost (output max fuel (Outbound.OpSendPacket packet limit) ep) ω (λ p ω', ∃ sent s',
    idles ep s ω [] sent p.2 s' ω'
    ∧ (p.1 = Ok tt → ∃ pre, sent = pre ++ [EFrame (body_of max (OpPacket packet))])).
Proof. intros (?&?&?) Hok Hf. by apply output_idles. Qed.

Lemma next_packet_idles deadline ep s ω :
  no_session ep → io_ok ep s → enough ep ω →
  tpost (next_packet max fuel deadline ep) ω (λ p ω', ∃ evs,
    idles ep s ω evs [] p.2 s ω'
    ∧ unread (reader p.2) ω' + length evs ≤ unread (reader ep) ω ∧ says max p.1 evs).
Proof.
  intros Hno Hok Hf. eapply wp_mono; [by apply endpoint_next_packet_wp|].
  intros [r ep'] ω' (evs & fr' & He & Hok' & Hmv & Hu & Hsays). cbn in He. subst ep'.
  exists evs. split; [|done]. split; try done. simpl. lia.
Qed.

(** From [ep] in [ω] the reader took [evs], writing nothing; then the senders' calls
    [others] ran and a peer saw [sent] of them. *)
Definition receives (others : list Outbound.Op) (ep : State) (s : scanner) (ω : Ω)
    (evs sent : list event) (ep' : State) (s' : scanner) (ω' : Ω) : Prop :=
  ∃ fr ω0, moves ep s ω evs [] (set_reader fr ep) s ω0
    ∧ interfere max fuel others (set_reader fr ep) ω0 = Ret (ep', ω')
    ∧ moves (set_reader fr ep) s ω0 [] sent ep' s' ω'.

(** Reading a packet of a session while other threads send and end it. *)
Lemma receive_wp {A} (others : list Outbound.Op) deadline ep s ω
    (k : result (option (list byte)) Error → State → M Ω A) (Q : A → Ω → Prop) :
  session_ok ep → io_ok ep s → enough ep ω →
  Forall (λ o, through_sender o = true) others →
  (∀ r ep' ω' evs sent s',
    says max r evs → moves ep s ω evs sent ep' s' ω' → io_ok ep' s' → session_ok ep' →
    unread (reader ep') ω' + length evs ≤ unread (reader ep) ω →
    receiver ep' = receiver ep → sealer ep' = sealer ep → allocated ep' = allocated ep →
    Outbound.side (outbound ep') = Outbound.side (outbound ep) →
    (Outbound.binding (outbound ep') = Outbound.binding (outbound ep)
     ∨ others ≠ [] ∧ Outbound.binding (outbound ep') = None) →
    receives others ep s ω evs sent ep' s' ω' →
    tpost (k r ep') ω' Q) →
  tpost ('(r, ep) ← next_packet max fuel deadline ep;
         ep ← interfere max fuel others ep;
         k r ep) ω Q.
Proof.
  intros Hses Hok Hf Hall HQ. post_step. eapply wp_mono; [by apply endpoint_next_packet_wp|].
  intros [r ep1] ω1 (evs & fr1 & He & Hok1 & Hmv1 & Hu1 & Hsays). cbn in He. subst ep1.
  cbn [fst snd] in *. post_step.
  eapply wp_mono; [apply wp_run, interfere_wp; [exact Hok1| |done]|].
  { eapply enough_le; [done|]. simpl. lia. }
  intros ep2 ω2 [Hrun (ob2 & sent & s2 & -> & Hok2 & Hmv2 & Hu2 & Hsd & _ & Hb)].
  cbn in Hu2, Hsd, Hb.
  pose proof (moves_trans max _ _ _ _ _ _ _ _ _ _ _ _ _ Hmv1 Hmv2) as Hmv.
  rewrite app_nil_r in Hmv. destruct Hses as [Hc Hbd Ha].
  apply HQ with evs sent s2; try done; [|simpl in *; lia|by exists fr1, ω1].
  split; [done| |done]. intros c Hb'. cbn in Hb' |- *. apply Hbd.
  destruct Hb as [Hb|[_ Hb]]; congruence.
Qed.
End calls.

#[global] Arguments idles_trans {_ _ _ _} Hmax {_ _ _ _ _ _ _ _ _ _ _ _ _ _} _ _.
#[global] Arguments idles_before {_ _ _ _} Hmax {_ _ _ _ _ _ _ _ _ _ _ _ _ _} _ _ _ _ _.
#[global] Arguments idles_still {_ _ _ _} Hmax {_ _ _ _ _ _ _ _ _ _} _ _.
#[global] Arguments idles_enough {_ _ _ _ _} Hmax {_ _ _ _ _ _ _ _ _} _ _.
#[global] Arguments idle_unread {_ _ _ _ _ _ _ _ _ _ _ _ _} _.
End Endpoint.
