(* ===== verification/Handshake.v ===== *)
(** * The handshake's messages, keys and trust ([transport/handshake.rs])

    The messages and their authenticated data, the [darkbio-crypto] and
    [darkbio-trust] crates as an interface with the behaviour the transport
    relies on, the device attestation and the policies that accept one. *)

From Stdlib Require Import Strings.Byte.
From S2P Require Import Prelude Closer Io Script Stream Cobs Framing Sealing Outbound Endpoint.

(** ** Keys *)

(** [xdsa] and [xhpke] keys; the fingerprint of an encryption key; the
    randomness of one encapsulation, signature or encryption. *)
Class Keys := {
  xdsa_SecretKey : Type;
  xdsa_PublicKey : Type;
  xhpke_SecretKey : Type;
  xhpke_PublicKey : Type;
  Fingerprint : Type;
  Fingerprint_eq_dec :: EqDecision Fingerprint;
  Seed : Type;
  xdsa_public_key : xdsa_SecretKey → xdsa_PublicKey;
  xhpke_public_key : xhpke_SecretKey → xhpke_PublicKey;
  fingerprint : xhpke_PublicKey → Fingerprint;
}.

(** ** Messages *)

Section messages.
Context `{Keys}.

Record HostHello := MkHostHello {
  host_signer : xdsa_PublicKey;
  host_crypto : xhpke_PublicKey;
}.

Record ArkHello := MkArkHello {
  ark_attest : list byte;
  ark_crypto : xhpke_PublicKey;
  a2h_encap : list byte;
}.

Record ArkHelloAuth := MkArkHelloAuth {
  auth_host_signer : xdsa_PublicKey;
  auth_host_crypto : xhpke_PublicKey;
}.

Record HostAck := MkHostAck {
  h2a_encap : list byte;
}.

Record HostAckAuth := MkHostAckAuth {
  auth_ark_signer : xdsa_PublicKey;
  auth_ark_crypto : xhpke_PublicKey;
}.
End messages.

(** ** Domain separators ([transport/mod.rs]) *)

Definition bytes_of (s : string) : list byte := String.list_byte_of_string s.

Definition CRYPTO_DOMAIN_WIRE : list byte := bytes_of "wire-v1".
Definition CRYPTO_DOMAIN_WIRE_ARK_TO_HOST : list byte := bytes_of "wire-v1:ark-to-host".
Definition CRYPTO_DOMAIN_WIRE_HOST_TO_ARK : list byte := bytes_of "wire-v1:host-to-ark".

(** ** The cryptographic crates *)

(** [cbor::encode] and [cbor::decode] of one message type, as derived. *)
Class Cbor (T : Type) := {
  cbor_encode : T → result (list byte) string;
  cbor_decode : list byte → result T string;
}.

Class CborLaws (T : Type) `{Cbor T} : Prop :=
  decode_encode (x : T) p : cbor_encode x = Ok p → cbor_decode p = Ok x.

Class Messages `{Keys} := {
  HostHello_cbor :: Cbor HostHello;
  ArkHello_cbor :: Cbor ArkHello;
  ArkHelloAuth_cbor :: Cbor ArkHelloAuth;
  HostAck_cbor :: Cbor HostAck;
  HostAckAuth_cbor :: Cbor HostAckAuth;
}.

Class MessagesLaws `{Messages} : Prop := {
  HostHello_laws :: CborLaws HostHello;
  ArkHello_laws :: CborLaws ArkHello;
  HostAck_laws :: CborLaws HostAck;
}.

(** [cose::Padding]: the one the handshake uses. *)
Inductive Padding := PaddingNone.

(** [cose], [xhpke] context setup, and the claim shapes [cwt::peek] finds. The
    verifying calls are given no drift limit. *)
Class Crypto `{Keys} := {
  crypto_hpke :: Hpke;
  ENCAP_KEY_SIZE : nat;
  new_sender : xhpke_PublicKey → list byte → Seed → result (SealCtx * list byte) string;
  new_receiver : xhpke_SecretKey → list byte → list byte → result OpenCtx string;
  seal_at {P A : Type} `{Cbor P, Cbor A} :
    P → A → xdsa_SecretKey → xhpke_PublicKey → list byte → Padding → Z → Seed →
    result (list byte) string;
  recipient : list byte → result Fingerprint string;
  decrypt {A : Type} `{Cbor A} :
    list byte → A → xhpke_SecretKey → list byte → result (list byte) string;
  peek {P : Type} `{Cbor P} : list byte → result P string;
  verify_at {P A : Type} `{Cbor P, Cbor A} :
    list byte → A → xdsa_PublicKey → list byte → result P string;
  open_at {P A : Type} `{Cbor P, Cbor A} :
    list byte → A → xhpke_SecretKey → xdsa_PublicKey → list byte → result P string;
  peek_HardwareClaims : list byte → result unit string;
  peek_EmulatorClaims : list byte → result unit string;
}.

(** What the crates document: a sealed message names
    its recipient and opens for it, in one call or layer by layer, the payload
    that verifies is the one that was there to peek at, and the receiver set up
    from an encapsulation is in step with its sender. *)
Class CryptoLaws `{Keys, !Crypto} (in_step : SealCtx → OpenCtx → Prop) : Prop := {
  seal_recipient {P A} `{CborLaws P, Cbor A} (x : P) (a : A) sk pk domain t seed p :
    seal_at x a sk pk domain PaddingNone t seed = Ok p → recipient p = Ok (fingerprint pk);
  decrypt_sealed {P A} `{CborLaws P, Cbor A} (x : P) (a : A) sk rsk domain t seed p :
    seal_at x a sk (xhpke_public_key rsk) domain PaddingNone t seed = Ok p →
    ∃ sign1, decrypt p a rsk domain = Ok sign1
      ∧ verify_at sign1 a (xdsa_public_key sk) domain = Ok x;
  open_sealed_at {P A} `{CborLaws P, Cbor A} (x : P) (a : A) sk rsk domain t seed p :
    seal_at x a sk (xhpke_public_key rsk) domain PaddingNone t seed = Ok p →
    open_at p a rsk (xdsa_public_key sk) domain = Ok x;
  verify_peek {P A} `{Cbor P, Cbor A} (x : P) (a : A) sign1 pk domain :
    verify_at sign1 a pk domain = Ok x → peek sign1 = Ok x;
  receiver_in_step rsk info seed s encap :
    new_sender (xhpke_public_key rsk) info seed = Ok (s, encap) →
    length encap = ENCAP_KEY_SIZE
    ∧ ∃ o, new_receiver rsk info encap = Ok o ∧ in_step s o;
}.

(** ** The host: wall time and randomness *)

(** [std::time::SystemTime], in nanoseconds since the Unix epoch. *)
Abbreviation SystemTime := Z (only parsing).

(** [Clock::system_time], [SecretKey::generate] of both key kinds, and the
    randomness drawn by an encapsulation or a sealed message. *)
Class Host (Ω : Type) `{Keys} := {
  system_time : Ω → SystemTime * Ω;
  xdsa_generate : Ω → xdsa_SecretKey * Ω;
  xhpke_generate : Ω → xhpke_SecretKey * Ω;
  draw : Ω → Seed * Ω;
}.

(** None of them moves bytes of the stream. *)
Class HostLaws (Ω : Type) `{Env Ω, Keys, !Host Ω} : Prop := {
  system_time_law ω : quiet ω (system_time ω).2;
  xdsa_generate_law ω : quiet ω (xdsa_generate ω).2;
  xhpke_generate_law ω : quiet ω (xhpke_generate ω).2;
  draw_law ω : quiet ω (draw ω).2;
}.

(** Nor do they prolong the adapters' budget. *)
Class HostBudget (Ω : Type) `{Keys, !Host Ω} (budget : Ω → nat) : Prop := {
  budget_system_time ω : budget (system_time ω).2 ≤ budget ω;
  budget_xdsa_generate ω : budget (xdsa_generate ω).2 ≤ budget ω;
  budget_xhpke_generate ω : budget (xhpke_generate ω).2 ≤ budget ω;
  budget_draw ω : budget (draw ω).2 ≤ budget ω;
}.

(** The wall clock stands after the Unix epoch. *)
Class AfterEpoch (Ω : Type) `{Keys, !Host Ω} : Prop :=
  after_epoch ω : (0 ≤ (system_time ω).1)%Z.

(** [SystemTime::duration_since(UNIX_EPOCH)], in whole seconds. *)
Definition unix_seconds (now : SystemTime) : option Z :=
  if decide (0 ≤ now)%Z then Some (now / 10 ^ 9)%Z else None.

(** [u64 as i64] *)
Definition as_i64 (n : Z) : Z := ((n + 2 ^ 63) mod 2 ^ 64 - 2 ^ 63)%Z.

(** [handshake::timestamp] *)
Definition timestamp {Ω} `{Keys, !Host Ω} : M Ω Z :=
    now ← op system_time;
    t ← expect (unix_seconds now);
    mret (as_i64 t).

Section host_lemmas.
Context {Ω : Type} `{EnvLaws Ω, Keys, !Host Ω, !HostLaws Ω}.
Context (budget : Ω → nat) `{!EnvBudget Ω budget, !HostBudget Ω budget}.

Abbreviation still := (Endpoint.still budget).

Lemma still_system_time ω : still ω (system_time ω).2.
Proof. split; [apply system_time_law|apply budget_system_time]. Qed.

Lemma still_xdsa_generate ω : still ω (xdsa_generate ω).2.
Proof. split; [apply xdsa_generate_law|apply budget_xdsa_generate]. Qed.

Lemma still_xhpke_generate ω : still ω (xhpke_generate ω).2.
Proof. split; [apply xhpke_generate_law|apply budget_xhpke_generate]. Qed.

Lemma still_draw ω : still ω (draw ω).2.
Proof. split; [apply draw_law|apply budget_draw]. Qed.

(** After the epoch the signing time is there. *)
Lemma timestamp_wp `{!AfterEpoch Ω} ω : tpost timestamp ω (λ _ ω', still ω ω').
Proof.
  unfold timestamp. post_steps. unfold unix_seconds.
  rewrite decide_True by apply after_epoch. simpl. post_steps. apply still_system_time.
Qed.
End host_lemmas.

(** ** Attestations ([transport/server.rs]) *)

Record Attestation := MkAttestation {
  cwt : list byte;
}.

Section attestation.
Context `{Keys, !Crypto}.

(** [Attestation::new] *)
Definition attestation_new (cwt : list byte) : result Attestation Error :=
  if is_err (peek_HardwareClaims cwt) && is_err (peek_EmulatorClaims cwt)
  then Err InvalidAttestation
  else Ok (MkAttestation cwt).

(** [Attestation::as_bytes] *)
Definition as_bytes (a : Attestation) : list byte := cwt a.

(** [Attestation::into_bytes] *)
Definition into_bytes (a : Attestation) : list byte := cwt a.

(** [Attester for Attestation]: the state of an attester is the attestation. *)
Definition attest_fixed (a : Attestation) : Attestation * Attestation := (a, a).

(** ** Trust policies ([transport/client.rs]) *)

(** [Verifier::verify] *)
Definition Verifier (Info : Type) : Type :=
  Attestation → SystemTime → result (xdsa_PublicKey * Info) string.

(** [Verifier for xdsa::PublicKey]: a pinned identity. *)
Definition verify_pinned (pinned : xdsa_PublicKey) : Verifier Attestation :=
  λ attestation _, Ok (pinned, attestation).

(** [Roots] *)
Record Roots := MkRoots {
  hardware : list xdsa_PublicKey;
  emulator : list xdsa_PublicKey;
}.

(** The text of [SystemTimeError]. *)
Definition epoch_error : string := "second time provided was later than self".

(** [Verifier for Roots], over [trust::device::verify] and the identity of the
    device it returns. *)
Definition verify_roots {Device : Type}
    (device_verify : list byte → list xdsa_PublicKey → list xdsa_PublicKey → option Z →
                     result Device string)
    (identity : Device → xdsa_PublicKey) (roots : Roots) :
  Verifier Device :=
  λ attestation now,
    match unix_seconds now with
    | None => Err epoch_error
    | Some now =>
        match device_verify (as_bytes attestation) (hardware roots) (emulator roots)
                (Some now) with
        | Err err => Err err
        | Ok device => Ok (identity device, device)
        end
    end.
End attestation.
Arguments Roots {_}.
Arguments Verifier {_} Info.

(** ** A concrete instance: everything in the clear

    Keys are bytes and each public half is its secret. No secrecy and no
    authenticity: it only shows that the laws can hold together, and lets the
    handshakes run on concrete streams. *)
Module Plain.

Import Clear Reference.

#[export] Instance keys : Keys := {
  xdsa_SecretKey := byte;
  xdsa_PublicKey := byte;
  xhpke_SecretKey := byte;
  xhpke_PublicKey := byte;
  Fingerprint := byte;
  Seed := byte;
  xdsa_public_key k := k;
  xhpke_public_key k := k;
  fingerprint k := k;
}.

(** A short string behind its length. *)
Definition chunk (l : list byte) : list byte := code (length l) :: l.

Definition short (l : list byte) : bool := bool_decide (length l ≤ 255).

Definition unchunk (l : list byte) : option (list byte * list byte) :=
  match l with
  | [] => None
  | n :: l =>
      if decide (value n ≤ length l) then Some (take (value n) l, drop (value n) l) else None
  end.

#[local] Arguments chunk : simpl never.
#[local] Arguments unchunk : simpl never.

Definition strip (pre l : list byte) : option (list byte) :=
  if decide (take (length pre) l = pre) then Some (drop (length pre) l) else None.

Definition two {T} (mk : byte → byte → T) (l : list byte) : result T string :=
  match l with [a; b] => Ok (mk a b) | _ => Err "malformed"%string end.

Definition or_malformed {A} (o : option A) : result A string :=
  match o with Some a => Ok a | None => Err "malformed"%string end.

#[export] Instance messages : Messages := {
  HostHello_cbor := {|
    cbor_encode h := Ok [host_signer h; host_crypto h];
    cbor_decode := two MkHostHello |};
  ArkHello_cbor := {|
    cbor_encode h :=
      if short (a2h_encap h) then Ok (ark_crypto h :: chunk (a2h_encap h) ++ ark_attest h)
      else Err "too long"%string;
    cbor_decode l :=
      match l with
      | c :: l => match unchunk l with
                  | Some (encap, attest) => Ok (MkArkHello attest c encap)
                  | None => Err "malformed"%string
                  end
      | [] => Err "malformed"%string
      end |};
  ArkHelloAuth_cbor := {|
    cbor_encode h := Ok [auth_host_signer h; auth_host_crypto h];
    cbor_decode := two MkArkHelloAuth |};
  HostAck_cbor := {| cbor_encode h := Ok (h2a_encap h); cbor_decode l := Ok (MkHostAck l) |};
  HostAckAuth_cbor := {|
    cbor_encode h := Ok [auth_ark_signer h; auth_ark_crypto h];
    cbor_decode := two MkHostAckAuth |};
}.

(** What a sealed payload is bound to. *)
Definition header (auth domain : list byte) : option (list byte) :=
  if short auth && short domain then Some (chunk auth ++ chunk domain) else None.

Definition verify {P A} `{Cbor P, Cbor A} (sign1 : list byte) (a : A) (pk : byte)
    (domain : list byte) : result P string :=
  match cbor_encode a with
  | Err e => Err e
  | Ok auth =>
      match header auth domain ≫= λ h, strip (h ++ [pk]) sign1 with
      | Some p => cbor_decode p
      | None => Err "signature mismatch"%string
      end
  end.

Definition unseal {A} `{Cbor A} (p : list byte) (a : A) (sk : byte) (domain : list byte) :
  result (list byte) string :=
  match p, cbor_encode a with
  | r :: sign1, Ok auth =>
      if decide (r = sk ∧ is_Some (header auth domain ≫= λ h, strip h sign1)) then Ok sign1
      else Err "decryption failed"%string
  | _, _ => Err "decryption failed"%string
  end.

#[export] Instance crypto : Crypto := {
  ENCAP_KEY_SIZE := 1;
  new_sender pk info seed := Ok (length info + value seed + value pk, [seed]);
  new_receiver sk info encap :=
    match encap with
    | [e] => Ok (length info + value e + value sk)
    | _ => Err "malformed"%string
    end;
  seal_at P A _ _ x a sk pk domain _ _ _ :=
    match cbor_encode x, cbor_encode a with
    | Ok p, Ok auth =>
        match header auth domain with
        | Some h => Ok (pk :: h ++ sk :: p)
        | None => Err "too long"%string
        end
    | _, _ => Err "too long"%string
    end;
  recipient p := or_malformed (head p);
  decrypt A _ := unseal;
  peek P _ sign1 :=
    match unchunk sign1 ≫= λ '(_, l), unchunk l with
    | Some (_, _ :: p) => cbor_decode p
    | _ => Err "malformed"%string
    end;
  verify_at P A _ _ := verify;
  open_at P A _ _ p a sk pk domain :=
    match unseal p a sk domain with
    | Ok sign1 => verify sign1 a pk domain
    | Err e => Err e
    end;
  peek_HardwareClaims l :=
    or_malformed (guard (head l = Some Byte.x48) ≫= λ _, Some tt);
  peek_EmulatorClaims l :=
    or_malformed (guard (head l = Some Byte.x45) ≫= λ _, Some tt);
}.

Lemma unchunk_chunk l rest : short l = true → unchunk (chunk l ++ rest) = Some (l, rest).
Proof.
  intros Hs%bool_decide_eq_true. unfold unchunk, chunk. cbn.
  rewrite value_code, length_app, decide_True, take_app_length, drop_app_length by lia. done.
Qed.

Lemma strip_app pre l : strip pre (pre ++ l) = Some l.
Proof. unfold strip. by rewrite take_app_length, decide_True, drop_app_length. Qed.

Lemma strip_Some pre l p : strip pre l = Some p → l = pre ++ p.
Proof.
  unfold strip. case_decide as E; [|done]. intros [= <-]. rewrite <-E at 1.
  by rewrite take_drop.
Qed.

Lemma header_peek auth domain h l :
  header auth domain = Some h → (unchunk (h ++ l) ≫= λ '(_, l), unchunk l) = Some (domain, l).
Proof.
  unfold header. destruct (short auth) eqn:Ea, (short domain) eqn:Ed; try done.
  cbn [andb]. intros E. assert (h = chunk auth ++ chunk domain) as -> by congruence.
  rewrite <-app_assoc, unchunk_chunk by done. cbn [mbind option_bind].
  by rewrite unchunk_chunk.
Qed.

#[export] Instance messages_laws : MessagesLaws.
Proof.
  split; intros x p; simpl.
  - intros [= <-]. by destruct x.
  - destruct (short (a2h_encap x)) eqn:Es; [|done]. intros [= <-].
    change (code _ :: _ ++ _) with (chunk (a2h_encap x) ++ ark_attest x).
    rewrite unchunk_chunk by done. by destruct x.
  - intros [= <-]. by destruct x.
Qed.

(** Both layers of a sealed packet. *)
Lemma sealed_layers {P A} `{CborLaws P, Cbor A} (x : P) (a : A) (sk rsk : byte) domain t
    (seed : byte) p :
  seal_at x a sk rsk domain PaddingNone t seed = Ok p →
  ∃ sign1, p = rsk :: sign1 ∧ unseal p a rsk domain = Ok sign1
    ∧ verify sign1 a sk domain = Ok x.
Proof.
  simpl. destruct (cbor_encode x) as [q|] eqn:Ex; [|done].
  destruct (cbor_encode a) as [auth|] eqn:Ea; [|done].
  destruct (header auth domain) as [h|] eqn:Eh; [|done]. intros [= <-].
  eexists. split_and!; [done|..].
  - simpl. rewrite Ea, Eh. simpl. rewrite strip_app. by rewrite decide_True by eauto.
  - unfold verify. rewrite Ea, Eh. simpl.
    replace (h ++ sk :: q) with ((h ++ [sk]) ++ q) by by rewrite <-app_assoc.
    rewrite strip_app. by apply decode_encode.
Qed.

#[export] Instance crypto_laws : CryptoLaws in_step.
Proof.
  split.
  - intros P A HP HL HA x a sk pk domain t seed p Hs.
    destruct (sealed_layers _ _ _ _ _ _ _ _ Hs) as (sign1 & -> & _). done.
  - intros P A HP HL HA x a sk rsk domain t seed p Hs.
    destruct (sealed_layers _ _ _ _ _ _ _ _ Hs) as (sign1 & -> & Hu & Hv). by exists sign1.
  - intros P A HP HL HA x a sk rsk domain t seed p Hs.
    destruct (sealed_layers _ _ _ _ _ _ _ _ Hs) as (sign1 & -> & Hu & Hv).
    cbn [open_at crypto]. change (xhpke_public_key rsk) with rsk in *. by rewrite Hu.
  - intros P A HP HA x a sign1 pk domain. cbn [verify_at peek crypto]. unfold verify.
    destruct (cbor_encode a) as [auth|]; [|done].
    destruct (header auth domain) as [h|] eqn:Eh; cbn [mbind option_bind]; [|done].
    simpl in pk. destruct (strip (h ++ [pk]) sign1) as [p|] eqn:Es; [|done]. intros Hd.
    apply strip_Some in Es as ->. rewrite <-app_assoc.
    by rewrite (header_peek auth domain h ([pk] ++ p)).
  - intros rsk info seed s encap. simpl. intros [= <- <-]. split; [done|].
    eexists. split; [done|]. done.
Qed.

(** Constant randomness; the clock's pace tells the keys of two worlds apart. *)
#[export] Instance host : Host Script.world := {
  system_time w := (Z.max 0 (Script.now w), w);
  xdsa_generate w := (code (Z.to_nat (Script.tick w) + 2), w);
  xhpke_generate w := (code (Z.to_nat (Script.tick w) + 3), w);
  draw w := (Byte.x07, w);
}.

#[export] Instance host_laws : HostLaws Script.world.
Proof. by split; intros w. Qed.

#[export] Instance after_epoch_host : AfterEpoch Script.world.
Proof. intros w. simpl. lia. Qed.

#[export] Instance host_budget : HostBudget Script.world Script.budget.
Proof. by split; intros w. Qed.
End Plain.
