(* ===== verification/TransportClient.v ===== *)
(** * The transport's client ([transport/client.rs])

    [Client::connect] with the whole handshake, and [Client::recv]. Other
    threads reach the output through senders: [recv] takes the calls that
    complete while it waits as an argument, and during a handshake no sender has
    a session to act on. *)

From S2P Require Import Prelude Closer Io Script Stream Cobs Framing Sealing Outbound Endpoint Handshake.

Module Client.

(** ** State *)

Record State `{Hpke} := MkClient {
  handshake_timeout : Duration;
  endpoint : Endpoint.State;
}.
Arguments State {_}.

Definition with_endpoint `{Hpke} (cl : State) (ep : Endpoint.State) : State :=
  MkClient _ (handshake_timeout cl) ep.

(** [Error::HandshakeFailed(format!("<what>: {}", err))] *)
Definition failed (what : string) (err : string) : Error :=
  HandshakeFailed (what +:+ ": " +:+ err).

(** [encap.try_into()] for an encapsulated key. *)
Definition sized_encap `{Keys, !Crypto} (what : string) (encap : list byte) :
  result (list byte) Error :=
  if decide (length encap = ENCAP_KEY_SIZE) then Ok encap else Err (HandshakeFailed what).

Section client.
Context {Ω : Type} `{Env Ω, Cobs, Keys, !Messages, !Crypto, !Host Ω} (max fuel : nat).
Context {Info : Type}.

(** [Client::new], over a stream with the write timeout [timeout]. *)
Definition new (timeout : Duration) : State :=
  MkClient _ DEFAULT_HANDSHAKE_TIMEOUT (Endpoint.new max Outbound.Client timeout).

(** [Client::set_handshake_timeout] *)
Definition set_handshake_timeout (timeout : Duration) (cl : State) : State :=
  MkClient _ timeout (endpoint cl).

(** [Client::drop]: closes the stream, then ends the session. *)
Definition drop (cl : State) : M Ω State :=
  _ ← Outbound.close fuel;
  mret (with_endpoint cl (Endpoint.end_session (endpoint cl)).2).

(** ** The handshake *)

(** What the skipping loop looks at: a packet, or nothing for an empty,
    undecodable or oversized frame. *)
Definition candidate (r : result (option (list byte)) Error) : result (list byte) Error :=
  match r with
  | Ok (Some packet) => Ok packet
  | Ok None | Err (FrameDecodingFailed _) | Err (FrameTooLarge _) => Ok []
  | Err err => Err err
  end.

(** [cose::recipient(packet).is_ok_and(|fp| fp == recipient)] *)
Definition names (fp : Fingerprint) (packet : list byte) : bool :=
  match recipient packet with Ok fp' => bool_decide (fp' = fp) | Err _ => false end.

(** The loop that skips stale frames until an ArkHello names this attempt's
    key. *)
Fixpoint await_hello (passes : nat) (fp : Fingerprint) (deadline : Instant)
    (ep : Endpoint.State) : M Ω (result (list byte) Error * Endpoint.State) :=
  match passes with
  | O => diverge
  | S passes =>
      '(r, ep) ← Endpoint.next_packet max fuel (Some deadline) ep;
      match candidate r with
      | Err err => mret (Err err, ep)
      | Ok packet =>
          if names fp packet then mret (Ok packet, ep)
          else await_hello passes fp deadline ep
      end
  end.

(** The two halves of this attempt's keys that the ArkHello must be bound to. *)
Definition hello_auth (host_xdsa_sk : xdsa_SecretKey) (host_xhpke_sk : xhpke_SecretKey) :
  ArkHelloAuth :=
  MkArkHelloAuth (xdsa_public_key host_xdsa_sk) (xhpke_public_key host_xhpke_sk).

(** From the ArkHello's packet to the sealed HostAck: steps 2a to 2d, both
    contexts and message 3. *)
Definition answer_hello (verify : Verifier Info) (host_xdsa_sk : xdsa_SecretKey)
    (host_xhpke_sk : xhpke_SecretKey) (signing_time : option Z) (packet : list byte) :
  M Ω (result (OpenCtx * SealCtx * list byte * Info) Error) :=
    let auth := hello_auth host_xdsa_sk host_xhpke_sk in
    sign1 of? map_err (failed "failed to decrypt server hello")
      (decrypt packet auth host_xhpke_sk CRYPTO_DOMAIN_WIRE);
    unverified of? map_err (failed "invalid server hello payload")
      (peek sign1 : result ArkHello string);
    attestation of? attestation_new (ark_attest unverified);
    now ← op system_time;
    accepted of? map_err HandshakeFailed (verify attestation now);
    let '(ark_identity, info) := accepted in
    ark_hello of? map_err (failed "server hello signature invalid")
      (verify_at sign1 auth ark_identity CRYPTO_DOMAIN_WIRE : result ArkHello string);
    enc_a2h of? sized_encap "invalid a2h_encap size" (a2h_encap ark_hello);
    receiver of? map_err (failed "client receiver setup failed")
      (new_receiver host_xhpke_sk CRYPTO_DOMAIN_WIRE_ARK_TO_HOST enc_a2h);
    let ark_xhpke_pk := ark_crypto ark_hello in
    seed ← op draw;
    setup of? map_err (failed "client sender setup failed")
      (new_sender ark_xhpke_pk CRYPTO_DOMAIN_WIRE_HOST_TO_ARK seed);
    let '(sender, enc_h2a) := setup in
    t ← match signing_time with Some t => mret t | None => timestamp end;
    seed ← op draw;
    ack of? map_err (failed "failed to seal client ack")
      (seal_at (MkHostAck enc_h2a) (MkHostAckAuth ark_identity ark_xhpke_pk) host_xdsa_sk
         ark_xhpke_pk CRYPTO_DOMAIN_WIRE PaddingNone t seed);
    mret (Ok (receiver, sender, ack, info)).

(** [Client::handshake] *)
Definition handshake (verify : Verifier Info) (host_xdsa_sk : xdsa_SecretKey)
    (host_xhpke_sk : xhpke_SecretKey) (signing_time : option Z) (deadline : Instant)
    (ep : Endpoint.State) : M Ω (result (Endpoint.handle * Info) Error * Endpoint.State) :=
  let host_xdsa_pk := xdsa_public_key host_xdsa_sk in
  let host_xhpke_pk := xhpke_public_key host_xhpke_sk in
  match cbor_encode (MkHostHello host_xdsa_pk host_xhpke_pk) with
  | Err err =>
      mret (Err (failed "failed to encode client hello" err), (Endpoint.end_session ep).2)
  | Ok hello =>
      let ep := Endpoint.release ep in
      try_in (Endpoint.output max fuel (Outbound.OpSendReset deadline) ep) (λ _ ep,
      try_in (Endpoint.output max fuel (Outbound.OpSendPacket hello (Some deadline)) ep)
        (λ _ ep,
      try_in (await_hello fuel (fingerprint host_xhpke_pk) deadline ep) (λ packet ep,
      answer ← answer_hello verify host_xdsa_sk host_xhpke_sk signing_time packet;
      match answer with
      | Err err => mret (Err err, ep)
      | Ok (receiver, sender, ack, info) =>
          try_in (Endpoint.output max fuel (Outbound.OpSendPacket ack (Some deadline)) ep)
            (λ _ ep,
          let '(sender, ep) := Endpoint.new_session sender receiver ep in
          mret (Ok (sender, info), ep))
      end)))
  end.

(** [Client::connect] *)
Definition connect (verify : Verifier Info) (cl : State) :
  M Ω (result (Endpoint.handle * Info) Error * State) :=
  deadline ← deadline_after (handshake_timeout cl);
  host_xdsa_sk ← op xdsa_generate;
  host_xhpke_sk ← op xhpke_generate;
  '(r, ep) ← handshake verify host_xdsa_sk host_xhpke_sk None deadline (endpoint cl);
  mret (r, with_endpoint cl ep).

(** ** Receiving *)

(** [Client::recv], where other threads complete the calls [others] until the
    packet is read. *)
Definition recv (others : list Outbound.Op) (cl : State) :
  M Ω (result (list byte) Error * State) :=
  match Endpoint.receiver (endpoint cl) with
  | None => mret (Err (EncryptionFailed "no active session"), cl)
  | Some receiver =>
      '(r, ep) ← Endpoint.next_packet max fuel None (endpoint cl);
      ep ← Endpoint.interfere max fuel others ep;
      match r with
      | Err err => mret (Err err, with_endpoint cl (Endpoint.end_session ep).2)
      | Ok None => mret (Err SessionReset, with_endpoint cl (Endpoint.end_session ep).2)
      | Ok (Some packet) =>
          '(m, ep) ← Endpoint.open_packet receiver packet ep;
          match m with
          | Err err => mret (Err err, with_endpoint cl (Endpoint.end_session ep).2)
          | Ok message => mret (Ok message, with_endpoint cl ep)
          end
      end
  end.
End client.

(** ** Specification *)

Section spec.
Context `{Keys, !Messages, !Crypto} {Info : Type}.

(** What ties an accepted packet to the session the client sets up: it decrypts
    with this attempt's key, its ArkHello verifies under the identity that the
    policy returned for the attestation inside it, bound to this attempt's keys;
    the receive context comes from its encapsulation, the send context goes to
    its key, and the ack is signed by this attempt's key and bound to that
    identity and key. *)
Record answers (verify : Verifier Info) (xsk : xdsa_SecretKey) (hsk : xhpke_SecretKey)
    (packet : list byte) (rc : OpenCtx) (ctx : SealCtx) (ack : list byte) (info : Info)
    (identity : xdsa_PublicKey) (hello : ArkHello) : Prop := MkAnswers {
  ans_signed : ∃ sign1,
    decrypt packet (hello_auth xsk hsk) hsk CRYPTO_DOMAIN_WIRE = Ok sign1
    ∧ verify_at sign1 (hello_auth xsk hsk) identity CRYPTO_DOMAIN_WIRE = Ok hello;
  ans_trusted : ∃ attestation now,
    attestation_new (ark_attest hello) = Ok attestation
    ∧ verify attestation now = Ok (identity, info);
  ans_receiver : length (a2h_encap hello) = ENCAP_KEY_SIZE
    ∧ new_receiver hsk CRYPTO_DOMAIN_WIRE_ARK_TO_HOST (a2h_encap hello) = Ok rc;
  ans_ack : ∃ seed encap t seed',
    new_sender (ark_crypto hello) CRYPTO_DOMAIN_WIRE_HOST_TO_ARK seed = Ok (ctx, encap)
    ∧ seal_at (MkHostAck encap) (MkHostAckAuth identity (ark_crypto hello)) xsk
        (ark_crypto hello) CRYPTO_DOMAIN_WIRE PaddingNone t seed' = Ok ack;
}.

(** The packet the skipping loop sees in a wire event. *)
Definition packet_of `{Cobs} (max : nat) (ev : event) : list byte :=
  match meaning max ev with Ok (Some packet) => packet | _ => [] end.

(** The events a handshake takes from the stream: stale ones, then its hello. *)
Definition hello_after_stale `{Cobs} (max : nat) (fp : Fingerprint) (evs : list event)
    (packet : list byte) : Prop :=
  ∃ stale ev, evs = stale ++ [ev] ∧ packet_of max ev = packet ∧ names fp packet = true
    ∧ Forall (λ ev, names fp (packet_of max ev) = false) stale.
End spec.

(** The frame of a packet, as a peer sees it. *)
Definition frame_of `{Cobs} (max : nat) (packet : list byte) : event :=
  EFrame (body_of max (OpPacket packet)).

(** A handshake of the endpoint [ep], whose output a peer scans from [s]: the
    events it takes are stale ones and its hello, the frames it sends a reset,
    the hello and the ack; it leaves the session these make, or none. *)
Definition handshake_spec {Ω} `{Env Ω, Cobs, Keys, !Messages, !Crypto} {Info : Type}
    (max : nat) (verify : Verifier Info) (xsk : xdsa_SecretKey) (hsk : xhpke_SecretKey)
    (ep : Endpoint.State) (s : scanner) (ω : Ω)
    (p : result (Endpoint.handle * Info) Error * Endpoint.State) (ω' : Ω) : Prop :=
  let '(r, ep') := p in
  ∃ evs sent s', Endpoint.moves max ep s ω evs sent ep' s' ω' ∧ Endpoint.io_ok max ep' s'
    ∧ Outbound.side (Endpoint.outbound ep') = Outbound.side (Endpoint.outbound ep)
    ∧ match r with
      | Ok ((c, ctx), info) =>
          c = Endpoint.allocated ep ∧ Endpoint.allocated ep' = S c
          ∧ Endpoint.sealer ep' = Some c
          ∧ Outbound.binding (Endpoint.outbound ep') = Some c
          ∧ ∃ packet rc ack identity hello bytes p1 p2 p3,
              Endpoint.receiver ep' = Some rc
              ∧ hello_after_stale max (fingerprint (xhpke_public_key hsk)) evs packet
              ∧ answers verify xsk hsk packet rc ctx ack info identity hello
              ∧ cbor_encode (MkHostHello (xdsa_public_key xsk) (xhpke_public_key hsk))
                = Ok bytes
              ∧ sent = p1 ++ [EFrame []] ++ p2 ++ [frame_of max bytes]
                       ++ p3 ++ [frame_of max ack]
      | Err _ =>
          Endpoint.no_session ep' ∧ Endpoint.allocated ep' = Endpoint.allocated ep
      end.

(** What a receive makes of the result of the frame reader: the session's
    receive context opens it while the session is bound, and anything else ends
    the session. *)
Definition recv_reference `{Hpke} (rc : OpenCtx) (bound : bool)
    (r : result (option (list byte)) Error) : result (list byte) Error * option OpenCtx :=
  match r with
  | Err err => (Err err, None)
  | Ok None => (Err SessionReset, None)
  | Ok (Some packet) =>
      if bound then
        let '(opened, rc') := open rc packet in
        (opened, if is_ok opened then Some rc' else None)
      else (Err Outbound.session_ended, None)
  end.

(** Whether the session is still bound when the packet is read: other threads
    may have ended it. *)
Definition bound_after `{Hpke} (others : list Outbound.Op) (c : nat) (cl : State)
    (bound : bool) : Prop :=
  bound = bool_decide (Outbound.binding (Endpoint.outbound (endpoint cl)) = Some c)
  ∨ others ≠ [] ∧ bound = false.

(** A receive in the session [c] with the receive context [rc]. *)
Definition receives {Ω} `{Env Ω, Cobs, Hpke} (max : nat) (others : list Outbound.Op) (c : nat)
    (rc : OpenCtx) (cl : State) (s : scanner) (ω : Ω)
    (p : result (list byte) Error * State) (ω' : Ω) : Prop :=
  ∃ r bound evs sent s',
    Endpoint.says max r evs
    ∧ Endpoint.moves max (endpoint cl) s ω evs sent (endpoint p.2) s' ω'
    ∧ Endpoint.io_ok max (endpoint p.2) s' ∧ Endpoint.session_ok (endpoint p.2)
    ∧ Endpoint.allocated (endpoint p.2) = Endpoint.allocated (endpoint cl)
    ∧ Outbound.side (Endpoint.outbound (endpoint p.2))
      = Outbound.side (Endpoint.outbound (endpoint cl))
    ∧ bound_after others c cl bound
    ∧ (p.1, Endpoint.receiver (endpoint p.2)) = recv_reference rc bound r
    ∧ (is_Some (Endpoint.receiver (endpoint p.2)) →
        Endpoint.sealer (endpoint p.2) = Some c
        ∧ Outbound.binding (Endpoint.outbound (endpoint p.2)) = Some c).

(** The errors of a handshake that read or wrote something it does not accept. *)
Definition rejected (e : Error) : bool :=
  match e with HandshakeFailed _ | InvalidAttestation => true | _ => false end.

Definition read_failed (e : Error) : bool :=
  match e with RecvFailed _ | Terminated => true | _ => false end.

Section lemmas.
Context {Ω : Type} `{EnvLaws Ω, CobsLaws, Keys, !Messages, !Crypto, !Host Ω, !HostLaws Ω}.
Context (in_step : SealCtx → OpenCtx → Prop) `{!CryptoLaws in_step}.
Context (budget : Ω → nat) `{!EnvBudget Ω budget, !HostBudget Ω budget, !AfterEpoch Ω}.
Context (max fuel : nat) (Hmax : 0 < max) {Info : Type}.

Abbreviation still := (Endpoint.still budget).
Abbreviation enough := (Endpoint.enough max fuel budget).
Abbreviation unread := (unread max budget).
Abbreviation moves := (Endpoint.moves max).
Abbreviation io_ok := (Endpoint.io_ok max).
Abbreviation idles := (Endpoint.idles max budget).

Lemma still_op {A} (f : Ω → A * Ω) ω (Q : A → Ω → Prop) :
  (∀ ω, still ω (f ω).2) → (∀ a ω', still ω ω' → Q a ω') → tpost (op f) ω Q.
Proof. intros Hf HQ. apply wp_op, HQ, Hf. Qed.

(** A step of the handshake that fails with a [HandshakeFailed]. *)
Lemma wp_step {A B} (f : string → Error) (r : result A string) (k : A → M Ω (result B Error))
    ω (Q : result B Error → Ω → Prop) :
  (∀ a, r = Ok a → tpost (k a) ω Q) → (∀ e, Q (Err (f e)) ω) →
  tpost (try_of (map_err f r) k) ω Q.
Proof.
  intros Hok Herr. apply wp_try_of; [intros a Ha%map_err_Ok; auto|].
  intros e [e' ->]%map_err_Err. apply Herr.
Qed.

Lemma client_answer_hello_wp (verify : Verifier Info) xsk hsk time packet ω :
  tpost (answer_hello verify xsk hsk time packet) ω (λ r ω', still ω ω'
    ∧ match r with
      | Ok (rc, ctx, ack, info) =>
          ∃ identity hello, answers verify xsk hsk packet rc ctx ack info identity hello
      | Err e => rejected e = true
      end).
Proof.
  unfold answer_hello.
  apply wp_step; [intros sign1 Hd|done]. apply wp_step; [intros unverified Hp|done].
  apply wp_try_of; [intros att Ha|intros e; unfold attestation_new; case_match; by intros [= <-]].
  post_step. apply still_op; [intros ?; by apply still_system_time|]. intros now ω1 Hω1.
  apply wp_step; [intros [identity info] Hv|done]. apply wp_step; [intros hello Hs|done].
  pose proof (verify_peek _ _ _ _ _ Hs) as Hp'. rewrite Hp in Hp'. injection Hp' as ->.
  apply wp_try_of; [|intros e; unfold sized_encap; case_decide; by intros [= <-]].
  intros encap Hen. unfold sized_encap in Hen. case_decide as Hsz; [|done]. injection Hen as <-.
  apply wp_step; [intros rc Hr|done].
  post_step. apply still_op; [intros ?; by apply still_draw|]. intros seed ω2 Hω2.
  apply wp_step; [intros [ctx enc] Hn|split; [by etrans|done]]. post_step.
  apply wp_mono with (P := λ _ ω', still ω ω').
  { destruct time; [post_step; by etrans|].
    eapply wp_mono; [by apply (timestamp_wp budget)|]. intros t ω3 Hω3.
    etrans; [exact Hω1|]. by etrans. }
  intros t ω3 Hω3. post_step. apply still_op; [intros ?; by apply still_draw|].
  intros seed' ω4 Hω4. apply wp_step; [intros ack Hk|split; [by etrans|done]]. post_step.
  split; [by etrans|]. exists identity, hello. split; eauto 10.
Qed.

(** The skipping loop returns: the first packet that names the key, everything
    before it stale, or the failure of a read. *)
Lemma client_await_hello_wp passes fp deadline ep s ω :
  Endpoint.no_session ep → io_ok ep s → enough ep ω →
  unread (Endpoint.reader ep) ω < passes →
  tpost (await_hello max fuel passes fp deadline ep) ω (λ p ω', ∃ evs,
    idles ep s ω evs [] p.2 s ω'
    ∧ match p.1 with
      | Ok packet => hello_after_stale max fp evs packet
      | Err e => read_failed e = true
                 ∧ Forall (λ ev, names fp (packet_of max ev) = false) evs
      end).
Proof.
  revert ep ω. induction passes as [|passes IH]; intros ep ω Hno Hok Hf Hp; [lia|].
  simpl. post_step. eapply wp_mono; [by apply (Endpoint.next_packet_idles max fuel Hmax budget)|].
  intros [r ep1] ω1 (evs & Hi & Hu & Hsays). cbn [fst snd] in *.
  assert ((∃ ev, evs = [ev] ∧ candidate r = Ok (packet_of max ev))
    ∨ ∃ e, evs = [] ∧ candidate r = Err e ∧ read_failed e = true) as Hcases.
  { unfold packet_of. destruct (Endpoint.says_cases _ _ _ Hsays)
      as [(ev & -> & Hm & Hr)|[-> [(k & ->)| ->]]]; [left; exists ev|right..]; eauto.
    split; [done|]. rewrite <-Hm. by destruct r as [[packet|]|[]]. }
  destruct Hcases as [(ev & -> & ->)|(e & -> & -> & He)]; [|post_step; by exists []].
  destruct (names fp (packet_of max ev)) eqn:En.
  - post_step. exists [ev]. split; [done|]. by exists [], ev.
  - eapply wp_mono; [apply IH; [apply Hi|apply Hi|by eapply Endpoint.idles_enough|simpl in *; lia]|].
    intros [r2 ep2] ω2 (evs2 & Hi2 & Hres). cbn [fst snd] in *. exists (ev :: evs2).
    split; [by apply (Endpoint.idles_trans Hmax Hi Hi2)|].
    destruct r2 as [packet|e]; [|by destruct Hres; split; auto].
    destruct Hres as (stale & ev' & -> & ?&?&?). exists (ev :: stale), ev'. split_and!; auto.
Qed.

(** A handshake that fails leaves the endpoint idle. *)
Lemma client_handshake_failed (verify : Verifier Info) xsk hsk ep s ω evs sent ep' s' ω' e :
  idles ep s ω evs sent ep' s' ω' →
  handshake_spec max verify xsk hsk ep s ω (Err e, ep') ω'
  ∧ unread (Endpoint.reader ep') ω' ≤ unread (Endpoint.reader ep) ω.
Proof. intros []. split; [|done]. by exists evs, sent, s'. Qed.

Lemma client_handshake_wp (verify : Verifier Info) xsk hsk time deadline ep s ω :
  Endpoint.session_ok ep → io_ok ep s → enough ep ω →
  tpost (handshake max fuel verify xsk hsk time deadline ep) ω (λ p ω',
    handshake_spec max verify xsk hsk ep s ω p ω'
    ∧ unread (Endpoint.reader p.2) ω' ≤ unread (Endpoint.reader ep) ω).
Proof.
  intros Hses Hok Hf. unfold handshake. destruct (cbor_encode _) as [bytes|err] eqn:Ec.
  2:{ post_step. by eapply client_handshake_failed, Endpoint.end_session_idles. }
  post_step. eapply wp_mono; [apply (Endpoint.output_idles max fuel Hmax budget _ _ s);
    [done..|by apply Endpoint.release_io|done]|].
  intros [r1 ep1] ω1 (sent1 & s1 & Hi1%Endpoint.idles_release & Hs1). cbn [fst snd] in *.
  destruct r1 as [[]|e]; [|by eapply client_handshake_failed].
  destruct (Hs1 eq_refl) as [p1 ->]. post_step.
  eapply wp_mono; [apply (Endpoint.send_packet_idles max fuel Hmax budget _ _ _ s1);
    [apply Hi1..|by eapply Endpoint.idles_enough]|].
  intros [r2 ep2] ω2 (sent2 & s2 & Hi2 & Hs2). cbn [fst snd] in *.
  pose proof (Endpoint.idles_trans Hmax Hi1 Hi2) as Hi12. clear Hi1 Hi2.
  destruct r2 as [[]|e]; [|by eapply client_handshake_failed].
  destruct (Hs2 eq_refl) as [p2 ->]. post_step.
  eapply wp_mono; [apply client_await_hello_wp; [apply Hi12..|by eapply Endpoint.idles_enough|]|].
  { pose proof (Endpoint.idle_unread Hi12). unfold Endpoint.enough in Hf. lia. }
  intros [r3 ep3] ω3 (evs & Hi3 & Hres). cbn [fst snd] in *.
  pose proof (Endpoint.idles_trans Hmax Hi12 Hi3) as Hi. clear Hi12 Hi3.
  destruct r3 as [packet|e]; [|by eapply client_handshake_failed].
  post_step. eapply wp_mono; [apply client_answer_hello_wp|]. intros a ω4 [Hst Ha].
  apply (Endpoint.idles_still Hmax Hi) in Hst as Hi4. clear Hi.
  destruct a as [[[[rc ctx] ack] info]|e]; [|post_step; by eapply client_handshake_failed].
  destruct Ha as (identity & hello & Hans). post_step.
  eapply wp_mono; [apply (Endpoint.send_packet_idles max fuel Hmax budget _ _ _ s2);
    [apply Hi4..|by eapply Endpoint.idles_enough]|].
  intros [r5 ep5] ω5 (sent5 & s5 & Hi5 & Hs5). cbn [fst snd] in *.
  pose proof (Endpoint.idles_trans Hmax Hi4 Hi5) as Hi. clear Hi4 Hi5.
  destruct r5 as [[]|e]; [|by eapply client_handshake_failed].
  destruct (Hs5 eq_refl) as [p5 ->]. simpl. post_step.
  rewrite app_nil_r in Hi. destruct Hi as [Hmv [Hrd Hwr] _ Hal Hsd Hu]. split; [|done].
  eexists evs, _, s5. split; [exact Hmv|]. split; [by split|]. split; [done|]. simpl.
  rewrite Hal. split_and!; try done. exists packet, rc, ack, identity, hello, bytes, p1, p2, p5.
  split_and!; try done. unfold frame_of. by rewrite app_nil_r, <-!app_assoc.
Qed.

Lemma connect_wp (verify : Verifier Info) cl s ω :
  Endpoint.session_ok (endpoint cl) → io_ok (endpoint cl) s → enough (endpoint cl) ω →
  tpost (connect max fuel verify cl) ω (λ p ω',
    let '(xsk, ω2) := xdsa_generate (clock_now ω).2 in
    let '(hsk, ω3) := xhpke_generate ω2 in
    handshake_spec max verify xsk hsk (endpoint cl) s ω (p.1, endpoint p.2) ω'
    ∧ handshake_timeout p.2 = handshake_timeout cl
    ∧ unread (Endpoint.reader (endpoint p.2)) ω' ≤ unread (Endpoint.reader (endpoint cl)) ω).
Proof.
  intros Hses Hok Hf. unfold connect. post_step. apply deadline_after_wp. intros deadline.
  set (ω1 := (clock_now ω).2). assert (still ω ω1) as Hs1 by apply (Endpoint.still_clock budget).
  post_steps. pose proof (still_xdsa_generate budget ω1) as Hs2.
  destruct (xdsa_generate ω1) as [xsk ω2]. simpl in Hs2 |- *.
  post_steps. pose proof (still_xhpke_generate budget ω2) as Hs3.
  destruct (xhpke_generate ω2) as [hsk ω3]. simpl in Hs3 |- *.
  assert (still ω ω3) as Hst by (etrans; [exact Hs1|]; by etrans).
  eapply wp_mono; [apply (client_handshake_wp verify xsk hsk None deadline _ s); try done|].
  { by eapply Endpoint.still_enough. }
  intros [r ep'] ω' [Hspec Hu]. post_step. split_and!; try done.
  - destruct Hspec as (evs & sent & s' & Hmv & Hrest). exists evs, sent, s'.
    split; [|done]. eapply Endpoint.moves_before; [by apply (Endpoint.still_moves max budget)|done].
  - simpl. etrans; [exact Hu|]. by apply Endpoint.still_unread.
Qed.

(** ** Receiving *)

(** A receive that ends the session. *)
Lemma recv_ends others cl s ω rc c r ep' ω' evs sent s' bound m :
  Endpoint.says max r evs → moves (endpoint cl) s ω evs sent ep' s' ω' → io_ok ep' s' →
  Endpoint.session_ok ep' →
  Endpoint.allocated ep' = Endpoint.allocated (endpoint cl) →
  Outbound.side (Endpoint.outbound ep') = Outbound.side (Endpoint.outbound (endpoint cl)) →
  bound_after others c cl bound → (m, None) = recv_reference rc bound r →
  receives max others c rc cl s ω (m, with_endpoint cl (Endpoint.end_session ep').2) ω'.
Proof.
  intros Hsays Hmv Hok Hses Hal Hsd Hbd Hm.
  destruct (Endpoint.end_session_idles max budget ep' s' ω' Hses Hok)
    as [Hmv1 Hok1 Hno Hal1 Hsd1 _].
  pose proof (Endpoint.moves_trans max _ _ _ _ _ _ _ _ _ _ _ _ _ Hmv Hmv1) as Hmv'.
  rewrite !app_nil_r in Hmv'. exists r, bound, evs, sent, s'.
  split_and!; try done; [by apply Endpoint.no_session_ok| |by intros [? ?]].
  etrans; [exact Hsd1|done].
Qed.

Lemma client_recv_wp others cl s ω rc c :
  Endpoint.session_ok (endpoint cl) → io_ok (endpoint cl) s → enough (endpoint cl) ω →
  Forall (λ o, Endpoint.through_sender o = true) others →
  Endpoint.receiver (endpoint cl) = Some rc → Endpoint.sealer (endpoint cl) = Some c →
  tpost (recv max fuel others cl) ω (λ p ω', receives max others c rc cl s ω p ω'
    ∧ unread (Endpoint.reader (endpoint p.2)) ω' + Nat.b2n (is_ok p.1)
      ≤ unread (Endpoint.reader (endpoint cl)) ω).
Proof.
  intros Hses Hok Hf Hall Hrc Hc. unfold recv. rewrite Hrc.
  apply (Endpoint.receive_wp max fuel Hmax budget _ _ _ s); try done.
  intros r ep' ω' evs sent s' Hsays Hmv Hok' Hses' Hu Erc Ec Eal Esd Hb _.
  pose proof (λ b m, recv_ends others cl s ω rc c r ep' ω' evs sent s' b m Hsays Hmv Hok'
    Hses' Eal Esd) as Hend.
  assert (bound_after others c cl
    (bool_decide (Outbound.binding (Endpoint.outbound ep') = Some c))) as Hbd.
  { destruct Hb as [->|[Ho ->]]; [by left|right; by rewrite bool_decide_eq_false_2]. }
  destruct r as [[packet|]|err].
  - unfold Endpoint.open_packet. rewrite Ec, Hc. post_steps. unfold expect. post_step.
    destruct (open rc packet) as [opened rc'] eqn:Eo. post_step. unfold Outbound.finish_receive.
    destruct (decide (Outbound.binding (Endpoint.outbound ep') = Some c)) as [E|E];
      [rewrite bool_decide_eq_true_2 in Hbd by done|rewrite bool_decide_eq_false_2 in Hbd by done].
    + destruct opened as [m|e]; post_step.
      * split; [|destruct Hsays as (? & -> & _); simpl in *; lia].
        exists (Ok (Some packet)), true, evs, sent, s'.
        simpl. rewrite Eo. split_and!; try done; [by destruct Hok'| |intros _; simpl; split; congruence].
        destruct Hses' as [Hx Hy Hz]. split; [|done..]. simpl. rewrite Ec, Hc. by split; eauto.
      * split; [|simpl; lia]. eapply Hend; [exact Hbd|]. simpl. by rewrite Eo.
    + post_step. split; [|simpl; lia]. by eapply Hend; [exact Hbd|].
  - post_step. split; [|simpl; lia]. by eapply Hend; [exact Hbd|].
  - post_step. split; [|simpl; lia]. by eapply Hend; [exact Hbd|].
Qed.
End lemmas.

(** ** The life of a client *)

Section commands.
Context {Ω : Type} `{Env Ω, Cobs, Keys, !Messages, !Crypto, !Host Ω} (max fuel : nat).
Context {Info : Type}.

(** The calls of the owner, and of other threads through senders in between. *)
Inductive Cmd :=
  | CmdConnect (verify : Verifier Info)
  | CmdRecv (others : list Outbound.Op)
  | CmdSenders (others : list Outbound.Op).

Definition run_cmd (cmd : Cmd) (cl : State) : M Ω State :=
  match cmd with
  | CmdConnect verify => '(_, cl) ← connect max fuel verify cl; mret cl
  | CmdRecv others => '(_, cl) ← recv max fuel others cl; mret cl
  | CmdSenders others =>
      ep ← Endpoint.interfere max fuel others (endpoint cl);
      mret (with_endpoint cl ep)
  end.

Fixpoint run_cmds (cmds : list Cmd) (cl : State) : M Ω State :=
  match cmds with
  | [] => mret cl
  | cmd :: cmds => cl ← run_cmd cmd cl; run_cmds cmds cl
  end.

Definition senders_only (cmd : Cmd) : Prop :=
  match cmd with
  | CmdConnect _ => True
  | CmdRecv others | CmdSenders others =>
      Forall (λ o, Endpoint.through_sender o = true) others
  end.
End commands.
Arguments Cmd {_} Info.

(** A client between calls. *)
Record well_formed `{Hpke} (max : nat) (cl : State) : Prop := MkWellFormed {
  wf_session : Endpoint.session_ok (endpoint cl);
  wf_io : ∃ s, Endpoint.io_ok max (endpoint cl) s;
  wf_side : Outbound.side (Endpoint.outbound (endpoint cl)) = Outbound.Client;
}.

(** A context of the past: allocated, and not the current session's. *)
Definition retired `{Hpke} (c : nat) (cl : State) : Prop :=
  c < Endpoint.allocated (endpoint cl) ∧ Endpoint.sealer (endpoint cl) ≠ Some c.

Lemma retired_unbound `{Hpke} max c cl :
  well_formed max cl → retired c cl →
  Outbound.binding (Endpoint.outbound (endpoint cl)) ≠ Some c.
Proof. intros [[_ Hb _] _ _] [_ Hs] E. by apply Hb in E. Qed.

Section life.
Context {Ω : Type} `{EnvLaws Ω, CobsLaws, Keys, !Messages, !Crypto, !Host Ω, !HostLaws Ω}.
Context (in_step : SealCtx → OpenCtx → Prop) `{!CryptoLaws in_step}.
Context (budget : Ω → nat) `{!EnvBudget Ω budget, !HostBudget Ω budget, !AfterEpoch Ω}.
Context (max fuel : nat) (Hmax : 0 < max) {Info : Type}.

Abbreviation enough := (Endpoint.enough max fuel budget).

Lemma connect_wf (verify : Verifier Info) cl ω :
  well_formed max cl → enough (endpoint cl) ω →
  tpost (connect max fuel verify cl) ω (λ p ω', well_formed max p.2
    ∧ enough (endpoint p.2) ω' ∧ (is_err p.1 = true → Endpoint.no_session (endpoint p.2))
    ∧ (∀ c, c < Endpoint.allocated (endpoint cl) → retired c p.2)).
Proof.
  intros [Hses [s Hio] Hsd] Hf.
  eapply wp_mono; [by apply (connect_wp in_step budget max fuel Hmax verify cl s)|].
  intros [r cl'] ω' Hspec. destruct (xdsa_generate _), (xhpke_generate _).
  destruct Hspec as ((evs & sent & s' & Hmv & Hio' & Hsd' & Hr) & _ & Hu). simpl in *.
  split_and!.
  - split; [|eauto|congruence]. destruct r as [[[c ctx] info]|e].
    + destruct Hr as (-> & Hal & Hs & Hb & packet & rc & ? & ? & ? & ? & ? & ? & ? & Hrc & _).
      split; rewrite ?Hs, ?Hb, ?Hrc, ?Hal; [by split; eauto|done|]. intros c [= <-]. lia.
    + destruct Hr. by apply Endpoint.no_session_ok.
  - by eapply Endpoint.enough_le.
  - destruct r as [[[c ctx] info]|e]; [done|]. naive_solver.
  - intros c Hc. destruct r as [[[c' ctx] info]|e].
    + destruct Hr as (-> & Hal & Hs & _). split; [lia|]. rewrite Hs. intros [=]; lia.
    + destruct Hr as [(_ & Hs & _) Hal]. split; [lia|]. by rewrite Hs.
Qed.

Lemma recv_wf others cl ω :
  well_formed max cl → enough (endpoint cl) ω →
  Forall (λ o, Endpoint.through_sender o = true) others →
  tpost (recv max fuel others cl) ω (λ p ω', well_formed max p.2
    ∧ enough (endpoint p.2) ω' ∧ (∀ c, retired c cl → retired c p.2)).
Proof.
  intros Hwf Hf Hall. pose proof Hwf as [Hses [s Hio] Hsd].
  destruct (Endpoint.receiver (endpoint cl)) as [rc|] eqn:Erc.
  2:{ unfold recv. rewrite Erc. by post_step. }
  assert (∃ c, Endpoint.sealer (endpoint cl) = Some c) as [c Hc]
    by (apply (Endpoint.ok_contexts _ Hses); eauto).
  eapply wp_mono; [by apply (client_recv_wp budget max fuel Hmax others cl s ω rc c)|].
  intros [m cl'] ω' [(r & b & evs & sent & s' & _ & _ & Hio' & Hses' & Hal & Hsd' & _ & _ & Hs) Hu].
  simpl in *. split_and!.
  - split; [done|eauto|congruence].
  - eapply Endpoint.enough_le, Nat.le_trans, Hu; [done..|lia].
  - intros c' [Ha Hne]. split; [lia|]. intros E. apply Hne. rewrite Hc, <-E. symmetry. apply Hs.
    apply (Endpoint.ok_contexts _ Hses'). eauto.
Qed.

Lemma run_cmd_wf (cmd : Cmd Info) cl ω :
  well_formed max cl → enough (endpoint cl) ω → senders_only cmd →
  tpost (run_cmd max fuel cmd cl) ω (λ cl' ω', well_formed max cl'
    ∧ enough (endpoint cl') ω' ∧ (∀ c, retired c cl → retired c cl')).
Proof.
  intros Hwf Hf Hcmd. destruct cmd as [verify|others|others]; simpl in *.
  - post_step. eapply wp_mono; [by apply connect_wf|]. intros [r cl'] ω' (?&?&_&Hret).
    post_step. split_and!; [done..|]. intros c [Hc _]. by apply Hret.
  - post_step. eapply wp_mono; [by apply recv_wf|]. intros [m cl'] ω' ?. by post_step.
  - pose proof Hwf as [[Hx Hy Hz] [s Hio] Hsd]. post_step.
    eapply wp_mono; [by apply (Endpoint.interfere_wp max fuel Hmax budget others _ s)|].
    intros ep' ω' (ob' & sent & s' & -> & Hio' & _ & Hu & Hsd' & _ & Hb). post_step.
    split_and!; [split; [split|eauto|]| |done]; simpl; try done.
    + intros c Hc. apply Hy. destruct Hb as [Hb|[_ Hb]]; congruence.
    + congruence.
    + by eapply Endpoint.enough_le.
Qed.

Lemma run_cmds_wf (cmds : list (Cmd Info)) cl ω :
  well_formed max cl → enough (endpoint cl) ω → Forall senders_only cmds →
  tpost (run_cmds max fuel cmds cl) ω (λ cl' ω', well_formed max cl'
    ∧ enough (endpoint cl') ω' ∧ (∀ c, retired c cl → retired c cl')).
Proof.
  revert cl ω. induction cmds as [|cmd cmds IH]; intros cl ω Hwf Hf Hall; simpl.
  { post_step. auto. }
  apply Forall_cons in Hall as [Hc Hall]. post_step.
  eapply wp_mono; [by apply run_cmd_wf|]. intros cl1 ω1 (?&?&Hr).
  eapply wp_mono; [by apply IH|]. intros cl2 ω2 (?&?&?). eauto.
Qed.

Lemma new_wf timeout : well_formed max (new max timeout).
Proof.
  split; [|exists at_boundary; split; [apply reader_new_ok|by apply writer_new_ok]|done].
  by apply Endpoint.no_session_ok.
Qed.
End life.

(** ** What a client guarantees *)

(** C2: Connecting returns, and a session is what the handshake authenticated.
    The client takes frames from the stream until one names the key it has just
    generated, whatever stale, empty, undecodable or oversized frames come
    before. That packet decrypts with the fresh key; its ArkHello verifies,
    bound to both fresh keys, under the identity the trust policy returned for
    the attestation inside that same hello; the receive context comes from its
    encapsulation, the ack goes out signed by the fresh key and bound to that
    identity, behind a reset and the hello; and the new session is bound to a
    context never used before. On any failure there is no session. *)
Theorem connect_authenticates {Ω : Type}
    `{EnvLaws Ω, CobsLaws, Keys, !Messages, !Crypto, !Host Ω, !HostLaws Ω}
    (in_step : SealCtx → OpenCtx → Prop) `{!CryptoLaws in_step} (budget : Ω → nat)
    `{!EnvBudget Ω budget, !HostBudget Ω budget, !AfterEpoch Ω} (max fuel : nat)
    {Info : Type} (verify : Verifier Info) (cl : State) (s : scanner) (ω : Ω) :
  0 < max → well_formed max cl → Endpoint.io_ok max (endpoint cl) s →
  Endpoint.enough max fuel budget (endpoint cl) ω →
  let '(xsk, ω1) := xdsa_generate (clock_now ω).2 in
  let '(hsk, _) := xhpke_generate ω1 in
  ∃ r cl' ω',
    connect max fuel verify cl ω = Ret ((r, cl'), ω')
    ∧ handshake_spec max verify xsk hsk (endpoint cl) s ω (r, endpoint cl') ω'.
Proof.
  intros Hm Hwf Hio Hf.
  destruct (tpost_returns _ _ _ (connect_wp in_step budget max fuel Hm verify cl s ω
    (wf_session _ _ Hwf) Hio Hf)) as ([r cl'] & ω' & Hrun & Hspec).
  destruct (xdsa_generate _), (xhpke_generate _). exists r, cl', ω'. naive_solver.
Qed.

(** C11: Reconnecting retires every sender issued before, whether or not it
    succeeds: through any later calls of the client and of its senders a send
    through an old handle writes nothing, changes nothing and reports the ended
    session. A failed attempt leaves no session at all. *)
Theorem connect_retires_senders {Ω : Type}
    `{EnvLaws Ω, CobsLaws, Keys, !Messages, !Crypto, !Host Ω, !HostLaws Ω}
    (in_step : SealCtx → OpenCtx → Prop) `{!CryptoLaws in_step} (budget : Ω → nat)
    `{!EnvBudget Ω budget, !HostBudget Ω budget, !AfterEpoch Ω} (max fuel : nat)
    {Info : Type} (verify : Verifier Info) (cl : State) (cmds : list (Cmd Info)) (ω : Ω) :
  0 < max → well_formed max cl → Endpoint.enough max fuel budget (endpoint cl) ω →
  Forall senders_only cmds →
  ∃ r cl1 ω1 cl2 ω2,
    connect max fuel verify cl ω = Ret ((r, cl1), ω1)
    ∧ (is_err r = true → Endpoint.no_session (endpoint cl1))
    ∧ run_cmds max fuel cmds cl1 ω1 = Ret (cl2, ω2)
    ∧ ∀ c packet ω3, c < Endpoint.allocated (endpoint cl) →
        let ob := Endpoint.outbound (endpoint cl2) in
        Outbound.send max fuel c packet ob ω3 = Ret ((Err Outbound.session_ended, ob), ω3).
Proof.
  intros Hm Hwf Hf Hcmds.
  destruct (tpost_returns _ _ _ (connect_wf in_step budget max fuel Hm verify cl ω Hwf Hf))
    as ([r cl1] & ω1 & Hrun1 & Hwf1 & Hf1 & Herr & Hret).
  destruct (tpost_returns _ _ _ (run_cmds_wf in_step budget max fuel Hm cmds cl1 ω1 Hwf1 Hf1 Hcmds))
    as (cl2 & ω2 & Hrun2 & Hwf2 & _ & Hret2).
  exists r, cl1, ω1, cl2, ω2. split_and!; try done. intros c packet ω3 Hc ob.
  unfold Outbound.send. rewrite decide_True; [done|].
  apply (retired_unbound max); [done|]. by apply Hret2, Hret.
Qed.

(** C13: A client's state stays well formed through any sequence of connects,
    receives and sends from other threads, all of which return: it has both
    contexts of a session or none, only that session's senders can use the
    output, the reader's cursors are in order, and the peer is between frames
    unless a recovery delimiter is due. *)
Theorem client_well_formed {Ω : Type}
    `{EnvLaws Ω, CobsLaws, Keys, !Messages, !Crypto, !Host Ω, !HostLaws Ω}
    (in_step : SealCtx → OpenCtx → Prop) `{!CryptoLaws in_step} (budget : Ω → nat)
    `{!EnvBudget Ω budget, !HostBudget Ω budget, !AfterEpoch Ω} (max fuel : nat)
    {Info : Type} (cmds : list (Cmd Info)) (timeout : Duration) (ω : Ω) :
  0 < max → max + 2 + (max + 1) * budget ω < fuel → Forall senders_only cmds →
  ∃ cl' ω', run_cmds max fuel cmds (new max timeout) ω = Ret (cl', ω')
    ∧ well_formed max cl'.
Proof.
  intros Hm Hf Hcmds.
  destruct (tpost_returns _ _ _ (run_cmds_wf in_step budget max fuel Hm cmds _ ω
    (new_wf max timeout) Hf Hcmds)) as (cl' & ω' & Hrun & Hwf & _). eauto.
Qed.

(** C12: Receiving returns and agrees with the reference: in a session, whatever
    other threads do meanwhile, the message is what the receive context opens
    while the session is still bound, and every other result of the frame
    reader, an empty frame, or a packet that does not open ends the session
    with the error the reference names. Without a session nothing is read. *)
Theorem recv_matches_reference {Ω : Type} `{EnvLaws Ω, CobsLaws, Keys, !Crypto}
    (budget : Ω → nat) `{!EnvBudget Ω budget} (max fuel : nat) (others : list Outbound.Op) (cl : State)
    (s : scanner) (ω : Ω) :
  0 < max → well_formed max cl → Endpoint.io_ok max (endpoint cl) s →
  Endpoint.enough max fuel budget (endpoint cl) ω →
  Forall (λ o, Endpoint.through_sender o = true) others →
  match Endpoint.receiver (endpoint cl), Endpoint.sealer (endpoint cl) with
  | Some rc, Some c => ∃ m cl' ω',
      recv max fuel others cl ω = Ret ((m, cl'), ω')
      ∧ receives max others c rc cl s ω (m, cl') ω'
  | _, _ =>
      recv max fuel others cl ω
      = Ret ((Err (EncryptionFailed "no active session"), cl), ω)
  end.
Proof.
  intros Hm Hwf Hio Hf Hall. pose proof (wf_session _ _ Hwf) as Hses.
  destruct (Endpoint.receiver (endpoint cl)) as [rc|] eqn:Erc; [|by unfold recv; rewrite Erc].
  destruct (Endpoint.sealer (endpoint cl)) as [c|] eqn:Ec.
  - destruct (tpost_returns _ _ _ (client_recv_wp budget max fuel Hm others cl s ω rc c
      Hses Hio Hf Hall Erc Ec)) as ([m cl'] & ω' & Hrun & Hspec & _). eauto.
  - destruct (proj1 (Endpoint.ok_contexts _ Hses)) as [c Hc]; eauto. congruence.
Qed.

(** ** A concrete run *)

Import Plain.

(** The Ark with the identity [x0a] answers the host whose keys are [x02] and
    [x03]. *)
Definition ark_packet : list byte :=
  match seal_at (P:=ArkHello) (A:=ArkHelloAuth) 
          (MkArkHello [Byte.x48; Byte.x01] (Byte.x0b : byte) [Byte.x07])
          (MkArkHelloAuth (Byte.x02 : byte) (Byte.x03 : byte)) Byte.x0a Byte.x03 CRYPTO_DOMAIN_WIRE
          PaddingNone 0 Byte.x07 with
  | Ok p => p
  | Err _ => []
  end.

Definition framed_packet (p : list byte) : list byte :=
  default [] (cobs_encode 60 p) ++ [Byte.x00].

(** The policy that pins the identity [k]. *)
Definition trusting (k : byte) : Verifier Attestation := verify_pinned k.

(** Leftovers of an older session, a reply to another key, an empty frame, and
    the answer. *)
Definition arrival : Script.world :=
  Script.start
    [Ok [Byte.x05; Byte.x11; Byte.x00]; Ok (framed_packet [Byte.x04; Byte.x01] ++ [Byte.x00]);
     Ok (framed_packet ark_packet); Ok (framed_packet (Clear.tag 29 ++ [Byte.x66]))] [].

Definition host : State := new 60 5000.

Lemma host_wf : well_formed 60 host.
Proof. apply new_wf. Qed.

Lemma host_io : Endpoint.io_ok 60 (endpoint host) at_boundary.
Proof. split; [apply reader_new_ok|apply writer_new_ok]. Qed.

Example arrival_connects :
  match connect 60 9000 (trusting Byte.x0a) host arrival with
  | Ret ((Ok ((c, ctx), info), cl), _) =>
      c = 0 ∧ ctx = 37 ∧ info = MkAttestation [Byte.x48; Byte.x01]
      ∧ Endpoint.receiver (endpoint cl) = Some 29
  | _ => False
  end.
Proof. vm_compute. by split_and!. Qed.

Lemma host_enough : Endpoint.enough 60 9000 Script.budget (endpoint host) arrival.
Proof. apply Nat.ltb_lt. vm_compute. reflexivity. Qed.

Lemma connect_authenticates_witness :
  let '(xsk, ω1) := xdsa_generate (clock_now arrival).2 in
  let '(hsk, _) := xhpke_generate ω1 in
  ∃ r cl' ω',
    connect 60 9000 (trusting Byte.x0a) host arrival = Ret ((r, cl'), ω')
    ∧ handshake_spec 60 (trusting Byte.x0a) xsk hsk (endpoint host) at_boundary arrival
        (r, endpoint cl') ω'.
Proof.
  apply (connect_authenticates (H3:=keys) (H5:=crypto) Clear.in_step Script.budget 60 9000 (trusting Byte.x0a)
    host at_boundary arrival); [lia|apply host_wf|apply host_io|apply host_enough].
Defined.

(** The client after that handshake, and its world. *)
Definition settled {A Ω} (d : State * Ω) (o : outcome (A * State * Ω)) : State * Ω :=
  match o with Ret ((_, cl), ω) => (cl, ω) | _ => d end.

Lemma settled_wp {A Ω} d (m : M Ω (A * State)) ω (Q : State → Ω → Prop) :
  tpost m ω (λ p ω', Q p.2 ω') → Q (settled d (m ω)).1 (settled d (m ω)).2.
Proof. unfold wp, settled. by destruct (m ω) as [[[r cl] ω']| |]. Qed.

Definition connected : State * Script.world :=
  settled (host, arrival) (connect 60 9000 (trusting Byte.x0a) host arrival).

Lemma connected_ok :
  well_formed 60 connected.1
  ∧ Endpoint.enough 60 9000 Script.budget (endpoint connected.1) connected.2.
Proof.
  unfold connected. apply (settled_wp _ _ _ (λ cl ω, well_formed 60 cl
    ∧ Endpoint.enough 60 9000 Script.budget (endpoint cl) ω)).
  eapply wp_mono; [apply (connect_wf (H3:=keys) (H5:=crypto) Clear.in_step Script.budget);
    [lia|apply host_wf|apply host_enough]|].
  by intros p ω (?&?&_).
Qed.

(** Another thread ends the session, a receive notices, and the client tries to
    connect again. *)
Definition afterwards : list (Cmd Attestation) :=
  [CmdRecv [Outbound.OpDisconnect 0]; CmdSenders [Outbound.OpSend 0 [Byte.x66]];
   CmdConnect (trusting Byte.x0c)].

Lemma afterwards_senders : Forall senders_only afterwards.
Proof. by repeat constructor. Qed.

Lemma connect_retires_senders_witness :
  ∃ r cl1 ω1 cl2 ω2,
    connect 60 9000 (trusting Byte.x0a) connected.1 connected.2 = Ret ((r, cl1), ω1)
    ∧ (is_err r = true → Endpoint.no_session (endpoint cl1))
    ∧ run_cmds 60 9000 afterwards cl1 ω1 = Ret (cl2, ω2)
    ∧ ∀ c packet ω3, c < Endpoint.allocated (endpoint connected.1) →
        let ob := Endpoint.outbound (endpoint cl2) in
        Outbound.send 60 9000 c packet ob ω3 = Ret ((Err Outbound.session_ended, ob), ω3).
Proof.
  apply (connect_retires_senders (H3:=keys) (H5:=crypto) Clear.in_step Script.budget 60 9000 (trusting Byte.x0a)
    connected.1 afterwards connected.2);
    [lia|apply connected_ok..|apply afterwards_senders].
Defined.

Lemma client_well_formed_witness :
  ∃ cl' ω', run_cmds 60 9000 (CmdConnect (trusting Byte.x0a) :: afterwards) host arrival
            = Ret (cl', ω')
    ∧ well_formed 60 cl'.
Proof.
  apply (client_well_formed (H3:=keys) (H5:=crypto) Clear.in_step Script.budget 60 9000
    (CmdConnect (trusting Byte.x0a) :: afterwards) 5000 arrival);
    [lia|apply host_enough|constructor; [done|apply afterwards_senders]].
Defined.

Lemma connected_io : ∃ s, Endpoint.io_ok 60 (endpoint connected.1) s.
Proof. apply connected_ok. Qed.

Lemma connected_session :
  Endpoint.receiver (endpoint connected.1) = Some 29
  ∧ Endpoint.sealer (endpoint connected.1) = Some 0.
Proof. vm_compute. by split. Qed.

Lemma recv_matches_reference_witness :
  ∃ s m cl' ω',
    recv 60 9000 [] connected.1 connected.2 = Ret ((m, cl'), ω')
    ∧ receives 60 [] 0 29 connected.1 s connected.2 (m, cl') ω'.
Proof.
  destruct connected_io as [s Hs]. exists s.
  pose proof (recv_matches_reference Script.budget 60 9000 [] connected.1 s connected.2
    ltac:(lia) (proj1 connected_ok) Hs (proj2 connected_ok) (Forall_nil_2 _)) as Hrecv.
  rewrite (proj1 connected_session), (proj2 connected_session) in Hrecv. exact Hrecv.
Defined.
End Client.
