(* ===== verification/TransportServer.v ===== *)
(** * The transport's server ([transport/server.rs])

    [Server::recv] with the handshake it runs after a reset, the events it
    reports and [Server::disconnect]. As in the client, the calls other threads
    complete through senders while a pass waits for its packet are an argument,
    one list per pass. *)

From S2P Require Import Prelude Closer Io Script Stream Cobs Framing Sealing Outbound Endpoint Handshake TransportClient.

Module Server.

(** ** State *)

(** [Event] *)
Inductive Event `{Hpke} :=
  | Connected (sender : Endpoint.handle)
  | Disconnected
  | Message (message : list byte).

(** [A] is the attester's own state. *)
Record State `{Keys, !Crypto} {A : Type} := MkServer {
  endpoint : Endpoint.State;
  signer : xdsa_SecretKey;
  attester : A;
  handshake_timeout : Duration;
  handshake_deadline : option Instant;
}.
Arguments State {_ _} A.
Arguments MkServer {_ _ _} _ _ _ _ _.

Section server.
Context {Ω : Type} `{Env Ω, Cobs, Keys, !Messages, !Crypto, !Host Ω} (max fuel : nat).
Context {A : Type} (attest : A → Attestation * A).

Definition with_endpoint (sv : State A) (ep : Endpoint.State) : State A :=
  MkServer ep (signer sv) (attester sv) (handshake_timeout sv) (handshake_deadline sv).

Definition with_attester (sv : State A) (a : A) : State A :=
  MkServer (endpoint sv) (signer sv) a (handshake_timeout sv) (handshake_deadline sv).

Definition with_deadline (sv : State A) (deadline : option Instant) : State A :=
  MkServer (endpoint sv) (signer sv) (attester sv) (handshake_timeout sv) deadline.

(** [Server::new], over a stream with the write timeout [timeout]. *)
Definition new (timeout : Duration) (signer : xdsa_SecretKey) (attester : A) : State A :=
  MkServer (Endpoint.new max Outbound.Server timeout) signer attester
    DEFAULT_HANDSHAKE_TIMEOUT None.

(** [Server::set_handshake_timeout] *)
Definition set_handshake_timeout (timeout : Duration) (sv : State A) : State A :=
  MkServer (endpoint sv) (signer sv) (attester sv) timeout (handshake_deadline sv).

(** [Server::new_session] *)
Definition new_session (sender : SealCtx) (receiver : OpenCtx) (sv : State A) :
  Endpoint.handle * State A :=
  let '(sender, ep) := Endpoint.new_session sender receiver (endpoint sv) in
  (sender, with_endpoint sv ep).

(** [Server::end_session] *)
Definition end_session (sv : State A) : bool * State A :=
  let '(ended, ep) := Endpoint.end_session (endpoint sv) in (ended, with_endpoint sv ep).

(** [Server::send_dropped], and the same call under a limit; a failure is only
    logged. *)
Definition send_dropped (limit : option Instant) (sv : State A) : M Ω (State A) :=
  '(_, ep) ← Endpoint.output max fuel (Outbound.OpSendDropped limit) (endpoint sv);
  mret (with_endpoint sv ep).

(** [Server::disconnect] *)
Definition disconnect (sv : State A) : M Ω (State A) :=
  let '(_, sv) := end_session sv in send_dropped None sv.

(** [Server::drop]: closes the stream, then ends the session. *)
Definition drop (sv : State A) : M Ω (State A) :=
  _ ← Outbound.close fuel;
  mret (end_session sv).2.

(** ** The handshake *)

(** The loop that skips empty frames before the HostHello. *)
Fixpoint await_hello (passes : nat) (deadline : Instant) (ep : Endpoint.State) :
  M Ω (result (list byte) Error * Endpoint.State) :=
  match passes with
  | O => diverge
  | S passes =>
      '(r, ep) ← Endpoint.next_packet max fuel (Some deadline) ep;
      match r with
      | Err err => mret (Err err, ep)
      | Ok (Some packet) => mret (Ok packet, ep)
      | Ok None => await_hello passes deadline ep
      end
  end.

(** From the HostHello's packet to the sealed ArkHello: the hello, the fresh
    key, the send context and message 2. *)
Definition answer_hello (signer : xdsa_SecretKey) (attester : A) (packet : list byte) :
  M Ω (result (HostHello * xhpke_SecretKey * SealCtx * list byte) Error * A) :=
  match map_err (Client.failed "invalid client hello")
          (cbor_decode packet : result HostHello string) with
  | Err err => mret (Err err, attester)
  | Ok host_hello =>
      ark_crypto_key ← op xhpke_generate;
      seed ← op draw;
      match map_err (Client.failed "server sender setup failed")
              (new_sender (host_crypto host_hello) CRYPTO_DOMAIN_WIRE_ARK_TO_HOST seed) with
      | Err err => mret (Err err, attester)
      | Ok (sender, a2h_encap) =>
          let '(attestation, attester) := attest attester in
          let ark_hello := MkArkHello (into_bytes attestation)
                             (xhpke_public_key ark_crypto_key) a2h_encap in
          let auth := MkArkHelloAuth (host_signer host_hello) (host_crypto host_hello) in
          t ← timestamp;
          seed ← op draw;
          match map_err (Client.failed "failed to seal server hello")
                  (seal_at ark_hello auth signer (host_crypto host_hello)
                     CRYPTO_DOMAIN_WIRE PaddingNone t seed) with
          | Err err => mret (Err err, attester)
          | Ok sealed => mret (Ok (host_hello, ark_crypto_key, sender, sealed), attester)
          end
      end
  end.

(** Opening the HostAck and setting up the receive context. *)
Definition open_ack (signer : xdsa_SecretKey) (host_hello : HostHello)
    (ark_crypto_key : xhpke_SecretKey) (packet : list byte) : result OpenCtx Error :=
  let auth := MkHostAckAuth (xdsa_public_key signer) (xhpke_public_key ark_crypto_key) in
  match map_err (Client.failed "invalid client ack")
          (open_at packet auth ark_crypto_key (host_signer host_hello) CRYPTO_DOMAIN_WIRE
           : result HostAck string) with
  | Err err => Err err
  | Ok host_ack =>
      match Client.sized_encap "invalid h2a_encap size" (h2a_encap host_ack) with
      | Err err => Err err
      | Ok enc_h2a =>
          map_err (Client.failed "server receiver setup failed")
            (new_receiver ark_crypto_key CRYPTO_DOMAIN_WIRE_HOST_TO_ARK enc_h2a)
      end
  end.

(** The exchange, restarted by a reset in place of the HostAck. *)
Fixpoint exchange (rounds : nat) (deadline : Instant) (sv : State A) :
  M Ω (result (SealCtx * OpenCtx) Error * State A) :=
  match rounds with
  | O => diverge
  | S rounds =>
      '(r, ep) ← await_hello fuel deadline (endpoint sv);
      let sv := with_endpoint sv ep in
      match r with
      | Err err => mret (Err err, sv)
      | Ok packet =>
          '(answer, a) ← answer_hello (signer sv) (attester sv) packet;
          let sv := with_attester sv a in
          match answer with
          | Err err => mret (Err err, sv)
          | Ok (host_hello, ark_crypto_key, sender, ark_hello) =>
              '(r, ep) ← Endpoint.output max fuel
                (Outbound.OpSendPacket ark_hello (Some deadline)) (endpoint sv);
              let sv := with_endpoint sv ep in
              match r with
              | Err err => mret (Err err, sv)
              | Ok _ =>
                  '(r, ep) ← Endpoint.next_packet max fuel (Some deadline) (endpoint sv);
                  let sv := with_endpoint sv ep in
                  match r with
                  | Err err => mret (Err err, sv)
                  | Ok None => exchange rounds deadline sv
                  | Ok (Some packet) =>
                      match open_ack (signer sv) host_hello ark_crypto_key packet with
                      | Err err => mret (Err err, sv)
                      | Ok receiver => mret (Ok (sender, receiver), sv)
                      end
                  end
              end
          end
      end
  end.

(** [Server::handshake] *)
Definition handshake (deadline : Instant) (sv : State A) :
  M Ω (result (SealCtx * OpenCtx) Error * State A) :=
  let ep := endpoint sv in
  exchange fuel deadline
    (with_endpoint sv (Endpoint.set_outbound (Outbound.unbind (Endpoint.outbound ep)) ep)).

(** ** Receiving *)

(** The passes of [Server::recv]. *)
Fixpoint passes (n : nat) (others : list (list Outbound.Op)) (sv : State A) :
  M Ω (result Event Error * State A) :=
  match n with
  | O => diverge
  | S n =>
      match handshake_deadline sv with
      | Some deadline =>
          '(r, sv) ← handshake deadline (with_deadline sv None);
          match r with
          | Err Terminated => mret (Err Terminated, sv)
          | Err (RecvFailed err) => mret (Err (RecvFailed err), sv)
          | Err (SendFailed err) => mret (Err (SendFailed err), sv)
          | Err _ =>
              sv ← send_dropped (Some deadline) sv;
              late ← check_deadline deadline;
              match late with
              | Err err => mret (Err (RecvFailed err), sv)
              | Ok _ => passes n others sv
              end
          | Ok (sender, receiver) =>
              let '(sender, sv) := new_session sender receiver sv in
              mret (Ok (Connected sender), sv)
          end
      | None =>
          '(r, ep) ← Endpoint.next_packet max fuel None (endpoint sv);
          ep ← Endpoint.interfere max fuel (default [] (head others)) ep;
          let sv := with_endpoint sv ep in
          match r with
          | Err Terminated => mret (Err Terminated, sv)
          | Err (RecvFailed err) => mret (Err (RecvFailed err), sv)
          | Err _ =>
              let '(ended, sv) := end_session sv in
              sv ← send_dropped None sv;
              if (ended : bool) then mret (Ok Disconnected, sv)
              else passes n (tail others) sv
          | Ok None =>
              deadline ← deadline_after (handshake_timeout sv);
              let '(ended, sv) := end_session (with_deadline sv (Some deadline)) in
              if (ended : bool) then mret (Ok Disconnected, sv)
              else passes n (tail others) sv
          | Ok (Some packet) =>
              match Endpoint.receiver (endpoint sv) with
              | None =>
                  sv ← send_dropped None sv;
                  passes n (tail others) sv
              | Some receiver =>
                  '(m, ep) ← Endpoint.open_packet receiver packet (endpoint sv);
                  let sv := with_endpoint sv ep in
                  match m with
                  | Err _ =>
                      let '(_, sv) := end_session sv in
                      sv ← send_dropped None sv;
                      mret (Ok Disconnected, sv)
                  | Ok message => mret (Ok (Message message), sv)
                  end
              end
          end
      end
  end.

(** [Server::recv] *)
Definition recv (others : list (list Outbound.Op)) (sv : State A) :
  M Ω (result Event Error * State A) :=
  passes (fuel + fuel) others sv.
End server.

(** ** Specification *)

Section spec.
Context `{Keys, !Messages, !Crypto}.

(** The answer to a HostHello: the send context goes to the host's key, and the
    ArkHello carries the attestation, the fresh key and the encapsulation,
    signed by the server's identity and bound to both of the host's keys. *)
Record answered (signer : xdsa_SecretKey) (packet : list byte) (hello : HostHello)
    (key : xhpke_SecretKey) (ctx : SealCtx) (reply : list byte) : Prop := MkAnswered {
  an_hello : cbor_decode packet = Ok hello;
  an_reply : ∃ seed encap attestation t seed',
    new_sender (host_crypto hello) CRYPTO_DOMAIN_WIRE_ARK_TO_HOST seed = Ok (ctx, encap)
    ∧ seal_at (MkArkHello (into_bytes attestation) (xhpke_public_key key) encap)
        (MkArkHelloAuth (host_signer hello) (host_crypto hello)) signer (host_crypto hello)
        CRYPTO_DOMAIN_WIRE PaddingNone t seed' = Ok reply;
}.

(** The ack that completes it: signed by the key of the same hello, bound to
    the server's identity and fresh key, and the receive context from its
    encapsulation. *)
Definition acknowledged (signer : xdsa_SecretKey) (hello : HostHello) (key : xhpke_SecretKey)
    (packet : list byte) (rc : OpenCtx) : Prop :=
  ∃ ack,
    open_at packet (MkHostAckAuth (xdsa_public_key signer) (xhpke_public_key key)) key
      (host_signer hello) CRYPTO_DOMAIN_WIRE = Ok ack
    ∧ length (h2a_encap ack) = ENCAP_KEY_SIZE
    ∧ new_receiver key CRYPTO_DOMAIN_WIRE_HOST_TO_ARK (h2a_encap ack) = Ok rc.

(** A completed handshake within the events [evs] read and [sent] written: its
    ack directly follows its hello, and its reply is the last frame sent. *)
Definition established `{Cobs} (max : nat) (signer : xdsa_SecretKey) (evs sent : list event)
    (ctx : SealCtx) (rc : OpenCtx) : Prop :=
  ∃ pre ev_hello ev_ack sent' packet ack hello key reply,
    evs = pre ++ [ev_hello; ev_ack] ∧ sent = sent' ++ [Client.frame_of max reply]
    ∧ meaning max ev_hello = Ok (Some packet) ∧ meaning max ev_ack = Ok (Some ack)
    ∧ answered signer packet hello key ctx reply ∧ acknowledged signer hello key ack rc.

Lemma established_app `{Cobs} max signer evs0 sent0 evs sent ctx rc :
  established max signer evs sent ctx rc →
  established max signer (evs0 ++ evs) (sent0 ++ sent) ctx rc.
Proof.
  intros (pre & ev_hello & ev_ack & sent' & packet & ack & hello & key & reply & -> & -> & Hrest).
  exists (evs0 ++ pre), ev_hello, ev_ack, (sent0 ++ sent'), packet, ack, hello, key, reply.
  by rewrite !app_assoc.
Qed.
End spec.

Section lemmas.
Context {Ω : Type} `{EnvLaws Ω, CobsLaws, Keys, !Messages, !Crypto, !Host Ω, !HostLaws Ω}.
Context (budget : Ω → nat) `{!EnvBudget Ω budget, !HostBudget Ω budget, !AfterEpoch Ω}.
Context (max fuel : nat) (Hmax : 0 < max) {A : Type} (attest : A → Attestation * A).

Abbreviation still := (Endpoint.still budget).
Abbreviation enough := (Endpoint.enough max fuel budget).
Abbreviation unread := (unread max budget).
Abbreviation moves := (Endpoint.moves max).
Abbreviation io_ok := (Endpoint.io_ok max).
Abbreviation idles := (Endpoint.idles max budget).

Lemma server_await_hello_wp n deadline ep s ω :
  Endpoint.no_session ep → io_ok ep s → enough ep ω → unread (Endpoint.reader ep) ω < n →
  tpost (await_hello max fuel n deadline ep) ω (λ p ω', ∃ evs,
    idles ep s ω evs [] p.2 s ω'
    ∧ match p.1 with
      | Ok packet => ∃ pre ev, evs = pre ++ [ev] ∧ meaning max ev = Ok (Some packet)
                       ∧ unread (Endpoint.reader p.2) ω' < unread (Endpoint.reader ep) ω
      | Err _ => True
      end).
Proof.
  revert ep ω. induction n as [|n IH]; intros ep ω Hno Hok Hf Hn; [lia|]. simpl. post_step.
  eapply wp_mono; [by apply (Endpoint.next_packet_idles max fuel Hmax budget)|].
  intros [r ep1] ω1 (evs & Hi & Hu & Hsays). cbn [fst snd] in *.
  destruct r as [[packet|]|e].
  - destruct Hsays as (ev & -> & Hm). simpl in Hu. post_step. exists [ev]. split; [done|].
    exists [], ev. split_and!; [done..|]. simpl. lia.
  - destruct Hsays as (ev & -> & Hm). simpl in Hu.
    eapply wp_mono; [apply IH; [apply Hi..|by eapply Endpoint.idles_enough|lia]|].
    intros [r2 ep2] ω2 (evs2 & Hi2 & Hres). cbn [fst snd] in *.
    exists ([ev] ++ evs2). split; [by apply (Endpoint.idles_trans Hmax Hi Hi2)|].
    destruct r2 as [packet|e]; [|done]. destruct Hres as (pre & ev' & -> & Hm' & Hu2).
    exists ([ev] ++ pre), ev'. rewrite app_assoc. split_and!; [done..|]. lia.
  - post_step. by exists evs.
Qed.

Lemma server_answer_hello_wp sk a packet ω :
  tpost (answer_hello attest sk a packet) ω (λ p ω', still ω ω'
    ∧ match p.1 with
      | Ok (hello, key, ctx, reply) => answered sk packet hello key ctx reply
      | Err _ => True
      end).
Proof.
  unfold answer_hello. destruct (map_err _ (cbor_decode packet)) as [hello|e] eqn:Eh;
    [apply map_err_Ok in Eh|by post_step].
  post_step. apply (Client.still_op budget); [intros ?; by apply still_xhpke_generate|].
  intros key ω1 Hω1. post_step. apply (Client.still_op budget); [intros ?; by apply still_draw|].
  intros seed ω2 Hω2. assert (still ω ω2) as Hst by by etrans.
  destruct (map_err _ (new_sender _ _ _)) as [[ctx encap]|e] eqn:En;
    [apply map_err_Ok in En|by post_step].
  destruct (attest a) as [attestation a']. post_step.
  eapply wp_mono; [by apply (timestamp_wp budget)|]. intros t ω3 Hω3. cbn in Hω3. post_step.
  apply (Client.still_op budget); [intros ?; by apply still_draw|]. intros seed' ω4 Hω4.
  assert (still ω ω4) as Hst' by (etrans; [exact Hst|]; by etrans).
  destruct (map_err _ (seal_at _ _ _ _ _ _ _ _)) as [reply|e] eqn:Es;
    [apply map_err_Ok in Es|by post_step].
  post_step. split; [done|]. split; [done|]. eauto 10.
Qed.

Lemma open_ack_Ok sk hello key packet rc :
  open_ack sk hello key packet = Ok rc → acknowledged sk hello key packet rc.
Proof.
  unfold open_ack. destruct (map_err _ (open_at _ _ _ _ _)) as [ack|] eqn:Eo; [|done].
  apply map_err_Ok in Eo. unfold Client.sized_encap. case_decide as El; [|done].
  intros Hr%map_err_Ok. by exists ack.
Qed.

(** The parts of a server its handshakes leave alone. *)
Definition same_config (sv sv' : State A) : Prop :=
  signer sv' = signer sv ∧ handshake_timeout sv' = handshake_timeout sv
  ∧ handshake_deadline sv' = handshake_deadline sv.

(** One handshake: it leaves the server idle, and a result is established. *)
Definition handshake_spec (sv : State A) (s : scanner) (ω : Ω)
    (p : result (SealCtx * OpenCtx) Error * State A) (ω' : Ω) : Prop :=
  ∃ evs sent s', idles (endpoint sv) s ω evs sent (endpoint p.2) s' ω'
    ∧ same_config sv p.2
    ∧ match p.1 with
      | Ok (ctx, rc) => established max (signer sv) evs sent ctx rc
      | Err _ => True
      end.

Lemma server_handshake_failed sv s ω evs sent sv' s' ω' e :
  idles (endpoint sv) s ω evs sent (endpoint sv') s' ω' → same_config sv sv' →
  handshake_spec sv s ω (Err e, sv') ω'.
Proof. intros. by exists evs, sent, s'. Qed.

Lemma handshake_spec_after sv sv1 s s1 ω ω1 evs sent p ω' :
  idles (endpoint sv) s ω evs sent (endpoint sv1) s1 ω1 → same_config sv sv1 →
  handshake_spec sv1 s1 ω1 p ω' → handshake_spec sv s ω p ω'.
Proof.
  intros Hi (E1 & E2 & E3) (evs' & sent' & s' & Hi' & (F1 & F2 & F3) & Hr).
  exists (evs ++ evs'), (sent ++ sent'), s'.
  split; [by apply (Endpoint.idles_trans Hmax Hi Hi')|]. split; [split_and!; congruence|].
  destruct p.1 as [[ctx rc]|]; [|done]. rewrite <-E1. by apply established_app.
Qed.

Lemma exchange_wp rounds deadline sv s ω :
  Endpoint.no_session (endpoint sv) → io_ok (endpoint sv) s → enough (endpoint sv) ω →
  unread (Endpoint.reader (endpoint sv)) ω < rounds →
  tpost (exchange max fuel attest rounds deadline sv) ω (handshake_spec sv s ω).
Proof.
  revert sv s ω. induction rounds as [|rounds IH]; intros sv s ω Hno Hok Hf Hn; [lia|].
  simpl. post_step. eapply wp_mono; [apply server_await_hello_wp; try done|].
  { unfold Endpoint.enough in Hf. lia. }
  intros [r ep1] ω1 (evs1 & Hi1 & Hr1). cbn [fst snd] in *.
  destruct r as [packet|e]; [|post_step; by eapply server_handshake_failed].
  destruct Hr1 as (pre & ev & -> & Hm & Hu1). post_step.
  eapply wp_mono; [apply server_answer_hello_wp|]. intros [answer a] ω2 [Hst Ha]. cbn [fst snd] in *.
  apply (Endpoint.idles_still Hmax Hi1) in Hst as Hi2. clear Hi1.
  destruct answer as [[[[hello key] ctx] reply]|e]; [|post_step; by eapply server_handshake_failed].
  post_step. eapply wp_mono; [apply (Endpoint.send_packet_idles max fuel Hmax budget _ _ _ s);
    [apply Hi2..|by eapply Endpoint.idles_enough]|].
  intros [r ep3] ω3 (sent & s3 & Hi3 & Hs3). cbn [fst snd] in *.
  pose proof (Endpoint.idles_trans Hmax Hi2 Hi3) as Hi. rewrite app_nil_r in Hi. clear Hi2.
  destruct r as [[]|e]; [|post_step; by eapply server_handshake_failed].
  destruct (Hs3 eq_refl) as [sent' ->]. post_step.
  eapply wp_mono; [apply (Endpoint.next_packet_idles max fuel Hmax budget _ _ s3);
    [apply Hi..|exact (Endpoint.idles_enough Hmax Hi Hf)]|].
  intros [r ep4] ω4 (evs4 & Hi4 & Hu4 & Hsays). cbn [fst snd] in *.
  pose proof (Endpoint.idles_trans Hmax Hi Hi4) as Hi5. rewrite app_nil_r in Hi5.
  pose proof (Endpoint.idle_unread Hi) as Hu. clear Hi Hi4.
  destruct r as [[packet'|]|e]; [| |post_step; by eapply server_handshake_failed].
  - destruct (open_ack _ _ _ _) as [rc|e] eqn:Eo; [|post_step; by eapply server_handshake_failed].
    post_step. destruct Hsays as (ev' & -> & Hm'). eexists _, _, s3. split; [exact Hi5|].
    split; [done|]. exists pre, ev, ev', sent', packet, packet', hello, key, reply.
    rewrite <-app_assoc. split_and!; try done. by apply open_ack_Ok.
  - destruct Hsays as (ev' & -> & Hm'). simpl in Hu4.
    eapply wp_mono; [apply (IH _ s3); [apply Hi5..|exact (Endpoint.idles_enough Hmax Hi5 Hf)|]|].
    { simpl in *. lia. }
    intros p ω' Hp. eapply handshake_spec_after; [| |exact Hp]; [exact Hi5|done].
Qed.

Lemma server_handshake_wp deadline sv s ω :
  Endpoint.no_session (endpoint sv) → io_ok (endpoint sv) s → enough (endpoint sv) ω →
  tpost (handshake max fuel attest deadline sv) ω (handshake_spec sv s ω).
Proof.
  intros Hno [Hr Hw] Hf. unfold handshake.
  assert (idles (endpoint sv) s ω [] [] (endpoint (with_endpoint sv (Endpoint.set_outbound
    (Outbound.unbind (Endpoint.outbound (endpoint sv))) (endpoint sv)))) s ω) as Hi.
  { destruct Hno as (?&?&?). split; try done. by apply Endpoint.moves_refl. }
  eapply wp_mono; [apply (exchange_wp _ _ _ s); [apply Hi..|done|]|].
  { unfold Endpoint.enough in Hf. simpl. lia. }
  intros p ω' Hp. by eapply handshake_spec_after.
Qed.

(** ** Receiving *)

(** A server between calls, whose output a peer scans from [s]. A pending
    handshake has no session beside it. *)
Record server_ok (sv : State A) (s : scanner) : Prop := MkServerOk {
  sok_session : Endpoint.session_ok (endpoint sv);
  sok_io : io_ok (endpoint sv) s;
  sok_side : Outbound.side (Endpoint.outbound (endpoint sv)) = Outbound.Server;
  sok_pending : is_Some (handshake_deadline sv) → Endpoint.no_session (endpoint sv);
}.

(** Why a session ends when [ev] is read: a reset, an invalid frame, a packet
    that does not open, or a session that a sender already ended. *)
Definition ends_session (others : list (list Outbound.Op)) (sv : State A) (ev : event) : Prop :=
  match meaning max ev with
  | Ok (Some packet) =>
      ∃ rc c, Endpoint.receiver (endpoint sv) = Some rc
        ∧ Endpoint.sealer (endpoint sv) = Some c
        ∧ (is_err (open rc packet).1 = true
           ∨ Outbound.binding (Endpoint.outbound (endpoint sv)) ≠ Some c
           ∨ default [] (head others) ≠ [])
  | _ => True
  end.

(** What the result of a receive says of the session before and after it. *)
Definition outcome_spec (others : list (list Outbound.Op)) (r : result Event Error)
    (sv sv' : State A) (evs sent : list event) : Prop :=
  let ep := endpoint sv in
  let ep' := endpoint sv' in
  match r with
  | Ok (Connected (c, ctx)) =>
      Endpoint.no_session ep ∧ c = Endpoint.allocated ep ∧ Endpoint.allocated ep' = S c
      ∧ Endpoint.sealer ep' = Some c ∧ Outbound.binding (Endpoint.outbound ep') = Some c
      ∧ ∃ rc, Endpoint.receiver ep' = Some rc ∧ established max (signer sv) evs sent ctx rc
  | Ok Disconnected =>
      is_Some (Endpoint.receiver ep) ∧ Endpoint.no_session ep'
      ∧ Endpoint.allocated ep' = Endpoint.allocated ep
      ∧ ∃ ev, evs = [ev] ∧ ends_session others sv ev
  | Ok (Message m) =>
      ∃ c rc rc' packet ev,
        Endpoint.sealer ep = Some c ∧ Endpoint.sealer ep' = Some c
        ∧ Endpoint.receiver ep = Some rc ∧ Endpoint.receiver ep' = Some rc'
        ∧ evs = [ev] ∧ meaning max ev = Ok (Some packet) ∧ open rc packet = (Ok m, rc')
        ∧ Endpoint.allocated ep' = Endpoint.allocated ep
        ∧ (default [] (head others) = [] →
            Outbound.binding (Endpoint.outbound ep') = Outbound.binding (Endpoint.outbound ep))
  | Err e =>
      Endpoint.sealer ep' = Endpoint.sealer ep ∧ Endpoint.receiver ep' = Endpoint.receiver ep
      ∧ Endpoint.allocated ep' = Endpoint.allocated ep
      ∧ (is_Some (Endpoint.receiver ep) → evs = [] ∧ (default [] (head others) = [] →
          Outbound.binding (Endpoint.outbound ep') = Outbound.binding (Endpoint.outbound ep)))
      ∧ match e with
        | Terminated | RecvFailed _ => True
        | SendFailed _ => Endpoint.no_session ep
        | _ => False
        end
  end.

(** The notification of an ended session: the server sends an empty frame from [ep1],
    where the peer has seen [sent1]; where the frame goes out, the peer sees it last. *)
Definition notified (ep1 : Endpoint.State) (ω1 : Ω) (sent1 : list event)
    (ep' : Endpoint.State) (ω' : Ω) (sent : list event) : Prop :=
  ∃ notice told,
    Endpoint.output max fuel (Outbound.OpSendDropped None) ep1 ω1 = Ret ((notice, ep'), ω')
    ∧ sent = sent1 ++ told ∧ (notice = Ok tt → ∃ pre, told = pre ++ [EFrame []]).

(** What a receive in the session of the contexts [c] and [rc] keeps and sends, by its
    result, once the reader took [evs] and the senders' calls left the endpoint [ep1] in
    [ω1] with [sent1] sent. *)
Definition reacts (c : nat) (rc : OpenCtx) (ep1 : Endpoint.State) (ω1 : Ω)
    (sent1 : list event) (r : result Event Error) (sv sv' : State A) (ω' : Ω)
    (evs sent : list event) : Prop :=
  match r with
  | Ok (Connected _) => False
  | Ok (Message m) =>
      ∃ ev packet rc', evs = [ev] ∧ meaning max ev = Ok (Some packet)
        ∧ open rc packet = (Ok m, rc')
        ∧ Outbound.binding (Endpoint.outbound ep1) = Some c
        ∧ sv' = with_endpoint sv (Endpoint.set_receiver rc' ep1)
        ∧ ω' = ω1 ∧ sent = sent1
  | Ok Disconnected =>
      ∃ ev, evs = [ev]
        ∧ match meaning max ev with
          | Ok None =>
              ∃ deadline, deadline_after (handshake_timeout sv) ω1 = Ret (deadline, ω')
                ∧ sv' = with_endpoint (with_deadline sv (Some deadline))
                          (Endpoint.end_session ep1).2
                ∧ sent = sent1
          | Ok (Some packet) =>
              (is_err (open rc packet).1 = true
               ∨ Outbound.binding (Endpoint.outbound ep1) ≠ Some c)
              ∧ notified (Endpoint.end_session ep1).2 ω1 sent1 (endpoint sv') ω' sent
          | Err _ => notified (Endpoint.end_session ep1).2 ω1 sent1 (endpoint sv') ω' sent
          end
  | Err e =>
      evs = [] ∧ sv' = with_endpoint sv ep1 ∧ ω' = ω1 ∧ sent = sent1
      ∧ match e with Terminated | RecvFailed _ => True | _ => False end
  end.

(** A receive in a session: a read, the senders' calls, and the reaction. *)
Definition session_spec (others : list (list Outbound.Op)) (r : result Event Error)
    (sv : State A) (s : scanner) (ω : Ω) (sv' : State A) (ω' : Ω)
    (evs sent : list event) : Prop :=
  ∃ c rc ep1 s1 ω1 sent1,
    Endpoint.sealer (endpoint sv) = Some c ∧ Endpoint.receiver (endpoint sv) = Some rc
    ∧ Endpoint.receives max fuel (default [] (head others)) (endpoint sv) s ω evs sent1 ep1 s1 ω1
    ∧ reacts c rc ep1 ω1 sent1 r sv sv' ω' evs sent.

Lemma session_reads others (sv : State A) s ω evs sent1 ep1 s1 ω1 r sv' ω' sent :
  Endpoint.session_ok (endpoint sv) →
  Endpoint.receives max fuel (default [] (head others)) (endpoint sv) s ω evs sent1 ep1 s1 ω1 →
  is_Some (Endpoint.receiver (endpoint sv)) →
  (∀ c rc, reacts c rc ep1 ω1 sent1 r sv sv' ω' evs sent) →
  session_spec others r sv s ω sv' ω' evs sent.
Proof.
  intros Hses Hrcv Hr Hre. destruct (proj1 (Endpoint.ok_contexts _ Hses) Hr) as [c Hc].
  destruct Hr as [rc Hr]. exists c, rc, ep1, s1, ω1, sent1. by split_and!.
Qed.

Definition recv_spec (others : list (list Outbound.Op)) (sv : State A) (s : scanner) (ω : Ω)
    (p : result Event Error * State A) (ω' : Ω) : Prop :=
  ∃ evs sent s', moves (endpoint sv) s ω evs sent (endpoint p.2) s' ω'
    ∧ server_ok p.2 s' ∧ signer p.2 = signer sv
    ∧ handshake_timeout p.2 = handshake_timeout sv ∧ outcome_spec others p.1 sv p.2 evs sent
    ∧ unread (Endpoint.reader (endpoint p.2)) ω' ≤ unread (Endpoint.reader (endpoint sv)) ω
    ∧ (is_Some (Endpoint.receiver (endpoint sv)) →
        session_spec others p.1 sv s ω p.2 ω' evs sent).

(** Passes without a session come before. *)
Lemma recv_spec_after others others' sv sv1 s s1 ω ω1 evs sent p ω' :
  idles (endpoint sv) s ω evs sent (endpoint sv1) s1 ω1 →
  Endpoint.no_session (endpoint sv) → signer sv1 = signer sv →
  handshake_timeout sv1 = handshake_timeout sv →
  recv_spec others' sv1 s1 ω1 p ω' → recv_spec others sv s ω p ω'.
Proof.
  intros [Hmv _ (Hr1 & Hs1 & _) Hal _ Hu] Hno Hsg Hto
    (evs' & sent' & s' & Hmv' & Hok & Hsg' & Hto' & Hr & Hu' & _).
  exists (evs ++ evs'), (sent ++ sent'), s'. pose proof Hno as (Hr0 & Hs0 & _).
  split_and!; [by eapply Endpoint.moves_trans|done|congruence..| |lia|by rewrite Hr0; intros [? ?]].
  unfold outcome_spec in *. cbn zeta in *. destruct p.1 as [[[c ctx]| |m]|e].
  - rewrite Hal, Hsg in Hr. destruct Hr as (_ & ? & ? & ? & ? & rc & ? & Hest).
    split_and!; try done. exists rc. split; [done|]. by apply established_app.
  - destruct Hr as ([? ?] & _). congruence.
  - destruct Hr as (?&?&?&?&?&?&_). congruence.
  - destruct Hr as (?&?&?&?&He). rewrite Hr0, Hs0. split; [congruence|]. split; [congruence|].
    split; [congruence|]. split; [by intros [? ?]|]. by destruct e.
Qed.

(** A receive that returns after passes without a session. *)
Lemma recv_spec_idle others r sv sv' s s' ω ω' evs sent :
  idles (endpoint sv) s ω evs sent (endpoint sv') s' ω' →
  Outbound.side (Endpoint.outbound (endpoint sv)) = Outbound.Server →
  signer sv' = signer sv → handshake_timeout sv' = handshake_timeout sv →
  match r with
  | Ok Disconnected =>
      is_Some (Endpoint.receiver (endpoint sv)) ∧ (∃ ev, evs = [ev] ∧ ends_session others sv ev)
      ∧ session_spec others r sv s ω sv' ω' evs sent
  | Err (Terminated | RecvFailed _ | SendFailed _) => Endpoint.no_session (endpoint sv)
  | _ => False
  end →
  recv_spec others sv s ω (r, sv') ω'.
Proof.
  intros [Hmv Hok Hno Hal Hsd Hu] Hside Hsg Hto Hr. exists evs, sent, s'.
  split_and!; try done.
  - split; try done; [by apply Endpoint.no_session_ok|simpl; congruence].
  - pose proof Hno as (Hr1 & Hs1 & _). unfold outcome_spec.
    destruct r as [[h| |m]|e]; [done|by destruct Hr as (? & ? & _)|done|].
    assert (Endpoint.no_session (endpoint sv)) as (Hr0 & Hs0 & Hb0) by by destruct e.
    cbn zeta. rewrite Hr0, Hs0. split; [done|]. split; [done|]. split; [done|].
    split; [by intros [? ?]|]. by destruct e.
  - intros [rc Hrc]. destruct r as [[h| |m]|e]; [done|by destruct Hr as (_ & _ & ?)|done|].
    assert (Endpoint.no_session (endpoint sv)) as (Hr0 & _) by by destruct e. congruence.
Qed.

Lemma send_dropped_wp limit (sv : State A) s ω :
  Endpoint.receiver (endpoint sv) = None → Endpoint.sealer (endpoint sv) = None →
  io_ok (endpoint sv) s → enough (endpoint sv) ω →
  tpost (send_dropped max fuel limit sv) ω (λ sv' ω', ∃ sent s' ep' notice,
    sv' = with_endpoint sv ep' ∧ idles (endpoint sv) s ω [] sent ep' s' ω'
    ∧ Endpoint.output max fuel (Outbound.OpSendDropped limit) (endpoint sv) ω
      = Ret ((notice, ep'), ω')
    ∧ (notice = Ok tt → ∃ pre, sent = pre ++ [EFrame []])).
Proof.
  intros Hr Hs Hok Hf. unfold send_dropped. post_step.
  eapply wp_mono; [by apply wp_run, (Endpoint.output_idles max fuel Hmax budget _ _ s)|].
  intros [r ep'] ω' [Hrun (sent & s' & Hi & Hsig)]. post_step. by exists sent, s', ep', r.
Qed.

Lemma idle_server_ok (sv sv' : State A) s s' ω ω' evs sent :
  idles (endpoint sv) s ω evs sent (endpoint sv') s' ω' →
  Outbound.side (Endpoint.outbound (endpoint sv)) = Outbound.Server → server_ok sv' s'.
Proof.
  intros [_ Hok Hno _ Hsd _] Hside. split; [by apply Endpoint.no_session_ok|done|congruence|done].
Qed.

(** Passes left to make: a pass takes an event or a pending handshake. *)
Definition work (sv : State A) (ω : Ω) : nat :=
  2 * unread (Endpoint.reader (endpoint sv)) ω
  + match handshake_deadline sv with Some _ => 1 | None => 0 end.

(** The rest of a receive, as the induction has it. *)
Abbreviation returns n :=
  (∀ others (sv : State A) s ω, server_ok sv s → enough (endpoint sv) ω → work sv ω < n →
    Forall (Forall (λ o, Endpoint.through_sender o = true)) others →
    tpost (passes max fuel attest n others sv) ω (recv_spec others sv s ω)).

(** The pass that runs a pending handshake. *)
Lemma handshake_pass n deadline others (sv : State A) s ω :
  returns n → server_ok sv s → enough (endpoint sv) ω → work sv ω < S n →
  Forall (Forall (λ o, Endpoint.through_sender o = true)) others →
  handshake_deadline sv = Some deadline →
  tpost (passes max fuel attest (S n) others sv) ω (recv_spec others sv s ω).
Proof.
  intros IH [Hses Hio Hsd Hpend] Hf Hw Hall Hd. simpl. rewrite Hd.
  assert (Endpoint.no_session (endpoint sv)) as Hno by (apply Hpend; by rewrite Hd).
  post_step. eapply wp_mono; [by apply (server_handshake_wp deadline _ s)|].
  intros [r sv1] ω1 (evs & sent & s1 & Hi & (Hsg & Hto & Hdl) & Hr). simpl in Hsg, Hto, Hdl, Hr.
  simpl in Hi. destruct r as [[ctx rc]|e].
  { simpl. post_step. destruct Hi as [Hmv [Hrd Hwr] _ Hal Hside Hu]. exists evs, sent, s1.
    split_and!; try done.
    - split; simpl; [apply (Endpoint.new_session_ok ctx rc (endpoint sv1))|by split|congruence|].
      rewrite Hdl. by intros [? ?].
    - unfold outcome_spec. simpl. rewrite Hal. split_and!; try done. by exists rc.
    - destruct Hno as (-> & _). by intros [? ?]. }
  assert (∀ e', match e' with Terminated | RecvFailed _ | SendFailed _ => True | _ => False end →
    tpost (mret (Err e', sv1)) ω1 (recv_spec others sv s ω)) as Hret.
  { intros e' He. post_step. eapply recv_spec_idle; eauto; by destruct e'. }
  assert (tpost (sv ← send_dropped max fuel (Some deadline) sv1;
    late ← check_deadline deadline;
    match late with
    | Err err => mret (Err (RecvFailed err), sv)
    | Ok _ => passes max fuel attest n others sv
    end) ω1 (recv_spec others sv s ω)) as Hdrop.
  { post_step. pose proof (Endpoint.idle_none _ _ _ _ _ _ _ _ _ _ Hi) as (Hr1 & Hs1 & _).
    eapply wp_mono; [apply (send_dropped_wp _ _ s1); [done..|apply Hi|]|].
    { exact (Endpoint.idles_enough Hmax Hi Hf). }
    intros sv2 ω2 (sent2 & s2 & ep2 & _ & -> & Hi2 & _). post_step. apply check_deadline_wp.
    intros late _. set (ω3 := (clock_now ω2).2).
    pose proof (Endpoint.idles_trans Hmax Hi Hi2) as Hi12.
    pose proof (Endpoint.idles_still Hmax Hi12 (Endpoint.still_clock budget ω2)) as Hi3.
    destruct late as [[]|e'].
    - eapply wp_mono; [apply (IH others _ s2); [|exact (Endpoint.idles_enough Hmax Hi3 Hf)| |done]|].
      + eapply idle_server_ok; [exact Hi3|done].
      + pose proof (Endpoint.idle_unread Hi3) as Hu. unfold work in *. rewrite Hd in Hw.
        cbn [endpoint handshake_deadline with_endpoint] in *. rewrite Hdl. fold ω3 in Hu. lia.
      + intros p ω' Hp. eapply recv_spec_after; [| | | |exact Hp]; [exact Hi3|done..].
    - post_step. eapply recv_spec_idle; [exact Hi3|done..]. }
  destruct e; try apply Hdrop; by apply Hret.
Qed.

(** A pass that took an event and left the server idle: it reports the end of
    the session there was, or another pass follows. *)
Lemma pass_idles n others later (sv sv1 : State A) s s1 ω ω1 ev sent :
  returns n → server_ok sv s → enough (endpoint sv) ω → work sv ω < S n →
  Forall (Forall (λ o, Endpoint.through_sender o = true)) later →
  handshake_deadline sv = None → ends_session others sv ev →
  (is_Some (Endpoint.receiver (endpoint sv)) →
    session_spec others (Ok Disconnected) sv s ω sv1 ω1 [ev] sent) →
  idles (endpoint sv) s ω [ev] sent (endpoint sv1) s1 ω1 →
  unread (Endpoint.reader (endpoint sv1)) ω1 + 1 ≤ unread (Endpoint.reader (endpoint sv)) ω →
  signer sv1 = signer sv → handshake_timeout sv1 = handshake_timeout sv →
  tpost (if bool_decide (is_Some (Endpoint.receiver (endpoint sv))) then mret (Ok Disconnected, sv1)
         else passes max fuel attest n later sv1) ω1 (recv_spec others sv s ω).
Proof.
  intros IH [Hses Hio Hsd Hpend] Hf Hw Hall Hd Hend Hss Hi Hu Hsg Hto. case_bool_decide as Hr.
  - post_step. eapply recv_spec_idle; [exact Hi|done..|]. split_and!; [done|by exists ev|auto].
  - apply eq_None_not_Some in Hr. pose proof (Endpoint.session_none_iff _ Hses Hr) as Hno.
    eapply wp_mono; [apply (IH later _ s1); [by eapply idle_server_ok| | |done]|].
    + exact (Endpoint.idles_enough Hmax Hi Hf).
    + unfold work in *. rewrite Hd in Hw. destruct (handshake_deadline sv1); lia.
    + intros p ω' Hp. by eapply recv_spec_after.
Qed.

(** Ending the session after its packet was read. *)
Lemma ended_idles (sv : State A) s ω evs sent ep1 s1 ω1 :
  moves (endpoint sv) s ω evs sent ep1 s1 ω1 →
  Endpoint.allocated ep1 = Endpoint.allocated (endpoint sv) →
  Outbound.side (Endpoint.outbound ep1) = Outbound.side (Endpoint.outbound (endpoint sv)) →
  unread (Endpoint.reader ep1) ω1 ≤ unread (Endpoint.reader (endpoint sv)) ω →
  Endpoint.session_ok ep1 → io_ok ep1 s1 →
  idles (endpoint sv) s ω evs sent (Endpoint.end_session ep1).2 s1 ω1.
Proof.
  intros Hmv Hal Hsd Hu Hses Hio. rewrite <-(app_nil_r evs), <-(app_nil_r sent).
  apply (Endpoint.idles_before Hmax Hmv); [done..|]. by apply Endpoint.end_session_idles.
Qed.

(** A notification after that. *)
Lemma dropped_idles (sv sv1 : State A) s ω evs sent s1 ω1 (Q : State A → Ω → Prop) :
  enough (endpoint sv) ω →
  idles (endpoint sv) s ω evs sent (endpoint sv1) s1 ω1 →
  (∀ sent' s2 ep2 ω2, idles (endpoint sv) s ω evs sent' ep2 s2 ω2 →
    notified (endpoint sv1) ω1 sent ep2 ω2 sent' →
    unread (Endpoint.reader ep2) ω2 ≤ unread (Endpoint.reader (endpoint sv1)) ω1 →
    Q (with_endpoint sv1 ep2) ω2) →
  tpost (send_dropped max fuel None sv1) ω1 Q.
Proof.
  intros Hf Hi HQ. pose proof (Endpoint.idle_none _ _ _ _ _ _ _ _ _ _ Hi) as (Hr & Hs & _).
  eapply wp_mono; [apply (send_dropped_wp _ _ s1); [done..|apply Hi|]|].
  { exact (Endpoint.idles_enough Hmax Hi Hf). }
  intros sv2 ω2 (sent2 & s2 & ep2 & notice & -> & Hi2 & Hrun & Hn).
  pose proof (Endpoint.idles_trans Hmax Hi Hi2) as Hi12. rewrite app_nil_r in Hi12.
  eapply HQ; [exact Hi12|by exists notice, sent2|]. apply Hi2.
Qed.

(** A packet read outside a session, answered and skipped. *)
Lemma junk_pass n others later (sv : State A) s ω ev sent ep1 s1 ω1 :
  returns n → server_ok sv s → enough (endpoint sv) ω → work sv ω < S n →
  Forall (Forall (λ o, Endpoint.through_sender o = true)) later →
  handshake_deadline sv = None → Endpoint.receiver (endpoint sv) = None →
  idles (endpoint sv) s ω [ev] sent ep1 s1 ω1 →
  unread (Endpoint.reader ep1) ω1 + 1 ≤ unread (Endpoint.reader (endpoint sv)) ω →
  tpost (sv ← send_dropped max fuel None (with_endpoint sv ep1);
         passes max fuel attest n later sv) ω1 (recv_spec others sv s ω).
Proof.
  intros IH Hsok Hf Hw Hall Hd Hr Hi Hu. post_step. eapply dropped_idles; [done|exact Hi|].
  intros sent' s2 ep2 ω2 Hi2 _ Hu2.
  eapply wp_mono; [apply (IH later _ s2); [by eapply (idle_server_ok sv), Hsok| | |done]|].
  - exact (Endpoint.idles_enough Hmax Hi2 Hf).
  - unfold work in *. rewrite Hd in Hw. simpl in *. rewrite Hd. lia.
  - intros p ω' Hp. eapply recv_spec_after; [| | | |exact Hp]; [exact Hi2| |done..].
    by apply Endpoint.session_none_iff; [apply Hsok|].
Qed.

(** A packet read in the session. *)
Lemma session_pass others (sv : State A) s ω ev packet rc sent ep1 s1 ω1 :
  server_ok sv s → enough (endpoint sv) ω → handshake_deadline sv = None →
  Ok (Some packet) = meaning max ev → moves (endpoint sv) s ω [ev] sent ep1 s1 ω1 →
  Endpoint.session_ok ep1 → io_ok ep1 s1 →
  unread (Endpoint.reader ep1) ω1 + 1 ≤ unread (Endpoint.reader (endpoint sv)) ω →
  Endpoint.receiver ep1 = Endpoint.receiver (endpoint sv) →
  Endpoint.sealer ep1 = Endpoint.sealer (endpoint sv) →
  Endpoint.allocated ep1 = Endpoint.allocated (endpoint sv) →
  Outbound.side (Endpoint.outbound ep1) = Outbound.side (Endpoint.outbound (endpoint sv)) →
  Endpoint.receiver ep1 = Some rc →
  (Outbound.binding (Endpoint.outbound ep1) = Outbound.binding (Endpoint.outbound (endpoint sv))
   ∨ default [] (head others) ≠ [] ∧ Outbound.binding (Endpoint.outbound ep1) = None) →
  Endpoint.receives max fuel (default [] (head others)) (endpoint sv) s ω [ev] sent ep1 s1 ω1 →
  tpost ('(m, ep) ← Endpoint.open_packet rc packet ep1;
         match m with
         | Err _ =>
             sv ← send_dropped max fuel None (with_endpoint sv (Endpoint.end_session ep).2);
             mret (Ok Disconnected, sv)
         | Ok message => mret (Ok (Message message), with_endpoint sv ep)
         end) ω1 (recv_spec others sv s ω).
Proof.
  intros [Hses Hio Hsd Hpend] Hf Hd Hm Hmv Hses1 Hio1 Hu Erc Ec Eal Esd Hrc Hb Hrcv.
  destruct (proj1 (Endpoint.ok_contexts _ Hses1)) as [c Hc]; [eauto|].
  assert (is_err (open rc packet).1 = true ∨ Outbound.binding (Endpoint.outbound ep1) ≠ Some c →
    tpost (sv ← send_dropped max fuel None
      (with_endpoint sv (Endpoint.end_session (Endpoint.set_receiver rc ep1)).2);
    mret (Ok Disconnected, sv)) ω1 (recv_spec others sv s ω)) as Hend.
  { intros Hwhy. post_step.
    eapply dropped_idles; [done|by apply (ended_idles sv s ω [ev] sent ep1 s1 ω1 Hmv Eal Esd); [lia|..]|].
    intros sent' s2 ep2 ω2 Hi2 Hnt Hu2. post_step. eapply recv_spec_idle; [exact Hi2|done..|].
    split; [rewrite <-Erc; eauto|]. split.
    - exists ev. split; [done|]. unfold ends_session.
      rewrite <-Hm, <-Erc, <-Ec, Hrc, Hc. exists rc, c. split_and!; try done.
      destruct Hwhy as [?|Hn]; [by left|]. right. destruct Hb as [<-|[? _]]; auto.
    - exists c, rc, ep1, s1, ω1, sent. split_and!; [congruence..|done|]. exists ev.
      split; [done|]. by rewrite <-Hm. }
  unfold Endpoint.open_packet. rewrite Hc. post_step. unfold expect. post_steps.
  destruct (open rc packet) as [opened rc'] eqn:Eo. post_step. simpl.
  unfold Outbound.finish_receive. case_decide as Hbd; [|apply Hend; by right].
  destruct opened as [m|e]; [|apply Hend; by left]. post_step. exists [ev], sent, s1.
  split_and!; try done.
  - destruct Hses1. split; simpl; try done; [by destruct Hio1|congruence|].
    rewrite Hd. by intros [? ?].
  - unfold outcome_spec. simpl. exists c, rc, rc', packet, ev. split_and!; try done; try congruence.
    intros Ho. by destruct Hb as [?|[? _]].
  - simpl. lia.
  - intros _. exists c, rc, ep1, s1, ω1, sent. split_and!; [congruence..|done|].
    by exists ev, packet, rc'.
Qed.

(** An error of the stream while nothing was read. *)
Lemma error_pass others (sv : State A) s ω sent ep1 s1 ω1 e :
  server_ok sv s → handshake_deadline sv = None →
  match e with Terminated | RecvFailed _ => True | _ => False end →
  moves (endpoint sv) s ω [] sent ep1 s1 ω1 → Endpoint.session_ok ep1 → io_ok ep1 s1 →
  unread (Endpoint.reader ep1) ω1 ≤ unread (Endpoint.reader (endpoint sv)) ω →
  Endpoint.receiver ep1 = Endpoint.receiver (endpoint sv) →
  Endpoint.sealer ep1 = Endpoint.sealer (endpoint sv) →
  Endpoint.allocated ep1 = Endpoint.allocated (endpoint sv) →
  Outbound.side (Endpoint.outbound ep1) = Outbound.side (Endpoint.outbound (endpoint sv)) →
  (Outbound.binding (Endpoint.outbound ep1) = Outbound.binding (Endpoint.outbound (endpoint sv))
   ∨ default [] (head others) ≠ [] ∧ Outbound.binding (Endpoint.outbound ep1) = None) →
  Endpoint.receives max fuel (default [] (head others)) (endpoint sv) s ω [] sent ep1 s1 ω1 →
  tpost (mret (Err e, with_endpoint sv ep1)) ω1 (recv_spec others sv s ω).
Proof.
  intros [Hses Hio Hsd Hpend] Hd He Hmv Hses1 Hio1 Hu Erc Ec Eal Esd Hb Hrcv.
  post_step. exists [], sent, s1. split_and!; try done.
  - split; simpl; try done; [congruence|]. by rewrite Hd; intros [? ?].
  - unfold outcome_spec. cbn [endpoint with_endpoint]. do 3 (split; [done|]).
    split; [|by destruct e]. split; [done|]. intros Ho. by destruct Hb as [?|[? _]].
  - intros Hrc. by eapply session_reads.
Qed.

(** The pass that reads a packet. *)
Lemma read_pass n others (sv : State A) s ω :
  returns n → server_ok sv s → enough (endpoint sv) ω → work sv ω < S n →
  Forall (Forall (λ o, Endpoint.through_sender o = true)) others →
  handshake_deadline sv = None →
  tpost (passes max fuel attest (S n) others sv) ω (recv_spec others sv s ω).
Proof.
  intros IH Hsok Hf Hw Hall Hd. pose proof Hsok as [Hses Hio Hsd Hpend]. simpl. rewrite Hd.
  apply (Endpoint.receive_wp max fuel Hmax budget _ _ _ s); try done.
  { destruct others; simpl; [constructor|]. by apply Forall_cons in Hall as [? _]. }
  assert (Forall (Forall (λ o, Endpoint.through_sender o = true)) (tail others)) as Htail.
  { destruct others; [done|]. by apply Forall_cons in Hall as [_ ?]. }
  intros r ep1 ω1 evs sent s1 Hsays Hmv Hio1 Hses1 Hu Erc Ec Eal Esd Hb Hrcv.
  pose proof (λ r sv' ω' sent',
    session_reads others sv s ω evs sent ep1 s1 ω1 r sv' ω' sent' Hses Hrcv) as Hss.
  pose proof (ended_idles sv s ω evs sent ep1 s1 ω1 Hmv Eal Esd ltac:(lia) Hses1 Hio1) as Hi.
  destruct (Endpoint.says_cases _ _ _ Hsays) as [(ev & -> & Hm & Hr)|[-> Hr]].
  2:{ simpl in Hu. destruct Hr as [(k & ->)| ->]; (eapply error_pass; [try done..|]; [lia|done]). }
  simpl in Hu. destruct r as [[packet|]|e].
  - cbn [endpoint with_endpoint]. destruct (Endpoint.receiver ep1) as [rc|] eqn:Er.
    + exact (session_pass others sv s ω ev packet rc sent ep1 s1 ω1 Hsok Hf Hd Hm Hmv Hses1 Hio1 Hu
        (eq_trans Er Erc) Ec Eal Esd Er Hb Hrcv).
    + symmetry in Erc. pose proof (Endpoint.session_none_iff _ Hses1 Er) as Hno.
      eapply (junk_pass n others (tail others) sv s ω ev (sent ++ [])); try done.
      eapply (Endpoint.idles_before Hmax Hmv Eal Esd); [|by apply Endpoint.idles_refl]. lia.
  - simpl. post_step. apply deadline_after_wp_run. intros deadline Hdl. rewrite Erc.
    pose proof (Endpoint.still_clock budget ω1) as Hst.
    eapply (pass_idles n others (tail others) sv _ s s1 ω _ ev sent); try done.
    { unfold ends_session. by rewrite <-Hm. }
    { intros Hrc. apply Hss; [done|]. intros c rc. exists ev. split; [done|].
      rewrite <-Hm. by exists deadline. }
    + exact (Endpoint.idles_still Hmax Hi Hst).
    + pose proof (Endpoint.still_unread max Hmax budget (Endpoint.reader ep1) _ _ Hst). simpl in *. lia.
  - assert (tpost (sv' ← send_dropped max fuel None (with_endpoint sv (Endpoint.end_session ep1).2);
      if bool_decide (is_Some (Endpoint.receiver ep1)) then mret (Ok Disconnected, sv')
      else passes max fuel attest n (tail others) sv') ω1 (recv_spec others sv s ω)) as Hframe.
    { post_step. eapply dropped_idles; [done|exact Hi|].
      intros sent' s2 ep2 ω2 Hi2 Hnt Hu2. rewrite Erc. eapply pass_idles; try done.
      - unfold ends_session. by rewrite <-Hm.
      - intros Hrc. apply Hss; [done|]. intros c rc. exists ev. split; [done|]. by rewrite <-Hm.
      - simpl in *. lia. }
    destruct e; done || exact Hframe.
Qed.

Lemma passes_wp n : returns n.
Proof.
  induction n as [|n IH]; intros others sv s ω Hok Hf Hw Hall; [lia|].
  destruct (handshake_deadline sv) as [deadline|] eqn:Hd;
    [by eapply handshake_pass|by apply read_pass].
Qed.

Lemma server_recv_wp others (sv : State A) s ω :
  server_ok sv s → enough (endpoint sv) ω →
  Forall (Forall (λ o, Endpoint.through_sender o = true)) others →
  tpost (recv max fuel attest others sv) ω (recv_spec others sv s ω).
Proof.
  intros Hok Hf Hall. apply passes_wp; try done. unfold work, Endpoint.enough in *.
  destruct (handshake_deadline sv); lia.
Qed.

Lemma server_disconnect_wp (sv : State A) s ω :
  server_ok sv s → enough (endpoint sv) ω →
  tpost (disconnect max fuel sv) ω (λ sv' ω', ∃ sent s' ep',
    sv' = with_endpoint sv ep' ∧ idles (endpoint sv) s ω [] sent ep' s' ω').
Proof.
  intros [Hses Hio Hsd Hpend] Hf. unfold disconnect. simpl.
  eapply dropped_idles; [done|by apply (Endpoint.end_session_idles max budget)|].
  intros sent' s2 ep2 ω2 Hi2 _ _. by exists sent', s2, ep2.
Qed.
End lemmas.

(** ** The life of a server *)

(** The calls of the owner, and of other threads through senders in between. *)
Inductive Cmd :=
  | CmdRecv (others : list (list Outbound.Op))
  | CmdDisconnect
  | CmdSenders (others : list Outbound.Op).

(** What the owner sees of a call. *)
Inductive Seen `{Hpke} :=
  | SeenRecv (r : result Event Error)
  | SeenDisconnect
  | SeenSenders.

Definition senders_only (cmd : Cmd) : Prop :=
  match cmd with
  | CmdRecv others => Forall (Forall (λ o, Endpoint.through_sender o = true)) others
  | CmdDisconnect => True
  | CmdSenders others => Forall (λ o, Endpoint.through_sender o = true) others
  end.

Section commands.
Context {Ω : Type} `{Env Ω, Cobs, Keys, !Messages, !Crypto, !Host Ω} (max fuel : nat).
Context {A : Type} (attest : A → Attestation * A).

Definition run_cmd (cmd : Cmd) (sv : State A) : M Ω (Seen * State A) :=
  match cmd with
  | CmdRecv others =>
      '(r, sv) ← recv max fuel attest others sv; mret (SeenRecv r, sv)
  | CmdDisconnect => sv ← disconnect max fuel sv; mret (SeenDisconnect, sv)
  | CmdSenders others =>
      ep ← Endpoint.interfere max fuel others (endpoint sv);
      mret (SeenSenders, with_endpoint sv ep)
  end.

Fixpoint run_cmds (cmds : list Cmd) (sv : State A) : M Ω (list Seen * State A) :=
  match cmds with
  | [] => mret ([], sv)
  | cmd :: cmds =>
      '(seen, sv) ← run_cmd cmd sv;
      '(seens, sv) ← run_cmds cmds sv;
      mret (seen :: seens, sv)
  end.
End commands.

(** ** The abstract server: one session at a time

    The current session, and the number of sessions so far. *)
Inductive session_step `{Hpke} : option nat * nat → Seen → option nat * nat → Prop :=
  | StepConnected c ctx :
      session_step (None, c) (SeenRecv (Ok (Connected (c, ctx)))) (Some c, S c)
  | StepDisconnected c n : session_step (Some c, n) (SeenRecv (Ok Disconnected)) (None, n)
  | StepMessage c n m : session_step (Some c, n) (SeenRecv (Ok (Message m))) (Some c, n)
  | StepTerminated x n : session_step (x, n) (SeenRecv (Err Terminated)) (x, n)
  | StepRecvFailed x n k : session_step (x, n) (SeenRecv (Err (RecvFailed k))) (x, n)
  | StepSendFailed n k : session_step (None, n) (SeenRecv (Err (SendFailed k))) (None, n)
  | StepDisconnect x n : session_step (x, n) SeenDisconnect (None, n)
  | StepSenders x n : session_step (x, n) SeenSenders (x, n).

Inductive session_steps `{Hpke} : option nat * nat → list Seen → option nat * nat → Prop :=
  | StepsNil x : session_steps x [] x
  | StepsCons x seen y seens z :
      session_step x seen y → session_steps y seens z → session_steps x (seen :: seens) z.

(** The session of a server. *)
Definition abstract `{Keys, !Crypto} {A} (sv : State A) : option nat * nat :=
  (Endpoint.sealer (endpoint sv), Endpoint.allocated (endpoint sv)).

Section life.
Context {Ω : Type} `{EnvLaws Ω, CobsLaws, Keys, !Messages, !Crypto, !Host Ω, !HostLaws Ω}.
Context (budget : Ω → nat) `{!EnvBudget Ω budget, !HostBudget Ω budget, !AfterEpoch Ω}.
Context (max fuel : nat) (Hmax : 0 < max) {A : Type} (attest : A → Attestation * A).

Abbreviation enough := (Endpoint.enough max fuel budget).

Lemma outcome_step others r (sv sv' : State A) s evs sent :
  server_ok max sv s → outcome_spec max others r sv sv' evs sent →
  session_step (abstract sv) (SeenRecv r) (abstract sv').
Proof.
  intros [[Hc _ _] _ _ _] Ho. unfold abstract. destruct r as [[[c ctx]| |m]|e].
  - destruct Ho as ((_ & -> & _) & -> & -> & -> & _). constructor.
  - destruct Ho as (Hr & (_ & -> & _) & -> & _). apply Hc in Hr as [c ->]. constructor.
  - destruct Ho as (c & rc & rc' & packet & ev & -> & -> & _ & _ & _ & _ & _ & -> & _). constructor.
  - destruct Ho as (-> & _ & -> & _ & He). destruct e; try done; [|constructor..].
    destruct He as (_ & -> & _). constructor.
Qed.

Lemma run_cmd_wp cmd (sv : State A) s ω :
  server_ok max sv s → enough (endpoint sv) ω → senders_only cmd →
  tpost (run_cmd max fuel attest cmd sv) ω (λ p ω', (∃ s', server_ok max p.2 s')
    ∧ enough (endpoint p.2) ω' ∧ session_step (abstract sv) p.1 (abstract p.2)).
Proof.
  intros Hok Hf Hcmd. pose proof Hok as [Hses Hio Hsd Hpend].
  destruct cmd as [others| |others]; simpl in *; post_step.
  - eapply wp_mono; [by apply (server_recv_wp budget max fuel Hmax attest others sv s)|].
    intros [r sv'] ω' (evs & sent & s' & _ & Hok' & _ & _ & Ho & Hu & _). post_step.
    split_and!; [eauto|by eapply Endpoint.enough_le|by eapply outcome_step].
  - eapply wp_mono; [by apply (server_disconnect_wp budget max fuel Hmax sv s)|].
    intros sv' ω' (sent & s' & ep' & -> & Hi). post_step. split_and!.
    + exists s'. eapply (idle_server_ok budget max sv); [exact Hi|done].
    + exact (Endpoint.idles_enough Hmax Hi Hf).
    + destruct Hi as [_ _ (_ & Hs & _) Hal _ _]. unfold abstract. simpl. rewrite Hs, Hal.
      constructor.
  - eapply wp_mono; [by apply (Endpoint.interfere_wp max fuel Hmax budget others _ s)|].
    intros ep' ω' (ob' & sent & s' & -> & Hio' & _ & Hu & Hsd' & _ & Hb). post_step.
    split_and!; [|by eapply Endpoint.enough_le|constructor].
    exists s'. destruct Hses as [Hx Hy Hz]. split; simpl; try done.
    + split; try done. simpl. intros c Hc. apply Hy. destruct Hb as [Hb|[_ Hb]]; congruence.
    + congruence.
    + intros (?&?&Hbn)%Hpend. split_and!; try done. simpl. destruct Hb as [Hb|[_ Hb]]; congruence.
Qed.

Lemma run_cmds_wp cmds (sv : State A) s ω :
  server_ok max sv s → enough (endpoint sv) ω → Forall senders_only cmds →
  tpost (run_cmds max fuel attest cmds sv) ω (λ p ω', (∃ s', server_ok max p.2 s')
    ∧ session_steps (abstract sv) p.1 (abstract p.2)).
Proof.
  revert sv s ω. induction cmds as [|cmd cmds IH]; intros sv s ω Hok Hf Hall; simpl.
  { post_step. split; [eauto|constructor]. }
  apply Forall_cons in Hall as [Hc Hall]. post_step.
  eapply wp_mono; [by apply (run_cmd_wp cmd sv s)|].
  intros [seen sv1] ω1 ([s1 Hok1] & Hf1 & Hst). post_step.
  eapply wp_mono; [by apply (IH sv1 s1)|]. intros [seens sv2] ω2 [Hok2 Hsts]. post_step.
  split; [done|]. by econstructor.
Qed.

Lemma new_ok timeout sk (a : A) : server_ok max (new max timeout sk a) at_boundary.
Proof.
  split; [|split; [apply reader_new_ok|by apply writer_new_ok]|done|by intros [? ?]].
  by apply Endpoint.no_session_ok.
Qed.
End life.

(** ** What a server guarantees *)

(** C8: Receiving returns, and each of its results says exactly what happened.
    [Connected] comes only without a session and with a fresh context, from an
    exchange whose ack directly follows its hello: the ArkHello was signed by
    the server's identity, bound to the host's two keys; the ack opened under
    the signing key of that same hello, bound to this identity and the key
    generated for this hello; and the contexts come from that pair's
    encapsulations. Within a session a receive reads at most one packet, and what it
    keeps and sends is exact, whatever senders did while it waited. [Message] is what
    the session's receive context opens from the packet, accepted only while the output
    is still bound to the session; nothing is sent and nothing else changes. A reset
    ends the session silently and starts the handshake's clock. An invalid frame, a
    packet that does not open, or one read after a sender ended the session ends it
    with a notification to the client, an empty frame after all that was sent before.
    An error of the stream sends nothing and leaves the session as it is. *)
Theorem server_recv_exact {Ω : Type}
    `{EnvLaws Ω, CobsLaws, Keys, !Messages, !Crypto, !Host Ω, !HostLaws Ω} (budget : Ω → nat)
    `{!EnvBudget Ω budget, !HostBudget Ω budget, !AfterEpoch Ω} (max fuel : nat)
    {A : Type} (attest : A → Attestation * A) (others : list (list Outbound.Op))
    (sv : State A) (s : scanner) (ω : Ω) :
  0 < max → server_ok max sv s → Endpoint.enough max fuel budget (endpoint sv) ω →
  Forall (Forall (λ o, Endpoint.through_sender o = true)) others →
  ∃ r sv' ω' evs sent s',
    recv max fuel attest others sv ω = Ret ((r, sv'), ω')
    ∧ Endpoint.moves max (endpoint sv) s ω evs sent (endpoint sv') s' ω'
    ∧ server_ok max sv' s' ∧ outcome_spec max others r sv sv' evs sent
    ∧ (is_Some (Endpoint.receiver (endpoint sv)) →
        session_spec max fuel others r sv s ω sv' ω' evs sent).
Proof.
  intros Hm Hok Hf Hall.
  destruct (tpost_returns _ _ _ (server_recv_wp budget max fuel Hm attest others sv s ω Hok Hf Hall))
    as ([r sv'] & ω' & Hrun & evs & sent & s' & Hmv & Hok' & _ & _ & Ho & _ & Hss).
  by exists r, sv', ω', evs, sent, s'.
Qed.

(** C7: The server refines the abstract server with one session at a time.
    Through any calls of its owner and of senders, all of which return, events
    come as the contract says: a session is connected only while there is
    none, each with a context of its own; messages only arrive within a
    session; its end is reported once unless the owner disconnected it; and
    errors end no session. *)
Theorem server_refines_sessions {Ω : Type}
    `{EnvLaws Ω, CobsLaws, Keys, !Messages, !Crypto, !Host Ω, !HostLaws Ω} (budget : Ω → nat)
    `{!EnvBudget Ω budget, !HostBudget Ω budget, !AfterEpoch Ω} (max fuel : nat)
    {A : Type} (attest : A → Attestation * A) (cmds : list Cmd) (timeout : Duration)
    (signer : xdsa_SecretKey) (attester : A) (ω : Ω) :
  0 < max → max + 2 + (max + 1) * budget ω < fuel → Forall senders_only cmds →
  ∃ seens sv' ω',
    run_cmds max fuel attest cmds (new max timeout signer attester) ω = Ret ((seens, sv'), ω')
    ∧ session_steps (None, 0) seens (abstract sv').
Proof.
  intros Hm Hf Hcmds.
  destruct (tpost_returns _ _ _ (run_cmds_wp budget max fuel Hm attest cmds _ at_boundary ω
    (new_ok max timeout signer attester) Hf Hcmds)) as ([seens sv'] & ω' & Hrun & _ & Hst).
  by exists seens, sv', ω'.
Qed.

(** ** A concrete run *)

Import Plain.

(** The ack of the host whose keys are [x02] and [x03] to the server with the
    identity [x0a] and the fresh key [x04]. *)
Definition host_ack : list byte :=
  match seal_at (P:=HostAck) (A:=HostAckAuth) (MkHostAck [Byte.x07])
          (MkHostAckAuth (Byte.x0a : byte) (Byte.x04 : byte)) Byte.x02 Byte.x04
          CRYPTO_DOMAIN_WIRE PaddingNone 0 Byte.x07 with
  | Ok p => p
  | Err _ => []
  end.

(** Junk, a reset, the hello and the ack, a message, a packet that does not open,
    and a reset the stream ends after. *)
Definition requests : Script.world :=
  Script.MkWorld 0 1 Shutdown.closer_new
    [Ok [Byte.x09; Byte.x00]; Ok [Byte.x00];
     Ok (Client.framed_packet [Byte.x02; Byte.x03]); Ok (Client.framed_packet host_ack);
     Ok (Client.framed_packet (Clear.tag 30 ++ [Byte.x66]));
     Ok (Client.framed_packet [Byte.x66]); Ok [Byte.x00]] [] [] [].

Definition ark : State Attestation :=
  new 60 5000 (Byte.x0a : byte) (MkAttestation [Byte.x48; Byte.x01]).

Definition five_calls : list Cmd :=
  [CmdRecv []; CmdSenders [Outbound.OpSend 0 [Byte.x01]]; CmdRecv [[Outbound.OpSend 7 []]];
   CmdRecv []; CmdRecv []; CmdDisconnect].

Example five_calls_seen :
  match run_cmds 60 9000 attest_fixed five_calls ark requests with
  | Ret ((seens, _), _) =>
      seens = [SeenRecv (Ok (Connected (0, 29))); SeenSenders;
               SeenRecv (Ok (Message [Byte.x66])); SeenRecv (Ok Disconnected);
               SeenRecv (Err Terminated); SeenDisconnect]
  | _ => False
  end.
Proof. vm_compute. reflexivity. Qed.

Lemma ark_enough : Endpoint.enough 60 9000 Script.budget (endpoint ark) requests.
Proof. apply Nat.ltb_lt. vm_compute. reflexivity. Qed.

(** The server once connected, about to read the message. *)
Definition serving : State Attestation * Script.world :=
  match recv 60 9000 attest_fixed [] ark requests with
  | Ret ((_, sv), ω) => (sv, ω)
  | _ => (ark, requests)
  end.

Lemma serving_ok :
  (∃ s, server_ok 60 serving.1 s)
  ∧ Endpoint.enough 60 9000 Script.budget (endpoint serving.1) serving.2.
Proof.
  pose proof (server_recv_wp (H3:=keys) (H5:=crypto) Script.budget 60 9000 ltac:(lia) attest_fixed
    [] ark at_boundary requests (new_ok 60 _ _ _) ark_enough ltac:(constructor)) as Hw.
  apply tpost_returns in Hw as ([r sv] & ω & Hrun & evs & sent & s & _ & Hok & _ & _ & _ & Hu & _).
  unfold serving. rewrite Hrun. split; [by exists s|].
  eapply Endpoint.enough_le; [lia|apply ark_enough|exact Hu].
Qed.

Lemma serving_session : Endpoint.receiver (endpoint serving.1) = Some (30 : nat).
Proof. vm_compute. reflexivity. Qed.

Lemma server_recv_exact_witness :
  ∃ s r sv' ω' evs sent,
    recv 60 9000 attest_fixed [] serving.1 serving.2 = Ret ((r, sv'), ω')
    ∧ outcome_spec 60 [] r serving.1 sv' evs sent
    ∧ session_spec 60 9000 [] r serving.1 s serving.2 sv' ω' evs sent.
Proof.
  destruct serving_ok as [[s Hok] Hf]. exists s.
  destruct (server_recv_exact (H3:=keys) (H5:=crypto) Script.budget 60 9000 attest_fixed []
    serving.1 s serving.2 ltac:(lia) Hok Hf ltac:(constructor))
    as (r & sv' & ω' & evs & sent & s' & Hrun & _ & _ & Ho & Hss).
  exists r, sv', ω', evs, sent. split; [exact Hrun|]. split; [exact Ho|]. apply Hss.
  rewrite serving_session. by exists 30.
Defined.

Lemma server_refines_sessions_witness :
  ∃ seens sv' ω',
    run_cmds 60 9000 attest_fixed five_calls ark requests = Ret ((seens, sv'), ω')
    ∧ session_steps (None, 0) seens (abstract sv').
Proof.
  apply (server_refines_sessions (H3:=keys) (H5:=crypto) Script.budget 60 9000 attest_fixed
    five_calls 5000 (Byte.x0a : byte) (MkAttestation [Byte.x48; Byte.x01]) requests);
    [lia|apply ark_enough|]. repeat constructor.
Defined.
End Server.
