(* ===== verification/Connection.v ===== *)
(** * Client and server together

    The two handshakes answer each other, and a session delivers what is sealed
    into it. *)

From S2P Require Import Prelude Closer Io Script Stream Cobs Framing Sealing Outbound Endpoint Handshake TransportClient TransportServer.

Module Connection.

(** ** The handshakes agree *)

Section agreement.
Context `{Keys, !Messages, !MessagesLaws, !Crypto}.
Context (in_step : SealCtx → OpenCtx → Prop) `{!CryptoLaws in_step}.

(** What the client sends first. *)
Definition client_hello (xsk : xdsa_SecretKey) (hsk : xhpke_SecretKey) : HostHello :=
  MkHostHello (xdsa_public_key xsk) (xhpke_public_key hsk).

(** The server opens the ack of a client that trusts its identity. *)
Lemma ack_opens xsk hsk signer key ack encap ctx seed t seed' :
  new_sender (xhpke_public_key key) CRYPTO_DOMAIN_WIRE_HOST_TO_ARK seed = Ok (ctx, encap) →
  seal_at (MkHostAck encap) (MkHostAckAuth (xdsa_public_key signer) (xhpke_public_key key)) xsk
    (xhpke_public_key key) CRYPTO_DOMAIN_WIRE PaddingNone t seed' = Ok ack →
  ∃ rc, Server.open_ack signer (client_hello xsk hsk) key ack = Ok rc ∧ in_step ctx rc.
Proof.
  intros Hn Hs. destruct (receiver_in_step _ _ _ _ _ Hn) as (Hl & rc & Hr & Hst).
  exists rc. split; [|done]. unfold Server.open_ack, client_hello. cbn [host_signer].
  rewrite (open_sealed_at _ _ _ _ _ _ _ _ Hs). cbn [map_err h2a_encap].
  unfold Client.sized_encap. by rewrite decide_True, Hr.
Qed.
End agreement.

(** The only failures of a client that answers an honest server: the crypto library
    sets up no sender for the server's fresh key, or does not seal the ack. *)
Definition setup_failed `{Keys, !Messages, !Crypto} (xsk : xdsa_SecretKey)
    (signer : xdsa_SecretKey) (key : xhpke_SecretKey) (e : Error) : Prop :=
  ∃ err,
    (e = Client.failed "client sender setup failed" err ∧ ∃ seed,
       new_sender (xhpke_public_key key) CRYPTO_DOMAIN_WIRE_HOST_TO_ARK seed = Err err)
    ∨ (e = Client.failed "failed to seal client ack" err ∧ ∃ encap t seed,
         length encap = ENCAP_KEY_SIZE
         ∧ seal_at (MkHostAck encap)
             (MkHostAckAuth (xdsa_public_key signer) (xhpke_public_key key)) xsk
             (xhpke_public_key key) CRYPTO_DOMAIN_WIRE PaddingNone t seed = Err err).

(** The crypto library sets up senders for the keys it generates, and seals payloads
    whose encapsulations have its size. *)
Record crypto_works `{Keys, !Messages, !Crypto} : Prop := MkCryptoWorks {
  works_sender rsk info seed : ∃ p, new_sender (xhpke_public_key rsk) info seed = Ok p;
  works_hello (hello : ArkHello) (auth : ArkHelloAuth) sk rsk t seed :
    length (a2h_encap hello) = ENCAP_KEY_SIZE →
    ∃ p, seal_at hello auth sk (xhpke_public_key rsk) CRYPTO_DOMAIN_WIRE PaddingNone t seed = Ok p;
  works_ack (ack : HostAck) (auth : HostAckAuth) sk rsk t seed :
    length (h2a_encap ack) = ENCAP_KEY_SIZE →
    ∃ p, seal_at ack auth sk (xhpke_public_key rsk) CRYPTO_DOMAIN_WIRE PaddingNone t seed = Ok p;
}.

Lemma setup_works `{Keys, !Messages, !Crypto} xsk signer key e :
  crypto_works → setup_failed xsk signer key e → False.
Proof.
  intros [Hs _ Ha] (err & [(_ & seed & E)|(_ & encap & t & seed & Hl & E)]).
  - destruct (Hs key CRYPTO_DOMAIN_WIRE_HOST_TO_ARK seed) as [? ?]. congruence.
  - edestruct Ha as [? Hk]; [|rewrite E in Hk; discriminate Hk]. exact Hl.
Qed.

Section honest.
Context {Ω : Type} `{EnvLaws Ω, Keys, !Messages, !MessagesLaws, !Crypto, !Host Ω, !HostLaws Ω}.
Context (in_step : SealCtx → OpenCtx → Prop) `{!CryptoLaws in_step}.
Context (budget : Ω → nat) `{!EnvBudget Ω budget, !HostBudget Ω budget, !AfterEpoch Ω}.
Context {Info : Type}.

Lemma honest_answer (verify : Verifier Info) xsk hsk time signer key s_send encap cwt att info
    t seed seed' reply ω :
  new_sender (xhpke_public_key hsk) CRYPTO_DOMAIN_WIRE_ARK_TO_HOST seed = Ok (s_send, encap) →
  seal_at (MkArkHello cwt (xhpke_public_key key) encap) (Client.hello_auth xsk hsk) signer
    (xhpke_public_key hsk) CRYPTO_DOMAIN_WIRE PaddingNone t seed' = Ok reply →
  attestation_new cwt = Ok att → (∀ now, verify att now = Ok (xdsa_public_key signer, info)) →
  tpost (Client.answer_hello verify xsk hsk time reply) ω (λ r _,
    match r with
    | Ok (c_recv, c_send, ack, info') =>
        info' = info ∧ in_step s_send c_recv
        ∧ ∃ s_recv, Server.open_ack signer (client_hello xsk hsk) key ack = Ok s_recv
                    ∧ in_step c_send s_recv
    | Err e => setup_failed xsk signer key e
    end).
Proof.
  intros Hn Hs Hatt Hver. destruct (decrypt_sealed _ _ _ _ _ _ _ _ Hs) as (sign1 & Hd & Hv).
  destruct (receiver_in_step _ _ _ _ _ Hn) as (Hl & c_recv & Hr & Hst).
  unfold Client.answer_hello. rewrite Hd. cbn [try_of map_err].
  rewrite (verify_peek _ _ _ _ _ Hv). cbn [try_of map_err ark_attest]. rewrite Hatt. cbn [try_of].
  post_step. apply (Client.still_op budget); [intros ?; by apply still_system_time|].
  intros now ω1 _. rewrite Hver. cbn [try_of map_err]. rewrite Hv.
  cbn [try_of map_err a2h_encap ark_crypto]. unfold Client.sized_encap.
  rewrite decide_True by done. cbn [try_of]. rewrite Hr. cbn [try_of map_err].
  post_step. apply (Client.still_op budget); [intros ?; by apply still_draw|]. intros seed2 ω2 _.
  apply wp_try_of; [intros [c_send encap2] Hn2%map_err_Ok
    |intros e (err & -> & He)%map_err_Err_eq; exists err; left; eauto]. post_step.
  apply wp_mono with (P := λ _ _, True).
  { destruct time; [by post_step|]. eapply wp_mono; [by apply (timestamp_wp budget)|done]. }
  intros t2 ω3 _. post_step. apply (Client.still_op budget); [intros ?; by apply still_draw|].
  intros seed3 ω4 _. apply wp_try_of; [intros ack Hk%map_err_Ok
    |intros e (err & -> & He)%map_err_Err_eq; exists err; right; split; [done|]].
  - post_step. split_and!; [done..|]. by eapply ack_opens.
  - destruct (receiver_in_step _ _ _ _ _ Hn2) as [Hl2 _]. by exists encap2, t2, seed3.
Qed.

(** An honest server answers the hello of a client. *)
Lemma server_answers {A} (attest : A → Attestation * A) xsk hsk bytes signer a ω :
  crypto_works → cbor_encode (client_hello xsk hsk) = Ok bytes →
  tpost (Server.answer_hello attest signer a bytes) ω (λ p _, p.2 = (attest a).2
    ∧ ∃ key s_send reply encap t seed seed',
        p.1 = Ok (client_hello xsk hsk, key, s_send, reply)
        ∧ new_sender (xhpke_public_key hsk) CRYPTO_DOMAIN_WIRE_ARK_TO_HOST seed = Ok (s_send, encap)
        ∧ seal_at (MkArkHello (into_bytes (attest a).1) (xhpke_public_key key) encap)
            (Client.hello_auth xsk hsk) signer (xhpke_public_key hsk) CRYPTO_DOMAIN_WIRE
            PaddingNone t seed' = Ok reply).
Proof.
  intros [Hwork Hhello _] He. unfold Server.answer_hello. rewrite (decode_encode _ _ He). cbn [map_err].
  post_step. apply (Client.still_op budget); [intros ?; by apply still_xhpke_generate|].
  intros key ω1 _. post_step. apply (Client.still_op budget); [intros ?; by apply still_draw|].
  intros seed ω2 _. cbn [host_crypto host_signer client_hello].
  destruct (Hwork hsk CRYPTO_DOMAIN_WIRE_ARK_TO_HOST seed) as [[s_send encap] Hn]. rewrite Hn.
  cbn [map_err]. destruct (attest a) as [att a'] eqn:Ea. post_step.
  eapply wp_mono; [by apply (timestamp_wp budget)|]. intros t ω3 _. post_step.
  apply (Client.still_op budget); [intros ?; by apply still_draw|]. intros seed' ω4 _.
  destruct (receiver_in_step _ _ _ _ _ Hn) as [Hl _].
  destruct (Hhello (MkArkHello (into_bytes att) (xhpke_public_key key) encap)
    (Client.hello_auth xsk hsk) signer hsk t seed' Hl) as [reply Hs].
  change (MkArkHelloAuth _ _) with (Client.hello_auth xsk hsk). rewrite Hs. cbn [map_err].
  post_step. split; [done|]. by exists key, s_send, reply, encap, t, seed, seed'.
Qed.
End honest.

(** A client never turns an honest server away. If the server sealed its
    ArkHello for this attempt's keys and the policy accepts its attestation as
    its own identity, the client's answer returns: with the policy's info, a
    receive context in step with the server's sender, and an ack that the
    server opens to a context in step with the client's sender; or it fails in
    setting up its own sender or sealing the ack, and in nothing else. *)
Theorem honest_server_accepted {Ω : Type}
    `{EnvLaws Ω, Keys, !Messages, !MessagesLaws, !Crypto, !Host Ω, !HostLaws Ω}
    (in_step : SealCtx → OpenCtx → Prop) `{!CryptoLaws in_step} (budget : Ω → nat)
    `{!EnvBudget Ω budget, !HostBudget Ω budget, !AfterEpoch Ω} {Info : Type}
    (verify : Verifier Info) (xsk : xdsa_SecretKey) (hsk : xhpke_SecretKey) (time : option Z)
    (signer : xdsa_SecretKey) (key : xhpke_SecretKey) (s_send : SealCtx)
    (encap cwt : list byte) (att : Attestation) (info : Info) (t : Z) (seed seed' : Seed)
    (reply : list byte) (ω : Ω) :
  new_sender (xhpke_public_key hsk) CRYPTO_DOMAIN_WIRE_ARK_TO_HOST seed = Ok (s_send, encap) →
  seal_at (MkArkHello cwt (xhpke_public_key key) encap) (Client.hello_auth xsk hsk) signer
    (xhpke_public_key hsk) CRYPTO_DOMAIN_WIRE PaddingNone t seed' = Ok reply →
  attestation_new cwt = Ok att → (∀ now, verify att now = Ok (xdsa_public_key signer, info)) →
  ∃ r ω', Client.answer_hello verify xsk hsk time reply ω = Ret (r, ω')
    ∧ match r with
      | Ok (c_recv, c_send, ack, info') =>
          info' = info ∧ in_step s_send c_recv
          ∧ ∃ s_recv, Server.open_ack signer (client_hello xsk hsk) key ack = Ok s_recv
                      ∧ in_step c_send s_recv
      | Err e => setup_failed xsk signer key e
      end.
Proof.
  intros Hn Hs Ha Hv. apply tpost_returns.
  exact (honest_answer in_step budget verify xsk hsk time signer key s_send encap cwt att info
    t seed seed' reply ω Hn Hs Ha Hv).
Qed.

(** C9: The two handshakes accept each other. Give a server the hello of a client's
    attempt, with keys that the client's policy takes for the server's identity when it
    sees its attestation. The server answers; the client's skipping loop stops at that
    answer and the client accepts it, with the policy's info; and the server opens the
    client's ack. Both directions of the session are then in step: the server's send
    context with the client's receive context and the client's send context with the
    server's receive context. *)
Theorem handshakes_agree {Ω : Type}
    `{EnvLaws Ω, Keys, !Messages, !MessagesLaws, !Crypto, !Host Ω, !HostLaws Ω}
    (in_step : SealCtx → OpenCtx → Prop) `{!CryptoLaws in_step} (budget : Ω → nat)
    `{!EnvBudget Ω budget, !HostBudget Ω budget, !AfterEpoch Ω} {Info A : Type}
    (verify : Verifier Info) (attest : A → Attestation * A) (xsk : xdsa_SecretKey)
    (hsk : xhpke_SecretKey) (time : option Z) (bytes : list byte) (signer : xdsa_SecretKey)
    (a : A) (att : Attestation) (info : Info) (ω ω_client : Ω) :
  crypto_works → cbor_encode (client_hello xsk hsk) = Ok bytes →
  attestation_new (into_bytes (attest a).1) = Ok att →
  (∀ now, verify att now = Ok (xdsa_public_key signer, info)) →
  ∃ hello key s_send reply ω' c_recv c_send ack ω_client' s_recv,
    Server.answer_hello attest signer a bytes ω
    = Ret ((Ok (hello, key, s_send, reply), (attest a).2), ω')
    ∧ Client.names (fingerprint (xhpke_public_key hsk)) reply = true
    ∧ Client.answer_hello verify xsk hsk time reply ω_client
      = Ret (Ok (c_recv, c_send, ack, info), ω_client')
    ∧ Server.open_ack signer hello key ack = Ok s_recv
    ∧ in_step s_send c_recv ∧ in_step c_send s_recv.
Proof.
  intros Hw He Ha Hv.
  destruct (tpost_returns _ _ _ (server_answers in_step budget attest xsk hsk bytes signer a ω Hw He))
    as ([r a'] & ω' & Hrun & Ha' & key & s_send & reply & encap & t & seed & seed' & Hr & Hn & Hs).
  simpl in Hr, Ha'. subst r a'.
  destruct (tpost_returns _ _ _ (honest_answer in_step budget verify xsk hsk time signer key s_send
    encap _ att info t seed seed' reply ω_client Hn Hs Ha Hv)) as (rc & ωc' & Hrunc & Hrc).
  destruct rc as [[[[c_recv c_send] ack] info']|e]; [|by destruct (setup_works _ _ _ _ Hw Hrc)].
  destruct Hrc as (-> & Hst & s_recv & Ho & Hst').
  exists (client_hello xsk hsk), key, s_send, reply, ω', c_recv, c_send, ack, ωc', s_recv.
  split_and!; try done. unfold Client.names. rewrite (seal_recipient _ _ _ _ _ _ _ _ Hs).
  by rewrite bool_decide_eq_true_2.
Qed.

(** ** A session delivers *)

Definition is_event `{Hpke} (seen : Server.Seen) : bool :=
  match seen with Server.SeenRecv (Err _) => false | _ => true end.

(** A receive that the stream failed. *)
Definition stream_failed `{Hpke} (seen : Server.Seen) : Prop :=
  ∃ e, seen = Server.SeenRecv (Err e) ∧ Client.read_failed e = true.

Definition seen_message `{Hpke} (m : list byte) : Server.Seen :=
  Server.SeenRecv (Ok (Server.Message m)).

Section delivery.
Context {Ω : Type} `{EnvLaws Ω, CobsLaws, Keys, !Messages, !Crypto, !Host Ω, !HostLaws Ω}.
Context (in_step : SealCtx → OpenCtx → Prop) `{!HpkeLaws in_step}.
Context (budget : Ω → nat) `{!EnvBudget Ω budget, !HostBudget Ω budget, !AfterEpoch Ω}.
Context (max fuel limit : nat) (Hmax : 0 < max) {A : Type} (attest : A → Attestation * A).

(** A server in a session with a peer whose next messages [ms], sealed to the
    packets [ps], are ahead in the bytes [out] still to come. *)
Record delivering (sv : Server.State A) (s : scanner) (out : list byte)
    (ms : list (list byte)) (ps : list (list byte)) : Prop := MkDelivering {
  dl_ok : Server.server_ok max sv s;
  dl_session : ∃ c ctx ctx' rc,
    Endpoint.sealer (Server.endpoint sv) = Some c
    ∧ Outbound.binding (Endpoint.outbound (Server.endpoint sv)) = Some c
    ∧ Endpoint.receiver (Server.endpoint sv) = Some rc
    ∧ in_step ctx rc ∧ seal_all limit ctx ms = (Ok <$> ps, ctx');
  dl_fits : Forall (λ p, fits max (OpPacket p)) ps;
  dl_ahead : (ahead max (Endpoint.reader (Server.endpoint sv)) out).2
             = Client.frame_of max <$> ps;
}.

Lemma meaning_frame_of p : fits max (OpPacket p) → meaning max (Client.frame_of max p) = Ok (Some p).
Proof. intros Hf. pose proof (meaning_events max (OpPacket p) Hf) as Hm. by injection Hm. Qed.

(** The first packet of a delivery. *)
Lemma seal_all_cons ctx ms p ps ctx' rc :
  in_step ctx rc → seal_all limit ctx ms = (Ok <$> (p :: ps), ctx') →
  ∃ m ms' ctx1 rc', ms = m :: ms' ∧ open rc p = (Ok m, rc') ∧ in_step ctx1 rc'
    ∧ seal_all limit ctx1 ms' = (Ok <$> ps, ctx').
Proof.
  intros Hst. destruct ms as [|m ms']; [done|]. simpl.
  destruct (seal limit ctx m) as [r ctx1] eqn:Es.
  destruct (seal_all limit ctx1 ms') as [rs ctx2] eqn:Ea. intros [= -> -> ->].
  destruct (open_seal_one limit _ _ _ _ _ Hst Es) as (_ & _ & rc' & Ho & Hst').
  by exists m, ms', ctx1, rc'.
Qed.

Lemma deliver_step sv s ω out ms ps :
  delivering sv s out ms ps → Endpoint.enough max fuel budget (Server.endpoint sv) ω →
  tpost (Server.run_cmd max fuel attest (Server.CmdRecv []) sv) ω (λ p ω',
    Endpoint.enough max fuel budget (Server.endpoint p.2) ω'
    ∧ (∃ s', Server.server_ok max p.2 s')
    ∧ ∃ bs, rx ω' = rx ω ++ bs
      ∧ ∀ out', out = bs ++ out' → ∃ s' ms' ps',
          delivering p.2 s' out' ms' ps'
          ∧ (ms' = ms ∧ stream_failed p.1
             ∨ ∃ m, ms = m :: ms' ∧ p.1 = seen_message m)).
Proof.
  intros [Hok (c & ctx & ctx' & rc & Hs & Hb & Hr & Hst & Hseal) Hfits Ha] Hf. simpl. post_step.
  eapply wp_mono; [by apply (Server.server_recv_wp budget max fuel Hmax attest [] sv s)|].
  intros [r sv'] ω' (evs & sent & s' & (bs & o & Hrx & Htx & Hah & Hsc) & Hok' & _ & _ & Ho & Hu & _).
  post_step. split; [by eapply Endpoint.enough_le|]. split; [eauto|]. simpl.
  exists bs. split; [done|]. intros out' ->. rewrite Hah in Ha. unfold report in Ha. cbn [snd fst] in *.
  exists s'. destruct r as [[[c' ctx2]| |m]|e].
  - destruct Ho as ((Hr' & _) & _). congruence.
  - destruct Ho as (_ & _ & _ & ev & -> & Hend). destruct ps as [|p ps]; [done|].
    injection Ha as -> Ha. apply Forall_cons in Hfits as [Hfit _].
    destruct (seal_all_cons _ _ _ _ _ _ Hst Hseal) as (m & ms' & ctx1 & rc' & _ & Hop & _).
    unfold Server.ends_session in Hend. rewrite meaning_frame_of in Hend by done.
    destruct Hend as (rc2 & c2 & Hr2 & Hs2 & [He|[He|He]]); [|congruence|done].
    assert (rc2 = rc) as -> by congruence. by rewrite Hop in He.
  - destruct Ho as (c2 & rc2 & rc3 & packet & ev & Hs2 & Hs3 & Hr2 & Hr3 & -> & Hm & Hop & _ & Hb').
    destruct ps as [|p ps]; [done|]. injection Ha as -> Ha.
    apply Forall_cons in Hfits as [Hfit Hfits]. rewrite meaning_frame_of in Hm by done.
    injection Hm as <-. assert (rc2 = rc) as -> by congruence.
    destruct (seal_all_cons _ _ _ _ _ _ Hst Hseal) as (m' & ms' & ctx1 & rc' & -> & Hop' & Hst' & Hall).
    rewrite Hop in Hop'. injection Hop' as -> ->. exists ms', ps.
    split; [|right; by exists m']. split; try done.
    exists c, ctx1, ctx', rc'. split_and!; try done; [congruence|]. rewrite <-Hb. by apply Hb'.
  - destruct Ho as (Hs' & Hr' & _ & Hev & He). destruct Hev as [-> Hb']; [by rewrite Hr|].
    exists ms, ps. split; [|left; split; [done|]; exists e; split; [done|]].
    2:{ destruct e; try done. destruct He as (Hno & _). congruence. } split; try done. exists c, ctx, ctx', rc.
    split_and!; try done; [congruence| |congruence]. rewrite <-Hb. by apply Hb'.
Qed.

(** Receives only take bytes from the stream. *)
Lemma recvs_rx n (sv : Server.State A) s ω :
  Server.server_ok max sv s → Endpoint.enough max fuel budget (Server.endpoint sv) ω →
  tpost (Server.run_cmds max fuel attest (replicate n (Server.CmdRecv [])) sv) ω
    (λ _ ω', ∃ bs, rx ω' = rx ω ++ bs).
Proof.
  revert sv s ω. induction n as [|n IH]; intros sv s ω Hok Hf; simpl.
  { post_step. exists []. by rewrite app_nil_r. }
  post_steps. eapply wp_mono; [by apply (Server.server_recv_wp budget max fuel Hmax attest [] sv s)|].
  intros [r sv'] ω1 (evs & sent & s' & (bs & o & Hrx & _) & Hok' & _ & _ & _ & Hu & _). post_steps.
  eapply wp_mono; [by apply (IH sv' s'); [|by eapply Endpoint.enough_le]|].
  intros [seens sv2] ω2 [bs' Hrx']. post_step. exists (bs ++ bs'). by rewrite Hrx', Hrx, app_assoc.
Qed.

Lemma deliver_all n sv s ω out ms ps :
  delivering sv s out ms ps → Endpoint.enough max fuel budget (Server.endpoint sv) ω →
  tpost (Server.run_cmds max fuel attest (replicate n (Server.CmdRecv [])) sv) ω (λ p ω',
    ∃ bs, rx ω' = rx ω ++ bs
      ∧ ∀ out', out = bs ++ out' → ∃ k,
          filter (λ x, is_event x = true) p.1 = seen_message <$> take k ms
          ∧ Forall (λ x, is_event x = true ∨ stream_failed x) p.1).
Proof.
  revert sv s ω out ms ps. induction n as [|n IH]; intros sv s ω out ms ps Hdl Hf; simpl.
  { post_step. exists []. rewrite app_nil_r. split; [done|]. intros out' _. exists 0. split; [done|constructor]. }
  post_step. eapply wp_mono; [by apply (deliver_step sv s ω out ms ps)|].
  intros [seen sv1] ω1 (Hf1 & [s1 Hok1] & bs1 & Hrx1 & Hstep). post_step. cbn [fst snd] in *.
  destruct (decide (bs1 `prefix_of` out)) as [[out1 ->]|Hno].
  - destruct (Hstep out1 eq_refl) as (s2 & ms1 & ps1 & Hdl1 & Hcase).
    eapply wp_mono; [by apply (IH sv1 s2 ω1 out1 ms1 ps1)|].
    intros [seens sv2] ω2 (bs2 & Hrx2 & Hrest). post_step. exists (bs1 ++ bs2).
    split; [by rewrite Hrx2, Hrx1, app_assoc|]. intros out' Hout.
    rewrite <-app_assoc in Hout. apply app_inv_head in Hout.
    destruct (Hrest out' Hout) as (k & Hk & Hall). cbn [fst]. rewrite filter_cons.
    destruct Hcase as [[-> He]|(m & -> & ->)].
    + exists k. split; [|by constructor; [right|]]. destruct He as (e & -> & _).
      by rewrite decide_False.
    + exists (S k). split; [|by constructor; [left|]]. rewrite decide_True by done. simpl.
      f_equal. exact Hk.
  - eapply wp_mono; [by apply (recvs_rx n sv1 s1)|]. intros [seens sv2] ω2 [bs2 Hrx2]. post_step.
    exists (bs1 ++ bs2). split; [by rewrite Hrx2, Hrx1, app_assoc|]. intros out' ->.
    exfalso. apply Hno. rewrite <-app_assoc. by eexists.
Qed.
End delivery.

(** C10: A session delivers. While the stream brings the frames of the packets
    that the peer sealed, from a context in step with the server's, receives
    return exactly the peer's messages, in order and each once: the n calls
    return, and apart from reads that failed or found the end of the stream
    their results are the first messages sealed. *)
Theorem session_delivers {Ω : Type}
    `{EnvLaws Ω, CobsLaws, Keys, !Messages, !Crypto, !Host Ω, !HostLaws Ω}
    (in_step : SealCtx → OpenCtx → Prop) `{!HpkeLaws in_step} (budget : Ω → nat)
    `{!EnvBudget Ω budget, !HostBudget Ω budget, !AfterEpoch Ω} (max fuel limit : nat)
    {A : Type} (attest : A → Attestation * A) (n : nat) (sv : Server.State A) (s : scanner)
    (ω : Ω) (out : list byte) (ms ps : list (list byte)) :
  0 < max → delivering in_step max limit sv s out ms ps →
  Endpoint.enough max fuel budget (Server.endpoint sv) ω →
  ∃ seens sv' ω',
    Server.run_cmds max fuel attest (replicate n (Server.CmdRecv [])) sv ω
    = Ret ((seens, sv'), ω')
    ∧ (rx ω' `prefix_of` rx ω ++ out → ∃ k,
        filter (λ x, is_event x = true) seens = seen_message <$> take k ms
        ∧ Forall (λ x, is_event x = true ∨ stream_failed x) seens).
Proof.
  intros Hm Hdl Hf. destruct (tpost_returns _ _ _ (deliver_all in_step budget max fuel limit Hm
    attest n sv s ω out ms ps Hdl Hf)) as ([seens sv'] & ω' & Hrun & bs & Hrx & Hall).
  exists seens, sv', ω'. split; [done|]. intros [rest Hp]. apply (Hall rest).
  rewrite Hrx, <-app_assoc in Hp. by apply app_inv_head in Hp.
Qed.

(** ** A concrete connection *)

Import Plain.

(** The keys of the host and of the Ark, and the host's first packet. *)
Definition host_xdsa : xdsa_SecretKey := (Byte.x02 : byte).
Definition host_xhpke : xhpke_SecretKey := (Byte.x03 : byte).
Definition ark_xdsa : xdsa_SecretKey := (Byte.x0a : byte).
Definition ark_xhpke : xhpke_SecretKey := (Byte.x0b : byte).
Definition hello_bytes : list byte := [Byte.x02; Byte.x03].
Definition ark_sender : SealCtx := (29 : nat).

Lemma plain_works : crypto_works (H:=keys) (H0:=messages) (H1:=crypto).
Proof.
  split.
  - intros rsk info seed. by eexists.
  - intros [attest ck encap] [b1 b2] sk rsk t seed Hl. simpl in Hl.
    destruct encap as [|e [|]]; try done. eexists. reflexivity.
  - intros [encap] [b1 b2] sk rsk t seed _. eexists. reflexivity.
Qed.

Lemma handshakes_agree_witness :
  ∃ hello key s_send reply ω' c_recv c_send ack ω_client' s_recv,
    Server.answer_hello attest_fixed ark_xdsa (MkAttestation [Byte.x48; Byte.x01]) hello_bytes
      Server.requests
    = Ret ((Ok (hello, key, s_send, reply), MkAttestation [Byte.x48; Byte.x01]), ω')
    ∧ Client.names (fingerprint (xhpke_public_key host_xhpke)) reply = true
    ∧ Client.answer_hello (Client.trusting Byte.x0a) host_xdsa host_xhpke None reply
        Client.arrival
      = Ret (Ok (c_recv, c_send, ack, MkAttestation [Byte.x48; Byte.x01]), ω_client')
    ∧ Server.open_ack ark_xdsa hello key ack = Ok s_recv
    ∧ Clear.in_step s_send c_recv ∧ Clear.in_step c_send s_recv.
Proof.
  apply (handshakes_agree (H1:=keys) (H2:=messages) (H4:=crypto) Clear.in_step Script.budget
    (Client.trusting Byte.x0a) attest_fixed host_xdsa host_xhpke None hello_bytes ark_xdsa
    (MkAttestation [Byte.x48; Byte.x01]) (MkAttestation [Byte.x48; Byte.x01])
    (MkAttestation [Byte.x48; Byte.x01]) Server.requests Client.arrival plain_works);
    [reflexivity..|done].
Defined.

Lemma honest_server_accepted_witness :
  ∃ r ω', Client.answer_hello (Client.trusting Byte.x0a) host_xdsa host_xhpke None
            Client.ark_packet Client.arrival = Ret (r, ω')
    ∧ match r with
      | Ok (c_recv, c_send, ack, info') =>
          info' = MkAttestation [Byte.x48; Byte.x01] ∧ Clear.in_step ark_sender c_recv
          ∧ ∃ s_recv, Server.open_ack ark_xdsa (client_hello host_xdsa host_xhpke) ark_xhpke ack
                      = Ok s_recv ∧ Clear.in_step c_send s_recv
      | Err e => setup_failed host_xdsa ark_xdsa ark_xhpke e
      end.
Proof.
  apply (honest_server_accepted (H1:=keys) (H2:=messages) (H4:=crypto) Clear.in_step Script.budget
    (Client.trusting Byte.x0a) host_xdsa host_xhpke None ark_xdsa ark_xhpke ark_sender
    [Byte.x07] [Byte.x48; Byte.x01] (MkAttestation [Byte.x48; Byte.x01])
    (MkAttestation [Byte.x48; Byte.x01]) 0 (Byte.x07 : byte) (Byte.x07 : byte)
    Client.ark_packet Client.arrival); [vm_compute; reflexivity..|done].
Defined.

(** A server that two messages of its session are on their way to. *)
Definition talk : list (list byte) := [[Byte.x66]; [Byte.x67; Byte.x68]].

Definition talk_packets : list (list byte) :=
  [Clear.tag 30 ++ [Byte.x66]; Clear.tag 31 ++ [Byte.x67; Byte.x68]].

Definition talk_bytes : list byte := talk_packets ≫= Client.framed_packet.

Definition line : Script.world :=
  Script.MkWorld 0 1 Shutdown.closer_new
    ([Ok [Byte.x00]; Ok (Client.framed_packet hello_bytes);
      Ok (Client.framed_packet Server.host_ack)]
     ++ (Ok <$> (Client.framed_packet <$> talk_packets))) [] [] [].

Definition served {B} (d : B * Script.world) (o : outcome (result Server.Event Error * B * Script.world)) :
  B * Script.world :=
  match o with Ret ((_, sv), ω) => (sv, ω) | _ => d end.

Lemma served_wp {B} d (m : M Script.world (result Server.Event Error * B)) ω
    (Q : B → Script.world → Prop) :
  tpost m ω (λ p ω', Q p.2 ω') → Q (served d (m ω)).1 (served d (m ω)).2.
Proof. unfold wp, served. by destruct (m ω) as [[[r sv] ω']| |]. Qed.

Definition talking : Server.State Attestation * Script.world :=
  served (Server.ark, line) (Server.recv 60 9000 attest_fixed [] Server.ark line).

Lemma line_enough : Endpoint.enough 60 9000 Script.budget (Server.endpoint Server.ark) line.
Proof. apply Nat.ltb_lt. vm_compute. reflexivity. Qed.

Lemma talking_ok :
  (∃ s, Server.server_ok 60 talking.1 s)
  ∧ Endpoint.enough 60 9000 Script.budget (Server.endpoint talking.1) talking.2.
Proof.
  unfold talking. apply (served_wp _ _ _ (λ sv ω, (∃ s, Server.server_ok 60 sv s)
    ∧ Endpoint.enough 60 9000 Script.budget (Server.endpoint sv) ω)).
  eapply wp_mono; [apply (Server.server_recv_wp (H3:=keys) (H5:=crypto) Script.budget 60 9000)
    with (s := at_boundary); [lia|apply Server.new_ok|apply line_enough|constructor]|].
  intros [r sv] ω (evs & sent & s & _ & Hok & _ & _ & _ & Hu & _). split; [eauto|].
  eapply Endpoint.enough_le; [lia|apply line_enough|exact Hu].
Qed.

Lemma talking_session :
  Endpoint.sealer (Server.endpoint talking.1) = Some 0
  ∧ Outbound.binding (Endpoint.outbound (Server.endpoint talking.1)) = Some 0
  ∧ Endpoint.receiver (Server.endpoint talking.1) = Some (30 : nat)
  ∧ seal_all 100 (30 : nat) talk = (Ok <$> talk_packets, 32 : nat)
  ∧ (ahead 60 (Endpoint.reader (Server.endpoint talking.1)) talk_bytes).2
    = Client.frame_of 60 <$> talk_packets.
Proof. vm_compute. by split_and!. Qed.

Lemma talking_delivers :
  ∃ s, delivering Clear.in_step 60 100 talking.1 s talk_bytes talk talk_packets.
Proof.
  destruct talking_ok as [[s Hok] _]. destruct talking_session as (Hs & Hb & Hr & Hall & Ha).
  exists s. split; [exact Hok| |by repeat constructor; vm_compute; lia|exact Ha].
  exists 0, (30 : nat), (32 : nat), (30 : nat).
  split; [exact Hs|]. split; [exact Hb|]. split; [exact Hr|]. by split; [|exact Hall].
Qed.

#[local] Existing Instance Clear.hpke_laws.

Lemma session_delivers_witness :
  ∃ seens sv' ω',
    Server.run_cmds 60 9000 attest_fixed (replicate 4 (Server.CmdRecv [])) talking.1 talking.2
    = Ret ((seens, sv'), ω')
    ∧ (rx ω' `prefix_of` rx talking.2 ++ talk_bytes → ∃ k,
        filter (λ x, is_event x = true) seens = seen_message <$> take k talk
        ∧ Forall (λ x, is_event x = true ∨ stream_failed x) seens).
Proof.
  destruct talking_delivers as [s Hdl].
  apply (session_delivers (H3:=keys) (H5:=crypto) Clear.in_step Script.budget 60 9000 100
    attest_fixed 4 talking.1 s talking.2 talk_bytes talk talk_packets);
    [lia|exact Hdl|apply talking_ok].
Defined.

Example talking_seen :
  match Server.run_cmds 60 9000 attest_fixed (replicate 3 (Server.CmdRecv [])) talking.1
          talking.2 with
  | Ret ((seens, _), ω') =>
      seens = [seen_message [Byte.x66]; seen_message [Byte.x67; Byte.x68];
               Server.SeenRecv (Err Terminated)]
      ∧ rx ω' = rx talking.2 ++ talk_bytes
  | _ => False
  end.
Proof. vm_compute. by split. Qed.
End Connection.
