(* ===== verification/Memory.v ===== *)
(** * The in-memory duplex ([memory/mod.rs])

    The bounded pipe of one direction: its state, the critical sections of its
    operations, and the machine of a reader, a writer and whoever closes either
    end, sleeping on the pipe's condition variable. Every operation releases the lock
    before it notifies, so notifying is a step of its own. *)

From stdpp Require Import relations.
From S2P Require Import Prelude Closer Io.

Module Pipe.

(** ** State and critical sections *)

(** [State], without its test counters. *)
Record State := MkState {
  bytes : list byte;
  reader_open : bool;
  writer_open : bool;
  lost : bool;
}.

(** [Pipe::new] *)
Definition new : State := MkState [] true true false.

(** [duplex]: the two directions, or the panic on zero capacity. *)
Definition duplex (capacity : nat) : outcome (State * State) :=
  if decide (capacity = 0) then Panicked else Ret (new, new).

(** [Pipe::check_deadline] *)
Definition check_deadline (now : Instant) (deadline : option Instant) : result unit ErrorKind :=
  match deadline with
  | Some deadline => if decide (deadline ≤ now)%Z then Err TimedOut else Ok tt
  | None => Ok tt
  end.

(** What one pass of an operation's loop does under the lock: return, or drop the lock
    with a notification to make before returning ([notify]), or wait. *)
Inductive pass (A : Type) :=
  | Return (r : result A ErrorKind) (st : State) (notify : bool)
  | Wait.
Arguments Return {A} r st notify.
Arguments Wait {A}.

(** One pass of [Reader::read] into a buffer of [n] bytes. [wrap] is where the
    ring buffer's first slice ends, which the queue alone decides. *)
Definition read_pass (wrap n : nat) (now : Instant) (deadline : option Instant) (st : State) :
  pass (list byte) :=
  if decide (n = 0 ∨ reader_open st = false) then Return (Ok []) st false
  else if decide (bytes st ≠ []) then
    let count := Nat.min n (length (bytes st)) in
    let front := take wrap (bytes st) in
    let back := drop wrap (bytes st) in
    let split := Nat.min count (length front) in
    Return (Ok (take split front ++ take (count - split) back))
      (MkState (drop count (bytes st)) (reader_open st) (writer_open st) (lost st)) true
  else if negb (writer_open st) then Return (Ok []) st false
  else match check_deadline now deadline with
       | Err e => Return (Err e) st false
       | Ok _ => Wait
       end.

(** One pass of [Writer::write]; the value is the number of bytes accepted. *)
Definition write_pass (capacity : nat) (buf : list byte) (now : Instant)
    (deadline : option Instant) (st : State) : pass nat :=
  match check_deadline now deadline with
  | Err e => Return (Err e) st false
  | Ok _ =>
      if decide (buf = []) then Return (Ok 0) st false
      else if decide (reader_open st = false ∨ writer_open st = false) then
        Return (Err BrokenPipe) st false
      else
        let count := Nat.min (length buf) (capacity - length (bytes st)) in
        if decide (0 < count) then
          Return (Ok count)
            (MkState (bytes st ++ take count buf) (reader_open st) (writer_open st) (lost st))
            true
        else Wait
  end.

(** [Writer::flush] *)
Definition flush (now : Instant) (deadline : option Instant) (st : State) :
  result unit ErrorKind :=
  match check_deadline now deadline with
  | Err e => Err e
  | Ok _ => if negb (writer_open st) || lost st then Err BrokenPipe else Ok tt
  end.

(** [Pipe::close_reader] *)
Definition close_reader (st : State) : State :=
  MkState [] false (writer_open st) (lost st || bool_decide (bytes st ≠ [])).

(** [Pipe::close_writer] *)
Definition close_writer (st : State) : State :=
  MkState (bytes st) (reader_open st) false (lost st).

(** ** The threads of one pipe *)

(** A half between calls, in a pass, asleep, or about to notify the others: the lock
    is already released, the call has not returned. *)
Inductive pc (A : Type) := Idle | Awake (a : A) | Asleep (a : A) | Notifying.
Arguments Idle {A}.
Arguments Awake {A} a.
Arguments Asleep {A} a.
Arguments Notifying {A}.

(** [Condvar::notify_all] *)
Definition wake {A} (p : pc A) : pc A :=
  match p with Asleep a => Awake a | p => p end.

(** Where a pass that returns leaves its half. *)
Definition returned {A} (notify : bool) : pc A := if notify then Notifying else Idle.

(** [closing] counts the calls of [close_reader] and [close_writer] between their
    change and their notification; [accepted] and [delivered] record the bytes writes
    took and reads returned. *)
Record sys := MkSys {
  st : State;
  now : Instant;
  read_deadline : option Instant;
  write_deadline : option Instant;
  reader : pc nat;
  writer : pc (list byte);
  closing : nat;
  accepted : list byte;
  delivered : list byte;
}.

Definition start (t : Instant) : sys := MkSys new t None None Idle Idle 0 [] [].

Section machine.
Context (capacity : nat).

(** Each step is one critical section or one [notify_all] of one thread, and any other
    thread may go between two of them. *)
Inductive step : sys → sys → Prop :=
  | step_read s n :
      reader s = Idle →
      step s (MkSys (st s) (now s) (read_deadline s) (write_deadline s) (Awake n) (writer s)
                (closing s) (accepted s) (delivered s))
  | step_read_return s wrap n r st' b :
      reader s = Awake n →
      read_pass wrap n (now s) (read_deadline s) (st s) = Return r st' b →
      step s (MkSys st' (now s) (read_deadline s) (write_deadline s) (returned b) (writer s)
                (closing s) (accepted s)
                (delivered s ++ match r with Ok bs => bs | Err _ => [] end))
  | step_read_notify s :
      reader s = Notifying →
      step s (MkSys (st s) (now s) (read_deadline s) (write_deadline s) Idle (wake (writer s))
                (closing s) (accepted s) (delivered s))
  | step_read_wait s wrap n :
      reader s = Awake n →
      read_pass wrap n (now s) (read_deadline s) (st s) = Wait →
      step s (MkSys (st s) (now s) (read_deadline s) (write_deadline s) (Asleep n) (writer s)
                (closing s) (accepted s) (delivered s))
  | step_write s buf :
      writer s = Idle →
      step s (MkSys (st s) (now s) (read_deadline s) (write_deadline s) (reader s) (Awake buf)
                (closing s) (accepted s) (delivered s))
  | step_write_return s buf r st' b :
      writer s = Awake buf →
      write_pass capacity buf (now s) (write_deadline s) (st s) = Return r st' b →
      step s (MkSys st' (now s) (read_deadline s) (write_deadline s) (reader s) (returned b)
                (closing s) (accepted s ++ match r with Ok k => take k buf | Err _ => [] end)
                (delivered s))
  | step_write_notify s :
      writer s = Notifying →
      step s (MkSys (st s) (now s) (read_deadline s) (write_deadline s) (wake (reader s)) Idle
                (closing s) (accepted s) (delivered s))
  | step_write_wait s buf :
      writer s = Awake buf →
      write_pass capacity buf (now s) (write_deadline s) (st s) = Wait →
      step s (MkSys (st s) (now s) (read_deadline s) (write_deadline s) (reader s) (Asleep buf)
                (closing s) (accepted s) (delivered s))
  | step_close_reader s :
      step s (MkSys (close_reader (st s)) (now s) (read_deadline s) (write_deadline s)
                (reader s) (writer s) (S (closing s)) (accepted s) (delivered s))
  | step_close_writer s :
      step s (MkSys (close_writer (st s)) (now s) (read_deadline s) (write_deadline s)
                (reader s) (writer s) (S (closing s)) (accepted s) (delivered s))
  | step_close_notify s k :
      closing s = S k →
      step s (MkSys (st s) (now s) (read_deadline s) (write_deadline s)
                (wake (reader s)) (wake (writer s)) k (accepted s) (delivered s))
  | step_set_read_deadline s d :
      reader s = Idle →
      step s (MkSys (st s) (now s) d (write_deadline s) (reader s) (writer s)
                (closing s) (accepted s) (delivered s))
  | step_set_write_deadline s d :
      writer s = Idle →
      step s (MkSys (st s) (now s) (read_deadline s) (Some d) (reader s) (writer s)
                (closing s) (accepted s) (delivered s))
  | step_wakeup_reader s :
      step s (MkSys (st s) (now s) (read_deadline s) (write_deadline s)
                (wake (reader s)) (writer s) (closing s) (accepted s) (delivered s))
  | step_wakeup_writer s :
      step s (MkSys (st s) (now s) (read_deadline s) (write_deadline s)
                (reader s) (wake (writer s)) (closing s) (accepted s) (delivered s))
  | step_time s t :
      (now s ≤ t)%Z →
      step s (MkSys (st s) t (read_deadline s) (write_deadline s) (reader s) (writer s)
                (closing s) (accepted s) (delivered s)).

(** Bytes are neither lost nor made up while the reader is open, a closed reader
    has consumed a prefix and [lost] says whether anything is missing, and a half
    sleeps only while nothing lets it go on, or with the notification on its way. *)
Record inv (s : sys) : Prop := MkInv {
  inv_capacity : length (bytes (st s)) ≤ capacity;
  inv_open :
    reader_open (st s) = true →
    accepted s = delivered s ++ bytes (st s) ∧ lost (st s) = false;
  inv_closed :
    reader_open (st s) = false →
    bytes (st s) = [] ∧ ∃ rest, accepted s = delivered s ++ rest
      ∧ lost (st s) = bool_decide (rest ≠ []);
  inv_reader n :
    reader s = Asleep n →
    n ≠ 0 ∧ (bytes (st s) = [] ∧ reader_open (st s) = true ∧ writer_open (st s) = true
             ∨ writer s = Notifying ∨ 0 < closing s);
  inv_writer buf :
    writer s = Asleep buf →
    buf ≠ [] ∧ (length (bytes (st s)) = capacity ∧ reader_open (st s) = true
                ∧ writer_open (st s) = true
                ∨ reader s = Notifying ∨ 0 < closing s);
}.

(** The two slices of the ring, copied one after the other. *)
Lemma copy_slices (wrap count : nat) (l : list byte) :
  count ≤ length l →
  take (Nat.min count (length (take wrap l))) (take wrap l)
  ++ take (count - Nat.min count (length (take wrap l))) (drop wrap l) = take count l.
Proof.
  intros Hc. rewrite length_take. rewrite <-(take_drop wrap l) at 5.
  rewrite take_app, length_take. f_equal; [|f_equal; lia].
  rewrite !take_take. f_equal. lia.
Qed.

Lemma wake_Asleep {A} (p : pc A) a : wake p ≠ Asleep a.
Proof. by destruct p. Qed.

Lemma inv_read_return s wrap n r st' b :
  inv s → reader s = Awake n →
  read_pass wrap n (now s) (read_deadline s) (st s) = Return r st' b →
  inv (MkSys st' (now s) (read_deadline s) (write_deadline s) (returned b) (writer s)
         (closing s) (accepted s) (delivered s ++ match r with Ok bs => bs | Err _ => [] end)).
Proof.
  intros [Hcap Hopen Hclosed Hrd Hwr] Hr. unfold read_pass.
  assert (∀ d, d = [] → inv (MkSys (st s) (now s) (read_deadline s) (write_deadline s) Idle
    (writer s) (closing s) (accepted s) (delivered s ++ d))) as Hsame.
  { intros d ->. rewrite app_nil_r. split; simpl; try done.
    intros buf Hb. by destruct (Hwr buf Hb) as (? & [?|[?|?]]); [auto|congruence|auto]. }
  case_decide; [intros [= <- <- <-]; by apply Hsame|]. case_decide as Hne.
  - intros [= <- <- <-]. rewrite copy_slices by lia.
    assert (reader_open (st s) = true) as Ho by (destruct (reader_open (st s)); naive_solver).
    destruct (Hopen Ho) as [Hacc Hlost]. split; simpl; try done.
    + rewrite length_drop. lia.
    + intros _. by rewrite <-app_assoc, take_drop.
    + by rewrite Ho.
    + intros buf Hb. destruct (Hwr buf Hb) as [? _]. auto.
  - destruct (writer_open (st s)) eqn:Ew; simpl; [|by intros [= <- <- <-]; apply Hsame].
    destruct (check_deadline _ _); [done|]. intros [= <- <- <-]. by apply Hsame.
Qed.

Lemma inv_write_return s buf r st' b :
  inv s → writer s = Awake buf →
  write_pass capacity buf (now s) (write_deadline s) (st s) = Return r st' b →
  inv (MkSys st' (now s) (read_deadline s) (write_deadline s) (reader s) (returned b)
         (closing s) (accepted s ++ match r with Ok k => take k buf | Err _ => [] end)
         (delivered s)).
Proof.
  intros [Hcap Hopen Hclosed Hrd Hwr] Hw. unfold write_pass.
  assert (∀ d, d = [] → inv (MkSys (st s) (now s) (read_deadline s) (write_deadline s)
    (reader s) Idle (closing s) (accepted s ++ d) (delivered s))) as Hsame.
  { intros d ->. rewrite app_nil_r. split; simpl; try done.
    intros n Hn. by destruct (Hrd n Hn) as (? & [?|[?|?]]); [auto|congruence|auto]. }
  destruct (check_deadline _ _); [|intros [= <- <- <-]; by apply Hsame].
  case_decide; [intros [= <- <- <-]; by apply Hsame|].
  case_decide as Hcl; [intros [= <- <- <-]; by apply Hsame|].
  assert (reader_open (st s) = true) as Ho by (destruct (reader_open (st s)); naive_solver).
  destruct (Hopen Ho) as [Hacc Hlost].
  case_decide as Hcount; [|done]. intros [= <- <- <-]. split; simpl.
  - rewrite length_app, length_take. lia.
  - intros _. split; [|done]. by rewrite Hacc, <-app_assoc.
  - by rewrite Ho.
  - intros n Hn. destruct (Hrd n Hn) as [? _]. auto.
  - done.
Qed.

Lemma inv_close_reader s :
  inv s →
  inv (MkSys (close_reader (st s)) (now s) (read_deadline s) (write_deadline s)
         (reader s) (writer s) (S (closing s)) (accepted s) (delivered s)).
Proof.
  intros [Hcap Hopen Hclosed Hrd Hwr]. split; simpl; try done; try lia.
  - intros _. split; [done|]. destruct (reader_open (st s)).
    + destruct (Hopen eq_refl) as [-> ->]. by eexists.
    + destruct (Hclosed eq_refl) as (-> & rest & ? & ->). exists rest. split; [done|].
      by rewrite orb_false_r.
  - intros n Hn. destruct (Hrd n Hn) as [? _]. auto with lia.
  - intros buf Hb. destruct (Hwr buf Hb) as [? _]. auto with lia.
Qed.

(** A half that sleeps on a state that blocks it. *)
Lemma read_waits wrap n t d x :
  read_pass wrap n t d x = Wait →
  n ≠ 0 ∧ bytes x = [] ∧ reader_open x = true ∧ writer_open x = true.
Proof.
  unfold read_pass. repeat case_decide; try done. destruct (writer_open x); [|done].
  destruct (reader_open x); naive_solver.
Qed.

Lemma write_waits buf t d x :
  length (bytes x) ≤ capacity → write_pass capacity buf t d x = Wait →
  buf ≠ [] ∧ length (bytes x) = capacity ∧ reader_open x = true ∧ writer_open x = true.
Proof.
  intros Hcap. unfold write_pass. destruct (check_deadline _ _); [|done].
  case_decide; [done|]. case_decide as Hcl; [done|]. case_decide as Hc; [done|]. intros _.
  split_and!; [done| |destruct (reader_open x); naive_solver|destruct (writer_open x); naive_solver].
  assert (length buf ≠ 0) by (by destruct buf). lia.
Qed.

(** Conversely, a half that cannot wait, whatever the deadline, is not blocked. *)
Lemma read_blocked wrap n t x :
  n ≠ 0 → bytes x = [] → reader_open x = true → writer_open x = true →
  read_pass wrap n t None x = Wait.
Proof.
  intros Hn Hb Hr Hw. unfold read_pass. rewrite decide_False by (rewrite Hr; naive_solver).
  rewrite decide_False by naive_solver. by rewrite Hw.
Qed.

Lemma write_blocked buf t x :
  buf ≠ [] → length (bytes x) = capacity → reader_open x = true → writer_open x = true →
  write_pass capacity buf t None x = Wait.
Proof.
  intros Hn Hb Hr Hw. unfold write_pass. simpl. rewrite decide_False by done.
  rewrite decide_False by (rewrite Hr, Hw; naive_solver). by rewrite decide_False by lia.
Qed.

(** Steps that leave the state, the deadlines apart, and put nobody to sleep. *)
Lemma inv_quiet s s' :
  inv s → st s' = st s → accepted s' = accepted s → delivered s' = delivered s →
  (∀ n, reader s' = Asleep n →
    reader s = Asleep n ∧ (writer s = Notifying → writer s' = Notifying)
    ∧ (0 < closing s → 0 < closing s')) →
  (∀ buf, writer s' = Asleep buf →
    writer s = Asleep buf ∧ (reader s = Notifying → reader s' = Notifying)
    ∧ (0 < closing s → 0 < closing s')) →
  inv s'.
Proof.
  intros [Hcap Hopen Hclosed Hrd Hwr] E1 E2 E3 Hr Hw. split; rewrite E1, ?E2, ?E3; try done.
  - intros n (Hn & Hw1 & Hw2)%Hr. destruct (Hrd n Hn) as (? & [?|[?|?]]); auto.
  - intros n (Hn & Hw1 & Hw2)%Hw. destruct (Hwr n Hn) as (? & [?|[?|?]]); auto.
Qed.

Ltac quiet := eapply inv_quiet; [eassumption|done..| |]; simpl;
  intros ? ?; repeat split; first [done|congruence|by exfalso; eapply wake_Asleep; eassumption|by intros ->].

Lemma pipe_inv_step s s' : inv s → step s s' → inv s'.
Proof.
  intros Hi Hs.
  destruct Hs as [s n Hr|s wrap n r st' b Hr Hp|s Hr|s wrap n Hr Hp|s buf Hw|s buf r st' b Hw Hp
    |s Hw|s buf Hw Hp|s|s|s k Hk|s d Hr|s d Hw|s|s|s t Ht].
  - quiet.
  - by eapply inv_read_return.
  - quiet.
  - pose proof Hi as [Hcap Hopen Hclosed Hrd Hwr]. split; simpl; try done.
    + intros n' [= <-]. apply read_waits in Hp. naive_solver.
    + intros buf Hb. by destruct (Hwr buf Hb) as (? & [?|[?|?]]); [auto|congruence|auto].
  - quiet.
  - by eapply inv_write_return.
  - quiet.
  - pose proof Hi as [Hcap Hopen Hclosed Hrd Hwr]. split; simpl; try done.
    + intros n Hn. by destruct (Hrd n Hn) as (? & [?|[?|?]]); [auto|congruence|auto].
    + intros buf' [= <-]. apply write_waits in Hp; [|done]. naive_solver.
  - by apply inv_close_reader.
  - destruct Hi as [Hcap Hopen Hclosed Hrd Hwr]. split; simpl; try done.
    + intros n Hn. destruct (Hrd n Hn) as [? _]. auto with lia.
    + intros buf Hb. destruct (Hwr buf Hb) as [? _]. auto with lia.
  - quiet.
  - quiet.
  - quiet.
  - quiet.
  - quiet.
  - quiet.
Qed.

Lemma pipe_inv_reachable t s : rtc step (start t) s → inv s.
Proof.
  intros Hr. assert (inv (start t)) as Hi by (split; simpl; try done; lia).
  induction Hr as [|s1 s2 s3 Hs _ IH]; [done|]. eauto using pipe_inv_step.
Qed.
End machine.

(** ** What the pipe guarantees *)

(** C38: The pipe is a bounded lossless queue. At every moment it holds at most
    its capacity, what reads returned is the first part of what writes accepted,
    and while the reader is open the rest is exactly what is buffered. A flush
    that succeeds proves that nothing accepted was discarded, and a nonempty
    read that returns nothing on an open reader proves that everything was
    delivered and the writer is closed. *)
Theorem pipe_is_bounded_fifo (capacity : nat) (t : Instant) (s : sys) :
  rtc (step capacity) (start t) s →
  length (bytes (st s)) ≤ capacity
  ∧ delivered s `prefix_of` accepted s
  ∧ (reader_open (st s) = true → accepted s = delivered s ++ bytes (st s))
  ∧ (flush (now s) (write_deadline s) (st s) = Ok tt →
      accepted s = delivered s ++ bytes (st s))
  ∧ (∀ wrap n st' b, n ≠ 0 → reader_open (st s) = true →
      read_pass wrap n (now s) (read_deadline s) (st s) = Return (Ok []) st' b →
      accepted s = delivered s ∧ writer_open (st s) = false).
Proof.
  intros [Hcap Hopen Hclosed _ _]%pipe_inv_reachable. split_and!; [done| | | |].
  - destruct (reader_open (st s)).
    + destruct (Hopen eq_refl) as [-> _]. by eexists.
    + destruct (Hclosed eq_refl) as (_ & rest & -> & _). by eexists.
  - intros Ho. by apply Hopen.
  - unfold flush. destruct (check_deadline _ _); [|done].
    destruct (writer_open (st s)), (lost (st s)) eqn:El; simpl; try done. intros _.
    destruct (reader_open (st s)); [by apply Hopen|].
    destruct (Hclosed eq_refl) as (-> & rest & -> & Hl).
    symmetry in Hl. apply bool_decide_eq_false in Hl. by rewrite (dec_stable Hl).
  - intros wrap n st' b Hn Ho. destruct (Hopen Ho) as [Hacc _]. unfold read_pass.
    rewrite decide_False by (rewrite Ho; naive_solver). case_decide as Hne.
    + rewrite copy_slices by lia. destruct (bytes (st s)) as [|x l] eqn:Eb; [done|].
      destruct n; [done|]. done.
    + rewrite Hacc. rewrite Hne, app_nil_r.
      destruct (writer_open (st s)); simpl; [|done]. by destruct (check_deadline _ _).
Qed.

(** C39: No wakeup is lost, although every operation releases the lock before it
    notifies. A sleeping reader whose pass would go on whatever its deadline, because
    bytes arrived or an end closed, has a notification on its way from the writer or a
    closer, and a sleeping writer one from the reader or a closer; with none on its way
    the reader sleeps only on an empty pipe with both ends open and the writer only on
    a full one, so the two sleep at once only while a closer is about to notify. A half
    that gets past its notification leaves the other awake, and a closer both. *)
Theorem pipe_no_lost_wakeup (capacity : nat) (t : Instant) (s : sys) :
  0 < capacity → rtc (step capacity) (start t) s →
  (∀ n wrap, reader s = Asleep n → read_pass wrap n (now s) None (st s) ≠ Wait →
    writer s = Notifying ∨ 0 < closing s)
  ∧ (∀ buf, writer s = Asleep buf → write_pass capacity buf (now s) None (st s) ≠ Wait →
      reader s = Notifying ∨ 0 < closing s)
  ∧ (∀ n, reader s = Asleep n → writer s ≠ Notifying → closing s = 0 →
      bytes (st s) = [] ∧ reader_open (st s) = true ∧ writer_open (st s) = true)
  ∧ (∀ buf, writer s = Asleep buf → reader s ≠ Notifying → closing s = 0 →
      length (bytes (st s)) = capacity ∧ reader_open (st s) = true
      ∧ writer_open (st s) = true)
  ∧ (∀ n buf, reader s = Asleep n → writer s = Asleep buf → 0 < closing s)
  ∧ (∀ s', step capacity s s' →
      (writer s = Notifying → writer s' ≠ Notifying → ∀ n, reader s' ≠ Asleep n)
      ∧ (reader s = Notifying → reader s' ≠ Notifying → ∀ buf, writer s' ≠ Asleep buf)
      ∧ (closing s' < closing s →
          (∀ n, reader s' ≠ Asleep n) ∧ ∀ buf, writer s' ≠ Asleep buf)).
Proof.
  intros Hc [_ _ _ Hrd Hwr]%pipe_inv_reachable. split_and!.
  - intros n wrap Hn Hp. destruct (Hrd n Hn) as (? & [(? & ? & ?)|?]); [|done].
    by destruct Hp; apply read_blocked.
  - intros buf Hb Hp. destruct (Hwr buf Hb) as (? & [(? & ? & ?)|?]); [|done].
    by destruct Hp; apply write_blocked.
  - intros n Hn Hw Hz. destruct (Hrd n Hn) as (_ & [?|[?|?]]); [done|done|lia].
  - intros buf Hb Hr Hz. destruct (Hwr buf Hb) as (_ & [?|[?|?]]); [done|done|lia].
  - intros n buf Hn Hb. destruct (Hrd n Hn) as (_ & [(E & _)|[?|?]]); [|congruence|done].
    destruct (Hwr buf Hb) as (_ & [(E' & _)|[?|?]]); [|congruence|done].
    rewrite E in E'. simpl in E'. lia.
  - intros s' Hs. destruct Hs; simpl; split_and!; intros; try congruence; try lia;
      try split; intros; first [apply wake_Asleep|by destruct (reader s)|by destruct (writer s)].
Qed.

(** A reader that waits, is woken by a write of three bytes into a pipe of two, and
    reads one. *)
Definition after_read : sys :=
  MkSys (MkState [Byte.x02] true true false) 0 None None Notifying Idle 0
    [Byte.x01; Byte.x02] [Byte.x01].

Definition three : list byte := [Byte.x01; Byte.x02; Byte.x03].
Definition full : State := MkState [Byte.x01; Byte.x02] true true false.

(** The reader asleep with bytes in the pipe, the writer about to notify it. *)
Definition waiting_reader : sys :=
  MkSys full 0 None None (Asleep 1) Notifying 0 [Byte.x01; Byte.x02] [].

Lemma waiting_reader_reachable : rtc (step 2) (start 0) waiting_reader.
Proof.
  set (s1 := MkSys new 0 None None (Awake 1) Idle 0 [] []).
  set (s2 := MkSys new 0 None None (Asleep 1) Idle 0 [] []).
  set (s3 := MkSys new 0 None None (Asleep 1) (Awake three) 0 [] []).
  apply (rtc_l _ _ s1); [exact (step_read 2 (start 0) 1 eq_refl)|].
  apply (rtc_l _ _ s2); [exact (step_read_wait 2 s1 0 1 eq_refl eq_refl)|].
  apply (rtc_l _ _ s3); [exact (step_write 2 s2 three eq_refl)|].
  apply rtc_once. exact (step_write_return 2 s3 three (Ok 2) full true eq_refl eq_refl).
Qed.

Lemma after_read_reachable : rtc (step 2) (start 0) after_read.
Proof.
  etrans; [apply waiting_reader_reachable|].
  set (s2 := MkSys full 0 None None (Awake 1) Idle 0 [Byte.x01; Byte.x02] []).
  apply (rtc_l _ _ s2); [exact (step_write_notify 2 waiting_reader eq_refl)|].
  apply rtc_once.
  exact (step_read_return 2 s2 1 1 (Ok [Byte.x01]) (st after_read) true eq_refl eq_refl).
Qed.

Lemma pipe_is_bounded_fifo_witness :
  length (bytes (st after_read)) ≤ 2
  ∧ delivered after_read `prefix_of` accepted after_read
  ∧ (reader_open (st after_read) = true →
      accepted after_read = delivered after_read ++ bytes (st after_read))
  ∧ (flush (now after_read) (write_deadline after_read) (st after_read) = Ok tt →
      accepted after_read = delivered after_read ++ bytes (st after_read))
  ∧ (∀ wrap n st' b, n ≠ 0 → reader_open (st after_read) = true →
      read_pass wrap n (now after_read) (read_deadline after_read) (st after_read)
      = Return (Ok []) st' b →
      accepted after_read = delivered after_read ∧ writer_open (st after_read) = false).
Proof. apply (pipe_is_bounded_fifo 2 0), after_read_reachable. Defined.

Lemma pipe_no_lost_wakeup_witness :
  (writer waiting_reader = Notifying ∨ 0 < closing waiting_reader)
  ∧ ∀ s', step 2 waiting_reader s' → writer s' ≠ Notifying → ∀ n, reader s' ≠ Asleep n.
Proof.
  destruct (pipe_no_lost_wakeup 2 0 waiting_reader) as (Hr & _ & _ & _ & _ & Hn);
    [lia|apply waiting_reader_reachable|].
  split; [by apply (Hr 1 0)|]. intros s' Hs. by apply (Hn s' Hs).
Defined.
End Pipe.
