(* ===== verification/Message.v ===== *)
(** * Message bodies and protocol errors ([protocol/message.rs], [protocol/error.rs])

    The body variants and the fields of the two envelope directions are the
    schema-derived tables of [generated/message.rs]; the payload structures
    themselves are a parameter. *)

From S2P Require Import Prelude Io.
#[local] Open Scope string_scope.

(** ** Variants and directions *)

(** The variants of [Message]. *)
Inductive Variant :=
  | VCloudSyncFinishRequest
  | VCloudSyncFinishResponse
  | VCloudSyncStartRequest
  | VCloudSyncStartResponse
  | VDatasetPathsRequest
  | VDatasetPathsResponse
  | VDevelop
  | VDeviceInfoRequest
  | VDeviceInfoResponse
  | VExecutionCancelRequest
  | VExecutionCancelResponse
  | VExecutionCreateRequest
  | VExecutionCreateResponse
  | VExecutionLoadRequest
  | VExecutionLoadResponse
  | VExecutionModuleReadRequest
  | VExecutionModuleReadResponse
  | VExecutionModuleSizeRequest
  | VExecutionModuleSizeResponse
  | VExecutionOutputRequest
  | VExecutionOutputResponse
  | VExecutionResultRequest
  | VExecutionResultResponse
  | VExecutionStartRequest
  | VExecutionStartResponse
  | VExecutionStatusRequest
  | VExecutionStatusResponse
  | VFirmwareUpdateInitRequest
  | VFirmwareUpdateInitResponse
  | VFirmwareUpdateInstallRequest
  | VFirmwareUpdateInstallResponse
  | VFirmwareUpdatePrepRequest
  | VFirmwareUpdatePrepResponse
  | VFirmwareUpdateUploadRequest
  | VFirmwareUpdateUploadResponse
  | VFirmwareUpdateVerifyRequest
  | VFirmwareUpdateVerifyResponse
  | VGenuinityProofRequest
  | VGenuinityProofResponse
  | VOnboardingRequest
  | VOnboardingResponse
  | VPairingAcceptanceRequest
  | VPairingAcceptanceResponse
  | VPairingAckArkStorageRequest
  | VPairingAckArkStorageResponse
  | VPairingAuthRequest
  | VPairingAuthResponse
  | VPairingCompletionRequest
  | VPairingCompletionResponse
  | VPairingSetAppIdentityRequest
  | VPairingSetAppIdentityResponse
  | VPairingSetAppStorageRequest
  | VPairingSetAppStorageResponse
  | VRelayInboundRequest
  | VRelayInboundResponse
  | VRelayJoinRequest
  | VRelayJoinResponse
  | VRelayOutboundRequest
  | VRelayOutboundResponse
  | VSlotDeleteRequest
  | VSlotDeleteResponse
  | VSlotIdentifyRequest
  | VSlotIdentifyResponse
  | VSlotListRequest
  | VSlotListResponse
  | VSlotRepairRequest
  | VSlotRepairResponse
  | VSlotUploadCancelRequest
  | VSlotUploadCancelResponse
  | VSlotUploadChunkRequest
  | VSlotUploadChunkResponse
  | VSlotUploadProcessRequest
  | VSlotUploadProcessResponse
  | VSlotUploadStartRequest
  | VSlotUploadStartResponse
  | VUnlockRequest
  | VUnlockResponse.

#[global] Instance Variant_eq_dec : EqDecision Variant.
Proof. solve_decision. Defined.

(** The fields of [host_to_ark::Content] and [ark_to_host::Content], which have
    the same names. *)
Inductive Field :=
  | FOnboard
  | FDeviceInfo
  | FCloudSyncStart
  | FCloudSyncFinish
  | FGenuinityProof
  | FFirmwareUpdatePrep
  | FFirmwareUpdateInit
  | FFirmwareUpdateUpload
  | FFirmwareUpdateVerify
  | FFirmwareUpdateInstall
  | FPairingAuth
  | FPairingSetAppId
  | FPairingSetAppStorage
  | FPairingAckArkStorage
  | FPairingAccept
  | FPairingComplete
  | FRelayJoin
  | FRelayInbound
  | FRelayOutbound
  | FUnlock
  | FExecCreate
  | FExecLoad
  | FExecStart
  | FExecStatus
  | FExecCancel
  | FExecResult
  | FExecOutput
  | FExecModuleSize
  | FExecModuleRead
  | FSlotList
  | FSlotRepair
  | FSlotDelete
  | FSlotIdentify
  | FSlotUploadStart
  | FSlotUploadChunk
  | FSlotUploadCancel
  | FSlotUploadProcess
  | FDatasetPaths
  | FDevelop.

#[global] Instance Field_eq_dec : EqDecision Field.
Proof. solve_decision. Defined.

(** The body of each field, host to Ark. *)
Definition host_variant (f : Field) : Variant :=
  match f with
  | FOnboard => VOnboardingRequest
  | FDeviceInfo => VDeviceInfoRequest
  | FCloudSyncStart => VCloudSyncStartRequest
  | FCloudSyncFinish => VCloudSyncFinishRequest
  | FGenuinityProof => VGenuinityProofRequest
  | FFirmwareUpdatePrep => VFirmwareUpdatePrepRequest
  | FFirmwareUpdateInit => VFirmwareUpdateInitRequest
  | FFirmwareUpdateUpload => VFirmwareUpdateUploadRequest
  | FFirmwareUpdateVerify => VFirmwareUpdateVerifyRequest
  | FFirmwareUpdateInstall => VFirmwareUpdateInstallRequest
  | FPairingAuth => VPairingAuthRequest
  | FPairingSetAppId => VPairingSetAppIdentityRequest
  | FPairingSetAppStorage => VPairingSetAppStorageRequest
  | FPairingAckArkStorage => VPairingAckArkStorageRequest
  | FPairingAccept => VPairingAcceptanceRequest
  | FPairingComplete => VPairingCompletionRequest
  | FRelayJoin => VRelayJoinRequest
  | FRelayInbound => VRelayInboundRequest
  | FRelayOutbound => VRelayOutboundResponse
  | FUnlock => VUnlockRequest
  | FExecCreate => VExecutionCreateRequest
  | FExecLoad => VExecutionLoadRequest
  | FExecStart => VExecutionStartRequest
  | FExecStatus => VExecutionStatusRequest
  | FExecCancel => VExecutionCancelRequest
  | FExecResult => VExecutionResultRequest
  | FExecOutput => VExecutionOutputRequest
  | FExecModuleSize => VExecutionModuleSizeResponse
  | FExecModuleRead => VExecutionModuleReadResponse
  | FSlotList => VSlotListRequest
  | FSlotRepair => VSlotRepairRequest
  | FSlotDelete => VSlotDeleteRequest
  | FSlotIdentify => VSlotIdentifyRequest
  | FSlotUploadStart => VSlotUploadStartRequest
  | FSlotUploadChunk => VSlotUploadChunkRequest
  | FSlotUploadCancel => VSlotUploadCancelRequest
  | FSlotUploadProcess => VSlotUploadProcessRequest
  | FDatasetPaths => VDatasetPathsRequest
  | FDevelop => VDevelop
  end.

(** The body of each field, Ark to host. *)
Definition ark_variant (f : Field) : Variant :=
  match f with
  | FOnboard => VOnboardingResponse
  | FDeviceInfo => VDeviceInfoResponse
  | FCloudSyncStart => VCloudSyncStartResponse
  | FCloudSyncFinish => VCloudSyncFinishResponse
  | FGenuinityProof => VGenuinityProofResponse
  | FFirmwareUpdatePrep => VFirmwareUpdatePrepResponse
  | FFirmwareUpdateInit => VFirmwareUpdateInitResponse
  | FFirmwareUpdateUpload => VFirmwareUpdateUploadResponse
  | FFirmwareUpdateVerify => VFirmwareUpdateVerifyResponse
  | FFirmwareUpdateInstall => VFirmwareUpdateInstallResponse
  | FPairingAuth => VPairingAuthResponse
  | FPairingSetAppId => VPairingSetAppIdentityResponse
  | FPairingSetAppStorage => VPairingSetAppStorageResponse
  | FPairingAckArkStorage => VPairingAckArkStorageResponse
  | FPairingAccept => VPairingAcceptanceResponse
  | FPairingComplete => VPairingCompletionResponse
  | FRelayJoin => VRelayJoinResponse
  | FRelayInbound => VRelayInboundResponse
  | FRelayOutbound => VRelayOutboundRequest
  | FUnlock => VUnlockResponse
  | FExecCreate => VExecutionCreateResponse
  | FExecLoad => VExecutionLoadResponse
  | FExecStart => VExecutionStartResponse
  | FExecStatus => VExecutionStatusResponse
  | FExecCancel => VExecutionCancelResponse
  | FExecResult => VExecutionResultResponse
  | FExecOutput => VExecutionOutputResponse
  | FExecModuleSize => VExecutionModuleSizeRequest
  | FExecModuleRead => VExecutionModuleReadRequest
  | FSlotList => VSlotListResponse
  | FSlotRepair => VSlotRepairResponse
  | FSlotDelete => VSlotDeleteResponse
  | FSlotIdentify => VSlotIdentifyResponse
  | FSlotUploadStart => VSlotUploadStartResponse
  | FSlotUploadChunk => VSlotUploadChunkResponse
  | FSlotUploadCancel => VSlotUploadCancelResponse
  | FSlotUploadProcess => VSlotUploadProcessResponse
  | FDatasetPaths => VDatasetPathsResponse
  | FDevelop => VDevelop
  end.

Definition fields : list Field :=
  [FOnboard; FDeviceInfo; FCloudSyncStart; FCloudSyncFinish; FGenuinityProof;
   FFirmwareUpdatePrep; FFirmwareUpdateInit; FFirmwareUpdateUpload; FFirmwareUpdateVerify; FFirmwareUpdateInstall;
   FPairingAuth; FPairingSetAppId; FPairingSetAppStorage; FPairingAckArkStorage; FPairingAccept;
   FPairingComplete; FRelayJoin; FRelayInbound; FRelayOutbound; FUnlock;
   FExecCreate; FExecLoad; FExecStart; FExecStatus; FExecCancel;
   FExecResult; FExecOutput; FExecModuleSize; FExecModuleRead; FSlotList;
   FSlotRepair; FSlotDelete; FSlotIdentify; FSlotUploadStart; FSlotUploadChunk;
   FSlotUploadCancel; FSlotUploadProcess; FDatasetPaths; FDevelop].

(** [Message::type_name] *)
Definition type_name (v : Variant) : string :=
  match v with
  | VCloudSyncFinishRequest => "CloudSyncFinishRequest"
  | VCloudSyncFinishResponse => "CloudSyncFinishResponse"
  | VCloudSyncStartRequest => "CloudSyncStartRequest"
  | VCloudSyncStartResponse => "CloudSyncStartResponse"
  | VDatasetPathsRequest => "DatasetPathsRequest"
  | VDatasetPathsResponse => "DatasetPathsResponse"
  | VDevelop => "Vec<u8>"
  | VDeviceInfoRequest => "DeviceInfoRequest"
  | VDeviceInfoResponse => "DeviceInfoResponse"
  | VExecutionCancelRequest => "ExecutionCancelRequest"
  | VExecutionCancelResponse => "ExecutionCancelResponse"
  | VExecutionCreateRequest => "ExecutionCreateRequest"
  | VExecutionCreateResponse => "ExecutionCreateResponse"
  | VExecutionLoadRequest => "ExecutionLoadRequest"
  | VExecutionLoadResponse => "ExecutionLoadResponse"
  | VExecutionModuleReadRequest => "ExecutionModuleReadRequest"
  | VExecutionModuleReadResponse => "ExecutionModuleReadResponse"
  | VExecutionModuleSizeRequest => "ExecutionModuleSizeRequest"
  | VExecutionModuleSizeResponse => "ExecutionModuleSizeResponse"
  | VExecutionOutputRequest => "ExecutionOutputRequest"
  | VExecutionOutputResponse => "ExecutionOutputResponse"
  | VExecutionResultRequest => "ExecutionResultRequest"
  | VExecutionResultResponse => "ExecutionResultResponse"
  | VExecutionStartRequest => "ExecutionStartRequest"
  | VExecutionStartResponse => "ExecutionStartResponse"
  | VExecutionStatusRequest => "ExecutionStatusRequest"
  | VExecutionStatusResponse => "ExecutionStatusResponse"
  | VFirmwareUpdateInitRequest => "FirmwareUpdateInitRequest"
  | VFirmwareUpdateInitResponse => "FirmwareUpdateInitResponse"
  | VFirmwareUpdateInstallRequest => "FirmwareUpdateInstallRequest"
  | VFirmwareUpdateInstallResponse => "FirmwareUpdateInstallResponse"
  | VFirmwareUpdatePrepRequest => "FirmwareUpdatePrepRequest"
  | VFirmwareUpdatePrepResponse => "FirmwareUpdatePrepResponse"
  | VFirmwareUpdateUploadRequest => "FirmwareUpdateUploadRequest"
  | VFirmwareUpdateUploadResponse => "FirmwareUpdateUploadResponse"
  | VFirmwareUpdateVerifyRequest => "FirmwareUpdateVerifyRequest"
  | VFirmwareUpdateVerifyResponse => "FirmwareUpdateVerifyResponse"
  | VGenuinityProofRequest => "GenuinityProofRequest"
  | VGenuinityProofResponse => "GenuinityProofResponse"
  | VOnboardingRequest => "OnboardingRequest"
  | VOnboardingResponse => "OnboardingResponse"
  | VPairingAcceptanceRequest => "PairingAcceptanceRequest"
  | VPairingAcceptanceResponse => "PairingAcceptanceResponse"
  | VPairingAckArkStorageRequest => "PairingAckArkStorageRequest"
  | VPairingAckArkStorageResponse => "PairingAckArkStorageResponse"
  | VPairingAuthRequest => "PairingAuthRequest"
  | VPairingAuthResponse => "PairingAuthResponse"
  | VPairingCompletionRequest => "PairingCompletionRequest"
  | VPairingCompletionResponse => "PairingCompletionResponse"
  | VPairingSetAppIdentityRequest => "PairingSetAppIdentityRequest"
  | VPairingSetAppIdentityResponse => "PairingSetAppIdentityResponse"
  | VPairingSetAppStorageRequest => "PairingSetAppStorageRequest"
  | VPairingSetAppStorageResponse => "PairingSetAppStorageResponse"
  | VRelayInboundRequest => "RelayInboundRequest"
  | VRelayInboundResponse => "RelayInboundResponse"
  | VRelayJoinRequest => "RelayJoinRequest"
  | VRelayJoinResponse => "RelayJoinResponse"
  | VRelayOutboundRequest => "RelayOutboundRequest"
  | VRelayOutboundResponse => "RelayOutboundResponse"
  | VSlotDeleteRequest => "SlotDeleteRequest"
  | VSlotDeleteResponse => "SlotDeleteResponse"
  | VSlotIdentifyRequest => "SlotIdentifyRequest"
  | VSlotIdentifyResponse => "SlotIdentifyResponse"
  | VSlotListRequest => "SlotListRequest"
  | VSlotListResponse => "SlotListResponse"
  | VSlotRepairRequest => "SlotRepairRequest"
  | VSlotRepairResponse => "SlotRepairResponse"
  | VSlotUploadCancelRequest => "SlotUploadCancelRequest"
  | VSlotUploadCancelResponse => "SlotUploadCancelResponse"
  | VSlotUploadChunkRequest => "SlotUploadChunkRequest"
  | VSlotUploadChunkResponse => "SlotUploadChunkResponse"
  | VSlotUploadProcessRequest => "SlotUploadProcessRequest"
  | VSlotUploadProcessResponse => "SlotUploadProcessResponse"
  | VSlotUploadStartRequest => "SlotUploadStartRequest"
  | VSlotUploadStartResponse => "SlotUploadStartResponse"
  | VUnlockRequest => "UnlockRequest"
  | VUnlockResponse => "UnlockResponse"
  end.

(** [Message::field_name] *)
Definition field_name (v : Variant) : string :=
  match v with
  | VCloudSyncFinishRequest => "cloud_sync_finish"
  | VCloudSyncFinishResponse => "cloud_sync_finish"
  | VCloudSyncStartRequest => "cloud_sync_start"
  | VCloudSyncStartResponse => "cloud_sync_start"
  | VDatasetPathsRequest => "dataset_paths"
  | VDatasetPathsResponse => "dataset_paths"
  | VDevelop => "develop"
  | VDeviceInfoRequest => "device_info"
  | VDeviceInfoResponse => "device_info"
  | VExecutionCancelRequest => "exec_cancel"
  | VExecutionCancelResponse => "exec_cancel"
  | VExecutionCreateRequest => "exec_create"
  | VExecutionCreateResponse => "exec_create"
  | VExecutionLoadRequest => "exec_load"
  | VExecutionLoadResponse => "exec_load"
  | VExecutionModuleReadRequest => "exec_module_read"
  | VExecutionModuleReadResponse => "exec_module_read"
  | VExecutionModuleSizeRequest => "exec_module_size"
  | VExecutionModuleSizeResponse => "exec_module_size"
  | VExecutionOutputRequest => "exec_output"
  | VExecutionOutputResponse => "exec_output"
  | VExecutionResultRequest => "exec_result"
  | VExecutionResultResponse => "exec_result"
  | VExecutionStartRequest => "exec_start"
  | VExecutionStartResponse => "exec_start"
  | VExecutionStatusRequest => "exec_status"
  | VExecutionStatusResponse => "exec_status"
  | VFirmwareUpdateInitRequest => "firmware_update_init"
  | VFirmwareUpdateInitResponse => "firmware_update_init"
  | VFirmwareUpdateInstallRequest => "firmware_update_install"
  | VFirmwareUpdateInstallResponse => "firmware_update_install"
  | VFirmwareUpdatePrepRequest => "firmware_update_prep"
  | VFirmwareUpdatePrepResponse => "firmware_update_prep"
  | VFirmwareUpdateUploadRequest => "firmware_update_upload"
  | VFirmwareUpdateUploadResponse => "firmware_update_upload"
  | VFirmwareUpdateVerifyRequest => "firmware_update_verify"
  | VFirmwareUpdateVerifyResponse => "firmware_update_verify"
  | VGenuinityProofRequest => "genuinity_proof"
  | VGenuinityProofResponse => "genuinity_proof"
  | VOnboardingRequest => "onboard"
  | VOnboardingResponse => "onboard"
  | VPairingAcceptanceRequest => "pairing_accept"
  | VPairingAcceptanceResponse => "pairing_accept"
  | VPairingAckArkStorageRequest => "pairing_ack_ark_storage"
  | VPairingAckArkStorageResponse => "pairing_ack_ark_storage"
  | VPairingAuthRequest => "pairing_auth"
  | VPairingAuthResponse => "pairing_auth"
  | VPairingCompletionRequest => "pairing_complete"
  | VPairingCompletionResponse => "pairing_complete"
  | VPairingSetAppIdentityRequest => "pairing_set_app_id"
  | VPairingSetAppIdentityResponse => "pairing_set_app_id"
  | VPairingSetAppStorageRequest => "pairing_set_app_storage"
  | VPairingSetAppStorageResponse => "pairing_set_app_storage"
  | VRelayInboundRequest => "relay_inbound"
  | VRelayInboundResponse => "relay_inbound"
  | VRelayJoinRequest => "relay_join"
  | VRelayJoinResponse => "relay_join"
  | VRelayOutboundRequest => "relay_outbound"
  | VRelayOutboundResponse => "relay_outbound"
  | VSlotDeleteRequest => "slot_delete"
  | VSlotDeleteResponse => "slot_delete"
  | VSlotIdentifyRequest => "slot_identify"
  | VSlotIdentifyResponse => "slot_identify"
  | VSlotListRequest => "slot_list"
  | VSlotListResponse => "slot_list"
  | VSlotRepairRequest => "slot_repair"
  | VSlotRepairResponse => "slot_repair"
  | VSlotUploadCancelRequest => "slot_upload_cancel"
  | VSlotUploadCancelResponse => "slot_upload_cancel"
  | VSlotUploadChunkRequest => "slot_upload_chunk"
  | VSlotUploadChunkResponse => "slot_upload_chunk"
  | VSlotUploadProcessRequest => "slot_upload_process"
  | VSlotUploadProcessResponse => "slot_upload_process"
  | VSlotUploadStartRequest => "slot_upload_start"
  | VSlotUploadStartResponse => "slot_upload_start"
  | VUnlockRequest => "unlock"
  | VUnlockResponse => "unlock"
  end.

(** The two envelope directions. *)
Inductive Direction := HostToArk | ArkToHost.

#[global] Instance Direction_eq_dec : EqDecision Direction.
Proof. solve_decision. Defined.

Definition body_of_field (d : Direction) (f : Field) : Variant :=
  match d with HostToArk => host_variant f | ArkToHost => ark_variant f end.

(** ** Errors *)

(** [schema::Error] *)
Record SchemaError := MkSchemaError { code : Z; msg : string }.

#[global] Instance SchemaError_eq_dec : EqDecision SchemaError.
Proof. solve_decision. Defined.

(** The values its fields can hold: a [u64] and a [String]. *)
Definition error_ok (e : SchemaError) : bool :=
  in_range 0 u64_max (code e) && utf8_string (msg e).

(** [schema::ReservedErrors], the ones the session itself sends. *)
Definition UNANSWERED : Z := 1.
Definition UNKNOWN : Z := 2.

Module Protocol.
(** [protocol::Error] *)
Inductive Error :=
  | Closed
  | Timeout
  | Transport (e : Io.Error)
  | Remote (e : SchemaError)
  | UnexpectedResponse (expected received : string)
  | WrongDirection (name : string)
  | TooLarge (size : Z)
  | Malformed
  | InboundRequestLimitExceeded (limit : Z)
  | InboundByteLimitExceeded (limit : Z).

#[global] Instance Error_eq_dec : EqDecision Error.
Proof. solve_decision. Defined.

(** [Error::orderly] *)
Definition orderly (e : Error) : bool :=
  match e with
  | Closed => true
  | Transport SessionReset | Transport Terminated => true
  | _ => false
  end.
End Protocol.

(** ** Messages and their conversions *)

Section messages.
Context (Payload : Variant → Type).

(** [Message] *)
Record Message := MkMessage { variant : Variant; payload : Payload variant }.

(** [host_to_ark::Content] and [ark_to_host::Content] *)
Record Content (d : Direction) :=
  MkContent { field : Field; body : Payload (body_of_field d field) }.
Arguments MkContent {d} field body.
Arguments field {d} c.
Arguments body {d} c.

(** [impl From<$payload> for Message] *)
Definition from_payload (v : Variant) (p : Payload v) : Message := MkMessage v p.

(** [impl TryFrom<Message> for $payload] *)
Definition try_payload (v : Variant) (m : Message) : result (Payload v) Protocol.Error :=
  match decide (variant m = v) with
  | left E => Ok (eq_rect _ Payload (payload m) _ E)
  | right _ => Err (Protocol.UnexpectedResponse (type_name v) (type_name (variant m)))
  end.

(** [impl From<$module::Content> for Message] *)
Definition from_content {d} (c : Content d) : Message :=
  MkMessage (body_of_field d (field c)) (body c).

(** The arms of [TryFrom<Message> for $module::Content], tried in order. *)
Fixpoint try_fields (d : Direction) (fs : list Field) (m : Message) :
  result (Content d) Protocol.Error :=
  match fs with
  | [] => Err (Protocol.WrongDirection (type_name (variant m)))
  | f :: fs =>
      match decide (variant m = body_of_field d f) with
      | left E => Ok (MkContent f (eq_rect _ Payload (payload m) _ E))
      | right _ => try_fields d fs m
      end
  end.

(** [impl TryFrom<Message> for $module::Content] *)
Definition try_content (d : Direction) (m : Message) : result (Content d) Protocol.Error :=
  try_fields d fields m.
End messages.
Arguments MkMessage {Payload} variant payload.
Arguments variant {Payload} m.
Arguments payload {Payload} m.
Arguments MkContent {Payload d} field body.
Arguments field {Payload d} c.
Arguments body {Payload d} c.
Arguments from_payload {Payload v} p.
Arguments try_payload {Payload} v m.
Arguments from_content {Payload d} c.
Arguments try_fields {Payload} d fs m.
Arguments try_content {Payload} d m.

(** ** Lemmas *)

Lemma fields_all f : f ∈ fields.
Proof. destruct f; vm_compute; repeat (constructor || (apply list_elem_of_further)). Qed.

(** Each body belongs to one field of a direction. *)
Lemma body_of_field_inj d f g : body_of_field d f = body_of_field d g → f = g.
Proof. destruct d, f, g; done. Qed.

(** The direction test, by table. *)
Definition travels (d : Direction) (v : Variant) : bool :=
  existsb (λ f, bool_decide (body_of_field d f = v)) fields.

Section conversions.
Context {Payload : Variant → Type}.
Implicit Types m : Message Payload.

Lemma try_fields_Ok d fs m c :
  try_fields d fs m = Ok c → from_content c = m ∧ field c ∈ fs.
Proof.
  induction fs as [|f fs IH]; simpl; [done|]. destruct (decide _) as [E|].
  - intros [= <-]. destruct m as [v p]. simpl in *. subst v. simpl.
    split; [done|apply list_elem_of_here].
  - intros [? ?]%IH. split; [done|by apply list_elem_of_further].
Qed.

Lemma try_fields_from d fs (c : Content Payload d) :
  field c ∈ fs → try_fields d fs (from_content c) = Ok c.
Proof.
  destruct c as [f p]. simpl. induction fs as [|g fs IH]; simpl; [by intros ?%elem_of_nil|].
  intros Hin. destruct (decide _) as [E|Hne].
  - pose proof (body_of_field_inj _ _ _ E) as <-. simpl.
    by rewrite (Eqdep_dec.UIP_dec Variant_eq_dec E eq_refl).
  - apply IH. apply elem_of_cons in Hin as [->|]; done.
Qed.

Lemma try_fields_Err d fs m e :
  try_fields d fs m = Err e →
  e = Protocol.WrongDirection (type_name (variant m))
  ∧ Forall (λ f, body_of_field d f ≠ variant m) fs.
Proof.
  induction fs as [|f fs IH]; simpl; [by intros [= <-]|].
  destruct (decide _); [done|]. intros [? ?]%IH. split; [done|]. by constructor.
Qed.
End conversions.

(** ** What the conversions guarantee *)

(** Converting a body into a direction's content and back is exact: it
    succeeds with the one content that stands for the body, precisely where the
    schema lets the body travel in that direction, and is refused with
    [WrongDirection] otherwise; extracting a payload succeeds precisely for its
    own variant. *)
Theorem conversions_exact {Payload : Variant → Type} (d : Direction) (m : Message Payload) :
  (∀ c, try_content d m = Ok c ↔ from_content c = m)
  ∧ is_ok (try_content d m) = travels d (variant m)
  ∧ (travels d (variant m) = false →
      try_content d m = Err (Protocol.WrongDirection (type_name (variant m))))
  ∧ (∀ v p, try_payload v m = Ok p ↔ m = from_payload p).
Proof.
  assert (∀ c, try_content d m = Ok c ↔ from_content c = m) as Hc.
  { intros c. split; [by intros [? _]%try_fields_Ok|].
    intros <-. apply try_fields_from, fields_all. }
  assert (is_ok (try_content d m) = travels d (variant m)) as Ht.
  { unfold travels. destruct (try_content d m) as [c|e] eqn:E; cbn [is_ok]; symmetry.
    - apply try_fields_Ok in E as [<- _]. apply existsb_exists. exists (field c).
      split; [apply list_elem_of_In, fields_all|by apply bool_decide_eq_true].
    - apply try_fields_Err in E as [_ HF]. apply not_true_iff_false.
      intros (f & Hf & Hv)%existsb_exists. apply bool_decide_eq_true in Hv.
      rewrite Forall_forall in HF. by apply (HF f), Hv; apply list_elem_of_In. }
  split_and!; [done|done| |].
  - rewrite <-Ht. destruct (try_content d m) as [c|e] eqn:E; [done|]. intros _.
    by apply try_fields_Err in E as [-> _].
  - intros v p. unfold try_payload. destruct m as [w q]; simpl.
    destruct (decide (w = v)) as [<-|Hne]; simpl; [split; [by intros [= ->]|]|].
    + unfold from_payload. intros [= E].
      by apply (Eqdep_dec.inj_pair2_eq_dec _ Variant_eq_dec) in E as ->.
    + split; [done|]. unfold from_payload. by intros [= ? _].
Qed.

(** Every body travels in at least one direction and only [Develop] in both,
    a direction's field names are distinct, and the two directions agree on the
    name of each field, so a log line's name identifies the field. *)
Theorem schema_directions :
  (∀ v, travels HostToArk v || travels ArkToHost v = true)
  ∧ (∀ v, travels HostToArk v && travels ArkToHost v = true ↔ v = VDevelop)
  ∧ (∀ d f g, field_name (body_of_field d f) = field_name (body_of_field d g) ↔ f = g)
  ∧ (∀ f, field_name (host_variant f) = field_name (ark_variant f)).
Proof.
  split_and!.
  - by intros []; vm_compute.
  - intros v. by destruct v; vm_compute; split.
  - intros d f g. split; [|by intros ->].
    destruct d, f, g; (reflexivity || (vm_compute; discriminate)).
  - by intros [].
Qed.
