(* ===== verification/Protobuf.v ===== *)
(** * The protobuf wire format

    The encoding that the schema's attributes ([protocol/generated/]) stand for,
    after the format's documentation: base-128 integers, keys, field values, and
    the kinds a schema field can have. The schema is a combination of kinds
    ([Schema]), so that its round trip is proved once for each kind and
    combinator. The [prost] crate remains a parameter ([Envelope.Prost]); this is
    the instance of it that the documentation describes. *)

From Stdlib Require Import Strings.Byte.
From S2P Require Import Prelude.
#[local] Open Scope Z_scope.

(** ** Integers in base 128 *)

Definition value_byte (v : Z) : byte := default Byte.x00 (Byte.of_N (Z.to_N v)).

(** Seven bits a byte, low ones first, the top bit set on all but the last. *)
Fixpoint put_varint (n : nat) (v : Z) : list byte :=
  match n with
  | O => []
  | S n =>
      if decide (v < 128) then [value_byte v]
      else value_byte (128 + v mod 128) :: put_varint n (v / 128)
  end.

Fixpoint get_varint (n : nat) (bs : list byte) : option (Z * list byte) :=
  match n, bs with
  | S n, b :: bs =>
      if decide (byte_value b < 128) then Some (byte_value b, bs)
      else
        match get_varint n bs with
        | Some (v, rest) => Some (byte_value b - 128 + 128 * v, rest)
        | None => None
        end
  | _, _ => None
  end.

(** A [u64] takes at most ten bytes. *)
Definition encode_varint (v : Z) : list byte := put_varint 10 v.

Definition decode_varint (bs : list byte) : option (Z * list byte) :=
  match get_varint 10 bs with
  | Some (v, rest) => if decide (v ≤ u64_max) then Some (v, rest) else None
  | None => None
  end.

(** ** Keys and values *)

(** [prost::encoding::WireType] *)
Inductive WireType :=
  | Varint | SixtyFourBit | LengthDelimited | StartGroup | EndGroup | ThirtyTwoBit.

#[global] Instance WireType_eq_dec : EqDecision WireType.
Proof. solve_decision. Defined.

Definition wire_number (w : WireType) : Z :=
  match w with
  | Varint => 0 | SixtyFourBit => 1 | LengthDelimited => 2
  | StartGroup => 3 | EndGroup => 4 | ThirtyTwoBit => 5
  end.

Definition wire_type (n : Z) : option WireType :=
  match n with
  | 0 => Some Varint | 1 => Some SixtyFourBit | 2 => Some LengthDelimited
  | 3 => Some StartGroup | 4 => Some EndGroup | 5 => Some ThirtyTwoBit
  | _ => None
  end.

Definition max_tag : Z := 2 ^ 29 - 1.

Definition encode_key (tag : Z) (w : WireType) : list byte :=
  encode_varint (tag * 8 + wire_number w).

Definition decode_key (bs : list byte) : option (Z * WireType * list byte) :=
  match decode_varint bs with
  | Some (key, rest) =>
      if decide (key < 2 ^ 32 ∧ 1 ≤ key / 8) then
        match wire_type (key mod 8) with
        | Some w => Some (key / 8, w, rest)
        | None => None
        end
      else None
  | None => None
  end.

(** The first [n] bytes, where there are as many. *)
Definition split_bytes (n : Z) (bs : list byte) : option (list byte * list byte) :=
  if decide (n ≤ Z.of_nat (length bs)) then Some (take (Z.to_nat n) bs, drop (Z.to_nat n) bs)
  else None.

(** A value other than a group. *)
Definition skip_scalar (w : WireType) (bs : list byte) : option (list byte) :=
  match w with
  | Varint => snd <$> decode_varint bs
  | SixtyFourBit => snd <$> split_bytes 8 bs
  | ThirtyTwoBit => snd <$> split_bytes 4 bs
  | LengthDelimited =>
      match decode_varint bs with
      | Some (n, rest) => snd <$> split_bytes n rest
      | None => None
      end
  | StartGroup | EndGroup => None
  end.

(** The rest of the groups [open], innermost first. *)
Fixpoint skip_groups (fuel : nat) (open : list Z) (bs : list byte) : option (list byte) :=
  match open, fuel with
  | [], _ => Some bs
  | _, O => None
  | tag :: outer, S fuel =>
      match decode_key bs with
      | Some (t, StartGroup, rest) => skip_groups fuel (t :: open) rest
      | Some (t, EndGroup, rest) =>
          if decide (t = tag) then skip_groups fuel outer rest else None
      | Some (_, w, rest) =>
          match skip_scalar w rest with
          | Some rest => skip_groups fuel open rest
          | None => None
          end
      | None => None
      end
  end.

Definition skip_field (w : WireType) (tag : Z) (bs : list byte) : option (list byte) :=
  match w with
  | StartGroup => skip_groups (length bs) [tag] bs
  | _ => skip_scalar w bs
  end.

(** The value of a field: an integer, bytes, or one of the types the schema does
    not use. *)
Inductive Raw :=
  | RVarint (v : Z)
  | RBytes (bs : list byte)
  | ROther (w : WireType).

Abbreviation Fields := (list (Z * Raw)) (only parsing).

Definition put_field (f : Z * Raw) : list byte :=
  match f.2 with
  | RVarint v => encode_key f.1 Varint ++ encode_varint v
  | RBytes bs =>
      encode_key f.1 LengthDelimited ++ encode_varint (Z.of_nat (length bs)) ++ bs
  | ROther _ => []
  end.

Definition get_field (bs : list byte) : option (Z * Raw * list byte) :=
  match decode_key bs with
  | Some (tag, Varint, rest) =>
      match decode_varint rest with
      | Some (v, rest) => Some (tag, RVarint v, rest)
      | None => None
      end
  | Some (tag, LengthDelimited, rest) =>
      match decode_varint rest with
      | Some (n, rest) =>
          match split_bytes n rest with
          | Some (v, rest) => Some (tag, RBytes v, rest)
          | None => None
          end
      | None => None
      end
  | Some (tag, w, rest) =>
      match skip_field w tag rest with
      | Some rest => Some (tag, ROther w, rest)
      | None => None
      end
  | None => None
  end.

Definition serialise (fs : Fields) : list byte := concat (put_field <$> fs).

Fixpoint parse_from (fuel : nat) (bs : list byte) : option Fields :=
  match bs, fuel with
  | [], _ => Some []
  | _, O => None
  | _, S fuel =>
      match get_field bs with
      | Some (tag, raw, rest) =>
          match parse_from fuel rest with
          | Some fs => Some ((tag, raw) :: fs)
          | None => None
          end
      | None => None
      end
  end.

(** Every field takes a byte at least. *)
Definition parse (bs : list byte) : option Fields := parse_from (length bs) bs.

(** *** Lemmas of the wire level *)

Lemma byte_value_byte v : 0 ≤ v < 256 → byte_value (value_byte v) = v.
Proof.
  intros Hv. unfold byte_value, value_byte. destruct (Byte.of_N _) as [b|] eqn:E; simpl.
  - apply Byte.to_of_N in E. lia.
  - apply Byte.of_N_None_iff in E. lia.
Qed.

Lemma get_put_varint n v rest :
  (0 < n)%nat → 0 ≤ v < 128 ^ Z.of_nat n →
  get_varint n (put_varint n v ++ rest) = Some (v, rest).
Proof.
  revert v. induction n as [|n IH]; intros v Hn Hv; [lia|].
  rewrite Nat2Z.inj_succ, Z.pow_succ_r in Hv by lia. simpl. case_decide as Hd; simpl.
  - rewrite byte_value_byte by lia. by rewrite decide_True.
  - pose proof (Z.mod_pos_bound v 128 ltac:(lia)). rewrite byte_value_byte by lia.
    rewrite decide_False by lia. rewrite IH.
    + f_equal. f_equal. pose proof (Z.div_mod v 128). lia.
    + destruct n; [simpl in Hv; lia|lia].
    + split; [apply Z.div_pos; lia|]. apply Z.div_lt_upper_bound; lia.
Qed.

Lemma get_varint_consumes n bs v rest :
  get_varint n bs = Some (v, rest) → 0 ≤ v ∧ (length rest < length bs)%nat.
Proof.
  revert bs v. induction n as [|n IH]; intros [|b bs] v; simpl; try done.
  pose proof (byte_value_range b). case_decide; [intros [= <- <-]; lia|].
  destruct (get_varint n bs) as [[v' rest']|] eqn:E; [|done]. intros [= <- <-].
  apply IH in E. lia.
Qed.

Lemma decode_encode_varint v rest :
  0 ≤ v ≤ u64_max → decode_varint (encode_varint v ++ rest) = Some (v, rest).
Proof.
  unfold u64_max, decode_varint, encode_varint. intros Hv.
  rewrite get_put_varint by (simpl; lia || lia). by rewrite decide_True by (unfold u64_max; lia).
Qed.

Lemma decode_varint_consumes bs v rest :
  decode_varint bs = Some (v, rest) → 0 ≤ v ∧ (length rest < length bs)%nat.
Proof.
  unfold decode_varint. destruct (get_varint 10 bs) as [[v' rest']|] eqn:E; [|done].
  case_decide; [|done]. intros [= <- <-]. by eapply get_varint_consumes.
Qed.

Lemma wire_type_number w : wire_type (wire_number w) = Some w.
Proof. by destruct w. Qed.

Lemma decode_encode_key tag w rest :
  1 ≤ tag ≤ max_tag → decode_key (encode_key tag w ++ rest) = Some (tag, w, rest).
Proof.
  unfold max_tag, decode_key, encode_key. intros Ht.
  assert (0 ≤ wire_number w < 8) by (by destruct w).
  assert ((tag * 8 + wire_number w) / 8 = tag) as Hd
    by (rewrite Z.div_add_l by lia; rewrite Z.div_small by lia; lia).
  rewrite decode_encode_varint by (unfold u64_max; lia).
  rewrite Hd, decide_True by lia.
  rewrite Z.add_comm, Z_mod_plus_full, Z.mod_small by lia. by rewrite wire_type_number.
Qed.

Lemma decode_key_consumes bs tag w rest :
  decode_key bs = Some (tag, w, rest) → 1 ≤ tag ∧ (length rest < length bs)%nat.
Proof.
  unfold decode_key. destruct (decode_varint bs) as [[key rest']|] eqn:E; [|done].
  case_decide; [|done]. destruct (wire_type _); [|done]. intros [= <- <- <-].
  apply decode_varint_consumes in E. lia.
Qed.

Lemma split_bytes_consumes n bs v rest :
  split_bytes n bs = Some (v, rest) → (length rest ≤ length bs)%nat.
Proof. unfold split_bytes. case_decide; [|done]. intros [= _ <-]. rewrite length_drop. lia. Qed.

Lemma split_bytes_app bs rest :
  split_bytes (Z.of_nat (length bs)) (bs ++ rest) = Some (bs, rest).
Proof.
  unfold split_bytes. rewrite decide_True by (rewrite length_app; lia).
  by rewrite Nat2Z.id, take_app_length, drop_app_length.
Qed.

Lemma skip_scalar_consumes w bs rest :
  skip_scalar w bs = Some rest → (length rest ≤ length bs)%nat.
Proof.
  destruct w; simpl; try done.
  - destruct (decode_varint bs) as [[v r]|] eqn:E; [|done]. intros [= <-].
    apply decode_varint_consumes in E. simpl. lia.
  - destruct (split_bytes _ _) as [[v r]|] eqn:E; [|done]. intros [= <-].
    by apply split_bytes_consumes in E.
  - destruct (decode_varint bs) as [[v r]|] eqn:E; [|done].
    destruct (split_bytes _ _) as [[v' r']|] eqn:E'; [|done]. intros [= <-].
    apply decode_varint_consumes in E. apply split_bytes_consumes in E'. simpl. lia.
  - destruct (split_bytes _ _) as [[v r]|] eqn:E; [|done]. intros [= <-].
    by apply split_bytes_consumes in E.
Qed.

Lemma skip_groups_consumes fuel open bs rest :
  skip_groups fuel open bs = Some rest → (length rest ≤ length bs)%nat.
Proof.
  revert open bs. induction fuel as [|fuel IH]; intros [|t open] bs; simpl;
    try done; try (intros [= <-]; lia).
  destruct (decode_key bs) as [[[t' w] rest']|] eqn:Ek; [|done].
  apply decode_key_consumes in Ek as [_ Hk].
  destruct w; try (intros ?%IH; lia);
    try (destruct (skip_scalar _ rest') as [r|] eqn:Es; [|done];
         apply skip_scalar_consumes in Es; intros ?%IH; lia).
  case_decide; [|done]. intros ?%IH. lia.
Qed.

Lemma skip_field_consumes w tag bs rest :
  skip_field w tag bs = Some rest → (length rest ≤ length bs)%nat.
Proof.
  unfold skip_field. destruct w; first [apply skip_groups_consumes|apply skip_scalar_consumes].
Qed.

Lemma skip_scalar_field w tag bs : w ≠ StartGroup → skip_field w tag bs = skip_scalar w bs.
Proof. by destruct w. Qed.

Lemma get_field_skips bs tag raw rest :
  get_field bs = Some (tag, raw, rest) →
  ∃ w rest', decode_key bs = Some (tag, w, rest') ∧ skip_field w tag rest' = Some rest.
Proof.
  unfold get_field. destruct (decode_key bs) as [[[t w] r]|]; [|done].
  destruct w; try (match goal with |- context [skip_field ?w t r] =>
      destruct (skip_field w t r) as [r'|] eqn:E; [|done]; intros [= <- <- <-];
      eexists _, _; split; [reflexivity|exact E] end).
  - destruct (decode_varint r) as [[v r']|] eqn:E; [|done]. intros [= <- <- <-].
    eexists _, _. split; [done|]. simpl. by rewrite E.
  - destruct (decode_varint r) as [[n r']|] eqn:E; [|done].
    destruct (split_bytes n r') as [[v r'']|] eqn:E'; [|done]. intros [= <- <- <-].
    eexists _, _. split; [done|]. simpl. by rewrite E, E'.
Qed.

Lemma get_field_consumes bs tag raw rest :
  get_field bs = Some (tag, raw, rest) → (length rest < length bs)%nat.
Proof.
  intros (w & r & Hk & Hs)%get_field_skips.
  apply decode_key_consumes in Hk as [_ ?]. apply skip_field_consumes in Hs. lia.
Qed.

(** What a value takes to be written and read back. *)
Definition raw_ok (f : Z * Raw) : Prop :=
  1 ≤ f.1 ≤ max_tag
  ∧ match f.2 with
    | RVarint v => 0 ≤ v ≤ u64_max
    | RBytes bs => Z.of_nat (length bs) ≤ u64_max
    | ROther _ => False
    end.

Lemma get_put_field f rest :
  raw_ok f → get_field (put_field f ++ rest) = Some (f.1, f.2, rest).
Proof.
  destruct f as [tag [v|bs|w]]; unfold raw_ok, get_field, put_field; simpl; intros [Ht Hv].
  - by rewrite <-app_assoc, decode_encode_key, decode_encode_varint.
  - rewrite <-!app_assoc, decode_encode_key, decode_encode_varint by lia.
    by rewrite split_bytes_app.
  - done.
Qed.

Lemma parse_from_serialise fs fuel :
  Forall raw_ok fs → (length (serialise fs) ≤ fuel)%nat →
  parse_from fuel (serialise fs) = Some fs.
Proof.
  intros Hok. revert fuel.
  induction Hok as [|[tag raw] fs Hf _ IH]; intros fuel Hl; [by destruct fuel|].
  pose proof (get_put_field _ (serialise fs) Hf) as Hg.
  pose proof (get_field_consumes _ _ _ _ Hg).
  change (serialise ((tag, raw) :: fs)) with (put_field (tag, raw) ++ serialise fs) in *.
  destruct (put_field (tag, raw) ++ serialise fs) as [|b bs] eqn:E; [simpl in *; lia|].
  destruct fuel as [|fuel]; [simpl in *; lia|]. cbn [parse_from fst snd length] in *. rewrite Hg, IH by lia. done.
Qed.

Lemma parse_serialise fs : Forall raw_ok fs → parse (serialise fs) = Some fs.
Proof. intros. by apply parse_from_serialise. Qed.

Lemma serialise_app fs gs : serialise (fs ++ gs) = serialise fs ++ serialise gs.
Proof. unfold serialise. by rewrite fmap_app, concat_app. Qed.

(** Encodings no longer than a buffer can be. *)
Definition fits (bs : list byte) : Prop := Z.of_nat (length bs) ≤ u64_max.

Lemma fits_app bs cs : fits (bs ++ cs) → fits bs ∧ fits cs.
Proof. unfold fits. rewrite length_app. lia. Qed.

Lemma fits_bytes tag bs fs : fits (serialise ((tag, RBytes bs) :: fs)) → fits bs.
Proof.
  change ((tag, RBytes bs) :: fs) with ([(tag, RBytes bs)] ++ fs). rewrite serialise_app.
  intros [Hf _]%fits_app. revert Hf. unfold serialise, fits.
  cbn -[encode_key encode_varint length Z.of_nat app]. rewrite app_nil_r, !length_app. lia.
Qed.

(** ** Values of a field *)

(** How one value of a field is written and read. *)
Record Elem (A : Type) := MkElem {
  e_ok : A → bool;
  e_raw : A → Raw;
  e_of : Raw → option A;
}.
Arguments MkElem {A} e_ok e_raw e_of.
Arguments e_ok {A} e a.
Arguments e_raw {A} e a.
Arguments e_of {A} e r.

(** Readers of the two wire types the schema uses; any other is an error. *)
Definition of_varint {A} (f : Z → A) (r : Raw) : option A :=
  match r with RVarint v => Some (f v) | _ => None end.

Definition of_bytes {A} (f : list byte → option A) (r : Raw) : option A :=
  match r with RBytes bs => f bs | _ => None end.

Definition u32_max : Z := 2 ^ 32 - 1.

(** An [i32] from the low half of an integer. *)
Definition as_i32 (v : Z) : Z :=
  let w := v mod 2 ^ 32 in if decide (w < 2 ^ 31) then w else w - 2 ^ 32.

Definition i32_ok (v : Z) : bool := in_range (- 2 ^ 31) (2 ^ 31 - 1) v.

Definition uint64 : Elem Z := MkElem (in_range 0 u64_max) RVarint (of_varint id).
Definition uint32 : Elem Z := MkElem (in_range 0 u32_max) RVarint (of_varint (λ v, v mod 2 ^ 32)).
Definition boolean : Elem bool :=
  MkElem (λ _, true) (λ b, RVarint (Z.b2z b)) (of_varint (λ v, negb (v =? 0))).

(** Enumerations are open: any [i32] is kept, sign-extended on the wire. *)
Definition enumeration : Elem Z :=
  MkElem i32_ok (λ v, RVarint (v mod 2 ^ 64)) (of_varint as_i32).

Definition blob : Elem (list byte) := MkElem (λ _, true) RBytes (of_bytes Some).

Definition text : Elem string :=
  MkElem utf8_string (λ s, RBytes (String.list_byte_of_string s))
    (of_bytes (λ bs, if utf8 bs then Some (String.string_of_list_byte bs) else None)).

(** ** Fields *)

(** A field, or a group of fields, of a message: its tags, the value when absent,
    the values that can be written, writing, and reading one occurrence into what
    was read before. *)
Record Kind (A : Type) := MkKind {
  k_tags : list Z;
  k_default : A;
  k_ok : A → bool;
  k_put : A → Fields;
  k_merge : Z → Raw → A → option A;
}.
Arguments MkKind {A} k_tags k_default k_ok k_put k_merge.
Arguments k_tags {A} k.
Arguments k_default {A} k.
Arguments k_ok {A} k a.
Arguments k_put {A} k a.
Arguments k_merge {A} k tag raw a.

(** Unknown fields are skipped. *)
Definition merge_field {A} (k : Kind A) (f : Z * Raw) (a : A) : option A :=
  if decide (f.1 ∈ k_tags k) then k_merge k f.1 f.2 a else Some a.

Fixpoint merge_all {A} (k : Kind A) (fs : Fields) (a : A) : option A :=
  match fs with
  | [] => Some a
  | f :: fs =>
      match merge_field k f a with Some a => merge_all k fs a | None => None end
  end.

(** [prost::Message::encode_to_vec], [merge] and [decode]. *)
Definition encode {A} (k : Kind A) (a : A) : list byte := serialise (k_put k a).

Definition merge {A} (k : Kind A) (bs : list byte) (a : A) : option A :=
  match parse bs with Some fs => merge_all k fs a | None => None end.

Definition decode {A} (k : Kind A) (bs : list byte) : option A := merge k bs (k_default k).

(** A nested message as a value. *)
Definition nested {A} (k : Kind A) : Elem A :=
  MkElem (k_ok k) (λ a, RBytes (encode k a)) (of_bytes (decode k)).

(** A singular field, absent when it has its default value. *)
Definition singular {A} `{EqDecision A} (tag : Z) (d : A) (e : Elem A) : Kind A :=
  MkKind [tag] d (e_ok e)
    (λ a, if decide (a = d) then [] else [(tag, e_raw e a)])
    (λ _ r _, e_of e r).

(** A message field: occurrences merge. *)
Definition message {A} (tag : Z) (k : Kind A) : Kind (option A) :=
  MkKind [tag] None
    (λ a, match a with Some a => k_ok k a | None => true end)
    (λ a, match a with Some a => [(tag, RBytes (encode k a))] | None => [] end)
    (λ _ r a, Some <$> of_bytes (λ bs, merge k bs (default (k_default k) a)) r).

(** An optional scalar. *)
Definition optional {A} (tag : Z) (e : Elem A) : Kind (option A) :=
  MkKind [tag] None
    (λ a, match a with Some a => e_ok e a | None => true end)
    (λ a, match a with Some a => [(tag, e_raw e a)] | None => [] end)
    (λ _ r _, Some <$> e_of e r).

(** A repeated field: occurrences are appended. *)
Definition repeated {A} (tag : Z) (e : Elem A) : Kind (list A) :=
  MkKind [tag] [] (forallb (e_ok e))
    (λ l, (λ a, (tag, e_raw e a)) <$> l)
    (λ _ r l, (λ a, l ++ [a]) <$> e_of e r).

Definition pack (l : list Z) : list byte := concat ((λ v, encode_varint (v mod 2 ^ 64)) <$> l).

Fixpoint unpack (fuel : nat) (bs : list byte) : option (list Z) :=
  match bs, fuel with
  | [], _ => Some []
  | _, O => None
  | _, S fuel =>
      match decode_varint bs with
      | Some (v, rest) => cons (as_i32 v) <$> unpack fuel rest
      | None => None
      end
  end.

(** A repeated enumeration: written packed, read in either form. *)
Definition packed (tag : Z) : Kind (list Z) :=
  MkKind [tag] [] (forallb i32_ok)
    (λ l, if decide (l = []) then [] else [(tag, RBytes (pack l))])
    (λ _ r l,
      app l <$> match r with
                | RVarint v => Some [as_i32 v]
                | RBytes bs => unpack (length bs) bs
                | ROther _ => None
                end).

(** Fields side by side. *)
Definition no_fields : Kind unit :=
  MkKind [] tt (λ _, true) (λ _, []) (λ _ _ _, Some tt).

Definition both {A B} (k : Kind A) (l : Kind B) : Kind (A * B) :=
  MkKind (k_tags k ++ k_tags l) (k_default k, k_default l)
    (λ p, k_ok k p.1 && k_ok l p.2)
    (λ p, k_put k p.1 ++ k_put l p.2)
    (λ tag r p,
      if decide (tag ∈ k_tags k) then (λ a, (a, p.2)) <$> k_merge k tag r p.1
      else (λ b, (p.1, b)) <$> k_merge l tag r p.2).

(** A structure, from the tuple of its fields. *)
Definition structure {A T} (to : T → A) (from : A → T) (k : Kind A) : Kind T :=
  MkKind (k_tags k) (from (k_default k)) (λ m, k_ok k (to m)) (λ m, k_put k (to m))
    (λ tag r m, from <$> k_merge k tag r (to m)).

Declare Scope layout_scope.
Delimit Scope layout_scope with layout.
Bind Scope layout_scope with Kind.
Infix "&" := both (at level 60, right associativity) : layout_scope.

(** ** Laws *)

Definition value_ok (r : Raw) : Prop :=
  match r with
  | RVarint v => 0 ≤ v ≤ u64_max
  | RBytes bs => fits bs
  | ROther _ => False
  end.

Definition fits_raw (r : Raw) : Prop := match r with RBytes bs => fits bs | _ => True end.

(** A value that can be written is read back. *)
Class ElemLaws {A} (e : Elem A) : Prop :=
  elem_reads a : e_ok e a = true → fits_raw (e_raw e a) →
    value_ok (e_raw e a) ∧ e_of e (e_raw e a) = Some a.

(** A kind writes its own tags, writes fields that can be read, and reads them back
    from the default value. *)
Class KindLaws {A} (k : Kind A) : Prop := {
  put_tags a : Forall (λ f, f.1 ∈ k_tags k) (k_put k a);
  put_raw a : k_ok k a = true → fits (encode k a) → Forall raw_ok (k_put k a);
  put_merge a : k_ok k a = true → fits (encode k a) →
    merge_all k (k_put k a) (k_default k) = Some a;
}.

Definition valid_tag (tag : Z) : bool := in_range 1 max_tag tag.

Definition disjoint_tags {A B} (k : Kind A) (l : Kind B) : bool :=
  forallb (λ t, negb (bool_decide (t ∈ k_tags l))) (k_tags k).

Lemma as_i32_wrap v : i32_ok v = true → as_i32 (v mod 2 ^ 64) = v.
Proof.
  intros Hv%in_range_true. unfold as_i32. cbv zeta. case_decide; Z.div_mod_to_equations; lia.
Qed.

Lemma wrap_u64 v : 0 ≤ v mod 2 ^ 64 ≤ u64_max.
Proof. unfold u64_max. pose proof (Z.mod_pos_bound v (2 ^ 64)). lia. Qed.

#[export] Instance uint64_laws : ElemLaws uint64.
Proof. intros v Hv%in_range_true _. done. Qed.

#[export] Instance uint32_laws : ElemLaws uint32.
Proof.
  intros v Hv%in_range_true _. unfold u32_max in Hv. simpl.
  rewrite Z.mod_small by lia. split; [unfold u64_max; lia|done].
Qed.

#[export] Instance boolean_laws : ElemLaws boolean.
Proof. by intros [] _ _. Qed.

#[export] Instance enumeration_laws : ElemLaws enumeration.
Proof. intros v Hv _. split; [apply wrap_u64|]. simpl. by rewrite as_i32_wrap. Qed.

#[export] Instance blob_laws : ElemLaws blob.
Proof. by intros bs _ Hf. Qed.

#[export] Instance text_laws : ElemLaws text.
Proof.
  intros s Hs Hf. split; [done|]. simpl in *. unfold utf8_string in Hs. rewrite Hs.
  by rewrite String.string_of_list_byte_of_string.
Qed.

Lemma decode_put {A} (k : Kind A) `{!KindLaws k} a :
  k_ok k a = true → fits (encode k a) → decode k (encode k a) = Some a.
Proof.
  intros Hok Hf. unfold decode, merge, encode.
  rewrite parse_serialise by (by apply put_raw). by apply put_merge.
Qed.

#[export] Instance nested_laws {A} (k : Kind A) `{!KindLaws k} : ElemLaws (nested k).
Proof. intros a Hok Hf. split; [done|]. simpl. by apply decode_put. Qed.

(** *** Kinds of one tag *)

Lemma fits_head tag r fs : fits (serialise ((tag, r) :: fs)) → fits_raw r.
Proof. destruct r; try done. apply fits_bytes. Qed.

Lemma fits_tail f fs : fits (serialise (f :: fs)) → fits (serialise fs).
Proof. change (f :: fs) with ([f] ++ fs). rewrite serialise_app. by intros [_ ?]%fits_app. Qed.

Lemma raw_ok_value tag r : valid_tag tag = true → value_ok r → raw_ok (tag, r).
Proof. intros ?%in_range_true Hr. split; [done|]. by destruct r. Qed.

Lemma merge_own {A} (k : Kind A) tag r fs a a' :
  tag ∈ k_tags k → k_merge k tag r a = Some a' →
  merge_all k ((tag, r) :: fs) a = merge_all k fs a'.
Proof. intros Ht Hm. simpl. unfold merge_field. simpl. by rewrite decide_True, Hm. Qed.

Lemma merge_one {A} (k : Kind A) tag r a a' :
  tag ∈ k_tags k → k_merge k tag r a = Some a' → merge_all k [(tag, r)] a = Some a'.
Proof. intros. by erewrite merge_own. Qed.

Lemma singular_laws {A} `{EqDecision A} tag d (e : Elem A) :
  valid_tag tag = true → ElemLaws e → KindLaws (singular tag d e).
Proof.
  intros Ht He. split; intros a; simpl; unfold encode; simpl; case_decide as Hd; try done.
  - by repeat constructor.
  - intros Hok Hf%fits_head. apply Forall_singleton, raw_ok_value; [done|]. by apply He.
  - intros _ _. by subst.
  - intros Hok Hf%fits_head. apply merge_one; [by left|]. by apply He.
Qed.

Lemma optional_laws {A} tag (e : Elem A) :
  valid_tag tag = true → ElemLaws e → KindLaws (optional tag e).
Proof.
  intros Ht He. split; intros [a|]; simpl; unfold encode; simpl; try done.
  - by repeat constructor.
  - intros Hok Hf%fits_head. apply Forall_singleton, raw_ok_value; [done|]. by apply He.
  - intros Hok Hf%fits_head. apply merge_one; [by left|]. simpl.
    by destruct (He a Hok Hf) as [_ ->].
Qed.

Lemma message_laws {A} tag (k : Kind A) :
  valid_tag tag = true → KindLaws k → KindLaws (message tag k).
Proof.
  intros Ht Hk. split; intros [a|]; simpl; try done.
  - by repeat constructor.
  - intros Hok Hf%fits_bytes. by apply Forall_singleton, raw_ok_value.
  - intros Hok Hf%fits_bytes. apply merge_one; [by left|]. simpl.
    change (merge k (encode k a) (k_default k)) with (decode k (encode k a)).
    by rewrite decode_put.
Qed.

Lemma repeated_merge {A} tag (e : Elem A) `{!ElemLaws e} l l' :
  forallb (e_ok e) l = true → fits (serialise ((λ a, (tag, e_raw e a)) <$> l)) →
  merge_all (repeated tag e) ((λ a, (tag, e_raw e a)) <$> l) l' = Some (l' ++ l).
Proof.
  revert l'. induction l as [|a l IH]; intros l' Hok Hf; [by rewrite app_nil_r|].
  apply andb_true_iff in Hok as [Ha Hl]. rewrite fmap_cons in Hf |- *.
  rewrite (merge_own _ _ _ _ _ (l' ++ [a])); [|by left|].
  - rewrite IH; [by rewrite <-app_assoc|done|by eapply fits_tail].
  - simpl. apply fits_head in Hf. by destruct (elem_reads a Ha Hf) as [_ ->].
Qed.

Lemma repeated_laws {A} tag (e : Elem A) :
  valid_tag tag = true → ElemLaws e → KindLaws (repeated tag e).
Proof.
  intros Ht He. split; intros l; simpl; unfold encode; simpl.
  - apply Forall_fmap, Forall_true. intros a. simpl. by left.
  - induction l as [|a l IH]; [constructor|]. rewrite !fmap_cons. simpl.
    intros [Ha Hl]%andb_true_iff Hf. constructor.
    + apply raw_ok_value; [done|]. apply He; [done|]. by eapply fits_head.
    + apply IH; [done|]. by eapply fits_tail.
  - intros Hok Hf. by apply repeated_merge.
Qed.

Lemma unpack_pack fuel l :
  forallb i32_ok l = true → (length (pack l) ≤ fuel)%nat → unpack fuel (pack l) = Some l.
Proof.
  revert fuel. induction l as [|v l IH]; intros fuel Hok Hl; [by destruct fuel|].
  apply andb_true_iff in Hok as [Hv Hok].
  pose proof (decode_encode_varint (v mod 2 ^ 64) (pack l) (wrap_u64 v)) as Hd.
  pose proof (decode_varint_consumes _ _ _ Hd) as [_ Hc].
  change (pack (v :: l)) with (encode_varint (v mod 2 ^ 64) ++ pack l) in *.
  destruct (encode_varint (v mod 2 ^ 64) ++ pack l) as [|b bs]; [simpl in *; lia|].
  destruct fuel as [|fuel]; [simpl in *; lia|]. cbn [unpack length] in *.
  rewrite Hd, IH by (done || lia). simpl. by rewrite as_i32_wrap.
Qed.

Lemma packed_laws tag : valid_tag tag = true → KindLaws (packed tag).
Proof.
  intros Ht. split; intros l; simpl; unfold encode; simpl; case_decide as Hd; try done.
  - by repeat constructor.
  - intros Hok Hf%fits_head. by apply Forall_singleton, raw_ok_value.
  - intros _ _. by subst.
  - intros Hok Hf%fits_head. apply merge_one; [by left|]. simpl. by rewrite unpack_pack.
Qed.

(** *** Combinations *)

#[export] Instance no_fields_laws : KindLaws no_fields.
Proof. split; intros []; simpl; by constructor. Qed.

Lemma merge_left {A B} (k : Kind A) (l : Kind B) fs a b :
  Forall (λ f, f.1 ∈ k_tags k) fs →
  merge_all (both k l) fs (a, b) = (λ a, (a, b)) <$> merge_all k fs a.
Proof.
  intros Hfs. revert a. induction Hfs as [|[t r] fs Ht _ IH]; intros a; [done|].
  simpl in *. unfold merge_field. simpl.
  rewrite (decide_True _ _ Ht), decide_True by (apply elem_of_app; by left).
  rewrite (decide_True _ _ Ht). destruct (k_merge k t r a) as [a'|]; simpl; [apply IH|done].
Qed.

Lemma merge_right {A B} (k : Kind A) (l : Kind B) fs a b :
  disjoint_tags k l = true → Forall (λ f, f.1 ∈ k_tags l) fs →
  merge_all (both k l) fs (a, b) = (λ b, (a, b)) <$> merge_all l fs b.
Proof.
  intros Hd Hfs. revert b. induction Hfs as [|[t r] fs Ht _ IH]; intros b; [done|].
  simpl in *. unfold merge_field. simpl.
  assert (t ∉ k_tags k) as Hn.
  { intros Hk. unfold disjoint_tags in Hd. rewrite forallb_forall in Hd.
    apply list_elem_of_In in Hk. apply Hd in Hk. by rewrite bool_decide_eq_true_2 in Hk. }
  rewrite (decide_True _ _ Ht), decide_True by (apply elem_of_app; by right).
  rewrite (decide_False _ _ Hn). destruct (k_merge l t r b) as [b'|]; simpl; [apply IH|done].
Qed.

Lemma merge_all_app {A} (k : Kind A) fs gs a :
  merge_all k (fs ++ gs) a
  = match merge_all k fs a with Some a => merge_all k gs a | None => None end.
Proof.
  revert a. induction fs as [|f fs IH]; intros a; simpl; [done|].
  destruct (merge_field k f a); [apply IH|done].
Qed.

Lemma both_laws {A B} (k : Kind A) (l : Kind B) :
  disjoint_tags k l = true → KindLaws k → KindLaws l → KindLaws (both k l).
Proof.
  intros Hd Hk Hl. split; intros [a b]; unfold encode; simpl; rewrite ?serialise_app.
  - apply Forall_app. split; (eapply Forall_impl; [apply put_tags|]); simpl; intros f ?;
      apply elem_of_app; auto.
  - intros [Ha Hb]%andb_true_iff [Hfa Hfb]%fits_app. apply Forall_app. split; by apply put_raw.
  - intros [Ha Hb]%andb_true_iff [Hfa Hfb]%fits_app.
    rewrite merge_all_app, merge_left by apply put_tags. rewrite put_merge by done. simpl.
    rewrite merge_right by (done || apply put_tags). by rewrite put_merge.
Qed.

Lemma merge_structure {A T} (to : T → A) (from : A → T) (k : Kind A) fs a :
  (∀ a, to (from a) = a) →
  merge_all (structure to from k) fs (from a) = from <$> merge_all k fs a.
Proof.
  intros Hto. revert a. induction fs as [|[t r] fs IH]; intros a; [done|].
  simpl. unfold merge_field. simpl. rewrite Hto.
  case_decide; [|apply IH]. destruct (k_merge k t r a); simpl; [apply IH|done].
Qed.

Lemma structure_laws {A T} (to : T → A) (from : A → T) (k : Kind A) :
  (∀ a, to (from a) = a) → (∀ m, from (to m) = m) → KindLaws k →
  KindLaws (structure to from k).
Proof.
  intros Hto Hfrom Hk. split; intros m; simpl; [apply put_tags|apply (put_raw (to m))|].
  intros Hok Hf. rewrite merge_structure, put_merge by done. simpl. by rewrite Hfrom.
Qed.

(** Fields a message does not have change nothing. *)
Lemma merge_unknown {A} (k : Kind A) fs a :
  Forall (λ f, f.1 ∉ k_tags k) fs → merge_all k fs a = Some a.
Proof.
  intros Hfs. induction Hfs as [|f fs Hf _ IH]; simpl; [done|].
  unfold merge_field. by rewrite decide_False.
Qed.

Lemma decode_unknown {A} (k : Kind A) `{!KindLaws k} a fs :
  k_ok k a = true → fits (encode k a) →
  Forall raw_ok fs → Forall (λ f, f.1 ∉ k_tags k) fs →
  decode k (encode k a ++ serialise fs) = Some a.
Proof.
  intros Hok Hf Hraw Hfs. unfold decode, merge, encode. rewrite <-serialise_app.
  rewrite parse_serialise by (apply Forall_app; split; [by apply put_raw|done]).
  rewrite merge_all_app, put_merge by done. by apply merge_unknown.
Qed.

(** Proves the laws of a schema structure from those of its fields. *)
Create HintDb layout.
#[export] Hint Resolve singular_laws optional_laws message_laws repeated_laws packed_laws
  both_laws no_fields_laws uint64_laws uint32_laws boolean_laws enumeration_laws blob_laws
  text_laws nested_laws : layout.
#[export] Hint Extern 1 (valid_tag _ = true) => reflexivity : layout.
#[export] Hint Extern 1 (disjoint_tags _ _ = true) => vm_compute; reflexivity : layout.

Ltac solve_layout :=
  apply structure_laws;
  [intros ?; repeat (match goal with
     | p : (_ * _)%type |- _ => destruct p
     | u : unit |- _ => destruct u
     end); reflexivity
  |by intros []
  |eauto 40 with layout typeclass_instances].

(** *** One of several fields *)

Section oneof.
Context {I : Type} `{EqDecision I} (P : I → Type).
Context (tags : list Z) (all : list I) (alt : ∀ i, Kind (option (P i))).

(** The alternative a tag stands for, by the order of the declaration. *)
Definition pick (tag : Z) : option I :=
  List.find (λ i, bool_decide (tag ∈ k_tags (alt i))) all.

(** The value, where it is that of the alternative. *)
Definition project (i : I) (x : option (sigT P)) : option (P i) :=
  match x with
  | Some (existT j p) =>
      match decide (j = i) with left E => Some (eq_rect j P p i E) | right _ => None end
  | None => None
  end.

Definition inject (i : I) (p : option (P i)) : option (sigT P) := existT i <$> p.

(** At most one field is set: another alternative replaces it, the same one
    merges. *)
Definition oneof : Kind (option (sigT P)) :=
  MkKind tags None
    (λ x, match x with Some (existT i p) => k_ok (alt i) (Some p) | None => true end)
    (λ x, match x with Some (existT i p) => k_put (alt i) (Some p) | None => [] end)
    (λ tag r x,
      match pick tag with
      | Some i => inject i <$> k_merge (alt i) tag r (project i x)
      | None => Some x
      end).

Lemma project_inject i p : project i (inject i p) = p.
Proof.
  destruct p as [p|]; [|done]. simpl. destruct (decide (i = i)) as [E|]; [|done].
  by rewrite (Eqdep_dec.UIP_dec (λ a b, decide (a = b)) E eq_refl).
Qed.

Context (Hpick : ∀ i tag, tag ∈ k_tags (alt i) → pick tag = Some i).
Context (Htags : ∀ i tag, tag ∈ k_tags (alt i) → tag ∈ tags).
Context (Hnone : ∀ i, k_default (alt i) = None).
Context (Halt : ∀ i, KindLaws (alt i)).

Lemma merge_oneof i fs p :
  Forall (λ f, f.1 ∈ k_tags (alt i)) fs →
  merge_all oneof fs (inject i p) = inject i <$> merge_all (alt i) fs p.
Proof.
  intros Hfs. revert p. induction Hfs as [|[t r] fs Ht _ IH]; intros p; [done|].
  simpl in *. unfold merge_field. simpl. rewrite (decide_True _ _ Ht).
  rewrite decide_True by (by eapply Htags). rewrite (Hpick _ _ Ht), project_inject.
  destruct (k_merge (alt i) t r p); simpl; [apply IH|done].
Qed.

Lemma oneof_laws : KindLaws oneof.
Proof.
  split; intros [[i p]|]; simpl; try done.
  - eapply Forall_impl; [apply (put_tags (Some p))|]. simpl. intros f. apply Htags.
  - apply (put_raw (Some p)).
  - intros Hok Hf. change None with (inject i None).
    rewrite (merge_oneof i _ None) by apply put_tags.
    pose proof (put_merge (Some p) Hok Hf) as Hm. rewrite Hnone in Hm. by rewrite Hm.
Qed.
End oneof.
