(* ===== verification/Schema.v ===== *)
(** * The schema ([protocol/generated/darkbio.wire.rs])

    The enumerations and message structures of the protocol: a module each, with
    the record of its fields and its layout, the kind and tag of each field as its
    attribute gives them. The structures that embed others follow them. *)

From S2P Require Import Prelude Message Protobuf.
#[local] Open Scope Z_scope.

(** ** Enumerations *)

(** The arms of a [match] on a string, in order. *)
Fixpoint match_str {A} (arms : list (string * A)) (value : string) : option A :=
  match arms with
  | [] => None
  | (name, a) :: arms => if decide (value = name) then Some a else match_str arms value
  end.

(** [ReservedErrors] *)
Module ReservedErrors.
Inductive t :=
  | Unspecified
  | Unanswered
  | Unknown
  | Unsupported
  | Unavailable
  | Unauthorized
  | Unconfirmed
  | Undelivered.

(** Its discriminants. *)
Definition number (v : t) : Z :=
  match v with
  | Unspecified => 0
  | Unanswered => 1
  | Unknown => 2
  | Unsupported => 3
  | Unavailable => 4
  | Unauthorized => 5
  | Unconfirmed => 6
  | Undelivered => 7
  end.

Definition as_str_name (v : t) : string :=
  match v with
  | Unspecified => "RESERVED_ERRORS_UNSPECIFIED"
  | Unanswered => "RESERVED_ERRORS_UNANSWERED"
  | Unknown => "RESERVED_ERRORS_UNKNOWN"
  | Unsupported => "RESERVED_ERRORS_UNSUPPORTED"
  | Unavailable => "RESERVED_ERRORS_UNAVAILABLE"
  | Unauthorized => "RESERVED_ERRORS_UNAUTHORIZED"
  | Unconfirmed => "RESERVED_ERRORS_UNCONFIRMED"
  | Undelivered => "RESERVED_ERRORS_UNDELIVERED"
  end.

Definition from_str_name (value : string) : option t :=
  match_str
    [("RESERVED_ERRORS_UNSPECIFIED"%string, Unspecified);
     ("RESERVED_ERRORS_UNANSWERED"%string, Unanswered);
     ("RESERVED_ERRORS_UNKNOWN"%string, Unknown);
     ("RESERVED_ERRORS_UNSUPPORTED"%string, Unsupported);
     ("RESERVED_ERRORS_UNAVAILABLE"%string, Unavailable);
     ("RESERVED_ERRORS_UNAUTHORIZED"%string, Unauthorized);
     ("RESERVED_ERRORS_UNCONFIRMED"%string, Unconfirmed);
     ("RESERVED_ERRORS_UNDELIVERED"%string, Undelivered)] value.
End ReservedErrors.

(** [ExecutionState] *)
Module ExecutionState.
Inductive t :=
  | Unspecified
  | Running
  | Awaiting
  | Resolved.

(** Its discriminants. *)
Definition number (v : t) : Z :=
  match v with
  | Unspecified => 0
  | Running => 1
  | Awaiting => 2
  | Resolved => 3
  end.

Definition as_str_name (v : t) : string :=
  match v with
  | Unspecified => "EXECUTION_STATE_UNSPECIFIED"
  | Running => "EXECUTION_STATE_RUNNING"
  | Awaiting => "EXECUTION_STATE_AWAITING"
  | Resolved => "EXECUTION_STATE_RESOLVED"
  end.

Definition from_str_name (value : string) : option t :=
  match_str
    [("EXECUTION_STATE_UNSPECIFIED"%string, Unspecified);
     ("EXECUTION_STATE_RUNNING"%string, Running);
     ("EXECUTION_STATE_AWAITING"%string, Awaiting);
     ("EXECUTION_STATE_RESOLVED"%string, Resolved)] value.
End ExecutionState.

(** [ExecutionStream] *)
Module ExecutionStream.
Inductive t :=
  | Unspecified
  | Stdout
  | Stderr.

(** Its discriminants. *)
Definition number (v : t) : Z :=
  match v with
  | Unspecified => 0
  | Stdout => 1
  | Stderr => 2
  end.

Definition as_str_name (v : t) : string :=
  match v with
  | Unspecified => "EXECUTION_STREAM_UNSPECIFIED"
  | Stdout => "EXECUTION_STREAM_STDOUT"
  | Stderr => "EXECUTION_STREAM_STDERR"
  end.

Definition from_str_name (value : string) : option t :=
  match_str
    [("EXECUTION_STREAM_UNSPECIFIED"%string, Unspecified);
     ("EXECUTION_STREAM_STDOUT"%string, Stdout);
     ("EXECUTION_STREAM_STDERR"%string, Stderr)] value.
End ExecutionStream.

(** [SlotKind] *)
Module SlotKind.
Inductive t :=
  | Unspecified
  | ReferenceGenome
  | GeneAnnotations
  | SmallVariants
  | VariantCatalog
  | StructuralVariants
  | CopyNumberVariants.

(** Its discriminants. *)
Definition number (v : t) : Z :=
  match v with
  | Unspecified => 0
  | ReferenceGenome => 1
  | GeneAnnotations => 2
  | SmallVariants => 3
  | VariantCatalog => 4
  | StructuralVariants => 5
  | CopyNumberVariants => 6
  end.

Definition as_str_name (v : t) : string :=
  match v with
  | Unspecified => "SLOT_KIND_UNSPECIFIED"
  | ReferenceGenome => "SLOT_KIND_REFERENCE_GENOME"
  | GeneAnnotations => "SLOT_KIND_GENE_ANNOTATIONS"
  | SmallVariants => "SLOT_KIND_SMALL_VARIANTS"
  | VariantCatalog => "SLOT_KIND_VARIANT_CATALOG"
  | StructuralVariants => "SLOT_KIND_STRUCTURAL_VARIANTS"
  | CopyNumberVariants => "SLOT_KIND_COPY_NUMBER_VARIANTS"
  end.

Definition from_str_name (value : string) : option t :=
  match_str
    [("SLOT_KIND_UNSPECIFIED"%string, Unspecified);
     ("SLOT_KIND_REFERENCE_GENOME"%string, ReferenceGenome);
     ("SLOT_KIND_GENE_ANNOTATIONS"%string, GeneAnnotations);
     ("SLOT_KIND_SMALL_VARIANTS"%string, SmallVariants);
     ("SLOT_KIND_VARIANT_CATALOG"%string, VariantCatalog);
     ("SLOT_KIND_STRUCTURAL_VARIANTS"%string, StructuralVariants);
     ("SLOT_KIND_COPY_NUMBER_VARIANTS"%string, CopyNumberVariants)] value.
End SlotKind.

(** [SlotOrigin] *)
Module SlotOrigin.
Inductive t :=
  | Unspecified
  | Personal
  | Reference.

(** Its discriminants. *)
Definition number (v : t) : Z :=
  match v with
  | Unspecified => 0
  | Personal => 1
  | Reference => 2
  end.

Definition as_str_name (v : t) : string :=
  match v with
  | Unspecified => "SLOT_ORIGIN_UNSPECIFIED"
  | Personal => "SLOT_ORIGIN_PERSONAL"
  | Reference => "SLOT_ORIGIN_REFERENCE"
  end.

Definition from_str_name (value : string) : option t :=
  match_str
    [("SLOT_ORIGIN_UNSPECIFIED"%string, Unspecified);
     ("SLOT_ORIGIN_PERSONAL"%string, Personal);
     ("SLOT_ORIGIN_REFERENCE"%string, Reference)] value.
End SlotOrigin.

(** [SlotState] *)
Module SlotState.
Inductive t :=
  | Unspecified
  | Empty
  | Filled
  | Damaged.

(** Its discriminants. *)
Definition number (v : t) : Z :=
  match v with
  | Unspecified => 0
  | Empty => 1
  | Filled => 2
  | Damaged => 3
  end.

Definition as_str_name (v : t) : string :=
  match v with
  | Unspecified => "SLOT_STATE_UNSPECIFIED"
  | Empty => "SLOT_STATE_EMPTY"
  | Filled => "SLOT_STATE_FILLED"
  | Damaged => "SLOT_STATE_DAMAGED"
  end.

Definition from_str_name (value : string) : option t :=
  match_str
    [("SLOT_STATE_UNSPECIFIED"%string, Unspecified);
     ("SLOT_STATE_EMPTY"%string, Empty);
     ("SLOT_STATE_FILLED"%string, Filled);
     ("SLOT_STATE_DAMAGED"%string, Damaged)] value.
End SlotState.

(** [SlotConfidence] *)
Module SlotConfidence.
Inductive t :=
  | Unspecified
  | Low
  | Mid
  | High.

(** Its discriminants. *)
Definition number (v : t) : Z :=
  match v with
  | Unspecified => 0
  | Low => 1
  | Mid => 2
  | High => 3
  end.

Definition as_str_name (v : t) : string :=
  match v with
  | Unspecified => "SLOT_CONFIDENCE_UNSPECIFIED"
  | Low => "SLOT_CONFIDENCE_LOW"
  | Mid => "SLOT_CONFIDENCE_MID"
  | High => "SLOT_CONFIDENCE_HIGH"
  end.

Definition from_str_name (value : string) : option t :=
  match_str
    [("SLOT_CONFIDENCE_UNSPECIFIED"%string, Unspecified);
     ("SLOT_CONFIDENCE_LOW"%string, Low);
     ("SLOT_CONFIDENCE_MID"%string, Mid);
     ("SLOT_CONFIDENCE_HIGH"%string, High)] value.
End SlotConfidence.

(** ** Messages *)

(** [Error], whose structure is [Message.SchemaError]. *)
Definition error_layout : Kind SchemaError :=
  structure (λ e, (code e, (msg e, tt))) (λ '(code, (msg, tt)), MkSchemaError code msg)
    (singular 1 0 uint64
     & singular 2 EmptyString text
     & no_fields).

#[global] Instance error_laws : KindLaws error_layout.
Proof. solve_layout. Qed.

(** [OnboardingRequest] *)
Module OnboardingRequest.
Record t := Mk {
  device_attestation : list byte;
}.

Definition layout : Kind t :=
  structure (λ m, (device_attestation m, tt))
    (λ '(device_attestation, tt), Mk device_attestation)
    (singular 1 [] blob
     & no_fields).

#[global] Instance laws : KindLaws layout.
Proof. solve_layout. Qed.
End OnboardingRequest.

(** [OnboardingResponse] *)
Module OnboardingResponse.
Record t := Mk {}.

Definition layout : Kind t := structure (λ _, tt) (λ _, Mk) no_fields.

#[global] Instance laws : KindLaws layout.
Proof. solve_layout. Qed.
End OnboardingResponse.

(** [DeviceInfoRequest] *)
Module DeviceInfoRequest.
Record t := Mk {}.

Definition layout : Kind t := structure (λ _, tt) (λ _, Mk) no_fields.

#[global] Instance laws : KindLaws layout.
Proof. solve_layout. Qed.
End DeviceInfoRequest.

(** [DeviceInfoResponse] *)
Module DeviceInfoResponse.
Record t := Mk {
  version_id : Z;
  version_str : string;
  revision_id : Z;
  revision_str : string;
  firmware_version : string;
  firmware_publish : Z;
  cloud_synced : bool;
  cloud_clock : Z;
  paired : bool;
  unlocked : bool;
}.

Definition layout : Kind t :=
  structure (λ m, (version_id m, (version_str m, (revision_id m, (revision_str m,
      (firmware_version m, (firmware_publish m, (cloud_synced m, (cloud_clock m, (paired m,
      (unlocked m, tt)))))))))))
    (λ '(version_id, (version_str, (revision_id, (revision_str, (firmware_version,
      (firmware_publish, (cloud_synced, (cloud_clock, (paired, (unlocked, tt)))))))))), Mk
      version_id version_str revision_id revision_str firmware_version firmware_publish
      cloud_synced cloud_clock paired unlocked)
    (singular 1 0 uint32
     & singular 2 EmptyString text
     & singular 3 0 uint32
     & singular 4 EmptyString text
     & singular 7 EmptyString text
     & singular 8 0 uint64
     & singular 9 false boolean
     & singular 10 0 uint64
     & singular 11 false boolean
     & singular 12 false boolean
     & no_fields).

#[global] Instance laws : KindLaws layout.
Proof. solve_layout. Qed.
End DeviceInfoResponse.

(** [CloudSyncStartRequest] *)
Module CloudSyncStartRequest.
Record t := Mk {
  signer : list byte;
  crypto : list byte;
}.

Definition layout : Kind t :=
  structure (λ m, (signer m, (crypto m, tt)))
    (λ '(signer, (crypto, tt)), Mk signer crypto)
    (singular 1 [] blob
     & singular 2 [] blob
     & no_fields).

#[global] Instance laws : KindLaws layout.
Proof. solve_layout. Qed.
End CloudSyncStartRequest.

(** [CloudSyncStartResponse] *)
Module CloudSyncStartResponse.
Record t := Mk {
  challenge : list byte;
}.

Definition layout : Kind t :=
  structure (λ m, (challenge m, tt))
    (λ '(challenge, tt), Mk challenge)
    (singular 1 [] blob
     & no_fields).

#[global] Instance laws : KindLaws layout.
Proof. solve_layout. Qed.
End CloudSyncStartResponse.

(** [CloudSyncFinishRequest] *)
Module CloudSyncFinishRequest.
Record t := Mk {
  unixmilli : Z;
  signature : list byte;
}.

Definition layout : Kind t :=
  structure (λ m, (unixmilli m, (signature m, tt)))
    (λ '(unixmilli, (signature, tt)), Mk unixmilli signature)
    (singular 1 0 uint64
     & singular 2 [] blob
     & no_fields).

#[global] Instance laws : KindLaws layout.
Proof. solve_layout. Qed.
End CloudSyncFinishRequest.

(** [CloudSyncFinishResponse] *)
Module CloudSyncFinishResponse.
Record t := Mk {
  accepted : Z;
}.

Definition layout : Kind t :=
  structure (λ m, (accepted m, tt))
    (λ '(accepted, tt), Mk accepted)
    (singular 1 0 uint64
     & no_fields).

#[global] Instance laws : KindLaws layout.
Proof. solve_layout. Qed.
End CloudSyncFinishResponse.

(** [GenuinityProofRequest] *)
Module GenuinityProofRequest.
Record t := Mk {}.

Definition layout : Kind t := structure (λ _, tt) (λ _, Mk) no_fields.

#[global] Instance laws : KindLaws layout.
Proof. solve_layout. Qed.
End GenuinityProofRequest.

(** [GenuinityProofResponse] *)
Module GenuinityProofResponse.
Record t := Mk {
  proof : list byte;
}.

Definition layout : Kind t :=
  structure (λ m, (proof m, tt))
    (λ '(proof, tt), Mk proof)
    (singular 1 [] blob
     & no_fields).

#[global] Instance laws : KindLaws layout.
Proof. solve_layout. Qed.
End GenuinityProofResponse.

(** [FirmwareUpdatePrepRequest] *)
Module FirmwareUpdatePrepRequest.
Record t := Mk {
  version : string;
  sha256 : list byte;
  bytes : Z;
}.

Definition layout : Kind t :=
  structure (λ m, (version m, (sha256 m, (bytes m, tt))))
    (λ '(version, (sha256, (bytes, tt))), Mk version sha256 bytes)
    (singular 1 EmptyString text
     & singular 2 [] blob
     & singular 3 0 uint64
     & no_fields).

#[global] Instance laws : KindLaws layout.
Proof. solve_layout. Qed.
End FirmwareUpdatePrepRequest.

(** [FirmwareUpdatePrepResponse] *)
Module FirmwareUpdatePrepResponse.
Record t := Mk {
  auth : list byte;
}.

Definition layout : Kind t :=
  structure (λ m, (auth m, tt))
    (λ '(auth, tt), Mk auth)
    (singular 1 [] blob
     & no_fields).

#[global] Instance laws : KindLaws layout.
Proof. solve_layout. Qed.
End FirmwareUpdatePrepResponse.

(** [FirmwareUpdateInitRequest] *)
Module FirmwareUpdateInitRequest.
Record t := Mk {
  access : list byte;
}.

Definition layout : Kind t :=
  structure (λ m, (access m, tt))
    (λ '(access, tt), Mk access)
    (singular 1 [] blob
     & no_fields).

#[global] Instance laws : KindLaws layout.
Proof. solve_layout. Qed.
End FirmwareUpdateInitRequest.

(** [FirmwareUpdateInitResponse] *)
Module FirmwareUpdateInitResponse.
Record t := Mk {}.

Definition layout : Kind t := structure (λ _, tt) (λ _, Mk) no_fields.

#[global] Instance laws : KindLaws layout.
Proof. solve_layout. Qed.
End FirmwareUpdateInitResponse.

(** [FirmwareUpdateUploadRequest] *)
Module FirmwareUpdateUploadRequest.
Record t := Mk {
  chunk : list byte;
}.

Definition layout : Kind t :=
  structure (λ m, (chunk m, tt))
    (λ '(chunk, tt), Mk chunk)
    (singular 1 [] blob
     & no_fields).

#[global] Instance laws : KindLaws layout.
Proof. solve_layout. Qed.
End FirmwareUpdateUploadRequest.

(** [FirmwareUpdateUploadResponse] *)
Module FirmwareUpdateUploadResponse.
Record t := Mk {}.

Definition layout : Kind t := structure (λ _, tt) (λ _, Mk) no_fields.

#[global] Instance laws : KindLaws layout.
Proof. solve_layout. Qed.
End FirmwareUpdateUploadResponse.

(** [FirmwareUpdateVerifyRequest] *)
Module FirmwareUpdateVerifyRequest.
Record t := Mk {}.

Definition layout : Kind t := structure (λ _, tt) (λ _, Mk) no_fields.

#[global] Instance laws : KindLaws layout.
Proof. solve_layout. Qed.
End FirmwareUpdateVerifyRequest.

(** [FirmwareUpdateVerifyResponse] *)
Module FirmwareUpdateVerifyResponse.
Record t := Mk {}.

Definition layout : Kind t := structure (λ _, tt) (λ _, Mk) no_fields.

#[global] Instance laws : KindLaws layout.
Proof. solve_layout. Qed.
End FirmwareUpdateVerifyResponse.

(** [FirmwareUpdateInstallRequest] *)
Module FirmwareUpdateInstallRequest.
Record t := Mk {}.

Definition layout : Kind t := structure (λ _, tt) (λ _, Mk) no_fields.

#[global] Instance laws : KindLaws layout.
Proof. solve_layout. Qed.
End FirmwareUpdateInstallRequest.

(** [FirmwareUpdateInstallResponse] *)
Module FirmwareUpdateInstallResponse.
Record t := Mk {}.

Definition layout : Kind t := structure (λ _, tt) (λ _, Mk) no_fields.

#[global] Instance laws : KindLaws layout.
Proof. solve_layout. Qed.
End FirmwareUpdateInstallResponse.

(** [PairingAuthRequest] *)
Module PairingAuthRequest.
Record t := Mk {}.

Definition layout : Kind t := structure (λ _, tt) (λ _, Mk) no_fields.

#[global] Instance laws : KindLaws layout.
Proof. solve_layout. Qed.
End PairingAuthRequest.

(** [PairingAuthResponse] *)
Module PairingAuthResponse.
Record t := Mk {
  auth : list byte;
  fprint : list byte;
}.

Definition layout : Kind t :=
  structure (λ m, (auth m, (fprint m, tt)))
    (λ '(auth, (fprint, tt)), Mk auth fprint)
    (singular 1 [] blob
     & singular 2 [] blob
     & no_fields).

#[global] Instance laws : KindLaws layout.
Proof. solve_layout. Qed.
End PairingAuthResponse.

(** [PairingSetAppIdentityRequest] *)
Module PairingSetAppIdentityRequest.
Record t := Mk {
  identity : list byte;
}.

Definition layout : Kind t :=
  structure (λ m, (identity m, tt))
    (λ '(identity, tt), Mk identity)
    (singular 1 [] blob
     & no_fields).

#[global] Instance laws : KindLaws layout.
Proof. solve_layout. Qed.
End PairingSetAppIdentityRequest.

(** [PairingSetAppIdentityResponse] *)
Module PairingSetAppIdentityResponse.
Record t := Mk {}.

Definition layout : Kind t := structure (λ _, tt) (λ _, Mk) no_fields.

#[global] Instance laws : KindLaws layout.
Proof. solve_layout. Qed.
End PairingSetAppIdentityResponse.

(** [PairingSetAppStorageRequest] *)
Module PairingSetAppStorageRequest.
Record t := Mk {
  app_key : list byte;
}.

Definition layout : Kind t :=
  structure (λ m, (app_key m, tt))
    (λ '(app_key, tt), Mk app_key)
    (singular 1 [] blob
     & no_fields).

#[global] Instance laws : KindLaws layout.
Proof. solve_layout. Qed.
End PairingSetAppStorageRequest.

(** [PairingSetAppStorageResponse] *)
Module PairingSetAppStorageResponse.
Record t := Mk {
  ark_keys : list byte;
}.

Definition layout : Kind t :=
  structure (λ m, (ark_keys m, tt))
    (λ '(ark_keys, tt), Mk ark_keys)
    (singular 1 [] blob
     & no_fields).

#[global] Instance laws : KindLaws layout.
Proof. solve_layout. Qed.
End PairingSetAppStorageResponse.

(** [PairingAckArkStorageRequest] *)
Module PairingAckArkStorageRequest.
Record t := Mk {
  app_ack : list byte;
}.

Definition layout : Kind t :=
  structure (λ m, (app_ack m, tt))
    (λ '(app_ack, tt), Mk app_ack)
    (singular 1 [] blob
     & no_fields).

#[global] Instance laws : KindLaws layout.
Proof. solve_layout. Qed.
End PairingAckArkStorageRequest.

(** [PairingAckArkStorageResponse] *)
Module PairingAckArkStorageResponse.
Record t := Mk {}.

Definition layout : Kind t := structure (λ _, tt) (λ _, Mk) no_fields.

#[global] Instance laws : KindLaws layout.
Proof. solve_layout. Qed.
End PairingAckArkStorageResponse.

(** [PairingAcceptanceRequest] *)
Module PairingAcceptanceRequest.
Record t := Mk {}.

Definition layout : Kind t := structure (λ _, tt) (λ _, Mk) no_fields.

#[global] Instance laws : KindLaws layout.
Proof. solve_layout. Qed.
End PairingAcceptanceRequest.

(** [PairingAcceptanceResponse] *)
Module PairingAcceptanceResponse.
Record t := Mk {
  confirm : list byte;
}.

Definition layout : Kind t :=
  structure (λ m, (confirm m, tt))
    (λ '(confirm, tt), Mk confirm)
    (singular 1 [] blob
     & no_fields).

#[global] Instance laws : KindLaws layout.
Proof. solve_layout. Qed.
End PairingAcceptanceResponse.

(** [PairingCompletionRequest] *)
Module PairingCompletionRequest.
Record t := Mk {}.

Definition layout : Kind t := structure (λ _, tt) (λ _, Mk) no_fields.

#[global] Instance laws : KindLaws layout.
Proof. solve_layout. Qed.
End PairingCompletionRequest.

(** [PairingCompletionResponse] *)
Module PairingCompletionResponse.
Record t := Mk {
  confirm : list byte;
}.

Definition layout : Kind t :=
  structure (λ m, (confirm m, tt))
    (λ '(confirm, tt), Mk confirm)
    (singular 1 [] blob
     & no_fields).

#[global] Instance laws : KindLaws layout.
Proof. solve_layout. Qed.
End PairingCompletionResponse.

(** [RelayJoinRequest] *)
Module RelayJoinRequest.
Record t := Mk {}.

Definition layout : Kind t := structure (λ _, tt) (λ _, Mk) no_fields.

#[global] Instance laws : KindLaws layout.
Proof. solve_layout. Qed.
End RelayJoinRequest.

(** [RelayJoinResponse] *)
Module RelayJoinResponse.
Record t := Mk {
  auth : list byte;
}.

Definition layout : Kind t :=
  structure (λ m, (auth m, tt))
    (λ '(auth, tt), Mk auth)
    (singular 1 [] blob
     & no_fields).

#[global] Instance laws : KindLaws layout.
Proof. solve_layout. Qed.
End RelayJoinResponse.

(** [RelayInboundRequest] *)
Module RelayInboundRequest.
Record t := Mk {
  frame : list byte;
}.

Definition layout : Kind t :=
  structure (λ m, (frame m, tt))
    (λ '(frame, tt), Mk frame)
    (singular 1 [] blob
     & no_fields).

#[global] Instance laws : KindLaws layout.
Proof. solve_layout. Qed.
End RelayInboundRequest.

(** [RelayInboundResponse] *)
Module RelayInboundResponse.
Record t := Mk {}.

Definition layout : Kind t := structure (λ _, tt) (λ _, Mk) no_fields.

#[global] Instance laws : KindLaws layout.
Proof. solve_layout. Qed.
End RelayInboundResponse.

(** [RelayOutboundRequest] *)
Module RelayOutboundRequest.
Record t := Mk {
  frame : list byte;
}.

Definition layout : Kind t :=
  structure (λ m, (frame m, tt))
    (λ '(frame, tt), Mk frame)
    (singular 1 [] blob
     & no_fields).

#[global] Instance laws : KindLaws layout.
Proof. solve_layout. Qed.
End RelayOutboundRequest.

(** [RelayOutboundResponse] *)
Module RelayOutboundResponse.
Record t := Mk {}.

Definition layout : Kind t := structure (λ _, tt) (λ _, Mk) no_fields.

#[global] Instance laws : KindLaws layout.
Proof. solve_layout. Qed.
End RelayOutboundResponse.

(** [UnlockRequest] *)
Module UnlockRequest.
Record t := Mk {}.

Definition layout : Kind t := structure (λ _, tt) (λ _, Mk) no_fields.

#[global] Instance laws : KindLaws layout.
Proof. solve_layout. Qed.
End UnlockRequest.

(** [UnlockResponse] *)
Module UnlockResponse.
Record t := Mk {}.

Definition layout : Kind t := structure (λ _, tt) (λ _, Mk) no_fields.

#[global] Instance laws : KindLaws layout.
Proof. solve_layout. Qed.
End UnlockResponse.

(** [ExecutionCreateRequest] *)
Module ExecutionCreateRequest.
Record t := Mk {
  sha256 : list byte;
}.

Definition layout : Kind t :=
  structure (λ m, (sha256 m, tt))
    (λ '(sha256, tt), Mk sha256)
    (singular 1 [] blob
     & no_fields).

#[global] Instance laws : KindLaws layout.
Proof. solve_layout. Qed.
End ExecutionCreateRequest.

(** [ExecutionCreateResponse] *)
Module ExecutionCreateResponse.
Record t := Mk {
  taskid : Z;
}.

Definition layout : Kind t :=
  structure (λ m, (taskid m, tt))
    (λ '(taskid, tt), Mk taskid)
    (singular 1 0 uint64
     & no_fields).

#[global] Instance laws : KindLaws layout.
Proof. solve_layout. Qed.
End ExecutionCreateResponse.

(** [ExecutionLoadRequest] *)
Module ExecutionLoadRequest.
Record t := Mk {
  taskid : Z;
}.

Definition layout : Kind t :=
  structure (λ m, (taskid m, tt))
    (λ '(taskid, tt), Mk taskid)
    (singular 1 0 uint64
     & no_fields).

#[global] Instance laws : KindLaws layout.
Proof. solve_layout. Qed.
End ExecutionLoadRequest.

(** [ExecutionLoadResponse] *)
Module ExecutionLoadResponse.
Record t := Mk {}.

Definition layout : Kind t := structure (λ _, tt) (λ _, Mk) no_fields.

#[global] Instance laws : KindLaws layout.
Proof. solve_layout. Qed.
End ExecutionLoadResponse.

(** [ExecutionStartRequest] *)
Module ExecutionStartRequest.
Record t := Mk {
  taskid : Z;
}.

Definition layout : Kind t :=
  structure (λ m, (taskid m, tt))
    (λ '(taskid, tt), Mk taskid)
    (singular 1 0 uint64
     & no_fields).

#[global] Instance laws : KindLaws layout.
Proof. solve_layout. Qed.
End ExecutionStartRequest.

(** [ExecutionStartResponse] *)
Module ExecutionStartResponse.
Record t := Mk {}.

Definition layout : Kind t := structure (λ _, tt) (λ _, Mk) no_fields.

#[global] Instance laws : KindLaws layout.
Proof. solve_layout. Qed.
End ExecutionStartResponse.

(** [ExecutionCancelRequest] *)
Module ExecutionCancelRequest.
Record t := Mk {
  taskid : Z;
}.

Definition layout : Kind t :=
  structure (λ m, (taskid m, tt))
    (λ '(taskid, tt), Mk taskid)
    (singular 1 0 uint64
     & no_fields).

#[global] Instance laws : KindLaws layout.
Proof. solve_layout. Qed.
End ExecutionCancelRequest.

(** [ExecutionCancelResponse] *)
Module ExecutionCancelResponse.
Record t := Mk {}.

Definition layout : Kind t := structure (λ _, tt) (λ _, Mk) no_fields.

#[global] Instance laws : KindLaws layout.
Proof. solve_layout. Qed.
End ExecutionCancelResponse.

(** [ExecutionStatusRequest] *)
Module ExecutionStatusRequest.
Record t := Mk {
  taskid : Z;
}.

Definition layout : Kind t :=
  structure (λ m, (taskid m, tt))
    (λ '(taskid, tt), Mk taskid)
    (singular 1 0 uint64
     & no_fields).

#[global] Instance laws : KindLaws layout.
Proof. solve_layout. Qed.
End ExecutionStatusRequest.

(** [ExecutionStatusResponse] *)
Module ExecutionStatusResponse.
Record t := Mk {
  state : Z;
}.

Definition layout : Kind t :=
  structure (λ m, (state m, tt))
    (λ '(state, tt), Mk state)
    (singular 3 0 enumeration (* ExecutionState *)
     & no_fields).

#[global] Instance laws : KindLaws layout.
Proof. solve_layout. Qed.
End ExecutionStatusResponse.

(** [ExecutionResultRequest] *)
Module ExecutionResultRequest.
Record t := Mk {
  taskid : Z;
}.

Definition layout : Kind t :=
  structure (λ m, (taskid m, tt))
    (λ '(taskid, tt), Mk taskid)
    (singular 1 0 uint64
     & no_fields).

#[global] Instance laws : KindLaws layout.
Proof. solve_layout. Qed.
End ExecutionResultRequest.

(** [ExecutionResultResponse] *)
Module ExecutionResultResponse.
Record t := Mk {
  name : string;
  version : string;
  develop : bool;
  success : bool;
  paths : list string;
  media : string;
  stdout_bytes : Z;
  stderr_bytes : Z;
}.

Definition layout : Kind t :=
  structure (λ m, (name m, (version m, (develop m, (success m, (paths m, (media m, (stdout_bytes
      m, (stderr_bytes m, tt)))))))))
    (λ '(name, (version, (develop, (success, (paths, (media, (stdout_bytes, (stderr_bytes,
      tt)))))))), Mk name version develop success paths media stdout_bytes stderr_bytes)
    (singular 1 EmptyString text
     & singular 2 EmptyString text
     & singular 3 false boolean
     & singular 4 false boolean
     & repeated 5 text
     & singular 6 EmptyString text
     & singular 7 0 uint64
     & singular 8 0 uint64
     & no_fields).

#[global] Instance laws : KindLaws layout.
Proof. solve_layout. Qed.
End ExecutionResultResponse.

(** [ExecutionOutputRequest] *)
Module ExecutionOutputRequest.
Record t := Mk {
  taskid : Z;
  stream : Z;
  offset : Z;
  size : Z;
}.

Definition layout : Kind t :=
  structure (λ m, (taskid m, (stream m, (offset m, (size m, tt)))))
    (λ '(taskid, (stream, (offset, (size, tt)))), Mk taskid stream offset size)
    (singular 1 0 uint64
     & singular 2 0 enumeration (* ExecutionStream *)
     & singular 3 0 uint64
     & singular 4 0 uint64
     & no_fields).

#[global] Instance laws : KindLaws layout.
Proof. solve_layout. Qed.
End ExecutionOutputRequest.

(** [ExecutionOutputResponse] *)
Module ExecutionOutputResponse.
Record t := Mk {
  chunk : list byte;
}.

Definition layout : Kind t :=
  structure (λ m, (chunk m, tt))
    (λ '(chunk, tt), Mk chunk)
    (singular 1 [] blob
     & no_fields).

#[global] Instance laws : KindLaws layout.
Proof. solve_layout. Qed.
End ExecutionOutputResponse.

(** [ExecutionModuleSizeRequest] *)
Module ExecutionModuleSizeRequest.
Record t := Mk {
  taskid : Z;
  sha256 : list byte;
}.

Definition layout : Kind t :=
  structure (λ m, (taskid m, (sha256 m, tt)))
    (λ '(taskid, (sha256, tt)), Mk taskid sha256)
    (singular 1 0 uint64
     & singular 2 [] blob
     & no_fields).

#[global] Instance laws : KindLaws layout.
Proof. solve_layout. Qed.
End ExecutionModuleSizeRequest.

(** [ExecutionModuleSizeResponse] *)
Module ExecutionModuleSizeResponse.
Record t := Mk {
  size : Z;
}.

Definition layout : Kind t :=
  structure (λ m, (size m, tt))
    (λ '(size, tt), Mk size)
    (singular 1 0 uint64
     & no_fields).

#[global] Instance laws : KindLaws layout.
Proof. solve_layout. Qed.
End ExecutionModuleSizeResponse.

(** [ExecutionModuleReadRequest] *)
Module ExecutionModuleReadRequest.
Record t := Mk {
  taskid : Z;
  sha256 : list byte;
  offset : Z;
  size : Z;
}.

Definition layout : Kind t :=
  structure (λ m, (taskid m, (sha256 m, (offset m, (size m, tt)))))
    (λ '(taskid, (sha256, (offset, (size, tt)))), Mk taskid sha256 offset size)
    (singular 1 0 uint64
     & singular 2 [] blob
     & singular 3 0 uint64
     & singular 4 0 uint64
     & no_fields).

#[global] Instance laws : KindLaws layout.
Proof. solve_layout. Qed.
End ExecutionModuleReadRequest.

(** [ExecutionModuleReadResponse] *)
Module ExecutionModuleReadResponse.
Record t := Mk {
  chunk : list byte;
}.

Definition layout : Kind t :=
  structure (λ m, (chunk m, tt))
    (λ '(chunk, tt), Mk chunk)
    (singular 1 [] blob
     & no_fields).

#[global] Instance laws : KindLaws layout.
Proof. solve_layout. Qed.
End ExecutionModuleReadResponse.

(** [SlotDownload] *)
Module SlotDownload.
Record t := Mk {
  url : string;
  bytes : Z;
  sha256 : string;
}.

Definition layout : Kind t :=
  structure (λ m, (url m, (bytes m, (sha256 m, tt))))
    (λ '(url, (bytes, (sha256, tt))), Mk url bytes sha256)
    (singular 1 EmptyString text
     & singular 2 0 uint64
     & singular 3 EmptyString text
     & no_fields).

#[global] Instance laws : KindLaws layout.
Proof. solve_layout. Qed.
End SlotDownload.

(** [SlotStatus] *)
Module SlotStatus.
Record t := Mk {
  kind : Z;
  name : string;
  desc : string;
  format : string;
  origin : Z;
  state : Z;
  damage : string;
  deps : list Z;
  bytes : Z;
  build : string;
  version : string;
  download : option SlotDownload.t;
}.

Definition layout : Kind t :=
  structure (λ m, (kind m, (name m, (desc m, (format m, (origin m, (state m, (damage m, (deps m,
      (bytes m, (build m, (version m, (download m, tt)))))))))))))
    (λ '(kind, (name, (desc, (format, (origin, (state, (damage, (deps, (bytes, (build, (version,
      (download, tt)))))))))))), Mk kind name desc format origin state damage deps bytes build
      version download)
    (singular 1 0 enumeration (* SlotKind *)
     & singular 2 EmptyString text
     & singular 3 EmptyString text
     & singular 4 EmptyString text
     & singular 5 0 enumeration (* SlotOrigin *)
     & singular 6 0 enumeration (* SlotState *)
     & singular 7 EmptyString text
     & packed 8 (* SlotKind *)
     & singular 9 0 uint64
     & singular 10 EmptyString text
     & singular 11 EmptyString text
     & message 12 SlotDownload.layout
     & no_fields).

#[global] Instance laws : KindLaws layout.
Proof. solve_layout. Qed.
End SlotStatus.

(** [SlotListRequest] *)
Module SlotListRequest.
Record t := Mk {}.

Definition layout : Kind t := structure (λ _, tt) (λ _, Mk) no_fields.

#[global] Instance laws : KindLaws layout.
Proof. solve_layout. Qed.
End SlotListRequest.

(** [SlotListResponse] *)
Module SlotListResponse.
Record t := Mk {
  slots : list SlotStatus.t;
}.

Definition layout : Kind t :=
  structure (λ m, (slots m, tt))
    (λ '(slots, tt), Mk slots)
    (repeated 1 (nested SlotStatus.layout)
     & no_fields).

#[global] Instance laws : KindLaws layout.
Proof. solve_layout. Qed.
End SlotListResponse.

(** [SlotRepairRequest] *)
Module SlotRepairRequest.
Record t := Mk {
  slot : Z;
}.

Definition layout : Kind t :=
  structure (λ m, (slot m, tt))
    (λ '(slot, tt), Mk slot)
    (singular 1 0 enumeration (* SlotKind *)
     & no_fields).

#[global] Instance laws : KindLaws layout.
Proof. solve_layout. Qed.
End SlotRepairRequest.

(** [SlotRepairResponse] *)
Module SlotRepairResponse.
Record t := Mk {}.

Definition layout : Kind t := structure (λ _, tt) (λ _, Mk) no_fields.

#[global] Instance laws : KindLaws layout.
Proof. solve_layout. Qed.
End SlotRepairResponse.

(** [SlotDeleteRequest] *)
Module SlotDeleteRequest.
Record t := Mk {
  slot : Z;
}.

Definition layout : Kind t :=
  structure (λ m, (slot m, tt))
    (λ '(slot, tt), Mk slot)
    (singular 1 0 enumeration (* SlotKind *)
     & no_fields).

#[global] Instance laws : KindLaws layout.
Proof. solve_layout. Qed.
End SlotDeleteRequest.

(** [SlotDeleteResponse] *)
Module SlotDeleteResponse.
Record t := Mk {}.

Definition layout : Kind t := structure (λ _, tt) (λ _, Mk) no_fields.

#[global] Instance laws : KindLaws layout.
Proof. solve_layout. Qed.
End SlotDeleteResponse.

(** [SlotIdentifyRequest] *)
Module SlotIdentifyRequest.
Record t := Mk {
  name : string;
  size : Z;
  chunk : list byte;
  kinds : list Z;
}.

Definition layout : Kind t :=
  structure (λ m, (name m, (size m, (chunk m, (kinds m, tt)))))
    (λ '(name, (size, (chunk, (kinds, tt)))), Mk name size chunk kinds)
    (singular 1 EmptyString text
     & singular 2 0 uint64
     & singular 3 [] blob
     & packed 4 (* SlotKind *)
     & no_fields).

#[global] Instance laws : KindLaws layout.
Proof. solve_layout. Qed.
End SlotIdentifyRequest.

(** [SlotIdentifyResponse] *)
Module SlotIdentifyResponse.
Record t := Mk {
  kind : Z;
  conf : Z;
  summary : string;
  details : string;
  rejection : string;
}.

Definition layout : Kind t :=
  structure (λ m, (kind m, (conf m, (summary m, (details m, (rejection m, tt))))))
    (λ '(kind, (conf, (summary, (details, (rejection, tt))))), Mk kind conf summary details
      rejection)
    (singular 1 0 enumeration (* SlotKind *)
     & singular 2 0 enumeration (* SlotConfidence *)
     & singular 3 EmptyString text
     & singular 4 EmptyString text
     & singular 5 EmptyString text
     & no_fields).

#[global] Instance laws : KindLaws layout.
Proof. solve_layout. Qed.
End SlotIdentifyResponse.

(** [SlotUploadStartRequest] *)
Module SlotUploadStartRequest.
Record t := Mk {
  kind : Z;
  name : string;
  size : Z;
  chunk : list byte;
}.

Definition layout : Kind t :=
  structure (λ m, (kind m, (name m, (size m, (chunk m, tt)))))
    (λ '(kind, (name, (size, (chunk, tt)))), Mk kind name size chunk)
    (singular 1 0 enumeration (* SlotKind *)
     & singular 2 EmptyString text
     & singular 3 0 uint64
     & singular 4 [] blob
     & no_fields).

#[global] Instance laws : KindLaws layout.
Proof. solve_layout. Qed.
End SlotUploadStartRequest.

(** [SlotUploadStartResponse] *)
Module SlotUploadStartResponse.
Record t := Mk {
  session : Z;
}.

Definition layout : Kind t :=
  structure (λ m, (session m, tt))
    (λ '(session, tt), Mk session)
    (singular 1 0 uint64
     & no_fields).

#[global] Instance laws : KindLaws layout.
Proof. solve_layout. Qed.
End SlotUploadStartResponse.

(** [SlotUploadChunkRequest] *)
Module SlotUploadChunkRequest.
Record t := Mk {
  session : Z;
  chunk : list byte;
}.

Definition layout : Kind t :=
  structure (λ m, (session m, (chunk m, tt)))
    (λ '(session, (chunk, tt)), Mk session chunk)
    (singular 1 0 uint64
     & singular 2 [] blob
     & no_fields).

#[global] Instance laws : KindLaws layout.
Proof. solve_layout. Qed.
End SlotUploadChunkRequest.

(** [SlotUploadChunkResponse] *)
Module SlotUploadChunkResponse.
Record t := Mk {}.

Definition layout : Kind t := structure (λ _, tt) (λ _, Mk) no_fields.

#[global] Instance laws : KindLaws layout.
Proof. solve_layout. Qed.
End SlotUploadChunkResponse.

(** [SlotUploadCancelRequest] *)
Module SlotUploadCancelRequest.
Record t := Mk {
  session : Z;
}.

Definition layout : Kind t :=
  structure (λ m, (session m, tt))
    (λ '(session, tt), Mk session)
    (singular 1 0 uint64
     & no_fields).

#[global] Instance laws : KindLaws layout.
Proof. solve_layout. Qed.
End SlotUploadCancelRequest.

(** [SlotUploadCancelResponse] *)
Module SlotUploadCancelResponse.
Record t := Mk {}.

Definition layout : Kind t := structure (λ _, tt) (λ _, Mk) no_fields.

#[global] Instance laws : KindLaws layout.
Proof. solve_layout. Qed.
End SlotUploadCancelResponse.

(** [SlotPhase] *)
Module SlotPhase.
Record t := Mk {
  name : string;
  desc : string;
}.

Definition layout : Kind t :=
  structure (λ m, (name m, (desc m, tt)))
    (λ '(name, (desc, tt)), Mk name desc)
    (singular 1 EmptyString text
     & singular 2 EmptyString text
     & no_fields).

#[global] Instance laws : KindLaws layout.
Proof. solve_layout. Qed.
End SlotPhase.

(** [SlotUploadProcessRequest] *)
Module SlotUploadProcessRequest.
Record t := Mk {
  session : Z;
}.

Definition layout : Kind t :=
  structure (λ m, (session m, tt))
    (λ '(session, tt), Mk session)
    (singular 1 0 uint64
     & no_fields).

#[global] Instance laws : KindLaws layout.
Proof. solve_layout. Qed.
End SlotUploadProcessRequest.

(** [SlotUploadProcessResponse] *)
Module SlotUploadProcessResponse.
Record t := Mk {
  proc_start : Z;
  phases : list SlotPhase.t;
  phase_in : Z;
  phase_start : Z;
  phase_progress : Z;
  failure : string;
}.

Definition layout : Kind t :=
  structure (λ m, (proc_start m, (phases m, (phase_in m, (phase_start m, (phase_progress m,
      (failure m, tt)))))))
    (λ '(proc_start, (phases, (phase_in, (phase_start, (phase_progress, (failure, tt)))))), Mk
      proc_start phases phase_in phase_start phase_progress failure)
    (singular 1 0 uint64
     & repeated 2 (nested SlotPhase.layout)
     & singular 3 0 uint64
     & singular 4 0 uint64
     & singular 5 0 uint64
     & singular 6 EmptyString text
     & no_fields).

#[global] Instance laws : KindLaws layout.
Proof. solve_layout. Qed.
End SlotUploadProcessResponse.

(** [DatasetPathsRequest] *)
Module DatasetPathsRequest.
Record t := Mk {}.

Definition layout : Kind t := structure (λ _, tt) (λ _, Mk) no_fields.

#[global] Instance laws : KindLaws layout.
Proof. solve_layout. Qed.
End DatasetPathsRequest.

(** [DatasetPath] *)
Module DatasetPath.
Record t := Mk {
  path : string;
  directory : bool;
  grantable : bool;
  available : bool;
  desc : string;
  format : string;
  examples : list string;
  public : bool;
  wording : string;
}.

Definition layout : Kind t :=
  structure (λ m, (path m, (directory m, (grantable m, (available m, (desc m, (format m, (examples
      m, (public m, (wording m, tt))))))))))
    (λ '(path, (directory, (grantable, (available, (desc, (format, (examples, (public, (wording,
      tt))))))))), Mk path directory grantable available desc format examples public wording)
    (singular 1 EmptyString text
     & singular 2 false boolean
     & singular 3 false boolean
     & singular 4 false boolean
     & singular 5 EmptyString text
     & singular 6 EmptyString text
     & repeated 7 text
     & singular 8 false boolean
     & singular 9 EmptyString text
     & no_fields).

#[global] Instance laws : KindLaws layout.
Proof. solve_layout. Qed.
End DatasetPath.

(** [DatasetPathsResponse] *)
Module DatasetPathsResponse.
Record t := Mk {
  paths : list DatasetPath.t;
}.

Definition layout : Kind t :=
  structure (λ m, (paths m, tt))
    (λ '(paths, tt), Mk paths)
    (repeated 1 (nested DatasetPath.layout)
     & no_fields).

#[global] Instance laws : KindLaws layout.
Proof. solve_layout. Qed.
End DatasetPathsResponse.
(** ** Building errors ([protocol/error.rs]) *)

(** [schema::Error::reserved] *)
Definition error_reserved (code : ReservedErrors.t) (msg : string) : SchemaError :=
  MkSchemaError (ReservedErrors.number code) msg.

(** [impl<E: CodedError> From<E> for schema::Error], of an error with this code and
    text; [debug] is whether the build has debug assertions. *)
Definition error_from (debug : bool) (code : Z) (display : string) : outcome SchemaError :=
  if debug && (code <? 0x100) then Panicked else Ret (MkSchemaError code display).

(** An application error is never taken for a reserved one. *)
Lemma coded_errors_apart code display e r text :
  error_from true code display = Ret e → e ≠ error_reserved r text.
Proof.
  unfold error_from. destruct (Z.ltb_spec code 0x100); [done|]. intros [= <-] [= Hc _].
  destruct r; simpl in Hc; lia.
Qed.

(** ** What the enumerations guarantee *)

Lemma match_str_in {A} (arms : list (string * A)) value a :
  match_str arms value = Some a → (value, a) ∈ arms.
Proof.
  induction arms as [|[n b] arms IH]; simpl; [done|].
  case_decide as Hd; [intros [= <-]; subst; apply list_elem_of_here|].
  intros Hm. by apply list_elem_of_further, IH.
Qed.

(** Names and numbers that stand for each value, and for nothing else; the value of an
    absent field is the unspecified one. *)
Definition faithful {A} (number : A → Z) (as_str_name : A → string)
    (from_str_name : string → option A) (unspecified : A) : Prop :=
  (∀ v, from_str_name (as_str_name v) = Some v)
  ∧ (∀ s v, from_str_name s = Some v → s = as_str_name v)
  ∧ (∀ v w, number v = number w → v = w)
  ∧ (∀ v, i32_ok (number v) = true)
  ∧ number unspecified = k_default (singular 1 0 enumeration).

Ltac solve_faithful :=
  split_and!;
  [by intros []
  |intros s v Hv; unfold ReservedErrors.from_str_name, ExecutionState.from_str_name,
     ExecutionStream.from_str_name, SlotKind.from_str_name, SlotOrigin.from_str_name,
     SlotState.from_str_name, SlotConfidence.from_str_name in Hv;
   apply match_str_in in Hv;
   repeat (apply elem_of_cons in Hv as [Hv|Hv]; [by injection Hv as -> ->|]);
   by apply elem_of_nil in Hv
  |by intros [] []
  |by intros []
  |reflexivity].

(** Enumerations are exact. For each enumeration of the schema the name of a value
    is read back as that value and no other text is read as one, distinct values have
    distinct [i32] numbers, and the default of a field is the unspecified value. *)
Theorem enumerations_exact :
  faithful ReservedErrors.number ReservedErrors.as_str_name ReservedErrors.from_str_name
    ReservedErrors.Unspecified
  ∧ faithful ExecutionState.number ExecutionState.as_str_name ExecutionState.from_str_name
      ExecutionState.Unspecified
  ∧ faithful ExecutionStream.number ExecutionStream.as_str_name
      ExecutionStream.from_str_name ExecutionStream.Unspecified
  ∧ faithful SlotKind.number SlotKind.as_str_name SlotKind.from_str_name SlotKind.Unspecified
  ∧ faithful SlotOrigin.number SlotOrigin.as_str_name SlotOrigin.from_str_name
      SlotOrigin.Unspecified
  ∧ faithful SlotState.number SlotState.as_str_name SlotState.from_str_name
      SlotState.Unspecified
  ∧ faithful SlotConfidence.number SlotConfidence.as_str_name
      SlotConfidence.from_str_name SlotConfidence.Unspecified
  ∧ ReservedErrors.number ReservedErrors.Unanswered = UNANSWERED
  ∧ ReservedErrors.number ReservedErrors.Unknown = UNKNOWN.
Proof.
  do 7 (split; [solve_faithful|]). done.
Qed.
