(* ===== verification/Envelope.v ===== *)
(** * Envelopes ([protocol/envelope.rs])

    Routing headers, the encoding of both directions, request-ID parity and the
    byte charge of retained envelopes. Protobuf coding is the [prost] crate's:
    a parameter with its round trip and consumption laws. *)

From Stdlib Require Import Strings.Byte.
From S2P Require Import Prelude Io Message.

(** ** Protobuf *)

(** Encoding and decoding of the two envelopes, the routing view that leaves
    nested payloads encoded, and the field scanner; [payload_ok] tells the values
    that the Rust types of a payload can hold (integers within their width, strings
    in UTF-8). *)
Class Prost (Payload : Variant → Type) := {
  payload_ok (v : Variant) : Payload v → bool;
  env_encode (d : Direction) :
    Z → option SchemaError → option (Content Payload d) → list byte;
  env_decode (d : Direction) :
    list byte → result (Z * option SchemaError * option (Content Payload d)) string;
  opaque_decode (d : Direction) : list byte → result (Z * bool * option string) string;
  WireType : Type;
  decode_key : list byte → option (Z * WireType * list byte);
  skip_field : WireType → Z → list byte → option (list byte);
}.

(** The values an envelope's Rust types can hold. *)
Definition envelope_ok {Payload} `{Prost Payload} {d} (id : Z) (err : option SchemaError)
    (content : option (Content Payload d)) : bool :=
  in_range 0 u64_max id
  && match err with Some e => error_ok e | None => true end
  && match content with Some c => payload_ok _ (body c) | None => true end.

(** The top-level fields of an encoding all have tags below [bound]. *)
Inductive tags_below {Payload} `{Prost Payload} (bound : Z) : list byte → Prop :=
  | tags_nil : tags_below bound []
  | tags_cons bs tag w rest rest' :
      decode_key bs = Some (tag, w, rest) → (tag < bound)%Z →
      skip_field w tag rest = Some rest' → tags_below bound rest' → tags_below bound bs.

(** What [prost] documents: for values of their types, in an encoding that fits a
    buffer, decoding inverts encoding, the routing view sees the same fields and an
    envelope without content has only the fields below the content range; the
    scanner consumes its input. *)
Class ProstLaws (Payload : Variant → Type) `{Prost Payload} : Prop := {
  decode_encode d id err content :
    envelope_ok id err content = true →
    (Z.of_nat (length (env_encode d id err content)) ≤ usize_max)%Z →
    env_decode d (env_encode d id err content) = Ok (id, err, content);
  opaque_decode_encode d id err content :
    envelope_ok id err content = true →
    (Z.of_nat (length (env_encode d id err content)) ≤ usize_max)%Z →
    opaque_decode d (env_encode d id err content)
    = Ok (id, bool_decide (is_Some err),
          (λ c, field_name (body_of_field d (field c))) <$> content);
  no_content_tags d id err :
    envelope_ok (d:=d) id err None = true →
    (Z.of_nat (length (env_encode d id err None)) ≤ usize_max)%Z →
    tags_below 0x100 (env_encode d id err None);
  decode_key_consumes bs tag w rest :
    decode_key bs = Some (tag, w, rest) → length rest < length bs;
  skip_field_consumes w tag bs rest :
    skip_field w tag bs = Some rest → length rest ≤ length bs;
}.

(** ** Roles *)

(** [envelope::Side] *)
Inductive Side := Client | Server.

#[global] Instance Side_eq_dec : EqDecision Side.
Proof. solve_decision. Defined.

Definition peer (s : Side) : Side := match s with Client => Server | Server => Client end.

(** The envelope a side sends; it receives its peer's. *)
Definition sends_as (s : Side) : Direction :=
  match s with Client => HostToArk | Server => ArkToHost end.

Definition receives_as (s : Side) : Direction :=
  match s with Client => ArkToHost | Server => HostToArk end.

(** [Parity] *)
Inductive Parity := Odd | Even.

#[global] Instance Parity_eq_dec : EqDecision Parity.
Proof. solve_decision. Defined.

(** [Parity::of] *)
Definition parity_of (id : Z) : Parity := if decide (id `mod` 2 = 1)%Z then Odd else Even.

(** [Parity::first] *)
Definition parity_first (p : Parity) : Z := match p with Odd => 1 | Even => 2 end.

(** [impl From<Side> for Parity] *)
Definition parity (s : Side) : Parity := match s with Client => Odd | Server => Even end.

(** [MessageKind] *)
Inductive MessageKind := Request | Response.

(** [MessageKind::from_id] *)
Definition from_id (id : Z) (p : Parity) : MessageKind :=
  if decide (parity_of id = p) then Response else Request.

(** [Header] *)
Record Header := MkHeader {
  id : Z;
  failed : bool;
  payload_name : option string;
  unknown : bool;
}.

(** ** Decoding and encoding *)

Section envelope.
Context {Payload : Variant → Type} `{Prost Payload}.

(** The scan for content the schema does not have: any top-level tag in the
    content range. *)
Fixpoint unknown_content (fuel : nat) (rest : list byte) : option bool :=
  match fuel with
  | O => None
  | S fuel =>
      if decide (rest = []) then Some false
      else
        match decode_key rest with
        | None => Some false
        | Some (tag, wire_type, rest) =>
            if decide (0x100 ≤ tag)%Z then Some true
            else
              match skip_field wire_type tag rest with
              | None => Some false
              | Some rest => unknown_content fuel rest
              end
        end
  end.

(** [Option::or] *)
Definition or_else {A} (a b : option A) : option A :=
  match a with Some _ => a | None => b end.

(** [Side::decode_header]; every refusal is logged and becomes [Malformed]. *)
Definition decode_header (side : Side) (bytes : list byte) :
  outcome (result Header Protocol.Error) :=
  match opaque_decode (receives_as side) bytes with
  | Err _ => Ret (Err Protocol.Malformed)
  | Ok (id, failed, payload) =>
      match (if decide (payload = None) then unknown_content (S (length bytes)) bytes
             else Some false) with
      | None => Diverged
      | Some unknown =>
          let header :=
            MkHeader id failed
              (or_else (or_else payload (if unknown then Some "unknown"%string else None))
                 (if failed then Some "err"%string else None)) unknown in
          if decide (bool_decide (is_Some payload) || unknown = failed) then
            Ret (Err Protocol.Malformed)
          else Ret (Ok header)
      end
  end.

(** The free function [encode]. *)
Definition encode_envelope (max_message_size : nat) (d : Direction) (id : Z)
    (body : result (Message Payload) SchemaError) : result (list byte) Protocol.Error :=
  match (match body with
         | Ok body => match try_content d body with
                      | Ok content => Ok (env_encode d id None (Some content))
                      | Err e => Err e
                      end
         | Err error => Ok (env_encode d id (Some error) None)
         end) with
  | Err e => Err e
  | Ok bytes =>
      if decide (max_message_size < length bytes) then
        Err (Protocol.TooLarge (Z.of_nat (length bytes)))
      else Ok bytes
  end.

(** [Side::encode] *)
Definition encode (max_message_size : nat) (side : Side) (id : Z)
    (body : result (Message Payload) SchemaError) : result (list byte) Protocol.Error :=
  encode_envelope max_message_size (sends_as side) id body.

(** [DecodeError] *)
Inductive DecodeError :=
  | Protobuf (e : string)
  | Body.

(** The free function [decode]. *)
Definition decode_envelope (d : Direction) (bytes : list byte) :
  result (Z * result (Message Payload) SchemaError) DecodeError :=
  match env_decode d bytes with
  | Err e => Err (Protobuf e)
  | Ok (id, error, content) =>
      match content, error with
      | Some content, None => Ok (id, Ok (from_content content))
      | None, Some error => Ok (id, Err error)
      | _, _ => Err Body
      end
  end.

(** [Side::decode] *)
Definition decode (side : Side) (bytes : list byte) :
  result (Z * result (Message Payload) SchemaError) DecodeError :=
  decode_envelope (receives_as side) bytes.
End envelope.

(** ** Byte charges *)

(** [ByteCharge::reserve]: the new count. *)
Definition reserve (used bytes limit : Z) : result Z Protocol.Error :=
  match checked_add usize_max used bytes with
  | Some total => if decide (total ≤ limit)%Z then Ok total
                  else Err (Protocol.InboundByteLimitExceeded limit)
  | None => Err (Protocol.InboundByteLimitExceeded limit)
  end.

(** [ByteCharge::drop], in the wrapping arithmetic of [fetch_sub]. *)
Definition release (used bytes : Z) : Z := ((used - bytes) `mod` 2 ^ 64)%Z.

(** ** Lemmas *)

Lemma receives_peer s : receives_as (peer s) = sends_as s.
Proof. by destruct s. Qed.

Lemma parity_of_add2 id : parity_of (id + 2) = parity_of id.
Proof.
  unfold parity_of. replace (id + 2)%Z with (id + 1 * 2)%Z by lia.
  by rewrite Z_mod_plus_full.
Qed.

Lemma parity_of_first p : parity_of (parity_first p) = p.
Proof. by destruct p. Qed.

Lemma parity_peer s : parity (peer s) ≠ parity s.
Proof. by destruct s. Qed.

Lemma from_id_own s id : parity_of id = parity s → from_id id (parity s) = Response.
Proof. intros. unfold from_id. by rewrite decide_True. Qed.

Lemma from_id_peer s id : parity_of id = parity s → from_id id (parity (peer s)) = Request.
Proof.
  intros Hp. unfold from_id. rewrite decide_False; [done|]. rewrite Hp.
  intros E. by apply (parity_peer s).
Qed.

Lemma release_reserve used bytes limit total :
  (0 ≤ used ≤ usize_max)%Z → reserve used bytes limit = Ok total →
  total = (used + bytes)%Z ∧ (total ≤ limit)%Z ∧ (total ≤ usize_max)%Z
  ∧ release total bytes = used.
Proof.
  intros Hu. unfold reserve. destruct (checked_add _ _ _) as [t|] eqn:E; [|done].
  apply checked_add_Some in E as [-> Hmax]. case_decide; [|done]. intros [= <-].
  split_and!; [done|done|done|]. unfold release, usize_max in *.
  replace (used + bytes - bytes)%Z with used by lia. apply Z.mod_small. lia.
Qed.

Section envelope_lemmas.
Context {Payload : Variant → Type} `{ProstLaws Payload}.

Lemma unknown_content_total fuel rest : length rest < fuel → is_Some (unknown_content fuel rest).
Proof.
  revert rest. induction fuel as [|fuel IH]; intros rest Hf; [lia|]. simpl.
  case_decide; [eauto|]. destruct (decode_key rest) as [[[tag w] rest']|] eqn:Ek; [|eauto].
  apply decode_key_consumes in Ek. case_decide; [eauto|].
  destruct (skip_field w tag rest') as [rest''|] eqn:Es; [|eauto].
  apply skip_field_consumes in Es. apply IH. lia.
Qed.

Lemma unknown_content_below fuel bs :
  tags_below 0x100 bs → length bs < fuel → unknown_content fuel bs = Some false.
Proof.
  intros Ht. revert fuel. induction Ht as [|bs tag w rest rest' Hk Hlt Hs _ IH];
    intros [|fuel] Hf; try lia; simpl; [done|].
  case_decide; [done|]. rewrite Hk. rewrite decide_False by lia. rewrite Hs.
  apply IH. apply decode_key_consumes in Hk. apply skip_field_consumes in Hs. lia.
Qed.

(** The values that can be sent under an ID. *)
Definition sendable (i : Z) (body : result (Message Payload) SchemaError) : bool :=
  in_range 0 u64_max i
  && match body with Ok m => payload_ok _ (payload m) | Err e => error_ok e end.

(** The body a header was accepted for. *)
Definition one_body (side : Side) (bytes : list byte) (h : Header) : Prop :=
  ∃ content, opaque_decode (receives_as side) bytes = Ok (id h, failed h, content)
    ∧ (is_Some content ∨ unknown h = true ↔ failed h = false)
    ∧ (unknown h = true → content = None).

Lemma decode_header_returns side bytes :
  ∃ r, decode_header side bytes = Ret r
    ∧ match r with
      | Ok h => one_body side bytes h
      | Err e => e = Protocol.Malformed
      end.
Proof.
  unfold decode_header. destruct (opaque_decode _ bytes) as [[[i f] p]|] eqn:Eo;
    [|by eexists].
  destruct (unknown_content_total (S (length bytes)) bytes ltac:(lia)) as [u Hu].
  rewrite Hu. destruct p as [p|].
  - rewrite decide_False by done. simpl. destruct f; simpl; eexists; (split; [done|]); simpl;
      [done|]. exists (Some p). simpl. split_and!; [done| |done]. naive_solver.
  - rewrite decide_True by done. simpl.
    destruct u, f; simpl; eexists; (split; [done|]); simpl; try done;
      exists None; simpl; split_and!; try done; split; naive_solver.
Qed.
End envelope_lemmas.

(** ** A concrete coding, of empty payloads

    The fields counted and written in binary, a byte per bit; it only shows that
    the interface's laws can hold together. *)
Module Plain.

Definition Payload (v : Variant) : Type := unit.

Definition field_index (f : Field) : nat :=
  default 0 (find_index (λ g, bool_decide (g = f)) fields).

#[global] Instance Field_countable : Countable Field.
Proof.
  refine (inj_countable' field_index (λ i, default FOnboard (fields !! i)) _).
  by intros [].
Defined.

#[global] Instance SchemaError_countable : Countable SchemaError.
Proof.
  refine (inj_countable' (λ e, (code e, msg e)) (λ p, MkSchemaError p.1 p.2) _).
  by intros [].
Defined.

Fixpoint bits (p : positive) : list byte :=
  match p with
  | xH => []
  | xO p => Byte.x00 :: bits p
  | xI p => Byte.x01 :: bits p
  end.

Fixpoint unbits (bs : list byte) : positive :=
  match bs with
  | [] => xH
  | b :: bs => if is_zero b then xO (unbits bs) else xI (unbits bs)
  end.

Lemma unbits_bits p : unbits (bits p) = p.
Proof. induction p as [p IH|p IH|]; simpl; by rewrite ?IH. Qed.

Definition fields_of (bs : list byte) : option (Z * option SchemaError * option Field) :=
  countable.decode (unbits bs).

#[global] Instance prost : Prost Payload := {
  payload_ok _ _ := true;
  env_encode d id err content :=
    bits (countable.encode (id, err, field (d:=d) <$> content));
  env_decode d bs :=
    match fields_of bs with
    | Some (id, err, f) => Ok (id, err, (λ f, MkContent (Payload:=Payload) (d:=d) f tt) <$> f)
    | None => Err "invalid protobuf"%string
    end;
  opaque_decode d bs :=
    match fields_of bs with
    | Some (id, err, f) =>
        Ok (id, bool_decide (is_Some err), (λ f, field_name (body_of_field d f)) <$> f)
    | None => Err "invalid protobuf"%string
    end;
  WireType := unit;
  decode_key bs := match bs with [] => None | _ :: rest => Some (1%Z, tt, rest) end;
  skip_field _ _ bs := Some bs;
}.

Lemma fields_of_bits x : fields_of (bits (countable.encode x)) = Some x.
Proof. unfold fields_of. by rewrite unbits_bits, countable.decode_encode. Qed.

#[global] Instance prost_laws : ProstLaws Payload.
Proof.
  split; simpl.
  - intros d id err content _ _. rewrite fields_of_bits.
    destruct content as [[f []]|]; reflexivity.
  - intros d id err content _ _. rewrite fields_of_bits. by destruct content.
  - intros d id err _ _. induction (bits _) as [|b bs IH]; [constructor|].
    by eapply tags_cons.
  - intros [|b bs] tag w rest; [done|]. intros [= _ _ <-]. simpl. lia.
  - intros w tag bs rest [= <-]. done.
Qed.
End Plain.

Lemma encode_decodes {Payload : Variant → Type} `{ProstLaws Payload} (max : nat)
    (side : Side) (i : Z) (body : result (Message Payload) SchemaError)
    (bytes : list byte) :
  sendable i body = true → (Z.of_nat max ≤ usize_max)%Z →
  encode max side i body = Ok bytes →
  length bytes ≤ max ∧ decode (peer side) bytes = Ok (i, body)
  ∧ decode_header (peer side) bytes
    = Ret (Ok (MkHeader i (is_err body)
                 (Some (match body with
                        | Ok m => field_name (variant m)
                        | Err _ => "err"%string
                        end)) false)).
Proof.
  unfold encode, encode_envelope, decode, decode_envelope, decode_header.
  rewrite receives_peer. set (d := sends_as side). unfold sendable.
  intros [Hi Hb]%andb_true_iff Hmax. destruct body as [m|e].
  - destruct (try_content d m) as [c|] eqn:Ec; [|done]. case_decide; [done|].
    intros [= <-]. apply try_fields_Ok in Ec as [<- _].
    assert (envelope_ok i None (Some c) = true) as Hok
      by (unfold envelope_ok; by rewrite Hi).
    rewrite Envelope.decode_encode, opaque_decode_encode by (done || lia). simpl.
    split_and!; [lia|done|done].
  - case_decide; [done|]. intros [= <-].
    assert (envelope_ok (d:=d) i (Some e) None = true) as Hok
      by (unfold envelope_ok; by rewrite Hi, Hb).
    rewrite Envelope.decode_encode, opaque_decode_encode by (done || lia).
    cbn [fmap option_fmap option_map].
    rewrite decide_True, unknown_content_below; [|apply no_content_tags; [done|lia]|lia|done].
    split_and!; [lia|done|done].
Qed.

(** ** What envelopes guarantee *)

(** C36: Envelopes round trip. What one side encodes within the sending limit, of values
    that their types can hold, the other decodes to the same ID and body, and its routing header says the same
    ID, whether it is an error, and that its content is known. *)
Theorem envelope_round_trip {Payload : Variant → Type} `{ProstLaws Payload} (max : nat)
    (side : Side) (i : Z) (body : result (Message Payload) SchemaError)
    (bytes : list byte) :
  sendable i body = true → (Z.of_nat max ≤ usize_max)%Z →
  encode max side i body = Ok bytes →
  length bytes ≤ max ∧ decode (peer side) bytes = Ok (i, body)
  ∧ decode_header (peer side) bytes
    = Ret (Ok (MkHeader i (is_err body)
                 (Some (match body with
                        | Ok m => field_name (variant m)
                        | Err _ => "err"%string
                        end)) false)).
Proof. apply encode_decodes. Qed.

Lemma envelope_round_trip_witness :
  let body := Ok (MkMessage (Payload:=Plain.Payload) VDeviceInfoRequest tt) in
  match encode 1000 Client 7 body with
  | Ok bytes =>
      length bytes ≤ 1000 ∧ decode Server bytes = Ok (7%Z, body)
      ∧ decode_header Server bytes
        = Ret (Ok (MkHeader 7 false (Some "device_info"%string) false))
  | Err _ => False
  end.
Proof.
  apply (envelope_round_trip 1000 Client 7
    (Ok (MkMessage (Payload:=Plain.Payload) VDeviceInfoRequest tt))); try (vm_compute; reflexivity).
  vm_compute. discriminate.
Defined.

(** Routing is total and unambiguous. Every byte string is classified or
    refused as malformed, without running on; an accepted header has the ID and
    error flag of the envelope and exactly one body, content or an error, and
    calls content unknown only where the schema knows none. *)
Theorem header_has_one_body {Payload : Variant → Type} `{ProstLaws Payload} (side : Side)
    (bytes : list byte) :
  ∃ r, decode_header side bytes = Ret r
    ∧ match r with
      | Ok h => one_body side bytes h
      | Err e => e = Protocol.Malformed
      end.
Proof. apply decode_header_returns. Qed.

Lemma header_has_one_body_witness :
  ∃ r, decode_header (Payload:=Plain.Payload) Client [] = Ret r
    ∧ match r with
      | Ok h => one_body (Payload:=Plain.Payload) Client [] h
      | Err e => e = Protocol.Malformed
      end.
Proof. apply header_has_one_body. Defined.
