(* ===== verification/SchemaContent.v ===== *)
(** * Contents of the envelopes ([protocol/generated/])

    The payload of each body, and the alternatives of the [content] oneof in both
    directions: those of the schema ([darkbio.wire.rs]), those of the routing view
    that leaves payloads encoded ([darkbio.wire.opaque.rs]), and the latter's names
    ([darkbio.wire.names.rs]). *)

From S2P Require Import Prelude Message Protobuf Schema.
#[local] Open Scope Z_scope.

(** ** Payloads *)

(** The payload of each variant of [Message]. *)
Definition Payload (v : Variant) : Type :=
  match v with
  | VCloudSyncFinishRequest => CloudSyncFinishRequest.t
  | VCloudSyncFinishResponse => CloudSyncFinishResponse.t
  | VCloudSyncStartRequest => CloudSyncStartRequest.t
  | VCloudSyncStartResponse => CloudSyncStartResponse.t
  | VDatasetPathsRequest => DatasetPathsRequest.t
  | VDatasetPathsResponse => DatasetPathsResponse.t
  | VDevelop => list byte
  | VDeviceInfoRequest => DeviceInfoRequest.t
  | VDeviceInfoResponse => DeviceInfoResponse.t
  | VExecutionCancelRequest => ExecutionCancelRequest.t
  | VExecutionCancelResponse => ExecutionCancelResponse.t
  | VExecutionCreateRequest => ExecutionCreateRequest.t
  | VExecutionCreateResponse => ExecutionCreateResponse.t
  | VExecutionLoadRequest => ExecutionLoadRequest.t
  | VExecutionLoadResponse => ExecutionLoadResponse.t
  | VExecutionModuleReadRequest => ExecutionModuleReadRequest.t
  | VExecutionModuleReadResponse => ExecutionModuleReadResponse.t
  | VExecutionModuleSizeRequest => ExecutionModuleSizeRequest.t
  | VExecutionModuleSizeResponse => ExecutionModuleSizeResponse.t
  | VExecutionOutputRequest => ExecutionOutputRequest.t
  | VExecutionOutputResponse => ExecutionOutputResponse.t
  | VExecutionResultRequest => ExecutionResultRequest.t
  | VExecutionResultResponse => ExecutionResultResponse.t
  | VExecutionStartRequest => ExecutionStartRequest.t
  | VExecutionStartResponse => ExecutionStartResponse.t
  | VExecutionStatusRequest => ExecutionStatusRequest.t
  | VExecutionStatusResponse => ExecutionStatusResponse.t
  | VFirmwareUpdateInitRequest => FirmwareUpdateInitRequest.t
  | VFirmwareUpdateInitResponse => FirmwareUpdateInitResponse.t
  | VFirmwareUpdateInstallRequest => FirmwareUpdateInstallRequest.t
  | VFirmwareUpdateInstallResponse => FirmwareUpdateInstallResponse.t
  | VFirmwareUpdatePrepRequest => FirmwareUpdatePrepRequest.t
  | VFirmwareUpdatePrepResponse => FirmwareUpdatePrepResponse.t
  | VFirmwareUpdateUploadRequest => FirmwareUpdateUploadRequest.t
  | VFirmwareUpdateUploadResponse => FirmwareUpdateUploadResponse.t
  | VFirmwareUpdateVerifyRequest => FirmwareUpdateVerifyRequest.t
  | VFirmwareUpdateVerifyResponse => FirmwareUpdateVerifyResponse.t
  | VGenuinityProofRequest => GenuinityProofRequest.t
  | VGenuinityProofResponse => GenuinityProofResponse.t
  | VOnboardingRequest => OnboardingRequest.t
  | VOnboardingResponse => OnboardingResponse.t
  | VPairingAcceptanceRequest => PairingAcceptanceRequest.t
  | VPairingAcceptanceResponse => PairingAcceptanceResponse.t
  | VPairingAckArkStorageRequest => PairingAckArkStorageRequest.t
  | VPairingAckArkStorageResponse => PairingAckArkStorageResponse.t
  | VPairingAuthRequest => PairingAuthRequest.t
  | VPairingAuthResponse => PairingAuthResponse.t
  | VPairingCompletionRequest => PairingCompletionRequest.t
  | VPairingCompletionResponse => PairingCompletionResponse.t
  | VPairingSetAppIdentityRequest => PairingSetAppIdentityRequest.t
  | VPairingSetAppIdentityResponse => PairingSetAppIdentityResponse.t
  | VPairingSetAppStorageRequest => PairingSetAppStorageRequest.t
  | VPairingSetAppStorageResponse => PairingSetAppStorageResponse.t
  | VRelayInboundRequest => RelayInboundRequest.t
  | VRelayInboundResponse => RelayInboundResponse.t
  | VRelayJoinRequest => RelayJoinRequest.t
  | VRelayJoinResponse => RelayJoinResponse.t
  | VRelayOutboundRequest => RelayOutboundRequest.t
  | VRelayOutboundResponse => RelayOutboundResponse.t
  | VSlotDeleteRequest => SlotDeleteRequest.t
  | VSlotDeleteResponse => SlotDeleteResponse.t
  | VSlotIdentifyRequest => SlotIdentifyRequest.t
  | VSlotIdentifyResponse => SlotIdentifyResponse.t
  | VSlotListRequest => SlotListRequest.t
  | VSlotListResponse => SlotListResponse.t
  | VSlotRepairRequest => SlotRepairRequest.t
  | VSlotRepairResponse => SlotRepairResponse.t
  | VSlotUploadCancelRequest => SlotUploadCancelRequest.t
  | VSlotUploadCancelResponse => SlotUploadCancelResponse.t
  | VSlotUploadChunkRequest => SlotUploadChunkRequest.t
  | VSlotUploadChunkResponse => SlotUploadChunkResponse.t
  | VSlotUploadProcessRequest => SlotUploadProcessRequest.t
  | VSlotUploadProcessResponse => SlotUploadProcessResponse.t
  | VSlotUploadStartRequest => SlotUploadStartRequest.t
  | VSlotUploadStartResponse => SlotUploadStartResponse.t
  | VUnlockRequest => UnlockRequest.t
  | VUnlockResponse => UnlockResponse.t
  end.

(** How a payload is nested in an envelope: as a message, or as bytes of its own. *)
Definition payload_elem (v : Variant) : Elem (Payload v) :=
  match v with
  | VCloudSyncFinishRequest => nested CloudSyncFinishRequest.layout
  | VCloudSyncFinishResponse => nested CloudSyncFinishResponse.layout
  | VCloudSyncStartRequest => nested CloudSyncStartRequest.layout
  | VCloudSyncStartResponse => nested CloudSyncStartResponse.layout
  | VDatasetPathsRequest => nested DatasetPathsRequest.layout
  | VDatasetPathsResponse => nested DatasetPathsResponse.layout
  | VDevelop => blob
  | VDeviceInfoRequest => nested DeviceInfoRequest.layout
  | VDeviceInfoResponse => nested DeviceInfoResponse.layout
  | VExecutionCancelRequest => nested ExecutionCancelRequest.layout
  | VExecutionCancelResponse => nested ExecutionCancelResponse.layout
  | VExecutionCreateRequest => nested ExecutionCreateRequest.layout
  | VExecutionCreateResponse => nested ExecutionCreateResponse.layout
  | VExecutionLoadRequest => nested ExecutionLoadRequest.layout
  | VExecutionLoadResponse => nested ExecutionLoadResponse.layout
  | VExecutionModuleReadRequest => nested ExecutionModuleReadRequest.layout
  | VExecutionModuleReadResponse => nested ExecutionModuleReadResponse.layout
  | VExecutionModuleSizeRequest => nested ExecutionModuleSizeRequest.layout
  | VExecutionModuleSizeResponse => nested ExecutionModuleSizeResponse.layout
  | VExecutionOutputRequest => nested ExecutionOutputRequest.layout
  | VExecutionOutputResponse => nested ExecutionOutputResponse.layout
  | VExecutionResultRequest => nested ExecutionResultRequest.layout
  | VExecutionResultResponse => nested ExecutionResultResponse.layout
  | VExecutionStartRequest => nested ExecutionStartRequest.layout
  | VExecutionStartResponse => nested ExecutionStartResponse.layout
  | VExecutionStatusRequest => nested ExecutionStatusRequest.layout
  | VExecutionStatusResponse => nested ExecutionStatusResponse.layout
  | VFirmwareUpdateInitRequest => nested FirmwareUpdateInitRequest.layout
  | VFirmwareUpdateInitResponse => nested FirmwareUpdateInitResponse.layout
  | VFirmwareUpdateInstallRequest => nested FirmwareUpdateInstallRequest.layout
  | VFirmwareUpdateInstallResponse => nested FirmwareUpdateInstallResponse.layout
  | VFirmwareUpdatePrepRequest => nested FirmwareUpdatePrepRequest.layout
  | VFirmwareUpdatePrepResponse => nested FirmwareUpdatePrepResponse.layout
  | VFirmwareUpdateUploadRequest => nested FirmwareUpdateUploadRequest.layout
  | VFirmwareUpdateUploadResponse => nested FirmwareUpdateUploadResponse.layout
  | VFirmwareUpdateVerifyRequest => nested FirmwareUpdateVerifyRequest.layout
  | VFirmwareUpdateVerifyResponse => nested FirmwareUpdateVerifyResponse.layout
  | VGenuinityProofRequest => nested GenuinityProofRequest.layout
  | VGenuinityProofResponse => nested GenuinityProofResponse.layout
  | VOnboardingRequest => nested OnboardingRequest.layout
  | VOnboardingResponse => nested OnboardingResponse.layout
  | VPairingAcceptanceRequest => nested PairingAcceptanceRequest.layout
  | VPairingAcceptanceResponse => nested PairingAcceptanceResponse.layout
  | VPairingAckArkStorageRequest => nested PairingAckArkStorageRequest.layout
  | VPairingAckArkStorageResponse => nested PairingAckArkStorageResponse.layout
  | VPairingAuthRequest => nested PairingAuthRequest.layout
  | VPairingAuthResponse => nested PairingAuthResponse.layout
  | VPairingCompletionRequest => nested PairingCompletionRequest.layout
  | VPairingCompletionResponse => nested PairingCompletionResponse.layout
  | VPairingSetAppIdentityRequest => nested PairingSetAppIdentityRequest.layout
  | VPairingSetAppIdentityResponse => nested PairingSetAppIdentityResponse.layout
  | VPairingSetAppStorageRequest => nested PairingSetAppStorageRequest.layout
  | VPairingSetAppStorageResponse => nested PairingSetAppStorageResponse.layout
  | VRelayInboundRequest => nested RelayInboundRequest.layout
  | VRelayInboundResponse => nested RelayInboundResponse.layout
  | VRelayJoinRequest => nested RelayJoinRequest.layout
  | VRelayJoinResponse => nested RelayJoinResponse.layout
  | VRelayOutboundRequest => nested RelayOutboundRequest.layout
  | VRelayOutboundResponse => nested RelayOutboundResponse.layout
  | VSlotDeleteRequest => nested SlotDeleteRequest.layout
  | VSlotDeleteResponse => nested SlotDeleteResponse.layout
  | VSlotIdentifyRequest => nested SlotIdentifyRequest.layout
  | VSlotIdentifyResponse => nested SlotIdentifyResponse.layout
  | VSlotListRequest => nested SlotListRequest.layout
  | VSlotListResponse => nested SlotListResponse.layout
  | VSlotRepairRequest => nested SlotRepairRequest.layout
  | VSlotRepairResponse => nested SlotRepairResponse.layout
  | VSlotUploadCancelRequest => nested SlotUploadCancelRequest.layout
  | VSlotUploadCancelResponse => nested SlotUploadCancelResponse.layout
  | VSlotUploadChunkRequest => nested SlotUploadChunkRequest.layout
  | VSlotUploadChunkResponse => nested SlotUploadChunkResponse.layout
  | VSlotUploadProcessRequest => nested SlotUploadProcessRequest.layout
  | VSlotUploadProcessResponse => nested SlotUploadProcessResponse.layout
  | VSlotUploadStartRequest => nested SlotUploadStartRequest.layout
  | VSlotUploadStartResponse => nested SlotUploadStartResponse.layout
  | VUnlockRequest => nested UnlockRequest.layout
  | VUnlockResponse => nested UnlockResponse.layout
  end.

Definition payload_bytes (v : Variant) (p : Payload v) : list byte :=
  match e_raw (payload_elem v) p with RBytes bs => bs | _ => [] end.

(** ** The schema *)

(** [host_to_ark::Content] *)
Definition host_content (f : Field) : Kind (option (Payload (host_variant f))) :=
  match f with
  | FOnboard => message 256 OnboardingRequest.layout
  | FDeviceInfo => message 257 DeviceInfoRequest.layout
  | FCloudSyncStart => message 258 CloudSyncStartRequest.layout
  | FCloudSyncFinish => message 259 CloudSyncFinishRequest.layout
  | FGenuinityProof => message 260 GenuinityProofRequest.layout
  | FFirmwareUpdatePrep => message 513 FirmwareUpdatePrepRequest.layout
  | FFirmwareUpdateInit => message 514 FirmwareUpdateInitRequest.layout
  | FFirmwareUpdateUpload => message 515 FirmwareUpdateUploadRequest.layout
  | FFirmwareUpdateVerify => message 516 FirmwareUpdateVerifyRequest.layout
  | FFirmwareUpdateInstall => message 517 FirmwareUpdateInstallRequest.layout
  | FPairingAuth => message 769 PairingAuthRequest.layout
  | FPairingSetAppId => message 770 PairingSetAppIdentityRequest.layout
  | FPairingSetAppStorage => message 771 PairingSetAppStorageRequest.layout
  | FPairingAckArkStorage => message 772 PairingAckArkStorageRequest.layout
  | FPairingAccept => message 773 PairingAcceptanceRequest.layout
  | FPairingComplete => message 774 PairingCompletionRequest.layout
  | FRelayJoin => message 1025 RelayJoinRequest.layout
  | FRelayInbound => message 1026 RelayInboundRequest.layout
  | FRelayOutbound => message 1027 RelayOutboundResponse.layout
  | FUnlock => message 1281 UnlockRequest.layout
  | FExecCreate => message 1282 ExecutionCreateRequest.layout
  | FExecLoad => message 1283 ExecutionLoadRequest.layout
  | FExecStart => message 1284 ExecutionStartRequest.layout
  | FExecStatus => message 1285 ExecutionStatusRequest.layout
  | FExecCancel => message 1286 ExecutionCancelRequest.layout
  | FExecResult => message 1287 ExecutionResultRequest.layout
  | FExecOutput => message 1288 ExecutionOutputRequest.layout
  | FExecModuleSize => message 1289 ExecutionModuleSizeResponse.layout
  | FExecModuleRead => message 1290 ExecutionModuleReadResponse.layout
  | FSlotList => message 1537 SlotListRequest.layout
  | FSlotRepair => message 1538 SlotRepairRequest.layout
  | FSlotDelete => message 1539 SlotDeleteRequest.layout
  | FSlotIdentify => message 1540 SlotIdentifyRequest.layout
  | FSlotUploadStart => message 1541 SlotUploadStartRequest.layout
  | FSlotUploadChunk => message 1542 SlotUploadChunkRequest.layout
  | FSlotUploadCancel => message 1543 SlotUploadCancelRequest.layout
  | FSlotUploadProcess => message 1544 SlotUploadProcessRequest.layout
  | FDatasetPaths => message 1793 DatasetPathsRequest.layout
  | FDevelop => optional 4096 blob
  end.

(** [ark_to_host::Content] *)
Definition ark_content (f : Field) : Kind (option (Payload (ark_variant f))) :=
  match f with
  | FOnboard => message 256 OnboardingResponse.layout
  | FDeviceInfo => message 257 DeviceInfoResponse.layout
  | FCloudSyncStart => message 258 CloudSyncStartResponse.layout
  | FCloudSyncFinish => message 259 CloudSyncFinishResponse.layout
  | FGenuinityProof => message 260 GenuinityProofResponse.layout
  | FFirmwareUpdatePrep => message 513 FirmwareUpdatePrepResponse.layout
  | FFirmwareUpdateInit => message 514 FirmwareUpdateInitResponse.layout
  | FFirmwareUpdateUpload => message 515 FirmwareUpdateUploadResponse.layout
  | FFirmwareUpdateVerify => message 516 FirmwareUpdateVerifyResponse.layout
  | FFirmwareUpdateInstall => message 517 FirmwareUpdateInstallResponse.layout
  | FPairingAuth => message 769 PairingAuthResponse.layout
  | FPairingSetAppId => message 770 PairingSetAppIdentityResponse.layout
  | FPairingSetAppStorage => message 771 PairingSetAppStorageResponse.layout
  | FPairingAckArkStorage => message 772 PairingAckArkStorageResponse.layout
  | FPairingAccept => message 773 PairingAcceptanceResponse.layout
  | FPairingComplete => message 774 PairingCompletionResponse.layout
  | FRelayJoin => message 1025 RelayJoinResponse.layout
  | FRelayInbound => message 1026 RelayInboundResponse.layout
  | FRelayOutbound => message 1027 RelayOutboundRequest.layout
  | FUnlock => message 1281 UnlockResponse.layout
  | FExecCreate => message 1282 ExecutionCreateResponse.layout
  | FExecLoad => message 1283 ExecutionLoadResponse.layout
  | FExecStart => message 1284 ExecutionStartResponse.layout
  | FExecStatus => message 1285 ExecutionStatusResponse.layout
  | FExecCancel => message 1286 ExecutionCancelResponse.layout
  | FExecResult => message 1287 ExecutionResultResponse.layout
  | FExecOutput => message 1288 ExecutionOutputResponse.layout
  | FExecModuleSize => message 1289 ExecutionModuleSizeRequest.layout
  | FExecModuleRead => message 1290 ExecutionModuleReadRequest.layout
  | FSlotList => message 1537 SlotListResponse.layout
  | FSlotRepair => message 1538 SlotRepairResponse.layout
  | FSlotDelete => message 1539 SlotDeleteResponse.layout
  | FSlotIdentify => message 1540 SlotIdentifyResponse.layout
  | FSlotUploadStart => message 1541 SlotUploadStartResponse.layout
  | FSlotUploadChunk => message 1542 SlotUploadChunkResponse.layout
  | FSlotUploadCancel => message 1543 SlotUploadCancelResponse.layout
  | FSlotUploadProcess => message 1544 SlotUploadProcessResponse.layout
  | FDatasetPaths => message 1793 DatasetPathsResponse.layout
  | FDevelop => optional 4096 blob
  end.

(** The tags of the oneof, [HostToArk::content]. *)
Definition host_tags : list Z :=
  [256; 257; 258; 259; 260; 513; 514; 515; 516; 517; 769; 770; 771; 772; 773; 774; 1025;
   1026; 1027; 1281; 1282; 1283; 1284; 1285; 1286; 1287; 1288; 1289; 1290; 1537; 1538; 1539;
   1540; 1541; 1542; 1543; 1544; 1793; 4096].

(** The tags of the oneof, [ArkToHost::content]. *)
Definition ark_tags : list Z :=
  [256; 257; 258; 259; 260; 513; 514; 515; 516; 517; 769; 770; 771; 772; 773; 774; 1025;
   1026; 1027; 1281; 1282; 1283; 1284; 1285; 1286; 1287; 1288; 1289; 1290; 1537; 1538; 1539;
   1540; 1541; 1542; 1543; 1544; 1793; 4096].

(** ** The routing view *)

(** [opaque::host_to_ark::Content] *)
Definition opaque_host_content (f : Field) : Kind (option (list byte)) :=
  match f with
  | FOnboard => optional 256 blob
  | FDeviceInfo => optional 257 blob
  | FCloudSyncStart => optional 258 blob
  | FCloudSyncFinish => optional 259 blob
  | FGenuinityProof => optional 260 blob
  | FFirmwareUpdatePrep => optional 513 blob
  | FFirmwareUpdateInit => optional 514 blob
  | FFirmwareUpdateUpload => optional 515 blob
  | FFirmwareUpdateVerify => optional 516 blob
  | FFirmwareUpdateInstall => optional 517 blob
  | FPairingAuth => optional 769 blob
  | FPairingSetAppId => optional 770 blob
  | FPairingSetAppStorage => optional 771 blob
  | FPairingAckArkStorage => optional 772 blob
  | FPairingAccept => optional 773 blob
  | FPairingComplete => optional 774 blob
  | FRelayJoin => optional 1025 blob
  | FRelayInbound => optional 1026 blob
  | FRelayOutbound => optional 1027 blob
  | FUnlock => optional 1281 blob
  | FExecCreate => optional 1282 blob
  | FExecLoad => optional 1283 blob
  | FExecStart => optional 1284 blob
  | FExecStatus => optional 1285 blob
  | FExecCancel => optional 1286 blob
  | FExecResult => optional 1287 blob
  | FExecOutput => optional 1288 blob
  | FExecModuleSize => optional 1289 blob
  | FExecModuleRead => optional 1290 blob
  | FSlotList => optional 1537 blob
  | FSlotRepair => optional 1538 blob
  | FSlotDelete => optional 1539 blob
  | FSlotIdentify => optional 1540 blob
  | FSlotUploadStart => optional 1541 blob
  | FSlotUploadChunk => optional 1542 blob
  | FSlotUploadCancel => optional 1543 blob
  | FSlotUploadProcess => optional 1544 blob
  | FDatasetPaths => optional 1793 blob
  | FDevelop => optional 4096 blob
  end.

(** [opaque::ark_to_host::Content] *)
Definition opaque_ark_content (f : Field) : Kind (option (list byte)) :=
  match f with
  | FOnboard => optional 256 blob
  | FDeviceInfo => optional 257 blob
  | FCloudSyncStart => optional 258 blob
  | FCloudSyncFinish => optional 259 blob
  | FGenuinityProof => optional 260 blob
  | FFirmwareUpdatePrep => optional 513 blob
  | FFirmwareUpdateInit => optional 514 blob
  | FFirmwareUpdateUpload => optional 515 blob
  | FFirmwareUpdateVerify => optional 516 blob
  | FFirmwareUpdateInstall => optional 517 blob
  | FPairingAuth => optional 769 blob
  | FPairingSetAppId => optional 770 blob
  | FPairingSetAppStorage => optional 771 blob
  | FPairingAckArkStorage => optional 772 blob
  | FPairingAccept => optional 773 blob
  | FPairingComplete => optional 774 blob
  | FRelayJoin => optional 1025 blob
  | FRelayInbound => optional 1026 blob
  | FRelayOutbound => optional 1027 blob
  | FUnlock => optional 1281 blob
  | FExecCreate => optional 1282 blob
  | FExecLoad => optional 1283 blob
  | FExecStart => optional 1284 blob
  | FExecStatus => optional 1285 blob
  | FExecCancel => optional 1286 blob
  | FExecResult => optional 1287 blob
  | FExecOutput => optional 1288 blob
  | FExecModuleSize => optional 1289 blob
  | FExecModuleRead => optional 1290 blob
  | FSlotList => optional 1537 blob
  | FSlotRepair => optional 1538 blob
  | FSlotDelete => optional 1539 blob
  | FSlotIdentify => optional 1540 blob
  | FSlotUploadStart => optional 1541 blob
  | FSlotUploadChunk => optional 1542 blob
  | FSlotUploadCancel => optional 1543 blob
  | FSlotUploadProcess => optional 1544 blob
  | FDatasetPaths => optional 1793 blob
  | FDevelop => optional 4096 blob
  end.

(** The tags of the oneof, [opaque::HostToArk::content]. *)
Definition opaque_host_tags : list Z :=
  [256; 257; 258; 259; 260; 513; 514; 515; 516; 517; 769; 770; 771; 772; 773; 774; 1025;
   1026; 1027; 1281; 1282; 1283; 1284; 1285; 1286; 1287; 1288; 1289; 1290; 1537; 1538; 1539;
   1540; 1541; 1542; 1543; 1544; 1793; 4096].

(** The tags of the oneof, [opaque::ArkToHost::content]. *)
Definition opaque_ark_tags : list Z :=
  [256; 257; 258; 259; 260; 513; 514; 515; 516; 517; 769; 770; 771; 772; 773; 774; 1025;
   1026; 1027; 1281; 1282; 1283; 1284; 1285; 1286; 1287; 1288; 1289; 1290; 1537; 1538; 1539;
   1540; 1541; 1542; 1543; 1544; 1793; 4096].

(** [opaque::host_to_ark::Content::name] *)
Definition host_name (f : Field) : string :=
  match f with
  | FOnboard => "onboard"
  | FDeviceInfo => "device_info"
  | FCloudSyncStart => "cloud_sync_start"
  | FCloudSyncFinish => "cloud_sync_finish"
  | FGenuinityProof => "genuinity_proof"
  | FFirmwareUpdatePrep => "firmware_update_prep"
  | FFirmwareUpdateInit => "firmware_update_init"
  | FFirmwareUpdateUpload => "firmware_update_upload"
  | FFirmwareUpdateVerify => "firmware_update_verify"
  | FFirmwareUpdateInstall => "firmware_update_install"
  | FPairingAuth => "pairing_auth"
  | FPairingSetAppId => "pairing_set_app_id"
  | FPairingSetAppStorage => "pairing_set_app_storage"
  | FPairingAckArkStorage => "pairing_ack_ark_storage"
  | FPairingAccept => "pairing_accept"
  | FPairingComplete => "pairing_complete"
  | FRelayJoin => "relay_join"
  | FRelayInbound => "relay_inbound"
  | FRelayOutbound => "relay_outbound"
  | FUnlock => "unlock"
  | FExecCreate => "exec_create"
  | FExecLoad => "exec_load"
  | FExecStart => "exec_start"
  | FExecStatus => "exec_status"
  | FExecCancel => "exec_cancel"
  | FExecResult => "exec_result"
  | FExecOutput => "exec_output"
  | FExecModuleSize => "exec_module_size"
  | FExecModuleRead => "exec_module_read"
  | FSlotList => "slot_list"
  | FSlotRepair => "slot_repair"
  | FSlotDelete => "slot_delete"
  | FSlotIdentify => "slot_identify"
  | FSlotUploadStart => "slot_upload_start"
  | FSlotUploadChunk => "slot_upload_chunk"
  | FSlotUploadCancel => "slot_upload_cancel"
  | FSlotUploadProcess => "slot_upload_process"
  | FDatasetPaths => "dataset_paths"
  | FDevelop => "develop"
  end.

(** [opaque::ark_to_host::Content::name] *)
Definition ark_name (f : Field) : string :=
  match f with
  | FOnboard => "onboard"
  | FDeviceInfo => "device_info"
  | FCloudSyncStart => "cloud_sync_start"
  | FCloudSyncFinish => "cloud_sync_finish"
  | FGenuinityProof => "genuinity_proof"
  | FFirmwareUpdatePrep => "firmware_update_prep"
  | FFirmwareUpdateInit => "firmware_update_init"
  | FFirmwareUpdateUpload => "firmware_update_upload"
  | FFirmwareUpdateVerify => "firmware_update_verify"
  | FFirmwareUpdateInstall => "firmware_update_install"
  | FPairingAuth => "pairing_auth"
  | FPairingSetAppId => "pairing_set_app_id"
  | FPairingSetAppStorage => "pairing_set_app_storage"
  | FPairingAckArkStorage => "pairing_ack_ark_storage"
  | FPairingAccept => "pairing_accept"
  | FPairingComplete => "pairing_complete"
  | FRelayJoin => "relay_join"
  | FRelayInbound => "relay_inbound"
  | FRelayOutbound => "relay_outbound"
  | FUnlock => "unlock"
  | FExecCreate => "exec_create"
  | FExecLoad => "exec_load"
  | FExecStart => "exec_start"
  | FExecStatus => "exec_status"
  | FExecCancel => "exec_cancel"
  | FExecResult => "exec_result"
  | FExecOutput => "exec_output"
  | FExecModuleSize => "exec_module_size"
  | FExecModuleRead => "exec_module_read"
  | FSlotList => "slot_list"
  | FSlotRepair => "slot_repair"
  | FSlotDelete => "slot_delete"
  | FSlotIdentify => "slot_identify"
  | FSlotUploadStart => "slot_upload_start"
  | FSlotUploadChunk => "slot_upload_chunk"
  | FSlotUploadCancel => "slot_upload_cancel"
  | FSlotUploadProcess => "slot_upload_process"
  | FDatasetPaths => "dataset_paths"
  | FDevelop => "develop"
  end.
