(* ===== verification/SchemaCodec.v ===== *)
(** * The schema's envelopes on the wire ([protocol/generated/], [protocol/envelope.rs])

    The two envelopes and their routing views put together from their contents,
    and the coding of them that the protobuf format prescribes, as an instance of
    the interface the sessions are verified against. *)

From Stdlib Require Import Strings.Byte.
From S2P Require Import Prelude Io Message Protobuf Schema SchemaContent Envelope.
#[local] Open Scope Z_scope.

(** ** Envelopes *)

Definition contents (d : Direction) (f : Field) : Kind (option (Payload (body_of_field d f))) :=
  match d with HostToArk => host_content f | ArkToHost => ark_content f end.

Definition content_tags (d : Direction) : list Z :=
  match d with HostToArk => host_tags | ArkToHost => ark_tags end.

Definition opaque_contents (d : Direction) (f : Field) : Kind (option (list byte)) :=
  match d with HostToArk => opaque_host_content f | ArkToHost => opaque_ark_content f end.

Definition opaque_tags (d : Direction) : list Z :=
  match d with HostToArk => opaque_host_tags | ArkToHost => opaque_ark_tags end.

Definition content_name (d : Direction) (f : Field) : string :=
  match d with HostToArk => host_name f | ArkToHost => ark_name f end.

Abbreviation Body d := (sigT (λ f, Payload (body_of_field d f))) (only parsing).
Abbreviation Opaque := (sigT (λ _ : Field, list byte)) (only parsing).

(** [HostToArk] and [ArkToHost] *)
Definition envelope_layout (d : Direction) :
  Kind (Z * (option SchemaError * (option (Body d) * unit))) :=
  singular 1 0 uint64
  & message 2 error_layout
  & oneof _ (content_tags d) fields (contents d)
  & no_fields.

(** [opaque::HostToArk] and [opaque::ArkToHost] *)
Definition opaque_layout (d : Direction) :
  Kind (Z * (option (list byte) * (option Opaque * unit))) :=
  singular 1 0 uint64
  & optional 2 blob
  & oneof _ (opaque_tags d) fields (opaque_contents d)
  & no_fields.

Definition to_body {d} (c : Content Payload d) : Body d := existT (field c) (body c).

Definition to_opaque {d} (c : Content Payload d) : Opaque :=
  existT (field c) (payload_bytes _ (body c)).

Definition from_body {d} (b : Body d) : Content Payload d := MkContent (projT1 b) (projT2 b).

(** The fields of an envelope, and of what the routing view makes of it. *)
Definition envelope_of {d} (id : Z) (err : option SchemaError)
    (content : option (Content Payload d)) := (id, (err, (to_body <$> content, tt))).

Definition opaque_of {d} (id : Z) (err : option SchemaError)
    (content : option (Content Payload d)) :
  Z * (option (list byte) * (option Opaque * unit)) :=
  (id, (Protobuf.encode error_layout <$> err, (to_opaque <$> content, tt))).

Definition decode_failure : string := "failed to decode Protobuf message".

(** The coding of the schema. *)
#[global] Instance schema_prost : Prost Payload := {
  payload_ok v := e_ok (payload_elem v);
  env_encode d id err content :=
    Protobuf.encode (envelope_layout d) (envelope_of id err content);
  env_decode d bs :=
    match Protobuf.decode (envelope_layout d) bs with
    | Some (id, (err, (content, _))) => Ok (id, err, from_body <$> content)
    | None => Err decode_failure
    end;
  opaque_decode d bs :=
    match Protobuf.decode (opaque_layout d) bs with
    | Some (id, (err, (content, _))) =>
        Ok (id, bool_decide (is_Some err), (λ c, content_name d (projT1 c)) <$> content)
    | None => Err decode_failure
    end;
  Envelope.WireType := Protobuf.WireType;
  Envelope.decode_key := Protobuf.decode_key;
  Envelope.skip_field := Protobuf.skip_field;
}.

(** ** Lemmas *)

#[export] Instance payload_laws v : ElemLaws (payload_elem v).
Proof. destruct v; apply _. Qed.

Lemma payload_raw v p : e_raw (payload_elem v) p = RBytes (payload_bytes v p).
Proof. by destruct v. Qed.

Lemma contents_laws d f : KindLaws (contents d f).
Proof. destruct d, f; simpl; eauto with layout typeclass_instances. Qed.

Lemma opaque_contents_laws d f : KindLaws (opaque_contents d f).
Proof. destruct d, f; simpl; eauto with layout. Qed.

(** Each alternative has one tag, its own, which the envelope declares, in the
    schema and in the routing view. *)
Lemma content_tag d f tag :
  tag ∈ k_tags (contents d f) →
  pick _ fields (contents d) tag = Some f ∧ tag ∈ content_tags d.
Proof.
  destruct d, f; simpl; intros ->%list_elem_of_singleton; (split; [reflexivity|]);
    apply (bool_decide_unpack _); reflexivity.
Qed.

Lemma opaque_content_tag d f tag :
  tag ∈ k_tags (opaque_contents d f) →
  pick _ fields (opaque_contents d) tag = Some f ∧ tag ∈ opaque_tags d.
Proof.
  destruct d, f; simpl; intros ->%list_elem_of_singleton; (split; [reflexivity|]);
    apply (bool_decide_unpack _); reflexivity.
Qed.

#[export] Instance envelope_laws d : KindLaws (envelope_layout d).
Proof.
  apply both_laws; [by destruct d|eauto with layout|].
  apply both_laws; [by destruct d|apply message_laws; [done|apply _]|].
  apply both_laws; [by destruct d| |apply _].
  apply oneof_laws; [apply content_tag..| |apply contents_laws]. by destruct d, i.
Qed.

#[export] Instance opaque_laws d : KindLaws (opaque_layout d).
Proof.
  apply both_laws; [by destruct d|eauto with layout|].
  apply both_laws; [by destruct d|eauto with layout|].
  apply both_laws; [by destruct d| |apply _].
  apply oneof_laws; [apply opaque_content_tag..| |apply opaque_contents_laws]. by destruct d, i.
Qed.

(** The routing view writes a content as the schema does. *)
Lemma put_contents d f (p : Payload (body_of_field d f)) :
  k_put (contents d f) (Some p)
  = k_put (opaque_contents d f) (Some (payload_bytes _ p)).
Proof. by destruct d, f. Qed.

Lemma put_opaque d id err (content : option (Content Payload d)) :
  k_put (opaque_layout d) (opaque_of id err content)
  = k_put (envelope_layout d) (envelope_of id err content).
Proof.
  simpl. f_equal. f_equal; [by destruct err|]. f_equal. destruct content as [[f p]|]; [|done].
  simpl. symmetry. apply put_contents.
Qed.

Lemma contents_ok d f (p : Payload (body_of_field d f)) :
  k_ok (contents d f) (Some p) = e_ok (payload_elem _) p.
Proof. by destruct d, f. Qed.

Lemma opaque_contents_ok d f bs : k_ok (opaque_contents d f) (Some bs) = true.
Proof. by destruct d, f. Qed.

Lemma opaque_ok d i err content :
  in_range 0 u64_max i = true → k_ok (opaque_layout d) (i, (err, (content, tt))) = true.
Proof.
  intros Hi. unfold opaque_layout. cbn [k_ok both fst snd].
  apply andb_true_iff; split; [done|]. apply andb_true_iff; split; [by destruct err|].
  rewrite andb_true_r. destruct content as [[f bs]|]; [apply opaque_contents_ok|done].
Qed.

Lemma error_layout_ok e : error_ok e = true → k_ok error_layout e = true.
Proof. intros He. simpl. unfold error_ok in He. by rewrite andb_true_r. Qed.

Section envelope_lemmas.
Context {d : Direction} (id : Z) (err : option SchemaError).
Context (content : option (Content Payload d)).
Context (Hok : envelope_ok id err content = true).

Lemma envelope_layout_ok : k_ok (envelope_layout d) (envelope_of id err content) = true.
Proof.
  unfold envelope_ok in Hok. apply andb_true_iff in Hok as [[Hi He]%andb_true_iff Hc].
  unfold envelope_layout, envelope_of. cbn [k_ok both fst snd].
  apply andb_true_iff; split; [done|]. apply andb_true_iff; split.
  - destruct err; [|done]. by apply error_layout_ok.
  - rewrite andb_true_r. destruct content as [[f p]|]; [|done]. simpl.
    by rewrite contents_ok.
Qed.

Lemma opaque_layout_ok : k_ok (opaque_layout d) (opaque_of id err content) = true.
Proof.
  unfold envelope_ok in Hok. apply andb_true_iff in Hok as [[Hi He]%andb_true_iff Hc].
  by apply opaque_ok.
Qed.

Context (Hf : Protobuf.fits (env_encode d id err content)).

Lemma envelope_decodes :
  Protobuf.decode (envelope_layout d) (env_encode d id err content)
  = Some (envelope_of id err content).
Proof. apply decode_put; [apply _|apply envelope_layout_ok|done]. Qed.

Lemma opaque_decodes :
  Protobuf.decode (opaque_layout d) (env_encode d id err content)
  = Some (opaque_of id err content).
Proof.
  revert Hf. simpl. unfold Protobuf.encode. rewrite <-put_opaque. intros Hf'.
  apply decode_put; [apply _|apply opaque_layout_ok|done].
Qed.
End envelope_lemmas.

Lemma serialise_tags bound fs :
  Forall raw_ok fs → Forall (λ f, f.1 < bound) fs →
  tags_below (Payload:=Payload) bound (serialise fs).
Proof.
  induction fs as [|[t r] fs IH]; intros Hok Hb; [constructor|].
  apply Forall_cons in Hok as [Hf Hok]. apply Forall_cons in Hb as [Ht Hb].
  pose proof (get_put_field _ (serialise fs) Hf) as Hg.
  apply get_field_skips in Hg as (w & rest & Hk & Hs).
  eapply (tags_cons (Payload:=Payload)); [exact Hk|done|exact Hs|by apply IH].
Qed.

Lemma header_tags d id err :
  Forall (λ f, f.1 < 0x100) (k_put (envelope_layout d) (envelope_of id err None)).
Proof.
  simpl. rewrite app_nil_r. apply Forall_app. split.
  - case_decide; by repeat constructor.
  - destruct err; by repeat constructor.
Qed.

(** The names of the routing view are those of the bodies. *)
Lemma content_names d f : content_name d f = field_name (body_of_field d f).
Proof. by destruct d, f. Qed.

#[global] Instance schema_prost_laws : ProstLaws Payload.
Proof.
  split.
  - intros d id err content Hok Hf. cbn [env_decode schema_prost].
    rewrite envelope_decodes by done. simpl. by destruct content as [[]|].
  - intros d id err content Hok Hf. cbn [opaque_decode schema_prost].
    rewrite opaque_decodes by done. unfold opaque_of.
    f_equal. destruct content as [c|]; simpl; rewrite ?content_names; by destruct err.
  - intros d id err Hok Hf. apply serialise_tags; [|apply header_tags].
    apply put_raw; [by apply envelope_layout_ok|done].
  - intros bs tag w rest Hk. by apply Protobuf.decode_key_consumes in Hk as [_ ?].
  - apply Protobuf.skip_field_consumes.
Qed.

Lemma opaque_layout_tags d : k_tags (opaque_layout d) = k_tags (envelope_layout d).
Proof. by destruct d. Qed.

(** *** Routing *)

Lemma unknown_content_step fuel tag r rest :
  raw_ok (tag, r) →
  unknown_content (Payload:=Payload) (S fuel) (put_field (tag, r) ++ rest)
  = if decide (0x100 ≤ tag) then Some true
    else unknown_content (Payload:=Payload) fuel rest.
Proof.
  intros Hr. pose proof (get_put_field _ rest Hr) as Hg.
  pose proof (get_field_consumes _ _ _ _ Hg).
  apply get_field_skips in Hg as (w & rest' & Hk & Hs).
  cbn [unknown_content]. rewrite decide_False by (intros E; rewrite E in *; simpl in *; lia).
  cbn [Envelope.decode_key Envelope.skip_field schema_prost fst] in *. rewrite Hk. simpl in *.
  case_decide; [done|]. by rewrite Hs.
Qed.

(** The scan finds content behind the fields of the envelope. *)
Lemma unknown_content_found fuel fs tag r gs :
  Forall raw_ok fs → Forall (λ f, f.1 < 0x100) fs → raw_ok (tag, r) → 0x100 ≤ tag →
  (length (serialise (fs ++ (tag, r) :: gs)) < fuel)%nat →
  unknown_content (Payload:=Payload) fuel (serialise (fs ++ (tag, r) :: gs)) = Some true.
Proof.
  intros Hok. revert fuel. induction Hok as [|[t q] fs Hf _ IH]; intros fuel Hb Hr Ht Hl;
    (destruct fuel as [|fuel]; [lia|]).
  - change (serialise ([] ++ (tag, r) :: gs)) with (put_field (tag, r) ++ serialise gs).
    rewrite unknown_content_step by done. by rewrite decide_True.
  - apply Forall_cons in Hb as [Hb Hbs]. simpl in Hb.
    pose proof (get_field_consumes _ _ _ _
      (get_put_field _ (serialise (fs ++ (tag, r) :: gs)) Hf)) as Hc.
    change (serialise (((t, q) :: fs) ++ (tag, r) :: gs))
      with (put_field (t, q) ++ serialise (fs ++ (tag, r) :: gs)) in *.
    rewrite unknown_content_step by done. rewrite decide_False by lia.
    apply IH; [done..|]. lia.
Qed.

Lemma opaque_decode_ok d y bs :
  Protobuf.decode (opaque_layout d) bs = Some y →
  opaque_decode (Payload:=Payload) d bs
  = Ok (y.1, bool_decide (is_Some y.2.1), (λ c, content_name d (projT1 c)) <$> y.2.2.1).
Proof. intros Hd. cbn [opaque_decode schema_prost]. rewrite Hd. by destruct y as [? [? [? ?]]]. Qed.

(** What the routing view makes of bytes, where it finds content or an error. *)
Lemma decode_header_known side y bs :
  Protobuf.decode (opaque_layout (receives_as side)) bs = Some y →
  bool_decide (is_Some y.2.1) = negb (bool_decide (is_Some y.2.2.1)) →
  (y.2.2.1 = None → tags_below (Payload:=Payload) 0x100 bs) →
  decode_header (Payload:=Payload) side bs
  = Ret (Ok (MkHeader y.1 (bool_decide (is_Some y.2.1))
      (Some (match y.2.2.1 with
             | Some c => content_name (receives_as side) (projT1 c)
             | None => "err"%string
             end)) false)).
Proof.
  intros Hd Hone Hbelow. unfold decode_header. rewrite (opaque_decode_ok _ _ _ Hd).
  destruct y as [i [err [[c|] u]]]; cbn [fst snd fmap option_fmap option_map] in *;
    rewrite Hone; [done|].
  by rewrite decide_True, (unknown_content_below (Payload:=Payload)) by (auto || lia).
Qed.

Lemma opaque_raw d y :
  k_ok (opaque_layout d) y = true → Protobuf.fits (Protobuf.encode (opaque_layout d) y) →
  Forall raw_ok (k_put (opaque_layout d) y).
Proof. apply (put_raw (k:=opaque_layout d)). Qed.

Lemma opaque_header_tags d i err :
  Forall (λ f, f.1 < 0x100) (k_put (opaque_layout d) (i, (err, (None, tt)))).
Proof.
  simpl. rewrite app_nil_r. apply Forall_app. split.
  - case_decide; by repeat constructor.
  - destruct err; by repeat constructor.
Qed.

Lemma put_varint_length n v : (length (put_varint n v) ≤ n)%nat.
Proof.
  revert v. induction n as [|n IH]; intros v; simpl; [done|]. case_decide; simpl; [lia|].
  specialize (IH (v / 128)). lia.
Qed.

(** An envelope with an ID alone is short. *)
Lemma id_fits d i : Protobuf.fits (Protobuf.encode (opaque_layout d) (i, (None, (None, tt)))).
Proof.
  unfold Protobuf.fits, Protobuf.encode, serialise. cbn -[put_field Z.of_nat u64_max].
  case_decide; [done|]. cbn -[encode_key encode_varint Z.of_nat u64_max].
  rewrite app_nil_r, length_app. unfold encode_key, encode_varint.
  pose proof (put_varint_length 10 (1 * 8 + wire_number Varint)).
  pose proof (put_varint_length 10 i).
  unfold u64_max. lia.
Qed.

(** Content under a tag that neither view has. *)
Lemma decode_header_unknown side i tag bs :
  k_ok (opaque_layout (receives_as side)) (i, (None, (None, tt))) = true →
  0x100 ≤ tag ≤ max_tag → tag ∉ opaque_tags (receives_as side) → Protobuf.fits bs →
  decode_header (Payload:=Payload) side
    (Protobuf.encode (opaque_layout (receives_as side)) (i, (None, (None, tt)))
     ++ put_field (tag, RBytes bs))
  = Ret (Ok (MkHeader i false (Some "unknown"%string) true)).
Proof.
  set (d := receives_as side). intros Hok Ht Hn Hf.
  assert (Protobuf.fits (Protobuf.encode (opaque_layout d) (i, (None, (None, tt))))) as Hfit
    by apply id_fits.
  assert (raw_ok (tag, RBytes bs)) as Hr by (split; [simpl; lia|done]).
  assert (put_field (tag, RBytes bs) = serialise [(tag, RBytes bs)]) as ->
    by (unfold serialise; simpl; by rewrite app_nil_r).
  assert (Protobuf.decode (opaque_layout d)
    (Protobuf.encode (opaque_layout d) (i, (None, (None, tt))) ++ serialise [(tag, RBytes bs)])
    = Some (i, (None, (None, tt)))) as Hd.
  { apply decode_unknown; [apply _|done|done|by apply Forall_singleton|].
    apply Forall_singleton. simpl.
    intros [->|[->|[?|?%elem_of_nil]%elem_of_app]%elem_of_cons]%elem_of_cons; by try lia. }
  unfold decode_header. fold d. rewrite (opaque_decode_ok _ _ _ Hd).
  cbn [fst snd fmap option_fmap option_map].
  rewrite decide_True by done. unfold Protobuf.encode. rewrite <-serialise_app.
  rewrite unknown_content_found; [done|by apply opaque_raw|apply opaque_header_tags|done|lia|lia].
Qed.

(** ** What the schema guarantees *)

(** Payloads round trip. Every payload of the schema, with the values its types
    can hold, decodes from its encoding to itself, and is nested in an envelope as
    that encoding. *)
Theorem payloads_round_trip (v : Variant) (p : Payload v) :
  payload_ok v p = true → Protobuf.fits (payload_bytes v p) →
  e_raw (payload_elem v) p = RBytes (payload_bytes v p)
  ∧ e_of (payload_elem v) (RBytes (payload_bytes v p)) = Some p.
Proof.
  intros Hok Hf. rewrite <-payload_raw. split; [done|].
  apply payload_laws; [done|by rewrite payload_raw].
Qed.

(** The schema's envelopes meet the interface the sessions rely on. An envelope
    of either direction decodes to its ID, error and content, and the routing view
    of the same bytes has the ID, whether there is an error, and the name of the
    content, for all values of their types in an encoding that fits a buffer, also
    when fields that the envelope does not have follow. *)
Theorem schema_envelopes_round_trip (d : Direction) (i : Z) (err : option SchemaError)
    (content : option (Content Payload d)) (fs : list (Z * Raw)) :
  envelope_ok i err content = true →
  Protobuf.fits (Protobuf.encode (envelope_layout d) (envelope_of i err content)) →
  Forall raw_ok fs → Forall (λ f, f.1 ∉ k_tags (envelope_layout d)) fs →
  let bs := Protobuf.encode (envelope_layout d) (envelope_of i err content) ++ serialise fs in
  env_decode d bs = Ok (i, err, content)
  ∧ opaque_decode (Payload:=Payload) d bs
    = Ok (i, bool_decide (is_Some err),
          (λ c, field_name (body_of_field d (field c))) <$> content).
Proof.
  intros Hok Hf Hraw Hfs. cbv zeta. split.
  - cbn [env_decode schema_prost].
    rewrite (decode_unknown (envelope_layout d)) by (done || by apply envelope_layout_ok).
    simpl. by destruct content as [[]|].
  - unfold Protobuf.encode in *. rewrite <-put_opaque in *.
    rewrite (opaque_decode_ok d (opaque_of i err content)).
    + simpl. f_equal. destruct content as [c|]; simpl; rewrite ?content_names; by destruct err.
    + apply decode_unknown; [apply _|by apply opaque_layout_ok|done|done|].
      by rewrite opaque_layout_tags.
Qed.

(** C33: Routing reads the envelope and nothing below it. Whatever bytes a known
    content or an error holds, even ones that do not decode, the header has the ID
    and the name of the field; content under a tag that the schema does not have is
    routed as unknown, so that a newer peer gets an answer. *)
Theorem routing_reads_the_envelope (side : Side) (i : Z) :
  in_range 0 u64_max i = true →
  let d := receives_as side in
  let wire err content := Protobuf.encode (opaque_layout d) (i, (err, (content, tt))) in
  (∀ f bs, Protobuf.fits (wire None (Some (existT f bs))) →
    decode_header (Payload:=Payload) side (wire None (Some (existT f bs)))
    = Ret (Ok (MkHeader i false (Some (content_name d f)) false)))
  ∧ (∀ bs, Protobuf.fits (wire (Some bs) None) →
      decode_header (Payload:=Payload) side (wire (Some bs) None)
      = Ret (Ok (MkHeader i true (Some "err"%string) false)))
  ∧ (∀ tag bs, 0x100 ≤ tag ≤ max_tag → tag ∉ opaque_tags d → Protobuf.fits bs →
      decode_header (Payload:=Payload) side (wire None None ++ put_field (tag, RBytes bs))
      = Ret (Ok (MkHeader i false (Some "unknown"%string) true))).
Proof.
  intros Hi d wire.
  assert (∀ err content, k_ok (opaque_layout d) (i, (err, (content, tt))) = true) as Hok.
  { intros err content. by apply opaque_ok. }
  assert (∀ err content, Protobuf.fits (wire err content) →
    Protobuf.decode (opaque_layout d) (wire err content) = Some (i, (err, (content, tt)))) as Hd.
  { intros err content Hf. apply decode_put; [apply _|apply Hok|done]. }
  split_and!.
  - intros f bs Hf. by rewrite (decode_header_known side _ _ (Hd _ _ Hf)).
  - intros bs Hf. rewrite (decode_header_known side _ _ (Hd _ _ Hf)); [done|done|].
    intros _. apply serialise_tags; [by apply opaque_raw|apply opaque_header_tags].
  - intros tag bs Ht Hn Hf. by apply decode_header_unknown.
Qed.

(** The generated tables agree. In each direction the tags of the contents are
    the ones the envelope declares, in the same order, distinct, within the range of
    contents and legal; the routing view has the same tag for every content and
    names it as the bodies do; and the two directions use the same tags, so that a
    response carries the tag of its request. *)
Theorem schema_tables_agree (d : Direction) :
  concat ((λ f, k_tags (contents d f)) <$> fields) = content_tags d
  ∧ NoDup (content_tags d)
  ∧ Forall (λ tag, 0x100 ≤ tag ≤ max_tag ∧ ¬ (19000 ≤ tag ≤ 19999)) (content_tags d)
  ∧ opaque_tags d = content_tags d
  ∧ (∀ f, k_tags (opaque_contents d f) = k_tags (contents d f)
       ∧ content_name d f = field_name (body_of_field d f)
       ∧ k_tags (contents HostToArk f) = k_tags (contents ArkToHost f)).
Proof.
  split_and!.
  - by destruct d.
  - destruct d; apply (bool_decide_unpack _); vm_compute; reflexivity.
  - destruct d; apply (bool_decide_unpack _); vm_compute; reflexivity.
  - by destruct d.
  - intros f. split_and!; [by destruct d, f|by destruct d, f|by destruct f].
Qed.

(** ** Cases of the tests ([mock/envelope/tests.rs]) *)
Module Cases.

(** [device_info] under ID 3, host to Ark. *)
Definition device_info : list byte := [Byte.x08; Byte.x03; Byte.x8a; Byte.x10; Byte.x00].

Example encodes_device_info :
  encode 1000 Client 3 (Ok (MkMessage (Payload:=Payload) VDeviceInfoRequest DeviceInfoRequest.Mk))
  = Ok device_info.
Proof. vm_compute. reflexivity. Qed.

(** A development body that leaves its zero ID unencoded. *)
Definition develop : list byte := [Byte.x82; Byte.x80; Byte.x02; Byte.x02; Byte.x01; Byte.x02].

(** An overlong ID, the last of two IDs, and an unknown field decode to the same. *)
Example normalises :
  Forall (λ prefix, decode (Payload:=Payload) Server (prefix ++ develop)
      = Ok (1, Ok (MkMessage (Payload:=Payload) VDevelop [Byte.x01; Byte.x02])))
    [[Byte.x08; Byte.x81; Byte.x00];
     [Byte.x08; Byte.x02; Byte.x08; Byte.x01];
     [Byte.x08; Byte.x01; Byte.x78; Byte.x2a]].
Proof. repeat constructor. Qed.

(** Unknown content beside an error is refused by routing and ignored by decoding. *)
Example unknown_beside_error :
  let refused := MkSchemaError 7 "refused" in
  let bs := env_encode (Payload:=Payload) HostToArk 5 (Some refused) None
            ++ [Byte.xfa; Byte.x7f; Byte.x01; Byte.x2a] in
  decode_header (Payload:=Payload) Server bs = Ret (Err Protocol.Malformed)
  ∧ decode (Payload:=Payload) Server bs = Ok (5, Err refused).
Proof. split; vm_compute; reflexivity. Qed.

(** Both bodies, neither, invalid protobuf and empty input are refused, and so is
    error text that is not UTF-8. *)
Example refused_shapes :
  Forall (λ bs, is_err (decode (Payload:=Payload) Server bs) = true)
    [device_info ++ [Byte.x12; Byte.x00];
     [Byte.x08; Byte.x02];
     [Byte.x80];
     [];
     [Byte.x08; Byte.x02; Byte.x12; Byte.x03; Byte.x12; Byte.x01; Byte.xff]].
Proof. repeat constructor. Qed.

(** An envelope that the other direction cannot decode: there the field is a string. *)
Example direction_matters :
  let identified :=
    SlotIdentifyResponse.Mk (SlotKind.number SlotKind.ReferenceGenome) 0 EmptyString
      EmptyString EmptyString in
  let bs := env_encode ArkToHost 2 None
    (Some (MkContent (Payload:=Payload) (d:=ArkToHost) FSlotIdentify identified)) in
  decode (Payload:=Payload) Client bs
  = Ok (2, Ok (MkMessage (Payload:=Payload) VSlotIdentifyResponse identified))
  ∧ is_err (decode (Payload:=Payload) Server bs) = true.
Proof. split; vm_compute; reflexivity. Qed.

(** A status of a slot with its dependencies and download. *)
Definition status : SlotStatus.t :=
  SlotStatus.Mk (SlotKind.number SlotKind.SmallVariants) "variants" "calls" "vcf" 1 2
    EmptyString [1; 2; -1] 1024 "GRCh38.p14" EmptyString
    (Some (SlotDownload.Mk "https://example.org" 7 "00ff")).
End Cases.

Lemma payloads_round_trip_witness :
  let p : Payload VSlotListResponse := SlotListResponse.Mk [Cases.status; Cases.status] in
  e_raw (payload_elem VSlotListResponse) p = RBytes (payload_bytes VSlotListResponse p)
  ∧ e_of (payload_elem VSlotListResponse) (RBytes (payload_bytes VSlotListResponse p)) = Some p.
Proof.
  apply (payloads_round_trip VSlotListResponse).
  - vm_compute. reflexivity.
  - vm_compute. discriminate.
Defined.

Lemma schema_envelopes_round_trip_witness :
  let bs := Cases.device_info ++ [Byte.x78; Byte.x2a] in
  let content := MkContent (Payload:=Payload) (d:=HostToArk) FDeviceInfo DeviceInfoRequest.Mk in
  env_decode (Payload:=Payload) HostToArk bs = Ok (3, None, Some content)
  ∧ opaque_decode (Payload:=Payload) HostToArk bs = Ok (3, false, Some "device_info"%string).
Proof.
  refine (schema_envelopes_round_trip HostToArk 3 None
    (Some (MkContent (Payload:=Payload) (d:=HostToArk) FDeviceInfo DeviceInfoRequest.Mk))
    [(15, RVarint 42)] _ _ _ _).
  - vm_compute. reflexivity.
  - vm_compute. discriminate.
  - repeat constructor; vm_compute; discriminate.
  - constructor; [|constructor]. apply (bool_decide_unpack _). vm_compute. reflexivity.
Defined.

Lemma routing_reads_the_envelope_witness :
  decode_header (Payload:=Payload) Server (Cases.device_info)
  = Ret (Ok (MkHeader 3 false (Some "device_info"%string) false))
  ∧ decode_header (Payload:=Payload) Server
      [Byte.x08; Byte.x03; Byte.xfa; Byte.x7f; Byte.x01; Byte.x2a]
    = Ret (Ok (MkHeader 3 false (Some "unknown"%string) true)).
Proof.
  destruct (routing_reads_the_envelope Server 3 eq_refl) as (Hknown & _ & Hunknown). split.
  - apply (Hknown FDeviceInfo []). vm_compute. discriminate.
  - apply (Hunknown 0x7ff [Byte.x2a]); [done| |vm_compute; discriminate].
    apply (bool_decide_unpack _). vm_compute. reflexivity.
Defined.
