(* ===== verification/Generator.v ===== *)
(** * The generator of the schema sources ([generator/src/main.rs])

    The program that derives, from the descriptors of the schema, the sources under
    [protocol/generated]: it collects the bodies of both envelopes, writes the
    message enumeration, the direction conversions and the field names, and hands the
    descriptors to the code generator of the bindings twice, once with the bodies of
    the envelopes left as bytes.

    The descriptors are data of the shape the protobuf descriptor format documents.
    The loop over them runs in the state of the collected texts; a failed assertion
    or [expect] panics. Loading descriptors and compiling bindings from them are
    library calls: the first is the argument of [main], the second an action it
    performs. *)

From S2P Require Import Prelude.
From Stdlib Require Import Ascii OrderedTypeEx Sorting.Sorted.
#[local] Open Scope string_scope.

(** ** Descriptors *)

(** [field_descriptor_proto::Type] *)
Inductive FieldType :=
  | TYPE_DOUBLE | TYPE_FLOAT | TYPE_INT64 | TYPE_UINT64 | TYPE_INT32 | TYPE_FIXED64
  | TYPE_FIXED32 | TYPE_BOOL | TYPE_STRING | TYPE_GROUP | TYPE_MESSAGE | TYPE_BYTES
  | TYPE_UINT32 | TYPE_ENUM | TYPE_SFIXED32 | TYPE_SFIXED64 | TYPE_SINT32 | TYPE_SINT64.

#[global] Instance FieldType_eq_dec : EqDecision FieldType.
Proof. solve_decision. Defined.

Inductive Label := LABEL_OPTIONAL | LABEL_REQUIRED | LABEL_REPEATED.

Record FieldDescriptorProto := MkField {
  f_name : string;
  f_number : Z;
  f_label : Label;
  f_type : FieldType;
  f_type_name : option string;
  f_oneof_index : option Z;
  f_optional : bool;
}.

Record DescriptorProto := MkDescriptor {
  m_name : string;
  m_field : list FieldDescriptorProto;
  m_oneof_decl : list string;
}.

Record EnumDescriptorProto := MkEnum { e_name : string; e_value : list (string * Z) }.

Record FileDescriptorProto := MkFile {
  file_name : string;
  package : option string;
  message_type : list DescriptorProto;
  enum_type : list EnumDescriptorProto;
}.

(** ** Text *)

Definition newline : string := String (ascii_of_nat 10) EmptyString.
Definition quote : string := String (ascii_of_nat 34) EmptyString.

(** [str::split] at a character. *)
Fixpoint split (sep : ascii) (s : string) : list string :=
  match s with
  | EmptyString => [EmptyString]
  | String c s =>
      if decide (c = sep) then EmptyString :: split sep s
      else
        match split sep s with
        | word :: words => String c word :: words
        | [] => [String c EmptyString]
        end
  end.

(** [char::to_uppercase] on the characters of identifiers, which are ASCII. *)
Definition to_uppercase (c : ascii) : ascii :=
  let n := nat_of_ascii c in
  if decide (97 ≤ n ≤ 122)%nat then ascii_of_nat (n - 32) else c.

(** [writeln!] of a text onto another. *)
Definition writeln (out text : string) : string := out +:+ text +:+ newline.

(** [{:?}] of an identifier, which has no character to escape. *)
Definition debug (s : string) : string := quote +:+ s +:+ quote.

(** ** The set of bodies *)

(** Variant, payload and field name. *)
Definition Body : Type := string * string * string.

(** The order of [BTreeSet<(&str, &str, &str)>]. *)
Definition body_compare (a b : Body) : comparison :=
  let '(variant, payload, name) := a in
  let '(variant', payload', name') := b in
  match String.compare variant variant' with
  | Eq =>
      match String.compare payload payload' with
      | Eq => String.compare name name'
      | c => c
      end
  | c => c
  end.

(** [BTreeSet::insert] *)
Fixpoint insert_body (x : Body) (set : list Body) : list Body :=
  match set with
  | [] => [x]
  | y :: rest =>
      match body_compare x y with
      | Lt => x :: set
      | Eq => set
      | Gt => y :: insert_body x rest
      end
  end.

(** ** The loop over the envelopes *)

(** The variables the loop of [main] updates. *)
Record Texts := MkTexts {
  messages : list Body;
  conversions : string;
  envelope_names : string;
}.

Abbreviation G := (M Texts).

Definition insert_message (x : Body) : G unit :=
  op (λ t, (tt, MkTexts (insert_body x (messages t)) (conversions t) (envelope_names t))).

Definition write_conversion (text : string) : G unit :=
  op (λ t, (tt, MkTexts (messages t) (writeln (conversions t) text) (envelope_names t))).

Definition write_name (text : string) : G unit :=
  op (λ t, (tt, MkTexts (messages t) (conversions t) (writeln (envelope_names t) text))).

Fixpoint for_each {A} (f : A → G unit) (l : list A) : G unit :=
  match l with
  | [] => mret tt
  | a :: l => _ ← f a; for_each f l
  end.

(** [matches!(message.name(), "HostToArk" | "ArkToHost")] *)
Definition is_envelope (message : DescriptorProto) : bool :=
  bool_decide (m_name message = "HostToArk") || bool_decide (m_name message = "ArkToHost").

(** The index of the envelope's content oneof. *)
Definition content_oneof (message : DescriptorProto) : option nat :=
  fst <$> list_find (.= "content") (m_oneof_decl message).

(** Its generated module. *)
Definition module_name (message : DescriptorProto) : option string :=
  if decide (m_name message = "HostToArk") then Some "host_to_ark"
  else if decide (m_name message = "ArkToHost") then Some "ark_to_host"
  else None.

(** Whether a field is one of the content. *)
Definition is_content (oneof : nat) (field : FieldDescriptorProto) : bool :=
  bool_decide (f_oneof_index field = Some (Z.of_nat oneof)).

(** The variant and the payload type of a content field. *)
Definition body_names (field : FieldDescriptorProto) : option (string * string) :=
  match f_type_name field with
  | Some name => (λ name, (name, name)) <$> last (split "." name)
  | None =>
      if decide (f_type field = TYPE_BYTES) then
        if decide (f_name field = "develop") then Some ("Develop", "Vec<u8>") else None
      else None
  end.

(** A word with its first letter in upper case. *)
Definition capitalize (word : string) : option string :=
  match word with
  | EmptyString => None
  | String c word => Some (String (to_uppercase c) word)
  end.

(** The name of the field's variant in the bindings. *)
Definition field_variant (name : string) : option string :=
  String.concat EmptyString <$> mapM capitalize (split "_" name).

Definition conversion_row (variant body : string) : string :=
  "    " +:+ variant +:+ " => " +:+ body +:+ ",".

Definition name_row (variant name : string) : string :=
  "            Self::" +:+ variant +:+ "(..) => " +:+ debug name +:+ ",".

(** The body of the inner loop. *)
Definition visit_field (oneof : nat) (field : FieldDescriptorProto) : G unit :=
  let content := is_content oneof field in
  if decide (bool_decide (0x100 ≤ f_number field)%Z ≠ content) then panic
  else if negb content then mret tt
  else
    '(variant, payload) ← expect (body_names field);
    _ ← insert_message (variant, payload, f_name field);
    field_variant ← expect (field_variant (f_name field));
    _ ← write_conversion (conversion_row field_variant variant);
    write_name (name_row field_variant (f_name field)).

(** The body of the outer loop. *)
Definition visit_message (message : DescriptorProto) : G unit :=
  if negb (is_envelope message) then mret tt
  else
    oneof ← expect (content_oneof message);
    module ← expect (module_name message);
    _ ← write_conversion ("contents! { " +:+ module +:+ ",");
    _ ← write_name
          ("impl opaque::" +:+ module +:+ "::Content {" +:+ newline
           +:+ "    fn name(&self) -> &'static str {" +:+ newline
           +:+ "        match self {");
    _ ← for_each (visit_field oneof) (m_field message);
    _ ← write_conversion "}";
    write_name ("        }" +:+ newline +:+ "    }" +:+ newline +:+ "}").

Definition generated_by : string := "// This file is @generated by generator/src/main.rs.".

(** ** The outputs *)

Definition enum_row (b : Body) : string :=
  let '(variant, payload, _) := b in "    " +:+ variant +:+ "(" +:+ payload +:+ "),".

Definition field_name_row (b : Body) : string :=
  let '(variant, _, name) := b in name_row variant name.

Definition write_rows {A} (row : A → string) (l : list A) (text : string) : string :=
  foldl (λ text a, writeln text (row a)) text l.

(** The contents of [message.rs]. *)
Definition message_rs (bodies : list Body) (conversions : string) : string :=
  let content := writeln (writeln EmptyString generated_by) "messages! {" in
  let content := writeln (write_rows enum_row bodies content) "}" in
  let content := content +:+ conversions in
  let content :=
    writeln content
      ("impl Message {" +:+ newline
       +:+ "    /// Returns the payload's protobuf field name for log lines." +:+ newline
       +:+ "    pub(super) fn field_name(&self) -> &'static str {" +:+ newline
       +:+ "        match self {") in
  let content := write_rows field_name_row bodies content in
  writeln content ("        }" +:+ newline +:+ "    }" +:+ newline +:+ "}").

(** A field of the routing view: a message is left as bytes. *)
Definition opaque_field (field : FieldDescriptorProto) : FieldDescriptorProto :=
  if decide (f_type field = TYPE_MESSAGE) then
    MkField (f_name field) (f_number field) (f_label field) TYPE_BYTES None
      (f_oneof_index field) (f_optional field)
  else field.

Definition opaque_message (message : DescriptorProto) : DescriptorProto :=
  MkDescriptor (m_name message) (opaque_field <$> m_field message) (m_oneof_decl message).

(** The routing view of a file: its envelopes alone. *)
Definition opaque_file (file : FileDescriptorProto) : FileDescriptorProto :=
  MkFile (file_name file) (Some "darkbio.wire.opaque")
    (opaque_message <$> filter is_envelope (message_type file)) [].

(** What the program does, in order. *)
Inductive Action :=
  | WriteFile (name text : string)
  | CompileFds (descriptors : list FileDescriptorProto).

(** [main], given the loaded descriptors. *)
Definition main (descriptors : list FileDescriptorProto) : outcome (list Action) :=
  let texts := MkTexts [] EmptyString (writeln EmptyString generated_by) in
  match for_each visit_message (concat (message_type <$> descriptors)) texts with
  | Ret (_, texts) =>
      Ret [WriteFile "message.rs" (message_rs (messages texts) (conversions texts));
           WriteFile "darkbio.wire.names.rs" (envelope_names texts);
           CompileFds (opaque_file <$> descriptors);
           CompileFds descriptors]
  | Panicked => Panicked
  | Diverged => Diverged
  end.

(** ** What the generator is meant to produce *)

Definition unlines (lines : list string) : string :=
  foldr (λ line text, line +:+ newline +:+ text) EmptyString lines.

Definition envelopes (descriptors : list FileDescriptorProto) : list DescriptorProto :=
  filter is_envelope (concat (message_type <$> descriptors)).

(** A field is laid out right: contents and no other fields have tags from 0x100, and
    the body and the variant of a content can be named. *)
Definition field_ok (oneof : nat) (field : FieldDescriptorProto) : Prop :=
  ((0x100 ≤ f_number field)%Z ↔ is_content oneof field)
  ∧ (is_content oneof field →
     is_Some (body_names field) ∧ is_Some (field_variant (f_name field))).

#[global] Instance field_ok_dec oneof field : Decision (field_ok oneof field).
Proof. unfold field_ok. apply _. Defined.

Definition envelope_ok (message : DescriptorProto) : Prop :=
  match content_oneof message with
  | Some oneof => Forall (field_ok oneof) (m_field message)
  | None => False
  end.

#[global] Instance envelope_ok_dec message : Decision (envelope_ok message).
Proof. unfold envelope_ok. destruct (content_oneof message); apply _. Defined.

Definition laid_out (descriptors : list FileDescriptorProto) : Prop :=
  Forall envelope_ok (envelopes descriptors).

Definition content_fields (message : DescriptorProto) : list FieldDescriptorProto :=
  match content_oneof message with
  | Some oneof => filter (is_content oneof) (m_field message)
  | None => []
  end.

(** The body, the conversion and the name of a content field. *)
Definition field_body (field : FieldDescriptorProto) : list Body :=
  match body_names field with
  | Some (variant, payload) => [(variant, payload, f_name field)]
  | None => []
  end.

Definition field_conversion (field : FieldDescriptorProto) : list string :=
  match body_names field, field_variant (f_name field) with
  | Some (variant, _), Some own => [conversion_row own variant]
  | _, _ => []
  end.

Definition field_name_line (field : FieldDescriptorProto) : list string :=
  match field_variant (f_name field) with
  | Some own => [name_row own (f_name field)]
  | None => []
  end.

Definition module_of (message : DescriptorProto) : string :=
  default EmptyString (module_name message).

(** The lines of an envelope's conversions and of its names. *)
Definition conversion_lines (message : DescriptorProto) : list string :=
  ("contents! { " +:+ module_of message +:+ ",")
  :: (content_fields message ≫= field_conversion) ++ ["}"].

Definition name_lines (message : DescriptorProto) : list string :=
  ["impl opaque::" +:+ module_of message +:+ "::Content {";
   "    fn name(&self) -> &'static str {"; "        match self {"]
  ++ (content_fields message ≫= field_name_line) ++ ["        }"; "    }"; "}"].

(** The strict order of the set. *)
Definition body_lt (a b : Body) : Prop := body_compare a b = Lt.

(** How a field of the routing view stands for one of the schema. *)
Definition routes_field (field field' : FieldDescriptorProto) : Prop :=
  f_name field' = f_name field ∧ f_number field' = f_number field
  ∧ f_label field' = f_label field ∧ f_oneof_index field' = f_oneof_index field
  ∧ f_optional field' = f_optional field
  ∧ (if decide (f_type field = TYPE_MESSAGE)
     then f_type field' = TYPE_BYTES ∧ f_type_name field' = None else field' = field).

(** How an envelope of the routing view stands for one of the schema: it also has the
    tag layout where that has it. *)
Definition routes_message (message message' : DescriptorProto) : Prop :=
  m_name message' = m_name message ∧ content_oneof message' = content_oneof message
  ∧ Forall2 routes_field (m_field message) (m_field message')
  ∧ ∀ oneof, Forall2 (λ field field', is_content oneof field = is_content oneof field')
      (m_field message) (m_field message').

(** ** Lemmas *)

(** Adds bodies and lines to the texts. *)
Definition add_texts (t : Texts) (bodies : list Body) (cs ns : list string) : Texts :=
  MkTexts (foldl (flip insert_body) (messages t) bodies)
    (conversions t +:+ unlines cs) (envelope_names t +:+ unlines ns).

Lemma string_app_assoc (a b c : string) : (a +:+ b) +:+ c = a +:+ b +:+ c.
Proof. induction a as [|x a IH]; [done|]. apply (f_equal (String x) IH). Qed.

Lemma string_app_nil (a : string) : a +:+ EmptyString = a.
Proof. induction a as [|x a IH]; [done|]. apply (f_equal (String x) IH). Qed.

Lemma unlines_app l k : unlines (l ++ k) = unlines l +:+ unlines k.
Proof.
  induction l as [|x l IH]; [done|]. simpl. rewrite IH. by rewrite !string_app_assoc.
Qed.

Lemma add_texts_nil t : add_texts t [] [] [] = t.
Proof. destruct t. unfold add_texts. simpl. by rewrite !string_app_nil. Qed.

Lemma add_texts_app t bs cs ns bs' cs' ns' :
  add_texts (add_texts t bs cs ns) bs' cs' ns' = add_texts t (bs ++ bs') (cs ++ cs') (ns ++ ns').
Proof. unfold add_texts. simpl. by rewrite foldl_app, !unlines_app, !string_app_assoc. Qed.

(** A loop whose passes add to the texts or panic. *)
Lemma for_each_adds {A} (f : A → G unit) (ok : A → Prop) `{∀ a, Decision (ok a)}
    (b : A → list Body) (c n : A → list string) :
  (∀ a t, f a t = if decide (ok a) then Ret (tt, add_texts t (b a) (c a) (n a)) else Panicked) →
  ∀ l t, for_each f l t =
    if decide (Forall ok l) then Ret (tt, add_texts t (l ≫= b) (l ≫= c) (l ≫= n)) else Panicked.
Proof.
  intros Hf. induction l as [|a l IH]; intros t.
  { rewrite decide_True by constructor. simpl. by rewrite add_texts_nil. }
  simpl. unfold mbind, M_bind. rewrite Hf. destruct (decide (ok a)) as [Ha|Ha].
  - rewrite IH. destruct (decide (Forall ok l)) as [Hl|Hl].
    + rewrite decide_True by (by constructor). by rewrite add_texts_app.
    + by rewrite decide_False by (rewrite Forall_cons; tauto).
  - by rewrite decide_False by (rewrite Forall_cons; tauto).
Qed.

(** [g] where [p] holds. *)
Definition only_if {A B} (p : A → bool) (g : A → list B) (a : A) : list B :=
  if p a then g a else [].

Lemma bind_only_if {A B} (p : A → bool) (g : A → list B) l : l ≫= only_if p g = filter p l ≫= g.
Proof.
  induction l as [|x l IH]; [done|]. rewrite bind_cons, IH. unfold only_if at 1.
  rewrite filter_cons. destruct (p x) eqn:E.
  - rewrite decide_True by done. by rewrite bind_cons.
  - by rewrite decide_False by (intros []).
Qed.

Lemma visit_field_adds oneof field t :
  visit_field oneof field t =
    if decide (field_ok oneof field)
    then Ret (tt, add_texts t (only_if (is_content oneof) field_body field)
                   (only_if (is_content oneof) field_conversion field)
                   (only_if (is_content oneof) field_name_line field))
    else Panicked.
Proof.
  unfold visit_field, only_if.
  destruct (decide (field_ok oneof field)) as [Hok|Hok]; unfold field_ok in Hok;
    destruct (is_content oneof field) eqn:Ec; case_decide as Hn; simpl.
  - destruct Hn. apply bool_decide_eq_true_2. by apply Hok.
  - destruct Hok as [_ [[[v p] Eb] [own Ef]]]; [done|].
    unfold field_body, field_conversion, field_name_line, expect, mbind, M_bind.
    rewrite Eb, Ef. unfold add_texts, writeln. simpl. by rewrite !string_app_nil.
  - destruct Hok as [Hi _], Hn. apply bool_decide_eq_false_2. intros Hle. apply (proj1 Hi Hle).
  - by rewrite add_texts_nil.
  - done.
  - apply bool_decide_eq_true in Hn. unfold expect, mbind, M_bind.
    destruct (body_names field) as [[v p]|] eqn:Eb; [|done]. simpl. unfold mbind, M_bind. simpl.
    destruct (field_variant (f_name field)) as [own|] eqn:Ef; [|done].
    destruct Hok. split; [by split|eauto].
  - done.
  - apply bool_decide_eq_false in Hn. destruct Hok. split; simpl; tauto.
Qed.

Lemma envelope_module message : is_envelope message → module_name message = Some (module_of message).
Proof.
  unfold is_envelope, module_of, module_name. intros He.
  repeat case_decide; [done..|]. exfalso.
  apply orb_True in He as [He|He]; by apply bool_decide_unpack in He.
Qed.

Lemma visit_message_adds message t :
  visit_message message t =
    if decide (is_envelope message → envelope_ok message)
    then Ret (tt, add_texts t (only_if is_envelope (λ m, content_fields m ≫= field_body) message)
                   (only_if is_envelope conversion_lines message) (only_if is_envelope name_lines message))
    else Panicked.
Proof.
  unfold visit_message, only_if. destruct (decide _) as [Hok|Hok];
    destruct (is_envelope message) eqn:He; simpl;
    [|by rewrite add_texts_nil| |by destruct Hok];
    unfold envelope_ok in Hok; unfold conversion_lines, name_lines, content_fields, expect, mbind, M_bind;
    destruct (content_oneof message) as [oneof|]; simpl; [|by destruct Hok| |done];
    rewrite envelope_module by (by rewrite He); simpl;
    (erewrite for_each_adds by (intros; apply visit_field_adds)).
  - rewrite decide_True by (by apply Hok). rewrite !bind_only_if. simpl.
    unfold write_name, op, add_texts, writeln. simpl. rewrite !unlines_app. simpl.
    by rewrite !string_app_assoc, !string_app_nil.
  - by rewrite decide_False by (intros Hf; by apply Hok).
Qed.


(** *** The order of the bodies *)

Lemma string_compare_refl s : String.compare s s = Eq.
Proof.
  pose proof (String.compare_antisym s s) as H. by destruct (String.compare s s).
Qed.

Lemma string_compare_trans a b c :
  String.compare a b = Lt → String.compare b c = Lt → String.compare a c = Lt.
Proof.
  intros Hab%String_as_OT.cmp_lt Hbc%String_as_OT.cmp_lt.
  apply String_as_OT.cmp_lt. by eapply String_as_OT.lt_trans.
Qed.

Lemma body_compare_refl a : body_compare a a = Eq.
Proof. destruct a as [[v p] n]. simpl. by rewrite !string_compare_refl. Qed.

Lemma body_compare_eq a b : body_compare a b = Eq → a = b.
Proof.
  destruct a as [[v p] n], b as [[v' p'] n']. simpl.
  destruct (String.compare v v') eqn:Ev; [|done..].
  destruct (String.compare p p') eqn:Ep; [|done..]. intros En.
  apply String.compare_eq_iff in Ev, Ep, En. by subst.
Qed.

Lemma body_compare_antisym a b : body_compare a b = CompOpp (body_compare b a).
Proof.
  destruct a as [[v p] n], b as [[v' p'] n']. simpl.
  rewrite (String.compare_antisym v v'), (String.compare_antisym p p'),
    (String.compare_antisym n n').
  by destruct (String.compare v' v), (String.compare p' p).
Qed.

#[global] Instance body_lt_trans : Transitive body_lt.
Proof.
  intros [[v p] n] [[v' p'] n'] [[v'' p''] n'']. unfold body_lt. simpl.
  destruct (String.compare v v') eqn:Ev, (String.compare v' v'') eqn:Ev'; try done;
    try (apply String.compare_eq_iff in Ev; subst);
    try (apply String.compare_eq_iff in Ev'; subst); rewrite ?Ev, ?Ev'; try done.
  2: by rewrite (string_compare_trans v v' v'').
  rewrite string_compare_refl.
  destruct (String.compare p p') eqn:Ep, (String.compare p' p'') eqn:Ep'; try done;
    try (apply String.compare_eq_iff in Ep; subst);
    try (apply String.compare_eq_iff in Ep'; subst); rewrite ?Ep, ?Ep'; try done.
  2: by rewrite (string_compare_trans p p' p'').
  rewrite string_compare_refl. apply string_compare_trans.
Qed.

Lemma body_lt_irreflexive a : ¬ body_lt a a.
Proof. unfold body_lt. by rewrite body_compare_refl. Qed.

Lemma elem_of_insert_body x y set : y ∈ insert_body x set ↔ y = x ∨ y ∈ set.
Proof.
  induction set as [|z set IH]; simpl; [set_solver|].
  destruct (body_compare x z) eqn:E; [|set_solver..].
  apply body_compare_eq in E as ->. set_solver.
Qed.

Lemma insert_body_sorted x set :
  StronglySorted body_lt set → StronglySorted body_lt (insert_body x set).
Proof.
  induction 1 as [|y set Hs IH Hy]; simpl; [by repeat constructor|].
  destruct (body_compare x y) eqn:E.
  - by constructor.
  - do 2 constructor; [done..| |].
    + done.
    + eapply Forall_impl; [done|]. intros z Hz. by etrans.
  - constructor; [done|]. apply Forall_forall. intros z [->|Hz]%elem_of_insert_body.
    + unfold body_lt. by rewrite body_compare_antisym, E.
    + rewrite Forall_forall in Hy. by apply Hy.
Qed.

Lemma insert_bodies_sorted l set :
  StronglySorted body_lt set → StronglySorted body_lt (foldl (flip insert_body) set l).
Proof. revert set. induction l as [|x l IH]; intros set Hs; [done|]. by apply IH, insert_body_sorted. Qed.

Lemma elem_of_insert_bodies l set y : y ∈ foldl (flip insert_body) set l ↔ y ∈ l ∨ y ∈ set.
Proof.
  revert set. induction l as [|x l IH]; intros set; simpl; [set_solver|].
  rewrite IH. unfold flip. rewrite elem_of_insert_body. set_solver.
Qed.

Lemma body_sorted_nodup set : StronglySorted body_lt set → NoDup set.
Proof.
  induction 1 as [|x set Hs IH Hx]; constructor; [|done].
  intros Hin. rewrite Forall_forall in Hx. by apply (body_lt_irreflexive x), Hx.
Qed.

Lemma forall_filter {A} (p : A → bool) (Q : A → Prop) l :
  Forall (λ a, p a → Q a) l ↔ Forall Q (filter p l).
Proof. rewrite !Forall_forall. setoid_rewrite list_elem_of_filter. naive_solver. Qed.

(** The loop of [main] in full. *)
Lemma loop_exact descriptors texts :
  for_each visit_message (concat (message_type <$> descriptors)) texts =
    if decide (laid_out descriptors)
    then Ret (tt, add_texts texts
                    (envelopes descriptors ≫= λ m, content_fields m ≫= field_body)
                    (envelopes descriptors ≫= conversion_lines)
                    (envelopes descriptors ≫= name_lines))
    else Panicked.
Proof.
  unfold envelopes, laid_out. erewrite for_each_adds by (intros; apply visit_message_adds).
  rewrite !bind_only_if. destruct (decide (Forall envelope_ok _)) as [Hl|Hl].
  - by rewrite decide_True by (by apply forall_filter).
  - by rewrite decide_False by (rewrite forall_filter; done).
Qed.

(** *** The routing view *)

Lemma opaque_field_routes field : routes_field field (opaque_field field).
Proof. unfold routes_field, opaque_field. by case_decide. Qed.

Lemma opaque_field_idemp field : opaque_field (opaque_field field) = opaque_field field.
Proof. unfold opaque_field. repeat case_decide; by simplify_eq/=. Qed.

Lemma opaque_message_routes message : routes_message message (opaque_message message).
Proof.
  split_and!; [done|done| |intros oneof]; apply Forall2_fmap_r, Forall_Forall2_diag, Forall_true;
    intros field; [apply opaque_field_routes|]. simpl. unfold opaque_field.
  by destruct (decide (f_type field = TYPE_MESSAGE)).
Qed.

Lemma opaque_message_idemp message : opaque_message (opaque_message message) = opaque_message message.
Proof.
  unfold opaque_message. f_equal. simpl. rewrite <- list_fmap_compose.
  apply list_fmap_ext. intros i field _. apply opaque_field_idemp.
Qed.

(** All messages of the view are envelopes. *)
Lemma opaque_envelopes (l : list DescriptorProto) :
  filter is_envelope (opaque_message <$> filter is_envelope l) = opaque_message <$> filter is_envelope l.
Proof.
  induction l as [|x l IH]; [done|]. rewrite filter_cons.
  destruct (decide (is_envelope x)) as [He|He]; [|done].
  rewrite fmap_cons, filter_cons, decide_True by done. by rewrite IH.
Qed.

(** ** A reference, from the schema alone

    The layout and the texts again, written from what the sources should contain and
    without the code's own functions: names in one pass over their characters, files as
    lists of lines. *)
Module Reference.

Definition lower_letters : string := "abcdefghijklmnopqrstuvwxyz".
Definition upper_letters : string := "ABCDEFGHIJKLMNOPQRSTUVWXYZ".

Definition upper_letter (c : ascii) : ascii :=
  match String.index 0 (String c EmptyString) lower_letters with
  | Some i => default c (String.get i upper_letters)
  | None => c
  end.

(** snake_case to CamelCase, one character at a time; no word may be empty. *)
Fixpoint camel (start : bool) (s : string) : option string :=
  match s with
  | EmptyString => if start then None else Some EmptyString
  | String c s =>
      if decide (c = "_"%char) then if start then None else camel true s
      else String (if start then upper_letter c else c) <$> camel false s
  end.

Fixpoint has_dot (s : string) : bool :=
  match s with
  | EmptyString => false
  | String c s => bool_decide (c = "."%char) || has_dot s
  end.

(** The longest end of a path without a dot. *)
Fixpoint last_segment (s : string) : string :=
  match s with
  | EmptyString => EmptyString
  | String c rest => if has_dot s then last_segment rest else s
  end.

(** A field of the first oneof called content. *)
Definition in_content (message : DescriptorProto) (field : FieldDescriptorProto) : Prop :=
  match f_oneof_index field with
  | Some z =>
      (0 ≤ z)%Z ∧ m_oneof_decl message !! Z.to_nat z = Some "content"
      ∧ "content" ∉ take (Z.to_nat z) (m_oneof_decl message)
  | None => False
  end.

#[global] Instance in_content_dec message field : Decision (in_content message field).
Proof. unfold in_content. destruct (f_oneof_index field); apply _. Defined.

Definition envelopes (descriptors : list FileDescriptorProto) : list DescriptorProto :=
  filter (λ m, m_name m = "HostToArk" ∨ m_name m = "ArkToHost")
    (concat (message_type <$> descriptors)).

Definition content (message : DescriptorProto) : list FieldDescriptorProto :=
  filter (in_content message) (m_field message).

(** Variant, payload type and field name of a content: its message, or develop bytes. *)
Definition body (field : FieldDescriptorProto) : option Body :=
  match f_type_name field with
  | Some path => Some (last_segment path, last_segment path, f_name field)
  | None =>
      if decide (f_type field = TYPE_BYTES ∧ f_name field = "develop")
      then Some ("Develop", "Vec<u8>", f_name field) else None
  end.

(** The tag layout, and that every content can be named. *)
Definition field_ok (message : DescriptorProto) (field : FieldDescriptorProto) : Prop :=
  ((0x100 ≤ f_number field)%Z ↔ in_content message field)
  ∧ (in_content message field →
     is_Some (body field) ∧ is_Some (camel true (f_name field))).

Definition laid_out (descriptors : list FileDescriptorProto) : Prop :=
  Forall (λ m, "content" ∈ m_oneof_decl m ∧ Forall (field_ok m) (m_field m))
    (envelopes descriptors).

Definition module_path (message : DescriptorProto) : string :=
  if decide (m_name message = "HostToArk") then "host_to_ark" else "ark_to_host".

Definition conversion (field : FieldDescriptorProto) : list string :=
  match body field, camel true (f_name field) with
  | Some (variant, _, _), Some own => ["    " +:+ own +:+ " => " +:+ variant +:+ ","]
  | _, _ => []
  end.

Definition name_lookup (field : FieldDescriptorProto) : list string :=
  match camel true (f_name field) with
  | Some own =>
      ["            Self::" +:+ own +:+ "(..) => " +:+ quote +:+ f_name field +:+ quote +:+ ","]
  | None => []
  end.

Definition header : string := "// This file is @generated by generator/src/main.rs.".

(** The lines of [message.rs]: one variant per body, the conversions of each envelope,
    and the field name of each body. *)
Definition message_lines (bodies : list Body) (envelopes : list DescriptorProto) : list string :=
  [header; "messages! {"]
  ++ ((λ '(variant, payload, _), "    " +:+ variant +:+ "(" +:+ payload +:+ "),") <$> bodies)
  ++ ["}"]
  ++ (envelopes ≫= λ m,
        ("contents! { " +:+ module_path m +:+ ",") :: (content m ≫= conversion) ++ ["}"])%list
  ++ ["impl Message {";
      "    /// Returns the payload's protobuf field name for log lines.";
      "    pub(super) fn field_name(&self) -> &'static str {";
      "        match self {"]
  ++ ((λ '(variant, _, name),
         "            Self::" +:+ variant +:+ "(..) => " +:+ quote +:+ name +:+ quote +:+ ",")
      <$> bodies)
  ++ ["        }"; "    }"; "}"].

(** The lines of [darkbio.wire.names.rs]. *)
Definition names_lines (envelopes : list DescriptorProto) : list string :=
  header :: (envelopes ≫= λ m,
    ["impl opaque::" +:+ module_path m +:+ "::Content {";
     "    fn name(&self) -> &'static str {"; "        match self {"]
    ++ (content m ≫= name_lookup) ++ ["        }"; "    }"; "}"])%list.

(** The order of the enumeration: by variant, then payload, then field name. *)
Definition before (a b : Body) : Prop :=
  let '(variant, payload, name) := a in
  let '(variant', payload', name') := b in
  String.compare variant variant' = Lt
  ∨ variant = variant' ∧ (String.compare payload payload' = Lt
    ∨ payload = payload' ∧ String.compare name name' = Lt).

(** A file and its routing view: the envelopes alone, messages left as bytes. *)
Definition view (file file' : FileDescriptorProto) : Prop :=
  file_name file' = file_name file ∧ package file' = Some "darkbio.wire.opaque"
  ∧ enum_type file' = []
  ∧ Forall2 (λ m m', m_name m' = m_name m ∧ m_oneof_decl m' = m_oneof_decl m
               ∧ Forall2 routes_field (m_field m) (m_field m'))
      (envelopes [file]) (message_type file').

(** *** The code's functions agree with it *)

Lemma upper_letter_eq (c : ascii) : to_uppercase c = upper_letter c.
Proof. by destruct c as [[] [] [] [] [] [] [] []]. Qed.

Lemma concat_cons (x : string) xs :
  String.concat EmptyString (x :: xs) = x +:+ String.concat EmptyString xs.
Proof. destruct xs; [|done]. simpl. by rewrite string_app_nil. Qed.

Lemma split_cons sep s : ∃ w ws, split sep s = w :: ws.
Proof.
  induction s as [|c s (w & ws & IH)]; simpl; [by eauto|].
  case_decide; [by eauto|]. rewrite IH. eauto.
Qed.

Lemma mapM_cons {A B} (f : A → option B) x xs :
  mapM f (x :: xs) = match f x, mapM f xs with Some y, Some ys => Some (y :: ys) | _, _ => None end.
Proof. simpl. destruct (f x); [|done]. simpl. by destruct (mapM f xs). Qed.

(** Past the first letter of a word, and at its start. *)
Lemma camel_split s :
  (∀ w ws, split "_" s = w :: ws →
    camel false s = (λ t, w +:+ t) <$> (String.concat EmptyString <$> mapM capitalize ws))
  ∧ camel true s = String.concat EmptyString <$> mapM capitalize (split "_" s).
Proof.
  induction s as [|c s [IHf IHt]]; [by split; [intros w ws [= <- <-]|]|].
  destruct (split_cons "_" s) as (w & ws & Hw). specialize (IHf w ws Hw). simpl.
  case_decide as Hc.
  - split; [|done]. intros w' ws' [= <- <-]. rewrite IHt.
    by destruct (mapM capitalize (split "_" s)).
  - rewrite Hw. split.
    + intros w' ws' [= <- <-]. rewrite IHf. by destruct (mapM capitalize ws).
    + rewrite IHf, mapM_cons. simpl. rewrite upper_letter_eq.
      destruct (mapM capitalize ws) as [ys|]; [|done]. cbn [fmap option_fmap option_map].
      by rewrite concat_cons.
Qed.

Lemma camel_eq name : field_variant name = camel true name.
Proof. unfold field_variant. symmetry. apply camel_split. Qed.

Lemma split_no_dot s : has_dot s = false → split "." s = [s].
Proof.
  induction s as [|c s IH]; simpl; [done|]. case_bool_decide as Hc; [done|]. simpl.
  intros Hs. by rewrite decide_False, IH by done.
Qed.

Lemma last_segment_eq s : last (split "." s) = Some (last_segment s).
Proof.
  induction s as [|c s IH]; [done|]. destruct (has_dot (String c s)) eqn:Ed.
  - destruct (split_cons "." s) as (w & ws & Hw). cbn [last_segment]. rewrite Ed. simpl.
    rewrite Hw in *. case_decide as Hc; [by rewrite last_cons_cons|].
    destruct ws as [|w' ws]; [|by rewrite last_cons_cons in *].
    simpl in Ed. rewrite bool_decide_eq_false_2 in Ed by done. simpl in Ed.
    exfalso. revert Hw Ed. clear. revert w. induction s as [|c s IH]; intros w; simpl; [done|].
    destruct (split_cons "." s) as (v & vs & Hv). rewrite Hv.
    case_decide; [by intros [=]|]. rewrite bool_decide_eq_false_2 by done. simpl.
    intros [= _ ->]. by apply (IH v).
  - rewrite split_no_dot by done. cbn [last_segment]. by rewrite Ed.
Qed.

Lemma body_eq field :
  body field = (λ '(variant, payload), (variant, payload, f_name field)) <$> body_names field.
Proof.
  unfold body, body_names. destruct (f_type_name field) as [path|].
  - by rewrite last_segment_eq.
  - repeat case_decide; try done; naive_solver.
Qed.

Lemma envelopes_eq descriptors : Generator.envelopes descriptors = envelopes descriptors.
Proof.
  unfold Generator.envelopes, envelopes. apply list_filter_iff. intros m. unfold is_envelope.
  rewrite Is_true_true, orb_true_iff, !bool_decide_eq_true. done.
Qed.
Lemma content_oneof_spec message i :
  content_oneof message = Some i ↔
  m_oneof_decl message !! i = Some "content" ∧ "content" ∉ take i (m_oneof_decl message).
Proof.
  unfold content_oneof. rewrite fmap_Some. split.
  - intros ([j x] & Hf & ->). apply list_find_Some in Hf as (Hj & -> & Hb). split; [done|].
    intros Hin. apply list_elem_of_lookup in Hin as [k Hk].
    apply lookup_take_Some in Hk as [Hk Hlt]. by apply (Hb k "content").
  - intros [Hi Hb]. exists (i, "content"). split; [|done]. apply list_find_Some.
    split_and!; [done..|]. intros j y Hj Hlt ->. apply Hb, list_elem_of_lookup.
    exists j. by apply lookup_take_Some.
Qed.

Lemma content_oneof_None message :
  content_oneof message = None ↔ "content" ∉ m_oneof_decl message.
Proof.
  unfold content_oneof. rewrite fmap_None, list_find_None, Forall_forall. naive_solver.
Qed.

Lemma in_content_eq message i field :
  content_oneof message = Some i → (is_content i field ↔ in_content message field).
Proof.
  intros Hi. unfold is_content, in_content. rewrite bool_decide_spec.
  destruct (f_oneof_index field) as [z|]; [|by split].
  rewrite <-content_oneof_spec, Hi. split.
  - intros [= ->]. split; [lia|]. f_equal. lia.
  - intros (Hz & [= ->]). by rewrite Z2Nat.id.
Qed.

Lemma no_content message field : content_oneof message = None → ¬ in_content message field.
Proof.
  intros Hn%content_oneof_None. unfold in_content.
  destruct (f_oneof_index field) as [z|]; [|by intros []]. intros (_ & Hz & _).
  by apply Hn, (list_elem_of_lookup_2 _ _ _ Hz).
Qed.

Lemma content_eq message : content_fields message = content message.
Proof.
  unfold content_fields, content. destruct (content_oneof message) as [i|] eqn:Ei.
  - apply list_filter_iff. intros field. by apply in_content_eq.
  - induction (m_field message) as [|field l IH]; [done|].
    by rewrite filter_cons, decide_False by (by apply no_content).
Qed.

Lemma is_Some_body field : is_Some (body field) ↔ is_Some (body_names field).
Proof. rewrite body_eq. apply fmap_is_Some. Qed.

Lemma envelope_ok_eq message :
  envelope_ok message ↔
  "content" ∈ m_oneof_decl message ∧ Forall (field_ok message) (m_field message).
Proof.
  unfold envelope_ok. destruct (content_oneof message) as [i|] eqn:Ei.
  - assert ("content" ∈ m_oneof_decl message) as Hin
      by (apply content_oneof_spec in Ei as [Hi _]; by eapply list_elem_of_lookup_2).
    rewrite !Forall_forall. unfold Generator.field_ok, field_ok.
    setoid_rewrite (in_content_eq message i _ Ei). setoid_rewrite is_Some_body.
    setoid_rewrite camel_eq. naive_solver.
  - apply content_oneof_None in Ei. naive_solver.
Qed.

Lemma laid_out_eq descriptors : Generator.laid_out descriptors ↔ laid_out descriptors.
Proof.
  unfold Generator.laid_out, laid_out. rewrite envelopes_eq, !Forall_forall.
  by setoid_rewrite envelope_ok_eq.
Qed.

Lemma conversion_eq field : field_conversion field = conversion field.
Proof.
  unfold field_conversion, conversion. rewrite body_eq, camel_eq.
  by destruct (body_names field) as [[variant payload]|].
Qed.

Lemma name_lookup_eq field : field_name_line field = name_lookup field.
Proof.
  unfold field_name_line, name_lookup. rewrite camel_eq.
  destruct (camel true (f_name field)) as [own|]; [|done]. unfold name_row, debug.
  by rewrite !string_app_assoc.
Qed.

Lemma field_body_eq field b : b ∈ field_body field ↔ body field = Some b.
Proof.
  unfold field_body. rewrite body_eq. destruct (body_names field) as [[variant payload]|]; simpl.
  - rewrite list_elem_of_singleton. naive_solver.
  - split; [by intros ?%elem_of_nil|done].
Qed.

Lemma bind_ext_in {A B} (f g : A → list B) (l : list A) :
  (∀ x, x ∈ l → f x = g x) → l ≫= f = l ≫= g.
Proof.
  induction l as [|x l IH]; intros Hfg; [done|]. rewrite !bind_cons, Hfg, IH; set_solver.
Qed.

Lemma module_eq descriptors m :
  m ∈ envelopes descriptors → module_of m = module_path m.
Proof.
  intros [Hm _]%list_elem_of_filter. unfold module_of, module_name, module_path.
  repeat case_decide; try done. naive_solver.
Qed.

Lemma write_rows_unlines {B} (row : B → string) l text :
  write_rows row l text = text +:+ unlines (row <$> l).
Proof.
  revert text. induction l as [|x l IH]; intros text; simpl; [by rewrite string_app_nil|].
  unfold write_rows in *. simpl. rewrite IH. unfold writeln. by rewrite !string_app_assoc.
Qed.

Lemma rows_eq {B} (f g : B → string) (l : list B) : (∀ b, f b = g b) → f <$> l = g <$> l.
Proof. intros Hfg. apply list_fmap_ext. intros i b _. apply Hfg. Qed.

Lemma message_rs_eq bodies descriptors :
  message_rs bodies (unlines (Generator.envelopes descriptors ≫= conversion_lines))
  = unlines (message_lines bodies (envelopes descriptors)).
Proof.
  unfold message_rs, message_lines. rewrite !write_rows_unlines. unfold writeln.
  rewrite envelopes_eq, !unlines_app.
  rewrite (bind_ext_in conversion_lines (λ m, ("contents! { " +:+ module_path m +:+ ",")
    :: (content m ≫= conversion) ++ ["}"])%list); [|intros m Hm; unfold conversion_lines;
    rewrite (module_eq descriptors), content_eq by done; f_equal; f_equal;
    apply bind_ext_in; intros; apply conversion_eq].
  rewrite (rows_eq enum_row (λ '(variant, payload, _), "    " +:+ variant +:+ "(" +:+ payload +:+ "),"))
    by (by intros [[variant payload] name]).
  rewrite (rows_eq field_name_row (λ '(variant, _, name), "            Self::" +:+ variant
    +:+ "(..) => " +:+ quote +:+ name +:+ quote +:+ ","))
    by (intros [[variant payload] name]; simpl; unfold name_row, debug; by rewrite !string_app_assoc).
  simpl. by rewrite !string_app_assoc.
Qed.

Lemma names_rs_eq descriptors :
  unlines (generated_by :: (Generator.envelopes descriptors ≫= name_lines))
  = unlines (names_lines (envelopes descriptors)).
Proof.
  rewrite envelopes_eq. unfold names_lines. do 2 f_equal. apply bind_ext_in. intros m Hm.
  unfold name_lines. rewrite (module_eq descriptors), content_eq by done. do 2 f_equal.
  apply bind_ext_in. intros; apply name_lookup_eq.
Qed.

Lemma before_lt a b : body_lt a b ↔ before a b.
Proof.
  destruct a as [[va pa] na], b as [[vb pb] nb]. unfold body_lt, before, body_compare.
  assert (∀ x y, String.compare x y = Eq ↔ x = y) as He by apply String_as_OT.cmp_eq.
  assert (∀ x c, String.compare x x = c → c = Eq) as Hi by (intros x c <-; by apply He).
  destruct (String.compare va vb) eqn:E1; rewrite ?He in E1; subst; [|naive_solver|].
  - destruct (String.compare pa pb) eqn:E2; rewrite ?He in E2; subst; [|naive_solver|].
    + split; [naive_solver|]. intros [H|[_ [H|[_ H]]]]; first [done|by apply Hi in H].
    + split; [done|]. intros [H|[_ [H|[-> _]]]]; first [done|by apply Hi in H|by apply Hi in E2].
  - split; [done|]. intros [H|[-> _]]; [done|]. by apply Hi in E1.
Qed.

Lemma sorted_eq bodies : StronglySorted body_lt bodies → StronglySorted before bodies.
Proof.
  induction 1 as [|b bodies _ IH Hb]; constructor; [done|].
  eapply Forall_impl; [exact Hb|]. intros c. by rewrite before_lt.
Qed.

Lemma opaque_view file : view file (opaque_file file).
Proof.
  split_and!; [done..|]. rewrite <-envelopes_eq. unfold Generator.envelopes. simpl.
  rewrite app_nil_r. apply Forall2_fmap_r, Forall_Forall2_diag, Forall_true. intros m.
  split_and!; [done..|]. apply Forall2_fmap_r, Forall_Forall2_diag, Forall_true.
  apply opaque_field_routes.
Qed.
End Reference.

(** ** Claims *)

(** C34: The generator, on any descriptors, against the reference. It panics exactly
    where an envelope is not laid out right: without a content oneof, with a content
    whose tag is below 0x100 or another field whose tag is not, or with a content that
    has no body or variant name. Otherwise it returns and writes [message.rs], whose
    lines are one variant per body, then per envelope the conversion of each of its
    contents from the CamelCase of the field's name to the last part of its type's
    name, then the field name of each body; and [darkbio.wire.names.rs], whose lines
    are the names of each envelope's contents. The bodies are strictly sorted, so one
    that travels both ways is there once, and are exactly those of the envelopes'
    contents. Bindings are compiled of a routing view of every file, the envelopes
    alone with messages left as bytes, and of the descriptors themselves. *)
Theorem generator_exact (descriptors : list FileDescriptorProto) :
  (¬ Reference.laid_out descriptors → main descriptors = Panicked)
  ∧ (Reference.laid_out descriptors →
     ∃ bodies opaque,
       main descriptors =
         Ret [WriteFile "message.rs"
                (unlines (Reference.message_lines bodies (Reference.envelopes descriptors)));
              WriteFile "darkbio.wire.names.rs"
                (unlines (Reference.names_lines (Reference.envelopes descriptors)));
              CompileFds opaque;
              CompileFds descriptors]
       ∧ StronglySorted Reference.before bodies ∧ NoDup bodies
       ∧ (∀ b, b ∈ bodies ↔
           ∃ message field, message ∈ Reference.envelopes descriptors
             ∧ field ∈ Reference.content message ∧ Reference.body field = Some b)
       ∧ Forall2 Reference.view descriptors opaque).
Proof.
  rewrite <-Reference.laid_out_eq. unfold main. rewrite loop_exact.
  case_decide as Hl; split; intros Hl'; [done| |done|done].
  set (bodies := foldl (flip insert_body) []
    (envelopes descriptors ≫= λ m, content_fields m ≫= field_body)).
  assert (StronglySorted body_lt bodies) as Hs by (apply insert_bodies_sorted; constructor).
  exists bodies, (opaque_file <$> descriptors). split_and!.
  - rewrite <-Reference.message_rs_eq, <-Reference.names_rs_eq.
    unfold add_texts, writeln. simpl. by rewrite !string_app_assoc.
  - by apply Reference.sorted_eq.
  - by apply body_sorted_nodup.
  - intros b. unfold bodies. rewrite elem_of_insert_bodies, list_elem_of_bind.
    setoid_rewrite list_elem_of_bind. rewrite Reference.envelopes_eq.
    setoid_rewrite Reference.content_eq. setoid_rewrite Reference.field_body_eq. set_solver.
  - apply Forall2_fmap_r, Forall_Forall2_diag, Forall_true. apply Reference.opaque_view.
Qed.

(** The routing view. Of a file it has exactly the envelopes, in order and under the
    same names, each with the same content oneof and the same fields: name, number,
    label, oneof and presence as in the schema, messages replaced by bytes and every
    other type kept. Deriving the view of the view changes nothing. *)
Theorem opaque_view_exact (file : FileDescriptorProto) :
  Forall2 routes_message (envelopes [file]) (message_type (opaque_file file))
  ∧ enum_type (opaque_file file) = []
  ∧ opaque_file (opaque_file file) = opaque_file file.
Proof.
  split_and!; [|done|].
  - unfold envelopes. simpl. rewrite app_nil_r. apply Forall2_fmap_r, Forall_Forall2_diag.
    apply Forall_true. intros message. apply opaque_message_routes.
  - unfold opaque_file. f_equal. simpl. rewrite opaque_envelopes, <- list_fmap_compose.
    apply list_fmap_ext. intros i message _. apply opaque_message_idemp.
Qed.
