(* ===== verification/WireProto.v ===== *)
(** * The schema's descriptors ([proto/wire.proto])

    What the schema declares, in the shape a protobuf compiler hands to a code
    generator: the messages and enumerations of the file in order, the fields of
    each with number, label, type and oneof. An optional field is alone in a oneof
    of its own, declared after the written ones and named after the field. *)

From S2P Require Import Prelude Generator.
#[local] Open Scope string_scope.
#[local] Open Scope Z_scope.

(** [HostToArk] *)
Definition host_to_ark : DescriptorProto :=
  MkDescriptor "HostToArk"
    [MkField "id" 1 LABEL_OPTIONAL TYPE_UINT64 None None false;
     MkField "err" 2 LABEL_OPTIONAL TYPE_MESSAGE (Some ".darkbio.wire.Error") (Some 1%Z) true;
     MkField "onboard" 256 LABEL_OPTIONAL TYPE_MESSAGE (Some ".darkbio.wire.OnboardingRequest") (Some 0%Z) false;
     MkField "device_info" 257 LABEL_OPTIONAL TYPE_MESSAGE (Some ".darkbio.wire.DeviceInfoRequest") (Some 0%Z) false;
     MkField "cloud_sync_start" 258 LABEL_OPTIONAL TYPE_MESSAGE (Some ".darkbio.wire.CloudSyncStartRequest") (Some 0%Z) false;
     MkField "cloud_sync_finish" 259 LABEL_OPTIONAL TYPE_MESSAGE (Some ".darkbio.wire.CloudSyncFinishRequest") (Some 0%Z) false;
     MkField "genuinity_proof" 260 LABEL_OPTIONAL TYPE_MESSAGE (Some ".darkbio.wire.GenuinityProofRequest") (Some 0%Z) false;
     MkField "firmware_update_prep" 513 LABEL_OPTIONAL TYPE_MESSAGE (Some ".darkbio.wire.FirmwareUpdatePrepRequest") (Some 0%Z) false;
     MkField "firmware_update_init" 514 LABEL_OPTIONAL TYPE_MESSAGE (Some ".darkbio.wire.FirmwareUpdateInitRequest") (Some 0%Z) false;
     MkField "firmware_update_upload" 515 LABEL_OPTIONAL TYPE_MESSAGE (Some ".darkbio.wire.FirmwareUpdateUploadRequest") (Some 0%Z) false;
     MkField "firmware_update_verify" 516 LABEL_OPTIONAL TYPE_MESSAGE (Some ".darkbio.wire.FirmwareUpdateVerifyRequest") (Some 0%Z) false;
     MkField "firmware_update_install" 517 LABEL_OPTIONAL TYPE_MESSAGE (Some ".darkbio.wire.FirmwareUpdateInstallRequest") (Some 0%Z) false;
     MkField "pairing_auth" 769 LABEL_OPTIONAL TYPE_MESSAGE (Some ".darkbio.wire.PairingAuthRequest") (Some 0%Z) false;
     MkField "pairing_set_app_id" 770 LABEL_OPTIONAL TYPE_MESSAGE (Some ".darkbio.wire.PairingSetAppIdentityRequest") (Some 0%Z) false;
     MkField "pairing_set_app_storage" 771 LABEL_OPTIONAL TYPE_MESSAGE (Some ".darkbio.wire.PairingSetAppStorageRequest") (Some 0%Z) false;
     MkField "pairing_ack_ark_storage" 772 LABEL_OPTIONAL TYPE_MESSAGE (Some ".darkbio.wire.PairingAckArkStorageRequest") (Some 0%Z) false;
     MkField "pairing_accept" 773 LABEL_OPTIONAL TYPE_MESSAGE (Some ".darkbio.wire.PairingAcceptanceRequest") (Some 0%Z) false;
     MkField "pairing_complete" 774 LABEL_OPTIONAL TYPE_MESSAGE (Some ".darkbio.wire.PairingCompletionRequest") (Some 0%Z) false;
     MkField "relay_join" 1025 LABEL_OPTIONAL TYPE_MESSAGE (Some ".darkbio.wire.RelayJoinRequest") (Some 0%Z) false;
     MkField "relay_inbound" 1026 LABEL_OPTIONAL TYPE_MESSAGE (Some ".darkbio.wire.RelayInboundRequest") (Some 0%Z) false;
     MkField "relay_outbound" 1027 LABEL_OPTIONAL TYPE_MESSAGE (Some ".darkbio.wire.RelayOutboundResponse") (Some 0%Z) false;
     MkField "unlock" 1281 LABEL_OPTIONAL TYPE_MESSAGE (Some ".darkbio.wire.UnlockRequest") (Some 0%Z) false;
     MkField "exec_create" 1282 LABEL_OPTIONAL TYPE_MESSAGE (Some ".darkbio.wire.ExecutionCreateRequest") (Some 0%Z) false;
     MkField "exec_load" 1283 LABEL_OPTIONAL TYPE_MESSAGE (Some ".darkbio.wire.ExecutionLoadRequest") (Some 0%Z) false;
     MkField "exec_start" 1284 LABEL_OPTIONAL TYPE_MESSAGE (Some ".darkbio.wire.ExecutionStartRequest") (Some 0%Z) false;
     MkField "exec_status" 1285 LABEL_OPTIONAL TYPE_MESSAGE (Some ".darkbio.wire.ExecutionStatusRequest") (Some 0%Z) false;
     MkField "exec_cancel" 1286 LABEL_OPTIONAL TYPE_MESSAGE (Some ".darkbio.wire.ExecutionCancelRequest") (Some 0%Z) false;
     MkField "exec_result" 1287 LABEL_OPTIONAL TYPE_MESSAGE (Some ".darkbio.wire.ExecutionResultRequest") (Some 0%Z) false;
     MkField "exec_output" 1288 LABEL_OPTIONAL TYPE_MESSAGE (Some ".darkbio.wire.ExecutionOutputRequest") (Some 0%Z) false;
     MkField "exec_module_size" 1289 LABEL_OPTIONAL TYPE_MESSAGE (Some ".darkbio.wire.ExecutionModuleSizeResponse") (Some 0%Z) false;
     MkField "exec_module_read" 1290 LABEL_OPTIONAL TYPE_MESSAGE (Some ".darkbio.wire.ExecutionModuleReadResponse") (Some 0%Z) false;
     MkField "slot_list" 1537 LABEL_OPTIONAL TYPE_MESSAGE (Some ".darkbio.wire.SlotListRequest") (Some 0%Z) false;
     MkField "slot_repair" 1538 LABEL_OPTIONAL TYPE_MESSAGE (Some ".darkbio.wire.SlotRepairRequest") (Some 0%Z) false;
     MkField "slot_delete" 1539 LABEL_OPTIONAL TYPE_MESSAGE (Some ".darkbio.wire.SlotDeleteRequest") (Some 0%Z) false;
     MkField "slot_identify" 1540 LABEL_OPTIONAL TYPE_MESSAGE (Some ".darkbio.wire.SlotIdentifyRequest") (Some 0%Z) false;
     MkField "slot_upload_start" 1541 LABEL_OPTIONAL TYPE_MESSAGE (Some ".darkbio.wire.SlotUploadStartRequest") (Some 0%Z) false;
     MkField "slot_upload_chunk" 1542 LABEL_OPTIONAL TYPE_MESSAGE (Some ".darkbio.wire.SlotUploadChunkRequest") (Some 0%Z) false;
     MkField "slot_upload_cancel" 1543 LABEL_OPTIONAL TYPE_MESSAGE (Some ".darkbio.wire.SlotUploadCancelRequest") (Some 0%Z) false;
     MkField "slot_upload_process" 1544 LABEL_OPTIONAL TYPE_MESSAGE (Some ".darkbio.wire.SlotUploadProcessRequest") (Some 0%Z) false;
     MkField "dataset_paths" 1793 LABEL_OPTIONAL TYPE_MESSAGE (Some ".darkbio.wire.DatasetPathsRequest") (Some 0%Z) false;
     MkField "develop" 4096 LABEL_OPTIONAL TYPE_BYTES None (Some 0%Z) false]
    ["content"; "_err"].

(** [ArkToHost] *)
Definition ark_to_host : DescriptorProto :=
  MkDescriptor "ArkToHost"
    [MkField "id" 1 LABEL_OPTIONAL TYPE_UINT64 None None false;
     MkField "err" 2 LABEL_OPTIONAL TYPE_MESSAGE (Some ".darkbio.wire.Error") (Some 1%Z) true;
     MkField "onboard" 256 LABEL_OPTIONAL TYPE_MESSAGE (Some ".darkbio.wire.OnboardingResponse") (Some 0%Z) false;
     MkField "device_info" 257 LABEL_OPTIONAL TYPE_MESSAGE (Some ".darkbio.wire.DeviceInfoResponse") (Some 0%Z) false;
     MkField "cloud_sync_start" 258 LABEL_OPTIONAL TYPE_MESSAGE (Some ".darkbio.wire.CloudSyncStartResponse") (Some 0%Z) false;
     MkField "cloud_sync_finish" 259 LABEL_OPTIONAL TYPE_MESSAGE (Some ".darkbio.wire.CloudSyncFinishResponse") (Some 0%Z) false;
     MkField "genuinity_proof" 260 LABEL_OPTIONAL TYPE_MESSAGE (Some ".darkbio.wire.GenuinityProofResponse") (Some 0%Z) false;
     MkField "firmware_update_prep" 513 LABEL_OPTIONAL TYPE_MESSAGE (Some ".darkbio.wire.FirmwareUpdatePrepResponse") (Some 0%Z) false;
     MkField "firmware_update_init" 514 LABEL_OPTIONAL TYPE_MESSAGE (Some ".darkbio.wire.FirmwareUpdateInitResponse") (Some 0%Z) false;
     MkField "firmware_update_upload" 515 LABEL_OPTIONAL TYPE_MESSAGE (Some ".darkbio.wire.FirmwareUpdateUploadResponse") (Some 0%Z) false;
     MkField "firmware_update_verify" 516 LABEL_OPTIONAL TYPE_MESSAGE (Some ".darkbio.wire.FirmwareUpdateVerifyResponse") (Some 0%Z) false;
     MkField "firmware_update_install" 517 LABEL_OPTIONAL TYPE_MESSAGE (Some ".darkbio.wire.FirmwareUpdateInstallResponse") (Some 0%Z) false;
     MkField "pairing_auth" 769 LABEL_OPTIONAL TYPE_MESSAGE (Some ".darkbio.wire.PairingAuthResponse") (Some 0%Z) false;
     MkField "pairing_set_app_id" 770 LABEL_OPTIONAL TYPE_MESSAGE (Some ".darkbio.wire.PairingSetAppIdentityResponse") (Some 0%Z) false;
     MkField "pairing_set_app_storage" 771 LABEL_OPTIONAL TYPE_MESSAGE (Some ".darkbio.wire.PairingSetAppStorageResponse") (Some 0%Z) false;
     MkField "pairing_ack_ark_storage" 772 LABEL_OPTIONAL TYPE_MESSAGE (Some ".darkbio.wire.PairingAckArkStorageResponse") (Some 0%Z) false;
     MkField "pairing_accept" 773 LABEL_OPTIONAL TYPE_MESSAGE (Some ".darkbio.wire.PairingAcceptanceResponse") (Some 0%Z) false;
     MkField "pairing_complete" 774 LABEL_OPTIONAL TYPE_MESSAGE (Some ".darkbio.wire.PairingCompletionResponse") (Some 0%Z) false;
     MkField "relay_join" 1025 LABEL_OPTIONAL TYPE_MESSAGE (Some ".darkbio.wire.RelayJoinResponse") (Some 0%Z) false;
     MkField "relay_inbound" 1026 LABEL_OPTIONAL TYPE_MESSAGE (Some ".darkbio.wire.RelayInboundResponse") (Some 0%Z) false;
     MkField "relay_outbound" 1027 LABEL_OPTIONAL TYPE_MESSAGE (Some ".darkbio.wire.RelayOutboundRequest") (Some 0%Z) false;
     MkField "unlock" 1281 LABEL_OPTIONAL TYPE_MESSAGE (Some ".darkbio.wire.UnlockResponse") (Some 0%Z) false;
     MkField "exec_create" 1282 LABEL_OPTIONAL TYPE_MESSAGE (Some ".darkbio.wire.ExecutionCreateResponse") (Some 0%Z) false;
     MkField "exec_load" 1283 LABEL_OPTIONAL TYPE_MESSAGE (Some ".darkbio.wire.ExecutionLoadResponse") (Some 0%Z) false;
     MkField "exec_start" 1284 LABEL_OPTIONAL TYPE_MESSAGE (Some ".darkbio.wire.ExecutionStartResponse") (Some 0%Z) false;
     MkField "exec_status" 1285 LABEL_OPTIONAL TYPE_MESSAGE (Some ".darkbio.wire.ExecutionStatusResponse") (Some 0%Z) false;
     MkField "exec_cancel" 1286 LABEL_OPTIONAL TYPE_MESSAGE (Some ".darkbio.wire.ExecutionCancelResponse") (Some 0%Z) false;
     MkField "exec_result" 1287 LABEL_OPTIONAL TYPE_MESSAGE (Some ".darkbio.wire.ExecutionResultResponse") (Some 0%Z) false;
     MkField "exec_output" 1288 LABEL_OPTIONAL TYPE_MESSAGE (Some ".darkbio.wire.ExecutionOutputResponse") (Some 0%Z) false;
     MkField "exec_module_size" 1289 LABEL_OPTIONAL TYPE_MESSAGE (Some ".darkbio.wire.ExecutionModuleSizeRequest") (Some 0%Z) false;
     MkField "exec_module_read" 1290 LABEL_OPTIONAL TYPE_MESSAGE (Some ".darkbio.wire.ExecutionModuleReadRequest") (Some 0%Z) false;
     MkField "slot_list" 1537 LABEL_OPTIONAL TYPE_MESSAGE (Some ".darkbio.wire.SlotListResponse") (Some 0%Z) false;
     MkField "slot_repair" 1538 LABEL_OPTIONAL TYPE_MESSAGE (Some ".darkbio.wire.SlotRepairResponse") (Some 0%Z) false;
     MkField "slot_delete" 1539 LABEL_OPTIONAL TYPE_MESSAGE (Some ".darkbio.wire.SlotDeleteResponse") (Some 0%Z) false;
     MkField "slot_identify" 1540 LABEL_OPTIONAL TYPE_MESSAGE (Some ".darkbio.wire.SlotIdentifyResponse") (Some 0%Z) false;
     MkField "slot_upload_start" 1541 LABEL_OPTIONAL TYPE_MESSAGE (Some ".darkbio.wire.SlotUploadStartResponse") (Some 0%Z) false;
     MkField "slot_upload_chunk" 1542 LABEL_OPTIONAL TYPE_MESSAGE (Some ".darkbio.wire.SlotUploadChunkResponse") (Some 0%Z) false;
     MkField "slot_upload_cancel" 1543 LABEL_OPTIONAL TYPE_MESSAGE (Some ".darkbio.wire.SlotUploadCancelResponse") (Some 0%Z) false;
     MkField "slot_upload_process" 1544 LABEL_OPTIONAL TYPE_MESSAGE (Some ".darkbio.wire.SlotUploadProcessResponse") (Some 0%Z) false;
     MkField "dataset_paths" 1793 LABEL_OPTIONAL TYPE_MESSAGE (Some ".darkbio.wire.DatasetPathsResponse") (Some 0%Z) false;
     MkField "develop" 4096 LABEL_OPTIONAL TYPE_BYTES None (Some 0%Z) false]
    ["content"; "_err"].

(** The other messages. *)
Definition bodies : list DescriptorProto :=
  [MkDescriptor "Error"
     [MkField "code" 1 LABEL_OPTIONAL TYPE_UINT64 None None false;
      MkField "msg" 2 LABEL_OPTIONAL TYPE_STRING None None false]
     [];
   MkDescriptor "OnboardingRequest"
     [MkField "device_attestation" 1 LABEL_OPTIONAL TYPE_BYTES None None false]
     [];
   MkDescriptor "OnboardingResponse"
     []
     [];
   MkDescriptor "DeviceInfoRequest"
     []
     [];
   MkDescriptor "DeviceInfoResponse"
     [MkField "version_id" 1 LABEL_OPTIONAL TYPE_UINT32 None None false;
      MkField "version_str" 2 LABEL_OPTIONAL TYPE_STRING None None false;
      MkField "revision_id" 3 LABEL_OPTIONAL TYPE_UINT32 None None false;
      MkField "revision_str" 4 LABEL_OPTIONAL TYPE_STRING None None false;
      MkField "firmware_version" 7 LABEL_OPTIONAL TYPE_STRING None None false;
      MkField "firmware_publish" 8 LABEL_OPTIONAL TYPE_UINT64 None None false;
      MkField "cloud_synced" 9 LABEL_OPTIONAL TYPE_BOOL None None false;
      MkField "cloud_clock" 10 LABEL_OPTIONAL TYPE_UINT64 None None false;
      MkField "paired" 11 LABEL_OPTIONAL TYPE_BOOL None None false;
      MkField "unlocked" 12 LABEL_OPTIONAL TYPE_BOOL None None false]
     [];
   MkDescriptor "CloudSyncStartRequest"
     [MkField "signer" 1 LABEL_OPTIONAL TYPE_BYTES None None false;
      MkField "crypto" 2 LABEL_OPTIONAL TYPE_BYTES None None false]
     [];
   MkDescriptor "CloudSyncStartResponse"
     [MkField "challenge" 1 LABEL_OPTIONAL TYPE_BYTES None None false]
     [];
   MkDescriptor "CloudSyncFinishRequest"
     [MkField "unixmilli" 1 LABEL_OPTIONAL TYPE_UINT64 None None false;
      MkField "signature" 2 LABEL_OPTIONAL TYPE_BYTES None None false]
     [];
   MkDescriptor "CloudSyncFinishResponse"
     [MkField "accepted" 1 LABEL_OPTIONAL TYPE_UINT64 None None false]
     [];
   MkDescriptor "GenuinityProofRequest"
     []
     [];
   MkDescriptor "GenuinityProofResponse"
     [MkField "proof" 1 LABEL_OPTIONAL TYPE_BYTES None None false]
     [];
   MkDescriptor "FirmwareUpdatePrepRequest"
     [MkField "version" 1 LABEL_OPTIONAL TYPE_STRING None None false;
      MkField "sha256" 2 LABEL_OPTIONAL TYPE_BYTES None None false;
      MkField "bytes" 3 LABEL_OPTIONAL TYPE_UINT64 None None false]
     [];
   MkDescriptor "FirmwareUpdatePrepResponse"
     [MkField "auth" 1 LABEL_OPTIONAL TYPE_BYTES None None false]
     [];
   MkDescriptor "FirmwareUpdateInitRequest"
     [MkField "access" 1 LABEL_OPTIONAL TYPE_BYTES None None false]
     [];
   MkDescriptor "FirmwareUpdateInitResponse"
     []
     [];
   MkDescriptor "FirmwareUpdateUploadRequest"
     [MkField "chunk" 1 LABEL_OPTIONAL TYPE_BYTES None None false]
     [];
   MkDescriptor "FirmwareUpdateUploadResponse"
     []
     [];
   MkDescriptor "FirmwareUpdateVerifyRequest"
     []
     [];
   MkDescriptor "FirmwareUpdateVerifyResponse"
     []
     [];
   MkDescriptor "FirmwareUpdateInstallRequest"
     []
     [];
   MkDescriptor "FirmwareUpdateInstallResponse"
     []
     [];
   MkDescriptor "PairingAuthRequest"
     []
     [];
   MkDescriptor "PairingAuthResponse"
     [MkField "auth" 1 LABEL_OPTIONAL TYPE_BYTES None None false;
      MkField "fprint" 2 LABEL_OPTIONAL TYPE_BYTES None None false]
     [];
   MkDescriptor "PairingSetAppIdentityRequest"
     [MkField "identity" 1 LABEL_OPTIONAL TYPE_BYTES None None false]
     [];
   MkDescriptor "PairingSetAppIdentityResponse"
     []
     [];
   MkDescriptor "PairingSetAppStorageRequest"
     [MkField "app_key" 1 LABEL_OPTIONAL TYPE_BYTES None None false]
     [];
   MkDescriptor "PairingSetAppStorageResponse"
     [MkField "ark_keys" 1 LABEL_OPTIONAL TYPE_BYTES None None false]
     [];
   MkDescriptor "PairingAckArkStorageRequest"
     [MkField "app_ack" 1 LABEL_OPTIONAL TYPE_BYTES None None false]
     [];
   MkDescriptor "PairingAckArkStorageResponse"
     []
     [];
   MkDescriptor "PairingAcceptanceRequest"
     []
     [];
   MkDescriptor "PairingAcceptanceResponse"
     [MkField "confirm" 1 LABEL_OPTIONAL TYPE_BYTES None None false]
     [];
   MkDescriptor "PairingCompletionRequest"
     []
     [];
   MkDescriptor "PairingCompletionResponse"
     [MkField "confirm" 1 LABEL_OPTIONAL TYPE_BYTES None None false]
     [];
   MkDescriptor "RelayJoinRequest"
     []
     [];
   MkDescriptor "RelayJoinResponse"
     [MkField "auth" 1 LABEL_OPTIONAL TYPE_BYTES None None false]
     [];
   MkDescriptor "RelayInboundRequest"
     [MkField "frame" 1 LABEL_OPTIONAL TYPE_BYTES None None false]
     [];
   MkDescriptor "RelayInboundResponse"
     []
     [];
   MkDescriptor "RelayOutboundRequest"
     [MkField "frame" 1 LABEL_OPTIONAL TYPE_BYTES None None false]
     [];
   MkDescriptor "RelayOutboundResponse"
     []
     [];
   MkDescriptor "UnlockRequest"
     []
     [];
   MkDescriptor "UnlockResponse"
     []
     [];
   MkDescriptor "ExecutionCreateRequest"
     [MkField "sha256" 1 LABEL_OPTIONAL TYPE_BYTES None None false]
     [];
   MkDescriptor "ExecutionCreateResponse"
     [MkField "taskid" 1 LABEL_OPTIONAL TYPE_UINT64 None None false]
     [];
   MkDescriptor "ExecutionLoadRequest"
     [MkField "taskid" 1 LABEL_OPTIONAL TYPE_UINT64 None None false]
     [];
   MkDescriptor "ExecutionLoadResponse"
     []
     [];
   MkDescriptor "ExecutionStartRequest"
     [MkField "taskid" 1 LABEL_OPTIONAL TYPE_UINT64 None None false]
     [];
   MkDescriptor "ExecutionStartResponse"
     []
     [];
   MkDescriptor "ExecutionCancelRequest"
     [MkField "taskid" 1 LABEL_OPTIONAL TYPE_UINT64 None None false]
     [];
   MkDescriptor "ExecutionCancelResponse"
     []
     [];
   MkDescriptor "ExecutionStatusRequest"
     [MkField "taskid" 1 LABEL_OPTIONAL TYPE_UINT64 None None false]
     [];
   MkDescriptor "ExecutionStatusResponse"
     [MkField "state" 3 LABEL_OPTIONAL TYPE_ENUM (Some ".darkbio.wire.ExecutionState") None false]
     [];
   MkDescriptor "ExecutionResultRequest"
     [MkField "taskid" 1 LABEL_OPTIONAL TYPE_UINT64 None None false]
     [];
   MkDescriptor "ExecutionResultResponse"
     [MkField "name" 1 LABEL_OPTIONAL TYPE_STRING None None false;
      MkField "version" 2 LABEL_OPTIONAL TYPE_STRING None None false;
      MkField "develop" 3 LABEL_OPTIONAL TYPE_BOOL None None false;
      MkField "success" 4 LABEL_OPTIONAL TYPE_BOOL None None false;
      MkField "paths" 5 LABEL_REPEATED TYPE_STRING None None false;
      MkField "media" 6 LABEL_OPTIONAL TYPE_STRING None None false;
      MkField "stdout_bytes" 7 LABEL_OPTIONAL TYPE_UINT64 None None false;
      MkField "stderr_bytes" 8 LABEL_OPTIONAL TYPE_UINT64 None None false]
     [];
   MkDescriptor "ExecutionOutputRequest"
     [MkField "taskid" 1 LABEL_OPTIONAL TYPE_UINT64 None None false;
      MkField "stream" 2 LABEL_OPTIONAL TYPE_ENUM (Some ".darkbio.wire.ExecutionStream") None false;
      MkField "offset" 3 LABEL_OPTIONAL TYPE_UINT64 None None false;
      MkField "size" 4 LABEL_OPTIONAL TYPE_UINT64 None None false]
     [];
   MkDescriptor "ExecutionOutputResponse"
     [MkField "chunk" 1 LABEL_OPTIONAL TYPE_BYTES None None false]
     [];
   MkDescriptor "ExecutionModuleSizeRequest"
     [MkField "taskid" 1 LABEL_OPTIONAL TYPE_UINT64 None None false;
      MkField "sha256" 2 LABEL_OPTIONAL TYPE_BYTES None None false]
     [];
   MkDescriptor "ExecutionModuleSizeResponse"
     [MkField "size" 1 LABEL_OPTIONAL TYPE_UINT64 None None false]
     [];
   MkDescriptor "ExecutionModuleReadRequest"
     [MkField "taskid" 1 LABEL_OPTIONAL TYPE_UINT64 None None false;
      MkField "sha256" 2 LABEL_OPTIONAL TYPE_BYTES None None false;
      MkField "offset" 3 LABEL_OPTIONAL TYPE_UINT64 None None false;
      MkField "size" 4 LABEL_OPTIONAL TYPE_UINT64 None None false]
     [];
   MkDescriptor "ExecutionModuleReadResponse"
     [MkField "chunk" 1 LABEL_OPTIONAL TYPE_BYTES None None false]
     [];
   MkDescriptor "SlotDownload"
     [MkField "url" 1 LABEL_OPTIONAL TYPE_STRING None None false;
      MkField "bytes" 2 LABEL_OPTIONAL TYPE_UINT64 None None false;
      MkField "sha256" 3 LABEL_OPTIONAL TYPE_STRING None None false]
     [];
   MkDescriptor "SlotStatus"
     [MkField "kind" 1 LABEL_OPTIONAL TYPE_ENUM (Some ".darkbio.wire.SlotKind") None false;
      MkField "name" 2 LABEL_OPTIONAL TYPE_STRING None None false;
      MkField "desc" 3 LABEL_OPTIONAL TYPE_STRING None None false;
      MkField "format" 4 LABEL_OPTIONAL TYPE_STRING None None false;
      MkField "origin" 5 LABEL_OPTIONAL TYPE_ENUM (Some ".darkbio.wire.SlotOrigin") None false;
      MkField "state" 6 LABEL_OPTIONAL TYPE_ENUM (Some ".darkbio.wire.SlotState") None false;
      MkField "damage" 7 LABEL_OPTIONAL TYPE_STRING None None false;
      MkField "deps" 8 LABEL_REPEATED TYPE_ENUM (Some ".darkbio.wire.SlotKind") None false;
      MkField "bytes" 9 LABEL_OPTIONAL TYPE_UINT64 None None false;
      MkField "build" 10 LABEL_OPTIONAL TYPE_STRING None None false;
      MkField "version" 11 LABEL_OPTIONAL TYPE_STRING None None false;
      MkField "download" 12 LABEL_OPTIONAL TYPE_MESSAGE (Some ".darkbio.wire.SlotDownload") None false]
     [];
   MkDescriptor "SlotListRequest"
     []
     [];
   MkDescriptor "SlotListResponse"
     [MkField "slots" 1 LABEL_REPEATED TYPE_MESSAGE (Some ".darkbio.wire.SlotStatus") None false]
     [];
   MkDescriptor "SlotRepairRequest"
     [MkField "slot" 1 LABEL_OPTIONAL TYPE_ENUM (Some ".darkbio.wire.SlotKind") None false]
     [];
   MkDescriptor "SlotRepairResponse"
     []
     [];
   MkDescriptor "SlotDeleteRequest"
     [MkField "slot" 1 LABEL_OPTIONAL TYPE_ENUM (Some ".darkbio.wire.SlotKind") None false]
     [];
   MkDescriptor "SlotDeleteResponse"
     []
     [];
   MkDescriptor "SlotIdentifyRequest"
     [MkField "name" 1 LABEL_OPTIONAL TYPE_STRING None None false;
      MkField "size" 2 LABEL_OPTIONAL TYPE_UINT64 None None false;
      MkField "chunk" 3 LABEL_OPTIONAL TYPE_BYTES None None false;
      MkField "kinds" 4 LABEL_REPEATED TYPE_ENUM (Some ".darkbio.wire.SlotKind") None false]
     [];
   MkDescriptor "SlotIdentifyResponse"
     [MkField "kind" 1 LABEL_OPTIONAL TYPE_ENUM (Some ".darkbio.wire.SlotKind") None false;
      MkField "conf" 2 LABEL_OPTIONAL TYPE_ENUM (Some ".darkbio.wire.SlotConfidence") None false;
      MkField "summary" 3 LABEL_OPTIONAL TYPE_STRING None None false;
      MkField "details" 4 LABEL_OPTIONAL TYPE_STRING None None false;
      MkField "rejection" 5 LABEL_OPTIONAL TYPE_STRING None None false]
     [];
   MkDescriptor "SlotUploadStartRequest"
     [MkField "kind" 1 LABEL_OPTIONAL TYPE_ENUM (Some ".darkbio.wire.SlotKind") None false;
      MkField "name" 2 LABEL_OPTIONAL TYPE_STRING None None false;
      MkField "size" 3 LABEL_OPTIONAL TYPE_UINT64 None None false;
      MkField "chunk" 4 LABEL_OPTIONAL TYPE_BYTES None None false]
     [];
   MkDescriptor "SlotUploadStartResponse"
     [MkField "session" 1 LABEL_OPTIONAL TYPE_UINT64 None None false]
     [];
   MkDescriptor "SlotUploadChunkRequest"
     [MkField "session" 1 LABEL_OPTIONAL TYPE_UINT64 None None false;
      MkField "chunk" 2 LABEL_OPTIONAL TYPE_BYTES None None false]
     [];
   MkDescriptor "SlotUploadChunkResponse"
     []
     [];
   MkDescriptor "SlotUploadCancelRequest"
     [MkField "session" 1 LABEL_OPTIONAL TYPE_UINT64 None None false]
     [];
   MkDescriptor "SlotUploadCancelResponse"
     []
     [];
   MkDescriptor "SlotPhase"
     [MkField "name" 1 LABEL_OPTIONAL TYPE_STRING None None false;
      MkField "desc" 2 LABEL_OPTIONAL TYPE_STRING None None false]
     [];
   MkDescriptor "SlotUploadProcessRequest"
     [MkField "session" 1 LABEL_OPTIONAL TYPE_UINT64 None None false]
     [];
   MkDescriptor "SlotUploadProcessResponse"
     [MkField "proc_start" 1 LABEL_OPTIONAL TYPE_UINT64 None None false;
      MkField "phases" 2 LABEL_REPEATED TYPE_MESSAGE (Some ".darkbio.wire.SlotPhase") None false;
      MkField "phase_in" 3 LABEL_OPTIONAL TYPE_UINT64 None None false;
      MkField "phase_start" 4 LABEL_OPTIONAL TYPE_UINT64 None None false;
      MkField "phase_progress" 5 LABEL_OPTIONAL TYPE_UINT64 None None false;
      MkField "failure" 6 LABEL_OPTIONAL TYPE_STRING None None false]
     [];
   MkDescriptor "DatasetPathsRequest"
     []
     [];
   MkDescriptor "DatasetPathsResponse"
     [MkField "paths" 1 LABEL_REPEATED TYPE_MESSAGE (Some ".darkbio.wire.DatasetPath") None false]
     [];
   MkDescriptor "DatasetPath"
     [MkField "path" 1 LABEL_OPTIONAL TYPE_STRING None None false;
      MkField "directory" 2 LABEL_OPTIONAL TYPE_BOOL None None false;
      MkField "grantable" 3 LABEL_OPTIONAL TYPE_BOOL None None false;
      MkField "available" 4 LABEL_OPTIONAL TYPE_BOOL None None false;
      MkField "desc" 5 LABEL_OPTIONAL TYPE_STRING None None false;
      MkField "format" 6 LABEL_OPTIONAL TYPE_STRING None None false;
      MkField "examples" 7 LABEL_REPEATED TYPE_STRING None None false;
      MkField "public" 8 LABEL_OPTIONAL TYPE_BOOL None None false;
      MkField "wording" 9 LABEL_OPTIONAL TYPE_STRING None None false]
     []].

(** The enumerations. *)
Definition enums : list EnumDescriptorProto :=
  [MkEnum "ReservedErrors"
     [("RESERVED_ERRORS_UNSPECIFIED", 0);
      ("RESERVED_ERRORS_UNANSWERED", 1);
      ("RESERVED_ERRORS_UNKNOWN", 2);
      ("RESERVED_ERRORS_UNSUPPORTED", 3);
      ("RESERVED_ERRORS_UNAVAILABLE", 4);
      ("RESERVED_ERRORS_UNAUTHORIZED", 5);
      ("RESERVED_ERRORS_UNCONFIRMED", 6);
      ("RESERVED_ERRORS_UNDELIVERED", 7)];
   MkEnum "ExecutionState"
     [("EXECUTION_STATE_UNSPECIFIED", 0);
      ("EXECUTION_STATE_RUNNING", 1);
      ("EXECUTION_STATE_AWAITING", 2);
      ("EXECUTION_STATE_RESOLVED", 3)];
   MkEnum "ExecutionStream"
     [("EXECUTION_STREAM_UNSPECIFIED", 0);
      ("EXECUTION_STREAM_STDOUT", 1);
      ("EXECUTION_STREAM_STDERR", 2)];
   MkEnum "SlotKind"
     [("SLOT_KIND_UNSPECIFIED", 0);
      ("SLOT_KIND_REFERENCE_GENOME", 1);
      ("SLOT_KIND_GENE_ANNOTATIONS", 2);
      ("SLOT_KIND_SMALL_VARIANTS", 3);
      ("SLOT_KIND_VARIANT_CATALOG", 4);
      ("SLOT_KIND_STRUCTURAL_VARIANTS", 5);
      ("SLOT_KIND_COPY_NUMBER_VARIANTS", 6)];
   MkEnum "SlotOrigin"
     [("SLOT_ORIGIN_UNSPECIFIED", 0);
      ("SLOT_ORIGIN_PERSONAL", 1);
      ("SLOT_ORIGIN_REFERENCE", 2)];
   MkEnum "SlotState"
     [("SLOT_STATE_UNSPECIFIED", 0);
      ("SLOT_STATE_EMPTY", 1);
      ("SLOT_STATE_FILLED", 2);
      ("SLOT_STATE_DAMAGED", 3)];
   MkEnum "SlotConfidence"
     [("SLOT_CONFIDENCE_UNSPECIFIED", 0);
      ("SLOT_CONFIDENCE_LOW", 1);
      ("SLOT_CONFIDENCE_MID", 2);
      ("SLOT_CONFIDENCE_HIGH", 3)]].

(** The set [load_fds] returns for [wire.proto], which imports no other file. *)
Definition wire_proto : list FileDescriptorProto :=
  [MkFile "wire.proto" (Some "darkbio.wire") (host_to_ark :: ark_to_host :: bodies) enums].
