(* ===== verification/SchemaSource.v ===== *)
(** * The checked-in sources of the schema ([protocol/generated])

    The sources the generator left in the crate, printed from the tables of this
    development that were taken from them: [message.rs] from the variants, fields and
    names of [Message], [darkbio.wire.names.rs] from the names of [SchemaContent]. They
    are compared with what the generator writes for the schema of [proto/wire.proto],
    and the structures and enumerations of [Schema] with what that declares. *)

From S2P Require Import Prelude Message Protobuf Schema SchemaContent SchemaCodec Generator WireProto.
#[local] Open Scope string_scope.

(** ** The tables *)

(** The variants of [Message], in order. *)
Definition variants : list Variant :=
  [VCloudSyncFinishRequest; VCloudSyncFinishResponse; VCloudSyncStartRequest;
   VCloudSyncStartResponse; VDatasetPathsRequest; VDatasetPathsResponse; VDevelop;
   VDeviceInfoRequest; VDeviceInfoResponse; VExecutionCancelRequest;
   VExecutionCancelResponse; VExecutionCreateRequest; VExecutionCreateResponse;
   VExecutionLoadRequest; VExecutionLoadResponse; VExecutionModuleReadRequest;
   VExecutionModuleReadResponse; VExecutionModuleSizeRequest;
   VExecutionModuleSizeResponse; VExecutionOutputRequest; VExecutionOutputResponse;
   VExecutionResultRequest; VExecutionResultResponse; VExecutionStartRequest;
   VExecutionStartResponse; VExecutionStatusRequest; VExecutionStatusResponse;
   VFirmwareUpdateInitRequest; VFirmwareUpdateInitResponse;
   VFirmwareUpdateInstallRequest; VFirmwareUpdateInstallResponse;
   VFirmwareUpdatePrepRequest; VFirmwareUpdatePrepResponse;
   VFirmwareUpdateUploadRequest; VFirmwareUpdateUploadResponse;
   VFirmwareUpdateVerifyRequest; VFirmwareUpdateVerifyResponse; VGenuinityProofRequest;
   VGenuinityProofResponse; VOnboardingRequest; VOnboardingResponse;
   VPairingAcceptanceRequest; VPairingAcceptanceResponse; VPairingAckArkStorageRequest;
   VPairingAckArkStorageResponse; VPairingAuthRequest; VPairingAuthResponse;
   VPairingCompletionRequest; VPairingCompletionResponse; VPairingSetAppIdentityRequest;
   VPairingSetAppIdentityResponse; VPairingSetAppStorageRequest;
   VPairingSetAppStorageResponse; VRelayInboundRequest; VRelayInboundResponse;
   VRelayJoinRequest; VRelayJoinResponse; VRelayOutboundRequest; VRelayOutboundResponse;
   VSlotDeleteRequest; VSlotDeleteResponse; VSlotIdentifyRequest; VSlotIdentifyResponse;
   VSlotListRequest; VSlotListResponse; VSlotRepairRequest; VSlotRepairResponse;
   VSlotUploadCancelRequest; VSlotUploadCancelResponse; VSlotUploadChunkRequest;
   VSlotUploadChunkResponse; VSlotUploadProcessRequest; VSlotUploadProcessResponse;
   VSlotUploadStartRequest; VSlotUploadStartResponse; VUnlockRequest; VUnlockResponse].

Definition variant_name (v : Variant) : string :=
  if decide (v = VDevelop) then "Develop" else type_name v.

(** The name of a field's variant in both [Content] enumerations. *)
Definition field_ident (f : Field) : string :=
  match f with
  | FOnboard => "Onboard"
  | FDeviceInfo => "DeviceInfo"
  | FCloudSyncStart => "CloudSyncStart"
  | FCloudSyncFinish => "CloudSyncFinish"
  | FGenuinityProof => "GenuinityProof"
  | FFirmwareUpdatePrep => "FirmwareUpdatePrep"
  | FFirmwareUpdateInit => "FirmwareUpdateInit"
  | FFirmwareUpdateUpload => "FirmwareUpdateUpload"
  | FFirmwareUpdateVerify => "FirmwareUpdateVerify"
  | FFirmwareUpdateInstall => "FirmwareUpdateInstall"
  | FPairingAuth => "PairingAuth"
  | FPairingSetAppId => "PairingSetAppId"
  | FPairingSetAppStorage => "PairingSetAppStorage"
  | FPairingAckArkStorage => "PairingAckArkStorage"
  | FPairingAccept => "PairingAccept"
  | FPairingComplete => "PairingComplete"
  | FRelayJoin => "RelayJoin"
  | FRelayInbound => "RelayInbound"
  | FRelayOutbound => "RelayOutbound"
  | FUnlock => "Unlock"
  | FExecCreate => "ExecCreate"
  | FExecLoad => "ExecLoad"
  | FExecStart => "ExecStart"
  | FExecStatus => "ExecStatus"
  | FExecCancel => "ExecCancel"
  | FExecResult => "ExecResult"
  | FExecOutput => "ExecOutput"
  | FExecModuleSize => "ExecModuleSize"
  | FExecModuleRead => "ExecModuleRead"
  | FSlotList => "SlotList"
  | FSlotRepair => "SlotRepair"
  | FSlotDelete => "SlotDelete"
  | FSlotIdentify => "SlotIdentify"
  | FSlotUploadStart => "SlotUploadStart"
  | FSlotUploadChunk => "SlotUploadChunk"
  | FSlotUploadCancel => "SlotUploadCancel"
  | FSlotUploadProcess => "SlotUploadProcess"
  | FDatasetPaths => "DatasetPaths"
  | FDevelop => "Develop"
  end.

(** ** The sources *)

(** An invocation of [contents!]. *)
Definition contents_source (module : string) (body : Field → Variant) : list string :=
  ("contents! { " +:+ module +:+ ",")
  :: ((λ f, "    " +:+ field_ident f +:+ " => " +:+ variant_name (body f) +:+ ",") <$> fields)
  ++ ["}"].

(** [message.rs] *)
Definition message_source : list string :=
  generated_by :: "messages! {"
  :: ((λ v, "    " +:+ variant_name v +:+ "(" +:+ type_name v +:+ "),") <$> variants)
  ++ ["}"]
  ++ contents_source "host_to_ark" host_variant
  ++ contents_source "ark_to_host" ark_variant
  ++ ["impl Message {";
      "    /// Returns the payload's protobuf field name for log lines.";
      "    pub(super) fn field_name(&self) -> &'static str {";
      "        match self {"]
  ++ ((λ v, "            Self::" +:+ variant_name v +:+ "(..) => " +:+ debug (field_name v) +:+ ",")
        <$> variants)
  ++ ["        }"; "    }"; "}"].

(** The lookup of an envelope's field names. *)
Definition name_source (module : string) (name : Field → string) : list string :=
  ["impl opaque::" +:+ module +:+ "::Content {";
   "    fn name(&self) -> &'static str {"; "        match self {"]
  ++ ((λ f, "            Self::" +:+ field_ident f +:+ "(..) => " +:+ debug (name f) +:+ ",")
        <$> fields)
  ++ ["        }"; "    }"; "}"].

(** [darkbio.wire.names.rs] *)
Definition names_source : list string :=
  generated_by :: name_source "host_to_ark" host_name ++ name_source "ark_to_host" ark_name.

(** ** The structures and the enumerations *)

(** The tags of the fields of each structure, in order. *)
Definition structure_tags : list (string * list Z) :=
  [("Error", k_tags error_layout);
   ("OnboardingRequest", k_tags OnboardingRequest.layout);
   ("OnboardingResponse", k_tags OnboardingResponse.layout);
   ("DeviceInfoRequest", k_tags DeviceInfoRequest.layout);
   ("DeviceInfoResponse", k_tags DeviceInfoResponse.layout);
   ("CloudSyncStartRequest", k_tags CloudSyncStartRequest.layout);
   ("CloudSyncStartResponse", k_tags CloudSyncStartResponse.layout);
   ("CloudSyncFinishRequest", k_tags CloudSyncFinishRequest.layout);
   ("CloudSyncFinishResponse", k_tags CloudSyncFinishResponse.layout);
   ("GenuinityProofRequest", k_tags GenuinityProofRequest.layout);
   ("GenuinityProofResponse", k_tags GenuinityProofResponse.layout);
   ("FirmwareUpdatePrepRequest", k_tags FirmwareUpdatePrepRequest.layout);
   ("FirmwareUpdatePrepResponse", k_tags FirmwareUpdatePrepResponse.layout);
   ("FirmwareUpdateInitRequest", k_tags FirmwareUpdateInitRequest.layout);
   ("FirmwareUpdateInitResponse", k_tags FirmwareUpdateInitResponse.layout);
   ("FirmwareUpdateUploadRequest", k_tags FirmwareUpdateUploadRequest.layout);
   ("FirmwareUpdateUploadResponse", k_tags FirmwareUpdateUploadResponse.layout);
   ("FirmwareUpdateVerifyRequest", k_tags FirmwareUpdateVerifyRequest.layout);
   ("FirmwareUpdateVerifyResponse", k_tags FirmwareUpdateVerifyResponse.layout);
   ("FirmwareUpdateInstallRequest", k_tags FirmwareUpdateInstallRequest.layout);
   ("FirmwareUpdateInstallResponse", k_tags FirmwareUpdateInstallResponse.layout);
   ("PairingAuthRequest", k_tags PairingAuthRequest.layout);
   ("PairingAuthResponse", k_tags PairingAuthResponse.layout);
   ("PairingSetAppIdentityRequest", k_tags PairingSetAppIdentityRequest.layout);
   ("PairingSetAppIdentityResponse", k_tags PairingSetAppIdentityResponse.layout);
   ("PairingSetAppStorageRequest", k_tags PairingSetAppStorageRequest.layout);
   ("PairingSetAppStorageResponse", k_tags PairingSetAppStorageResponse.layout);
   ("PairingAckArkStorageRequest", k_tags PairingAckArkStorageRequest.layout);
   ("PairingAckArkStorageResponse", k_tags PairingAckArkStorageResponse.layout);
   ("PairingAcceptanceRequest", k_tags PairingAcceptanceRequest.layout);
   ("PairingAcceptanceResponse", k_tags PairingAcceptanceResponse.layout);
   ("PairingCompletionRequest", k_tags PairingCompletionRequest.layout);
   ("PairingCompletionResponse", k_tags PairingCompletionResponse.layout);
   ("RelayJoinRequest", k_tags RelayJoinRequest.layout);
   ("RelayJoinResponse", k_tags RelayJoinResponse.layout);
   ("RelayInboundRequest", k_tags RelayInboundRequest.layout);
   ("RelayInboundResponse", k_tags RelayInboundResponse.layout);
   ("RelayOutboundRequest", k_tags RelayOutboundRequest.layout);
   ("RelayOutboundResponse", k_tags RelayOutboundResponse.layout);
   ("UnlockRequest", k_tags UnlockRequest.layout);
   ("UnlockResponse", k_tags UnlockResponse.layout);
   ("ExecutionCreateRequest", k_tags ExecutionCreateRequest.layout);
   ("ExecutionCreateResponse", k_tags ExecutionCreateResponse.layout);
   ("ExecutionLoadRequest", k_tags ExecutionLoadRequest.layout);
   ("ExecutionLoadResponse", k_tags ExecutionLoadResponse.layout);
   ("ExecutionStartRequest", k_tags ExecutionStartRequest.layout);
   ("ExecutionStartResponse", k_tags ExecutionStartResponse.layout);
   ("ExecutionCancelRequest", k_tags ExecutionCancelRequest.layout);
   ("ExecutionCancelResponse", k_tags ExecutionCancelResponse.layout);
   ("ExecutionStatusRequest", k_tags ExecutionStatusRequest.layout);
   ("ExecutionStatusResponse", k_tags ExecutionStatusResponse.layout);
   ("ExecutionResultRequest", k_tags ExecutionResultRequest.layout);
   ("ExecutionResultResponse", k_tags ExecutionResultResponse.layout);
   ("ExecutionOutputRequest", k_tags ExecutionOutputRequest.layout);
   ("ExecutionOutputResponse", k_tags ExecutionOutputResponse.layout);
   ("ExecutionModuleSizeRequest", k_tags ExecutionModuleSizeRequest.layout);
   ("ExecutionModuleSizeResponse", k_tags ExecutionModuleSizeResponse.layout);
   ("ExecutionModuleReadRequest", k_tags ExecutionModuleReadRequest.layout);
   ("ExecutionModuleReadResponse", k_tags ExecutionModuleReadResponse.layout);
   ("SlotDownload", k_tags SlotDownload.layout);
   ("SlotStatus", k_tags SlotStatus.layout);
   ("SlotListRequest", k_tags SlotListRequest.layout);
   ("SlotListResponse", k_tags SlotListResponse.layout);
   ("SlotRepairRequest", k_tags SlotRepairRequest.layout);
   ("SlotRepairResponse", k_tags SlotRepairResponse.layout);
   ("SlotDeleteRequest", k_tags SlotDeleteRequest.layout);
   ("SlotDeleteResponse", k_tags SlotDeleteResponse.layout);
   ("SlotIdentifyRequest", k_tags SlotIdentifyRequest.layout);
   ("SlotIdentifyResponse", k_tags SlotIdentifyResponse.layout);
   ("SlotUploadStartRequest", k_tags SlotUploadStartRequest.layout);
   ("SlotUploadStartResponse", k_tags SlotUploadStartResponse.layout);
   ("SlotUploadChunkRequest", k_tags SlotUploadChunkRequest.layout);
   ("SlotUploadChunkResponse", k_tags SlotUploadChunkResponse.layout);
   ("SlotUploadCancelRequest", k_tags SlotUploadCancelRequest.layout);
   ("SlotUploadCancelResponse", k_tags SlotUploadCancelResponse.layout);
   ("SlotPhase", k_tags SlotPhase.layout);
   ("SlotUploadProcessRequest", k_tags SlotUploadProcessRequest.layout);
   ("SlotUploadProcessResponse", k_tags SlotUploadProcessResponse.layout);
   ("DatasetPathsRequest", k_tags DatasetPathsRequest.layout);
   ("DatasetPathsResponse", k_tags DatasetPathsResponse.layout);
   ("DatasetPath", k_tags DatasetPath.layout)].

Definition named {A} (name : A → string) (number : A → Z) (l : list A) : list (string * Z) :=
  (λ a, (name a, number a)) <$> l.

(** The names and numbers of each enumeration. *)
Definition enumeration_values : list (string * list (string * Z)) :=
  [("ReservedErrors", named ReservedErrors.as_str_name ReservedErrors.number
      [ReservedErrors.Unspecified; ReservedErrors.Unanswered; ReservedErrors.Unknown;
       ReservedErrors.Unsupported; ReservedErrors.Unavailable;
       ReservedErrors.Unauthorized; ReservedErrors.Unconfirmed;
       ReservedErrors.Undelivered]);
   ("ExecutionState", named ExecutionState.as_str_name ExecutionState.number
      [ExecutionState.Unspecified; ExecutionState.Running; ExecutionState.Awaiting;
       ExecutionState.Resolved]);
   ("ExecutionStream", named ExecutionStream.as_str_name ExecutionStream.number
      [ExecutionStream.Unspecified; ExecutionStream.Stdout; ExecutionStream.Stderr]);
   ("SlotKind", named SlotKind.as_str_name SlotKind.number
      [SlotKind.Unspecified; SlotKind.ReferenceGenome; SlotKind.GeneAnnotations;
       SlotKind.SmallVariants; SlotKind.VariantCatalog; SlotKind.StructuralVariants;
       SlotKind.CopyNumberVariants]);
   ("SlotOrigin", named SlotOrigin.as_str_name SlotOrigin.number
      [SlotOrigin.Unspecified; SlotOrigin.Personal; SlotOrigin.Reference]);
   ("SlotState", named SlotState.as_str_name SlotState.number
      [SlotState.Unspecified; SlotState.Empty; SlotState.Filled; SlotState.Damaged]);
   ("SlotConfidence", named SlotConfidence.as_str_name SlotConfidence.number
      [SlotConfidence.Unspecified; SlotConfidence.Low; SlotConfidence.Mid;
       SlotConfidence.High])].

(** The descriptor of an envelope. *)
Definition envelope_descriptor (d : Direction) : DescriptorProto :=
  match d with HostToArk => host_to_ark | ArkToHost => ark_to_host end.

(** ** Claims *)

(** The checked-in sources are the generator's. For the schema of [wire.proto] it
    returns, and writes exactly the sources printed from the tables, which hold every
    variant once; and the bindings it has compiled are those of the schema and of its
    routing view. In each direction the contents of the schema have the tags of
    the bindings' contents, in order, and so do those of the routing view; every
    structure has fields with exactly the tags declared, in order, and every
    enumeration exactly the names and numbers. *)
Theorem checked_in_sources_generated :
  main wire_proto =
    Ret [WriteFile "message.rs" (unlines message_source);
         WriteFile "darkbio.wire.names.rs" (unlines names_source);
         CompileFds (opaque_file <$> wire_proto);
         CompileFds wire_proto]
  ∧ NoDup variants ∧ (∀ v, v ∈ variants)
  ∧ (∀ d, f_number <$> content_fields (envelope_descriptor d) = content_tags d
       ∧ f_number <$> content_fields (opaque_message (envelope_descriptor d)) = opaque_tags d
       ∧ f_number <$> m_field (envelope_descriptor d) = k_tags (envelope_layout d))
  ∧ ((λ m, (m_name m, f_number <$> m_field m)) <$> bodies) = structure_tags
  ∧ ((λ e, (e_name e, e_value e)) <$> enums) = enumeration_values.
Proof.
  split_and!.
  - vm_compute. reflexivity.
  - apply (bool_decide_unpack _). vm_compute. exact I.
  - intros v. destruct v; apply (bool_decide_unpack _); vm_compute; exact I.
  - intros d. destruct d; split_and!; vm_compute; reflexivity.
  - vm_compute. reflexivity.
  - vm_compute. reflexivity.
Qed.
