(* ===== verification/Promise.v ===== *)
(** * Promises and pending operations ([protocol/promise.rs], [protocol/operation.rs])

    A promise and its sender share a one-slot channel and a notification state;
    the store of all promises of a session, with its byte counter, is shared by
    the session's threads and the application. *)

From S2P Require Import Prelude Io Message Envelope.

(** ** Data *)

(** [IncomingEnvelope]; its charge is the length of its bytes. *)
Record IncomingEnvelope := MkIncoming {
  bytes : list byte;
  header : Header;
}.

Definition charge (e : IncomingEnvelope) : Z := Z.of_nat (length (bytes e)).

(** [PromiseResult] *)
Inductive PromiseResult :=
  | PResponse (e : IncomingEnvelope)
  | PWritten.

Abbreviation Settlement := (result PromiseResult Protocol.Error).

(** One promise: whether it is a request's [Promise<Message>] or a reply's
    [Promise<()>], the channel's slot, whether its receiving end is gone, and the
    notification state with the callback as its name. *)
Record Promise := MkPromise {
  answers : bool;
  slot : option Settlement;
  gone : bool;
  registered : bool;
  done : bool;
  hook : option nat;
}.

(** The promises handed out by a session, the bytes its counter holds, and the
    callbacks run so far. *)
Record Store := MkStore {
  promises : gmap nat Promise;
  retained_bytes : Z;
  callbacks : list nat;
}.

(** [ResultSender] *)
Record ResultSender := MkSender { response : bool; promise : nat }.

(** [PendingOperation], without its log label. *)
Record PendingOperation := MkOperation { deadline : Instant; sender : ResultSender }.

Definition set_promise (i : nat) (p : Promise) (h : Store) : Store :=
  MkStore (<[i:=p]> (promises h)) (retained_bytes h) (callbacks h).

Definition set_retained (n : Z) (h : Store) : Store :=
  MkStore (promises h) n (callbacks h).

Definition run_callback (c : option nat) (h : Store) : Store :=
  match c with
  | Some c => MkStore (promises h) (retained_bytes h) (callbacks h ++ [c])
  | None => h
  end.

(** ** Charges *)

(** [ByteCharge::reserve] on the session's counter. *)
Definition retain (e : IncomingEnvelope) (limit : Z) (h : Store) :
  result IncomingEnvelope Protocol.Error * Store :=
  match reserve (retained_bytes h) (charge e) limit with
  | Ok total => (Ok e, set_retained total h)
  | Err err => (Err err, h)
  end.

(** [ByteCharge::drop] *)
Definition drop_envelope (e : IncomingEnvelope) (h : Store) : Store :=
  set_retained (release (retained_bytes h) (charge e)) h.

Definition drop_settlement (r : option Settlement) (h : Store) : Store :=
  match r with Some (Ok (PResponse e)) => drop_envelope e h | _ => h end.

#[global] Arguments drop_settlement : simpl never.

(** ** Promises *)

(** [Promise::pair] *)
Definition pair (i : nat) (response : bool) (h : Store) : ResultSender * Store :=
  (MkSender response i, set_promise i (MkPromise response None false false false None) h).

(** [ResultSender::send], with the callback run once the locks are released:
    whether the promise still existed. *)
Definition send_result (s : ResultSender) (r : Settlement) (h : Store) : bool * Store :=
  match promises h !! promise s with
  | Some p =>
      if gone p then
        (false, drop_settlement (Some r)
                  (run_callback (hook p)
                     (set_promise (promise s)
                        (MkPromise (answers p) (slot p) (gone p) (registered p) (done p) None) h)))
      else
        (true, run_callback (hook p)
                 (set_promise (promise s)
                    (MkPromise (answers p) (Some r) (gone p) (registered p) true None) h))
  | None => (false, drop_settlement (Some r) h)
  end.

(** [Promise::notify] with callback [c], or the panic on a second one. *)
Definition notify (i c : nat) (h : Store) : outcome Store :=
  match promises h !! i with
  | None => Ret h
  | Some p =>
      if registered p then Panicked
      else if done p then
        Ret (run_callback (Some c)
               (set_promise i (MkPromise (answers p) (slot p) (gone p) true (done p) (hook p)) h))
      else Ret (set_promise i (MkPromise (answers p) (slot p) (gone p) true (done p) (Some c)) h)
  end.

(** The receive of [Promise::wait_result]: [None] while it blocks; the promise is
    consumed. *)
Definition take_result (i : nat) (h : Store) : option (Settlement * Store) :=
  match promises h !! i with
  | Some p =>
      match slot p with
      | Some r => Some (r, set_promise i (MkPromise (answers p) None true (registered p) (done p) None) h)
      | None => None
      end
  | None => None
  end.

(** [Promise::drop], with the channel's buffered result. *)
Definition drop_promise (i : nat) (h : Store) : Store :=
  match promises h !! i with
  | Some p =>
      drop_settlement (slot p)
        (set_promise i (MkPromise (answers p) None true (registered p) (done p) None) h)
  | None => h
  end.

(** ** Operations *)

(** [PendingOperation::fail] *)
Definition fail (op : PendingOperation) (error : Protocol.Error) (now : Instant) (h : Store) :
  Store :=
  let error := if decide (deadline op ≤ now)%Z then Protocol.Timeout else error in
  (send_result (sender op) (Err error) h).2.

(** [PendingOperation::complete_response] for the envelope [e] under the byte
    limit [limit]. *)
Definition complete_response (op : PendingOperation) (now : Instant) (e : IncomingEnvelope)
    (limit : Z) (h : Store) : outcome (result unit Protocol.Error * Store) :=
  if decide (deadline op ≤ now)%Z then Ret (Ok tt, fail op Protocol.Timeout now h)
  else if negb (response (sender op)) then Panicked
  else
    match retain e limit h with
    | (Ok e, h) => Ret (Ok tt, (send_result (sender op) (Ok (PResponse e)) h).2)
    | (Err error, h) =>
        let '(delivered, h) := send_result (sender op) (Err error) h in
        Ret (if delivered : bool then Err error else Ok tt, h)
    end.

Definition fail_all (ops : list PendingOperation) (error : Protocol.Error) (now : Instant)
    (h : Store) : Store :=
  foldr (λ op h, fail op error now h) h ops.

(** ** Charges held by promises *)

Definition slot_charge (p : Promise) : Z :=
  match slot p with Some (Ok (PResponse e)) => charge e | _ => 0%Z end.

(** The bytes of unread responses. *)
Definition held_bytes (m : gmap nat Promise) : Z :=
  map_fold (λ _ p acc, (slot_charge p + acc)%Z) 0%Z m.

Lemma held_bytes_insert_new i p m :
  m !! i = None → held_bytes (<[i:=p]> m) = (slot_charge p + held_bytes m)%Z.
Proof.
  intros Hi. unfold held_bytes. rewrite map_fold_insert_L; [done| |done].
  intros. lia.
Qed.

Lemma held_bytes_insert i p q m :
  m !! i = Some q →
  held_bytes (<[i:=p]> m) = (held_bytes m - slot_charge q + slot_charge p)%Z.
Proof.
  intros Hi. rewrite <-(insert_delete_id m i q Hi) at 2.
  rewrite <-(insert_delete_eq m i p).
  rewrite !held_bytes_insert_new by apply lookup_delete_eq. lia.
Qed.

Lemma charge_nonneg e : (0 ≤ charge e)%Z.
Proof. unfold charge. lia. Qed.

Lemma slot_charge_nonneg p : (0 ≤ slot_charge p)%Z.
Proof. unfold slot_charge, charge. repeat case_match; lia. Qed.

Lemma held_bytes_nonneg m : (0 ≤ held_bytes m)%Z.
Proof.
  induction m as [|i p m Hi IH] using map_ind; [done|].
  rewrite held_bytes_insert_new by done. pose proof (slot_charge_nonneg p). lia.
Qed.

(** The counter is the bytes of unread responses plus [rest], within its width. *)
Definition accounted (rest : Z) (h : Store) : Prop :=
  retained_bytes h = (held_bytes (promises h) + rest)%Z
  ∧ (0 ≤ rest)%Z ∧ (retained_bytes h ≤ usize_max)%Z.

Lemma release_accounted used n rest :
  used = (rest + n)%Z → (0 ≤ rest)%Z → (used ≤ usize_max)%Z → (0 ≤ n)%Z →
  release used n = rest.
Proof.
  intros -> ? ? ?. unfold release, usize_max in *.
  replace (rest + n - n)%Z with rest by lia. apply Z.mod_small. lia.
Qed.

Lemma drop_envelope_accounted e rest h :
  accounted (rest + charge e) h → (0 ≤ rest)%Z → accounted rest (drop_envelope e h).
Proof.
  intros (Hr & _ & Hm) Hrest. unfold drop_envelope, accounted. simpl.
  pose proof (charge_nonneg e). pose proof (held_bytes_nonneg (promises h)).
  rewrite (release_accounted _ _ (held_bytes (promises h) + rest)%Z); lia.
Qed.

Lemma run_callback_accounted c rest h : accounted rest (run_callback c h) ↔ accounted rest h.
Proof. by destruct c. Qed.

Lemma run_callback_promises c h : promises (run_callback c h) = promises h.
Proof. by destruct c. Qed.

Lemma drop_settlement_promises r h : promises (drop_settlement r h) = promises h.
Proof. by destruct r as [[[]|]|]. Qed.

(** ** Settling *)

(** The charge a settlement carries into the store. *)
Definition carried (r : Settlement) : Z :=
  match r with Ok (PResponse e) => charge e | _ => 0%Z end.

Lemma slot_charge_carried b r g k d c : slot_charge (MkPromise b (Some r) g k d c) = carried r.
Proof. by destruct r as [[]|]. Qed.

(** What publication does to the promises: the one promise settles where it
    still exists, and no other changes. *)
Definition settled_by (s : ResultSender) (r : Settlement) (m m' : gmap nat Promise) : Prop :=
  m' = match m !! promise s with
       | Some p => <[promise s := if gone p
                       then MkPromise (answers p) (slot p) (gone p) (registered p) (done p) None
                       else MkPromise (answers p) (Some r) (gone p) (registered p) true None]> m
       | None => m
       end.

Lemma send_result_promises s r h :
  settled_by s r (promises h) (promises (send_result s r h).2).
Proof.
  unfold settled_by, send_result. destruct (promises h !! promise s) as [p|]; simpl;
    [|by rewrite drop_settlement_promises].
  destruct (gone p); simpl; by rewrite ?drop_settlement_promises, run_callback_promises.
Qed.

Lemma drop_settlement_accounted r rest h :
  accounted (rest + carried r) h → (0 ≤ rest)%Z →
  accounted rest (drop_settlement (Some r) h).
Proof.
  unfold drop_settlement.
  destruct r as [[e|]|]; simpl; rewrite ?Z.add_0_r; try done. apply drop_envelope_accounted.
Qed.

Lemma send_result_accounted s r rest h :
  (∀ p, promises h !! promise s = Some p → gone p = false → slot p = None) →
  accounted (rest + carried r) h → (0 ≤ rest)%Z → accounted rest (send_result s r h).2.
Proof.
  intros Hnone Hacc Hrest. unfold send_result.
  destruct (promises h !! promise s) as [p|] eqn:Ep; simpl;
    [|by apply drop_settlement_accounted].
  destruct Hacc as (Hr & _ & Hm). destruct (gone p) eqn:Eg; simpl.
  - apply drop_settlement_accounted; [|done]. apply run_callback_accounted.
    unfold accounted, set_promise. simpl. rewrite (held_bytes_insert _ _ p) by done.
    assert (0 ≤ carried r)%Z by (destruct r as [[]|]; simpl; try lia; apply charge_nonneg).
    unfold slot_charge at 2. simpl. fold (slot_charge p). lia.
  - apply run_callback_accounted. unfold accounted, set_promise. simpl.
    rewrite (held_bytes_insert _ _ p), slot_charge_carried by done.
    unfold slot_charge. rewrite (Hnone p eq_refl Eg). lia.
Qed.

(** ** Notifications *)

(** A callback runs exactly once, with the settlement. Registered before, it
    runs when the result is published, after the result can be taken; registered
    after, it runs at once; a promise dropped first runs none; a second
    registration is refused. *)
Theorem callback_follows_settlement (h : Store) (s : ResultSender) (p : Promise) (cb : nat)
    (r : Settlement) :
  promises h !! promise s = Some p → gone p = false → registered p = false →
  done p = false → hook p = None →
  let settled := (send_result s r h).2 in
  (∃ h1, notify (promise s) cb h = Ret h1 ∧ callbacks h1 = callbacks h
    ∧ callbacks (send_result s r h1).2 = callbacks h ++ [cb]
    ∧ (∃ h2, take_result (promise s) (send_result s r h1).2 = Some (r, h2))
    ∧ callbacks (send_result s r (drop_promise (promise s) h1)).2 = callbacks h
    ∧ (∀ cb', notify (promise s) cb' h1 = Panicked)
    ∧ (∀ cb', notify (promise s) cb' (send_result s r h1).2 = Panicked))
  ∧ callbacks settled = callbacks h
  ∧ ∃ h2, notify (promise s) cb settled = Ret h2 ∧ callbacks h2 = callbacks h ++ [cb].
Proof.
  intros Hp Hg Hreg Hd Hh settled.
  assert (∀ r h', callbacks (drop_settlement r h') = callbacks h') as Hdrop
    by (intros [[[]|]|] h'; done).
  split_and!.
  - eexists. unfold notify at 1. rewrite Hp, Hreg, Hd. split; [done|].
    split; [done|]. unfold send_result, drop_promise, take_result, notify. simpl.
    rewrite !lookup_insert_eq. simpl. rewrite Hg. simpl.
    rewrite drop_settlement_promises. simpl. rewrite !lookup_insert_eq. simpl.
    rewrite !Hdrop. split_and!; try done; [by eexists|unfold set_promise; simpl; by rewrite Hdrop].
  - unfold settled, send_result. by rewrite Hp, Hg, Hh.
  - unfold settled, send_result, notify. rewrite Hp, Hg, Hh. simpl.
    rewrite lookup_insert_eq. simpl. rewrite Hreg. by eexists.
Qed.

Lemma callback_follows_settlement_witness :
  let h := MkStore {[0 := MkPromise true None false false false None]} 0 [] in
  let s := MkSender true 0 in
  ∃ h1, notify 0 7 h = Ret h1 ∧ callbacks h1 = []
    ∧ callbacks (send_result s (Err Protocol.Timeout) h1).2 = [7].
Proof.
  intros h s.
  destruct (callback_follows_settlement h s (MkPromise true None false false false None) 7 (Err Protocol.Timeout))
    as [(h1 & Hn & Hc & Hs & _) _]; try reflexivity.
  exists h1. exact (conj Hn (conj Hc Hs)).
Defined.
