(* ===== verification/Settling.v ===== *)
(** * Settling promises: the store against the pending operations

    Every pending operation has a promise of its own, unsettled; every promise
    still held and unsettled has such an operation. Removing operations as their
    results are published keeps this. *)

From S2P Require Import Prelude Io Message Envelope Promise.

Abbreviation Ops := (gmap nat PendingOperation).

(** A request's promise gets a response, a reply's gets its write. *)
Definition fits (answers : bool) (r : Settlement) : Prop :=
  match r with
  | Ok (PResponse _) => answers = true
  | Ok PWritten => answers = false
  | Err _ => True
  end.

Record promises_ok (ops : Ops) (m : gmap nat Promise) : Prop := MkPromisesOk {
  ok_pending k op :
    ops !! k = Some op →
    ∃ p, m !! promise (sender op) = Some p ∧ slot p = None ∧ done p = false;
  ok_distinct k k' op op' :
    ops !! k = Some op → ops !! k' = Some op' →
    promise (sender op) = promise (sender op') → k = k';
  ok_waiting i p :
    m !! i = Some p → gone p = false → slot p = None →
    ∃ k op, ops !! k = Some op ∧ promise (sender op) = i;
  ok_settled i p : m !! i = Some p → is_Some (slot p) → done p = true ∧ hook p = None;
  ok_kind k op p :
    ops !! k = Some op → m !! promise (sender op) = Some p → answers p = response (sender op);
  ok_value i p r : m !! i = Some p → slot p = Some r → fits (answers p) r;
}.

(** Publishing one operation's result removes it. *)
Lemma promises_ok_settle ops m m' k op r :
  promises_ok ops m → ops !! k = Some op → settled_by (sender op) r m m' →
  fits (response (sender op)) r → promises_ok (delete k ops) m'.
Proof.
  intros [Hp Hd Hw Hs Hkd Hv] Hk. destruct (Hp k op Hk) as (p & Hm & Hslot & Hdone).
  unfold settled_by. rewrite Hm. intros -> Hfits.
  assert (∀ k' op', delete k ops !! k' = Some op' →
    ops !! k' = Some op' ∧ promise (sender op') ≠ promise (sender op)) as Hdel.
  { intros k' op' [Hne Hk']%lookup_delete_Some. split; [done|].
    intros E. apply Hne. symmetry. by eapply Hd. }
  split.
  - intros k' op' [Hk' Hne]%Hdel. rewrite lookup_insert_ne by done. by eapply Hp.
  - intros k1 k2 op1 op2 [Hk1 _]%Hdel [Hk2 _]%Hdel. by apply Hd.
  - intros i q [[<- <-]|[Hne Hi]]%lookup_insert_Some Hg Hq.
    + destruct (gone p); simpl in *; congruence.
    + destruct (Hw i q Hi Hg Hq) as (k' & op' & Hk' & <-). exists k', op'.
      split; [|done]. rewrite lookup_delete_ne; [done|]. intros ->. congruence.
  - intros i q [[<- <-]|[Hne Hi]]%lookup_insert_Some Hq; [|by eapply Hs].
    destruct (gone p); simpl in *; [|done]. rewrite Hslot in Hq. by destruct Hq.
  - intros k' op' q [Hk' Hne]%Hdel. rewrite lookup_insert_ne by done. by apply (Hkd k').
  - intros i q r' [[<- <-]|[Hne Hi]]%lookup_insert_Some Hq; [|by eapply Hv].
    destruct (gone p); simpl in *; [congruence|]. simplify_eq. by rewrite (Hkd k op p Hk Hm).
Qed.

Lemma fail_settles op e now h :
  settled_by (sender op) (Err (if decide (deadline op ≤ now)%Z then Protocol.Timeout else e))
    (promises h) (promises (fail op e now h)).
Proof. apply send_result_promises. Qed.

(** Failing a list of operations removes them all. *)
Lemma promises_ok_fail_all (l : list (nat * PendingOperation)) ops e now h :
  NoDup l.*1 → (∀ k op, (k, op) ∈ l → ops !! k = Some op) →
  promises_ok ops (promises h) →
  promises_ok (foldr delete ops l.*1) (promises (fail_all l.*2 e now h)).
Proof.
  intros Hnd Hin Hok. induction l as [|[k op] l IH]; csimpl; [done|].
  apply NoDup_cons in Hnd as [Hk Hnd].
  eapply promises_ok_settle; [apply IH; [done|]| |apply fail_settles|].
  - intros k' op' Hk'. apply Hin. by apply list_elem_of_further.
  - rewrite lookup_foldr_delete_not_elem_of by done. apply Hin. apply list_elem_of_here.
  - done.
Qed.

(** The late operations of a session, and the rest. *)
Lemma foldr_delete_filter (P : nat * PendingOperation → Prop) `{∀ x, Decision (P x)}
    (ops : Ops) :
  foldr delete ops (map_to_list (filter P ops)).*1 = filter (λ x, ¬ P x) ops.
Proof.
  apply map_eq. intros k.
  destruct (decide (k ∈ (map_to_list (filter P ops)).*1)) as [Hk|Hk].
  - rewrite lookup_foldr_delete by done. symmetry. apply map_lookup_filter_None.
    apply list_elem_of_fmap in Hk as ([k' op] & -> & Hk%elem_of_map_to_list).
    apply map_lookup_filter_Some in Hk as [Hk HP]. right. intros op' Hop'.
    simpl in *. rewrite Hk in Hop'. simplify_eq. naive_solver.
  - rewrite lookup_foldr_delete_not_elem_of by done.
    destruct (ops !! k) as [op|] eqn:Eo; symmetry.
    + apply map_lookup_filter_Some. split; [done|]. intros HP. apply Hk.
      apply list_elem_of_fmap. exists (k, op). split; [done|].
      by apply elem_of_map_to_list, map_lookup_filter_Some.
    + apply map_lookup_filter_None. by left.
Qed.

Lemma map_to_list_filter_in (P : nat * PendingOperation → Prop) `{∀ x, Decision (P x)}
    (ops : Ops) k op :
  (k, op) ∈ map_to_list (filter P ops) → ops !! k = Some op.
Proof. by intros [? _]%elem_of_map_to_list%map_lookup_filter_Some. Qed.

Lemma promises_ok_fail_filter (P : nat * PendingOperation → Prop) `{∀ x, Decision (P x)}
    (ops : Ops) e now h :
  promises_ok ops (promises h) →
  promises_ok (filter (λ x, ¬ P x) ops)
    (promises (fail_all (map_to_list (filter P ops)).*2 e now h)).
Proof.
  intros Hok. rewrite <-foldr_delete_filter.
  apply promises_ok_fail_all; [apply NoDup_fst_map_to_list| |done].
  intros k op. apply map_to_list_filter_in.
Qed.

Lemma promises_ok_fail_map (ops : Ops) e now h :
  promises_ok ops (promises h) →
  promises_ok ∅ (promises (fail_all (map_to_list ops).*2 e now h)).
Proof.
  intros Hok. replace (∅ : Ops) with (foldr delete ops (map_to_list ops).*1).
  - apply promises_ok_fail_all; [apply NoDup_fst_map_to_list| |done].
    intros k op. by rewrite elem_of_map_to_list.
  - apply map_eq. intros k. rewrite lookup_empty.
    destruct (decide (k ∈ (map_to_list ops).*1)) as [Hk|Hk].
    + by apply lookup_foldr_delete.
    + rewrite lookup_foldr_delete_not_elem_of by done.
      destruct (ops !! k) as [op|] eqn:Eo; [|done]. destruct Hk.
      apply list_elem_of_fmap. exists (k, op). split; [done|]. by apply elem_of_map_to_list.
Qed.

(** ** What settling leaves alone *)

(** Promises only move forward: a settled one keeps its result until it is taken
    or dropped, and a dropped one stays so. *)
Definition promise_le (p p' : Promise) : Prop :=
  (gone p = true → gone p' = true)
  ∧ (gone p' = false → is_Some (slot p) → slot p' = slot p)
  ∧ (registered p = true → registered p' = true)
  ∧ answers p' = answers p.

Definition store_le (m m' : gmap nat Promise) : Prop :=
  ∀ i p, m !! i = Some p → ∃ p', m' !! i = Some p' ∧ promise_le p p'.

#[global] Instance promise_le_refl : Reflexive promise_le.
Proof. by intros p. Qed.

#[global] Instance promise_le_trans : Transitive promise_le.
Proof.
  intros p q r (H1 & H2 & H3 & H4) (G1 & G2 & G3 & G4). split_and!; [auto| |auto|congruence].
  intros Hr Hs. assert (gone q = false) as Hq by (destruct (gone q); naive_solver).
  rewrite <-(H2 Hq Hs). apply G2; [done|]. by rewrite (H2 Hq Hs).
Qed.

#[global] Instance store_le_refl : Reflexive store_le.
Proof. intros m i p Hi. exists p. by split. Qed.

#[global] Instance store_le_trans : Transitive store_le.
Proof.
  intros m1 m2 m3 H12 H23 i p Hi. destruct (H12 i p Hi) as (p2 & Hi2 & Hle).
  destruct (H23 i p2 Hi2) as (p3 & Hi3 & Hle3). exists p3. split; [done|]. by etrans.
Qed.

Lemma store_le_insert m i p p' :
  m !! i = Some p → promise_le p p' → store_le m (<[i:=p']> m).
Proof.
  intros Hi Hle j q Hj. destruct (decide (i = j)) as [<-|Hne].
  - rewrite lookup_insert_eq. naive_solver.
  - rewrite lookup_insert_ne by done. exists q. by split.
Qed.

Lemma store_le_insert_new m i p : m !! i = None → store_le m (<[i:=p]> m).
Proof.
  intros Hi j q Hj. rewrite lookup_insert_ne by congruence. exists q. by split.
Qed.

Lemma settled_by_le s r m m' :
  (∀ p, m !! promise s = Some p → gone p = false → slot p = None) →
  settled_by s r m m' → store_le m m'.
Proof.
  intros Hnone ->. destruct (m !! promise s) as [p|] eqn:Ep; [|done].
  apply store_le_insert with p; [done|]. destruct (gone p) eqn:Eg; [done|].
  split_and!; [by rewrite Eg|simpl|done|done].
  intros _ [r' Hr']. by rewrite (Hnone p eq_refl Eg) in Hr'.
Qed.

Lemma fail_all_le (l : list (nat * PendingOperation)) ops e now h :
  NoDup l.*1 → (∀ k op, (k, op) ∈ l → ops !! k = Some op) →
  promises_ok ops (promises h) →
  store_le (promises h) (promises (fail_all l.*2 e now h)).
Proof.
  intros Hnd Hin Hok. induction l as [|[k op] l IH]; csimpl; [done|].
  apply NoDup_cons in Hnd as [Hk Hnd].
  assert (∀ k' op', (k', op') ∈ l → ops !! k' = Some op') as Hin'
    by (intros; apply Hin; by apply list_elem_of_further).
  etrans; [by apply IH|]. eapply settled_by_le; [|apply fail_settles].
  intros p Hp _.
  pose proof (promises_ok_fail_all l ops e now h Hnd Hin' Hok) as [Hpend _ _ _ _ _].
  destruct (Hpend k op) as (p' & Hp' & Hs & _).
  - rewrite lookup_foldr_delete_not_elem_of by done. apply Hin. apply list_elem_of_here.
  - unfold fail_all in *. congruence.
Qed.

(** ** The byte counter *)

Lemma fail_accounted op e now rest h :
  (∀ p, promises h !! promise (sender op) = Some p → gone p = false → slot p = None) →
  accounted rest h → accounted rest (fail op e now h).
Proof.
  intros Hnone Hacc. apply send_result_accounted; [done| |by destruct Hacc as (_ & ? & _)].
  simpl. by rewrite Z.add_0_r.
Qed.

Lemma fail_all_accounted (l : list (nat * PendingOperation)) ops e now rest h :
  NoDup l.*1 → (∀ k op, (k, op) ∈ l → ops !! k = Some op) →
  promises_ok ops (promises h) → accounted rest h →
  accounted rest (fail_all l.*2 e now h).
Proof.
  intros Hnd Hin Hok Hacc. induction l as [|[k op] l IH]; csimpl; [done|].
  apply NoDup_cons in Hnd as [Hk Hnd].
  assert (∀ k' op', (k', op') ∈ l → ops !! k' = Some op') as Hin'
    by (intros; apply Hin; by apply list_elem_of_further).
  apply fail_accounted; [|by apply IH]. intros p Hp _.
  pose proof (promises_ok_fail_all l ops e now h Hnd Hin' Hok) as [Hpend _ _ _ _ _].
  destruct (Hpend k op) as (p' & Hp' & Hs & _).
  - rewrite lookup_foldr_delete_not_elem_of by done. apply Hin. apply list_elem_of_here.
  - unfold fail_all in *. congruence.
Qed.

(** ** New, dropped and taken promises *)

Definition new_promise (answers : bool) : Promise := MkPromise answers None false false false None.

(** A new promise comes with its operation. *)
Lemma promises_ok_new (ops : Ops) m k op i :
  promises_ok ops m → m !! i = None → ops !! k = None → promise (sender op) = i →
  promises_ok (<[k:=op]> ops) (<[i:=new_promise (response (sender op))]> m).
Proof.
  intros [Hp Hd Hw Hs Hkd Hv] Hi Hk <-.
  assert (∀ k' op', ops !! k' = Some op' → promise (sender op') ≠ promise (sender op)) as Hne.
  { intros k' op' Hk' E. destruct (Hp k' op' Hk') as (p & Hpm & _). congruence. }
  split.
  - intros k' op' [[<- <-]|[Hkk Hk']]%lookup_insert_Some.
    + exists (new_promise (response (sender op))). by rewrite lookup_insert_eq.
    + rewrite lookup_insert_ne by (intros E; by apply (Hne _ _ Hk')). by eapply Hp.
  - intros k1 k2 op1 op2 [[<- <-]|[N1 K1]]%lookup_insert_Some
      [[<- <-]|[N2 K2]]%lookup_insert_Some E; try done.
    + by destruct (Hne k2 op2 K2).
    + by destruct (Hne k1 op1 K1).
    + by eapply Hd.
  - intros j p [[<- <-]|[N Hj]]%lookup_insert_Some Hg Hslot.
    + exists k, op. by rewrite lookup_insert_eq.
    + destruct (Hw j p Hj Hg Hslot) as (k' & op' & Hk' & <-). exists k', op'.
      rewrite lookup_insert_ne by congruence. done.
  - intros j p [[<- <-]|[N Hj]]%lookup_insert_Some Hslot; [by destruct Hslot|by eapply Hs].
  - intros k' op' p [[<- <-]|[Hkk Hk']]%lookup_insert_Some.
    + rewrite lookup_insert_eq. by intros [= <-].
    + rewrite lookup_insert_ne by (intros E; by apply (Hne _ _ Hk')). by apply (Hkd k').
  - intros j p r [[<- <-]|[N Hj]]%lookup_insert_Some; [done|by apply (Hv j)].
Qed.

(** A promise the application gives up: settled or not, no operation depends on
    it. *)
Lemma promises_ok_gone ops m i b d r :
  promises_ok ops m →
  (∀ p, m !! i = Some p → b = answers p ∧ d = done p) → (m !! i = None → d = false) →
  promises_ok ops (<[i:=MkPromise b None true r d None]> m).
Proof.
  intros [Hp Hd Hw Hs Hkd Hv] Hdone Hnone. split.
  - intros k op Hk. destruct (Hp k op Hk) as (p & Hpm & Hslot & Hdn).
    destruct (decide (i = promise (sender op))) as [->|Hne].
    + rewrite lookup_insert_eq. eexists. split_and!; [done..|]. simpl.
      by destruct (Hdone p Hpm) as [_ ->].
    + rewrite lookup_insert_ne by done. eauto.
  - done.
  - intros j p [[<- <-]|[N Hj]]%lookup_insert_Some Hg Hslot; [done|by eapply Hw].
  - intros j p [[<- <-]|[N Hj]]%lookup_insert_Some Hslot; [by destruct Hslot|by eapply Hs].
  - intros k op p Hk. destruct (Hp k op Hk) as (q & Hq & _).
    destruct (decide (i = promise (sender op))) as [->|Hne].
    + rewrite lookup_insert_eq. intros [= <-]. simpl. destruct (Hdone q Hq) as [-> _].
      by apply (Hkd k).
    + rewrite lookup_insert_ne by done. by apply (Hkd k).
  - intros j p r' [[<- <-]|[N Hj]]%lookup_insert_Some; [done|by apply (Hv j)].
Qed.

Lemma promises_ok_drop ops h i :
  promises_ok ops (promises h) → promises_ok ops (promises (drop_promise i h)).
Proof.
  intros Hok. unfold drop_promise. destruct (promises h !! i) as [p|] eqn:E; [|done].
  rewrite drop_settlement_promises. simpl. apply promises_ok_gone; naive_solver.
Qed.

Lemma promises_ok_take ops h i r h' :
  promises_ok ops (promises h) → take_result i h = Some (r, h') →
  promises_ok ops (promises h').
Proof.
  intros Hok. unfold take_result. destruct (promises h !! i) as [p|] eqn:E; [|done].
  destruct (slot p); [|done]. intros [= <- <-]. simpl. apply promises_ok_gone; naive_solver.
Qed.

Lemma gone_le p r : promise_le p (MkPromise (answers p) None true (registered p) r None).
Proof. by split_and!. Qed.

Lemma drop_promise_le h i : store_le (promises h) (promises (drop_promise i h)).
Proof.
  unfold drop_promise. destruct (promises h !! i) as [p|] eqn:E; [|done].
  rewrite drop_settlement_promises. eapply store_le_insert; [done|apply gone_le].
Qed.

Lemma take_result_le h i r h' :
  take_result i h = Some (r, h') → store_le (promises h) (promises h').
Proof.
  unfold take_result. destruct (promises h !! i) as [p|] eqn:E; [|done].
  destruct (slot p); [|done]. intros [= <- <-].
  eapply store_le_insert; [done|apply gone_le].
Qed.

Lemma drop_promise_accounted h i rest : accounted rest h → accounted rest (drop_promise i h).
Proof.
  intros Hacc. unfold drop_promise. destruct (promises h !! i) as [p|] eqn:E; [|done].
  pose proof Hacc as (Hr & H0 & Hm).
  assert (accounted (rest + slot_charge p)
    (set_promise i (MkPromise (answers p) None true (registered p) (done p) None) h)) as Hacc'.
  { pose proof (slot_charge_nonneg p).
    unfold accounted, set_promise. simpl. rewrite (held_bytes_insert _ _ p) by done.
    unfold slot_charge at 2. simpl. lia. }
  unfold slot_charge in Hacc'. destruct (slot p) as [r|].
  - by apply drop_settlement_accounted; [destruct r as [[]|]|].
  - rewrite Z.add_0_r in Hacc'. done.
Qed.

Lemma take_result_accounted h i r h' rest :
  take_result i h = Some (r, h') → accounted rest h → accounted (rest + carried r) h'.
Proof.
  unfold take_result. destruct (promises h !! i) as [p|] eqn:E; [|done].
  destruct (slot p) as [r0|] eqn:Es; [|done]. intros [= <- <-] (Hr & H0 & Hm).
  assert (slot_charge p = carried r0) as Hsc
    by (unfold slot_charge; rewrite Es; by destruct r0 as [[]|]).
  pose proof (slot_charge_nonneg p).
  unfold accounted, set_promise. simpl. rewrite (held_bytes_insert _ _ p) by done.
  unfold slot_charge at 2. simpl. lia.
Qed.

Lemma drop_settlement_retained_le r h rest :
  accounted (rest + carried r) h → (0 ≤ rest)%Z →
  (retained_bytes (drop_settlement (Some r) h) ≤ retained_bytes h)%Z.
Proof.
  intros Hacc Hrest. pose proof (drop_settlement_accounted r rest h Hacc Hrest) as Hacc'.
  destruct Hacc as (-> & H0 & _), Hacc' as (-> & _). rewrite drop_settlement_promises. 
  destruct r as [[e|]|]; simpl; try lia. pose proof (charge_nonneg e). lia.
Qed.

Lemma drop_promise_retained_le h i rest :
  accounted rest h → (retained_bytes (drop_promise i h) ≤ retained_bytes h)%Z.
Proof.
  intros Hacc. pose proof (drop_promise_accounted h i rest Hacc) as Hacc'.
  destruct Hacc as (-> & _), Hacc' as (-> & _). unfold drop_promise.
  destruct (promises h !! i) as [p|] eqn:E; [|lia].
  rewrite drop_settlement_promises. simpl. rewrite (held_bytes_insert _ _ p) by done.
  unfold slot_charge at 2. simpl. pose proof (slot_charge_nonneg p). lia.
Qed.

(** ** Notifications *)

Lemma notify_ok ops h i cb h' :
  promises_ok ops (promises h) → notify i cb h = Ret h' →
  promises_ok ops (promises h') ∧ store_le (promises h) (promises h')
  ∧ (∀ rest, accounted rest h → accounted rest h') ∧ retained_bytes h' = retained_bytes h.
Proof.
  intros Hok. unfold notify. destruct (promises h !! i) as [p|] eqn:E; [|by intros [= <-]].
  destruct (registered p) eqn:Er; [done|].
  assert (∀ hk, (done p = true → hk = hook p) →
    let p' := MkPromise (answers p) (slot p) (gone p) true (done p) hk in
    promises_ok ops (<[i:=p']> (promises h)) ∧ store_le (promises h) (<[i:=p']> (promises h))
    ∧ ∀ rest, accounted rest h → accounted rest (set_promise i p' h)) as Hset.
  { intros hk Hhk p'. split_and!.
    - destruct Hok as [Hp Hd Hw Hs Hkd Hv]. split; [|done| | | |].
      + intros k op Hk. destruct (Hp k op Hk) as (q & Hq & Hsl & Hdn).
        destruct (decide (i = promise (sender op))) as [->|Hne].
        * rewrite lookup_insert_eq. assert (q = p) as -> by congruence. by exists p'.
        * rewrite lookup_insert_ne by done. eauto.
      + intros j q [[<- <-]|[N Hj]]%lookup_insert_Some; [by apply (Hw i p)|by apply Hw].
      + intros j q [[<- <-]|[N Hj]]%lookup_insert_Some Hsl; [|by eapply Hs].
        destruct (Hs i p E Hsl) as [Hdn Hh]. simpl. split; [done|]. by rewrite Hhk.
      + intros k op q Hk [[-> <-]|[N Hj]]%lookup_insert_Some; [by apply (Hkd k op p)|].
        by apply (Hkd k op q).
      + intros j q r [[<- <-]|[N Hj]]%lookup_insert_Some; [by apply (Hv i p)|by apply (Hv j)].
    - apply store_le_insert with p; [done|]. by split_and!.
    - intros rest (Hr & H0 & Hm). unfold accounted. simpl.
      rewrite (held_bytes_insert _ _ p) by done.
      change (slot_charge p') with (slot_charge p). lia. }
  destruct (done p) eqn:Ed; intros [= <-]; simpl.
  - destruct (Hset (hook p)) as (? & ? & Hacc); [done|]. split_and!; [done..| |done].
    intros rest Hr. apply (run_callback_accounted (Some cb)). by apply Hacc.
  - destruct (Hset (Some cb)) as (? & ? & Hacc); [done|]. by split_and!.
Qed.
