(* ===== verification/Session.v ===== *)
(** * Sessions ([protocol/session.rs])

    The state guarded by the session's lock and every critical section that
    reads or writes it, for the workers, the handles and the owner. Time is read
    under the lock and passed in as [now]. *)

From S2P Require Import Prelude Io Message Envelope Promise.

(** ** Limits ([protocol/mod.rs]) *)

Definition DEFAULT_AUTOREPLY_TIMEOUT : Duration := secs 5.
Definition DEFAULT_MAX_INBOUND_REQUESTS : Z := 1024.
Definition DEFAULT_MAX_INBOUND_BYTES : Z := (16 * 1024 * 1024)%Z.

Module Session.
Section session.
Context {Payload : Variant → Type} `{Prost Payload}.

(** ** State *)

(** [OutgoingBody] *)
Inductive OutgoingBody :=
  | OutRequest (m : Message Payload)
  | OutReply (id : Z) (r : result (Message Payload) SchemaError).

(** [OutgoingMessage] *)
Record OutgoingMessage := MkOutgoing { out_body : OutgoingBody; key : nat }.

(** [State::Open] *)
Record OpenState := MkOpen {
  max_inbound_requests : Z;
  max_inbound_bytes : Z;
  autoreply_timeout : Duration;
  incoming : list (Z * IncomingEnvelope);
  reserved_ids : gset Z;
  outgoing : list OutgoingMessage;
  next_id : option Z;
  outstanding : gmap Z nat;
  operations : gmap nat PendingOperation;
}.

(** [State] *)
Inductive State :=
  | Open (o : OpenState)
  | Closed (e : Protocol.Error).

(** [SessionInner]: the guarded state, the promises and byte counter it shares
    with the application, whether its stream was closed, and the next unused
    allocation for operation keys and promises. *)
Record Session := MkSession {
  state : State;
  store : Store;
  stream_closed : bool;
  fresh : nat;
}.

Context (side : Side).

(** [SessionInner::new] *)
Definition new : Session :=
  MkSession
    (Open (MkOpen DEFAULT_MAX_INBOUND_REQUESTS DEFAULT_MAX_INBOUND_BYTES
             DEFAULT_AUTOREPLY_TIMEOUT [] ∅ [] (Some (parity_first (parity side))) ∅ ∅))
    (MkStore ∅ 0 []) false 0.

Definition set_state (st : State) (s : Session) : Session :=
  MkSession st (store s) (stream_closed s) (fresh s).

Definition set_store (h : Store) (s : Session) : Session :=
  MkSession (state s) h (stream_closed s) (fresh s).

(** ** Closing *)

(** [State::close]: fails every pending operation and leaves the reason. *)
Definition state_close (error : Protocol.Error) (now : Instant) (s : Session) :
  Session * option OpenState :=
  match state s with
  | Closed _ => (s, None)
  | Open o =>
      (set_store (fail_all (map_to_list (operations o)).*2 error now (store s))
         (set_state (Closed error) s), Some o)
  end.

(** [SessionInner::finish_close]: drops the queues, closing a client's stream. *)
Definition finish_close (removed : option OpenState) (s : Session) : Session :=
  let h := match removed with
           | Some o => foldr (λ '(_, e) h, drop_envelope e h) (store s) (incoming o)
           | None => store s
           end in
  MkSession (state s) h (stream_closed s || bool_decide (side = Client)) (fresh s).

(** [SessionInner::close] *)
Definition close (error : Protocol.Error) (now : Instant) (s : Session) : Session :=
  let '(s, removed) := state_close error now s in finish_close removed s.

(** ** Configuration *)

(** [SessionInner::set_autoreply_timeout] *)
Definition set_autoreply_timeout (timeout : Duration) (s : Session) : Session :=
  match state s with
  | Open o =>
      set_state (Open (MkOpen (max_inbound_requests o) (max_inbound_bytes o) timeout
                         (incoming o) (reserved_ids o) (outgoing o) (next_id o)
                         (outstanding o) (operations o))) s
  | Closed _ => s
  end.

(** [SessionInner::set_inbound_limits] *)
Definition set_inbound_limits (requests bytes : Z) (now : Instant) (s : Session) : Session :=
  match state s with
  | Closed _ => s
  | Open o =>
      let s := set_state (Open (MkOpen requests bytes (autoreply_timeout o)
                                  (incoming o) (reserved_ids o) (outgoing o) (next_id o)
                                  (outstanding o) (operations o))) s in
      if decide (requests < Z.of_nat (size (reserved_ids o)))%Z then
        close (Protocol.InboundRequestLimitExceeded requests) now s
      else if decide (bytes < retained_bytes (store s))%Z then
        close (Protocol.InboundByteLimitExceeded bytes) now s
      else s
  end.

(** ** Deadlines *)

Definition reply_id (m : OutgoingMessage) : option Z :=
  match out_body m with OutReply id _ => Some id | OutRequest _ => None end.

(** The IDs of the replies in a queue. *)
Definition reply_ids (l : list OutgoingMessage) : list Z := omap reply_id l.

Definition expired (now : Instant) (op : PendingOperation) : bool :=
  bool_decide (deadline op ≤ now)%Z.

(** [State::expire] *)
Definition expire (now : Instant) (s : Session) : Session :=
  match state s with
  | Closed _ => s
  | Open o =>
      let late := filter (λ '(_, op), expired now op = true) (operations o) in
      let kept := filter (λ '(_, op), expired now op = false) (operations o) in
      let discarded := filter (λ m, kept !! key m = None) (outgoing o) in
      let retained := filter (λ m, is_Some (kept !! key m)) (outgoing o) in
      set_store (fail_all (map_to_list late).*2 Protocol.Timeout now (store s))
        (set_state
           (Open (MkOpen (max_inbound_requests o) (max_inbound_bytes o) (autoreply_timeout o)
                    (incoming o) (reserved_ids o ∖ list_to_set (reply_ids discarded)) retained
                    (next_id o) (outstanding o) kept)) s)
  end.

(** ** Submitting *)

(** [SessionInner::enqueue] *)
Definition enqueue (body : OutgoingBody) (op : PendingOperation) (now : Instant)
    (s : Session) : result unit Protocol.Error * Session :=
  match state s with
  | Closed error => (Err error, s)
  | Open o =>
      if decide (deadline op ≤ now)%Z then
        let reserved := match body with
                        | OutReply id _ => reserved_ids o ∖ {[id]}
                        | OutRequest _ => reserved_ids o
                        end in
        (Ok tt,
         set_store (fail op Protocol.Timeout now (store s))
           (set_state
              (Open (MkOpen (max_inbound_requests o) (max_inbound_bytes o)
                       (autoreply_timeout o) (incoming o) reserved (outgoing o) (next_id o)
                       (outstanding o) (operations o))) s))
      else
        let key := fresh s in
        (Ok tt,
         MkSession
           (Open (MkOpen (max_inbound_requests o) (max_inbound_bytes o) (autoreply_timeout o)
                    (incoming o) (reserved_ids o) (outgoing o ++ [MkOutgoing body key])
                    (next_id o) (outstanding o) (<[key:=op]> (operations o))))
           (store s) (stream_closed s) (S key))
  end.

(** [Promise::pair], then [enqueue]; a refused submission drops its promise. *)
Definition submit (response : bool) (body : OutgoingBody) (deadline now : Instant)
    (s : Session) : result nat Protocol.Error * Session :=
  let i := fresh s in
  let '(sender, h) := pair i response (store s) in
  let s := MkSession (state s) h (stream_closed s) (S i) in
  match enqueue body (MkOperation deadline sender) now s with
  | (Ok _, s) => (Ok i, s)
  | (Err e, s) => (Err e, set_store (drop_promise i (store s)) s)
  end.

(** [SessionInner::request] *)
Definition request (m : Message Payload) (deadline now : Instant) (s : Session) :
  result nat Protocol.Error * Session :=
  submit true (OutRequest m) deadline now s.

(** [SessionInner::reply] *)
Definition reply (id : Z) (r : result (Message Payload) SchemaError) (deadline now : Instant)
    (s : Session) : result nat Protocol.Error * Session :=
  submit false (OutReply id r) deadline now s.

(** [SessionInner::autoreply]; the promise is dropped at once. *)
Definition autoreply (id : Z) (error : SchemaError) (now now' : Instant) (s : Session) :
  Session :=
  match state s with
  | Closed _ => s
  | Open o =>
      let deadline := default now (instant_add now (autoreply_timeout o)) in
      match reply id (Err error) deadline now' s with
      | (Ok i, s) => set_store (drop_promise i (store s)) s
      | (Err _, s) => s
      end
  end.

(** [SessionInner::reply_unanswered] *)
Definition reply_unanswered (id : Z) (now now' : Instant) (s : Session) : Session :=
  autoreply id (MkSchemaError UNANSWERED "request left unanswered") now now' s.

(** [SessionInner::reply_unknown] *)
Definition reply_unknown (id : Z) (now now' : Instant) (s : Session) : Session :=
  autoreply id (MkSchemaError UNKNOWN "request not known") now now' s.

(** ** Receiving *)

(** [SessionInner::admit_request] *)
Definition admit_request (h : Header) (bs : list byte) (s : Session) :
  result unit Protocol.Error * Session :=
  match state s with
  | Closed error => (Err error, s)
  | Open o =>
      if decide (id h ∈ reserved_ids o) then (Err Protocol.Malformed, s)
      else if decide (max_inbound_requests o ≤ Z.of_nat (size (reserved_ids o)))%Z then
        (Err (Protocol.InboundRequestLimitExceeded (max_inbound_requests o)), s)
      else
        let admitted queue h' :=
          MkSession
            (Open (MkOpen (max_inbound_requests o) (max_inbound_bytes o) (autoreply_timeout o)
                     (incoming o ++ queue) ({[id h]} ∪ reserved_ids o) (outgoing o) (next_id o)
                     (outstanding o) (operations o)))
            h' (stream_closed s) (fresh s) in
        if unknown h then (Ok tt, admitted [] (store s))
        else
          match retain (MkIncoming bs h) (max_inbound_bytes o) (store s) with
          | (Err error, h') => (Err error, set_store h' s)
          | (Ok message, h') => (Ok tt, admitted [(id h, message)] h')
          end
  end.

(** The response arm of [SessionInner::handle_message]. *)
Definition route_response (h : Header) (bs : list byte) (now : Instant) (s : Session) :
  outcome (result unit Protocol.Error * Session) :=
  match state s with
  | Closed error => Ret (Err error, s)
  | Open o =>
      match outstanding o !! id h with
      | None => Ret (Ok tt, s)
      | Some key =>
          let s' ops h' :=
            MkSession
              (Open (MkOpen (max_inbound_requests o) (max_inbound_bytes o)
                       (autoreply_timeout o) (incoming o) (reserved_ids o) (outgoing o)
                       (next_id o) (delete (id h) (outstanding o)) ops))
              h' (stream_closed s) (fresh s) in
          match operations o !! key with
          | None => Ret (Ok tt, s' (operations o) (store s))
          | Some op =>
              match complete_response op now (MkIncoming bs h) (max_inbound_bytes o)
                      (store s) with
              | Ret (r, h') => Ret (r, s' (delete key (operations o)) h')
              | Panicked => Panicked
              | Diverged => Diverged
              end
          end
      end
  end.

(** [SessionInner::handle_message] up to the release of the lock: the ID of a
    request with unknown content is still to be answered. *)
Definition handle_locked (bs : list byte) (now : Instant) (s : Session) :
  outcome (result (option Z) Protocol.Error * Session) :=
  match decode_header side bs with
  | Panicked => Panicked
  | Diverged => Diverged
  | Ret (Err e) => Ret (Err e, s)
  | Ret (Ok h) =>
      match from_id (id h) (parity side) with
      | Request =>
          if failed h then Ret (Err Protocol.Malformed, s)
          else
            match admit_request h bs s with
            | (Err e, s) => Ret (Err e, s)
            | (Ok _, s) => Ret (Ok (if unknown h then Some (id h) else None), s)
            end
      | Response =>
          match route_response h bs now s with
          | Ret (Err e, s) => Ret (Err e, s)
          | Ret (Ok _, s) => Ret (Ok None, s)
          | Panicked => Panicked
          | Diverged => Diverged
          end
      end
  end.

(** [SessionInner::handle_message] *)
Definition handle_message (bs : list byte) (now now' : Instant) (s : Session) :
  outcome (result unit Protocol.Error * Session) :=
  match handle_locked bs now s with
  | Ret (Ok (Some id), s) => Ret (Ok tt, reply_unknown id now' now' s)
  | Ret (Ok None, s) => Ret (Ok tt, s)
  | Ret (Err e, s) => Ret (Err e, s)
  | Panicked => Panicked
  | Diverged => Diverged
  end.

(** One pass of [run_reader] on a received message: a failure closes. *)
Definition reader_pass (r : result (list byte) Io.Error) (now now' : Instant) (s : Session) :
  outcome Session :=
  match r with
  | Err e => Ret (close (Protocol.Transport e) now s)
  | Ok bs =>
      match handle_message bs now now' s with
      | Ret (Ok _, s) => Ret s
      | Ret (Err e, s) => Ret (close e now' s)
      | Panicked => Panicked
      | Diverged => Diverged
      end
  end.

(** [SessionInner::recv] up to the release of the lock: [None] while it waits. *)
Definition recv_take (s : Session) :
  option (result (Z * IncomingEnvelope) Protocol.Error * Session) :=
  match state s with
  | Closed error => Some (Err error, s)
  | Open o =>
      match incoming o with
      | [] => None
      | (id, e) :: rest =>
          Some (Ok (id, e),
                set_state
                  (Open (MkOpen (max_inbound_requests o) (max_inbound_bytes o)
                           (autoreply_timeout o) rest (reserved_ids o) (outgoing o)
                           (next_id o) (outstanding o) (operations o))) s)
      end
  end.

(** [IncomingEnvelope::decode]: releases the charge; a malformed payload closes
    the session. *)
Definition decode_envelope (e : IncomingEnvelope) (now : Instant) (s : Session) :
  result (Message Payload) Protocol.Error * Session :=
  let s := set_store (drop_envelope e (store s)) s in
  match Envelope.decode side (bytes e) with
  | Ok (_, Ok m) => (Ok m, s)
  | Ok (_, Err error) => (Err (Protocol.Remote error), s)
  | Err _ => (Err Protocol.Malformed, close Protocol.Malformed now s)
  end.

(** ** The deadline worker *)

(** Whether expiry left callbacks to run, for which a worker releases the lock
    and looks again. *)
Definition has_notifications (s s' : Session) : bool :=
  bool_decide (callbacks (store s') ≠ callbacks (store s)).

Definition min_deadline (ops : gmap nat PendingOperation) : option Instant :=
  map_fold (λ _ op acc, Some (match acc with
                              | Some d => Z.min (deadline op) d
                              | None => deadline op
                              end)) None ops.

Inductive DeadlineTurn :=
  | DeadlineAgain (s : Session)
  | DeadlineExit
  | DeadlineSleep (until : option Instant) (s : Session).

(** One turn of [SessionInner::run_deadlines]. *)
Definition run_deadlines (now : Instant) (s : Session) : DeadlineTurn :=
  let s' := expire now s in
  if has_notifications s s' then DeadlineAgain s'
  else
    match state s' with
    | Closed _ => DeadlineExit
    | Open o => DeadlineSleep (min_deadline (operations o)) s'
    end.

(** ** Writing *)

(** One pass of [SessionInner::next_outgoing]: take a message, look again, stop,
    or wait. *)
Inductive Next :=
  | Take (id : Z) (m : OutgoingMessage) (s : Session)
  | Again (s : Session)
  | Stop
  | Sleep (s : Session).

Definition next_outgoing (now : Instant) (s0 : Session) : outcome Next :=
  let s := expire now s0 in
  if has_notifications s0 s then Ret (Again s) else
  match state s with
  | Closed _ => Ret Stop
  | Open o =>
      match outgoing o with
      | [] => Ret (Sleep s)
      | m :: rest =>
          match out_body m with
          | OutRequest _ =>
              match next_id o with
              | None => Panicked
              | Some id =>
                  Ret (Take id m
                    (set_state
                       (Open (MkOpen (max_inbound_requests o) (max_inbound_bytes o)
                                (autoreply_timeout o) (incoming o) (reserved_ids o) rest
                                (checked_add u64_max id 2) (<[id:=key m]> (outstanding o))
                                (operations o))) s))
              end
          | OutReply id _ =>
              Ret (Take id m
                (set_state
                   (Open (MkOpen (max_inbound_requests o) (max_inbound_bytes o)
                            (autoreply_timeout o) (incoming o) (reserved_ids o ∖ {[id]}) rest
                            (next_id o) (outstanding o) (operations o))) s))
          end
      end
  end.

(** [SessionInner::record_write] *)
Definition record_write (k : nat) (r : result unit Protocol.Error) (now : Instant)
    (s : Session) : Session :=
  match state s with
  | Closed _ => s
  | Open o =>
      match operations o !! k with
      | None => s
      | Some op =>
          let without h :=
            MkSession
              (Open (MkOpen (max_inbound_requests o) (max_inbound_bytes o)
                       (autoreply_timeout o) (incoming o) (reserved_ids o) (outgoing o)
                       (next_id o) (outstanding o) (delete k (operations o))))
              h (stream_closed s) (fresh s) in
          if decide (deadline op ≤ now ∨ is_err r = true)%Z then
            without (fail op (match r with Err e => e | Ok _ => Protocol.Timeout end) now
                       (store s))
          else if negb (response (sender op)) then
            without (send_result (sender op) (Ok PWritten) (store s)).2
          else s
      end
  end.

Definition is_request (m : OutgoingMessage) : bool :=
  match out_body m with OutRequest _ => true | OutReply _ _ => false end.

Definition body_sent (m : OutgoingMessage) : result (Message Payload) SchemaError :=
  match out_body m with OutRequest m => Ok m | OutReply _ r => r end.

(** [SessionInner::run_writer] on a taken message: [send] is the transport's
    answer to the encoded bytes. *)
Definition write_result (max_message_size : nat) (id : Z) (m : OutgoingMessage)
    (send : list byte → result unit Io.Error) : result unit Protocol.Error :=
  match encode max_message_size side id (body_sent m) with
  | Ok bs => map_err Protocol.Transport (send bs)
  | Err e => Err e
  end.

(** Its lock scope after a write: a request that was not sent has no answer to
    come. *)
Definition forget_unsent (id : Z) (m : OutgoingMessage) (r : result unit Protocol.Error)
    (s : Session) : Session :=
  match state s with
  | Open o =>
      if is_request m && is_err r then
        set_state
          (Open (MkOpen (max_inbound_requests o) (max_inbound_bytes o)
                   (autoreply_timeout o) (incoming o) (reserved_ids o)
                   (outgoing o) (next_id o) (delete id (outstanding o))
                   (operations o))) s
      else s
  | Closed _ => s
  end.

(** The rest of one iteration, on the write's result: whether the writer goes
    on. *)
Definition write_taken (id : Z) (m : OutgoingMessage) (r : result unit Protocol.Error)
    (now now' : Instant) (s : Session) : bool * Session :=
  match r with
  | Err (Protocol.Transport e) => (false, close (Protocol.Transport e) now s)
  | _ => (true, record_write (key m) r now' (forget_unsent id m r s))
  end.

(** ** Handles *)

(** [Responder::enqueue] on a session still reachable, with the drop that
    follows a refusal. *)
Definition responder_enqueue (id : Z) (r : result (Message Payload) SchemaError)
    (deadline now : Instant) (s : Session) : result nat Protocol.Error * Session :=
  match reply id r deadline now s with
  | (Ok i, s) => (Ok i, s)
  | (Err e, s) => (Err e, reply_unanswered id now now s)
  end.

(** [Responder::drop] of an unanswered request. *)
Definition responder_drop (id : Z) (now now' : Instant) (s : Session) : Session :=
  reply_unanswered id now now' s.

(** [SessionInner::recv] after the release of the lock: the message with the
    responder for its ID; a failure drops the responder. *)
Definition recv_decode (id : Z) (e : IncomingEnvelope) (now : Instant) (s : Session) :
  result (Message Payload * Z) Protocol.Error * Session :=
  match decode_envelope e now s with
  | (Ok m, s) => (Ok (m, id), s)
  | (Err error, s) => (Err error, reply_unanswered id now now s)
  end.

(** [Promise::wait] of a request for any [Message], once its result is there: expiry on
    entry at [now], a malformed payload closing at [now']. *)
Definition wait_response (i : nat) (now now' : Instant) (s : Session) :
  option (outcome (result (Message Payload) Protocol.Error * Session)) :=
  let s := expire now s in
  match take_result i (store s) with
  | None => None
  | Some (Err e, h) => Some (Ret (Err e, set_store h s))
  | Some (Ok (PResponse e), h) => Some (Ret (decode_envelope e now' (set_store h s)))
  | Some (Ok PWritten, _) => Some Panicked
  end.

(** [Promise::wait] of a request for the payload of one variant. *)
Definition wait (v : Variant) (i : nat) (now now' : Instant) (s : Session) :
  option (outcome (result (Payload v) Protocol.Error * Session)) :=
  match wait_response i now now' s with
  | None => None
  | Some (Ret (Ok m, s)) => Some (Ret (try_payload v m, s))
  | Some (Ret (Err e, s)) => Some (Ret (Err e, s))
  | Some Panicked => Some Panicked
  | Some Diverged => Some Diverged
  end.

(** [Promise::wait] of a reply. *)
Definition wait_written (i : nat) (now : Instant) (s : Session) :
  option (outcome (result unit Protocol.Error * Session)) :=
  let s := expire now s in
  match take_result i (store s) with
  | None => None
  | Some (Err e, h) => Some (Ret (Err e, set_store h s))
  | Some (Ok PWritten, h) => Some (Ret (Ok tt, set_store h s))
  | Some (Ok (PResponse _), _) => Some Panicked
  end.
End session.
End Session.
