(* ===== verification/SessionInv.v ===== *)
(** * The session's invariant

    What the lock protects: which peer requests hold an ID, which messages wait
    for the writer, which requests wait for an answer, whose promise each
    operation settles, and whose bytes the counter counts. Every critical
    section keeps it. *)

From Stdlib Require Import Sorting.Sorted.
From S2P Require Import Prelude Io Message Envelope Promise Settling Session.

Module SessionInv.
Import Session.

Section inv.
Context {Payload : Variant → Type} `{Prost Payload} (side : Side).
Abbreviation Session := (Session (Payload:=Payload)).
Abbreviation OpenState := (OpenState (Payload:=Payload)).

(** ** The invariant *)

Definition charges (l : list (Z * IncomingEnvelope)) : Z :=
  foldr (λ '(_, e) acc, (charge e + acc)%Z) 0%Z l.

(** The peer requests that hold an ID: queued ones, those of [ext] held outside
    the queues, and those whose reply is queued. *)
Definition obligations (ext : list Z) (o : OpenState) : list Z :=
  (incoming o).*1 ++ ext ++ reply_ids (outgoing o).

Record ids_ok (ext : list Z) (o : OpenState) : Prop := MkIdsOk {
  ids_nodup : NoDup (obligations ext o);
  ids_reserved i : i ∈ reserved_ids o ↔ i ∈ obligations ext o;
  ids_limit : (Z.of_nat (size (reserved_ids o)) ≤ max_inbound_requests o)%Z;
}.

(** Queued messages and answerable requests, each with an operation of its own
    kind. *)
Record queue_ok (o : OpenState) : Prop := MkQueueOk {
  queue_nodup : NoDup (key <$> outgoing o);
  queue_ops m :
    m ∈ outgoing o →
    ∃ op, operations o !! key m = Some op ∧ response (sender op) = is_request m;
  queue_sent i k :
    outstanding o !! i = Some k →
    k ∉ key <$> outgoing o
    ∧ ∀ op, operations o !! k = Some op → response (sender op) = true;
  queue_routes i j k :
    outstanding o !! i = Some k → outstanding o !! j = Some k → i = j;
}.

(** The IDs given to our requests so far, in order. *)
Record alloc_ok (taken : list Z) (o : OpenState) : Prop := MkAllocOk {
  alloc_parity : Forall (λ i, parity_of i = parity side ∧ (0 < i ≤ u64_max)%Z) taken;
  alloc_sorted : StronglySorted Z.lt taken;
  alloc_next n :
    next_id o = Some n →
    parity_of n = parity side ∧ (0 < n ≤ u64_max)%Z ∧ Forall (λ i, (i < n)%Z) taken;
  alloc_sent i : is_Some (outstanding o !! i) → i ∈ taken;
}.

Record fresh_ok (s : Session) (o : OpenState) : Prop := MkFreshOk {
  fresh_promises i : is_Some (promises (store s) !! i) → i < fresh s;
  fresh_ops k : is_Some (operations o !! k) → k < fresh s;
  fresh_sent i k : outstanding o !! i = Some k → k < fresh s;
}.

Record bytes_ok (c : Z) (o : OpenState) (h : Store) : Prop := MkBytesOk {
  bytes_accounted : accounted (charges (incoming o) + c) h;
  bytes_limit : (retained_bytes h ≤ max_inbound_bytes o)%Z;
  bytes_width : (max_inbound_bytes o ≤ usize_max)%Z;
}.

(** [ext] are the IDs held outside the queues, [c] the bytes charged outside
    queues and promises, [taken] the IDs our requests were given. *)
Definition inv (ext : list Z) (c : Z) (taken : list Z) (s : Session) : Prop :=
  (0 ≤ c)%Z
  ∧ match state s with
    | Open o =>
        ids_ok ext o ∧ queue_ok o ∧ alloc_ok taken o
        ∧ promises_ok (operations o) (promises (store s)) ∧ fresh_ok s o
        ∧ bytes_ok c o (store s)
    | Closed _ =>
        promises_ok ∅ (promises (store s)) ∧ accounted c (store s)
        ∧ ∀ i, is_Some (promises (store s) !! i) → i < fresh s
    end.

(** ** Lemmas *)

Lemma charges_nonneg l : (0 ≤ charges l)%Z.
Proof.
  induction l as [|[i e] l IH]; simpl; [done|]. pose proof (charge_nonneg e). lia.
Qed.

Lemma drop_envelope_promises e h : promises (drop_envelope e h) = promises h.
Proof. done. Qed.

Lemma fail_all_fresh (l : list PendingOperation) e now h i :
  is_Some (promises (fail_all l e now h) !! i) → is_Some (promises h !! i).
Proof.
  induction l as [|op l IH]; simpl; [done|]. pose proof (fail_settles op e now
    (fail_all l e now h)) as Hs. unfold settled_by in Hs. intros Hi. apply IH.
  rewrite Hs in Hi.
  destruct (promises (fail_all l e now h) !! promise (sender op)) eqn:E; [|done].
  destruct (decide (promise (sender op) = i)) as [<-|Hne]; [by rewrite E|].
  by rewrite lookup_insert_ne in Hi.
Qed.

Lemma send_result_retained snd r h :
  (∀ e, r ≠ Ok (PResponse e)) → retained_bytes (send_result snd r h).2 = retained_bytes h.
Proof.
  intros Hr. assert (∀ h, drop_settlement (Some r) h = h) as Hd
    by (intros h'; unfold drop_settlement; destruct r as [[]|]; naive_solver).
  unfold send_result. destruct (promises h !! promise snd) as [p|]; simpl; [|by rewrite Hd].
  destruct (gone p); simpl; rewrite ?Hd; by destruct (hook p).
Qed.

Lemma fail_all_retained (l : list PendingOperation) e now h :
  retained_bytes (fail_all l e now h) = retained_bytes h.
Proof.
  induction l as [|op l IH]; simpl; [done|]. unfold fail.
  rewrite send_result_retained; [done|]. by intros.
Qed.

Lemma drop_all_accounted (l : list (Z * IncomingEnvelope)) c h :
  accounted (charges l + c) h → (0 ≤ c)%Z →
  accounted c (foldr (λ '(_, e) h, drop_envelope e h) h l)
  ∧ promises (foldr (λ '(_, e) h, drop_envelope e h) h l) = promises h.
Proof.
  revert c. induction l as [|[i e] l IH]; intros c Hacc Hc; simpl in *; [done|].
  pose proof (charge_nonneg e). pose proof (charges_nonneg l).
  destruct (IH (charge e + c)%Z) as [Hacc' Hp]; [|lia|].
  - by replace (charges l + (charge e + c))%Z with (charge e + charges l + c)%Z by lia.
  - split; [|done]. apply drop_envelope_accounted; [|done].
    by rewrite Z.add_comm.
Qed.

Lemma fail_map_accounted (ops : Ops) e now rest h :
  promises_ok ops (promises h) → accounted rest h →
  accounted rest (fail_all (map_to_list ops).*2 e now h).
Proof.
  intros. eapply fail_all_accounted; [apply NoDup_fst_map_to_list| |done..].
  intros k op. by rewrite elem_of_map_to_list.
Qed.

Lemma fail_map_le (ops : Ops) e now h :
  promises_ok ops (promises h) →
  store_le (promises h) (promises (fail_all (map_to_list ops).*2 e now h)).
Proof.
  intros. eapply fail_all_le; [apply NoDup_fst_map_to_list| |done..].
  intros k op. by rewrite elem_of_map_to_list.
Qed.

(** ** Closing *)

Lemma inv_close ext ext' c taken e now s :
  inv ext c taken s →
  inv ext' c taken (close side e now s)
  ∧ store_le (promises (store s)) (promises (store (close side e now s))).
Proof.
  intros [Hc Hst]. unfold close, state_close, inv. destruct (state s) as [o|e0] eqn:Es.
  - destruct Hst as (_ & _ & _ & Hp & Hf & [Hacc _ _]).
    assert (accounted (charges (incoming o) + c)
      (fail_all (map_to_list (operations o)).*2 e now (store s))) as Hacc'
      by (by apply fail_map_accounted).
    destruct (drop_all_accounted _ _ _ Hacc' Hc) as [Hacc'' Hprom]. simpl. rewrite Hprom.
    split_and!; [done|by apply promises_ok_fail_map|done| |by apply fail_map_le].
    intros i Hi%fail_all_fresh. by eapply fresh_promises.
  - unfold finish_close. simpl. rewrite Es. by split.
Qed.

Lemma close_state e now (s : Session) :
  state (close side e now s) = match state s with Open _ => Closed e | Closed e0 => Closed e0 end.
Proof.
  unfold close, state_close. by destruct (state s) eqn:E; simpl; rewrite ?E.
Qed.

(** ** Deadlines *)

Lemma reply_ids_filter_split (P : OutgoingMessage (Payload:=Payload) → Prop)
    `{∀ m, Decision (P m)} l i :
  NoDup (reply_ids l) →
  i ∈ reply_ids (filter P l) ↔
  i ∈ reply_ids l ∧ i ∉ reply_ids (filter (λ m, ¬ P m) l).
Proof.
  induction l as [|m l IH]; simpl.
  { intros _. set_solver. }
  unfold reply_ids in *. rewrite !filter_cons. simpl. intros Hnd.
  assert (∀ j, j ∈ omap reply_id (filter P l) → j ∈ omap reply_id l) as Hin.
  { intros j. rewrite !list_elem_of_omap. intros (x & Hx & ?).
    apply list_elem_of_filter in Hx as [_ Hx]. eauto. }
  assert (∀ j, j ∈ omap reply_id (filter (λ m, ¬ P m) l) → j ∈ omap reply_id l) as Hin'.
  { intros j. rewrite !list_elem_of_omap. intros (x & Hx & ?).
    apply list_elem_of_filter in Hx as [_ Hx]. eauto. }
  destruct (decide (P m)) as [Hm|Hm].
  - rewrite decide_False by naive_solver. simpl.
    destruct (reply_id m) as [j|]; [|by apply IH].
    apply NoDup_cons in Hnd as [Hj Hnd]. rewrite !elem_of_cons, (IH Hnd). naive_solver.
  - rewrite decide_True by done. simpl.
    destruct (reply_id m) as [j|]; [|by apply IH].
    apply NoDup_cons in Hnd as [Hj Hnd]. rewrite !elem_of_cons, (IH Hnd). naive_solver.
Qed.

Lemma reply_ids_filter_sublist (P : OutgoingMessage (Payload:=Payload) → Prop)
    `{∀ m, Decision (P m)} l :
  reply_ids (filter P l) `sublist_of` reply_ids l.
Proof.
  induction l as [|m l IH]; simpl; [done|]. unfold reply_ids in *. rewrite filter_cons. simpl.
  destruct (decide (P m)); simpl; destruct (reply_id m); simpl;
    eauto using sublist_skip, sublist_cons.
Qed.

Lemma obligations_nodup ext (o : OpenState) :
  NoDup (obligations ext o) ↔
  NoDup ((incoming o).*1 ++ ext) ∧ NoDup (reply_ids (outgoing o))
  ∧ ∀ i, i ∈ (incoming o).*1 ++ ext → i ∉ reply_ids (outgoing o).
Proof. unfold obligations. rewrite app_assoc, NoDup_app. naive_solver. Qed.

Lemma elem_of_obligations ext (o : OpenState) i :
  i ∈ obligations ext o ↔ i ∈ (incoming o).*1 ++ ext ∨ i ∈ reply_ids (outgoing o).
Proof. unfold obligations. by rewrite app_assoc, elem_of_app. Qed.

(** Dropping queued messages drops the obligations of the replies among them. *)
Lemma ids_ok_retain ext (o o' : OpenState) (P : OutgoingMessage (Payload:=Payload) → Prop)
    `{∀ m, Decision (P m)} :
  ids_ok ext o → incoming o' = incoming o → outgoing o' = filter P (outgoing o) →
  max_inbound_requests o' = max_inbound_requests o →
  reserved_ids o' = reserved_ids o ∖ list_to_set (reply_ids (filter (λ m, ¬ P m) (outgoing o))) →
  ids_ok ext o'.
Proof.
  intros [Hnd Hres Hlim] Hi Ho Hm Hr. apply obligations_nodup in Hnd as (Hn1 & Hn2 & Hdis).
  pose proof (reply_ids_filter_sublist P (outgoing o)) as Hsub. split.
  - apply obligations_nodup. rewrite Hi, Ho. split_and!; [done|by eapply sublist_NoDup|].
    intros i Hin Hin'. apply (Hdis i Hin). by eapply elem_of_sublist.
  - intros i. rewrite elem_of_obligations, Hi, Ho, Hr, elem_of_difference, elem_of_list_to_set.
    rewrite Hres, elem_of_obligations. rewrite (reply_ids_filter_split P) by done.
    split; [tauto|]. intros [Hin|[Hin Hout]]; [|tauto].
    split; [by left|]. intros Hin'. apply (Hdis i Hin).
    eapply elem_of_sublist; [done|apply reply_ids_filter_sublist].
  - rewrite Hr, Hm. etrans; [|done]. apply inj_le, subseteq_size. set_solver.
Qed.

Lemma queue_ok_retain (o o' : OpenState) (P : OutgoingMessage (Payload:=Payload) → Prop)
    `{∀ m, Decision (P m)} :
  queue_ok o → outgoing o' = filter P (outgoing o) → outstanding o' = outstanding o →
  (∀ m, m ∈ outgoing o → P m → operations o' !! key m = operations o !! key m) →
  operations o' ⊆ operations o →
  queue_ok o'.
Proof.
  intros [Hn Hops Hsent Hroutes] Ho Hs HP Hsub. rewrite map_subseteq_spec in Hsub.
  assert (∀ k, k ∈ key <$> outgoing o' → k ∈ key <$> outgoing o) as Hin.
  { intros k. rewrite Ho, !list_elem_of_fmap. intros (m & -> & Hm).
    apply list_elem_of_filter in Hm as [_ Hm]. eauto. }
  split.
  - rewrite Ho. eapply sublist_NoDup; [done|]. apply fmap_sublist, sublist_filter.
  - rewrite Ho. intros m [HPm Hm]%list_elem_of_filter. rewrite HP by done. by apply Hops.
  - rewrite Hs. intros i k Hk. destruct (Hsent i k Hk) as [Hout Hresp]. split; [auto|].
    intros op Hop. by apply Hresp, Hsub.
  - rewrite Hs. apply Hroutes.
Qed.

Lemma kept_filter now (ops : Ops) :
  filter (λ '(_, op), expired now op = false) ops
  = filter (λ x, ¬ (λ '(_, op), expired now op = true) x) ops.
Proof. apply map_filter_ext. intros k op _. simpl. by destruct (expired now op). Qed.

Lemma inv_expire ext c taken now s :
  inv ext c taken s →
  inv ext c taken (expire now s)
  ∧ store_le (promises (store s)) (promises (store (expire now s)))
  ∧ (∀ o, state (expire now s) = Open o →
      ∀ k op, operations o !! k = Some op → (now < deadline op)%Z).
Proof.
  intros Hi. pose proof Hi as [Hc Hst]. unfold expire.
  destruct (state s) as [o|e0] eqn:Es; [|split_and!; [done..|by rewrite Es]].
  destruct Hst as (Hids & Hq & Ha & Hp & Hf & [Hacc Hlim Hw]).
  set (kept := filter (λ '(_, op), expired now op = false) (operations o)).
  set (late := filter (λ '(_, op), expired now op = true) (operations o)).
  assert (kept ⊆ operations o) as Hsub by apply map_filter_subseteq.
  assert (promises_ok kept (promises (fail_all (map_to_list late).*2 Protocol.Timeout now
    (store s)))) as Hp'.
  { unfold kept. rewrite kept_filter. by apply promises_ok_fail_filter. }
  assert (∀ k op, (k, op) ∈ map_to_list late → operations o !! k = Some op) as Hlate
    by (intros k op; apply map_to_list_filter_in).
  assert (accounted (charges (incoming o) + c)
    (fail_all (map_to_list late).*2 Protocol.Timeout now (store s))) as Hacc'
    by (eapply fail_all_accounted; [apply NoDup_fst_map_to_list|done..]).
  split_and!.
  - split; [done|]. simpl. split_and!.
    + eapply (ids_ok_retain ext o _ (λ m, is_Some (kept !! key m))); try done. simpl.
      do 3 f_equal. apply list_filter_iff. intros m. by rewrite eq_None_not_Some.
    + eapply (queue_ok_retain o _ (λ m, is_Some (kept !! key m))); try done. simpl.
      intros m _ [op Hop]. rewrite Hop. symmetry. by eapply lookup_weaken.
    + destruct Ha. by split.
    + done.
    + destruct Hf as [F1 F2 F3]. split; simpl.
      * intros i Hin%fail_all_fresh. auto.
      * intros k [op Hk]. apply F2. exists op. by eapply lookup_weaken.
      * done.
    + split; simpl; try done. by rewrite fail_all_retained.
  - simpl. eapply fail_all_le; [apply NoDup_fst_map_to_list|done..].
  - simpl. intros o' [= <-] k op [_ He]%map_lookup_filter_Some. simpl in He.
    apply bool_decide_eq_false in He. lia.
Qed.

(** ** Submitting *)

(** A submitted reply takes its request's ID from those held outside. *)
Definition consumes (body : OutgoingBody (Payload:=Payload)) (ext ext' : list Z) : Prop :=
  match body with OutRequest _ => ext = ext' | OutReply i _ => ext ≡ₚ i :: ext' end.

Definition body_ids (body : OutgoingBody (Payload:=Payload)) : list Z :=
  match body with OutRequest _ => [] | OutReply i _ => [i] end.

Lemma reply_ids_snoc l body k :
  reply_ids (l ++ [MkOutgoing body k]) = reply_ids l ++ body_ids body.
Proof. unfold reply_ids. rewrite omap_app. by destruct body. Qed.

Lemma consumes_ids body ext ext' : consumes body ext ext' → ext ≡ₚ body_ids body ++ ext'.
Proof. destruct body; simpl; [by intros ->|done]. Qed.

Lemma ids_ok_queued ext ext' (o o' : OpenState) body k :
  ids_ok ext o → consumes body ext ext' → incoming o' = incoming o →
  outgoing o' = outgoing o ++ [MkOutgoing body k] → reserved_ids o' = reserved_ids o →
  max_inbound_requests o' = max_inbound_requests o → ids_ok ext' o'.
Proof.
  intros [Hnd Hres Hlim] Hc%consumes_ids Hi Ho Hr Hm.
  assert (obligations ext o ≡ₚ obligations ext' o') as Hperm.
  { unfold obligations. rewrite Hi, Ho, reply_ids_snoc, Hc. solve_Permutation. }
  split.
  - by rewrite <-Hperm.
  - intros i. by rewrite Hr, Hres, Hperm.
  - by rewrite Hr, Hm.
Qed.

(** A reply that never gets queued releases its ID. *)
Lemma ids_ok_released ext ext' (o o' : OpenState) body :
  ids_ok ext o → consumes body ext ext' → incoming o' = incoming o →
  outgoing o' = outgoing o → reserved_ids o' = reserved_ids o ∖ list_to_set (body_ids body) →
  max_inbound_requests o' = max_inbound_requests o → ids_ok ext' o'.
Proof.
  intros [Hnd Hres Hlim] Hc%consumes_ids Hi Ho Hr Hm.
  assert (obligations ext o ≡ₚ body_ids body ++ obligations ext' o') as Hperm.
  { unfold obligations. rewrite Hi, Ho, Hc. solve_Permutation. }
  rewrite Hperm in Hnd. apply NoDup_app in Hnd as (Hn1 & Hdis & Hn2).
  split; [done| |].
  - intros i. rewrite Hr, elem_of_difference, elem_of_list_to_set, Hres, Hperm, elem_of_app.
    split; [tauto|]. intros Hin. split; [by right|]. intros Hin'. by apply (Hdis i).
  - rewrite Hr, Hm. etrans; [|done]. apply inj_le, subseteq_size. set_solver.
Qed.

Lemma queue_ok_snoc (o o' : OpenState) body k op :
  queue_ok o → (∀ k', is_Some (operations o !! k') → k' ≠ k) →
  (∀ i, outstanding o !! i ≠ Some k) →
  outgoing o' = outgoing o ++ [MkOutgoing body k] → outstanding o' = outstanding o →
  operations o' = <[k:=op]> (operations o) →
  response (sender op) = is_request (MkOutgoing body k) → queue_ok o'.
Proof.
  intros [Hn Hops Hsent Hroutes] Hk Hs Ho Hst Hop Hresp.
  assert (∀ m, m ∈ outgoing o → key m ≠ k) as Hkey.
  { intros m Hm. destruct (Hops m Hm) as (op' & Hop' & _). apply Hk. eauto. }
  split.
  - rewrite Ho, fmap_app. apply NoDup_app. split_and!; [done| |apply NoDup_singleton].
    intros j Hj. apply list_elem_of_fmap in Hj as (m & -> & Hm). simpl.
    rewrite list_elem_of_singleton. by apply Hkey.
  - rewrite Ho, Hop. intros m [Hm|Hm%list_elem_of_singleton]%elem_of_app.
    + rewrite lookup_insert_ne by (intros E; by apply (Hkey m)). by apply Hops.
    + subst m. exists op. simpl. by rewrite lookup_insert_eq.
  - rewrite Ho, Hst, Hop. intros i j Hj. destruct (Hsent i j Hj) as [Hout Hr].
    assert (j ≠ k) as Hjk by (intros ->; by apply (Hs i)). split.
    + rewrite fmap_app, elem_of_app. csimpl. rewrite list_elem_of_singleton. tauto.
    + intros op'. rewrite lookup_insert_ne by done. apply Hr.
  - rewrite Hst. apply Hroutes.
Qed.

Lemma bytes_ok_new i b c (o : OpenState) h :
  promises h !! i = None → bytes_ok c o h → bytes_ok c o (set_promise i (new_promise b) h).
Proof.
  intros Hi [(Hr & H0 & Hm) Hl Hw]. split; [|done|done]. unfold accounted. simpl.
  rewrite held_bytes_insert_new by done. unfold slot_charge. simpl. lia.
Qed.

(** The store with the promise of a new operation, and its keys. *)
Definition with_promise (op : PendingOperation) (s : Session) : Store :=
  set_promise (fresh s) (new_promise (response (sender op))) (store s).

Lemma fresh_unused (s : Session) (o : OpenState) :
  fresh_ok s o →
  promises (store s) !! fresh s = None ∧ operations o !! S (fresh s) = None.
Proof.
  intros [F1 F2 _]. split.
  - destruct (promises (store s) !! fresh s) eqn:E; [|done].
    specialize (F1 (fresh s)). rewrite E in F1. specialize (F1 ltac:(done)). lia.
  - destruct (operations o !! S (fresh s)) eqn:E; [|done].
    specialize (F2 (S (fresh s))). rewrite E in F2. specialize (F2 ltac:(done)). lia.
Qed.

Lemma with_promise_fresh op (s : Session) (o : OpenState) i :
  fresh_ok s o → is_Some (promises (with_promise op s) !! i) → i < S (fresh s).
Proof.
  intros [F1 _ _]. simpl. intros [<-|[_ Hi]]%lookup_insert_is_Some; [lia|]. specialize (F1 i Hi). lia.
Qed.

(** An operation late from the start fails at once. *)
Lemma promises_ok_late (ops : Ops) op now (s : Session) :
  promises_ok ops (promises (store s)) → promises (store s) !! fresh s = None →
  ops !! S (fresh s) = None → promise (sender op) = fresh s →
  promises_ok ops (promises (fail op Protocol.Timeout now (with_promise op s)))
  ∧ store_le (promises (store s))
      (promises (fail op Protocol.Timeout now (with_promise op s)))
  ∧ (∀ i, is_Some (promises (fail op Protocol.Timeout now (with_promise op s)) !! i) →
      is_Some (promises (with_promise op s) !! i))
  ∧ ∀ p, promises (with_promise op s) !! promise (sender op) = Some p →
      gone p = false → slot p = None.
Proof.
  intros Hp Hnew Hkey Hpr.
  pose proof (promises_ok_new _ _ (S (fresh s)) op _ Hp Hnew Hkey Hpr) as Hp'.
  pose proof (fail_settles op Protocol.Timeout now (with_promise op s)) as Hset.
  assert (∀ p, promises (with_promise op s) !! promise (sender op) = Some p →
    gone p = false → slot p = None) as Hnone.
  { intros p. simpl. rewrite Hpr, lookup_insert_eq. by intros [= <-]. }
  split_and!; [| | |done].
  - pose proof (promises_ok_settle _ _ _ (S (fresh s)) op _ Hp' ltac:(apply lookup_insert_eq)
      Hset I) as Hok. by rewrite delete_insert_id in Hok.
  - etrans; [apply (store_le_insert_new _ (fresh s) (new_promise (response (sender op)))); done|].
    exact (settled_by_le _ _ _ _ Hnone Hset).
  - intros i. by apply (fail_all_fresh [op]).
Qed.

Lemma inv_enqueued ext ext' c taken s body op now :
  inv ext c taken s → consumes body ext ext' →
  promise (sender op) = fresh s → response (sender op) = is_request (MkOutgoing body 0) →
  let s1 := MkSession (state s) (with_promise op s) (stream_closed s) (S (fresh s)) in
  match enqueue body op now s1 with
  | (Ok _, s') => inv ext' c taken s' ∧ store_le (promises (store s)) (promises (store s'))
  | (Err e, s') => state s = Closed e ∧ s' = s1
  end.
Proof.
  intros [Hc Hst] Hcons Hpr Hresp s1. unfold enqueue. simpl.
  destruct (state s) as [o|e0]; [|done].
  destruct Hst as (Hids & Hq & Ha & Hp & Hf & Hb). pose proof Hf as [F1 F2 F3].
  destruct (fresh_unused s o Hf) as [Hnew Hkey].
  pose proof (bytes_ok_new _ (response (sender op)) _ _ _ Hnew Hb) as [Hacc Hl Hw].
  case_decide as Hdl.
  - destruct (promises_ok_late _ op now s Hp Hnew Hkey Hpr) as (Hp' & Hle & Hdom & Hnone).
    split; [split; [done|]; simpl; split_and!|done].
    + eapply ids_ok_released; try done. simpl. destruct body; simpl; set_solver.
    + destruct Hq. by split.
    + destruct Ha. by split.
    + done.
    + split; simpl.
      * intros i Hi. by eapply with_promise_fresh, Hdom.
      * intros k Hk. specialize (F2 k Hk). lia.
      * intros i k Hk. specialize (F3 i k Hk). lia.
    + split; simpl; [by apply fail_accounted| |done].
      unfold fail. by rewrite send_result_retained.
  - split; [split; [done|]; simpl; split_and!|by apply store_le_insert_new].
    + by eapply ids_ok_queued.
    + eapply queue_ok_snoc; try done; simpl.
      * intros k' Hk' ->. specialize (F2 _ Hk'). lia.
      * intros i Hi. specialize (F3 i _ Hi). lia.
    + destruct Ha. by split.
    + by apply promises_ok_new.
    + split; simpl.
      * intros i Hi. pose proof (with_promise_fresh op s o i Hf Hi). lia.
      * intros k [<-|[_ Hk]]%lookup_insert_is_Some; [lia|]. specialize (F2 k Hk). lia.
      * intros i k Hk. specialize (F3 i k Hk). lia.
    + by split.
Qed.

Lemma inv_submit ext ext' c taken s body dl now :
  inv ext c taken s → consumes body ext ext' →
  let p := submit (is_request (MkOutgoing body 0)) body dl now s in
  inv ext' c taken p.2 ∧ store_le (promises (store s)) (promises (store p.2))
  ∧ (∀ e, p.1 = Err e → state s = Closed e).
Proof.
  intros Hinv Hcons. unfold submit, pair. simpl.
  pose proof (inv_enqueued ext ext' c taken s body
    (MkOperation dl (MkSender (is_request (MkOutgoing body 0)) (fresh s))) now Hinv Hcons
    eq_refl eq_refl) as He. simpl in He.
  unfold new_promise in He. destruct (enqueue _ _ _ _) as [[u|e] s'].
  - destruct He. by split_and!.
  - destruct He as [Hs ->]. simpl. destruct Hinv as [Hc Hst]. unfold inv in *.
    rewrite Hs in Hst. destruct Hst as (Hp & Hacc & Hf). simpl. rewrite Hs.
    assert (promises (store s) !! fresh s = None) as Hnew.
    { destruct (promises (store s) !! fresh s) eqn:E; [|done].
      specialize (Hf (fresh s)). rewrite E in Hf. specialize (Hf ltac:(done)). lia. }
    unfold drop_promise. simpl. rewrite lookup_insert_eq. simpl.
    unfold drop_settlement. simpl. rewrite insert_insert_eq.
    split_and!; [done| | | | |naive_solver].
    + by apply promises_ok_gone; [|congruence|].
    + destruct Hacc as (Hr & H0 & Hm). unfold accounted. simpl.
      rewrite insert_insert_eq, held_bytes_insert_new by done. unfold slot_charge. simpl. lia.
    + intros i [<-|[_ Hi]]%lookup_insert_is_Some; [lia|]. specialize (Hf i Hi). lia.
    + by apply store_le_insert_new.
Qed.

Lemma inv_request ext c taken s m dl now :
  inv ext c taken s →
  inv ext c taken (request m dl now s).2
  ∧ store_le (promises (store s)) (promises (store (request m dl now s).2)).
Proof.
  intros Hi. destruct (inv_submit ext ext c taken s (OutRequest m) dl now Hi) as (? & ? & _);
    [done|by split].
Qed.

Lemma inv_reply ext ext' c taken s i r dl now :
  inv ext c taken s → ext ≡ₚ i :: ext' →
  inv ext' c taken (reply i r dl now s).2
  ∧ store_le (promises (store s)) (promises (store (reply i r dl now s).2))
  ∧ (∀ e, (reply i r dl now s).1 = Err e → state s = Closed e).
Proof. intros Hi He. by apply (inv_submit ext ext' c taken s (OutReply i r) dl now). Qed.

Lemma inv_ext_closed ext ext' c taken s e :
  inv ext c taken s → state s = Closed e → inv ext' c taken s.
Proof. unfold inv. intros [Hc Hst] E. by rewrite E in *. Qed.

Lemma inv_drop_promise ext c taken i s :
  inv ext c taken s →
  inv ext c taken (set_store (drop_promise i (store s)) s)
  ∧ store_le (promises (store s)) (promises (drop_promise i (store s))).
Proof.
  intros [Hc Hst]. split; [|apply drop_promise_le]. split; [done|]. simpl.
  assert (∀ j, is_Some (promises (drop_promise i (store s)) !! j) →
    is_Some (promises (store s) !! j)) as Hdom.
  { intros j. unfold drop_promise. destruct (promises (store s) !! i) eqn:E; [|done].
    rewrite drop_settlement_promises. simpl.
    by intros [<-|[_ ?]]%lookup_insert_is_Some; [rewrite E|]. }
  destruct (state s) as [o|e0].
  - destruct Hst as (? & ? & ? & Hp & [F1 F2 F3] & [Hacc Hl Hw]). split_and!; try done.
    + by apply promises_ok_drop.
    + split; simpl; auto.
    + split; [by apply drop_promise_accounted| |done].
      pose proof (drop_promise_retained_le _ i _ Hacc). lia.
  - destruct Hst as (Hp & Hacc & Hf). split_and!; auto using promises_ok_drop,
      drop_promise_accounted.
Qed.

Lemma inv_autoreply ext ext' c taken s i err now now' :
  inv ext c taken s → ext ≡ₚ i :: ext' →
  inv ext' c taken (autoreply i err now now' s)
  ∧ store_le (promises (store s)) (promises (store (autoreply i err now now' s))).
Proof.
  intros Hi He. unfold autoreply. destruct (state s) as [o|e0] eqn:Es;
    [|split; [by eapply inv_ext_closed|done]].
  set (dl := default now _).
  destruct (inv_reply ext ext' c taken s i (Err err) dl now' Hi He) as (Hi' & Hle & Herr).
  destruct (reply i (Err err) dl now' s) as [[j|e] s']; simpl in *; [|by split].
  destruct (inv_drop_promise ext' c taken j s' Hi') as [? ?]. split; [done|]. by etrans.
Qed.

Lemma inv_responder_enqueue ext ext' c taken s i r dl now :
  inv ext c taken s → ext ≡ₚ i :: ext' →
  inv ext' c taken (responder_enqueue i r dl now s).2
  ∧ store_le (promises (store s)) (promises (store (responder_enqueue i r dl now s).2)).
Proof.
  intros Hi He. unfold responder_enqueue.
  destruct (inv_reply ext ext' c taken s i r dl now Hi He) as (Hi' & Hle & Herr).
  destruct (reply i r dl now s) as [[j|e] s'] eqn:Er; simpl in *; [by split|].
  assert (inv ext c taken s') as Hext.
  { eapply inv_ext_closed; [done|]. specialize (Herr e eq_refl).
    unfold reply, submit, pair, enqueue in Er. simpl in Er. rewrite Herr in Er.
    by simplify_eq/=. }
  destruct (inv_autoreply ext ext' c taken s' i
    (MkSchemaError UNANSWERED "request left unanswered") now now Hext He) as [? ?].
  split; [done|]. by etrans.
Qed.

(** ** Receiving *)

Lemma retain_Ok e limit h e' h' rest :
  retain e limit h = (Ok e', h') → accounted rest h →
  e' = e ∧ accounted (rest + charge e) h' ∧ (retained_bytes h' ≤ limit)%Z
  ∧ promises h' = promises h.
Proof.
  unfold retain. destruct (reserve _ _ _) as [t|] eqn:Er; [|done]. intros [= <- <-] Hacc.
  pose proof (held_bytes_nonneg (promises h)) as Hh. pose proof (charge_nonneg e).
  destruct Hacc as (Hr & Hrest & Hm). apply release_reserve in Er as (-> & Hl & Hu & _); [|lia].
  split_and!; try done. unfold accounted. simpl. split_and!; lia.
Qed.

Lemma send_result_retained_le snd r rest h :
  accounted (rest + carried r) h → (0 ≤ rest)%Z →
  (retained_bytes (send_result snd r h).2 ≤ retained_bytes h)%Z.
Proof.
  intros Hacc Hrest. unfold send_result.
  destruct (promises h !! promise snd) as [p|] eqn:Ep; simpl;
    [|by eapply drop_settlement_retained_le].
  destruct (gone p) eqn:Eg; simpl; [|by destruct (hook p)].
  set (h1 := run_callback _ _). assert (retained_bytes h1 = retained_bytes h) as <-
    by (unfold h1; by destruct (hook p)).
  eapply drop_settlement_retained_le; [|done]. unfold h1. apply run_callback_accounted.
  destruct Hacc as (Hr & Hn & Hm). unfold accounted. simpl.
  rewrite (held_bytes_insert _ _ p) by done. unfold slot_charge at 2. simpl.
  fold (slot_charge p). lia.
Qed.

Lemma settled_by_dom snd r m m' i : settled_by snd r m m' → is_Some (m' !! i) → is_Some (m !! i).
Proof.
  intros ->. destruct (m !! promise snd) eqn:E; [|done].
  by intros [<-|[_ ?]]%lookup_insert_is_Some; [rewrite E|].
Qed.

Lemma inv_admit ext c taken h bs s :
  inv ext c taken s →
  let p := admit_request h bs s in
  promises (store p.2) = promises (store s)
  ∧ match p.1 with
    | Ok _ => inv (if unknown h then id h :: ext else ext) c taken p.2
    | Err _ => inv ext c taken p.2
    end.
Proof.
  intros Hi. pose proof Hi as [Hc Hst]. unfold admit_request.
  destruct (state s) as [o|e0] eqn:Es; [|done].
  case_decide as Hdup; [done|]. case_decide as Hlim; [done|].
  destruct Hst as ([Hnd Hres Hsz] & [Q1 Q2 Q3 Q4] & [A1 A2 A3 A4] & Hp & [F1 F2 F3]
    & [Hacc Hl Hw]).
  assert (∀ o' : OpenState, ∀ ext', obligations ext' o' ≡ₚ id h :: obligations ext o →
    reserved_ids o' = {[id h]} ∪ reserved_ids o →
    max_inbound_requests o' = max_inbound_requests o → ids_ok ext' o') as Hids.
  { intros o' ext' Hperm Hr Hm. split.
    - rewrite Hperm. apply NoDup_cons. split; [|done]. by rewrite <-Hres.
    - intros i. rewrite Hperm, elem_of_cons, <-Hres, Hr. set_solver.
    - rewrite Hr, Hm, size_union, size_singleton by set_solver. lia. }
  destruct (unknown h) eqn:Eu; simpl.
  - split; [done|]. split; [done|]. simpl. split_and!; try done; try by split.
    + apply Hids; try done. unfold obligations. simpl. rewrite app_nil_r. solve_Permutation.
    + split; simpl; [|done..]. by rewrite app_nil_r.
  - destruct (retain _ _ _) as [[e|err] h'] eqn:Er; simpl.
    + destruct (retain_Ok _ _ _ _ _ _ Er Hacc) as (-> & Hacc' & Hle & Hpr).
      split; [done|]. split; [done|]. simpl. rewrite Hpr. split_and!; try done; try by split.
      * apply Hids; try done. unfold obligations. simpl. rewrite fmap_app. simpl.
        solve_Permutation.
      * split; simpl; [by rewrite Hpr|done..].
      * split; simpl; [|done..].
        replace (charges (incoming o ++ [(id h, MkIncoming bs h)]) + c)%Z
          with (charges (incoming o) + c + charge (MkIncoming bs h))%Z; [done|].
        clear. unfold charges. induction (incoming o) as [|[]]; simpl; lia.
    + unfold retain in Er. destruct (reserve _ _ _); [done|]. injection Er as <- <-.
      split; [done|]. by destruct s.
Qed.

(** Removing an answered request and its operation. *)
Lemma queue_ok_answered (o o' : OpenState) i k :
  queue_ok o → outstanding o !! i = Some k → outgoing o' = outgoing o →
  outstanding o' = delete i (outstanding o) →
  operations o' = delete k (operations o) → queue_ok o'.
Proof.
  intros [Q1 Q2 Q3 Q4] Hk Ho Hs Hop. destruct (Q3 i k Hk) as [Hout _].
  split; rewrite ?Ho, ?Hs, ?Hop.
  - done.
  - intros m Hm. rewrite lookup_delete_ne; [by apply Q2|]. intros ->. apply Hout.
    apply list_elem_of_fmap. eauto.
  - intros j k' [Hne Hj]%lookup_delete_Some. destruct (Q3 j k' Hj) as [? Hr].
    split; [done|]. intros op [_ Hop']%lookup_delete_Some. by apply Hr.
  - intros j j' k' [_ Hj]%lookup_delete_Some [_ Hj']%lookup_delete_Some. by eapply Q4.
Qed.

Lemma alloc_ok_sent taken (o o' : OpenState) :
  alloc_ok taken o → next_id o' = next_id o →
  (∀ i, is_Some (outstanding o' !! i) → is_Some (outstanding o !! i)) → alloc_ok taken o'.
Proof. intros [A1 A2 A3 A4] Hn Hs. split; rewrite ?Hn; auto. Qed.

(** Publishing the result of an operation and removing it. *)
Lemma complete_response_ok (ops : Ops) k op now e limit h rest :
  promises_ok ops (promises h) → ops !! k = Some op → response (sender op) = true →
  accounted rest h → (retained_bytes h ≤ limit)%Z →
  ∃ r h' res, complete_response op now e limit h = Ret (r, h')
    ∧ settled_by (sender op) res (promises h) (promises h')
    ∧ accounted rest h' ∧ (retained_bytes h' ≤ limit)%Z
    ∧ promises_ok (delete k ops) (promises h') ∧ store_le (promises h) (promises h')
    ∧ (res = Ok (PResponse e) ∧ (now < deadline op)%Z
       ∨ res = Err Protocol.Timeout ∧ (deadline op ≤ now)%Z
       ∨ res = Err (Protocol.InboundByteLimitExceeded limit)).
Proof.
  intros Hok Hk Hresp Hacc Hl. destruct (ok_pending _ _ Hok k op Hk) as (p & Hp & Hslot & _).
  assert (∀ q, promises h !! promise (sender op) = Some q → gone q = false → slot q = None)
    as Hnone by (intros; congruence).
  assert (0 ≤ rest)%Z as Hrest by apply Hacc.
  assert (∀ res h', settled_by (sender op) res (promises h) (promises h') →
    fits true res → promises_ok (delete k ops) (promises h') ∧ store_le (promises h) (promises h')) as Hset.
  { rewrite <-Hresp. intros res h' Hs Hfits. split; [by eapply promises_ok_settle|by eapply settled_by_le]. }
  unfold complete_response. case_decide as Hdl.
  - pose proof (fail_settles op Protocol.Timeout now h) as Hs. rewrite decide_True in Hs by done.
    eexists _, _, _. split; [done|]. split; [done|]. destruct (Hset _ _ Hs ltac:(done)).
    split_and!; [by apply fail_accounted| |done|done|auto].
    unfold fail. by rewrite send_result_retained.
  - rewrite Hresp. simpl. destruct (retain e limit h) as [[e'|err] h1] eqn:Er.
    + destruct (retain_Ok _ _ _ _ _ _ Er Hacc) as (-> & Hacc' & Hle & Hpr).
      pose proof (send_result_promises (sender op) (Ok (PResponse e)) h1) as Hs.
      rewrite Hpr in Hs. eexists _, _, _. split; [done|]. split; [done|].
      destruct (Hset _ _ Hs ltac:(done)). split_and!; [| |done|done|left; split; [done|lia]].
      * apply send_result_accounted; [by rewrite Hpr|done|done].
      * etrans; [|done]. eapply (send_result_retained_le _ _ rest); done.
    + unfold retain, reserve in Er.
      assert (err = Protocol.InboundByteLimitExceeded limit ∧ h1 = h) as [-> ->]
        by (repeat case_match; by simplify_eq).
      pose proof (send_result_promises (sender op)
        (Err (Protocol.InboundByteLimitExceeded limit)) h) as Hs.
      destruct (send_result _ _ h) as [dl h2] eqn:E. simpl in Hs.
      eexists _, _, _. split; [done|]. split; [done|]. destruct (Hset _ _ Hs ltac:(done)).
      replace h2 with (send_result (sender op)
        (Err (Protocol.InboundByteLimitExceeded limit)) h).2 in * by (by rewrite E).
      split_and!; [| |done|done|auto].
      * apply send_result_accounted; [done|simpl; by rewrite Z.add_0_r|done].
      * by rewrite send_result_retained.
Qed.

Lemma inv_route ext c taken h bs now s :
  inv ext c taken s →
  ∃ r s', route_response h bs now s = Ret (r, s') ∧ inv ext c taken s'
    ∧ store_le (promises (store s)) (promises (store s')).
Proof.
  intros Hi. pose proof Hi as [Hc Hst]. unfold route_response.
  destruct (state s) as [o|e0] eqn:Es; [|by eexists _, _].
  destruct (outstanding o !! id h) as [k|] eqn:Ek; [|by eexists _, _].
  destruct Hst as (Hids & Hq & Ha & Hp & [F1 F2 F3] & [Hacc Hl Hw]).
  assert (∀ i, is_Some (delete (id h) (outstanding o) !! i) → is_Some (outstanding o !! i))
    as Hdel by (intros i [_ ?]%lookup_delete_is_Some; done).
  destruct (operations o !! k) as [op|] eqn:Eop.
  - destruct (complete_response_ok _ _ _ now (MkIncoming bs h) (max_inbound_bytes o) _ _
      Hp Eop ltac:(eapply queue_sent; eauto) Hacc Hl)
      as (r & h' & res & -> & Hset & Hacc' & Hl' & Hp' & Hle & _).
    eexists _, _. split; [done|]. split; [|done]. split; [done|]. simpl. split_and!.
    + destruct Hids. by split.
    + by eapply queue_ok_answered.
    + by eapply alloc_ok_sent.
    + done.
    + split; simpl; [|intros j [_ ?]%lookup_delete_is_Some; auto
        |intros i j [_ ?]%lookup_delete_Some; eauto].
      intros i Hin. apply F1. by eapply settled_by_dom.
    + by split.
  - eexists _, _. split; [done|]. split; [|done]. split; [done|]. simpl. split_and!.
    + destruct Hids. by split.
    + eapply queue_ok_answered; try done. simpl. by rewrite delete_id.
    + by eapply alloc_ok_sent.
    + done.
    + split; simpl; [done..|]. intros i j [_ ?]%lookup_delete_Some. eauto.
    + by split.
Qed.

End inv.
End SessionInv.
