(* ===== verification/SessionPass.v ===== *)
(** * The session's passes keep its invariant

    Configuration, the reader's pass over a message, taking and decoding what it
    queued, the writer's pass, and the application's promises. *)

From Stdlib Require Import Sorting.Sorted.
From S2P Require Import Prelude Io Message Envelope Promise Settling Session SessionInv.

Module SessionPass.
Import Session SessionInv.

Section pass.
Context {Payload : Variant → Type} `{Prost Payload} (side : Side).
Abbreviation Session := (Session (Payload:=Payload)).
Abbreviation OpenState := (OpenState (Payload:=Payload)).
Abbreviation inv := (inv (Payload:=Payload) side).

(** ** Start and configuration *)

Lemma inv_new : inv [] 0 [] (new side : Session).
Proof.
  split; [done|]. simpl. split_and!.
  - split; unfold obligations; simpl; [by apply NoDup_nil|set_solver|done].
  - split; simpl; [by apply NoDup_nil|set_solver|done..].
  - split; simpl; [constructor|constructor| |by intros i []].
    intros n [= <-]. rewrite parity_of_first. by destruct side.
  - split; done.
  - split; simpl; [by intros i []..|done].
  - split; [split_and!; done|done|done].
Qed.

Lemma inv_set_autoreply ext c taken t s :
  inv ext c taken s → inv ext c taken (set_autoreply_timeout t s).
Proof.
  intros Hi. pose proof Hi as [Hc Hst]. unfold set_autoreply_timeout.
  destruct (state s) as [o|e0] eqn:Es; [|done]. split; [done|]. simpl.
  destruct Hst as ([? ? ?] & [? ? ? ?] & [? ? ? ?] & ? & [? ? ?] & [? ? ?]).
  by split_and!.
Qed.

Lemma inv_set_limits ext c taken requests limit now s :
  inv ext c taken s → (limit ≤ usize_max)%Z →
  inv ext c taken (set_inbound_limits side requests limit now s)
  ∧ store_le (promises (store s)) (promises (store (set_inbound_limits side requests limit now s))).
Proof.
  intros Hi Hlim. pose proof Hi as [Hc Hst]. unfold set_inbound_limits.
  destruct (state s) as [o|e0] eqn:Es; [|done].
  destruct Hst as (Hids & Hq & Ha & Hp & [F1 F2 F3] & [Hacc Hl Hw]).
  set (s' := set_state _ s).
  assert (∀ e, close side e now s' = close side e now s) as Hclose
    by (intros e; unfold close, state_close; by rewrite Es).
  case_decide as Hr; [rewrite Hclose; by apply (inv_close side ext)|].
  case_decide as Hb; [rewrite Hclose; by apply (inv_close side ext)|].
  split; [|done]. split; [done|]. simpl. destruct Hids, Hq, Ha.
  split_and!; try done; split; try done; simpl in *; lia.
Qed.

(** ** Receiving *)

Lemma inv_handle_locked `{!ProstLaws Payload} ext c taken bs now s :
  inv ext c taken s →
  ∃ r s', handle_locked side bs now s = Ret (r, s')
    ∧ inv (match r with Ok (Some i) => i :: ext | _ => ext end) c taken s'
    ∧ store_le (promises (store s)) (promises (store s')).
Proof.
  intros Hi. unfold handle_locked.
  destruct (decode_header_returns side bs) as ([h|e] & -> & _); [|by eexists _, _].
  destruct (from_id (id h) (parity side)).
  - destruct (failed h); [by eexists _, _|].
    pose proof (inv_admit side ext c taken h bs s Hi) as [Hp Ha].
    destruct (admit_request h bs s) as [[[]|e] s']; simpl in *; rewrite <-Hp.
    + eexists _, _. split; [done|]. split; [|done]. by destruct (unknown h).
    + by eexists _, _.
  - destruct (inv_route side ext c taken h bs now s Hi) as (r & s' & -> & Hi' & Hle).
    destruct r as [[]|e]; by eexists _, _.
Qed.

Lemma inv_recv_take ext c taken r s s' :
  inv ext c taken s → recv_take s = Some (r, s') →
  match r with
  | Ok (i, e) => inv (i :: ext) (c + charge e) taken s'
  | Err _ => s' = s
  end ∧ store s' = store s.
Proof.
  intros Hi. pose proof Hi as [Hc Hst]. unfold recv_take.
  destruct (state s) as [o|e0] eqn:Es; [|by intros [= <- <-]].
  destruct (incoming o) as [|[i e] rest] eqn:Ei; [done|]. intros [= <- <-].
  split; [|done]. pose proof (charge_nonneg e). split; [lia|]. simpl.
  destruct Hst as ([I1 I2 I3] & [? ? ? ?] & [? ? ? ?] & ? & [? ? ?] & [Hacc ? ?]).
  split_and!; try done.
  - assert (∀ l, (incoming o).*1 ++ ext ++ l ≡ₚ rest.*1 ++ (i :: ext) ++ l) as Hperm
      by (intros l; rewrite Ei; csimpl; solve_Permutation).
    split; unfold obligations in *; simpl in *; [by rewrite <-Hperm| |done].
    intros j. by rewrite I2, Hperm.
  - split; simpl; [|done..]. rewrite Ei in Hacc. simpl in Hacc.
    by replace (charges rest + (c + charge e))%Z with (charge e + charges rest + c)%Z by lia.
Qed.

Lemma inv_drop_envelope ext c taken e s :
  inv ext (c + charge e) taken s → (0 ≤ c)%Z →
  inv ext c taken (set_store (drop_envelope e (store s)) s).
Proof.
  intros [_ Hst] Hc. split; [done|]. simpl. pose proof (charge_nonneg e).
  destruct (state s) as [o|e0].
  - destruct Hst as (? & ? & ? & ? & [? ? ?] & [Hacc ? ?]). split_and!; try done.
    pose proof (charges_nonneg (incoming o)).
    assert (accounted (charges (incoming o) + c) (drop_envelope e (store s))) as Hacc'.
    { apply drop_envelope_accounted; [|lia]. by rewrite <-Z.add_assoc. }
    split; [done| |done]. pose proof Hacc as (? & ? & ?). destruct Hacc' as (-> & _ & _).
    rewrite drop_envelope_promises. lia.
  - destruct Hst as (? & ? & ?). split_and!; try done. by apply drop_envelope_accounted.
Qed.

Lemma inv_decode ext c taken e now s :
  inv ext (c + charge e) taken s → (0 ≤ c)%Z →
  inv ext c taken (decode_envelope side e now s).2
  ∧ store_le (promises (store s)) (promises (store (decode_envelope side e now s).2)).
Proof.
  intros Hi Hc. pose proof (inv_drop_envelope _ _ _ _ _ Hi Hc) as Hd. unfold decode_envelope.
  destruct (decode side (bytes e)) as [[i [m|err]]|err]; [by split..|]. simpl.
  by destruct (inv_close side ext ext c taken Protocol.Malformed now _ Hd).
Qed.

(** ** Promises *)

Lemma inv_store ext c taken s h :
  inv ext c taken s →
  (∀ i, is_Some (promises h !! i) → is_Some (promises (store s) !! i)) →
  (∀ ops, promises_ok ops (promises (store s)) → promises_ok ops (promises h)) →
  retained_bytes h = retained_bytes (store s) →
  ∀ d, (0 ≤ c + d)%Z → (∀ rest, accounted rest (store s) → accounted (rest + d) h) →
  inv ext (c + d) taken (set_store h s).
Proof.
  intros [Hc Hst] Hdom Hok Hr d Hd Hacc. split; [done|]. simpl. destruct (state s) as [o|e0].
  - destruct Hst as (? & ? & ? & ? & [? ? ?] & [? ? ?]). split_and!; auto; split; simpl; auto.
    + rewrite Z.add_assoc. auto.
    + by rewrite Hr.
  - destruct Hst as (? & ? & ?). split_and!; auto.
Qed.

Lemma take_result_dom h i r h' :
  take_result i h = Some (r, h') →
  retained_bytes h' = retained_bytes h
  ∧ ∀ j, is_Some (promises h' !! j) → is_Some (promises h !! j).
Proof.
  unfold take_result. destruct (promises h !! i) eqn:E; [|done]. destruct (slot _); [|done].
  intros [= <- <-]. split; [done|]. simpl. intros j [<-|[_ ?]]%lookup_insert_is_Some;
    by rewrite ?E.
Qed.

Lemma inv_take_result ext c taken s i r h :
  inv ext c taken s → take_result i (store s) = Some (r, h) →
  inv ext (c + carried r) taken (set_store h s)
  ∧ store_le (promises (store s)) (promises h).
Proof.
  intros Hi Ht. split; [|by eapply take_result_le].
  destruct (take_result_dom _ _ _ _ Ht) as [Hr Hdom]. eapply inv_store; try done.
  - intros. by eapply promises_ok_take.
  - destruct Hi. assert (0 ≤ carried r)%Z; [|lia]. destruct r as [[]|]; simpl; try lia.
    apply charge_nonneg.
  - intros. by eapply take_result_accounted.
Qed.

Lemma inv_notify ext c taken s i cb h :
  inv ext c taken s → notify i cb (store s) = Ret h →
  inv ext c taken (set_store h s) ∧ store_le (promises (store s)) (promises h).
Proof.
  intros Hi Hn. assert (∃ ops, promises_ok ops (promises (store s))) as [ops Hops].
  { destruct Hi as [_ Hst]. destruct (state s); destruct_and!; eauto. }
  pose proof (notify_ok _ _ _ _ _ Hops Hn) as (_ & Hle & Hacc & Hr). split; [|done].
  rewrite <-(Z.add_0_r c). eapply inv_store; try done.
  - intros j. revert Hn. unfold notify. destruct (promises (store s) !! i) eqn:E;
      [|by intros [= <-]].
    destruct (registered _); [done|].
    destruct (done _); intros [= <-]; simpl;
      by intros [<-|[_ ?]]%lookup_insert_is_Some; rewrite ?E.
  - intros ops' Hops'. by destruct (notify_ok _ _ _ _ _ Hops' Hn).
  - rewrite Z.add_0_r. by destruct Hi.
  - intros rest. rewrite Z.add_0_r. apply Hacc.
Qed.

(** ** Writing *)

(** The wire IDs of our requests after a message was taken. *)
Definition taken_after (taken : list Z) (i : Z) (m : OutgoingMessage (Payload:=Payload)) :
  list Z :=
  if is_request m then taken ++ [i] else taken.

Lemma StronglySorted_snoc (l : list Z) n :
  StronglySorted Z.lt l → Forall (λ i, (i < n)%Z) l → StronglySorted Z.lt (l ++ [n]).
Proof.
  induction 1 as [|i l Hs IH Hall]; intros Hf; simpl.
  - by repeat constructor.
  - apply Forall_cons in Hf as [Hi Hf]. constructor; [auto|]. apply Forall_app. by rewrite Forall_singleton.
Qed.

(** A request takes the next ID of this side. *)
Lemma alloc_ok_take taken (o o' : OpenState) n k :
  alloc_ok side taken o → next_id o = Some n → next_id o' = checked_add u64_max n 2 →
  outstanding o' = <[n:=k]> (outstanding o) → alloc_ok side (taken ++ [n]) o'.
Proof.
  intros [A1 A2 A3 A4] Hn Hn' Hs. destruct (A3 n Hn) as (Hpar & Hrng & Hlt). split.
  - apply Forall_app. by rewrite Forall_singleton.
  - by apply StronglySorted_snoc.
  - rewrite Hn'. intros n' [-> Hle]%checked_add_Some.
    split_and!; [by rewrite parity_of_add2|lia|lia|].
    apply Forall_app. split; [|apply Forall_singleton; lia].
    eapply Forall_impl; [done|]. simpl. lia.
  - rewrite Hs. intros i [<-|[_ Hi]]%lookup_insert_is_Some; set_solver.
Qed.

Lemma queue_ok_take (o o' : OpenState) m rest :
  queue_ok o → outgoing o = m :: rest → outgoing o' = rest → operations o' = operations o →
  (if is_request m
   then ∃ n, outstanding o' = <[n:=key m]> (outstanding o)
   else outstanding o' = outstanding o) →
  queue_ok o'.
Proof.
  intros [Q1 Q2 Q3 Q4] Hout Hout' Hops Hs. rewrite Hout in *. csimpl in Q1.
  apply NoDup_cons in Q1 as [Hk Q1].
  assert (∀ i, outstanding o !! i ≠ Some (key m)) as Hnew.
  { intros i Hi. destruct (Q3 i _ Hi) as [Hn _]. apply Hn. csimpl. set_solver. }
  destruct (Q2 m) as (op & Hop & Hr); [set_solver|].
  assert (∀ i k, outstanding o !! i = Some k → k ∉ key <$> rest
    ∧ ∀ op, operations o !! k = Some op → response (sender op) = true) as Hold.
  { intros i k Hi. destruct (Q3 i k Hi) as [Hn ?]. csimpl in Hn. set_solver. }
  split; rewrite ?Hout', ?Hops.
  - done.
  - intros m' Hm'. apply Q2. set_solver.
  - destruct (is_request m); [destruct Hs as [n Hs]|]; rewrite Hs; [|done].
    intros i k [[<- <-]|[_ Hi]]%lookup_insert_Some; [|by eapply Hold].
    split; [done|]. intros op' Hop'. congruence.
  - destruct (is_request m); [destruct Hs as [n Hs]|]; rewrite Hs; [|done].
    intros i j k [[<- <-]|[_ Hi]]%lookup_insert_Some [[<- E]|[_ Hj]]%lookup_insert_Some;
      subst; try done; [by destruct (Hnew j)|by destruct (Hnew i)|by eapply Q4].
Qed.

Lemma ids_ok_take ext (o o' : OpenState) m rest :
  ids_ok ext o → outgoing o = m :: rest → outgoing o' = rest → incoming o' = incoming o →
  reserved_ids o' = reserved_ids o ∖ list_to_set (reply_ids [m]) →
  max_inbound_requests o' = max_inbound_requests o → ids_ok ext o'.
Proof.
  intros [Hnd Hres Hlim] Hout Hout' Hin Hr Hm.
  assert (obligations ext o ≡ₚ reply_ids [m] ++ obligations ext o') as Hperm.
  { unfold obligations. rewrite Hout, Hout', Hin.
    replace (reply_ids (m :: rest)) with (reply_ids [m] ++ reply_ids rest)
      by (unfold reply_ids; simpl; by destruct (reply_id m)).
    solve_Permutation. }
  rewrite Hperm in Hnd. apply NoDup_app in Hnd as (_ & Hdis & Hnd). split; [done| |].
  - intros i. rewrite Hr, elem_of_difference, elem_of_list_to_set, Hres, Hperm, elem_of_app.
    split; [tauto|]. intros Hi. split; [by right|]. intros Hi'. by apply (Hdis i).
  - rewrite Hr, Hm. etrans; [|done]. apply inj_le, subseteq_size. set_solver.
Qed.

(** What the writer takes from an open session: the head of its queue, with a
    pending operation of its kind that is not late. *)
Definition takeable (now : Instant) (s : Session) (i : Z)
    (m : OutgoingMessage (Payload:=Payload)) : Prop :=
  ∃ o op, state s = Open o ∧ head (outgoing o) = Some m
    ∧ operations o !! key m = Some op ∧ (now < deadline op)%Z
    ∧ response (sender op) = is_request m
    ∧ (if is_request m then next_id o = Some i else reply_id m = Some i).

Lemma inv_next ext c taken now s :
  inv ext c taken s →
  match next_outgoing now s with
  | Ret (Take i m s') =>
      inv ext c (taken_after taken i m) s' ∧ takeable now (expire now s) i m
      ∧ store_le (promises (store s)) (promises (store s'))
  | Ret (Again s') | Ret (Sleep s') => s' = expire now s
  | Ret Stop => ∃ e, state s = Closed e
  | Panicked => ∃ o, state s = Open o ∧ next_id o = None
  | Diverged => False
  end.
Proof.
  intros Hi. destruct (inv_expire side ext c taken now s Hi) as (Hi' & Hle & Hlate).
  unfold next_outgoing. destruct (has_notifications s (expire now s)); [done|].
  destruct (state (expire now s)) as [o|e] eqn:Es.
  2: { unfold expire in Es. destruct (state s); [done|]. eauto. }
  destruct (outgoing o) as [|m rest] eqn:Eo; [done|].
  pose proof Hi' as [Hc Hst]. rewrite Es in Hst.
  destruct Hst as (Hids & Hq & Ha & Hp & [F1 F2 F3] & [Hacc Hl Hw]).
  destruct (queue_ops _ Hq m) as (op & Hop & Hr); [rewrite Eo; set_solver|].
  destruct (out_body m) as [msg|i r] eqn:Em.
  - assert (is_request m = true) as Ereq by (unfold is_request; by rewrite Em).
    destruct (next_id o) as [n|] eqn:En.
    2: { unfold expire in Es. destruct (state s) as [o0|] eqn:Es0; [|congruence].
         simpl in Es. exists o0. split; [done|]. by simplify_eq. }
    split_and!; [|exists o, op; rewrite Eo, Hr, Ereq, ?Es; split_and!; eauto|done].
    split; [done|]. simpl. unfold taken_after. rewrite Ereq. split_and!.
    + eapply ids_ok_take; try done. simpl. unfold reply_id. rewrite Em. set_solver.
    + eapply queue_ok_take; try done. rewrite Ereq. by eexists.
    + by eapply alloc_ok_take.
    + done.
    + split; [done..|]. simpl. intros j k [[<- <-]|[_ Hj]]%lookup_insert_Some; eauto.
    + by split.
  - assert (is_request m = false) as Ereq by (unfold is_request; by rewrite Em).
    assert (reply_id m = Some i) as Eid by (unfold reply_id; by rewrite Em).
    split_and!; [|exists o, op; rewrite Eo, Hr, Ereq, ?Es; split_and!; eauto|done].
    split; [done|]. simpl. unfold taken_after. rewrite Ereq. split_and!.
    + eapply ids_ok_take; try done. simpl. rewrite Eid. set_solver.
    + eapply queue_ok_take; try done. by rewrite Ereq.
    + destruct Ha. by split.
    + done.
    + by split.
    + by split.
Qed.

Lemma inv_forget ext c taken i m r s :
  inv ext c taken s → inv ext c taken (forget_unsent i m r s).
Proof.
  intros Hi. pose proof Hi as [Hc Hst]. unfold forget_unsent.
  destruct (state s) as [o|e0] eqn:Es; [|done].
  destruct (is_request m && is_err r); [|done]. split; [done|]. simpl.
  destruct Hst as ([? ? ?] & [Q1 Q2 Q3 Q4] & Ha & Hp & [F1 F2 F3] & [? ? ?]).
  split_and!; try done.
  - split; simpl; [done..| |].
    + intros j k [_ Hj]%lookup_delete_Some. by eapply Q3.
    + intros j j' k [_ Hj]%lookup_delete_Some [_ Hj']%lookup_delete_Some. by eapply Q4.
  - eapply alloc_ok_sent; try done. simpl. by intros j [_ ?]%lookup_delete_is_Some.
  - split; simpl; [done..|]. intros j k [_ Hj]%lookup_delete_Some. by eapply F3.
Qed.

(** Removing the operation of a message no longer queued. *)
Lemma inv_settled ext c taken (s : Session) o k op res h :
  inv ext c taken s → state s = Open o → k ∉ key <$> outgoing o →
  operations o !! k = Some op → fits (response (sender op)) res → carried res = 0%Z →
  h = (send_result (sender op) res (store s)).2 →
  inv ext c taken
    (MkSession
       (Open (MkOpen (max_inbound_requests o) (max_inbound_bytes o) (autoreply_timeout o)
                (incoming o) (reserved_ids o) (outgoing o) (next_id o) (outstanding o)
                (delete k (operations o)))) h (stream_closed s) (fresh s))
  ∧ store_le (promises (store s)) (promises h).
Proof.
  intros [Hc Hst] Es Hk Hop Hfits Hcar Hh. rewrite Es in Hst.
  destruct Hst as ([? ? ?] & [Q1 Q2 Q3 Q4] & [? ? ? ?] & Hp & [F1 F2 F3] & [Hacc ? ?]).
  pose proof (send_result_promises (sender op) res (store s)) as Hset. rewrite <-Hh in Hset.
  destruct (ok_pending _ _ Hp k op Hop) as (p & Hpm & Hslot & _).
  assert (∀ q, promises (store s) !! promise (sender op) = Some q → gone q = false →
    slot q = None) as Hnone by (intros; congruence).
  split; [|by eapply settled_by_le]. split; [done|]. simpl. split_and!.
  - by split.
  - split; simpl; [done| | |done].
    + intros m Hm. rewrite lookup_delete_ne; [by apply Q2|]. intros ->. apply Hk.
      apply list_elem_of_fmap. eauto.
    + intros i j Hj. destruct (Q3 i j Hj) as [? Hr]. split; [done|].
      intros op' [_ Hop']%lookup_delete_Some. by apply Hr.
  - by split.
  - by eapply promises_ok_settle.
  - split; simpl; [|by intros j [_ ?]%lookup_delete_is_Some; auto|done].
    intros i Hi. apply F1. by eapply settled_by_dom.
  - assert (0 ≤ charges (incoming o) + c)%Z by apply Hacc. subst h.
    split; simpl; [| |done].
    + apply send_result_accounted; [done| |done]. by rewrite Hcar, Z.add_0_r.
    + etrans; [|done]. eapply (send_result_retained_le _ _ (charges (incoming o) + c)%Z);
        [|done]. by rewrite Hcar, Z.add_0_r.
Qed.

(** The key of a message no longer queued. *)
Definition unqueued (k : nat) (s : Session) : Prop :=
  k < fresh s ∧ ∀ o, state s = Open o → k ∉ key <$> outgoing o.

Lemma inv_record_write ext c taken k r now s :
  inv ext c taken s → unqueued k s →
  inv ext c taken (record_write k r now s)
  ∧ store_le (promises (store s)) (promises (store (record_write k r now s))).
Proof.
  intros Hi [_ Hk]. unfold record_write. destruct (state s) as [o|e0] eqn:Es; [|done].
  destruct (operations o !! k) as [op|] eqn:Eop; [|done].
  case_decide as Hd.
  - eapply (inv_settled _ _ _ s o k op (Err _)); try done. by apply Hk.
  - destruct (response (sender op)) eqn:Er; simpl; [done|].
    eapply (inv_settled _ _ _ s o k op (Ok PWritten)); try done; by apply Hk.
Qed.

(** ** What every critical section keeps

    Allocations only grow, a closed session keeps its first reason, and a message
    that left the queue never returns to it. *)
Record keeps (s s' : Session) : Prop := MkKeeps {
  keeps_fresh : fresh s ≤ fresh s';
  keeps_closed e : state s = Closed e → state s' = Closed e;
  keeps_queue o' :
    state s' = Open o' →
    ∃ o, state s = Open o
      ∧ ∀ k, k < fresh s → k ∈ key <$> outgoing o' → k ∈ key <$> outgoing o;
}.

#[export] Instance keeps_refl : Reflexive keeps.
Proof. intros s. split; [done|done|]. eauto. Qed.

#[export] Instance keeps_trans : Transitive keeps.
Proof.
  intros s1 s2 s3 [F1 C1 Q1] [F2 C2 Q2]. split; [lia|auto|].
  intros o3 Ho3. destruct (Q2 o3 Ho3) as (o2 & Ho2 & Hk2).
  destruct (Q1 o2 Ho2) as (o1 & Ho1 & Hk1). exists o1. split; [done|].
  intros k Hlt Hk. apply Hk1; [done|]. apply Hk2; [lia|done].
Qed.

Lemma keeps_unqueued s s' k : keeps s s' → unqueued k s → unqueued k s'.
Proof.
  intros [Hf _ Hq] [Hlt Hk]. split; [lia|]. intros o' Ho' Hin.
  destruct (Hq o' Ho') as (o & Ho & Hin'). by apply (Hk o Ho), Hin'.
Qed.

(** An open session stays open with at most the old queue and new keys. *)
Lemma keeps_open (s s' : Session) o o' :
  state s = Open o → state s' = Open o' → fresh s ≤ fresh s' →
  (∀ k, k < fresh s → k ∈ key <$> outgoing o' → k ∈ key <$> outgoing o) → keeps s s'.
Proof.
  intros Es Es' Hf Hq. split; [done|congruence|]. intros o2 Ho2.
  exists o. split; [done|]. by replace o2 with o' by congruence.
Qed.

Lemma keeps_state (s s' : Session) : state s' = state s → fresh s ≤ fresh s' → keeps s s'.
Proof. intros E Hf. split; [done|congruence|]. intros o. rewrite E. eauto. Qed.

Lemma keeps_close e now s : keeps s (close side e now s).
Proof.
  pose proof (close_state side e now s) as Hs. split.
  - unfold close, state_close. by destruct (state s).
  - intros e' E. by rewrite E in Hs.
  - intros o. rewrite Hs. by destruct (state s).
Qed.

Lemma keeps_expire now s : keeps s (expire now s).
Proof.
  unfold expire. destruct (state s) as [o|] eqn:E; [|done].
  eapply keeps_open; [done..|]. simpl. intros k _. rewrite !list_elem_of_fmap.
  intros (m & -> & [_ ?]%list_elem_of_filter). eauto.
Qed.

Lemma keeps_submit b body dl now s : keeps s (submit b body dl now s).2.
Proof.
  unfold submit, pair, enqueue. simpl. destruct (state s) as [o|] eqn:E; simpl.
  - destruct (decide (dl ≤ now)%Z); simpl.
    + eapply keeps_open; [done..|simpl; lia|done].
    + eapply keeps_open; [done..|simpl; lia|]. simpl. intros k Hk.
      rewrite fmap_app, elem_of_app. csimpl. rewrite list_elem_of_singleton. intros [|]; [done|lia].
  - apply keeps_state; [done|simpl; lia].
Qed.

Lemma keeps_autoreply i err now now' s : keeps s (autoreply i err now now' s).
Proof.
  unfold autoreply, reply. destruct (state s) as [o|] eqn:E; [|done].
  set (dl := default now _). pose proof (keeps_submit false (OutReply i (Err err)) dl now' s) as Hk.
  destruct (submit _ _ _ _ s) as [[j|e] s']; [|done].
  etrans; [done|]. by apply keeps_state.
Qed.

Lemma keeps_responder_enqueue i r dl now s : keeps s (responder_enqueue i r dl now s).2.
Proof.
  unfold responder_enqueue, reply. pose proof (keeps_submit false (OutReply i r) dl now s) as Hk.
  destruct (submit _ _ _ _ s) as [[j|e] s']; [done|]. simpl in *. etrans; [done|].
  apply keeps_autoreply.
Qed.

Lemma keeps_handle bs now s r s' : handle_locked side bs now s = Ret (r, s') → keeps s s'.
Proof.
  unfold handle_locked. destruct (decode_header side bs) as [[h|e]| |]; try done;
    [|by intros [= _ <-]].
  destruct (from_id _ _).
  - destruct (failed h); [by intros [= _ <-]|]. unfold admit_request.
    destruct (state s) as [o|] eqn:E; [|by intros [= _ <-]].
    do 2 (case_decide; [by intros [= _ <-]|]).
    destruct (unknown h); [intros [= _ <-]; by eapply keeps_open|].
    destruct (retain _ _ _) as [[|] h']; intros [= _ <-]; [by eapply keeps_open|].
    by apply keeps_state.
  - unfold route_response. destruct (state s) as [o|] eqn:E; [|by intros [= _ <-]].
    destruct (outstanding o !! _) as [k|]; [|by intros [= _ <-]].
    destruct (operations o !! k) as [op|]; [|intros [= _ <-]; by eapply keeps_open].
    destruct (complete_response _ _ _ _ _) as [[[|] h']| |]; try done;
      intros [= _ <-]; by eapply keeps_open.
Qed.

Lemma keeps_recv_take s r s' : recv_take s = Some (r, s') → keeps s s'.
Proof.
  unfold recv_take. destruct (state s) as [o|] eqn:E; [|by intros [= _ <-]].
  destruct (incoming o) as [|[]]; [done|]. intros [= _ <-]. by eapply keeps_open.
Qed.

Lemma keeps_decode e now s : keeps s (decode_envelope side e now s).2.
Proof.
  unfold decode_envelope. destruct (decode side (bytes e)) as [[? []]|]; simpl;
    [by apply keeps_state..|]. etrans; [|apply keeps_close]. by apply keeps_state.
Qed.

Lemma keeps_set_limits requests limit now s :
  keeps s (set_inbound_limits side requests limit now s).
Proof.
  unfold set_inbound_limits. destruct (state s) as [o|] eqn:E; [|done].
  set (s' := set_state _ s). assert (keeps s s') by (by eapply keeps_open).
  repeat case_decide; [by etrans; [|apply keeps_close]..|done].
Qed.

Lemma keeps_set_autoreply t s : keeps s (set_autoreply_timeout t s).
Proof.
  unfold set_autoreply_timeout. destruct (state s) as [o|] eqn:E; [|done].
  by eapply keeps_open.
Qed.

Lemma keeps_forget i m r s : keeps s (forget_unsent i m r s).
Proof.
  unfold forget_unsent. destruct (state s) as [o|] eqn:E; [|done].
  destruct (_ && _); [by eapply keeps_open|done].
Qed.

Lemma keeps_record_write k r now s : keeps s (record_write k r now s).
Proof.
  unfold record_write. destruct (state s) as [o|] eqn:E; [|done].
  destruct (operations o !! k) as [op|]; [|done].
  case_decide; [by eapply keeps_open|]. destruct (negb _); [by eapply keeps_open|done].
Qed.

(** A taken message has left the queue for good. *)
Lemma keeps_take ext c taken now s i m s' :
  inv ext c taken s → next_outgoing now s = Ret (Take i m s') →
  keeps s s' ∧ unqueued (key m) s'.
Proof.
  intros Hi. destruct (inv_expire side ext c taken now s Hi) as (Hi' & _ & _).
  pose proof (keeps_expire now s) as Hk. unfold next_outgoing.
  destruct (has_notifications s _); [done|].
  destruct (state (expire now s)) as [o|] eqn:E; [|done].
  destruct (outgoing o) as [|m' rest] eqn:Eo; [done|]. destruct Hi' as [_ Hst].
  rewrite E in Hst. destruct Hst as (_ & [Q1 Q2 Q3 Q4] & _ & _ & [_ F2 _] & _).
  destruct (Q2 m') as (op & Hop & _); [rewrite Eo; set_solver|].
  specialize (F2 (key m') ltac:(eauto)).
  rewrite Eo in Q1. csimpl in Q1. apply NoDup_cons in Q1 as [Hout Q1].
  assert (∀ o' : OpenState, outgoing o' = rest → keeps s (set_state (Open o') (expire now s))
    ∧ unqueued (key m') (set_state (Open o') (expire now s))) as Hset.
  { intros o' Ho'. split.
    - etrans; [done|]. eapply keeps_open; [done..|]. rewrite Eo, Ho'. csimpl. set_solver.
    - split; [done|]. intros o2 [= <-]. by rewrite Ho'. }
  destruct (out_body m'); [destruct (next_id o); [|done]|]; intros [= <- <- <-];
    by apply Hset.
Qed.
End pass.
End SessionPass.
