(* ===== verification/SessionMachine.v ===== *)
(** * A session among its threads

    One session with its reader, its writer, and the application's threads:
    every critical section is one step, so the steps interleave as the lock lets
    the threads interleave. What a thread holds between two steps (a queued
    envelope it decodes, a responder, the ID of an unknown request, a message it
    writes) is part of the state. *)

From Stdlib Require Import Sorting.Sorted.
From S2P Require Import Prelude Io Message Envelope Promise Settling Session SessionInv SessionPass.

Module SessionMachine.
Import Session SessionInv SessionPass.

Section machine.
Context {Payload : Variant → Type} `{Prost Payload} (side : Side) (max_message_size : nat).
Abbreviation Session := (Session (Payload:=Payload)).
Abbreviation OpenState := (OpenState (Payload:=Payload)).
Abbreviation OutgoingMessage := (OutgoingMessage (Payload:=Payload)).
Abbreviation inv := (inv (Payload:=Payload) side).

(** ** The threads *)

(** The reader, between [handle_message]'s lock scopes. *)
Inductive Reader :=
  | RReading
  | RAnswering (id : Z)
  | RClosing (e : Protocol.Error)
  | RDone.

(** The writer, around the send of [run_writer]. *)
Inductive Writer :=
  | WIdle
  | WSending (id : Z) (m : OutgoingMessage)
  | WRecording (m : OutgoingMessage) (r : result unit Protocol.Error)
  | WDone.

(** [decoding] are the envelopes taken from queue and promises, requests with
    their ID; [held] the IDs of the responders the application has; [wire] every
    message the writer took with its ID, in order. *)
Record System := MkSystem {
  sess : Session;
  reader : Reader;
  writer : Writer;
  decoding : list (option Z * IncomingEnvelope);
  held : list Z;
  wire : list (Z * OutgoingMessage);
}.

Definition init : System := MkSystem (new side) RReading WIdle [] [] [].

(** One step of one thread. *)
Inductive Event :=
  | EMessage (bs : list byte) (now : Instant)
  | EReadError (e : Io.Error)
  | EAnswer (now now' : Instant)
  | EReaderClose (now : Instant)
  | ERecv
  | EWait (i : nat)
  | EDecode (n : nat) (now : Instant)
  | ERequest (m : Message Payload) (deadline now : Instant)
  | ERespond (n : nat) (r : result (Message Payload) SchemaError) (deadline now : Instant)
  | EDropResponder (n : nat) (now now' : Instant)
  | EDropPromise (i : nat)
  | ENotify (i callback : nat)
  | EClose (e : Protocol.Error) (now : Instant)
  | ELimits (requests bytes : Z) (now : Instant)
  | EAutoreply (timeout : Duration)
  | EExpire (now : Instant)
  | ETake (now : Instant)
  | ESent (answer : result unit Io.Error) (now : Instant)
  | ERecord (now : Instant).

Definition with_sess (s : Session) (y : System) : System :=
  MkSystem s (reader y) (writer y) (decoding y) (held y) (wire y).

(** The reader's steps: [run_reader] over [handle_message]. *)
Definition step_reader (y : System) (ev : Event) : option System :=
  let next s r := Some (MkSystem s r (writer y) (decoding y) (held y) (wire y)) in
  match ev, reader y with
  | EMessage bs now, RReading =>
      match handle_locked side bs now (sess y) with
      | Ret (Ok None, s) => next s RReading
      | Ret (Ok (Some i), s) => next s (RAnswering i)
      | Ret (Err e, s) => next s (RClosing e)
      | _ => None
      end
  | EReadError e, RReading => next (sess y) (RClosing (Protocol.Transport e))
  | EAnswer now now', RAnswering i => next (reply_unknown i now now' (sess y)) RReading
  | EReaderClose now, RClosing e => next (close side e now (sess y)) RDone
  | _, _ => None
  end.

(** The writer's steps: [run_writer]. *)
Definition step_writer (y : System) (ev : Event) : option System :=
  let next s w l := Some (MkSystem s (reader y) w (decoding y) (held y) l) in
  match ev, writer y with
  | ETake now, WIdle =>
      match next_outgoing now (sess y) with
      | Ret (Take i m s) => next s (WSending i m) (wire y ++ [(i, m)])
      | Ret (Again s) | Ret (Sleep s) => next s WIdle (wire y)
      | Ret Stop => next (sess y) WDone (wire y)
      | _ => None
      end
  | ESent answer now, WSending i m =>
      let r := write_result side max_message_size i m (λ _, answer) in
      match r with
      | Err (Protocol.Transport e) =>
          next (close side (Protocol.Transport e) now (sess y)) WDone (wire y)
      | _ => next (forget_unsent i m r (sess y)) (WRecording m r) (wire y)
      end
  | ERecord now, WRecording m r => next (record_write (key m) r now (sess y)) WIdle (wire y)
  | _, _ => None
  end.

(** The application's steps, and the deadline worker's. *)
Definition step_app (y : System) (ev : Event) : option System :=
  match ev with
  | ERecv =>
      match recv_take (sess y) with
      | Some (Ok (i, e), s) =>
          Some (MkSystem s (reader y) (writer y) ((Some i, e) :: decoding y) (held y) (wire y))
      | _ => None
      end
  | EWait i =>
      match take_result i (store (sess y)) with
      | Some (Ok (PResponse e), h) =>
          Some (MkSystem (set_store h (sess y)) (reader y) (writer y)
                  ((None, e) :: decoding y) (held y) (wire y))
      | Some (_, h) => Some (with_sess (set_store h (sess y)) y)
      | None => None
      end
  | EDecode n now =>
      match decoding y !! n with
      | Some (i, e) =>
          Some (MkSystem (decode_envelope side e now (sess y)).2 (reader y) (writer y)
                  (delete n (decoding y)) (option_list i ++ held y) (wire y))
      | None => None
      end
  | ERequest m dl now => Some (with_sess (request m dl now (sess y)).2 y)
  | ERespond n r dl now =>
      match held y !! n with
      | Some i =>
          Some (MkSystem (responder_enqueue i r dl now (sess y)).2 (reader y) (writer y)
                  (decoding y) (delete n (held y)) (wire y))
      | None => None
      end
  | EDropResponder n now now' =>
      match held y !! n with
      | Some i =>
          Some (MkSystem (responder_drop i now now' (sess y)) (reader y) (writer y)
                  (decoding y) (delete n (held y)) (wire y))
      | None => None
      end
  | EDropPromise i => Some (with_sess (set_store (drop_promise i (store (sess y))) (sess y)) y)
  | ENotify i cb =>
      match notify i cb (store (sess y)) with
      | Ret h => Some (with_sess (set_store h (sess y)) y)
      | _ => None
      end
  | EClose e now => Some (with_sess (close side e now (sess y)) y)
  | ELimits requests limit now =>
      if decide (limit ≤ usize_max)%Z
      then Some (with_sess (set_inbound_limits side requests limit now (sess y)) y)
      else None
  | EAutoreply t => Some (with_sess (set_autoreply_timeout t (sess y)) y)
  | EExpire now => Some (with_sess (expire now (sess y)) y)
  | _ => None
  end.

Definition step (y : System) (ev : Event) : option System :=
  match ev with
  | EMessage _ _ | EReadError _ | EAnswer _ _ | EReaderClose _ => step_reader y ev
  | ETake _ | ESent _ _ | ERecord _ => step_writer y ev
  | _ => step_app y ev
  end.

Fixpoint run (y : System) (evs : list Event) : option System :=
  match evs with
  | [] => Some y
  | ev :: evs => match step y ev with Some y => run y evs | None => None end
  end.

Inductive reachable : System → Prop :=
  | reachable_init : reachable init
  | reachable_step y ev y' : reachable y → step y ev = Some y' → reachable y'.

(** ** The system's invariant *)

Definition reader_ids (r : Reader) : list Z :=
  match r with RAnswering i => [i] | _ => [] end.

(** The request IDs held by threads. *)
Definition outside (y : System) : list Z :=
  omap fst (decoding y) ++ held y ++ reader_ids (reader y).

(** The bytes charged for envelopes being decoded. *)
Definition decoded_bytes (l : list (option Z * IncomingEnvelope)) : Z :=
  foldr (λ '(_, e) acc, (charge e + acc)%Z) 0%Z l.

(** The IDs of our requests, in the order they were taken. *)
Definition request_ids (l : list (Z * OutgoingMessage)) : list Z :=
  omap (λ '(i, m), if is_request m then Some i else None) l.

Definition writer_ok (w : Writer) (s : Session) : Prop :=
  match w with
  | WSending _ m | WRecording m _ => unqueued (key m) s
  | WIdle | WDone => True
  end.

(** IDs given to our requests, in order. *)
Definition ids_sent (l : list Z) : Prop :=
  Forall (λ i, parity_of i = parity side ∧ (0 < i ≤ u64_max)%Z) l ∧ StronglySorted Z.lt l.

Record sys_inv (y : System) : Prop := MkSysInv {
  sys_sess : inv (outside y) (decoded_bytes (decoding y)) (request_ids (wire y)) (sess y);
  sys_writer : writer_ok (writer y) (sess y);
  sys_ids : ids_sent (request_ids (wire y));
}.

(** What every step keeps. *)
Record sys_le (y y' : System) : Prop := MkSysLe {
  le_keeps : keeps (sess y) (sess y');
  le_store : store_le (promises (store (sess y))) (promises (store (sess y')));
}.

#[export] Instance sys_le_refl : Reflexive sys_le.
Proof. by split. Qed.

#[export] Instance sys_le_trans : Transitive sys_le.
Proof. intros y1 y2 y3 [] []. split; by etrans. Qed.

#[export] Instance inv_proper :
  Proper ((≡ₚ) ==> (=) ==> (=) ==> (=) ==> iff) inv.
Proof.
  assert (∀ ext ext' c taken s, ext ≡ₚ ext' → inv ext c taken s → inv ext' c taken s) as Hp.
  { intros ext ext' c taken s Hp [Hc Hst]. split; [done|]. destruct (state s) as [o|]; [|done].
    destruct Hst as ([I1 I2 I3] & Hst). split; [|done].
    assert (obligations ext o ≡ₚ obligations ext' o) as Ho
      by (unfold obligations; by rewrite Hp).
    split; [by rewrite <-Ho| |done]. intros i. by rewrite I2, Ho. }
  intros ext ext' Hext c ? <- taken ? <- s ? <-. split; by apply Hp.
Qed.

Lemma writer_ok_keeps w s s' : keeps s s' → writer_ok w s → writer_ok w s'.
Proof. destruct w; simpl; eauto using keeps_unqueued. Qed.

(** A step that leaves the writer where it is. *)
Lemma step_ok (y y' : System) :
  sys_inv y → writer y' = writer y → wire y' = wire y →
  inv (outside y') (decoded_bytes (decoding y')) (request_ids (wire y')) (sess y') →
  keeps (sess y) (sess y') →
  store_le (promises (store (sess y))) (promises (store (sess y'))) →
  sys_inv y' ∧ sys_le y y'.
Proof.
  intros [_ Hw Hids] Ew El Hi Hk Hle. split; split; try done; [|by rewrite El].
  rewrite Ew. by eapply writer_ok_keeps.
Qed.

Lemma step_reader_ok `{!ProstLaws Payload} y ev y' :
  sys_inv y → step_reader y ev = Some y' → sys_inv y' ∧ sys_le y y'.
Proof.
  intros Hy. pose proof (sys_sess _ Hy) as Hi. unfold outside in Hi.
  unfold step_reader. destruct ev; try done; destruct (reader y) eqn:Er; try done;
    simpl in Hi.
  - destruct (inv_handle_locked side _ _ _ bs now _ Hi) as (r & s' & Hh & Hi' & Hle).
    pose proof (keeps_handle _ _ _ _ _ _ Hh) as Hk. rewrite Hh.
    destruct r as [[i|]|e]; intros [= <-]; apply step_ok; try done; unfold outside; simpl.
    eapply inv_proper; [|done..|exact Hi']. solve_Permutation.
  - intros [= <-]. by apply step_ok.
  - intros [= <-]. destruct (inv_autoreply side _ (omap fst (decoding y) ++ held y) _ _ _ id
      (MkSchemaError UNKNOWN "request not known") now now' Hi) as [Hi' Hle];
      [solve_Permutation|].
    apply step_ok; try done; [|apply keeps_autoreply]. unfold outside. simpl.
    by rewrite app_nil_r.
  - intros [= <-]. destruct (inv_close side _ (omap fst (decoding y) ++ held y ++ []) _ _ e now
      _ Hi) as [Hi' Hle]. apply step_ok; try done. apply keeps_close.
Qed.

Lemma request_ids_snoc l i m :
  request_ids (l ++ [(i, m)]) = taken_after (request_ids l) i m.
Proof.
  unfold request_ids, taken_after. rewrite omap_app. simpl.
  destruct (is_request m); [done|]. by rewrite app_nil_r.
Qed.

Lemma inv_ids_sent ext c taken now s i m s' :
  inv ext c taken s → ids_sent taken → next_outgoing now s = Ret (Take i m s') →
  ids_sent (taken_after taken i m).
Proof.
  intros Hi Hids Hn. pose proof (inv_next side _ _ _ now _ Hi) as Ht. rewrite Hn in Ht.
  destruct Ht as ([_ Hst] & _).
  assert (∃ o, state s' = Open o) as [o Es].
  { revert Hn. unfold next_outgoing. destruct (has_notifications _ _); [done|].
    destruct (state (expire now s)) as [o|]; [|done]. destruct (outgoing o) as [|m' rest]; [done|].
    destruct (out_body m'); [destruct (next_id o); [|done]|]; intros [= <- <- <-]; by eexists. }
  rewrite Es in Hst. destruct Hst as (_ & _ & [A1 A2 _ _] & _). by split.
Qed.

Lemma step_writer_ok y ev y' :
  sys_inv y → step_writer y ev = Some y' → sys_inv y' ∧ sys_le y y'.
Proof.
  intros [Hi Hw Hids]. unfold step_writer. destruct ev; try done; destruct (writer y) eqn:Ew; try done.
  - pose proof (inv_next side _ _ _ now _ Hi) as Hn.
    destruct (inv_expire side _ _ _ now _ Hi) as (Hi' & Hle & _).
    pose proof (keeps_expire now (sess y)).
    destruct (next_outgoing now (sess y)) as [[i m s'|s'| |s']| |] eqn:En; try done;
      intros [= <-].
    + destruct Hn as (Hs' & _ & Hle'). destruct (keeps_take side _ _ _ _ _ _ _ _ Hi En).
      split; split; simpl; try done; rewrite request_ids_snoc; [done|].
      exact (inv_ids_sent _ _ _ _ _ _ _ _ Hi Hids En).
    + subst s'. by split; split.
    + by split; split.
    + subst s'. by split; split.
  - set (r := write_result _ _ _ _ _).
    destruct (inv_close side _ (outside y) _ _ (match r with Err e => e | Ok _ => Protocol.Closed end)
      now _ Hi) as [Hc Hcle].
    pose proof (inv_forget side _ _ _ id m r _ Hi) as Hf.
    pose proof (keeps_forget id m r (sess y)) as Hk.
    assert (store (forget_unsent id m r (sess y)) = store (sess y)) as Hst.
    { unfold forget_unsent. destruct (state (sess y)); [|done]. by destruct (_ && _). }
    assert (sys_inv (MkSystem (forget_unsent id m r (sess y)) (reader y) (WRecording m r)
        (decoding y) (held y) (wire y))
      ∧ sys_le y (MkSystem (forget_unsent id m r (sess y)) (reader y) (WRecording m r)
        (decoding y) (held y) (wire y))) as Hrec.
    { split; split; simpl; try done; [by eapply keeps_unqueued|by rewrite Hst]. }
    destruct r as [[]|[]]; intros [= <-]; try done.
    split; split; try done. apply keeps_close.
  - intros [= <-]. destruct (inv_record_write side _ _ _ (key m) r now _ Hi Hw) as [Hi' Hle].
    split; split; try done. apply keeps_record_write.
Qed.

Lemma decoded_bytes_nonneg l : (0 ≤ decoded_bytes l)%Z.
Proof.
  induction l as [|[i e] l IH]; simpl; [done|]. pose proof (charge_nonneg e). lia.
Qed.

Lemma decoding_take l n i e :
  l !! n = Some (i, e) →
  omap fst l ≡ₚ option_list i ++ omap fst (delete n l)
  ∧ decoded_bytes l = (decoded_bytes (delete n l) + charge e)%Z.
Proof.
  revert n. induction l as [|[j e'] l IH]; intros [|n]; simpl; try done.
  - intros [= -> ->]. split; [by destruct i|lia].
  - intros Hn. destruct (IH n Hn) as [Hp ->]. split; [|unfold delete; lia].
    unfold delete in *. destruct j as [j|]; simpl; [|done]. rewrite Hp. solve_Permutation.
Qed.

(** Steps that only move the session. *)
Lemma step_sess_ok y s' :
  sys_inv y → inv (outside y) (decoded_bytes (decoding y)) (request_ids (wire y)) s' →
  keeps (sess y) s' → store_le (promises (store (sess y))) (promises (store s')) →
  sys_inv (with_sess s' y) ∧ sys_le y (with_sess s' y).
Proof. intros. by apply step_ok. Qed.

Lemma step_wait_ok y i y' :
  sys_inv y → step_app y (EWait i) = Some y' → sys_inv y' ∧ sys_le y y'.
Proof.
  intros Hy. pose proof (sys_sess _ Hy) as Hi. simpl.
  destruct (take_result i (store (sess y))) as [[r h]|] eqn:Et; [|done].
  destruct (inv_take_result side _ _ _ _ _ _ _ Hi Et) as [Hi' Hle].
  assert (keeps (sess y) (set_store h (sess y))) by (by apply keeps_state).
  destruct r as [[e|]|e]; intros [= <-]; simpl in Hi'; rewrite ?Z.add_0_r in Hi'.
  - apply step_ok; try done. simpl. by rewrite Z.add_comm.
  - by apply step_sess_ok.
  - by apply step_sess_ok.
Qed.

Lemma step_take_ok y ev y' :
  (ev = ERecv ∨ ∃ n now, ev = EDecode n now) →
  sys_inv y → step_app y ev = Some y' → sys_inv y' ∧ sys_le y y'.
Proof.
  intros Hev Hy. pose proof (sys_sess _ Hy) as Hi. destruct Hev as [->|(n & now & ->)]; simpl.
  - destruct (recv_take (sess y)) as [[[[i e]|] s']|] eqn:Er; try done. intros [= <-].
    destruct (inv_recv_take side _ _ _ _ _ _ Hi Er) as [Hi' Hst].
    apply step_ok; try done; simpl; [by rewrite Z.add_comm|by eapply keeps_recv_take|].
    by rewrite Hst.
  - destruct (decoding y !! n) as [[i e]|] eqn:En; [|done]. intros [= <-].
    destruct (decoding_take _ _ _ _ En) as [Hp Hb]. rewrite Hb in Hi.
    pose proof (decoded_bytes_nonneg (delete n (decoding y))) as Hnn.
    destruct (inv_decode side _ _ _ e now _ Hi Hnn) as [Hi' Hle].
    apply step_ok; try done; [|apply keeps_decode]. unfold outside in *. simpl.
    eapply inv_proper; [|done..|exact Hi']. rewrite Hp. solve_Permutation.
Qed.

Lemma step_responder_ok y n i :
  sys_inv y → held y !! n = Some i →
  (∀ r dl now, let s := (responder_enqueue i r dl now (sess y)).2 in
    let y' := MkSystem s (reader y) (writer y) (decoding y) (delete n (held y)) (wire y) in
    sys_inv y' ∧ sys_le y y')
  ∧ (∀ now now', let s := responder_drop i now now' (sess y) in
    let y' := MkSystem s (reader y) (writer y) (decoding y) (delete n (held y)) (wire y) in
    sys_inv y' ∧ sys_le y y').
Proof.
  intros Hy Hn. pose proof (sys_sess _ Hy) as Hi.
  set (ext := omap fst (decoding y) ++ delete n (held y) ++ reader_ids (reader y)).
  assert (outside y ≡ₚ i :: ext) as Hp.
  { unfold outside, ext. rewrite (delete_Permutation (held y) n i Hn) at 1. solve_Permutation. }
  split.
  - intros r dl now s y'. destruct (inv_responder_enqueue side _ ext _ _ _ i r dl now Hi Hp).
    apply step_ok; try done. apply keeps_responder_enqueue.
  - intros now now' s y'. destruct (inv_autoreply side _ ext _ _ _ i
      (MkSchemaError UNANSWERED "request left unanswered") now now' Hi Hp).
    apply step_ok; try done. apply keeps_autoreply.
Qed.

Lemma step_app_ok y ev y' :
  sys_inv y → step_app y ev = Some y' → sys_inv y' ∧ sys_le y y'.
Proof.
  intros Hy. pose proof (sys_sess _ Hy) as Hi. destruct ev; try done.
  - by apply step_take_ok; [left|].
  - by apply step_wait_ok.
  - by apply step_take_ok; [eauto|].
  - intros [= <-]. destruct (inv_request side _ _ _ _ m deadline now Hi).
    apply step_sess_ok; try done. apply keeps_submit.
  - simpl. destruct (held y !! n) as [i|] eqn:En; [|done]. intros [= <-].
    by apply (step_responder_ok y n i Hy En).
  - simpl. destruct (held y !! n) as [i|] eqn:En; [|done]. intros [= <-].
    by apply (step_responder_ok y n i Hy En).
  - intros [= <-]. destruct (inv_drop_promise side _ _ _ i _ Hi).
    apply step_sess_ok; try done. by apply keeps_state.
  - simpl. destruct (notify i callback (store (sess y))) as [h| |] eqn:En; try done.
    intros [= <-]. destruct (inv_notify side _ _ _ _ _ _ _ Hi En).
    apply step_sess_ok; try done. by apply keeps_state.
  - intros [= <-]. destruct (inv_close side _ (outside y) _ _ e now _ Hi).
    apply step_sess_ok; try done. apply keeps_close.
  - simpl. destruct (decide (bytes ≤ usize_max)%Z) as [Hb|]; [|done]. intros [= <-].
    destruct (inv_set_limits side _ _ _ requests bytes now _ Hi Hb).
    apply step_sess_ok; try done. apply keeps_set_limits.
  - intros [= <-]. apply step_sess_ok; try done.
    + by apply inv_set_autoreply.
    + apply keeps_set_autoreply.
    + simpl. unfold set_autoreply_timeout. by destruct (state (sess y)).
  - intros [= <-]. destruct (inv_expire side _ _ _ now _ Hi) as (? & ? & _).
    apply step_sess_ok; try done. apply keeps_expire.
Qed.

Lemma step_inv `{!ProstLaws Payload} y ev y' :
  sys_inv y → step y ev = Some y' → sys_inv y' ∧ sys_le y y'.
Proof.
  intros Hy Hs. destruct ev;
    first [exact (step_reader_ok y _ y' Hy Hs)|exact (step_writer_ok y _ y' Hy Hs)
          |exact (step_app_ok y _ y' Hy Hs)].
Qed.

Lemma session_reachable_inv `{!ProstLaws Payload} y : reachable y → sys_inv y.
Proof.
  induction 1 as [|y ev y' _ IH Hs]; [|by eapply step_inv].
  split; [apply inv_new|done|by split; constructor].
Qed.

Lemma run_le `{!ProstLaws Payload} evs y y' :
  sys_inv y → run y evs = Some y' → sys_inv y' ∧ sys_le y y'.
Proof.
  revert y. induction evs as [|ev evs IH]; simpl; intros y Hy.
  - by intros [= <-].
  - destruct (step y ev) as [y1|] eqn:Es; [|done]. intros Hr.
    destruct (step_inv _ _ _ Hy Es) as [Hy1 Hle]. destruct (IH _ Hy1 Hr) as [Hy' Hle'].
    split; [done|]. by etrans.
Qed.

Lemma run_reachable evs y y' : reachable y → run y evs = Some y' → reachable y'.
Proof.
  revert y. induction evs as [|ev evs IH]; simpl; intros y Hy; [by intros [= <-]|].
  destruct (step y ev) eqn:Es; [|done]. apply IH. by eapply reachable_step.
Qed.
End machine.
End SessionMachine.

(** * What a session guarantees

    Theorems about every reachable system: promises, inbound limits, wire IDs,
    routing, deadlines, closing. *)
Module SessionClaims.
Import Session SessionInv SessionPass SessionMachine.

(** ** Outcomes of failing operations *)

(** The error an operation fails with at a given time. *)
Definition failure (op : PendingOperation) (e : Protocol.Error) (now : Instant) :
  Protocol.Error :=
  if decide (deadline op ≤ now)%Z then Protocol.Timeout else e.

Lemma settled_by_other s r m m' i :
  settled_by s r m m' → i ≠ promise s → m' !! i = m !! i.
Proof.
  intros -> Hne. destruct (m !! promise s); [|done]. by rewrite lookup_insert_ne.
Qed.

Lemma settled_by_own s r m m' p :
  settled_by s r m m' → m !! promise s = Some p → gone p = false →
  ∃ p', m' !! promise s = Some p' ∧ slot p' = Some r ∧ gone p' = false
    ∧ answers p' = answers p.
Proof.
  intros -> Hp Hg. rewrite Hp, Hg, lookup_insert_eq. eexists. by split_and!.
Qed.

(** Promises of operations not in the list are untouched. *)
Lemma fail_all_other (l : list PendingOperation) e now h i :
  i ∉ (λ op, promise (sender op)) <$> l →
  promises (fail_all l e now h) !! i = promises h !! i.
Proof.
  induction l as [|op l IH]; csimpl; [done|]. intros Hi.
  rewrite (settled_by_other _ _ _ _ _ (fail_settles op e now (fail_all l e now h)));
    [apply IH|]; set_solver.
Qed.

Lemma fail_all_own (ops : Ops) (l : list (nat * PendingOperation)) e now h k op p :
  promises_ok ops (promises h) → NoDup l.*1 → (∀ k op, (k, op) ∈ l → ops !! k = Some op) →
  (k, op) ∈ l → promises h !! promise (sender op) = Some p → gone p = false →
  ∃ p', promises (fail_all l.*2 e now h) !! promise (sender op) = Some p'
    ∧ slot p' = Some (Err (failure op e now)) ∧ gone p' = false ∧ answers p' = answers p.
Proof.
  intros Hok Hnd Hin Hk Hp Hg. induction l as [|[k1 op1] l IH]; [by apply elem_of_nil in Hk|].
  csimpl in *. apply NoDup_cons in Hnd as [Hk1 Hnd].
  assert (∀ k' op', (k', op') ∈ l → ops !! k' = Some op') as Hin'
    by (intros; apply Hin; by apply list_elem_of_further).
  pose proof (fail_settles op1 e now (fail_all l.*2 e now h)) as Hset.
  apply elem_of_cons in Hk as [[= <- <-]|Hk].
  - eapply settled_by_own; [exact Hset| |done]. rewrite fail_all_other; [done|].
    rewrite list_elem_of_fmap. intros (op' & E & ([k' op''] & -> & Hk')%list_elem_of_fmap).
    assert (k = k') as ->; [|apply Hk1, list_elem_of_fmap; by eexists (k', op'')].
    eapply (ok_distinct _ _ Hok); [apply Hin, list_elem_of_here|by apply Hin'|done].
  - destruct (IH Hnd Hin' Hk) as (p' & Hp' & Hrest). exists p'. split; [|done].
    rewrite <-Hp'. eapply settled_by_other; [exact Hset|]. intros E. apply Hk1.
    replace k1 with k; [apply list_elem_of_fmap; by eexists (k, op)|].
    eapply (ok_distinct _ _ Hok); [by apply Hin'|apply Hin, list_elem_of_here|done].
Qed.

Lemma drop_all_promises (l : list (Z * IncomingEnvelope)) h :
  promises (foldr (λ '(_, e) h, drop_envelope e h) h l) = promises h.
Proof. by induction l as [|[]]. Qed.

Section claims.
Context {Payload : Variant → Type} `{Prost Payload} (side : Side).
Abbreviation Session := (Session (Payload:=Payload)).
Abbreviation OpenState := (OpenState (Payload:=Payload)).
Abbreviation System := (System (Payload:=Payload)).
Abbreviation Event := (Event (Payload:=Payload)).

(** Closing settles a pending promise. *)
Lemma close_settles ops (s : Session) o k op p e now :
  state s = Open o → operations o = ops → promises_ok ops (promises (store s)) →
  ops !! k = Some op →
  promises (store s) !! promise (sender op) = Some p → gone p = false →
  ∃ p', promises (store (close side e now s)) !! promise (sender op) = Some p'
    ∧ slot p' = Some (Err (failure op e now)).
Proof.
  intros Es Ho Hok Hk Hp Hg. unfold close, state_close. rewrite Es. simpl.
  rewrite drop_all_promises, Ho.
  destruct (fail_all_own ops (map_to_list ops) e now (store s) k op p) as (p' & ? & ? & _);
    [done|apply NoDup_fst_map_to_list| | |done|done|by exists p'].
  - intros k' op'. by rewrite elem_of_map_to_list.
  - by apply elem_of_map_to_list.
Qed.

(** Expiry settles the promise of a late operation. *)
Lemma expire_settles ops (s : Session) o k op p now :
  state s = Open o → operations o = ops → promises_ok ops (promises (store s)) →
  ops !! k = Some op → (deadline op ≤ now)%Z →
  promises (store s) !! promise (sender op) = Some p → gone p = false →
  ∃ p', promises (store (expire now s)) !! promise (sender op) = Some p'
    ∧ slot p' = Some (Err Protocol.Timeout).
Proof.
  intros Es Ho Hok Hk Hdl Hp Hg. unfold expire. rewrite Es, Ho. simpl.
  set (late := filter _ ops).
  destruct (fail_all_own ops (map_to_list late) Protocol.Timeout now (store s) k op p)
    as (p' & ? & Hs & _); [done|apply NoDup_fst_map_to_list| | |done|done|].
  - intros k' op'. apply map_to_list_filter_in.
  - apply elem_of_map_to_list, map_lookup_filter_Some. split; [done|].
    by apply bool_decide_eq_true.
  - exists p'. split; [done|]. rewrite Hs. unfold failure. by rewrite decide_True.
Qed.

(** ** Promises *)

Context `{!ProstLaws Payload} (max : nat).

(** C1: A promise settles once. Whatever the threads do afterwards, a settled
    promise keeps its result until the application takes or drops it, and the
    result is of the promise's kind: a response for a request, the completed
    write for a reply, or an error. *)
Theorem promises_settle_once (y : System) (evs : list Event) (y' : System) (i : nat)
    (p p' : Promise) (r : Settlement) :
  reachable side max y → run side max y evs = Some y' →
  promises (store (sess y)) !! i = Some p → slot p = Some r →
  promises (store (sess y')) !! i = Some p' →
  (gone p' = false → slot p' = Some r) ∧ (gone p = true → gone p' = true)
  ∧ fits (answers p') r.
Proof.
  intros Hr Hrun Hp Hs Hp'. pose proof (session_reachable_inv _ _ _ Hr) as Hy.
  destruct (run_le _ _ _ _ _ Hy Hrun) as [_ [_ Hle]].
  destruct (Hle i p Hp) as (q & Hq & Hgone & Hslot & _ & Hans).
  assert (q = p') as -> by congruence. split_and!; [|done|].
  - intros Hg. rewrite Hslot; [done|done|by eexists].
  - rewrite Hans. destruct Hy as [[_ Hst] _ _].
    destruct (state (sess y)); destruct_and!; by eapply ok_value.
Qed.

(** C20: No promise is stranded. A promise still held and unsettled belongs to an
    open session with a pending operation of its kind; closing settles it with
    the closing reason, or a timeout where its deadline has passed, and expiry at
    its deadline settles it with a timeout. *)
Theorem no_promise_stranded (y : System) (i : nat) (p : Promise) :
  reachable side max y →
  promises (store (sess y)) !! i = Some p → gone p = false → slot p = None →
  ∃ o k op, state (sess y) = Open o ∧ operations o !! k = Some op
    ∧ promise (sender op) = i ∧ response (sender op) = answers p
    ∧ (∀ e now, ∃ p', promises (store (close side e now (sess y))) !! i = Some p'
        ∧ slot p' = Some (Err (failure op e now)))
    ∧ (∀ now, (deadline op ≤ now)%Z →
        ∃ p', promises (store (expire now (sess y))) !! i = Some p'
          ∧ slot p' = Some (Err Protocol.Timeout)).
Proof.
  intros Hr Hp Hg Hs. pose proof (session_reachable_inv _ _ _ Hr) as [[_ Hst] _ _].
  destruct (state (sess y)) as [o|e0] eqn:Es.
  - destruct Hst as (_ & _ & _ & Hok & _). destruct (ok_waiting _ _ Hok i p Hp Hg Hs)
      as (k & op & Hop & <-). exists o, k, op. split_and!; try done.
    + symmetry. by eapply ok_kind.
    + intros e now. by eapply close_settles.
    + intros now Hdl. by eapply expire_settles.
  - destruct Hst as (Hok & _). by destruct (ok_waiting _ _ Hok i p Hp Hg Hs) as (? & ? & ? & _).
Qed.

(** ** Inbound limits *)

(** C18: Inbound accounting is exact. In an open session the reserved IDs are
    exactly the peer requests still unanswered, each once: queued, in a thread's
    hands, held by a responder, or with their reply queued; they are within the
    request limit. The byte counter is exactly the bytes of the queued requests,
    the envelopes being decoded and the unread responses, and within the byte
    limit. *)
Theorem inbound_is_exact (y : System) (o : OpenState) :
  reachable side max y → state (sess y) = Open o →
  let live := (incoming o).*1 ++ outside y ++ reply_ids (outgoing o) in
  NoDup live ∧ (∀ i, i ∈ reserved_ids o ↔ i ∈ live)
  ∧ (Z.of_nat (length live) ≤ max_inbound_requests o)%Z
  ∧ retained_bytes (store (sess y))
    = (charges (incoming o) + decoded_bytes (decoding y)
       + held_bytes (promises (store (sess y))))%Z
  ∧ (retained_bytes (store (sess y)) ≤ max_inbound_bytes o)%Z.
Proof.
  intros Hr Es live. pose proof (session_reachable_inv _ _ _ Hr) as [[_ Hst] _ _]. rewrite Es in Hst.
  destruct Hst as ([I1 I2 I3] & _ & _ & _ & _ & [(Hb & _) Hl _]).
  split_and!; [done|done| |lia|done].
  change live with (obligations (outside y) o). rewrite <-(size_list_to_set (C:=gset Z)) by done.
  replace (list_to_set (obligations (outside y) o)) with (reserved_ids o); [done|].
  apply set_eq. intros i. by rewrite I2, elem_of_list_to_set.
Qed.

(** ** Wire IDs *)

(** C22: Request IDs never repeat. The IDs the writer gives to our requests, in
    the order they go out, strictly increase within 64 bits and have this side's
    parity, so the peer takes each for a request and this side takes its answer
    for a response. *)
Theorem request_ids_increase (y : System) :
  reachable side max y →
  StronglySorted Z.lt (request_ids (wire y))
  ∧ Forall (λ i, (0 < i ≤ u64_max)%Z
      ∧ from_id i (parity (peer side)) = Request
      ∧ from_id i (parity side) = Response) (request_ids (wire y)).
Proof.
  intros Hr. pose proof (session_reachable_inv _ _ _ Hr) as [_ _ [Hall Hs]]. split; [done|].
  eapply Forall_impl; [exact Hall|]. simpl. intros i [Hp Hi].
  by split_and!; [lia..|apply from_id_peer|apply from_id_own].
Qed.

(** ** Closing *)

(** C23: Closing is final. Once closed, a session keeps its first reason through
    every later step; it refuses requests, replies, receives and incoming
    requests with that reason, its writer stops, and every promise still held is
    settled. *)
Theorem closing_is_final (y : System) (evs : list Event) (y' : System) (e : Protocol.Error) :
  reachable side max y → run side max y evs = Some y' → state (sess y) = Closed e →
  state (sess y') = Closed e
  ∧ (∀ m dl now, (request m dl now (sess y')).1 = Err e)
  ∧ (∀ i r dl now, (responder_enqueue i r dl now (sess y')).1 = Err e)
  ∧ recv_take (sess y') = Some (Err e, sess y')
  ∧ (∀ h bs, admit_request h bs (sess y') = (Err e, sess y'))
  ∧ (∀ now, next_outgoing now (sess y') = Ret Stop)
  ∧ (∀ i p, promises (store (sess y')) !! i = Some p → gone p = false → is_Some (slot p)).
Proof.
  intros Hr Hrun Es. destruct (run_le _ _ _ _ _ (session_reachable_inv _ _ _ Hr) Hrun)
    as [[[_ Hst] _ _] [[_ Hcl _] _]].
  specialize (Hcl e Es). rewrite Hcl in Hst. split_and!; [done|..].
  - intros. unfold request, submit, pair, enqueue. simpl. by rewrite Hcl.
  - intros. unfold responder_enqueue, reply, submit, pair, enqueue. simpl. by rewrite Hcl.
  - unfold recv_take. by rewrite Hcl.
  - intros. unfold admit_request. by rewrite Hcl.
  - intros. unfold next_outgoing, has_notifications, expire. rewrite Hcl.
    by rewrite bool_decide_eq_false_2, Hcl by naive_solver.
  - intros i p Hp Hg. destruct (slot p) eqn:Esl; [by eexists|].
    destruct Hst as [Hok _]. by destruct (ok_waiting _ _ Hok i p Hp Hg Esl) as (? & ? & ? & _).
Qed.

(** ** Routing *)

(** The settlement a response gives its request. *)
Definition answer (op : PendingOperation) (now : Instant) (e : IncomingEnvelope)
    (used limit : Z) : Settlement :=
  if decide (deadline op ≤ now)%Z then Err Protocol.Timeout
  else if decide (used + charge e ≤ limit)%Z then Ok (PResponse e)
  else Err (Protocol.InboundByteLimitExceeded limit).

Lemma complete_response_answer op now e limit h p :
  promises h !! promise (sender op) = Some p → gone p = false →
  response (sender op) = true → (limit ≤ usize_max)%Z →
  ∃ h', complete_response op now e limit h
      = Ret (match answer op now e (retained_bytes h) limit with
             | Err (Protocol.InboundByteLimitExceeded l) =>
                 Err (Protocol.InboundByteLimitExceeded l)
             | _ => Ok tt
             end, h')
    ∧ settled_by (sender op) (answer op now e (retained_bytes h) limit)
        (promises h) (promises h').
Proof.
  intros Hp Hg Hresp Hlim. unfold complete_response, answer.
  destruct (decide (deadline op ≤ now)%Z) as [Hd|Hd].
  - eexists. split; [done|]. pose proof (fail_settles op Protocol.Timeout now h) as Hs.
    by rewrite decide_True in Hs.
  - rewrite Hresp. simpl. unfold retain, reserve, checked_add.
    destruct (decide (retained_bytes h + charge e ≤ limit)%Z) as [Hfit|Hfit].
    + rewrite !decide_True by lia. eexists. split; [done|].
      apply (send_result_promises (sender op) (Ok (PResponse e))
        (set_retained (retained_bytes h + charge e) h)).
    + replace (match (if decide (retained_bytes h + charge e ≤ usize_max)%Z
          then Some (retained_bytes h + charge e)%Z else None) with
        | Some total => if decide (total ≤ limit)%Z then Ok total
            else Err (Protocol.InboundByteLimitExceeded limit)
        | None => Err (Protocol.InboundByteLimitExceeded limit) end)
        with (Err (A:=Z) (Protocol.InboundByteLimitExceeded limit)).
      2: { destruct (decide (retained_bytes h + charge e ≤ usize_max)%Z); [|done].
           by rewrite decide_False. }
      pose proof (send_result_promises (sender op)
        (Err (Protocol.InboundByteLimitExceeded limit)) h) as Hs.
      unfold send_result in *. rewrite Hp, Hg in *. by eexists.
Qed.

Lemma response_settles (y : System) (o : OpenState) (bs : list byte)
    (h : Header) (k : nat) (op : PendingOperation) (p : Promise) (now now' : Instant) :
  reachable side max y → state (sess y) = Open o →
  decode_header side bs = Ret (Ok h) → outstanding o !! id h = Some k →
  operations o !! k = Some op →
  promises (store (sess y)) !! promise (sender op) = Some p → gone p = false →
  let r := answer op now (MkIncoming bs h) (retained_bytes (store (sess y)))
             (max_inbound_bytes o) in
  ∃ s' o' p',
    handle_message side bs now now' (sess y)
    = Ret (match r with
           | Err (Protocol.InboundByteLimitExceeded l) =>
               Err (Protocol.InboundByteLimitExceeded l)
           | _ => Ok tt
           end, s')
    ∧ state s' = Open o' ∧ outstanding o' = delete (id h) (outstanding o)
    ∧ operations o' = delete k (operations o)
    ∧ promises (store s') !! promise (sender op) = Some p' ∧ slot p' = Some r
    ∧ gone p' = false
    ∧ inv side (outside y) (decoded_bytes (decoding y)) (request_ids (wire y)) s'
    ∧ ∀ j, j ≠ promise (sender op) →
        promises (store s') !! j = promises (store (sess y)) !! j.
Proof.
  intros Hr Es Hh Hk Hop Hp Hg r. pose proof (session_reachable_inv _ _ _ Hr) as [Hi _ _].
  pose proof Hi as [_ Hst].
  rewrite Es in Hst. destruct Hst as (_ & Hq & Ha & Hok & _ & [_ _ Hw]).
  assert (from_id (id h) (parity side) = Response) as Hkind.
  { apply from_id_own. assert (id h ∈ request_ids (wire y)) as Hin
      by (eapply alloc_sent; eauto).
    by destruct (proj1 (Forall_forall _ _) (alloc_parity _ _ _ Ha) (id h) Hin). }
  destruct (complete_response_answer op now (MkIncoming bs h) (max_inbound_bytes o)
    (store (sess y)) p Hp Hg ltac:(eapply queue_sent; eauto) Hw) as (h' & Hc & Hset).
  destruct (settled_by_own _ _ _ _ _ Hset Hp Hg) as (p' & Hp' & Hslot & Hgone & _).
  destruct (inv_route side _ _ _ h bs now _ Hi) as (res & s' & Hroute & Hi' & _).
  unfold route_response in Hroute. rewrite Es, Hk, Hop, Hc in Hroute.
  injection Hroute as _ <-.
  unfold handle_message, handle_locked, route_response. rewrite Hh, Hkind, Es, Hk, Hop, Hc.
  eexists _, _, p'. split; [fold r; by destruct r as [|[]]|]. simpl.
  split_and!; try done. intros j Hj. by eapply settled_by_other.
Qed.

(** A response reaches exactly its request. The envelope whose ID a sent
    request waits under settles that request's promise and no other: with the
    response while it is in time and within the byte limit, with a timeout after
    the deadline, and with the limit error, which also fails the session, past
    the limit. The ID and the operation are then forgotten, so a second answer
    finds neither. *)
Theorem response_reaches_its_request (y : System) (o : OpenState) (bs : list byte)
    (h : Header) (k : nat) (op : PendingOperation) (p : Promise) (now now' : Instant) :
  reachable side max y → state (sess y) = Open o →
  decode_header side bs = Ret (Ok h) → outstanding o !! id h = Some k →
  operations o !! k = Some op →
  promises (store (sess y)) !! promise (sender op) = Some p → gone p = false →
  let r := answer op now (MkIncoming bs h) (retained_bytes (store (sess y)))
             (max_inbound_bytes o) in
  ∃ s' o' p',
    handle_message side bs now now' (sess y)
    = Ret (match r with
           | Err (Protocol.InboundByteLimitExceeded l) =>
               Err (Protocol.InboundByteLimitExceeded l)
           | _ => Ok tt
           end, s')
    ∧ state s' = Open o' ∧ outstanding o' = delete (id h) (outstanding o)
    ∧ operations o' = delete k (operations o)
    ∧ promises (store s') !! promise (sender op) = Some p' ∧ slot p' = Some r
    ∧ ∀ j, j ≠ promise (sender op) →
        promises (store s') !! j = promises (store (sess y)) !! j.
Proof.
  intros Hr Es Hh Hk Hop Hp Hg r.
  destruct (response_settles y o bs h k op p now now' Hr Es Hh Hk Hop Hp Hg)
    as (s' & o' & p' & ? & ? & ? & ? & ? & ? & _ & _ & ?). by exists s', o', p'.
Qed.

(** ** From bytes to the application *)

(** A settled promise is beyond expiry's reach. *)
Lemma expire_settled ext c taken (s : Session) i p now :
  inv side ext c taken s → promises (store s) !! i = Some p → is_Some (slot p) →
  promises (store (expire now s)) !! i = Some p.
Proof.
  intros [_ Hst] Hp [r Hs]. unfold expire. destruct (state s) as [o|]; [|done]. simpl.
  destruct Hst as (_ & _ & _ & Hok & _). rewrite fail_all_other; [done|].
  rewrite list_elem_of_fmap. intros (op & -> & ([k op'] & -> & Hk)%list_elem_of_fmap).
  apply map_to_list_filter_in in Hk. destruct (ok_pending _ _ Hok k _ Hk) as (q & Hq & Hn & _).
  simpl in *. congruence.
Qed.

(** What the peer encodes under the ID of a waiting request is what waiting returns. *)
Lemma answer_delivered (y : System) (o : OpenState) (limit : nat) (i : Z)
    (body : result (Message Payload) SchemaError) (bs : list byte) (k : nat)
    (op : PendingOperation) (p : Promise) (now now' : Instant) :
  reachable side max y → state (sess y) = Open o →
  sendable i body = true → (Z.of_nat limit ≤ usize_max)%Z →
  encode limit (peer side) i body = Ok bs →
  outstanding o !! i = Some k → operations o !! k = Some op →
  promises (store (sess y)) !! promise (sender op) = Some p → gone p = false →
  (now < deadline op)%Z →
  (retained_bytes (store (sess y)) + Z.of_nat (length bs) ≤ max_inbound_bytes o)%Z →
  ∃ s1, handle_message side bs now now' (sess y) = Ret (Ok tt, s1)
    ∧ ∀ later later', ∃ s2, state s2 = state (expire later s1)
        ∧ wait_response side (promise (sender op)) later later' s1
          = Some (Ret (map_err Protocol.Remote body, s2)).
Proof.
  intros Hr Es Hok Hlim Henc Hk Hop Hp Hg Hdl Hfit.
  pose proof (encode_decodes _ _ _ _ _ Hok Hlim Henc) as (_ & Hdec & Hh).
  assert (peer (peer side) = side) as Hpeer by (by destruct side). rewrite Hpeer in *.
  set (h := MkHeader i _ _ _) in Hh.
  destruct (response_settles y o bs h k op p now now' Hr Es Hh Hk Hop Hp Hg)
    as (s1 & o1 & p1 & Hm & _ & _ & _ & Hp1 & Hs1 & Hg1 & Hi1 & _).
  unfold answer in Hm, Hs1. unfold charge in Hm, Hs1. simpl in Hm, Hs1.
  rewrite decide_False in Hm, Hs1 by lia. rewrite decide_True in Hm, Hs1 by done.
  exists s1. split; [done|]. intros later later'.
  pose proof (expire_settled _ _ _ s1 _ p1 later Hi1 Hp1 ltac:(by rewrite Hs1)) as He.
  unfold wait_response, take_result. rewrite He, Hs1. unfold decode_envelope.
  simpl. rewrite Hdec. destruct body; (eexists; split; [|reflexivity]; done).
Qed.

(** C32: An answer reaches the application. What the peer encodes, of values that their
    types can hold, under the ID of a request still waiting is, in time and within the
    byte limit, what waiting on that request's promise returns, however late the
    application waits: the message, or the peer's error. Waiting for one payload type
    returns the payload of that type, or reports both types where the message is of
    another, and ends no session. *)
Theorem answers_are_delivered (y : System) (o : OpenState) (limit : nat) (i : Z)
    (body : result (Message Payload) SchemaError) (bs : list byte) (k : nat)
    (op : PendingOperation) (p : Promise) (now now' : Instant) :
  reachable side max y → state (sess y) = Open o →
  sendable i body = true → (Z.of_nat limit ≤ usize_max)%Z →
  encode limit (peer side) i body = Ok bs →
  outstanding o !! i = Some k → operations o !! k = Some op →
  promises (store (sess y)) !! promise (sender op) = Some p → gone p = false →
  (now < deadline op)%Z →
  (retained_bytes (store (sess y)) + Z.of_nat (length bs) ≤ max_inbound_bytes o)%Z →
  ∃ s1, handle_message side bs now now' (sess y) = Ret (Ok tt, s1)
    ∧ ∀ later later', ∃ s2, state s2 = state (expire later s1)
        ∧ wait_response side (promise (sender op)) later later' s1
          = Some (Ret (map_err Protocol.Remote body, s2))
        ∧ ∀ v, ∃ r, wait side v (promise (sender op)) later later' s1 = Some (Ret (r, s2))
            ∧ match body with
              | Err e => r = Err (Protocol.Remote e)
              | Ok m =>
                  if decide (variant m = v) then ∃ payload, r = Ok payload ∧ m = MkMessage v payload
                  else r = Err (Protocol.UnexpectedResponse (type_name v) (type_name (variant m)))
              end.
Proof.
  intros Hr Es Hok Hlim Henc Hk Hop Hp Hg Hdl Hfit.
  destruct (answer_delivered y o limit i body bs k op p now now' Hr Es Hok Hlim Henc Hk Hop Hp Hg
    Hdl Hfit) as (s1 & Hm & Hw).
  exists s1. split; [done|]. intros later later'. destruct (Hw later later') as (s2 & Hs & Hwait).
  exists s2. split_and!; [done..|]. intros v. unfold wait. rewrite Hwait.
  destruct body as [m|e]; simpl; [|by eexists]. eexists. split; [done|]. unfold try_payload.
  destruct (decide (variant m = v)) as [<-|]; [|done]. eexists. split; [done|]. by destruct m.
Qed.

(** ** Deadlines *)

Lemma min_deadline_spec (ops : Ops) :
  match min_deadline ops with
  | None => ops = ∅
  | Some d =>
      (∃ k op, ops !! k = Some op ∧ deadline op = d)
      ∧ ∀ k op, ops !! k = Some op → (d ≤ deadline op)%Z
  end.
Proof.
  unfold min_deadline. apply (map_fold_weak_ind (λ r (m : Ops), match r with
    | None => m = ∅
    | Some d => (∃ k op, m !! k = Some op ∧ deadline op = d)
        ∧ ∀ k op, m !! k = Some op → (d ≤ deadline op)%Z end)); [done|].
  intros k op m [d|] Hk; [intros [(k' & op' & Hk' & Hd) Hmin]|intros ->].
  - split.
    + destruct (Z.min_spec (deadline op) d) as [[_ ->]|[_ ->]].
      * exists k, op. by rewrite lookup_insert_eq.
      * exists k', op'. by rewrite lookup_insert_ne by congruence.
    + intros k2 op2 [[<- <-]|[_ Hk2]]%lookup_insert_Some; [lia|].
      specialize (Hmin k2 op2 Hk2). lia.
  - split; [exists k, op; by rewrite lookup_insert_eq|].
    by intros k2 op2 [[<- <-]|[_ Hk2]]%lookup_insert_Some.
Qed.

(** C28: The deadline worker never oversleeps. A turn first settles everything
    late; it sleeps only when nothing pending is late, and then exactly until the
    earliest pending deadline, or until woken where nothing is pending; it exits
    only from a closed session. *)
Theorem deadline_worker_exact (y : System) (now : Instant) :
  reachable side max y →
  match run_deadlines now (sess y) with
  | DeadlineAgain s' => s' = expire now (sess y)
  | DeadlineExit => ∃ e, state (sess y) = Closed e
  | DeadlineSleep until s' =>
      s' = expire now (sess y)
      ∧ ∃ o, state s' = Open o
        ∧ match until with
          | None => operations o = ∅
          | Some d =>
              (now < d)%Z ∧ (∃ k op, operations o !! k = Some op ∧ deadline op = d)
              ∧ ∀ k op, operations o !! k = Some op → (d ≤ deadline op)%Z
          end
  end.
Proof.
  intros Hr. pose proof (session_reachable_inv _ _ _ Hr) as [Hi _ _].
  destruct (inv_expire side _ _ _ now _ Hi) as (_ & _ & Hlate). unfold run_deadlines.
  destruct (has_notifications _ _); [done|].
  destruct (state (expire now (sess y))) as [o|e] eqn:Es.
  - split; [done|]. exists o. split; [done|]. pose proof (min_deadline_spec (operations o)) as Hm.
    destruct (min_deadline (operations o)) as [d|]; [|done].
    destruct Hm as [(k & op & Hk & <-) Hm]. split_and!; [by eapply Hlate|by eauto|done].
  - unfold expire in Es. destruct (state (sess y)); [done|]. by eexists.
Qed.

(** ** Writing *)

(** The writer takes live messages in order. It takes the head of the queue,
    whose operation is pending and not late; a request is registered under the
    next ID before anything can answer it, and a reply's ID is free for reuse
    from then on. It sleeps only on an empty queue, stops only on a closed
    session, and panics only where the 64-bit IDs of its side are used up. *)
Theorem writer_takes_live_head (y : System) (now : Instant) :
  reachable side max y →
  match next_outgoing now (sess y) with
  | Ret (Take i m s') =>
      ∃ o o' op, state (expire now (sess y)) = Open o ∧ state s' = Open o'
        ∧ outgoing o = m :: outgoing o' ∧ operations o' !! key m = Some op
        ∧ (now < deadline op)%Z ∧ response (sender op) = is_request m
        ∧ if is_request m
          then next_id o = Some i ∧ outstanding o' !! i = Some (key m)
               ∧ next_id o' = checked_add u64_max i 2 ∧ outstanding o !! i = None
          else reply_id m = Some i ∧ i ∈ reserved_ids o ∧ i ∉ reserved_ids o'
  | Ret (Again s') => s' = expire now (sess y)
  | Ret (Sleep s') =>
      s' = expire now (sess y) ∧ ∃ o, state s' = Open o ∧ outgoing o = []
  | Ret Stop => ∃ e, state (sess y) = Closed e
  | Panicked => ∃ o, state (sess y) = Open o ∧ next_id o = None
  | Diverged => False
  end.
Proof.
  intros Hr. pose proof (session_reachable_inv _ _ _ Hr) as [Hi _ _].
  pose proof (inv_next side _ _ _ now _ Hi) as Hn.
  destruct (inv_expire side _ _ _ now _ Hi) as ([_ Hst] & _ & _).
  unfold next_outgoing in *. destruct (has_notifications _ _); [done|].
  destruct (state (expire now (sess y))) as [o|e] eqn:Es; [|done].
  destruct (outgoing o) as [|m rest] eqn:Eo; [split; [done|]; by eexists|].
  destruct Hst as ([_ Hres _] & _ & Ha & _). unfold takeable in Hn. rewrite Es in Hn.
  destruct (out_body m) eqn:Em; [destruct (next_id o) as [n|] eqn:En; [|done]|];
    destruct Hn as (_ & (o2 & op & [= <-] & _ & Hop & Hdl & Hresp & Hid) & _);
    exists o; eexists _, op; split_and!; try done;
    unfold is_request, reply_id in *; rewrite Em in *; simpl.
  - split_and!; [done|by rewrite lookup_insert_eq|done|].
    destruct (outstanding o !! n) eqn:Eout; [|done].
    destruct (alloc_next _ _ _ Ha n En) as (_ & _ & Hlt).
    assert (n ∈ request_ids (wire y)) as Hin by (eapply alloc_sent; eauto).
    pose proof (proj1 (Forall_forall _ _) Hlt n Hin). simpl in *. lia.
  - split_and!; [done| |set_solver]. apply Hres. unfold obligations, reply_ids. rewrite Eo.
    simpl. unfold reply_id. rewrite Em. set_solver.
Qed.

(** What a write gives its operation: the error of a failed or late write, the
    completion of a reply's, and nothing yet for a request's. *)
Definition written (op : PendingOperation) (r : result unit Protocol.Error) (now : Instant) :
  option Settlement :=
  if decide (deadline op ≤ now)%Z then Some (Err Protocol.Timeout)
  else
    match r with
    | Err e => Some (Err e)
    | Ok _ => if response (sender op) then None else Some (Ok PWritten)
    end.

(** C35: A write reports to exactly its operation. Recording the writer's result
    settles the promise of the message it wrote, where that is still pending: in
    time, a written reply completes and a failure is reported; late, it is a
    timeout; a written request keeps waiting for its answer. No other promise
    changes. *)
Theorem write_settles_its_operation (y : System) (m : OutgoingMessage) (o : OpenState)
    (r : result unit Protocol.Error) (op : PendingOperation) (p : Promise) (now : Instant) :
  reachable side max y → writer y = WRecording m r → state (sess y) = Open o →
  operations o !! key m = Some op →
  promises (store (sess y)) !! promise (sender op) = Some p → gone p = false →
  let s' := record_write (key m) r now (sess y) in
  (∃ o' p', state s' = Open o'
    ∧ promises (store s') !! promise (sender op) = Some p' ∧ slot p' = written op r now
    ∧ operations o' !! key m = (if written op r now then None else Some op))
  ∧ ∀ j, j ≠ promise (sender op) → promises (store s') !! j = promises (store (sess y)) !! j.
Proof.
  intros Hr Hw Es Hop Hp Hg s'. pose proof (session_reachable_inv _ _ _ Hr) as [[_ Hst] _ _].
  rewrite Es in Hst. destruct Hst as (_ & _ & _ & Hok & _).
  destruct (ok_pending _ _ Hok _ _ Hop) as (q & Hq & Hslot & _).
  assert (q = p) as -> by congruence.
  assert (∀ res, ∃ p', promises (send_result (sender op) res (store (sess y))).2
      !! promise (sender op) = Some p' ∧ slot p' = Some res) as Hown.
  { intros res. destruct (settled_by_own _ _ _ _ _ (send_result_promises (sender op) res
      (store (sess y))) Hp Hg) as (p' & ? & ? & _). eauto. }
  assert (∀ res j, j ≠ promise (sender op) → promises (send_result (sender op) res
      (store (sess y))).2 !! j = promises (store (sess y)) !! j) as Hother
    by (intros; eapply settled_by_other; [apply send_result_promises|done]).
  unfold s', record_write, written, fail. rewrite Es, Hop.
  destruct (decide (deadline op ≤ now)%Z) as [Hd|Hd].
  - rewrite decide_True by auto. split; [|apply Hother].
    destruct (Hown (Err Protocol.Timeout)) as (p' & Hp' & Hs'). eexists _, p'.
    split_and!; [done..|]. apply lookup_delete_eq.
  - destruct r as [[]|e]; simpl.
    + rewrite decide_False by naive_solver. destruct (response (sender op)); simpl.
      * split; [exists o, p|]; done.
      * split; [|apply Hother]. destruct (Hown (Ok PWritten)) as (p' & Hp' & Hs').
        eexists _, p'.
        split_and!; [done..|]. apply lookup_delete_eq.
    + rewrite decide_True by auto. split; [|apply Hother].
      destruct (Hown (Err e)) as (p' & Hp' & Hs'). eexists _, p'.
        split_and!; [done..|]. apply lookup_delete_eq.
Qed.

(** ** Responders *)

(** The automatic reply to a request its responder left. *)
Definition unanswered : SchemaError := MkSchemaError UNANSWERED "request left unanswered".

(** A dropped responder still answers. Dropping a responder of an open
    session queues one [UNANSWERED] reply to its request, last in the queue,
    with the autoreply timeout as its budget; the request keeps its ID until the
    writer takes the reply, and no promise waits for it. *)
Theorem dropped_responder_answers (y : System) (n : nat) (i : Z) (o : OpenState)
    (now now' dl : Instant) :
  reachable side max y → held y !! n = Some i → state (sess y) = Open o →
  instant_add now (autoreply_timeout o) = Some dl → (now' < dl)%Z →
  ∃ o' k op p,
    state (responder_drop i now now' (sess y)) = Open o'
    ∧ outgoing o' = outgoing o ++ [MkOutgoing (OutReply i (Err unanswered)) k]
    ∧ operations o' = <[k:=op]> (operations o) ∧ operations o !! k = None
    ∧ deadline op = dl ∧ response (sender op) = false
    ∧ i ∈ reserved_ids o' ∧ reserved_ids o' = reserved_ids o
    ∧ promises (store (responder_drop i now now' (sess y))) !! promise (sender op) = Some p
    ∧ gone p = true.
Proof.
  intros Hr Hn Es Hdl Hlt. pose proof (session_reachable_inv _ _ _ Hr) as [[_ Hst] _ _].
  rewrite Es in Hst. destruct Hst as ([_ Hres _] & _ & _ & _ & [_ F2 _] & _).
  assert (i ∈ reserved_ids o) as Hi.
  { apply Hres. unfold obligations, outside. apply list_elem_of_lookup_2 in Hn. set_solver. }
  assert (operations o !! S (fresh (sess y)) = None) as Hk.
  { destruct (operations o !! _) eqn:E; [|done].
    specialize (F2 _ ltac:(eexists; exact E)). lia. }
  unfold responder_drop, reply_unanswered, autoreply. rewrite Es, Hdl. simpl.
  unfold reply, submit, pair, enqueue. simpl. rewrite Es, decide_False by lia. simpl.
  unfold drop_promise. simpl. rewrite lookup_insert_eq. unfold drop_settlement. simpl.
  eexists _, _, _, _. split_and!; try done; [apply lookup_insert_eq|done].
Qed.

(** ** Admission *)

(** Whether a peer request is admitted, and otherwise why the session ends. *)
Definition admission (o : OpenState) (used : Z) (h : Header) (bs : list byte) :
  result unit Protocol.Error :=
  if failed h then Err Protocol.Malformed
  else if decide (id h ∈ reserved_ids o) then Err Protocol.Malformed
  else if decide (max_inbound_requests o ≤ Z.of_nat (size (reserved_ids o)))%Z then
    Err (Protocol.InboundRequestLimitExceeded (max_inbound_requests o))
  else if unknown h then Ok tt
  else if decide (used + Z.of_nat (length bs) ≤ max_inbound_bytes o)%Z then Ok tt
  else Err (Protocol.InboundByteLimitExceeded (max_inbound_bytes o)).

(** What the reader leaves of an admitted request: known content waits in the
    queue, charged; unknown content is answered at once, with the automatic reply's
    deadline counted from [now], and only where that has passed already, because the
    timeout is zero or no instant is that late, is the request let go. *)
Definition admitted (now : Instant) (o o' : OpenState) (used used' : Z) (h : Header)
    (bs : list byte) : Prop :=
  if unknown h then
    incoming o' = incoming o ∧ used' = used
    ∧ if decide (0 < autoreply_timeout o ∧ now + autoreply_timeout o ≤ instant_max)%Z then
        ∃ k op,
          outgoing o' = outgoing o ++ [MkOutgoing (OutReply (id h)
            (Err (MkSchemaError UNKNOWN "request not known"))) k]
          ∧ operations o' = <[k:=op]> (operations o)
          ∧ deadline op = (now + autoreply_timeout o)%Z
          ∧ reserved_ids o' = {[id h]} ∪ reserved_ids o
      else outgoing o' = outgoing o ∧ operations o' = operations o
           ∧ reserved_ids o' = reserved_ids o
  else
    incoming o' = incoming o ++ [(id h, MkIncoming bs h)]
    ∧ used' = (used + Z.of_nat (length bs))%Z
    ∧ outgoing o' = outgoing o ∧ operations o' = operations o
    ∧ reserved_ids o' = {[id h]} ∪ reserved_ids o.

(** The deadline of an automatic reply is past on entry. *)
Lemma autoreply_late (now : Instant) (timeout : Duration) :
  (default now (instant_add now timeout) ≤ now)%Z
  ↔ ¬ (0 < timeout ∧ now + timeout ≤ instant_max)%Z.
Proof. unfold instant_add, checked_add. case_decide; simpl; lia. Qed.

Lemma retain_exact e limit h :
  (limit ≤ usize_max)%Z →
  retain e limit h
  = if decide (retained_bytes h + charge e ≤ limit)%Z
    then (Ok e, set_retained (retained_bytes h + charge e) h)
    else (Err (Protocol.InboundByteLimitExceeded limit), h).
Proof.
  intros Hl. unfold retain, reserve, checked_add.
  destruct (decide (retained_bytes h + charge e ≤ limit)%Z).
  - by rewrite decide_True, decide_True by lia.
  - destruct (decide (retained_bytes h + charge e ≤ usize_max)%Z); [|done].
    by rewrite decide_False.
Qed.

Lemma autoreply_unknown (s : Session) o (i : Z) e now :
  state s = Open o → i ∉ reserved_ids o →
  let s1 := MkSession (Open (MkOpen (max_inbound_requests o) (max_inbound_bytes o)
       (autoreply_timeout o) (incoming o ++ []) ({[i]} ∪ reserved_ids o) (outgoing o)
       (next_id o) (outstanding o) (operations o))) (store s) (stream_closed s) (fresh s) in
  ∃ o', state (autoreply i e now now s1) = Open o' ∧ incoming o' = incoming o
    ∧ retained_bytes (store (autoreply i e now now s1)) = retained_bytes (store s)
    ∧ if decide (0 < autoreply_timeout o ∧ now + autoreply_timeout o ≤ instant_max)%Z then
        ∃ k op, outgoing o' = outgoing o ++ [MkOutgoing (OutReply i (Err e)) k]
          ∧ operations o' = <[k:=op]> (operations o)
          ∧ deadline op = (now + autoreply_timeout o)%Z
          ∧ reserved_ids o' = {[i]} ∪ reserved_ids o
      else outgoing o' = outgoing o ∧ operations o' = operations o
           ∧ reserved_ids o' = reserved_ids o.
Proof.
  intros Es Hi s1. unfold autoreply. simpl.
  pose proof (autoreply_late now (autoreply_timeout o)) as Hlate.
  unfold reply, submit, pair, enqueue. simpl.
  destruct (decide (default now _ ≤ now)%Z) as [Hd|Hd]; simpl.
  - eexists. split; [done|]. simpl. rewrite app_nil_r. split; [done|].
    rewrite decide_False by (by apply Hlate). unfold fail. simpl. unfold send_result. simpl. rewrite lookup_insert_eq. simpl.
    unfold drop_promise. simpl. rewrite lookup_insert_eq. simpl.
    split_and!; [done..|]. set_solver.
  - assert (0 < autoreply_timeout o ∧ now + autoreply_timeout o ≤ instant_max)%Z as Hok
      by (apply dec_stable; tauto).
    eexists. split; [done|]. simpl. rewrite app_nil_r. split; [done|].
    rewrite decide_True by done. unfold drop_promise. simpl. rewrite lookup_insert_eq. simpl.
    split; [done|]. eexists _, _. split_and!; try done. simpl.
    unfold instant_add, checked_add. by rewrite decide_True by lia.
Qed.

Lemma admission_holds (y : System) (o : OpenState) (bs : list byte) (h : Header)
    (now now' : Instant) :
  reachable side max y → state (sess y) = Open o →
  decode_header side bs = Ret (Ok h) → from_id (id h) (parity side) = Request →
  ∃ s', reader_pass side (Ok bs) now now' (sess y) = Ret s'
    ∧ match admission o (retained_bytes (store (sess y))) h bs with
      | Err e => state s' = Closed e
      | Ok _ => ∃ o', state s' = Open o'
          ∧ admitted now' o o' (retained_bytes (store (sess y))) (retained_bytes (store s')) h bs
      end.
Proof.
  intros Hr Es Hh Hkind. pose proof (session_reachable_inv _ _ _ Hr) as [[_ Hst] _ _].
  rewrite Es in Hst. destruct Hst as (_ & _ & _ & _ & _ & [_ _ Hw]).
  unfold reader_pass, handle_message, handle_locked. rewrite Hh, Hkind. unfold admission.
  destruct (failed h); [eexists; split; [done|]; by rewrite close_state, Es|].
  unfold admit_request. rewrite Es.
  destruct (decide (id h ∈ reserved_ids o)) as [|Hid];
    [eexists; split; [done|]; by rewrite close_state, Es|].
  destruct (decide (max_inbound_requests o ≤ _)%Z);
    [eexists; split; [done|]; by rewrite close_state, Es|].
  unfold admitted. destruct (unknown h).
  - destruct (autoreply_unknown (sess y) o (id h) (MkSchemaError UNKNOWN "request not known")
      now' Es Hid) as (o' & Ho' & Hin & Hret & Hout).
    eexists. split; [done|]. by exists o'.
  - rewrite retain_exact by done. unfold charge. simpl.
    destruct (decide (_ + _ ≤ _)%Z).
    + eexists. split; [done|]. by eexists.
    + eexists. split; [done|]. by rewrite close_state; simpl; rewrite Es.
Qed.


(** A request reaches the application. What the peer encodes, of values that their
    types can hold, under a fresh ID of its own, within the limits, waits behind the requests already queued; once
    it is first, receiving returns that message with a responder for that ID, and
    gives its bytes back. *)
Theorem requests_are_delivered (y : System) (o : OpenState) (limit : nat) (i : Z)
    (m : Message Payload) (bs : list byte) (now now' : Instant) :
  reachable side max y → state (sess y) = Open o →
  sendable i (Ok m) = true → (Z.of_nat limit ≤ usize_max)%Z →
  encode limit (peer side) i (Ok m) = Ok bs → parity_of i = parity (peer side) →
  i ∉ reserved_ids o → (Z.of_nat (size (reserved_ids o)) < max_inbound_requests o)%Z →
  (retained_bytes (store (sess y)) + Z.of_nat (length bs) ≤ max_inbound_bytes o)%Z →
  ∃ s1 o1 e,
    reader_pass side (Ok bs) now now' (sess y) = Ret s1 ∧ state s1 = Open o1
    ∧ incoming o1 = incoming o ++ [(i, e)]
    ∧ ∀ s2 o2 rest later, state s2 = Open o2 → incoming o2 = (i, e) :: rest →
        ∃ s3, recv_take s2 = Some (Ok (i, e), s3)
          ∧ (recv_decode side i e later s3).1 = Ok (m, i)
          ∧ retained_bytes (store (recv_decode side i e later s3).2)
            = release (retained_bytes (store s2)) (Z.of_nat (length bs)).
Proof.
  intros Hr Es Hok Hlim Henc Hpar Hid Hreq Hfit.
  pose proof (encode_decodes _ _ _ _ _ Hok Hlim Henc) as (_ & Hdec & Hh).
  assert (peer (peer side) = side) as Hpeer by (by destruct side). rewrite Hpeer in *.
  assert (from_id i (parity side) = Request) as Hkind
    by (rewrite <-Hpeer at 1; by apply from_id_peer).
  set (h := MkHeader i _ _ _) in Hh.
  destruct (admission_holds y o bs h now now' Hr Es Hh Hkind) as (s1 & Hpass & Hadm).
  unfold admission in Hadm. simpl in Hadm. rewrite !decide_False in Hadm by (done || lia).
  rewrite decide_True in Hadm by done. destruct Hadm as (o1 & Ho1 & Hin & _).
  exists s1, o1, (MkIncoming bs h). split_and!; [done..|].
  intros s2 o2 rest later Es2 Hin2. unfold recv_take. rewrite Es2, Hin2.
  eexists. split; [done|]. unfold recv_decode, decode_envelope. simpl. by rewrite Hdec.
Qed.

(** ** Panics *)

Lemma wait_fits (y : System) i p now r h :
  sys_inv side y → promises (store (sess y)) !! i = Some p →
  take_result i (store (expire now (sess y))) = Some (r, h) → fits (answers p) r.
Proof.
  intros [Hi _ _] Hp. destruct (inv_expire side _ _ _ now _ Hi) as ([_ Hst] & Hle & _).
  destruct (Hle i p Hp) as (q & Hq & _ & _ & _ & <-). unfold take_result. rewrite Hq.
  destruct (slot q) eqn:Eq; [|done]. intros [= <- _].
  destruct (state (expire now (sess y))); destruct_and!; by eapply ok_value.
Qed.

(** A session never panics on what it is sent. Every byte string is handled,
    and waiting for a promise finds either nothing yet or a result of the
    promise's kind: a request never observes a completed write, nor a reply a
    response. *)
Theorem session_never_panics (y : System) :
  reachable side max y →
  (∀ bs now now', ∃ r s', handle_message side bs now now' (sess y) = Ret (r, s'))
  ∧ ∀ i p now now', promises (store (sess y)) !! i = Some p →
      (answers p = true → wait_response side i now now' (sess y) ≠ Some Panicked)
      ∧ (answers p = false → wait_written i now (sess y) ≠ Some Panicked).
Proof.
  intros Hr. pose proof (session_reachable_inv _ _ _ Hr) as Hy. split.
  - intros bs now now'. unfold handle_message.
    destruct (inv_handle_locked side _ _ _ bs now _ (sys_sess _ _ Hy)) as (r & s' & -> & _).
    destruct r as [[i|]|e]; by eexists _, _.
  - intros i p now now' Hp. unfold wait_response, wait_written.
    destruct (take_result i _) as [[r h]|] eqn:Et; [|done].
    pose proof (wait_fits y i p now r h Hy Hp Et) as Hfits.
    destruct r as [[e|]|e]; simpl in Hfits; split; congruence.
Qed.
End claims.

(** ** A concrete session

    A client over the plain coding: one request of its own, answered, and one
    request of the peer's. *)
Module Demo.
Abbreviation System := (System (Payload:=Plain.Payload)).
Abbreviation Event := (Event (Payload:=Plain.Payload)).

Definition question : Message Plain.Payload :=
  MkMessage (Payload:=Plain.Payload) VDeviceInfoRequest tt.

Definition envelope (i : Z) (v : Variant) : list byte :=
  match encode 1000 Server i (Ok (MkMessage (Payload:=Plain.Payload) v tt)) with
  | Ok bs => bs
  | Err _ => []
  end.

Definition answer_bytes : list byte := envelope 1 VDeviceInfoResponse.
Definition relay_bytes : list byte := envelope 2 VRelayOutboundRequest.

(** The request is queued, taken, sent. *)
Definition asked : list Event :=
  [ERequest question 100 0; ETake 1; ESent (Ok tt) 2].

Definition recorded : list Event := asked ++ [ERecord 3].

(** The peer's request arrives and is taken by the application. *)
Definition relayed : list Event := recorded ++ [EMessage relay_bytes 4; ERecv; EDecode 0 5].

(** The answer arrives. *)
Definition answered : list Event := relayed ++ [EMessage answer_bytes 6].

Definition at_ (evs : list Event) : System :=
  default (init Client) (run Client 1000 (init Client) evs).

(** The open state there. *)
Definition open_at (evs : list Event) : OpenState (Payload:=Plain.Payload) :=
  match state (sess (at_ evs)) with
  | Open o => o
  | Closed _ => MkOpen 0 0 0 [] ∅ [] None ∅ ∅
  end.

Lemma at_run evs :
  bool_decide (is_Some (run Client 1000 (init Client) evs)) = true →
  run Client 1000 (init Client) evs = Some (at_ evs).
Proof. intros [y Hy]%bool_decide_eq_true. unfold at_. by rewrite Hy. Qed.

Lemma at_reachable evs :
  bool_decide (is_Some (run Client 1000 (init Client) evs)) = true →
  reachable Client 1000 (at_ evs).
Proof. intros Hr%at_run. eapply run_reachable; [apply reachable_init|done]. Qed.
End Demo.

Import Demo.

Lemma promises_settle_once_witness :
  let y := at_ answered in
  let p := MkPromise true (Some (Ok (PResponse (MkIncoming answer_bytes
    (MkHeader 1 false (Some "device_info"%string) false))))) false false true None in
  promises (store (sess y)) !! 0 = Some p
  ∧ ∀ y' p', run Client 1000 y [EExpire 200; EClose Protocol.Closed 200] = Some y' →
      promises (store (sess y')) !! 0 = Some p' → gone p' = false → slot p' = slot p.
Proof.
  intros y p. assert (promises (store (sess y)) !! 0 = Some p) as Hp
    by (vm_compute; reflexivity).
  split; [exact Hp|]. intros y' p' Hrun Hp' Hg.
  refine (proj1 (promises_settle_once Client 1000 y _ y' 0 p p' _ _ Hrun Hp eq_refl Hp') Hg).
  apply at_reachable. vm_compute. reflexivity.
Defined.

Lemma no_promise_stranded_witness :
  let y := at_ recorded in
  ∃ o k op, state (sess y) = Open o ∧ operations o !! k = Some op
    ∧ promise (sender op) = 0 ∧ response (sender op) = true
    ∧ (∀ e now, ∃ p', promises (store (close Client e now (sess y))) !! 0 = Some p'
        ∧ slot p' = Some (Err (failure op e now)))
    ∧ (∀ now, (deadline op ≤ now)%Z →
        ∃ p', promises (store (expire now (sess y))) !! 0 = Some p'
          ∧ slot p' = Some (Err Protocol.Timeout)).
Proof.
  intros y. refine (no_promise_stranded Client 1000 y 0
    (MkPromise true None false false false None) _ _ eq_refl eq_refl).
  - apply at_reachable. vm_compute. reflexivity.
  - vm_compute. reflexivity.
Defined.

Lemma inbound_is_exact_witness :
  let y := at_ relayed in
  let live := (incoming (open_at relayed)).*1 ++ outside y
              ++ reply_ids (outgoing (open_at relayed)) in
  live = [2%Z]
  ∧ NoDup live ∧ (∀ i, i ∈ reserved_ids (open_at relayed) ↔ i ∈ live)
  ∧ (Z.of_nat (length live) ≤ max_inbound_requests (open_at relayed))%Z
  ∧ retained_bytes (store (sess y))
    = (charges (incoming (open_at relayed)) + decoded_bytes (decoding y)
       + held_bytes (promises (store (sess y))))%Z
  ∧ (retained_bytes (store (sess y)) ≤ max_inbound_bytes (open_at relayed))%Z.
Proof.
  intros y live. split; [vm_compute; reflexivity|].
  refine (inbound_is_exact Client 1000 y (open_at relayed) _ _).
  - apply at_reachable. vm_compute. reflexivity.
  - vm_compute. reflexivity.
Defined.

Lemma request_ids_increase_witness :
  let y := at_ answered in
  request_ids (wire y) = [1%Z]
  ∧ StronglySorted Z.lt (request_ids (wire y))
  ∧ Forall (λ i, (0 < i ≤ u64_max)%Z
      ∧ from_id i (parity (peer Client)) = Request
      ∧ from_id i (parity Client) = Response) (request_ids (wire y)).
Proof.
  intros y. split; [vm_compute; reflexivity|].
  refine (request_ids_increase Client 1000 y _).
  apply at_reachable. vm_compute. reflexivity.
Defined.

Lemma closing_is_final_witness :
  let y := at_ (recorded ++ [EClose Protocol.Closed 4]) in
  let y' := at_ (recorded ++ [EClose Protocol.Closed 4; EClose Protocol.Malformed 5]) in
  state (sess y') = Closed Protocol.Closed
  ∧ recv_take (sess y') = Some (Err Protocol.Closed, sess y').
Proof.
  intros y y'.
  destruct (closing_is_final Client 1000 y [EClose Protocol.Malformed 5] y' Protocol.Closed)
    as (Hs & _ & _ & Hr & _).
  - apply at_reachable. vm_compute. reflexivity.
  - vm_compute. reflexivity.
  - vm_compute. reflexivity.
  - exact (conj Hs Hr).
Defined.

Lemma response_reaches_its_request_witness :
  let y := at_ relayed in
  let h := MkHeader 1 false (Some "device_info"%string) false in
  ∃ s' o' p',
    handle_message Client answer_bytes 6 6 (sess y) = Ret (Ok tt, s')
    ∧ state s' = Open o' ∧ outstanding o' = delete 1%Z (outstanding (open_at relayed))
    ∧ operations o' = delete 1 (operations (open_at relayed))
    ∧ promises (store s') !! 0 = Some p'
    ∧ slot p' = Some (Ok (PResponse (MkIncoming answer_bytes h)))
    ∧ ∀ j, j ≠ 0 → promises (store s') !! j = promises (store (sess y)) !! j.
Proof.
  intros y h.
  refine (response_reaches_its_request Client 1000 y (open_at relayed) answer_bytes h 1
    (MkOperation 100 (MkSender true 0)) (MkPromise true None false false false None) 6 6
    _ _ _ _ _ _ _).
  - apply at_reachable. vm_compute. reflexivity.
  - vm_compute. reflexivity.
  - vm_compute. reflexivity.
  - vm_compute. reflexivity.
  - vm_compute. reflexivity.
  - vm_compute. reflexivity.
  - reflexivity.
Defined.

Lemma deadline_worker_exact_witness :
  let y := at_ recorded in
  match run_deadlines 50 (sess y) with
  | DeadlineSleep (Some d) s' =>
      s' = expire 50 (sess y)
      ∧ ∃ o, state s' = Open o
        ∧ (50 < d)%Z ∧ (∃ k op, operations o !! k = Some op ∧ deadline op = d)
        ∧ ∀ k op, operations o !! k = Some op → (d ≤ deadline op)%Z
  | _ => False
  end.
Proof.
  intros y. refine (deadline_worker_exact Client 1000 y 50 _).
  apply at_reachable. vm_compute. reflexivity.
Defined.

Lemma writer_takes_live_head_witness :
  let y := at_ [ERequest question 100 0] in
  match next_outgoing 1 (sess y) with
  | Ret (Take i m s') =>
      ∃ o o' op, state (expire 1 (sess y)) = Open o ∧ state s' = Open o'
        ∧ outgoing o = m :: outgoing o' ∧ operations o' !! key m = Some op
        ∧ (1 < deadline op)%Z ∧ response (sender op) = is_request m
        ∧ if is_request m
          then next_id o = Some i ∧ outstanding o' !! i = Some (key m)
               ∧ next_id o' = checked_add u64_max i 2 ∧ outstanding o !! i = None
          else reply_id m = Some i ∧ i ∈ reserved_ids o ∧ i ∉ reserved_ids o'
  | _ => False
  end.
Proof.
  intros y. refine (writer_takes_live_head Client 1000 y 1 _).
  apply at_reachable. vm_compute. reflexivity.
Defined.

Lemma write_settles_its_operation_witness :
  let evs := relayed ++ [ERespond 0 (Ok question) 100 6; ETake 7; ESent (Ok tt) 8] in
  let s' := record_write 3 (Ok tt) 9 (sess (at_ evs)) in
  (∃ o' p', state s' = Open o' ∧ promises (store s') !! 2 = Some p'
    ∧ slot p' = Some (Ok PWritten) ∧ operations o' !! 3 = None)
  ∧ ∀ j, j ≠ 2 → promises (store s') !! j = promises (store (sess (at_ evs))) !! j.
Proof.
  intros evs s'.
  refine (write_settles_its_operation Client 1000 (at_ evs)
    (MkOutgoing (OutReply 2 (Ok question)) 3) (open_at evs) (Ok tt)
    (MkOperation 100 (MkSender false 2)) (MkPromise false None false false false None) 9
    _ _ _ _ _ _).
  - apply at_reachable. vm_compute. reflexivity.
  - vm_compute. reflexivity.
  - vm_compute. reflexivity.
  - vm_compute. reflexivity.
  - vm_compute. reflexivity.
  - reflexivity.
Defined.

Lemma dropped_responder_answers_witness :
  let y := at_ relayed in
  ∃ o' k op p,
    state (responder_drop 2 6 7 (sess y)) = Open o'
    ∧ outgoing o'
      = outgoing (open_at relayed) ++ [MkOutgoing (OutReply 2 (Err unanswered)) k]
    ∧ operations o' = <[k:=op]> (operations (open_at relayed))
    ∧ operations (open_at relayed) !! k = None
    ∧ deadline op = (6 + DEFAULT_AUTOREPLY_TIMEOUT)%Z ∧ response (sender op) = false
    ∧ 2%Z ∈ reserved_ids o' ∧ reserved_ids o' = reserved_ids (open_at relayed)
    ∧ promises (store (responder_drop 2 6 7 (sess y))) !! promise (sender op) = Some p
    ∧ gone p = true.
Proof.
  intros y. refine (dropped_responder_answers Client 1000 y 0 2 (open_at relayed) 6 7
    (6 + DEFAULT_AUTOREPLY_TIMEOUT) _ _ _ _ _).
  - apply at_reachable. vm_compute. reflexivity.
  - vm_compute. reflexivity.
  - vm_compute. reflexivity.
  - vm_compute. reflexivity.
  - vm_compute. reflexivity.
Defined.


Lemma session_never_panics_witness :
  let y := at_ answered in
  (∀ bs now now', ∃ r s', handle_message Client bs now now' (sess y) = Ret (r, s'))
  ∧ ∀ i p now now', promises (store (sess y)) !! i = Some p →
      (answers p = true → wait_response Client i now now' (sess y) ≠ Some Panicked)
      ∧ (answers p = false → wait_written i now (sess y) ≠ Some Panicked).
Proof.
  intros y. refine (session_never_panics Client 1000 y _).
  apply at_reachable. vm_compute. reflexivity.
Defined.

Lemma answers_are_delivered_witness :
  let y := at_ relayed in
  let m := MkMessage (Payload:=Plain.Payload) VDeviceInfoResponse tt in
  ∃ s1, handle_message Client answer_bytes 6 6 (sess y) = Ret (Ok tt, s1)
    ∧ ∀ later later', ∃ s2, state s2 = state (expire later s1)
        ∧ wait_response Client 0 later later' s1 = Some (Ret (Ok m, s2))
        ∧ ∀ v, ∃ r, wait Client v 0 later later' s1 = Some (Ret (r, s2))
            ∧ if decide (variant m = v) then ∃ payload, r = Ok payload ∧ m = MkMessage v payload
              else r = Err (Protocol.UnexpectedResponse (type_name v) (type_name (variant m))).
Proof.
  intros y m.
  refine (answers_are_delivered Client 1000 y (open_at relayed) 1000 1
    (Ok (MkMessage (Payload:=Plain.Payload) VDeviceInfoResponse tt)) answer_bytes 1
    (MkOperation 100 (MkSender true 0)) (MkPromise true None false false false None) 6 6
    _ _ _ _ _ _ _ _ _ _ _).
  - apply at_reachable. vm_compute. reflexivity.
  - vm_compute. reflexivity.
  - vm_compute. reflexivity.
  - vm_compute. discriminate.
  - vm_compute. reflexivity.
  - vm_compute. reflexivity.
  - vm_compute. reflexivity.
  - vm_compute. reflexivity.
  - reflexivity.
  - vm_compute. reflexivity.
  - vm_compute. discriminate.
Defined.

Lemma requests_are_delivered_witness :
  let y := at_ recorded in
  let m := MkMessage (Payload:=Plain.Payload) VRelayOutboundRequest tt in
  ∃ s1 o1 e,
    reader_pass Client (Ok relay_bytes) 4 4 (sess y) = Ret s1 ∧ state s1 = Open o1
    ∧ incoming o1 = incoming (open_at recorded) ++ [(2%Z, e)]
    ∧ ∀ s2 o2 rest later, state s2 = Open o2 → incoming o2 = (2%Z, e) :: rest →
        ∃ s3, recv_take s2 = Some (Ok (2%Z, e), s3)
          ∧ (recv_decode Client 2 e later s3).1 = Ok (m, 2%Z)
          ∧ retained_bytes (store (recv_decode Client 2 e later s3).2)
            = release (retained_bytes (store s2)) (Z.of_nat (length relay_bytes)).
Proof.
  intros y m.
  refine (requests_are_delivered Client 1000 y (open_at recorded) 1000 2 m relay_bytes 4 4
    _ _ _ _ _ _ _ _ _).
  - apply at_reachable. vm_compute. reflexivity.
  - vm_compute. reflexivity.
  - vm_compute. reflexivity.
  - vm_compute. discriminate.
  - vm_compute. reflexivity.
  - vm_compute. reflexivity.
  - vm_compute. intros Hin. discriminate Hin.
  - vm_compute. reflexivity.
  - vm_compute. discriminate.
Defined.

End SessionClaims.
