(* ===== verification/SessionFixture.v ===== *)
(** * Driving a session by hand ([protocol/session.rs], [protocol/operation.rs])

    The entry points under which the scenarios and the fuzz targets drive a session
    without a stream or workers: they look at deadlines and usage, take messages in
    the writer's place, and hand requests and answers to the admission paths of the
    reader. Also the line a closing session logs. Each is compared with the
    worker whose place it takes. *)

From S2P Require Import Prelude Io Message Envelope Promise Settling Session SessionInv SessionPass SessionMachine.
From stdpp Require Import sorting.

Module Fixture.
Import Session.

Section fixture.
Context {Payload : Variant → Type} `{Prost Payload} (side : Side).
Abbreviation Session := (Session (Payload:=Payload)).

(** [State::workload] *)
Definition workload (st : State (Payload:=Payload)) : nat * nat :=
  match st with
  | Open o => (size (operations o), length (outgoing o) + length (incoming o))
  | Closed _ => (0, 0)
  end.

Inductive Level := Info | Warn.

(** The line [SessionInner::log_closed] logs: its level, whether it calls the closing
    a local one, and the workload. *)
Record LogLine := MkLine { level : Level; locally : bool; reason : Protocol.Error; load : nat * nat }.

(** [SessionInner::log_closed] *)
Definition log_closed (error : Protocol.Error) (load : nat * nat) : LogLine :=
  match error with
  | Protocol.Closed => MkLine Info true error load
  | _ => if Protocol.orderly error then MkLine Info false error load
         else MkLine Warn false error load
  end.

(** What [SessionInner::close] logs: nothing where the session is closed already. *)
Definition close_log (error : Protocol.Error) (now : Instant) (s : Session) : option LogLine :=
  let load := workload (state s) in
  match (state_close error now s).2 with
  | Some _ => Some (log_closed error load)
  | None => None
  end.

(** [SessionInner::next_deadline] *)
Definition next_deadline (s : Session) : option Instant :=
  match state s with
  | Open o => min_deadline (operations o)
  | Closed _ => None
  end.

(** [SessionInner::take_outgoing] *)
Definition take_outgoing (now : Instant) (s : Session) :
  option (OutgoingMessage (Payload:=Payload)) * Session :=
  let s := expire now s in
  match state s with
  | Closed _ => (None, s)
  | Open o =>
      match outgoing o with
      | [] => (None, s)
      | m :: rest =>
          let reserved := match out_body m with
                          | OutReply id _ => reserved_ids o ∖ {[id]}
                          | OutRequest _ => reserved_ids o
                          end in
          (Some m,
           set_state
             (Open (MkOpen (max_inbound_requests o) (max_inbound_bytes o) (autoreply_timeout o)
                      (incoming o) reserved rest (next_id o) (outstanding o) (operations o))) s)
      end
  end.

(** The first part of [SessionInner::record_response]: the answer to encode, or the
    failure of an operation that has none. *)
Definition response_of (r : result (Message Payload) Protocol.Error) :
  result (result (Message Payload) SchemaError) Protocol.Error :=
  match r with
  | Ok m => Ok (Ok m)
  | Err (Protocol.Remote error) => Ok (Err error)
  | Err error => Err error
  end.

(** [SessionInner::record_response]; an answer the peer could not send panics. *)
Definition record_response (max : nat) (k : nat) (r : result (Message Payload) Protocol.Error)
    (now now' : Instant) (s : Session) : outcome Session :=
  match state s with
  | Closed _ => Ret s
  | Open o =>
      match operations o !! k with
      | None => Ret s
      | Some op =>
          let without h :=
            MkSession
              (Open (MkOpen (max_inbound_requests o) (max_inbound_bytes o)
                       (autoreply_timeout o) (incoming o) (reserved_ids o) (outgoing o)
                       (next_id o) (outstanding o) (delete k (operations o))))
              h (stream_closed s) (fresh s) in
          match response_of r with
          | Err error => Ret (without (fail op error now (store s)))
          | Ok body =>
              match encode max (peer side) 0 body with
              | Err _ => Panicked
              | Ok bs =>
                  match decode_header side bs with
                  | Ret (Ok h) =>
                      match complete_response op now (MkIncoming bs h) (max_inbound_bytes o)
                              (store s) with
                      | Ret (Ok _, h') => Ret (without h')
                      | Ret (Err error, h') => Ret (close side error now' (without h'))
                      | Panicked => Panicked
                      | Diverged => Diverged
                      end
                  | Ret (Err _) => Panicked
                  | Panicked => Panicked
                  | Diverged => Diverged
                  end
              end
          end
      end
  end.

(** [OperationHandle::record_response] on a session still reachable. *)
Definition answer_operation (max : nat) (k : nat) (r : result (Message Payload) SchemaError)
    (now now' : Instant) (s : Session) : outcome Session :=
  record_response max k (map_err Protocol.Remote r) now now' s.

(** The last ID a side can allocate. *)
Definition last_id : Z := if decide (side = Client) then u64_max else (u64_max - 1)%Z.

(** [SessionInner::use_last_request_id] *)
Definition use_last_request_id (s : Session) : outcome Session :=
  match state s with
  | Closed _ => Panicked
  | Open o =>
      if decide (outstanding o = ∅) then
        Ret (set_state
               (Open (MkOpen (max_inbound_requests o) (max_inbound_bytes o) (autoreply_timeout o)
                        (incoming o) (reserved_ids o) (outgoing o) (Some last_id)
                        (outstanding o) (operations o))) s)
      else Panicked
  end.

(** One look of [SessionInner::wait_response]: [None] while it waits. *)
Definition response_fence (i : Z) (s : Session) : option (outcome unit) :=
  match state s with
  | Open o => if decide (is_Some (outstanding o !! i)) then None else Some (Ret tt)
  | Closed _ => Some Panicked
  end.

(** [SessionInner::outstanding_ids] *)
Definition outstanding_ids (s : Session) : outcome (list Z) :=
  match state s with
  | Open o => Ret (merge_sort Z.le (elements (dom (outstanding o))))
  | Closed _ => Panicked
  end.

(** [SessionInner::inject_request] *)
Definition inject_request (max : nat) (i : Z) (m : Message Payload) (now : Instant) (s : Session) :
  outcome (result unit Protocol.Error * Session) :=
  match encode max (peer side) i (Ok m) with
  | Err _ => Panicked
  | Ok bs =>
      match decode_header side bs with
      | Ret (Ok h) =>
          match admit_request h bs s with
          | (Ok _, s) => Ret (Ok tt, s)
          | (Err error, s) => Ret (Err error, close side error now s)
          end
      | Ret (Err error) => Ret (Err error, s)
      | Panicked => Panicked
      | Diverged => Diverged
      end
  end.

(** [SessionInner::inbound_usage] *)
Definition inbound_usage (s : Session) : nat * Z :=
  (match state s with Open o => size (reserved_ids o) | Closed _ => 0 end,
   retained_bytes (store s)).
End fixture.

(** ** The workers whose place they take *)

Section facts.
Context {Payload : Variant → Type} `{ProstLaws Payload} (side : Side).
Abbreviation Session := (Session (Payload:=Payload)).

(** Where the deadline worker goes to sleep, it sleeps until the deadline the fixture
    reports. *)
Lemma deadline_worker_reports now until (s s' : Session) :
  run_deadlines now s = DeadlineSleep until s' → next_deadline s' = until.
Proof.
  unfold run_deadlines, next_deadline. case_match; [done|].
  destruct (state (expire now s)) eqn:E; intros [= <- <-]. by rewrite E.
Qed.

(** A message taken by hand is the one the writer takes; the writer also gives a
    request its ID. *)
Lemma take_outgoing_is_writer now i m (s s' : Session) :
  next_outgoing now s = Ret (Take i m s') →
  (take_outgoing now s).1 = Some m
  ∧ (is_request m = false → (take_outgoing now s).2 = s').
Proof.
  unfold next_outgoing, take_outgoing, is_request. case_match; [done|].
  destruct (state (expire now s)) as [o|]; [|done].
  destruct (outgoing o) as [|m' rest]; [done|].
  destruct (out_body m') eqn:Eb; [destruct (next_id o); [|done]|]; intros [= <- <- <-];
    split; try done; by rewrite Eb.
Qed.

(** A session logs its end exactly once, as a warning unless it was orderly. *)
Lemma close_logs_once error error' now now' (s : Session) o :
  state s = Open o →
  ∃ line, close_log error now s = Some line ∧ reason line = error
    ∧ (level line = Info ↔ Protocol.orderly error = true)
    ∧ close_log error' now' (close side error now s) = None.
Proof.
  intros Ho. unfold close_log, close, state_close. rewrite Ho. simpl.
  eexists. split_and!; [done|by destruct error as [| |[]| | | | | | |]..|done].
Qed.

Lemma outstanding_ids_exact (s : Session) o :
  state s = Open o →
  ∃ l, outstanding_ids s = Ret l ∧ Sorted Z.le l
    ∧ ∀ i, i ∈ l ↔ is_Some (outstanding o !! i).
Proof.
  intros Ho. unfold outstanding_ids. rewrite Ho. eexists. split_and!; [done| |].
  - apply Sorted_merge_sort. apply _.
  - intros i. rewrite merge_sort_Permutation, elem_of_elements. by rewrite elem_of_dom.
Qed.

Lemma parity_last_id : parity_of (last_id side) = parity side.
Proof. by destruct side. Qed.

(** The last ID is taken once. *)
Lemma last_id_taken now m (s s1 s2 : Session) i :
  use_last_request_id side s = Ret s1 → is_request m = true →
  next_outgoing now s1 = Ret (Take i m s2) →
  i = last_id side ∧ (i ≤ u64_max)%Z ∧ parity_of i = parity side
  ∧ ∃ o, state s2 = Open o ∧ next_id o = None ∧ outstanding o !! i = Some (key m).
Proof.
  unfold use_last_request_id, next_outgoing. destruct (state s) as [o|]; [|done].
  case_decide; [|done]. intros [= <-]. unfold expire, is_request. simpl.
  destruct (has_notifications _ _); [done|]. destruct (filter _ (outgoing o)) as [|m' rest]; [done|].
  destruct (out_body m') eqn:Eb; intros Hm [= <- <- <-]; [|by rewrite Eb in Hm].
  split_and!; [done|by destruct side|apply parity_last_id|].
  eexists. split_and!; [done|by destruct side|apply lookup_insert_eq].
Qed.

(** Without IDs left, a request at the head of the queue stops the writer. *)
Lemma no_id_left now m rest (s : Session) o :
  state (expire now s) = Open o → next_id o = None →
  outgoing o = m :: rest → is_request m = true →
  next_outgoing now s = Ret (Again (expire now s)) ∨ next_outgoing now s = Panicked.
Proof.
  unfold next_outgoing, is_request. intros -> Hn -> Hm.
  destruct (has_notifications _ _); [by left|right].
  destruct (out_body m); [|done]. by rewrite Hn.
Qed.

(** ** The reader whose place injection takes *)

(** Requests injected by hand take the reader's path. A request the peer could send,
    under an ID of the peer's, injected by hand has exactly the result and leaves
    exactly the session that the reader's pass over the peer's bytes does: admitted
    and queued, or the session closed with the error returned. *)
Theorem injected_request_is_read (max : nat) (i : Z) (m : Message Payload) (bs : list byte)
    (now now' : Instant) (s : Session) :
  sendable i (Ok m) = true → (Z.of_nat max ≤ usize_max)%Z →
  from_id i (parity side) = Request →
  encode max (peer side) i (Ok m) = Ok bs →
  ∃ r s1 s2,
    handle_message side bs now' now s = Ret (r, s1)
    ∧ reader_pass side (Ok bs) now' now s = Ret s2
    ∧ inject_request side max i m now s = Ret (r, s2)
    ∧ s2 = match r with Ok _ => s1 | Err e => close side e now s1 end.
Proof.
  intros Hs Hmax Hk Henc.
  pose proof (encode_decodes _ _ _ _ _ Hs Hmax Henc) as (_ & _ & Hh).
  assert (peer (peer side) = side) as Hpeer by (by destruct side). rewrite Hpeer in Hh.
  unfold inject_request, reader_pass, handle_message, handle_locked. rewrite Henc, Hh. simpl.
  rewrite Hk. destruct (admit_request _ bs s) as [[[]|e] s1]; by eexists _, _, _.
Qed.
End facts.

(** A request of the client, and the bytes it sends it as under ID 7. *)
Definition sample : Message Plain.Payload := MkMessage (Payload:=Plain.Payload) VDeviceInfoRequest tt.

Definition sample_bytes : list byte :=
  match encode 1000 Client 7 (Ok sample) with Ok bs => bs | Err _ => [] end.

Lemma injected_request_is_read_witness :
  ∃ r s1 s2,
    handle_message Server sample_bytes 5 3 (new Server) = Ret (r, s1)
    ∧ reader_pass Server (Ok sample_bytes) 5 3 (new Server) = Ret s2
    ∧ inject_request Server 1000 7 sample 3 (new Server) = Ret (r, s2)
    ∧ s2 = match r with Ok _ => s1 | Err e => close Server e 3 s1 end.
Proof.
  apply (injected_request_is_read Server 1000 7 sample); try (vm_compute; reflexivity).
  apply Z.leb_le. vm_compute. reflexivity.
Defined.
End Fixture.
