(* ===== verification/Conversation.v ===== *)
(** * A conversation of two sessions

    Both sides of a session at work: the client's and the server's session systems,
    each with its threads in any interleaving, joined by two channels that carry, in
    order, the messages their writers sent. That is what the transport provides while
    a session lasts. A step is one of a side's own, or the delivery of the oldest
    message on its way to a side. *)

From Stdlib Require Import Sorting.Sorted.
From S2P Require Import Prelude Io Message Envelope Promise Settling Session SessionInv SessionPass SessionMachine.

Module Conversation.
Import Session SessionInv SessionPass SessionMachine.

(** ** The state *)

Section conversation.
Context {Payload : Variant → Type} `{Prost Payload} (max : nat).
Abbreviation Session := (Session (Payload:=Payload)).
Abbreviation System := (System (Payload:=Payload)).
Abbreviation Event := (Event (Payload:=Payload)).

(** A message with the ID it is sent under. *)
Abbreviation Entry := (Z * OutgoingMessage (Payload:=Payload))%type.

(** The two systems, and for each side the messages it sent that are on their way and
    those delivered to its peer. *)
Record Conversation := MkConversation {
  party : Side → System;
  flight : Side → list Entry;
  seen : Side → list Entry;
}.

(** Sets the value at one side. *)
Definition at_side {A} (side : Side) (a : A) (f : Side → A) (side' : Side) : A :=
  if decide (side' = side) then a else f side'.

Definition started : Conversation :=
  MkConversation init (λ _, []) (λ _, []).

(** ** Steps *)

(** What the side's step puts on its channel: the message it sends, which may have
    reached the peer also where the transport reports a failure. *)
Definition sent (side : Side) (reached : bool) (ev : Event) (w : Writer (Payload:=Payload)) :
  list Entry :=
  match ev, w with
  | ESent answer _, WSending i m =>
      if is_ok (encode max side i (body_sent m)) && (is_ok answer || reached)
      then [(i, m)] else []
  | _, _ => []
  end.

(** The values an application can submit, and the errors it closes a session with. *)
Definition proper (ev : Event) : Prop :=
  match ev with
  | EMessage _ _ => False
  | ERequest m _ _ => sendable 0 (Ok m) = true
  | ERespond _ r _ _ => sendable 0 r = true
  | EClose e _ => e ≠ Protocol.Malformed
  | _ => True
  end.

Inductive step2 : Conversation → Conversation → Prop :=
  | step_act c side ev reached y' :
      proper ev →
      step side max (party c side) ev = Some y' →
      step2 c
        (MkConversation (at_side side y' (party c))
           (at_side side (flight c side ++ sent side reached ev (writer (party c side))) (flight c))
           (seen c))
  | step_deliver c side i m rest bs now y' :
      flight c side = (i, m) :: rest →
      encode max side i (body_sent m) = Ok bs →
      step (peer side) max (party c (peer side)) (EMessage bs now) = Some y' →
      step2 c
        (MkConversation (at_side (peer side) y' (party c))
           (at_side side rest (flight c))
           (at_side side (seen c side ++ [(i, m)]) (seen c))).

(** The same steps, executed. *)
Inductive Move :=
  | Act (side : Side) (ev : Event) (reached : bool)
  | Deliver (side : Side) (now : Instant).

#[global] Instance proper_dec ev : Decision (proper ev).
Proof. destruct ev; simpl; apply _. Defined.

Definition move (c : Conversation) (mv : Move) : option Conversation :=
  match mv with
  | Act side ev reached =>
      if decide (proper ev) then
        match step side max (party c side) ev with
        | Some y' =>
            Some (MkConversation (at_side side y' (party c))
                    (at_side side (flight c side ++ sent side reached ev (writer (party c side)))
                       (flight c))
                    (seen c))
        | None => None
        end
      else None
  | Deliver side now =>
      match flight c side with
      | (i, m) :: rest =>
          match encode max side i (body_sent m) with
          | Ok bs =>
              match step (peer side) max (party c (peer side)) (EMessage bs now) with
              | Some y' =>
                  Some (MkConversation (at_side (peer side) y' (party c))
                          (at_side side rest (flight c))
                          (at_side side (seen c side ++ [(i, m)]) (seen c)))
              | None => None
              end
          | Err _ => None
          end
      | [] => None
      end
  end.

Fixpoint moves (c : Conversation) (mvs : list Move) : option Conversation :=
  match mvs with
  | [] => Some c
  | mv :: mvs => match move c mv with Some c => moves c mvs | None => None end
  end.

Inductive reachable2 : Conversation → Prop :=
  | reachable2_started : reachable2 started
  | reachable2_step c c' : reachable2 c → step2 c c' → reachable2 c'.

Lemma move_step c mv c' : move c mv = Some c' → step2 c c'.
Proof.
  destruct mv as [side ev reached|side now]; simpl.
  - case_decide; [|done]. destruct (step _ _ _ _) eqn:Es; [|done]. intros [= <-].
    by eapply step_act.
  - destruct (flight c side) as [|[i m] rest] eqn:Ef; [done|].
    destruct (encode _ _ _ _) as [bs|] eqn:Ee; [|done].
    intros Hs.
    destruct (step (peer side) max (party c (peer side)) (EMessage bs now)) as [y'|] eqn:Es;
      simpl in Es, Hs; rewrite Es in Hs; [|done]. injection Hs as <-.
    by eapply step_deliver.
Qed.

Lemma moves_reachable c mvs c' : reachable2 c → moves c mvs = Some c' → reachable2 c'.
Proof.
  revert c. induction mvs as [|mv mvs IH]; simpl; intros c Hc; [by intros [= <-]|].
  destruct (move c mv) as [c1|] eqn:Em; [|done]. apply IH.
  eapply reachable2_step; [done|by eapply move_step].
Qed.

(** ** What a session holds *)

Definition inc (s : Session) : list (Z * IncomingEnvelope) :=
  match state s with Open o => incoming o | Closed _ => [] end.

Definition outq (s : Session) : list (OutgoingMessage (Payload:=Payload)) :=
  match state s with Open o => outgoing o | Closed _ => [] end.

Definition ops (s : Session) : gmap nat PendingOperation :=
  match state s with Open o => operations o | Closed _ => ∅ end.

Definition outst (s : Session) : gmap Z nat :=
  match state s with Open o => outstanding o | Closed _ => ∅ end.

(** The promise [i] holds the response [e]. *)
Definition has_response (h : Store) (i : nat) (e : IncomingEnvelope) : Prop :=
  ∃ p, promises h !! i = Some p ∧ slot p = Some (Ok (PResponse e)).

(** The IDs of the peer's requests in the session's queues. *)
Definition queued_ids (s : Session) : list Z := (inc s).*1 ++ reply_ids (outq s).

(** An operation of the session that takes nothing from the peer; [body] is what it
    may submit. *)
Record calm (body : option (OutgoingBody (Payload:=Payload))) (s s' : Session) : Prop := MkCalm {
  calm_ids : queued_ids s' ⊆+ queued_ids s ++ default [] (body_ids <$> body);
  calm_inc : inc s' ⊆ inc s;
  calm_out m : m ∈ outq s' → m ∈ outq s ∨ body = Some (out_body m);
  calm_ops k op : ops s' !! k = Some op → ops s !! k = Some op ∨ k = S (promise (sender op));
  calm_outst i k : outst s' !! i = Some k → outst s !! i = Some k;
  calm_slots i e : has_response (store s') i e → has_response (store s) i e;
  calm_state : state s' = Closed Protocol.Malformed → state s = Closed Protocol.Malformed;
}.

(** ** Stores *)

(** No response appears. *)
Definition quiet (h h' : Store) : Prop := ∀ i e, has_response h' i e → has_response h i e.

Lemma quiet_promises h h' : promises h' = promises h → quiet h h'.
Proof. intros E i e. unfold has_response. by rewrite E. Qed.

Lemma quiet_insert h h' i p :
  promises h' = <[i:=p]> (promises h) →
  (∀ e, slot p = Some (Ok (PResponse e)) → has_response h i e) → quiet h h'.
Proof.
  intros E Hp j e (q & Hq & Hs). rewrite E in Hq.
  apply lookup_insert_Some in Hq as [[<- <-]|[_ Hq]]; [auto|by exists q].
Qed.

#[global] Instance quiet_trans : Transitive quiet.
Proof. intros h1 h2 h3 H1 H2 i e He. by apply H1, H2. Qed.

Lemma quiet_send snd r h :
  (∀ e, r ≠ Ok (PResponse e)) → quiet h (send_result snd r h).2.
Proof.
  intros Hr. pose proof (send_result_promises snd r h) as E. unfold settled_by in E.
  destruct (promises h !! promise snd) as [p|] eqn:Ep; [|by apply quiet_promises].
  eapply quiet_insert; [exact E|]. simpl. intros e. destruct (gone p); simpl.
  - intros Hs. by exists p.
  - intros [= ->]. by destruct (Hr e).
Qed.

Lemma quiet_fail op err now h : quiet h (fail op err now h).
Proof. by apply quiet_send. Qed.

Lemma quiet_fail_all l err now h : quiet h (fail_all l err now h).
Proof.
  induction l as [|op l IH]; simpl; [by intros ? ?|]. etrans; [exact IH|apply quiet_fail].
Qed.

Lemma quiet_drop_promise i h : quiet h (drop_promise i h).
Proof.
  unfold drop_promise. destruct (promises h !! i) as [p|] eqn:Ep; [|by apply quiet_promises].
  eapply quiet_insert; [by rewrite drop_settlement_promises|done].
Qed.

Lemma quiet_take i h r h' : take_result i h = Some (r, h') → quiet h h'.
Proof.
  unfold take_result. destruct (promises h !! i) as [p|] eqn:Ep; [|done].
  destruct (slot p); [|done]. intros [= _ <-]. by eapply quiet_insert.
Qed.

Lemma quiet_notify i cb h h' : notify i cb h = Ret h' → quiet h h'.
Proof.
  unfold notify. destruct (promises h !! i) as [p|] eqn:Ep; [|by intros [= <-]; apply quiet_promises].
  destruct (registered p); [done|].
  destruct (done p); intros [= <-]; eapply quiet_insert; [done| |done|]; simpl; intros e Hs;
    by exists p.
Qed.

Lemma quiet_new i b h : quiet h (pair i b h).2.
Proof. by eapply quiet_insert. Qed.

(** ** Operations of a session *)

#[global] Instance calm_refl : Reflexive (calm None).
Proof. intros s. split; simpl; rewrite ?app_nil_r; auto. Qed.

Lemma calm_after body s1 s2 s3 : calm body s1 s2 → calm None s2 s3 → calm body s1 s3.
Proof.
  intros [A1 A2 A3 A4 A5 A6 A7] [B1 B2 B3 B4 B5 B6 B7]. simpl in B1. rewrite app_nil_r in B1. split.
  - by etrans.
  - by etrans.
  - intros m Hm. destruct (B3 m Hm) as [?|?]; [auto|done].
  - intros k op Hk. destruct (B4 k op Hk) as [?|?]; auto.
  - auto.
  - auto.
  - auto.
Qed.

Lemma calm_before body s1 s2 s3 : calm None s1 s2 → calm body s2 s3 → calm body s1 s3.
Proof.
  intros [A1 A2 A3 A4 A5 A6 A7] [B1 B2 B3 B4 B5 B6 B7]. simpl in A1. rewrite app_nil_r in A1. split.
  - etrans; [exact B1|]. by apply submseteq_app.
  - by etrans.
  - intros m Hm. destruct (B3 m Hm) as [?|?]; [|auto]. naive_solver.
  - intros k op Hk. destruct (B4 k op Hk) as [?|?]; auto.
  - auto.
  - auto.
  - auto.
Qed.

Lemma calm_weaken body s s' : calm None s s' → calm body s s'.
Proof.
  intros [A1 A2 A3 A4 A5 A6 A7]. simpl in A1. rewrite app_nil_r in A1. split; auto.
  - etrans; [exact A1|]. by apply submseteq_inserts_r.
  - intros m Hm. destruct (A3 m Hm); [auto|done].
Qed.

(** Only the store changes. *)
Lemma calm_store h s : quiet (store s) h → calm None s (set_store h s).
Proof. intros Hq. split; simpl; rewrite ?app_nil_r; auto. Qed.

(** The session closes. *)
Lemma calm_closed s s' e :
  state s' = Closed e → e ≠ Protocol.Malformed ∨ state s = Closed e →
  quiet (store s) (store s') → calm None s s'.
Proof.
  intros E He Hq. split; unfold queued_ids, inc, outq, ops, outst; rewrite ?E; simpl.
  - apply submseteq_nil_l.
  - apply list_subseteq_nil.
  - set_solver.
  - by intros k op [=].
  - by intros i k [=].
  - done.
  - intros [= ->]. by destruct He.
Qed.

Lemma quiet_drop_all (l : list (Z * IncomingEnvelope)) h :
  quiet h (foldr (λ '(_, e) h, drop_envelope e h) h l).
Proof. apply quiet_promises. by induction l as [|[]]. Qed.

Lemma calm_close side e now s :
  e ≠ Protocol.Malformed ∨ state s = Closed e → calm None s (close side e now s).
Proof.
  intros He. pose proof (close_state side e now s) as Hs. destruct (state s) as [o|e0] eqn:Es.
  - eapply calm_closed; [done|naive_solver|]. unfold close, state_close. rewrite Es. simpl.
    etrans; [apply quiet_fail_all|apply quiet_drop_all].
  - eapply calm_closed; [done|by right|]. unfold close, state_close. rewrite Es. by apply quiet_promises.
Qed.

Lemma reply_ids_sublist (l k : list (OutgoingMessage (Payload:=Payload))) :
  l `sublist_of` k → reply_ids l `sublist_of` reply_ids k.
Proof.
  unfold reply_ids. induction 1 as [|m l k _ IH|m l k _ IH]; simpl; [done|..];
    destruct (reply_id m); by try constructor.
Qed.

(** The session stays open with its queues, operations and requests, or fewer. *)
Lemma calm_open body k0 s s' o o' :
  state s = Open o → state s' = Open o' →
  incoming o' = incoming o →
  outgoing o' `sublist_of` outgoing o ++ match body with Some b => [MkOutgoing b k0] | None => [] end →
  (∀ k op, operations o' !! k = Some op → operations o !! k = Some op ∨ k = S (promise (sender op))) →
  (∀ i k, outstanding o' !! i = Some k → outstanding o !! i = Some k) →
  quiet (store s) (store s') → calm body s s'.
Proof.
  intros Es Es' Hi Ho Hop Hs Hq.
  split; unfold queued_ids, inc, outq, ops, outst; rewrite ?Es, ?Es'; auto.
  - rewrite Hi, <-app_assoc. apply submseteq_app; [done|]. apply sublist_submseteq.
    destruct body as [b|]; simpl in *.
    + rewrite <-(reply_ids_snoc _ _ k0). by apply reply_ids_sublist.
    + rewrite app_nil_r in *. by apply reply_ids_sublist.
  - by rewrite Hi.
  - intros m Hm. pose proof (elem_of_sublist _ _ _ Hm Ho) as [?|Hb]%elem_of_app; [auto|].
    destruct body; [|set_solver]. apply list_elem_of_singleton in Hb as ->. auto.
  - done.
Qed.

Lemma calm_set_autoreply t s : calm None s (set_autoreply_timeout t s).
Proof.
  unfold set_autoreply_timeout. destruct (state s) as [o|] eqn:Es; [|done].
  eapply (calm_open None 0); try done; simpl; auto; [by rewrite app_nil_r|by apply quiet_promises].
Qed.

Lemma calm_set_limits side requests limit now s :
  calm None s (set_inbound_limits side requests limit now s).
Proof.
  unfold set_inbound_limits. destruct (state s) as [o|] eqn:Es; [|done].
  set (s1 := set_state _ s). assert (calm None s s1).
  { eapply (calm_open None 0); try done; simpl; auto; [by rewrite app_nil_r|by apply quiet_promises]. }
  repeat case_decide; [eapply calm_after; [done|apply calm_close; by left]..|done].
Qed.

Lemma calm_expire now s : calm None s (expire now s).
Proof.
  unfold expire. destruct (state s) as [o|] eqn:Es; [|done].
  eapply (calm_open None 0); try done; simpl; auto.
  - rewrite app_nil_r. apply sublist_filter.
  - intros k op Hk%map_lookup_filter_Some. left. by destruct Hk.
  - apply quiet_fail_all.
Qed.

Lemma calm_submit b body dl now s : calm (Some body) s (submit b body dl now s).2.
Proof.
  unfold submit, pair, enqueue. simpl. destruct (state s) as [o|e] eqn:Es; simpl.
  - case_decide; simpl.
    + apply calm_weaken. eapply (calm_open None 0); try done; simpl; auto.
      * by rewrite app_nil_r.
      * etrans; [|apply quiet_fail]. apply quiet_new.
    + eapply (calm_open (Some body)); try done; simpl; auto; [|apply quiet_new].
      intros k op [[<- <-]|[_ ?]]%lookup_insert_Some; [by right|by left].
  - apply calm_weaken. eapply calm_closed; [done|by right|]. simpl.
    etrans; [|apply quiet_drop_promise]. apply quiet_new.
Qed.

Lemma calm_autoreply i err now now' s :
  calm (Some (OutReply i (Err err))) s (autoreply i err now now' s).
Proof.
  unfold autoreply, reply. destruct (state s) as [o|e] eqn:Es; [|by apply calm_weaken].
  set (dl := default now _).
  pose proof (calm_submit false (OutReply i (Err err)) dl now' s) as Hc.
  destruct (submit _ _ _ _ s) as [[j|e] s']; [|done]. simpl in Hc.
  eapply calm_after; [exact Hc|]. apply calm_store, quiet_drop_promise.
Qed.

Lemma calm_responder_enqueue i r dl now s :
  calm (Some (OutReply i r)) s (responder_enqueue i r dl now s).2.
Proof.
  unfold responder_enqueue, reply. pose proof (calm_submit false (OutReply i r) dl now s) as Hc.
  destruct (submit _ _ _ _ s) as [[j|e] s'] eqn:Ee; [done|]. simpl in *.
  assert (state s' = Closed e) as Es'.
  { revert Ee. unfold submit, pair, enqueue. simpl. destruct (state s) as [o|e0]; simpl.
    - by case_decide.
    - by intros [= <- <-]. }
  unfold reply_unanswered, autoreply. by rewrite Es'.
Qed.

Lemma calm_forget i m r s : calm None s (forget_unsent i m r s).
Proof.
  unfold forget_unsent. destruct (state s) as [o|] eqn:Es; [|done].
  destruct (_ && _); [|done]. eapply (calm_open None 0); try done; simpl; auto.
  - by rewrite app_nil_r.
  - by intros j k [_ ?]%lookup_delete_Some.
  - by apply quiet_promises.
Qed.

Lemma calm_record_write k r now s : calm None s (record_write k r now s).
Proof.
  unfold record_write. destruct (state s) as [o|] eqn:Es; [|done].
  destruct (operations o !! k) as [op|] eqn:Eop; [|done].
  assert (∀ h, quiet (store s) h → calm None s
    (MkSession (Open (MkOpen (max_inbound_requests o) (max_inbound_bytes o) (autoreply_timeout o)
       (incoming o) (reserved_ids o) (outgoing o) (next_id o) (outstanding o)
       (delete k (operations o)))) h (stream_closed s) (fresh s))) as Hw.
  { intros h Hq. eapply (calm_open None 0); try done; simpl; auto; [by rewrite app_nil_r|].
    intros j op' [_ ?]%lookup_delete_Some. by left. }
  case_decide; [apply Hw, quiet_fail|]. destruct (negb _); [by apply Hw, quiet_send|done].
Qed.

Lemma calm_decode side e now s x :
  decode side (bytes e) = Ok x → calm None s (decode_envelope side e now s).2.
Proof.
  intros E. unfold decode_envelope. rewrite E. destruct x as [j [m|err]]; simpl;
    apply calm_store; by apply quiet_promises.
Qed.

(** Taking a queued request. *)
Lemma recv_takes s i e s' :
  recv_take s = Some (Ok (i, e), s') →
  inc s = (i, e) :: inc s' ∧ outq s' = outq s ∧ ops s' = ops s ∧ outst s' = outst s
  ∧ store s' = store s ∧ (∀ err, state s' ≠ Closed err).
Proof.
  unfold recv_take, inc, outq, ops, outst. destruct (state s) as [o|]; [|done].
  destruct (incoming o) as [|[j e'] rest] eqn:Ei; [done|]. intros [= <- <- <-]. by split_and!.
Qed.

(** Taking a queued message. *)
Lemma next_takes now s i m s' :
  next_outgoing now s = Ret (Take i m s') →
  let s1 := expire now s in
  outq s1 = m :: outq s' ∧ inc s' = inc s1 ∧ ops s' = ops s1 ∧ store s' = store s1
  ∧ (∀ err, state s' ≠ Closed err)
  ∧ match out_body m with
    | OutRequest _ => outst s' = <[i:=key m]> (outst s1)
    | OutReply j _ => i = j ∧ outst s' = outst s1
    end.
Proof.
  intros Hn s1. revert Hn. unfold next_outgoing, inc, outq, ops, outst. fold s1.
  destruct (has_notifications s s1); [done|]. destruct (state s1) as [o|] eqn:Es; [|done].
  destruct (outgoing o) as [|m' rest]; [done|].
  destruct (out_body m') eqn:Eb; [destruct (next_id o); [|done]|]; intros [= <- <- <-];
    rewrite ?Eb; by split_and!.
Qed.

(** ** What a party has of its peer *)

(** The IDs of the peer's requests that a party answered, keeps or is answering. *)
Definition owes (y : System) : list Z :=
  reply_ids (wire y).*2 ++ queued_ids (sess y) ++ outside y.

(** The message the writer is sending. *)
Definition pending (w : Writer (Payload:=Payload)) : list Entry :=
  match w with WSending i m => [(i, m)] | _ => [] end.

(** A message whose body its types can hold, under its own ID. *)
Definition entry_ok (x : Entry) : Prop :=
  match out_body x.2 with OutReply j _ => x.1 = j | OutRequest _ => True end
  ∧ sendable x.1 (body_sent x.2) = true.

Definition body_ok (b : OutgoingBody (Payload:=Payload)) : Prop :=
  match b with OutReply j r => sendable j r = true | OutRequest m => sendable 0 (Ok m) = true end.

(** The envelope [e] is the peer's request under the ID [i]. *)
Definition is_ask (side : Side) (got : list Entry) (i : Z) (e : IncomingEnvelope) : Prop :=
  ∃ m k, (i, MkOutgoing (OutRequest m) k) ∈ got
    ∧ encode max (peer side) i (Ok m) = Ok (bytes e).

(** The envelope [e] is the peer's reply under the ID [i]. *)
Definition is_reply (side : Side) (got : list Entry) (i : Z) (e : IncomingEnvelope) : Prop :=
  ∃ r k, (i, MkOutgoing (OutReply i r) k) ∈ got ∧ encode max (peer side) i r = Ok (bytes e).

(** A party that sent [mine] and received [got]. *)
Record party_ok (side : Side) (y : System) (mine got : list Entry) : Prop := MkPartyOk {
  po_reachable : reachable side max y;
  po_wire : mine ++ pending (writer y) `sublist_of` wire y;
  po_entries : Forall entry_ok (wire y);
  po_keys : Forall (λ x, unqueued (key x.2) (sess y)) (wire y);
  po_keys_nodup : NoDup (key <$> (wire y).*2);
  po_queue m : m ∈ outq (sess y) → body_ok (out_body m);
  po_nodup : NoDup (owes y);
  po_owes i : i ∈ owes y → i ∈ request_ids got;
  po_asks i e : (i, e) ∈ inc (sess y) ∨ (Some i, e) ∈ decoding y → is_ask side got i e;
  po_links k op : ops (sess y) !! k = Some op → k = S (promise (sender op));
  po_sent i k : outst (sess y) !! i = Some k → ∃ m, (i, MkOutgoing (OutRequest m) k) ∈ wire y;
  po_slots j e :
    has_response (store (sess y)) j e →
    ∃ i m, (i, MkOutgoing (OutRequest m) (S j)) ∈ wire y ∧ is_reply side got i e;
  po_answers e : (None, e) ∈ decoding y → ∃ i, is_reply side got i e;
  po_reader : reader y ≠ RClosing Protocol.Malformed;
  po_state : state (sess y) ≠ Closed Protocol.Malformed;
}.

Lemma entry_decodes `{!ProstLaws Payload} side i m bs :
  (Z.of_nat max ≤ usize_max)%Z → entry_ok (i, m) →
  encode max (peer side) i (body_sent m) = Ok bs →
  decode side bs = Ok (i, body_sent m)
  ∧ ∃ name, decode_header side bs = Ret (Ok (MkHeader i (is_err (body_sent m)) name false)).
Proof.
  intros Hmax [_ Hs] Henc. pose proof (encode_decodes _ _ _ _ _ Hs Hmax Henc) as (_ & Hd & Hh).
  assert (peer (peer side) = side) as Hp by (by destruct side). rewrite Hp in *. eauto.
Qed.

Lemma elem_of_request_ids i (l : list Entry) :
  i ∈ request_ids l ↔ ∃ m k, (i, MkOutgoing (OutRequest m) k) ∈ l.
Proof.
  unfold request_ids. rewrite list_elem_of_omap. split.
  - intros ([j [b k]] & Hx & Hi). unfold is_request in Hi. simpl in Hi.
    destruct b as [m|]; [|done]. injection Hi as ->. by exists m, k.
  - intros (m & k & Hx). by exists (i, MkOutgoing (OutRequest m) k).
Qed.

Lemma sendable_range i j (body : result (Message Payload) SchemaError) :
  sendable j body = true → in_range 0 u64_max i = true → sendable i body = true.
Proof. unfold sendable. intros [_ ->]%andb_true_iff ->. done. Qed.

Lemma request_range got i :
  Forall entry_ok got → i ∈ request_ids got → in_range 0 u64_max i = true.
Proof.
  intros Hall (m & k & Hx)%elem_of_request_ids. rewrite Forall_forall in Hall.
  destruct (Hall _ Hx) as [_ Hs]. unfold sendable in Hs. by apply andb_true_iff in Hs as [? _].
Qed.

Lemma submseteq_nodup {A} (l k : list A) : l ⊆+ k → NoDup k → NoDup l.
Proof. intros [k0 ->]%submseteq_Permutation Hk. by apply NoDup_app in Hk as [? _]. Qed.

Lemma calm_outside body s s' (out out' : list Z) :
  calm body s s' → default [] (body_ids <$> body) ++ out' ⊆+ out →
  queued_ids s' ++ out' ⊆+ queued_ids s ++ out.
Proof.
  intros [Hids _ _ _ _ _ _] Ho. etrans; [apply submseteq_app; [exact Hids|done]|].
  rewrite <-app_assoc. by apply submseteq_app.
Qed.

(** A step that moves the session calmly. *)
Lemma calm_step side y y' mine mine' got body :
  party_ok side y mine got → reachable side max y' → keeps (sess y) (sess y') →
  wire y' = wire y → mine' ++ pending (writer y') `sublist_of` wire y →
  calm body (sess y) (sess y') →
  queued_ids (sess y') ++ outside y' ⊆+ queued_ids (sess y) ++ outside y →
  (∀ b, body = Some b → body_ok b) →
  (∀ i e, (Some i, e) ∈ decoding y' → (i, e) ∈ inc (sess y) ∨ (Some i, e) ∈ decoding y) →
  (∀ e, (None, e) ∈ decoding y' →
    (None, e) ∈ decoding y ∨ ∃ j, has_response (store (sess y)) j e) →
  reader y' ≠ RClosing Protocol.Malformed →
  party_ok side y' mine' got.
Proof.
  intros [] Hr Hk Hw Hm [] Ho Hb Hd Hd' Hre.
  assert (owes y' ⊆+ owes y) as Hsub
    by (unfold owes; rewrite Hw; by apply submseteq_app).
  split; rewrite ?Hw; try done.
  - eapply Forall_impl; [exact po_keys0|]. intros x. by apply keeps_unqueued.
  - intros m Hm'. destruct (calm_out0 m Hm') as [?|?]; [by apply po_queue0|by apply Hb].
  - by eapply submseteq_nodup.
  - intros i Hi. apply po_owes0. by eapply elem_of_submseteq.
  - intros i e [Hi|Hi]; apply po_asks0; [left; by apply calm_inc0|by apply Hd].
  - intros k op Hk'. destruct (calm_ops0 k op Hk') as [?|?]; [by apply po_links0|done].
  - intros i k Hi. by apply po_sent0, calm_outst0.
  - intros j e Hj. by apply po_slots0, calm_slots0.
  - intros e He. destruct (Hd' e He) as [?|[j Hj]]; [by apply po_answers0|].
    destruct (po_slots0 j e Hj) as (i & m & _ & Hi). by exists i.
  - intros E. by apply po_state0, calm_state0.
Qed.

(** A step of the session alone. *)
Lemma calm_sess_step side y s' mine got body :
  party_ok side y mine got → reachable side max (with_sess s' y) → keeps (sess y) s' →
  calm body (sess y) s' → default [] (body_ids <$> body) = [] → (∀ b, body = Some b → body_ok b) →
  party_ok side (with_sess s' y) mine got.
Proof.
  intros Hok Hr Hk Hc Hb Hb'. pose proof Hok as []. eapply calm_step; try done; auto.
  eapply calm_outside; [done|]. by rewrite Hb.
Qed.

Lemma list_delete_subseteq {A} (l : list A) n : delete n l ⊆ l.
Proof. intros x Hx. eapply elem_of_sublist; [done|apply sublist_delete]. Qed.

Lemma sorted_nodup (l : list Z) : StronglySorted Z.lt l → NoDup l.
Proof.
  induction 1 as [|i l Hs IH Hl]; constructor; [|done]. intros Hin.
  rewrite Forall_forall in Hl. specialize (Hl i Hin). lia.
Qed.

Section steps.
Context `{!ProstLaws Payload} (Hmax : (Z.of_nat max ≤ usize_max)%Z).

Lemma is_ask_decodes side got i e :
  Forall entry_ok got → is_ask side got i e →
  ∃ m k, (i, MkOutgoing (OutRequest m) k) ∈ got ∧ decode side (bytes e) = Ok (i, Ok m).
Proof.
  intros Hg (m & k & Hin & Henc). rewrite Forall_forall in Hg.
  destruct (entry_decodes side i (MkOutgoing (OutRequest m) k) _ Hmax (Hg _ Hin) Henc) as [Hd _].
  by exists m, k.
Qed.

Lemma is_reply_decodes side got i e :
  Forall entry_ok got → is_reply side got i e →
  ∃ r k, (i, MkOutgoing (OutReply i r) k) ∈ got ∧ decode side (bytes e) = Ok (i, r).
Proof.
  intros Hg (r & k & Hin & Henc). rewrite Forall_forall in Hg.
  destruct (entry_decodes side i (MkOutgoing (OutReply i r) k) _ Hmax (Hg _ Hin) Henc) as [Hd _].
  by exists r, k.
Qed.

(** The reader's own steps. *)
Lemma reader_ok side y ev y' mine got :
  party_ok side y mine got → Forall entry_ok got → proper ev → reachable side max y' →
  keeps (sess y) (sess y') → step_reader side y ev = Some y' → party_ok side y' mine got.
Proof.
  intros Hok Hg Hp Hr Hk Hs. pose proof Hok as []. revert Hs.
  unfold step_reader. destruct ev; try done; destruct (reader y) eqn:Er; try done; intros [= <-].
  - eapply calm_step; try done; auto. unfold outside. simpl. by rewrite Er.
  - eapply calm_step; try done; auto; simpl.
    + apply calm_autoreply.
    + eapply calm_outside; [apply calm_autoreply|]. unfold outside. simpl. rewrite Er. simpl.
      rewrite app_nil_r. apply Permutation_submseteq. solve_Permutation.
    + intros b [= <-]. simpl. eapply (sendable_range _ 0); [done|].
      apply (request_range got); [done|]. apply po_owes0. unfold owes, outside. rewrite Er. set_solver.
  - assert (calm None (sess y) (close side e now (sess y))) as Hc
      by (apply calm_close; left; congruence).
    eapply calm_step; try done; auto. eapply calm_outside; [exact Hc|].
    unfold outside. simpl. by rewrite Er.
Qed.

(** A message the writer takes can be sent under its ID. *)
Lemma taken_entry side now (s s' : Session) i m taken :
  next_outgoing now s = Ret (Take i m s') → (∀ m, m ∈ outq s → body_ok (out_body m)) →
  ids_sent side (taken_after taken i m) → entry_ok (i, m).
Proof.
  intros Hn Hq [Hids _]. destruct (next_takes _ _ _ _ _ Hn) as (Ho & _ & _ & _ & _ & Hb).
  assert (body_ok (out_body m)) as Hbo.
  { destruct (calm_out _ _ _ (calm_expire now s) m) as [?|?]; [rewrite Ho; left|auto|done]. }
  unfold entry_ok, body_ok, body_sent, taken_after, is_request in *. simpl.
  destruct (out_body m) as [m'|j r]; [|by destruct Hb as [-> _]]. split; [done|].
  apply Forall_app in Hids as [_ [[_ Hi] _]%Forall_cons].
  eapply sendable_range; [exact Hbo|]. unfold in_range. apply andb_true_iff. lia.
Qed.

(** Its key is not that of a message taken before. *)
Lemma taken_key now (s s' : Session) i m (l : list Entry) :
  next_outgoing now s = Ret (Take i m s') → Forall (λ x, unqueued (key x.2) s) l →
  key m ∉ key <$> l.*2.
Proof.
  intros Hn Hl Hin. destruct (next_takes _ _ _ _ _ Hn) as (Ho & _).
  rewrite <-list_fmap_compose in Hin. apply list_elem_of_fmap in Hin as (x & Hx & Hin).
  rewrite Forall_forall in Hl.
  destruct (keeps_unqueued _ _ _ (keeps_expire now s) (Hl x Hin)) as [_ Hnot].
  unfold outq in Ho. destruct (state (expire now s)) as [o|] eqn:Es; [|done].
  apply (Hnot o eq_refl). simpl in Hx. rewrite <-Hx, Ho. left.
Qed.

(** A reply moves from the queue to the wire. *)
Lemma taken_owes now (y : System) i m s' rd w :
  next_outgoing now (sess y) = Ret (Take i m s') → reader_ids rd = reader_ids (reader y) →
  owes (MkSystem s' rd w (decoding y) (held y) (wire y ++ [(i, m)])) ⊆+ owes y.
Proof.
  intros Hn Hrd. destruct (next_takes _ _ _ _ _ Hn) as (Hq & Hi & _).
  pose proof (calm_ids _ _ _ (calm_expire now (sess y))) as C1. simpl in C1.
  rewrite app_nil_r in C1. unfold owes, queued_ids, outside in *. simpl. rewrite Hrd, Hi, fmap_app.
  unfold reply_ids in *. rewrite omap_app. simpl. rewrite Hq in C1. simpl in C1.
  rewrite <-app_assoc. apply submseteq_app; [done|].
  etrans; [|apply submseteq_app; [exact C1|done]]. apply Permutation_submseteq.
  unfold reply_id at 1 3. destruct (out_body m); simpl; rewrite ?app_nil_r; solve_Permutation.
Qed.

(** The writer takes a message. *)
Lemma take_ok side y now i m s' mine got :
  party_ok side y mine got → writer y = WIdle →
  next_outgoing now (sess y) = Ret (Take i m s') →
  let y' := MkSystem s' (reader y) (WSending i m) (decoding y) (held y) (wire y ++ [(i, m)]) in
  reachable side max y' → party_ok side y' mine got.
Proof.
  intros Hok Ew Hn y' Hr. pose proof Hok as [].
  pose proof (session_reachable_inv _ _ _ po_reachable0) as Hy.
  pose proof (sys_ids _ _ (session_reachable_inv _ _ _ Hr)) as Hids.
  unfold y' in Hids. simpl in Hids. rewrite request_ids_snoc in Hids.
  destruct (keeps_take side _ _ _ _ _ _ _ _ (sys_sess _ _ Hy) Hn) as [Hk Hu].
  destruct (calm_expire now (sess y)) as [_ C2 C3 C4 C5 C6 _].
  destruct (next_takes _ _ _ _ _ Hn) as (Hq & Hi & Hop & Hst & Hc & Hb).
  pose proof (taken_owes now y i m s' (reader y) (WSending i m) Hn eq_refl) as Hsub.
  assert (∀ x, x ∈ wire y → x ∈ wire y ++ [(i, m)]) as Hold by (intros; apply elem_of_app; by left).
  split; simpl; try done.
  - rewrite Ew in po_wire0. simpl in po_wire0. rewrite app_nil_r in po_wire0. by apply sublist_app.
  - apply Forall_app. rewrite Forall_singleton. split; [done|]. by eapply taken_entry.
  - apply Forall_app. rewrite Forall_singleton. split; [|done].
    eapply Forall_impl; [exact po_keys0|]. intros x. by apply keeps_unqueued.
  - rewrite !fmap_app. apply NoDup_app. split_and!; [done| |by apply NoDup_singleton].
    intros k Hk1 ->%list_elem_of_singleton. by eapply taken_key.
  - intros m' Hm'. destruct (C3 m') as [?|?]; [rewrite Hq; by right|by apply po_queue0|done].
  - by eapply submseteq_nodup.
  - intros j Hj. apply po_owes0. by eapply elem_of_submseteq.
  - intros j e. rewrite Hi. intros [Hj|Hj]; apply po_asks0; [left; by apply C2|by right].
  - rewrite Hop. intros k op Hk'. destruct (C4 k op Hk') as [?|?]; [by apply po_links0|done].
  - intros j k Hj. destruct m as [[m'|j' r] km]; simpl in Hb.
    + rewrite Hb in Hj. apply lookup_insert_Some in Hj as [[<- <-]|[_ Hj]].
      * exists m'. apply elem_of_app. right. left.
      * destruct (po_sent0 j k (C5 j k Hj)) as [m2 ?]. eauto.
    + destruct Hb as [_ Hb]. rewrite Hb in Hj. destruct (po_sent0 j k (C5 j k Hj)) as [m2 ?]. eauto.
  - intros j e. rewrite Hst. intros Hj. destruct (po_slots0 j e (C6 j e Hj)) as (j' & m2 & ? & ?).
    eauto.
Qed.

Lemma sent_sublist side reached ev w : sent side reached ev w `sublist_of` pending w.
Proof.
  unfold sent. destruct ev; try apply sublist_nil_l. destruct w; try apply sublist_nil_l.
  destruct (_ && _); [done|apply sublist_nil_l].
Qed.

(** The writer's own steps. *)
Lemma writer_ok2 side y ev reached y' mine got :
  party_ok side y mine got → reachable side max y' → keeps (sess y) (sess y') →
  step_writer side max y ev = Some y' →
  party_ok side y' (mine ++ sent side reached ev (writer y)) got.
Proof.
  intros Hok Hr Hk Hs. pose proof Hok as []. revert Hs.
  unfold step_writer. destruct ev; try done; destruct (writer y) eqn:Ew; try done; simpl.
  - rewrite app_nil_r. destruct (next_outgoing now (sess y)) as [[i m s'|s'| |s']| |] eqn:En;
      try done; intros [= <-].
    + by eapply take_ok.
    + assert (s' = expire now (sess y)) as ->.
      { pose proof (inv_next side _ _ _ now _ (sys_sess _ _ (session_reachable_inv _ _ _ po_reachable0)))
          as Hn. by rewrite En in Hn. }
      pose proof (calm_expire now (sess y)).
      eapply (calm_step side y); try done; auto. by eapply calm_outside.
    + eapply (calm_step side y); try done; auto.
    + assert (s' = expire now (sess y)) as ->.
      { pose proof (inv_next side _ _ _ now _ (sys_sess _ _ (session_reachable_inv _ _ _ po_reachable0)))
          as Hn. by rewrite En in Hn. }
      pose proof (calm_expire now (sess y)).
      eapply (calm_step side y); try done; auto. by eapply calm_outside.
  - assert (mine ++ sent side reached (ESent answer now) (WSending id m) `sublist_of` wire y)
      as Hout by (etrans; [|exact po_wire0]; apply sublist_app; [done|apply sent_sublist]).
    set (r := write_result _ _ _ _ _).
    pose proof (calm_forget id m r (sess y)) as Hf.
    assert (∀ e, calm None (sess y) (close side (Protocol.Transport e) now (sess y))) as Hc
      by (intros e; apply calm_close; by left).
    destruct r as [[]|[]]; intros [= <-];
      (eapply (calm_step side y _ _ _ _ None);
       first [done|by auto|by rewrite app_nil_r|apply Hc
             |eapply calm_outside; [first [exact Hf|apply Hc]|done]]).
  - intros [= <-]. pose proof (calm_record_write (key m) r now (sess y)).
    rewrite app_nil_r. eapply (calm_step side y); try done; auto. by eapply calm_outside.
Qed.

(** The application takes a request. *)
Lemma recv_ok side y y' mine got :
  party_ok side y mine got → reachable side max y' → keeps (sess y) (sess y') →
  step_app side y ERecv = Some y' → party_ok side y' mine got.
Proof.
  intros Hok Hr Hk. pose proof Hok as []. simpl.
  destruct (recv_take (sess y)) as [[[[i e]|] s']|] eqn:Er; try done. intros [= <-].
  destruct (recv_takes _ _ _ _ Er) as (Hi & Hq & Hop & Hs & Hst & Hc).
  eapply (calm_step side y _ _ _ _ None); try done; simpl.
  - split; unfold queued_ids; rewrite ?Hq, ?Hop, ?Hs, ?Hst, ?Hi; auto; [|set_solver|].
    + simpl. rewrite app_nil_r. by apply submseteq_cons.
    + intros E. by destruct (Hc _ E).
  - unfold queued_ids, outside. simpl. rewrite Hi, Hq. simpl.
    apply Permutation_submseteq. solve_Permutation.
  - intros j e' [[= -> ->]|?]%elem_of_cons; [left; rewrite Hi; left|by right].
  - intros e' [[=]|?]%elem_of_cons. by left.
Qed.

(** The application takes a result. *)
Lemma wait_ok side y i y' mine got :
  party_ok side y mine got → reachable side max y' → keeps (sess y) (sess y') →
  step_app side y (EWait i) = Some y' → party_ok side y' mine got.
Proof.
  intros Hok Hr Hk. pose proof Hok as []. simpl.
  destruct (take_result i (store (sess y))) as [[r h]|] eqn:Et; [|done].
  assert (calm None (sess y) (set_store h (sess y))) as Hc by (by eapply calm_store, quiet_take).
  assert (∀ e, r = Ok (PResponse e) → has_response (store (sess y)) i e) as Hresp.
  { intros e ->. revert Et. unfold take_result.
    destruct (promises (store (sess y)) !! i) as [p|] eqn:Ep; [|done].
    destruct (slot p) eqn:Es; [|done]. intros [= -> _]. by exists p. }
  destruct r as [[e|]|e]; intros [= <-]; [|by eapply calm_sess_step..].
  eapply (calm_step side y); try done; simpl.
  - intros j e' [[=]|?]%elem_of_cons. by right.
  - intros e' [[= ->]|?]%elem_of_cons; [right; eauto|by left].
Qed.

(** The application decodes what it took. *)
Lemma decode_ok side y n now y' mine got :
  party_ok side y mine got → Forall entry_ok got → reachable side max y' →
  keeps (sess y) (sess y') → step_app side y (EDecode n now) = Some y' →
  party_ok side y' mine got.
Proof.
  intros Hok Hg Hr Hk. pose proof Hok as []. simpl.
  destruct (decoding y !! n) as [[i e]|] eqn:En; [|done]. intros [= <-].
  pose proof (list_elem_of_lookup_2 _ _ _ En) as Hin.
  assert (∃ x, decode side (bytes e) = Ok x) as [x Hx].
  { destruct i as [i|].
    - destruct (is_ask_decodes side got i e Hg) as (? & ? & _ & ?); [by apply po_asks0; right|eauto].
    - destruct (po_answers0 e Hin) as [i Hi].
      destruct (is_reply_decodes side got i e Hg Hi) as (? & ? & _ & ?); eauto. }
  pose proof (calm_decode side e now (sess y) x Hx) as Hc.
  eapply (calm_step side y); try done; simpl.
  - eapply calm_outside; [exact Hc|]. unfold outside. simpl.
    destruct (decoding_take _ _ _ _ En) as [-> _]. apply Permutation_submseteq. solve_Permutation.
  - intros j e' Hj%list_delete_subseteq. by right.
  - intros e' Hj%list_delete_subseteq. by left.
Qed.

(** A responder replies, or is dropped. *)
Lemma responder_ok side y n i s' b mine got :
  party_ok side y mine got → Forall entry_ok got → held y !! n = Some i →
  calm (Some (OutReply i b)) (sess y) s' → sendable 0 b = true →
  let y' := MkSystem s' (reader y) (writer y) (decoding y) (delete n (held y)) (wire y) in
  reachable side max y' → keeps (sess y) s' → party_ok side y' mine got.
Proof.
  intros Hok Hg Hn Hc Hb y' Hr Hk. pose proof Hok as [].
  eapply (calm_step side y); try done; auto; simpl.
  - eapply calm_outside; [exact Hc|]. unfold outside. simpl.
    rewrite (delete_Permutation (held y) n i Hn) at 2. apply Permutation_submseteq. solve_Permutation.
  - intros b' [= <-]. simpl. eapply sendable_range; [done|].
    apply (request_range got); [done|]. apply po_owes0. unfold owes, outside.
    apply list_elem_of_lookup_2 in Hn. set_solver.
Qed.

(** The application's own steps. *)
Lemma app_ok side y ev y' mine got :
  party_ok side y mine got → Forall entry_ok got → proper ev → reachable side max y' →
  keeps (sess y) (sess y') → step_app side y ev = Some y' → party_ok side y' mine got.
Proof.
  intros Hok Hg Hp Hr Hk. destruct ev; try done.
  - by eapply recv_ok.
  - by eapply wait_ok.
  - by eapply decode_ok.
  - intros [= <-]. eapply calm_sess_step; try done; [apply calm_submit|done|].
    by intros b [= <-].
  - simpl. destruct (held y !! n) as [i|] eqn:En; [|done]. intros [= <-].
    eapply responder_ok; try done. apply calm_responder_enqueue.
  - simpl. destruct (held y !! n) as [i|] eqn:En; [|done]. intros [= <-].
    eapply responder_ok; try done; [apply calm_autoreply|done].
  - intros [= <-]. apply (calm_sess_step side y _ mine got None); try done. apply calm_store, quiet_drop_promise.
  - simpl. destruct (notify i callback (store (sess y))) as [h| |] eqn:En; try done.
    intros [= <-]. apply (calm_sess_step side y _ mine got None); try done. by eapply calm_store, quiet_notify.
  - intros [= <-]. apply (calm_sess_step side y _ mine got None); try done. apply calm_close. by left.
  - simpl. destruct (decide (bytes ≤ usize_max)%Z) as [Hb|]; [|done]. intros [= <-].
    apply (calm_sess_step side y _ mine got None); try done. apply calm_set_limits.
  - intros [= <-]. apply (calm_sess_step side y _ mine got None); try done. apply calm_set_autoreply.
  - intros [= <-]. apply (calm_sess_step side y _ mine got None); try done. apply calm_expire.
Qed.

(** A side's own step. *)
Lemma act_ok side y ev reached y' mine got :
  party_ok side y mine got → Forall entry_ok got → proper ev → step side max y ev = Some y' →
  party_ok side y' (mine ++ sent side reached ev (writer y)) got.
Proof.
  intros Hok Hg Hp Hs. pose proof Hok as [].
  assert (reachable side max y') as Hr by (by eapply reachable_step).
  destruct (step_inv _ _ _ _ _ (session_reachable_inv _ _ _ po_reachable0) Hs) as [_ [Hk _]].
  destruct ev; try done;
    first [exact (writer_ok2 side y _ reached y' mine got Hok Hr Hk Hs)
          |rewrite app_nil_r;
           first [exact (reader_ok side y _ y' mine got Hok Hg Hp Hr Hk Hs)
                 |exact (app_ok side y _ y' mine got Hok Hg Hp Hr Hk Hs)]].
Qed.

(** ** Deliveries *)

(** What a delivery leaves alone, and how it can end. *)
Record received_ok (r : result (option Z) Protocol.Error) (s s' : Session) : Prop := MkReceived {
  rc_result : r = Ok None ∨ ∃ e, r = Err e ∧ e ≠ Protocol.Malformed;
  rc_outq : outq s' = outq s;
  rc_ops : ops s' ⊆ ops s;
  rc_outst : outst s' ⊆ outst s;
  rc_state : state s' = Closed Protocol.Malformed → state s = Closed Protocol.Malformed;
}.

Lemma retain_err e limit h err h' : retain e limit h = (Err err, h') → err ≠ Protocol.Malformed.
Proof.
  unfold retain, reserve. destruct (checked_add _ _ _); [case_decide|]; by intros [= <- _].
Qed.

Lemma retain_promises e limit h r h' : retain e limit h = (r, h') → promises h' = promises h.
Proof. unfold retain. destruct (reserve _ _ _); by intros [= _ <-]. Qed.

(** A request of the peer, under an ID not in use. *)
Lemma handle_request side bs h now (s : Session) :
  decode_header side bs = Ret (Ok h) → from_id (id h) (parity side) = Request →
  failed h = false → unknown h = false → state s ≠ Closed Protocol.Malformed →
  (∀ o, state s = Open o → id h ∉ reserved_ids o) →
  ∃ r s', handle_locked side bs now s = Ret (r, s') ∧ received_ok r s s'
    ∧ promises (store s') = promises (store s)
    ∧ (inc s' = inc s ∨ inc s' = inc s ++ [(id h, MkIncoming bs h)]).
Proof.
  intros Hh Hk Hf Hu Hne Hid. unfold handle_locked. rewrite Hh, Hk, Hf, Hu.
  unfold admit_request. destruct (state s) as [o|e] eqn:Es.
  2:{ eexists _, s. split; [done|]. split; [|by auto]. split; try done. right. eexists.
      split; [done|congruence]. }
  rewrite decide_False by auto. case_decide.
  { eexists _, s. split; [done|]. split; [|by auto]. split; try done. right. by eexists. }
  rewrite Hu. destruct (retain _ _ _) as [[e|err] h'] eqn:Er;
    pose proof (retain_promises _ _ _ _ _ Er) as Hp.
  - assert (e = MkIncoming bs h) as -> by (revert Er; unfold retain; destruct (reserve _ _ _); congruence).
    eexists _, _. split; [done|]. split; [|split; [done|]].
    + split; unfold outq, ops, outst; rewrite ?Es; by auto.
    + right. unfold inc. by rewrite Es.
  - eexists _, _. split; [done|]. split; [|split; [done|]].
    + split; try done. right. eexists. split; [done|by eapply retain_err].
    + by left.
Qed.

(** How an answer ends. *)
Lemma completed_slots op now e limit h r h' :
  complete_response op now e limit h = Ret (r, h') →
  (r = Ok tt ∨ ∃ err, r = Err err ∧ err ≠ Protocol.Malformed)
  ∧ ∀ j e', has_response h' j e' → has_response h j e' ∨ j = promise (sender op) ∧ e' = e.
Proof.
  unfold complete_response. case_decide.
  { intros [= <- <-]. split; [by left|]. intros j e' Hj. left. by eapply quiet_fail. }
  destruct (negb _); [done|]. destruct (retain e limit h) as [[e1|err] h1] eqn:Er;
    pose proof (retain_promises _ _ _ _ _ Er) as Hp.
  - assert (e1 = e) as -> by (revert Er; unfold retain; destruct (reserve _ _ _); congruence).
    intros [= <- <-]. split; [by left|]. intros j e' (p & Hj & Hs).
    rewrite (send_result_promises (sender op) (Ok (PResponse e)) h1) in Hj. rewrite Hp in Hj.
    destruct (promises h !! promise (sender op)) as [q|] eqn:Eq; [|left; by exists p].
    apply lookup_insert_Some in Hj as [[<- <-]|[_ Hj]]; [|left; by exists p].
    destruct (gone q); simpl in Hs; [left; by exists q|right]. split; congruence.
  - pose proof (quiet_send (sender op) (Err err) h1) as Hq.
    destruct (send_result _ _ h1) as [[] h2]; intros [= <- <-]; simpl in Hq.
    + split; [right; eexists; split; [done|by eapply retain_err]|].
      intros j e' Hj. left. eapply quiet_promises; [exact Hp|]. by apply Hq.
    + split; [by left|]. intros j e' Hj. left. eapply quiet_promises; [exact Hp|]. by apply Hq.
Qed.

(** A reply of the peer. *)
Lemma handle_reply side bs h now (s : Session) ext c taken :
  inv side ext c taken s →
  decode_header side bs = Ret (Ok h) → from_id (id h) (parity side) = Response →
  state s ≠ Closed Protocol.Malformed →
  ∃ r s', handle_locked side bs now s = Ret (r, s') ∧ received_ok r s s' ∧ inc s' = inc s
    ∧ ∀ j e, has_response (store s') j e → has_response (store s) j e
        ∨ ∃ k op, outst s !! id h = Some k ∧ ops s !! k = Some op
            ∧ j = promise (sender op) ∧ e = MkIncoming bs h.
Proof.
  intros Hi Hh Hk Hne. destruct (inv_route side ext c taken h bs now s Hi) as (r & s' & Hr & _ & _).
  unfold handle_locked. rewrite Hh, Hk, Hr. revert Hr. unfold route_response.
  destruct (state s) as [o|e] eqn:Es.
  2:{ intros [= <- <-]. eexists _, s. split; [done|]. split; [|by auto]. split; try done.
      right. eexists. split; [done|congruence]. }
  destruct (outstanding o !! id h) as [k|] eqn:Ek.
  2:{ intros [= <- <-]. eexists _, s. split; [done|]. split; [|by auto]. split; auto. }
  destruct (operations o !! k) as [op|] eqn:Eop.
  - destruct (complete_response op now _ _ (store s)) as [[r0 h']| |] eqn:Ec; try done.
    intros [= <- <-]. destruct (completed_slots _ _ _ _ _ _ _ Ec) as [Hres Hsl].
    destruct Hres as [->|(err & -> & Herr)]; eexists _, _; (split; [done|]);
      (split; [|split; [unfold inc; by rewrite Es|]]).
    all: try (intros j e Hj; destruct (Hsl j e Hj) as [?|[-> ->]]; [by left|right];
      exists k, op; unfold outst, ops; by rewrite Es).
    all: split; unfold outq, ops, outst; rewrite ?Es; simpl;
      first [by auto|by right; eexists|apply delete_subseteq].
  - intros [= <- <-]. eexists _, _. split; [done|].
    split; [|split; [unfold inc; by rewrite Es|by auto]].
    split; unfold outq, ops, outst; rewrite ?Es; simpl; first [by auto|apply delete_subseteq].
Qed.

Lemma request_ids_app (l k : list Entry) : request_ids (l ++ k) = request_ids l ++ request_ids k.
Proof. apply omap_app. Qed.

Lemma is_ask_app side got l i e : is_ask side got i e → is_ask side (got ++ l) i e.
Proof. intros (m & k & Hin & ?). exists m, k. split; [|done]. apply elem_of_app. by left. Qed.

Lemma is_reply_app side got l i e : is_reply side got i e → is_reply side (got ++ l) i e.
Proof. intros (r & k & Hin & ?). exists r, k. split; [|done]. apply elem_of_app. by left. Qed.

(** The IDs a delivery adds. *)
Lemma receive_owes side y r s' rd got x :
  reader y = RReading → rd = match r with Ok _ => RReading | Err e => RClosing e end →
  received_ok r (sess y) s' →
  (inc s' = inc (sess y)
   ∨ ∃ i e, inc s' = inc (sess y) ++ [(i, e)] ∧ is_ask side (got ++ [x]) i e
       ∧ i ∉ request_ids got) →
  let y' := MkSystem s' rd (writer y) (decoding y) (held y) (wire y) in
  owes y' ≡ₚ owes y
  ∨ ∃ i e, owes y' ≡ₚ i :: owes y ∧ is_ask side (got ++ [x]) i e ∧ i ∉ request_ids got.
Proof.
  intros Er -> [Hr Hq _ _ _] Hinc y'.
  assert (outside y' = outside y) as Ho
    by (unfold outside; simpl; rewrite Er; by destruct Hr as [->|(? & -> & _)]).
  unfold owes, queued_ids. rewrite Ho. simpl. rewrite Hq.
  destruct Hinc as [->|(i & e & -> & Ha & Hi)]; [by left|right]. exists i, e.
  split; [|done]. rewrite fmap_app. simpl. solve_Permutation.
Qed.

(** The delivery of [x] to a party. *)
Lemma receive_step side y r s' rd mine got x :
  party_ok side y mine got → reader y = RReading →
  rd = match r with Ok _ => RReading | Err e => RClosing e end →
  received_ok r (sess y) s' →
  let y' := MkSystem s' rd (writer y) (decoding y) (held y) (wire y) in
  reachable side max y' → keeps (sess y) s' →
  (inc s' = inc (sess y)
   ∨ ∃ i e, inc s' = inc (sess y) ++ [(i, e)] ∧ is_ask side (got ++ [x]) i e
       ∧ i ∉ request_ids got) →
  (∀ j e, has_response (store s') j e → has_response (store (sess y)) j e
     ∨ ∃ i m, (i, MkOutgoing (OutRequest m) (S j)) ∈ wire y ∧ is_reply side (got ++ [x]) i e) →
  party_ok side y' mine (got ++ [x]).
Proof.
  intros Hok Er Erd Hrc y' Hre Hk Hinc Hsl. pose proof Hok as [].
  pose proof (receive_owes side y r s' rd got x Er Erd Hrc Hinc) as Howes.
  destruct Hrc as [Hr Hq Hop Hou Hst]. subst rd. fold y' in Howes.
  pose proof (is_ask_app side got [x]) as Hm1. pose proof (is_reply_app side got [x]) as Hm2.
  split; simpl; try done.
  - eapply Forall_impl; [exact po_keys0|]. intros z. by apply keeps_unqueued.
  - rewrite Hq. done.
  - destruct Howes as [->|(i & e & -> & _ & Hi)]; [done|]. constructor; auto.
  - intros j. rewrite request_ids_app, elem_of_app.
    destruct Howes as [->|(i & e & -> & (m & k & Ha & _) & _)]; [by left; auto|].
    intros [->|Hj]%elem_of_cons; [|by left; auto]. rewrite <-elem_of_app, <-request_ids_app.
    apply elem_of_request_ids. by exists m, k.
  - intros i e [Hi|Hi]; [|auto]. destruct Hinc as [E|(i' & e' & E & Ha & _)]; rewrite E in Hi; [auto|].
    apply elem_of_app in Hi as [?|Hi]; [auto|].
    apply list_elem_of_singleton in Hi as [= -> ->]. done.
  - intros k op Hk'. apply po_links0. by eapply lookup_weaken.
  - intros i k Hi. apply po_sent0. by eapply lookup_weaken.
  - intros j e Hj. destruct (Hsl j e Hj) as [Hj'|?]; [|done].
    destruct (po_slots0 j e Hj') as (i & m & ? & ?). eauto.
  - intros e He. destruct (po_answers0 e He) as [i ?]. eauto.
  - destruct Hr as [->|(e & -> & He)]; [done|congruence].
  - auto.
Qed.

(** The reader's step on a message it handled. *)
Lemma handled_step side y bs now r s' y' :
  reader y = RReading → handle_locked side bs now (sess y) = Ret (r, s') →
  received_ok r (sess y) s' → step side max y (EMessage bs now) = Some y' →
  y' = MkSystem s' (match r with Ok _ => RReading | Err e => RClosing e end)
         (writer y) (decoding y) (held y) (wire y).
Proof.
  intros Er Hh [Hr _ _ _ _] Hs. simpl in Hs. rewrite Er, Hh in Hs.
  destruct Hr as [->|(e & -> & _)]; congruence.
Qed.

(** A request of the peer under an ID it has not used before. *)
Lemma deliver_request side y mine got i m k bs now y' :
  party_ok side y mine got → entry_ok (i, MkOutgoing (OutRequest m) k) →
  i ∉ request_ids got → parity_of i = parity (peer side) →
  encode max (peer side) i (Ok m) = Ok bs →
  reader y = RReading → reachable side max y' → keeps (sess y) (sess y') →
  step side max y (EMessage bs now) = Some y' →
  party_ok side y' mine (got ++ [(i, MkOutgoing (OutRequest m) k)]).
Proof.
  intros Hok Hent Hi Hpar Henc Er Hr Hk Hs. pose proof Hok as [].
  destruct (entry_decodes side i _ bs Hmax Hent Henc) as (_ & name & Hh).
  pose proof (from_id_peer (peer side) i Hpar) as Hf.
  replace (peer (peer side)) with side in Hf by (by destruct side).
  destruct (handle_request side bs _ now (sess y) Hh Hf eq_refl eq_refl po_state0)
    as (r & s' & Hhl & Hrc & Hp & Hinc).
  { intros o Eo Hres. apply Hi, po_owes0.
    destruct (sys_sess _ _ (session_reachable_inv _ _ _ po_reachable0)) as [_ Hst].
    rewrite Eo in Hst. destruct Hst as ([_ Hids _] & _). apply Hids in Hres.
    unfold obligations, owes, queued_ids, inc, outq in *. rewrite Eo. simpl in Hres.
    rewrite !elem_of_app in *. tauto. }
  pose proof (handled_step _ _ _ _ _ _ _ Er Hhl Hrc Hs) as ->. eapply receive_step; try done.
  - destruct Hinc as [?|Hinc]; [by left|right]. eexists i, _. split; [exact Hinc|].
    split; [|done]. exists m, k. split; [|done]. apply elem_of_app. right. left.
  - intros j e Hj. left. by eapply quiet_promises.
Qed.

(** A reply of the peer. *)
Lemma deliver_reply side y mine got i r k bs now y' :
  party_ok side y mine got → entry_ok (i, MkOutgoing (OutReply i r) k) →
  parity_of i = parity side → encode max (peer side) i r = Ok bs →
  reader y = RReading → reachable side max y' → keeps (sess y) (sess y') →
  step side max y (EMessage bs now) = Some y' →
  party_ok side y' mine (got ++ [(i, MkOutgoing (OutReply i r) k)]).
Proof.
  intros Hok Hent Hpar Henc Er Hr Hk Hs. pose proof Hok as [].
  destruct (entry_decodes side i _ bs Hmax Hent Henc) as (_ & name & Hh).
  destruct (handle_reply side bs _ now (sess y) _ _ _
    (sys_sess _ _ (session_reachable_inv _ _ _ po_reachable0)) Hh
    (from_id_own side i Hpar) po_state0) as (res & s' & Hhl & Hrc & Hinc & Hsl).
  pose proof (handled_step _ _ _ _ _ _ _ Er Hhl Hrc Hs) as ->.
  eapply receive_step; try done; [by left|].
  intros j e Hj. destruct (Hsl j e Hj) as [?|(k' & op & Ho & Hop & -> & ->)]; [by left|right].
  simpl in Ho. destruct (po_sent0 i k' Ho) as [m' Hm']. exists i, m'.
  rewrite <-(po_links0 k' op Hop). split; [done|]. exists r, k. split; [|done].
  apply elem_of_app. right. left.
Qed.

(** A delivery of the peer's oldest message. *)
Lemma deliver_ok side y mine got i m bs now y' :
  party_ok side y mine got → Forall entry_ok (got ++ [(i, m)]) →
  NoDup (request_ids (got ++ [(i, m)])) →
  parity_of i = parity (if is_request m then peer side else side) →
  encode max (peer side) i (body_sent m) = Ok bs →
  step side max y (EMessage bs now) = Some y' → party_ok side y' mine (got ++ [(i, m)]).
Proof.
  intros Hok Hg Hnd Hpar Henc Hs. pose proof Hok as [].
  assert (reachable side max y') as Hr by (by eapply reachable_step).
  destruct (step_inv _ _ _ _ _ (session_reachable_inv _ _ _ po_reachable0) Hs) as [_ [Hk _]].
  assert (reader y = RReading) as Er by (simpl in Hs; by destruct (reader y)).
  assert (entry_ok (i, m)) as Hent by (rewrite Forall_app, Forall_singleton in Hg; by destruct Hg).
  unfold is_request, body_sent in *. destruct m as [[m|j r] k]; simpl in Henc, Hpar.
  - eapply deliver_request; try done.
    rewrite request_ids_app in Hnd. apply NoDup_app in Hnd as (_ & Hd & _). intros Hi.
    apply (Hd i Hi). by apply list_elem_of_singleton.
  - pose proof Hent as [E _]. simpl in E. subst j. by eapply deliver_reply.
Qed.

(** ** The conversation *)

Definition conversation_ok (c : Conversation) : Prop :=
  ∀ side, party_ok side (party c side) (seen c side ++ flight c side) (seen c (peer side)).

Lemma at_side_eq {A} side (a : A) f : at_side side a f side = a.
Proof. unfold at_side. by rewrite decide_True. Qed.

Lemma at_side_ne {A} side side' (a : A) f : side' ≠ side → at_side side a f side' = f side'.
Proof. intros. unfold at_side. by rewrite decide_False. Qed.

Lemma peer_ne side : peer side ≠ side.
Proof. by destruct side. Qed.

Lemma peer_peer side : peer (peer side) = side.
Proof. by destruct side. Qed.

Lemma side_cases side side' : side' = side ∨ side' = peer side.
Proof. destruct side, side'; by (left + right). Qed.

(** What a party sent is on its wire. *)
Lemma mine_sublist side y mine got : party_ok side y mine got → mine `sublist_of` wire y.
Proof. intros []. etrans; [|exact po_wire0]. by apply sublist_inserts_r. Qed.

Lemma mine_entries side y mine got : party_ok side y mine got → Forall entry_ok mine.
Proof.
  intros Hok. pose proof (mine_sublist _ _ _ _ Hok) as Hs. destruct Hok.
  apply Forall_forall. intros x Hx. rewrite Forall_forall in po_entries0.
  apply po_entries0. by eapply elem_of_sublist.
Qed.

Lemma request_ids_sublist (l k : list Entry) :
  l `sublist_of` k → request_ids l `sublist_of` request_ids k.
Proof.
  unfold request_ids. induction 1 as [|[i m] l k _ IH|[i m] l k _ IH]; simpl; [done|..];
    destruct (is_request m); by try constructor.
Qed.

Lemma wire_requests side y mine got :
  party_ok side y mine got →
  NoDup (request_ids (wire y)) ∧ ∀ i, i ∈ request_ids (wire y) → parity_of i = parity side.
Proof.
  intros []. pose proof (session_reachable_inv _ _ _ po_reachable0) as [_ _ [Hall Hs]].
  split; [by apply sorted_nodup|]. rewrite Forall_forall in Hall. naive_solver.
Qed.

Lemma mine_nodup side y mine got : party_ok side y mine got → NoDup (request_ids mine).
Proof.
  intros Hok. destruct (wire_requests _ _ _ _ Hok) as [Hnd _].
  eapply sublist_NoDup; [done|]. by eapply request_ids_sublist, mine_sublist.
Qed.

Lemma reply_on_wire (y : System) i j r k :
  (i, MkOutgoing (OutReply j r) k) ∈ wire y → j ∈ owes y.
Proof.
  intros Hin. unfold owes. apply elem_of_app. left. unfold reply_ids.
  apply list_elem_of_omap. exists (MkOutgoing (OutReply j r) k). split; [|done].
  apply list_elem_of_fmap.
  by eexists (i, MkOutgoing (OutReply j r) k).
Qed.

(** The peer classifies the message right. *)
Lemma delivered_parity c side i m rest :
  conversation_ok c → flight c side = (i, m) :: rest →
  parity_of i = parity (if is_request m then side else peer side).
Proof.
  intros Hc Hf. pose proof (Hc side) as Hok. pose proof (Hc (peer side)) as Hok'.
  destruct (wire_requests _ _ _ _ Hok) as [_ Hpar]. destruct (wire_requests _ _ _ _ Hok') as [_ Hpar'].
  pose proof (mine_sublist _ _ _ _ Hok) as Hs. pose proof (mine_sublist _ _ _ _ Hok') as Hs'.
  assert ((i, m) ∈ wire (party c side)) as Hin.
  { eapply elem_of_sublist; [|exact Hs]. rewrite Hf. set_solver. }
  destruct Hok. rewrite Forall_forall in po_entries0. destruct (po_entries0 _ Hin) as [Hj _].
  unfold is_request. destruct m as [[m|j r] k]; simpl in *.
  - apply Hpar, elem_of_request_ids. eauto.
  - subst j. apply Hpar'. eapply elem_of_sublist; [|eapply request_ids_sublist; exact Hs'].
    rewrite request_ids_app. apply elem_of_app. left. by eapply po_owes0, reply_on_wire.
Qed.

Lemma step2_ok c c' : conversation_ok c → step2 c c' → conversation_ok c'.
Proof.
  intros Hc Hs. destruct Hs as [c side ev reached y' Hp Hs|c side i m rest bs now y' Hf Henc Hs].
  - intros side'. destruct (side_cases side side') as [->| ->]; simpl.
    + rewrite !at_side_eq, app_assoc. apply act_ok with (ev := ev); try done.
      pose proof (mine_entries _ _ _ _ (Hc (peer side))) as Hm. by apply Forall_app in Hm as [? _].
    + rewrite !at_side_ne by apply peer_ne. apply Hc.
  - pose proof (delivered_parity c side i m rest Hc Hf) as Hpar.
    pose proof (mine_entries _ _ _ _ (Hc side)) as Hm. pose proof (mine_nodup _ _ _ _ (Hc side)) as Hn.
    rewrite Hf, (cons_middle (i, m)), app_assoc in Hm, Hn.
    intros side'. destruct (side_cases side side') as [->| ->]; simpl.
    + rewrite !at_side_eq, !at_side_ne by (intros E; symmetry in E; by destruct (peer_ne side)).
      rewrite <-app_assoc. simpl. rewrite <-Hf. apply Hc.
    + rewrite !at_side_eq, peer_peer, at_side_eq, !at_side_ne by apply peer_ne.
      pose proof (Hc (peer side)) as Hok. rewrite peer_peer in Hok.
      eapply deliver_ok; rewrite ?peer_peer; try done.
      * by apply Forall_app in Hm as [? _].
      * rewrite request_ids_app in Hn. by apply NoDup_app in Hn as [? _].
Qed.

Lemma started_ok : conversation_ok started.
Proof.
  intros side. split; simpl; try done; try by constructor.
  - intros m Hm. unfold outq in Hm. simpl in Hm. set_solver.
  - intros i e [Hi|Hi]; [unfold inc in Hi; simpl in Hi|]; set_solver.
  - by intros j e (p & Hp & _).
  - set_solver.
Qed.

Lemma reachable2_ok c : reachable2 c → conversation_ok c.
Proof. induction 1; [apply started_ok|by eapply step2_ok]. Qed.

(** ** Uniqueness *)

Lemma nodup_omap_inj {A B} (f : A → option B) (l : list A) x y b :
  NoDup (omap f l) → x ∈ l → y ∈ l → f x = Some b → f y = Some b → x = y.
Proof.
  induction l as [|z l IH]; [set_solver|]. simpl. intros Hnd Hx Hy Ex Ey.
  apply elem_of_cons in Hx as [->|Hx], Hy as [->|Hy]; [done|..].
  - rewrite Ex in Hnd. apply NoDup_cons in Hnd as [Hb _]. destruct Hb.
    apply list_elem_of_omap. eauto.
  - rewrite Ey in Hnd. apply NoDup_cons in Hnd as [Hb _]. destruct Hb.
    apply list_elem_of_omap. eauto.
  - apply IH; try done. destruct (f z); [|done]. by apply NoDup_cons in Hnd as [_ ?].
Qed.

(** On a party's wire an ID has at most one request and at most one reply, and a key one
    message. *)
Lemma wire_unique side y mine got :
  party_ok side y mine got →
  (∀ i m m' k k', (i, MkOutgoing (OutRequest m) k) ∈ wire y →
     (i, MkOutgoing (OutRequest m') k') ∈ wire y → m = m' ∧ k = k')
  ∧ (∀ i r r' k k', (i, MkOutgoing (OutReply i r) k) ∈ wire y →
     (i, MkOutgoing (OutReply i r') k') ∈ wire y → r = r' ∧ k = k')
  ∧ (∀ i i' b b' k, (i, MkOutgoing b k) ∈ wire y → (i', MkOutgoing b' k) ∈ wire y → i = i' ∧ b = b').
Proof.
  intros Hok. destruct (wire_requests _ _ _ _ Hok) as [Hnd _]. destruct Hok. split_and!.
  - intros i m m' k k' H1 H2.
    assert ((i, MkOutgoing (OutRequest m) k) = (i, MkOutgoing (OutRequest m') k')) as E
      by (by eapply nodup_omap_inj).
    by injection E as -> ->.
  - intros i r r' k k' H1 H2. unfold owes, reply_ids in po_nodup0.
    apply NoDup_app in po_nodup0 as [Hr _].
    assert (MkOutgoing (OutReply i r) k = MkOutgoing (OutReply i r') k') as E.
    { eapply nodup_omap_inj; [exact Hr|apply list_elem_of_fmap; by eexists (_, _)..|done|done]. }
    by injection E as -> ->.
  - intros i i' b b' k H1 H2. rewrite <-list_fmap_compose in po_keys_nodup0.
    rewrite list_fmap_alt in po_keys_nodup0.
    assert ((i, MkOutgoing b k) = (i', MkOutgoing b' k)) as E
      by (eapply nodup_omap_inj; [exact po_keys_nodup0|exact H1|exact H2|done|done]).
    by injection E as -> ->.
Qed.

(** A request in time is queued under the key that follows its promise. *)
Lemma request_key m dl now j (s s' : Session) o :
  request m dl now s = (Ok j, s') → state s = Open o → (now < dl)%Z →
  MkOutgoing (OutRequest m) (S j) ∈ outq s'.
Proof.
  unfold request, submit, pair, enqueue, outq. simpl. intros E Es Hdl. rewrite Es in E.
  rewrite decide_False in E by (simpl; lia). injection E as <- <-. simpl. set_solver.
Qed.

(** An answered request reached the peer. *)
Lemma answered_request_seen c side i m k r k' :
  conversation_ok c → (i, MkOutgoing (OutRequest m) k) ∈ wire (party c side) →
  (i, MkOutgoing (OutReply i r) k') ∈ wire (party c (peer side)) →
  (i, MkOutgoing (OutRequest m) k) ∈ seen c side.
Proof.
  intros Hc Hm Hr%reply_on_wire. pose proof (Hc side) as Hok.
  apply (po_owes _ _ _ _ (Hc (peer side))), elem_of_request_ids in Hr as (m' & k2 & Hin).
  rewrite peer_peer in Hin. destruct (wire_unique _ _ _ _ Hok) as (Hu & _ & _).
  assert ((i, MkOutgoing (OutRequest m') k2) ∈ wire (party c side)) as Hw
    by (eapply elem_of_sublist; [|exact (mine_sublist _ _ _ _ Hok)]; set_solver).
  by destruct (Hu _ _ _ _ _ Hm Hw) as [-> ->].
Qed.

(** A request still with the application has no reply on the wire. *)
Lemma unanswered_not_on_wire side y mine got i e r k :
  party_ok side y mine got → (i, e) ∈ inc (sess y) ∨ (Some i, e) ∈ decoding y →
  (i, MkOutgoing (OutReply i r) k) ∈ wire y → False.
Proof.
  intros [] Hi Hr. unfold owes in po_nodup0. apply NoDup_app in po_nodup0 as (_ & Hd & _).
  apply (Hd i).
  - unfold reply_ids. apply list_elem_of_omap. exists (MkOutgoing (OutReply i r) k). split; [|done].
    apply list_elem_of_fmap. by eexists (_, _).
  - unfold queued_ids, outside. destruct Hi as [Hi|Hi].
    + do 2 (apply elem_of_app; left). apply list_elem_of_fmap. by exists (i, e).
    + apply elem_of_app. right. apply elem_of_app. left. apply list_elem_of_omap. by exists (Some i, e).
Qed.
End steps.
End conversation.

(** ** Claims *)

Section claims.
Context {Payload : Variant → Type} `{Prost Payload, !ProstLaws Payload} (max : nat).
Context (Hmax : (Z.of_nat max ≤ usize_max)%Z).

(** C6: Honest parties understand each other. However the threads of both sides
    interleave, and whatever values of their types the applications send, no session
    ends because the peer broke the protocol: neither is closed as malformed nor about
    to be, and everything the application takes, a request or an answer, decodes. *)
Theorem honest_never_malformed (c : Conversation (Payload:=Payload)) (side : Side) :
  reachable2 max c →
  state (sess (party c side)) ≠ Closed Protocol.Malformed
  ∧ reader (party c side) ≠ RClosing Protocol.Malformed
  ∧ ∀ i e, (i, e) ∈ decoding (party c side) →
      ∃ x, decode side (bytes e) = Ok x
        ∧ match i with Some i => ∃ m, x = (i, Ok m) | None => True end.
Proof.
  intros Hr. pose proof (reachable2_ok max Hmax c Hr) as Hc.
  pose proof (mine_entries _ _ _ _ _ (Hc (peer side))) as [Hg _]%Forall_app.
  destruct (Hc side). split_and!; [done|done|]. intros [i|] e Hin.
  - destruct (is_ask_decodes max Hmax side _ i e Hg) as (m & k & _ & Hd);
      [by apply po_asks0; right|]. eexists. split; [exact Hd|eauto].
  - destruct (po_answers0 e Hin) as [i Hi].
    destruct (is_reply_decodes max Hmax side _ i e Hg Hi) as (r & k & _ & Hd). eauto.
Qed.

(** C5: Every answer is the answer to its request. When the promise [j] of one side holds
    a response, there is exactly one request made under that promise, it was sent and
    reached the peer under an ID [i], the peer sent exactly one reply under [i], and the
    response decodes to that reply. And a request the application of either side
    takes under an ID is the one request its peer sent under it, not yet answered. *)
Theorem answers_match_requests (c : Conversation (Payload:=Payload)) (side : Side) :
  reachable2 max c →
  (∀ j e, has_response (store (sess (party c side))) j e →
     ∃ i m r k,
       (i, MkOutgoing (OutRequest m) (S j)) ∈ seen c side
       ∧ (i, MkOutgoing (OutReply i r) k) ∈ seen c (peer side)
       ∧ decode side (bytes e) = Ok (i, r)
       ∧ (∀ i' b, (i', MkOutgoing b (S j)) ∈ wire (party c side) → i' = i ∧ b = OutRequest m)
       ∧ (∀ r' k', (i, MkOutgoing (OutReply i r') k') ∈ wire (party c (peer side)) →
            r' = r ∧ k' = k))
  ∧ (∀ i e, (i, e) ∈ inc (sess (party c side)) ∨ (Some i, e) ∈ decoding (party c side) →
     ∃ m k,
       (i, MkOutgoing (OutRequest m) k) ∈ seen c (peer side)
       ∧ decode side (bytes e) = Ok (i, Ok m)
       ∧ (∀ m' k', (i, MkOutgoing (OutRequest m') k') ∈ wire (party c (peer side)) →
            m' = m ∧ k' = k)
       ∧ (∀ r k', (i, MkOutgoing (OutReply i r) k') ∉ wire (party c side))).
Proof.
  intros Hr. pose proof (reachable2_ok max Hmax c Hr) as Hc. pose proof (Hc side) as Hok.
  pose proof (Hc (peer side)) as Hok'.
  pose proof (mine_entries _ _ _ _ _ Hok') as [Hg _]%Forall_app.
  destruct (wire_unique max Hmax _ _ _ _ Hok) as (_ & _ & Hkey).
  destruct (wire_unique max Hmax _ _ _ _ Hok') as (Hask & Hrep & _).
  assert (∀ x, x ∈ seen c (peer side) → x ∈ wire (party c (peer side))) as Hseen.
  { intros x Hx. eapply elem_of_sublist; [|exact (mine_sublist _ _ _ _ _ Hok')]. set_solver. }
  split.
  - intros j e Hj. destruct (po_slots _ _ _ _ _ Hok j e Hj) as (i & m & Hm & Hi).
    destruct (is_reply_decodes max Hmax side _ i e Hg Hi) as (r & k & Hin & Hd).
    exists i, m, r, k. split_and!; try done.
    + by eapply (answered_request_seen max Hmax); [| |apply Hseen].
    + intros i' b Hb. by destruct (Hkey _ _ _ _ _ Hb Hm) as [-> ->].
    + intros r' k' Hr'. by destruct (Hrep _ _ _ _ _ Hr' (Hseen _ Hin)) as [-> ->].
  - intros i e Hi. destruct (is_ask_decodes max Hmax side _ i e Hg (po_asks _ _ _ _ _ Hok i e Hi))
      as (m & k & Hin & Hd).
    exists m, k. split_and!; try done.
    + intros m' k' Hm'. by destruct (Hask _ _ _ _ _ Hm' (Hseen _ Hin)) as [-> ->].
    + intros r k' Hr'. exact (unanswered_not_on_wire max _ _ _ _ i e r k' Hok Hi Hr').
Qed.
End claims.

(** ** A concrete conversation *)

(** The client asks for the device's information; the server's application takes the
    request and answers it. *)
Definition question : Message Plain.Payload :=
  MkMessage (Payload:=Plain.Payload) VDeviceInfoRequest tt.

Definition answer : Message Plain.Payload :=
  MkMessage (Payload:=Plain.Payload) VDeviceInfoResponse tt.

Definition exchange : list (Move (Payload:=Plain.Payload)) :=
  [Act Client (ERequest question 100 1) false; Act Client (ETake 2) false;
   Act Client (ESent (Ok tt) 3) false; Deliver Client 4; Act Client (ERecord 5) false;
   Act Server ERecv false; Act Server (EDecode 0 6) false;
   Act Server (ERespond 0 (Ok answer) 200 7) false; Act Server (ETake 8) false;
   Act Server (ESent (Ok tt) 9) false; Deliver Server 10].

Definition exchanged : Conversation (Payload:=Plain.Payload) :=
  default started (moves 1000 started exchange).

Lemma exchanged_reachable : reachable2 1000 exchanged.
Proof.
  assert (bool_decide (is_Some (moves 1000 started exchange)) = true)
    as [c Hc]%bool_decide_eq_true by (vm_compute; reflexivity).
  unfold exchanged. rewrite Hc. eapply moves_reachable; [apply reachable2_started|exact Hc].
Qed.

(** The client's promise holds the answer. *)
Example exchange_answered :
  match Session.wait_response Client 0 11 11 (sess (party exchanged Client)) with
  | Some (Ret (r, _)) => r = Ok answer
  | _ => False
  end.
Proof. vm_compute. reflexivity. Qed.

Lemma honest_never_malformed_witness :
  state (sess (party exchanged Client)) ≠ Closed Protocol.Malformed
  ∧ reader (party exchanged Client) ≠ RClosing Protocol.Malformed
  ∧ ∀ i e, (i, e) ∈ decoding (party exchanged Client) →
      ∃ x, decode (Payload:=Plain.Payload) Client (bytes e) = Ok x
        ∧ match i with Some i => ∃ m, x = (i, Ok m) | None => True end.
Proof.
  apply (honest_never_malformed 1000); [vm_compute; discriminate|exact exchanged_reachable].
Defined.

Lemma answers_match_requests_witness :
  (∀ j e, has_response (store (sess (party exchanged Client))) j e →
     ∃ i m r k,
       (i, MkOutgoing (OutRequest m) (S j)) ∈ seen exchanged Client
       ∧ (i, MkOutgoing (OutReply i r) k) ∈ seen exchanged Server
       ∧ decode Client (bytes e) = Ok (i, r)
       ∧ (∀ i' b, (i', MkOutgoing b (S j)) ∈ wire (party exchanged Client) →
            i' = i ∧ b = OutRequest m)
       ∧ (∀ r' k', (i, MkOutgoing (OutReply i r') k') ∈ wire (party exchanged Server) →
            r' = r ∧ k' = k))
  ∧ (∀ i e, (i, e) ∈ inc (sess (party exchanged Client))
       ∨ (Some i, e) ∈ decoding (party exchanged Client) →
     ∃ m k,
       (i, MkOutgoing (OutRequest m) k) ∈ seen exchanged Server
       ∧ decode Client (bytes e) = Ok (i, Ok m)
       ∧ (∀ m' k', (i, MkOutgoing (OutRequest m') k') ∈ wire (party exchanged Server) →
            m' = m ∧ k' = k)
       ∧ (∀ r k', (i, MkOutgoing (OutReply i r) k') ∉ wire (party exchanged Client))).
Proof.
  apply (answers_match_requests 1000); [vm_compute; discriminate|exact exchanged_reachable].
Defined.
End Conversation.
