(* ===== verification/ProtocolServer.v ===== *)
(** * The protocol server ([protocol/server.rs])

    One stream, successive sessions: attaching what the reader connects,
    accepting it, policy, and closing from any thread. The server is stated over
    what a session promises it, an interface that [Session] implements. *)

From stdpp Require Import relations.
From S2P Require Import Prelude Io Message Envelope Promise Session SessionInv SessionPass SessionMachine.

(** ** Sessions, as the server uses them *)

(** Inbound limits and the autoreply timeout. *)
Record Policy := MkPolicy { requests : Z; bytes_limit : Z; autoreply : Duration }.

(** A session's operations; [s_reason] is why it is closed, [s_policy] the policy
    of an open one, [s_runs] what its workers and handles may do to it. *)
Class Sessions (S : Type) := {
  s_new : S;
  s_close : Protocol.Error → Instant → S → S;
  s_limits : Z → Z → Instant → S → S;
  s_autoreply : Duration → S → S;
  s_handle : list byte → Instant → Instant → S → outcome (result unit Protocol.Error * S);
  s_reason : S → option Protocol.Error;
  s_policy : S → option Policy;
  s_runs : S → S → Prop;
}.

Class SessionsLaws (S : Type) `{Sessions S} : Prop := {
  new_open : s_reason s_new = None;
  close_reason e now s : s_reason (s_close e now s) = Some (default e (s_reason s));
  policy_open s : s_policy s = None ↔ is_Some (s_reason s);
  limits_reason r b now s e : s_reason s = Some e → s_reason (s_limits r b now s) = Some e;
  limits_policy r b now s p :
    s_policy (s_limits r b now s) = Some p →
    ∃ q, s_policy s = Some q ∧ p = MkPolicy r b (autoreply q);
  autoreply_reason t s : s_reason (s_autoreply t s) = s_reason s;
  autoreply_policy t s :
    s_policy (s_autoreply t s)
    = (λ q, MkPolicy (requests q) (bytes_limit q) t) <$> s_policy s;
  handle_runs bs now now' s r s' : s_handle bs now now' s = Ret (r, s') → s_runs s s';
  runs_reason s s' e : s_runs s s' → s_reason s = Some e → s_reason s' = Some e;
  runs_policy s s' p : s_runs s s' → s_policy s' = Some p → s_policy s = Some p;
}.

Module Server.
Section server.
Context {S : Type} `{Sessions S}.

(** ** State *)

(** [server::State], its sessions known by number. *)
Inductive State :=
  | Open (p : Policy) (session ready : option nat)
  | Closed (reason : Protocol.Error) (session : option nat).

(** The server with every session its reader started, those freed since, and
    whether its stream was closed. *)
Record World := MkWorld {
  server : State;
  sessions : gmap nat S;
  freed : gset nat;
  next : nat;
  stream_closed : bool;
}.

(** [Server::new] *)
Definition new : World :=
  MkWorld (Open (MkPolicy DEFAULT_MAX_INBOUND_REQUESTS DEFAULT_MAX_INBOUND_BYTES
                   DEFAULT_AUTOREPLY_TIMEOUT) None None) ∅ ∅ 0 false.

Definition set_server (st : State) (w : World) : World :=
  MkWorld st (sessions w) (freed w) (next w) (stream_closed w).

Definition on_session (n : nat) (f : S → S) (w : World) : World :=
  MkWorld (server w) (alter f n (sessions w)) (freed w) (next w) (stream_closed w).

(** [Weak::upgrade] *)
Definition upgrade (w : World) (r : option nat) : option nat :=
  match r with
  | Some n => if decide (n ∈ freed w) then None else Some n
  | None => None
  end.

(** ** Policy *)

(** [ServerInner::set_autoreply_timeout] *)
Definition set_autoreply_timeout (timeout : Duration) (w : World) : World :=
  match server w with
  | Closed _ _ => w
  | Open p s r =>
      let w := set_server (Open (MkPolicy (requests p) (bytes_limit p) timeout) s r) w in
      match upgrade w s with
      | Some n => on_session n (s_autoreply timeout) w
      | None => w
      end
  end.

(** [ServerInner::set_inbound_limits] *)
Definition set_inbound_limits (max_requests max_bytes : Z) (now : Instant) (w : World) : World :=
  match server w with
  | Closed _ _ => w
  | Open p s r =>
      let w := set_server (Open (MkPolicy max_requests max_bytes (autoreply p)) s r) w in
      match upgrade w s with
      | Some n => on_session n (s_limits max_requests max_bytes now) w
      | None => w
      end
  end.

(** ** Closing *)

(** [session.close(reason)] on an upgraded session. *)
Definition close_session (target : option nat) (reason : Protocol.Error) (now : Instant)
    (w : World) : World :=
  match target with Some n => on_session n (s_close reason now) w | None => w end.

(** [Session::drop] *)
Definition drop_session (owner : option nat) (now : Instant) (w : World) : World :=
  close_session owner Protocol.Closed now w.

(** The locked part of [ServerInner::close]: the session to close, the reason,
    and the unaccepted owner. *)
Definition close_begin (error : Protocol.Error) (w : World) :
  (option nat * Protocol.Error * option nat) * World :=
  match server w with
  | Closed reason s => ((upgrade w s, reason, None), w)
  | Open _ s ready => ((upgrade w s, error, ready), set_server (Closed error s) w)
  end.

(** [stream_closer.close()] *)
Definition close_stream (w : World) : World :=
  MkWorld (server w) (sessions w) (freed w) (next w) true.

(** Where a call of [ServerInner::close] is. *)
Inductive Closing :=
  | CBegin (e : Protocol.Error)
  | CSession (target : option nat) (reason : Protocol.Error) (ready : option nat)
  | CReady (ready : option nat)
  | CStream
  | CDone.

Definition close_step (now : Instant) (c : Closing) (w : World) : Closing * World :=
  match c with
  | CBegin e => let '((t, reason, ready), w) := close_begin e w in (CSession t reason ready, w)
  | CSession t reason ready => (CReady ready, close_session t reason now w)
  | CReady ready => (CStream, drop_session ready now w)
  | CStream => (CDone, close_stream w)
  | CDone => (CDone, w)
  end.

(** ** Accepting and attaching *)

(** [Server::accept]: [None] while it waits. *)
Definition accept (w : World) : option (result nat Protocol.Error * World) :=
  match server w with
  | Closed reason _ => Some (Err reason, w)
  | Open p s (Some n) => Some (Ok n, set_server (Open p s None) w)
  | Open _ _ None => None
  end.

(** [Session::start] *)
Definition start (w : World) : nat * World :=
  (next w, MkWorld (server w) (<[next w := s_new]> (sessions w)) (freed w)
             (Datatypes.S (next w)) (stream_closed w)).

(** The first locked part of [ServerInner::attach]: the session to replace. *)
Definition attach_begin (w : World) : result (option nat) Protocol.Error :=
  match server w with
  | Closed reason _ => Err reason
  | Open _ s _ => Ok (upgrade w s)
  end.

(** The second: the policy is applied, the session exposed, and the unaccepted
    owner of the last one handed back. *)
Definition attach_install (n : nat) (now : Instant) (w : World) :
  result (option nat) Protocol.Error * World :=
  match server w with
  | Closed reason _ => (Err reason, w)
  | Open p s ready =>
      (Ok ready,
       set_server (Open p (Some n) (Some n))
         (on_session n (λ x, s_autoreply (autoreply p)
                               (s_limits (requests p) (bytes_limit p) now x)) w))
  end.

(** One look of [ServerInner::pause_reader]: whether the reader goes on, [None]
    while it waits. *)
Definition pause_pass (timed_out : bool) (w : World) : option bool :=
  match server w with
  | Closed _ _ => Some false
  | Open _ _ _ => if timed_out then Some true else None
  end.

(** ** The server among its threads *)

(** Where [run_reader] is. *)
Inductive Reader :=
  | RRecv
  | RAttach (n : nat)
  | RReplace (n : nat) (previous : option nat)
  | RInstall (n : nat)
  | RDrop (owner : option nat)
  | RRefuse (n : nat)
  | RFail (n : nat) (e : Protocol.Error)
  | RPause
  | RExit.

Record System := MkSystem {
  world : World;
  reader : Reader;
  current : option nat;
  closers : list Closing;
  accepted : gset nat;
}.

Definition init : System := MkSystem new RRecv None [] ∅.

Definition set_world (w : World) (y : System) : System :=
  MkSystem w (reader y) (current y) (closers y) (accepted y).

Definition set_reader (r : Reader) (w : World) (y : System) : System :=
  MkSystem w r (current y) (closers y) (accepted y).

(** [run_reader] between the transport's events: attaching, and closing a session
    whose message failed. *)
Definition reader_step (now : Instant) (y : System) : option System :=
  let w := world y in
  match reader y with
  | RAttach n =>
      match attach_begin w with
      | Ok previous => Some (set_reader (RReplace n previous) w y)
      | Err _ => Some (set_reader (RRefuse n) w y)
      end
  | RReplace n previous =>
      Some (set_reader (RInstall n)
              (close_session previous (Protocol.Transport SessionReset) now w) y)
  | RInstall n =>
      match attach_install n now w with
      | (Ok owner, w) => Some (set_reader (RDrop owner) w y)
      | (Err _, w) => Some (set_reader (RRefuse n) w y)
      end
  | RDrop owner => Some (set_reader RRecv (drop_session owner now w) y)
  | RRefuse n => Some (set_reader RExit (drop_session (Some n) now w) y)
  | RFail n e => Some (set_reader RRecv (close_session (Some n) e now w) y)
  | RRecv | RPause | RExit => None
  end.

Inductive step : System → System → Prop :=
  (** [Event::Connected] *)
  | st_connected y n w :
      reader y = RRecv → start (world y) = (n, w) →
      step y (MkSystem w (RAttach n) (Some n) (closers y) (accepted y))
  | st_reader now y y' : reader_step now y = Some y' → step y y'
  (** [Event::Disconnected] *)
  | st_disconnected now y :
      reader y = RRecv →
      step y (MkSystem (close_session (upgrade (world y) (current y))
                          (Protocol.Transport SessionReset) now (world y))
                RRecv None (closers y) (accepted y))
  (** [Event::Message] *)
  | st_message y n s bs now now' r s' :
      reader y = RRecv → upgrade (world y) (current y) = Some n →
      sessions (world y) !! n = Some s → s_handle bs now now' s = Ret (r, s') →
      step y (set_reader (match r with Ok _ => RRecv | Err e => RFail n e end)
                (on_session n (λ _, s') (world y)) y)
  (** [Error::RecvFailed], and the pause's end *)
  | st_recv_failed y : reader y = RRecv → step y (set_reader RPause (world y) y)
  | st_pause y timed_out go_on :
      reader y = RPause → pause_pass timed_out (world y) = Some go_on →
      step y (set_reader (if go_on : bool then RRecv else RExit) (world y) y)
  (** any other failure of the transport *)
  | st_failed y e :
      reader y = RRecv →
      step y (MkSystem (world y) RExit (current y)
                (closers y ++ [CBegin (Protocol.Transport e)]) (accepted y))
  (** [server_ref.upgrade()] fails only once the server was dropped, so closed *)
  | st_gone y reason s :
      reader y = RRecv → server (world y) = Closed reason s →
      step y (set_reader RExit (world y) y)
  (** [Server::close], [Server::drop], [Closer::close] *)
  | st_call y :
      step y (MkSystem (world y) (reader y) (current y)
                (closers y ++ [CBegin Protocol.Closed]) (accepted y))
  | st_close now y i c c' w :
      closers y !! i = Some c → close_step now c (world y) = (c', w) →
      step y (MkSystem w (reader y) (current y) (<[i:=c']> (closers y)) (accepted y))
  | st_accept y n w :
      accept (world y) = Some (Ok n, w) →
      step y (MkSystem w (reader y) (current y) (closers y) ({[n]} ∪ accepted y))
  | st_limits r b now y : step y (set_world (set_inbound_limits r b now (world y)) y)
  | st_autoreply t y : step y (set_world (set_autoreply_timeout t (world y)) y)
  (** a session's workers and handles *)
  | st_session y n s s' :
      sessions (world y) !! n = Some s → s_runs s s' →
      step y (set_world (on_session n (λ _, s') (world y)) y)
  (** an accepted session's owner *)
  | st_owner_limits y n r b now :
      n ∈ accepted y → step y (set_world (on_session n (s_limits r b now) (world y)) y)
  | st_owner_autoreply y n t :
      n ∈ accepted y → step y (set_world (on_session n (s_autoreply t) (world y)) y)
  | st_owner_drop y n now :
      n ∈ accepted y → step y (set_world (drop_session (Some n) now (world y)) y)
  (** a closed session's last reference goes *)
  | st_free y n s :
      sessions (world y) !! n = Some s → is_Some (s_reason s) →
      step y (set_world (MkWorld (server (world y)) (sessions (world y))
                ({[n]} ∪ freed (world y)) (next (world y)) (stream_closed (world y))) y).

Definition reachable (y : System) : Prop := rtc step init y.

(** ** The invariant *)

Definition open_in (w : World) (n : nat) : Prop :=
  ∃ s, sessions w !! n = Some s ∧ s_reason s = None.

Definition attached (st : State) : option nat :=
  match st with Open _ s _ => s | Closed _ s => s end.

Definition waiting (st : State) : option nat :=
  match st with Open _ _ r => r | Closed _ _ => None end.

(** The session the reader started and has not attached yet. *)
Definition reader_new (r : Reader) : option nat :=
  match r with
  | RAttach n | RReplace n _ | RInstall n | RRefuse n => Some n
  | _ => None
  end.

Definition reader_ok (w : World) (r : Reader) : Prop :=
  match server w, r with
  | Open _ s _, RReplace _ previous => ∀ n, s = Some n → open_in w n → previous = Some n
  | Open _ s _, RInstall _ => ∀ n, s = Some n → ¬ open_in w n
  | _, _ => True
  end.

(** What a call of [close] has reached. *)
Definition closer_ok (w : World) (c : Closing) : Prop :=
  match c, server w with
  | CBegin _, _ => True
  | CSession t reason _, Closed reason' s =>
      reason = reason' ∧ ∀ n, s = Some n → open_in w n → t = Some n
  | CReady _, Closed _ s | CStream, Closed _ s => ∀ n, s = Some n → ¬ open_in w n
  | CDone, Closed _ s => (∀ n, s = Some n → ¬ open_in w n) ∧ stream_closed w = true
  | _, Open _ _ _ => False
  end.

Record srv_inv (y : System) : Prop := MkSrvInv {
  i_next n : is_Some (sessions (world y) !! n) → n < next (world y);
  i_freed n : n ∈ freed (world y) → n < next (world y) ∧ ¬ open_in (world y) n;
  i_attached n : attached (server (world y)) = Some n → n < next (world y);
  i_waiting n : waiting (server (world y)) = Some n → attached (server (world y)) = Some n;
  i_new n :
    reader_new (reader y) = Some n →
    n < next (world y) ∧ attached (server (world y)) ≠ Some n;
  i_open n :
    open_in (world y) n →
    reader_new (reader y) = Some n ∨ attached (server (world y)) = Some n;
  i_reader : reader_ok (world y) (reader y);
  i_closers : Forall (closer_ok (world y)) (closers y);
  i_accepted n :
    n ∈ accepted y →
    n < next (world y) ∧ reader_new (reader y) ≠ Some n
    ∧ waiting (server (world y)) ≠ Some n;
  i_policy p s n x q :
    server (world y) = Open p s (Some n) → sessions (world y) !! n = Some x →
    s_policy x = Some q → q = p;
}.

(** Sessions move on, the server stays. *)
Record world_le (w w' : World) : Prop := MkWorldLe {
  wl_server : server w' = server w;
  wl_next : next w' = next w;
  wl_freed n :
    n ∈ freed w' → n ∈ freed w ∨ is_Some (sessions w !! n) ∧ ¬ open_in w n;
  wl_stream : stream_closed w = true → stream_closed w' = true;
  wl_sessions n s' :
    sessions w' !! n = Some s' →
    ∃ s, sessions w !! n = Some s
      ∧ (∀ e, s_reason s = Some e → s_reason s' = Some e)
      ∧ (waiting (server w) = Some n → ∀ q, s_policy s' = Some q → s_policy s = Some q);
}.

Context `{!SessionsLaws S}.

Lemma world_le_refl w : world_le w w.
Proof. split; try done; [by left|]. intros n s' Hn. by exists s'. Qed.

Lemma world_le_open w w' n : world_le w w' → open_in w' n → open_in w n.
Proof.
  intros Hle (s' & Hn & Ho). destruct (wl_sessions _ _ Hle n s' Hn) as (s & Hs & Hr & _).
  exists s. split; [done|]. destruct (s_reason s) as [e|] eqn:E; [|done].
  by rewrite (Hr e eq_refl) in Ho.
Qed.

(** Closers keep their ground while the server stays, and an open server has
    none that began. *)
Lemma closers_mono w w' l :
  Forall (closer_ok w) l →
  (server w' = server w ∨ ∃ p s r, server w = Open p s r) →
  (∀ n, attached (server w) = Some n → open_in w' n → open_in w n) →
  (stream_closed w = true → stream_closed w' = true) →
  Forall (closer_ok w') l.
Proof.
  intros Hl Hsrv Hopen Hst. eapply Forall_impl; [done|]. intros c Hc.
  unfold closer_ok in *. destruct Hsrv as [->|(p & s & r & E)].
  - destruct c, (server w); simpl in *; try done; naive_solver.
  - rewrite E in Hc. by destruct c.
Qed.

Lemma reader_ok_le w w' r : world_le w w' → reader_ok w r → reader_ok w' r.
Proof.
  intros Hle. unfold reader_ok. rewrite (wl_server _ _ Hle).
  destruct (server w), r; try done.
  - intros Hr m Hm Ho. apply Hr; [done|]. by eapply world_le_open.
  - intros Hr m Hm Ho. apply (Hr m Hm). by eapply world_le_open.
Qed.

(** A step of the reader, or of the sessions, that leaves the server alone. *)
Lemma inv_frame y w' r' cur' :
  srv_inv y → world_le (world y) w' →
  (∀ n, reader_new (reader y) = Some n → reader_new r' = Some n ∨ ¬ open_in w' n) →
  (∀ n, reader_new r' = Some n → reader_new (reader y) = Some n) →
  reader_ok w' r' →
  srv_inv (MkSystem w' r' cur' (closers y) (accepted y)).
Proof.
  intros Hy Hle Hold Hnew Hr. pose proof (wl_server _ _ Hle) as Es.
  pose proof (wl_next _ _ Hle) as En.
  split; simpl; rewrite ?Es, ?En; try by apply Hy.
  - intros n [s' Hn]. destruct (wl_sessions _ _ Hle n s' Hn) as (s & Hs & _).
    apply (i_next _ Hy). eauto.
  - intros n Hn. destruct (wl_freed _ _ Hle n Hn) as [Hf|[Hf Hc]].
    + destruct (i_freed _ Hy n Hf) as [? Hc]. split; [done|]. intros Ho. apply Hc.
      by eapply world_le_open.
    + split; [by apply (i_next _ Hy)|]. intros Ho. apply Hc. by eapply world_le_open.
  - intros n Hn. by apply (i_new _ Hy), Hnew.
  - intros n Ho. destruct (i_open _ Hy n) as [Hn|Ha]; [by eapply world_le_open| |by right].
    destruct (Hold n Hn) as [?|?]; [by left|done].
  - done.
  - eapply closers_mono; [apply (i_closers _ Hy)|by left| |apply Hle].
    intros n _. by apply world_le_open.
  - intros n Hn. destruct (i_accepted _ Hy n Hn) as (? & Hrn & ?). split_and!; try done.
    intros E. by apply Hrn, Hnew.
  - intros p s n x q Hsrv Hx Hq. destruct (wl_sessions _ _ Hle n x Hx) as (s0 & Hs0 & _ & Hp).
    eapply (i_policy _ Hy); [done..|]. apply Hp; [by rewrite Hsrv|done].
Qed.

Lemma inv_world y w' : srv_inv y → world_le (world y) w' → srv_inv (set_world w' y).
Proof.
  intros Hy Hle. apply inv_frame; auto. eapply reader_ok_le; [done|apply Hy].
Qed.

(** One session changes in a way that keeps it closed, and its policy while it
    waits. *)
Lemma on_session_le w n f :
  (∀ s e, s_reason s = Some e → s_reason (f s) = Some e) →
  (waiting (server w) = Some n → ∀ s q, s_policy (f s) = Some q → s_policy s = Some q) →
  world_le w (on_session n f w).
Proof.
  intros Hr Hp. split; simpl; try done; [by left|]. intros m s'.
  destruct (decide (m = n)) as [->|Hne].
  - rewrite lookup_alter_Some. intros [(_ & s & Hs & ->)|[? _]]; [|done]. exists s. eauto.
  - rewrite lookup_alter_ne by done. intros Hm. by exists s'.
Qed.

Lemma close_keeps e now s e' : s_reason s = Some e' → s_reason (s_close e now s) = Some e'.
Proof. intros E. by rewrite close_reason, E. Qed.

Lemma close_no_policy e now s q : s_policy (s_close e now s) = Some q → s_policy s = Some q.
Proof.
  intros Hq. assert (s_policy (s_close e now s) = None) as Hn.
  { apply policy_open. rewrite close_reason. by eexists. }
  congruence.
Qed.

Lemma close_session_le w t e now : world_le w (close_session t e now w).
Proof.
  destruct t as [n|]; [|apply world_le_refl]. simpl. apply on_session_le.
  - intros s e'. apply close_keeps.
  - intros _ s q. apply close_no_policy.
Qed.

Lemma drop_session_le w t now : world_le w (drop_session t now w).
Proof. apply close_session_le. Qed.

Lemma close_session_closes w n e now : ¬ open_in (close_session (Some n) e now w) n.
Proof.
  intros (s & Hs & Ho). simpl in Hs. rewrite lookup_alter_Some in Hs.
  destruct Hs as [(_ & s0 & Hs0 & ->)|[? _]]; [|done]. by rewrite close_reason in Ho.
Qed.

Lemma runs_le w n s s' :
  sessions w !! n = Some s → s_runs s s' → world_le w (on_session n (λ _, s') w).
Proof.
  intros Hn Hruns. split; simpl; try done; [by left|]. intros m x.
  destruct (decide (m = n)) as [->|Hne].
  - rewrite lookup_alter_Some. intros [(_ & s0 & Hs & ->)|[? _]]; [|done]. exists s0.
    assert (s0 = s) as -> by congruence. split_and!; [done| |].
    + intros e. by apply runs_reason.
    + intros _ q. by apply runs_policy.
  - rewrite lookup_alter_ne by done. intros Hm. by exists x.
Qed.

Lemma upgrade_open w r n : (∀ m, m ∈ freed w → ¬ open_in w m) → r = Some n → open_in w n →
  upgrade w r = Some n.
Proof.
  intros Hf -> Ho. simpl. rewrite decide_False; [done|]. intros Hn. by apply (Hf n Hn).
Qed.

Lemma server_inv_init : srv_inv init.
Proof.
  split; simpl; try done; try set_solver.
  - by intros n [].
  - by intros n (s & Hs & _).
Qed.

Lemma inv_connected y n w :
  srv_inv y → reader y = RRecv → start (world y) = (n, w) →
  srv_inv (MkSystem w (RAttach n) (Some n) (closers y) (accepted y)).
Proof.
  intros Hy Er [= <- <-].
  assert (∀ m, open_in (MkWorld (server (world y)) (<[next (world y):=s_new]>
    (sessions (world y))) (freed (world y)) (Datatypes.S (next (world y)))
    (stream_closed (world y))) m → m = next (world y) ∨ open_in (world y) m) as Hopen.
  { intros m (s & Hs & Ho). simpl in Hs. apply lookup_insert_Some in Hs as [[-> _]|[_ Hs]]; [by left|].
    right. by exists s. }
  split; simpl.
  - intros m [<-|[_ Hm]]%lookup_insert_is_Some; [lia|]. pose proof (i_next _ Hy m Hm). lia.
  - intros m Hm. destruct (i_freed _ Hy m Hm) as [Hlt Hc]. split; [lia|]. intros Ho.
    destruct (Hopen m Ho) as [->|Ho']; [lia|done].
  - intros m Hm. pose proof (i_attached _ Hy m Hm). lia.
  - apply Hy.
  - intros m [= <-]. split; [lia|]. intros E. pose proof (i_attached _ Hy _ E). lia.
  - intros m Ho. destruct (Hopen m Ho) as [->|Ho']; [by left|].
    destruct (i_open _ Hy m Ho') as [Hn|?]; [|by right]. by rewrite Er in Hn.
  - unfold reader_ok. simpl. by destruct (server (world y)).
  - eapply closers_mono; [apply (i_closers _ Hy)|by left| |done].
    intros m Ha Ho. destruct (Hopen m Ho) as [->|?]; [|done].
    pose proof (i_attached _ Hy _ Ha). lia.
  - intros m Hm. destruct (i_accepted _ Hy m Hm) as (? & ? & ?). split_and!; [lia| |done].
    intros E. injection E as E. lia.
  - intros p s m x q Hsrv Hx Hq.
    assert (m < next (world y)) as Hlt.
    { apply (i_attached _ Hy), (i_waiting _ Hy). by rewrite Hsrv. }
    rewrite lookup_insert_ne in Hx by lia. by eapply (i_policy _ Hy).
Qed.

(** The new session takes the place of one already closed. *)
Lemma inv_install y n now p s ready :
  srv_inv y → reader y = RInstall n → server (world y) = Open p s ready →
  srv_inv (set_reader (RDrop ready) (attach_install n now (world y)).2 y).
Proof.
  intros Hy Er Es. unfold attach_install. rewrite Es. simpl.
  set (f := λ x, s_autoreply (autoreply p) (s_limits (requests p) (bytes_limit p) now x)).
  destruct (i_new _ Hy n) as [Hlt Hne]; [by rewrite Er|].
  assert (∀ x e, s_reason x = Some e → s_reason (f x) = Some e) as Hkeep.
  { intros x e Hx. unfold f. rewrite autoreply_reason. by apply limits_reason. }
  assert (world_le (world y) (on_session n f (world y))) as Hle.
  { apply on_session_le; [done|]. intros Hw. by apply (i_waiting _ Hy) in Hw. }
  assert (∀ m, open_in (set_server (Open p (Some n) (Some n)) (on_session n f (world y))) m →
    m = n) as Hopen.
  { intros m Ho. assert (open_in (world y) m) as Ho' by (by eapply world_le_open).
    destruct (i_open _ Hy m Ho') as [Hm|Hm]; [rewrite Er in Hm; by injection Hm|].
    pose proof (i_reader _ Hy) as Hr. unfold reader_ok in Hr. rewrite Es, Er in Hr.
    rewrite Es in Hm. by destruct (Hr m Hm). }
  split; simpl; try done.
  - intros m [x Hm]. destruct (wl_sessions _ _ Hle m x Hm) as (x' & Hx' & _).
    apply (i_next _ Hy). eauto.
  - intros m Hm. destruct (i_freed _ Hy m Hm) as [? Hc]. split; [done|]. intros Ho.
    apply Hc. by eapply world_le_open.
  - by intros m [= <-].
  - intros m Ho. right. by rewrite (Hopen m Ho).
  - eapply closers_mono; [apply (i_closers _ Hy)|right; eauto| |done].
    intros m _ Ho. by eapply world_le_open.
  - intros m Hm. destruct (i_accepted _ Hy m Hm) as (? & Hrn & _). rewrite Er in Hrn.
    split_and!; [done|done|]. intros E. by apply Hrn.
  - intros p' s' m x q [= <- <- <-] Hx Hq. rewrite lookup_alter_Some in Hx.
    destruct Hx as [(_ & x0 & Hx0 & ->)|[? _]]; [|done]. unfold f in Hq.
    rewrite autoreply_policy in Hq. destruct (s_policy (s_limits _ _ _ x0)) as [q0|] eqn:E;
      [|done]. apply limits_policy in E as (q1 & _ & ->). simpl in Hq. injection Hq as <-.
    by destruct p.
Qed.

Lemma inv_reader_step now y y' : srv_inv y → reader_step now y = Some y' → srv_inv y'.
Proof.
  intros Hy. pose proof (i_reader _ Hy) as Hrok. unfold reader_step.
  destruct (reader y) as [|n|n prev|n|owner|n|n e| |] eqn:Er; try done.
  - unfold attach_begin. destruct (server (world y)) as [p s r|reason s] eqn:Es; intros [= <-];
      (apply inv_frame; rewrite ?Er; auto using world_le_refl); unfold reader_ok; rewrite Es;
      try done.
    intros m Hm Ho. apply upgrade_open; [|done..]. intros k Hk. by apply (i_freed _ Hy k Hk).
  - intros [= <-]. pose proof (close_session_le (world y) prev
      (Protocol.Transport SessionReset) now) as Hle.
    apply inv_frame; rewrite ?Er; auto. unfold reader_ok in *. rewrite (wl_server _ _ Hle).
    destruct (server (world y)) as [p s r|]; [|done]. intros m Hm Ho.
    rewrite (Hrok m Hm) in Ho by (by eapply world_le_open).
    by apply close_session_closes in Ho.
  - destruct (server (world y)) as [p s r|reason s] eqn:Es.
    + pose proof (inv_install y n now p s r Hy Er Es) as Hi. unfold attach_install in *.
      rewrite Es in *. by intros [= <-].
    + unfold attach_install. rewrite Es. intros [= <-].
      apply inv_frame; rewrite ?Er; auto using world_le_refl. unfold reader_ok. by rewrite Es.
  - intros [= <-]. apply inv_frame; rewrite ?Er; auto using drop_session_le; try done.
    unfold reader_ok. by destruct (server _).
  - intros [= <-]. apply inv_frame; rewrite ?Er; try done.
    + apply (drop_session_le _ (Some n)).
    + intros m [= <-]. right. apply close_session_closes.
  - intros [= <-]. apply inv_frame; rewrite ?Er; try done.
    apply (close_session_le _ (Some n)).
Qed.

(** Everything about a system but its closers. *)
Lemma inv_closers y l :
  srv_inv y → Forall (closer_ok (world y)) l →
  srv_inv (MkSystem (world y) (reader y) (current y) l (accepted y)).
Proof. intros [] ?. by split. Qed.

(** Closing begins: the attached session is kept for every closer. *)
Lemma inv_close_begin y p s r e :
  srv_inv y → server (world y) = Open p s r → srv_inv (set_world (set_server (Closed e s) (world y)) y).
Proof.
  intros Hy Es. assert (∀ n, open_in (set_server (Closed e s) (world y)) n →
    open_in (world y) n) as Hopen by done.
  destruct Hy as [N F A W Nw O R C Acc P]. rewrite Es in *. simpl in *.
  split; simpl; try done.
  - eapply closers_mono; [done|right; eauto|done..].
  - intros n Hn. destruct (Acc n Hn) as (? & ? & _). by split_and!.
Qed.

Lemma closers_le w w' l : world_le w w' → Forall (closer_ok w) l → Forall (closer_ok w') l.
Proof.
  intros Hle Hl. eapply closers_mono; [done|left; apply Hle| |apply Hle].
  intros n _. by apply world_le_open.
Qed.

(** One closer moves on over a world its move left in order. *)
Lemma inv_closer_moves y w' i c' :
  srv_inv (set_world w' y) → closer_ok w' c' →
  srv_inv (MkSystem w' (reader y) (current y) (<[i:=c']> (closers y)) (accepted y)).
Proof.
  intros Hy Hc. apply (inv_closers (set_world w' y)); [done|]. simpl.
  apply Forall_insert; [apply (i_closers _ Hy)|done].
Qed.

Lemma inv_close_step now y i c c' w' :
  srv_inv y → closers y !! i = Some c → close_step now c (world y) = (c', w') →
  srv_inv (MkSystem w' (reader y) (current y) (<[i:=c']> (closers y)) (accepted y)).
Proof.
  intros Hy Hi. assert (closer_ok (world y) c) as Hc
    by (by eapply Forall_lookup_1; [apply (i_closers _ Hy)|]).
  assert (∀ n, n ∈ freed (world y) → ¬ open_in (world y) n) as Hfreed
    by (intros n Hn; by apply (i_freed _ Hy n Hn)).
  destruct c as [e|t reason ready|ready| |]; simpl; intros Hs.
  2-5: injection Hs as <- <-.
  - unfold close_begin in Hs. destruct (server (world y)) as [p s r|reason s] eqn:Es;
      injection Hs as <- <-; apply inv_closer_moves.
    + by eapply inv_close_begin.
    + split; [done|]. intros n Hn Ho. by apply upgrade_open.
    + by destruct y.
    + unfold closer_ok. rewrite Es. split; [done|]. intros n Hn Ho. by apply upgrade_open.
  - pose proof (close_session_le (world y) t reason now) as Hle.
    apply inv_closer_moves; [by apply inv_world|]. unfold closer_ok in *.
    rewrite (wl_server _ _ Hle). destruct (server (world y)) as [|reason' s]; [done|].
    destruct Hc as [_ Hc]. intros n Hn Ho.
    rewrite (Hc n Hn) in Ho by (by eapply world_le_open). by apply close_session_closes in Ho.
  - pose proof (drop_session_le (world y) ready now) as Hle.
    apply inv_closer_moves; [by apply inv_world|]. unfold closer_ok in *.
    rewrite (wl_server _ _ Hle). destruct (server (world y)) as [|reason' s]; [done|].
    intros n Hn Ho. apply (Hc n Hn). by eapply world_le_open.
  - assert (world_le (world y) (close_stream (world y))) as Hle.
    { split; try done; [by left|]. intros n s' Hn. by exists s'. }
    apply inv_closer_moves; [by apply inv_world|]. unfold closer_ok in *. simpl.
    by destruct (server (world y)).
  - apply inv_closer_moves; [by destruct y|done].
Qed.

Lemma inv_accept y n w' :
  srv_inv y → accept (world y) = Some (Ok n, w') →
  srv_inv (MkSystem w' (reader y) (current y) (closers y) ({[n]} ∪ accepted y)).
Proof.
  intros Hy. unfold accept. destruct (server (world y)) as [p s [m|]|] eqn:Es; try done.
  intros [= <- <-]. destruct Hy as [N F A W Nw O R C Acc P]. rewrite Es in *. simpl in *.
  split; simpl; try done.
  - unfold reader_ok in *. by rewrite Es in R.
  - eapply closers_mono; [done|right; eauto|done..].
  - intros k [->%elem_of_singleton|Hk]%elem_of_union.
    + split_and!; [by apply A, W| |done]. intros E. destruct (Nw m E) as [_ Hne].
      apply Hne. by apply W.
    + destruct (Acc k Hk) as (? & ? & _). by split_and!.
Qed.

(** The server's policy and its attached session's change together. *)
Lemma inv_policy y p s r p' f :
  srv_inv y → server (world y) = Open p s r →
  (∀ x e, s_reason x = Some e → s_reason (f x) = Some e) →
  (∀ x q q', s_policy (f x) = Some q → s_policy x = Some q' → (r = None ∨ q' = p) →
     r = None ∨ q = p') →
  (∀ x q, s_policy (f x) = Some q → is_Some (s_policy x)) →
  let w := set_server (Open p' s r) (world y) in
  srv_inv (set_world (match upgrade w s with Some n => on_session n f w | None => w end) y).
Proof.
  intros Hy Es Hf Hpol Hopen w.
  set (w' := match upgrade w s with Some n => on_session n f w | None => w end).
  assert (server w' = Open p' s r ∧ next w' = next (world y) ∧ freed w' = freed (world y)
    ∧ stream_closed w' = stream_closed (world y)) as (Es' & En & Ef & Est)
    by (unfold w'; by destruct (upgrade w s)).
  assert (∀ n x, sessions w' !! n = Some x → ∃ x0, sessions (world y) !! n = Some x0
    ∧ (∀ e, s_reason x0 = Some e → s_reason x = Some e)
    ∧ (x = x0 ∧ upgrade w s ≠ Some n ∨ x = f x0)) as Hsess.
  { intros n x. unfold w'. destruct (upgrade w s) as [m|]; [|intros Hx; exists x; naive_solver].
    simpl. destruct (decide (n = m)) as [->|Hne].
    - rewrite lookup_alter_Some. intros [(_ & x0 & Hx0 & ->)|[? _]]; [|done]. exists x0. eauto.
    - rewrite lookup_alter_ne by done. intros Hx. exists x. naive_solver. }
  assert (∀ n, open_in w' n → open_in (world y) n) as Ho.
  { intros n (x & Hx & Hr). destruct (Hsess n x Hx) as (x0 & Hx0 & Hk & _). exists x0.
    split; [done|]. destruct (s_reason x0) eqn:E; [|done]. by rewrite (Hk _ eq_refl) in Hr. }
  pose proof (i_freed _ Hy) as HF.
  destruct Hy as [N F A W Nw O R C Acc P]. rewrite Es in *.
  split; simpl; rewrite ?Es', ?En, ?Ef; simpl; try done.
  - intros n [x Hx]. destruct (Hsess n x Hx) as (x0 & Hx0 & _). eauto.
  - intros n Hn. destruct (F n Hn) as [? Hc]. split; [done|]. intros Hn'. by apply Hc, Ho.
  - intros n Hn. by apply O, Ho.
  - unfold reader_ok in *. rewrite Es'. rewrite Es in R. destruct (reader y); naive_solver.
  - eapply closers_mono; [done|right; eauto|by auto|by rewrite Est].
  - intros p0 s0 n x q [= <- <- ->] Hx Hq. destruct (Hsess n x Hx) as (x0 & Hx0 & _ & Hx').
    specialize (W n eq_refl). simpl in W. destruct Hx' as [[-> Hup]| ->].
    + exfalso. apply Hup. unfold upgrade. rewrite W. destruct (decide (n ∈ freed w)) as [Hin|];
        [|done]. exfalso. destruct (F n Hin) as [_ Hc]. apply Hc. exists x0. split; [done|].
      destruct (s_reason x0) eqn:E; [|done].
      assert (s_policy x0 = None) as Hn by (apply policy_open; by rewrite E). congruence.
    + destruct (Hopen _ _ Hq) as [q' Hq'].
      destruct (Hpol _ _ _ Hq Hq') as [?|?]; [|done..]. right. by eapply P.
Qed.

Lemma inv_limits y r b now :
  srv_inv y → srv_inv (set_world (set_inbound_limits r b now (world y)) y).
Proof.
  intros Hy. unfold set_inbound_limits.
  destruct (server (world y)) as [p s rd|] eqn:Es; [|by destruct y].
  apply (inv_policy y p s rd); try done.
  - intros x e. apply limits_reason.
  - intros x q q' (q0 & Hq0 & ->)%limits_policy Hq' [?| ->]; [by left|]. right. congruence.
  - intros x q (q0 & -> & _)%limits_policy. by eexists.
Qed.

Lemma inv_autoreply_timeout y t :
  srv_inv y → srv_inv (set_world (set_autoreply_timeout t (world y)) y).
Proof.
  intros Hy. unfold set_autoreply_timeout.
  destruct (server (world y)) as [p s rd|] eqn:Es; [|by destruct y].
  apply (inv_policy y p s rd); try done.
  - intros x e. by rewrite autoreply_reason.
  - intros x q q'. rewrite autoreply_policy. intros Hq Hq'. rewrite Hq' in Hq.
    intros [?| ->]; [by left|]. right. by injection Hq.
  - intros x q. rewrite autoreply_policy. by destruct (s_policy x).
Qed.

(** An owner acts on a session already accepted. *)
Lemma inv_owner y n f :
  srv_inv y → n ∈ accepted y → (∀ x e, s_reason x = Some e → s_reason (f x) = Some e) →
  srv_inv (set_world (on_session n f (world y)) y).
Proof.
  intros Hy Hn Hf. apply inv_world; [done|]. apply on_session_le; [done|]. intros Hw.
  by destruct (i_accepted _ Hy n Hn) as (_ & _ & ?).
Qed.

Lemma inv_free y n s :
  srv_inv y → sessions (world y) !! n = Some s → is_Some (s_reason s) →
  srv_inv (set_world (MkWorld (server (world y)) (sessions (world y))
    ({[n]} ∪ freed (world y)) (next (world y)) (stream_closed (world y))) y).
Proof.
  intros Hy Hs [e He]. apply inv_world; [done|]. split; simpl; try done.
  - intros m [->%elem_of_singleton|Hm]%elem_of_union; [|by left]. right.
    split; [by eexists|]. intros (s' & Hs' & Ho). congruence.
  - intros m s' Hm. by exists s'.
Qed.

Lemma inv_idle_reader y r' cur' w' :
  srv_inv y → reader_new (reader y) = None → reader_new r' = None →
  world_le (world y) w' → srv_inv (MkSystem w' r' cur' (closers y) (accepted y)).
Proof.
  intros Hy Hn Hn' Hle. apply inv_frame; try done; rewrite ?Hn, ?Hn'; try done.
  unfold reader_ok. by destruct (server w'), r'.
Qed.

(** Where the step found the reader. *)
Ltac reader_at := match goal with E : reader _ = _ |- _ => rewrite E end.

Lemma inv_server_step y y' : srv_inv y → step y y' → srv_inv y'.
Proof.
  intros Hy Hs. destruct Hs.
  - by apply inv_connected.
  - by eapply inv_reader_step.
  - apply inv_idle_reader; try done; [by reader_at|apply close_session_le].
  - apply inv_idle_reader; try done; [by reader_at|by destruct r|]. by eapply runs_le, handle_runs.
  - apply inv_idle_reader; try done; [by reader_at|apply world_le_refl].
  - apply inv_idle_reader; try done; [by reader_at|by destruct go_on|apply world_le_refl].
  - apply (inv_closers (set_reader RExit (world y) y)).
    + apply inv_idle_reader; try done; [by reader_at|apply world_le_refl].
    + simpl. apply Forall_app. split; [apply (i_closers _ Hy)|by apply Forall_singleton].
  - apply inv_idle_reader; try done; [by reader_at|apply world_le_refl].
  - apply inv_closers; [done|]. apply Forall_app.
    split; [apply (i_closers _ Hy)|by apply Forall_singleton].
  - by eapply inv_close_step.
  - by apply inv_accept.
  - by apply inv_limits.
  - by apply inv_autoreply_timeout.
  - apply inv_world; [done|]. by eapply runs_le.
  - apply inv_owner; try done. intros x e. apply limits_reason.
  - apply inv_owner; try done. intros x e. by rewrite autoreply_reason.
  - apply inv_world; [done|apply drop_session_le].
  - by eapply inv_free.
Qed.

Lemma server_reachable_inv y : reachable y → srv_inv y.
Proof.
  unfold reachable. assert (∀ y0, rtc step y0 y → srv_inv y0 → srv_inv y) as Hrtc.
  { intros y0. induction 1 as [|y0 y1 y2 Hs _ IH]; [done|]. intros Hy. apply IH.
    by eapply inv_server_step. }
  intros Hr. apply (Hrtc _ Hr), server_inv_init.
Qed.

(** Where a call of close has returned. *)
Lemma close_done y i :
  srv_inv y → closers y !! i = Some CDone →
  ∃ reason s, server (world y) = Closed reason s ∧ stream_closed (world y) = true
    ∧ ∀ n, open_in (world y) n → reader_new (reader y) = Some n.
Proof.
  intros Hy Hi. pose proof (Forall_lookup_1 _ _ _ _ (i_closers _ Hy) Hi) as Hc.
  unfold closer_ok in Hc. destruct (server (world y)) as [|reason s] eqn:Es; [done|].
  destruct Hc as [Hc Hst]. exists reason, s. split_and!; try done. intros n Ho.
  destruct (i_open _ Hy n Ho) as [?|Ha]; [done|]. rewrite Es in Ha. by destruct (Hc n Ha).
Qed.

(** ** The reason of closing *)

Lemma step_closed y y' reason s :
  step y y' → server (world y) = Closed reason s → server (world y') = Closed reason s.
Proof.
  intros Hs Es. destruct Hs as [y n w Er Hst|now y y' Hst| | | | | | | |now y i c c' w Hi Hc
    |y n w Hacc|r b now y|t y| | | | |]; simpl; try done.
  - by injection Hst as _ <-.
  - revert Hst. unfold reader_step, attach_begin, attach_install. rewrite Es.
    destruct (reader y) as [|?|? [?|]|?|[?|]|?|? ?| |]; try done; by intros [= <-].
  - by destruct (upgrade _ _).
  - destruct c as [e|[?|] ? ?|[?|]| |]; simpl in Hc; unfold close_begin in Hc;
      rewrite ?Es in Hc; by injection Hc as _ <-.
  - unfold accept in Hacc. by rewrite Es in Hacc.
  - unfold set_inbound_limits. by rewrite Es.
  - unfold set_autoreply_timeout. by rewrite Es.
Qed.

Lemma steps_closed y y' reason s :
  rtc step y y' → server (world y) = Closed reason s → server (world y') = Closed reason s.
Proof. induction 1 as [|y1 y2 y3 H1 _ IH]; [done|]. intros Es. apply IH. by eapply step_closed. Qed.

(** The system after the call [j] of close has taken the lock. *)
Definition after_begin (now : Instant) (j : nat) (e : Protocol.Error) (y : System) : System :=
  let '(c, w) := close_step now (CBegin e) (world y) in
  MkSystem w (reader y) (current y) (<[j:=c]> (closers y)) (accepted y).

(** The call of close that found the server open, before [y], was made with [e]. *)
Definition first_close (e : Protocol.Error) (y : System) : Prop :=
  ∃ y0 j now, reachable y0 ∧ (∃ p s r, server (world y0) = Open p s r)
    ∧ closers y0 !! j = Some (CBegin e) ∧ rtc step (after_begin now j e y0) y.

(** Only the locked part of a close call closes the server. *)
Lemma step_closes y y' p s r reason s' :
  step y y' → server (world y) = Open p s r → server (world y') = Closed reason s' →
  ∃ j now, closers y !! j = Some (CBegin reason) ∧ y' = after_begin now j reason y.
Proof.
  intros Hs Es. destruct Hs as [y n w Er Hst|now y y' Hst| | | | | | | |now y i c c' w Hi Hc
    |y n w Hacc|rq b now y|t y| | | | |]; simpl; rewrite ?Es; try done.
  - injection Hst as _ <-. simpl. by rewrite Es.
  - revert Hst. unfold reader_step, attach_begin, attach_install. rewrite Es.
    destruct (reader y) as [|?|? [?|]|?|[?|]|?|? ?| |]; try done; intros [= <-]; simpl;
      by rewrite ?Es.
  - destruct (upgrade _ _); simpl; by rewrite Es.
  - destruct c as [e|[?|] ? ?|[?|]| |]; simpl in Hc; unfold close_begin in Hc; rewrite ?Es in Hc;
      injection Hc as <- <-; simpl; rewrite ?Es; try done.
    intros [= <- <-]. exists i, now. split; [done|]. unfold after_begin, close_step, close_begin.
    by rewrite Es.
  - unfold accept in Hacc. rewrite Es in Hacc. destruct r; [|done]. by injection Hacc as <- <-.
  - unfold set_inbound_limits. rewrite Es. by destruct (upgrade _ _).
  - unfold set_autoreply_timeout. rewrite Es. by destruct (upgrade _ _).
Qed.

Lemma closed_by_first y reason s :
  reachable y → server (world y) = Closed reason s → first_close reason y.
Proof.
  intros Hr. revert reason s. pattern y.
  refine (rtc_ind_r _ init _ _ _ Hr); clear y Hr; [done|]. intros y y' Hr Hs IH reason s Es.
  destruct (server (world y)) as [p0 s0 r0|reason0 s0] eqn:E0.
  - destruct (step_closes _ _ _ _ _ _ _ Hs E0 Es) as (j & now & Hj & ->).
    exists y, j, now. split_and!; [done|eauto|done..].
  - pose proof (step_closed _ _ _ _ Hs E0) as E. rewrite Es in E. injection E as <- <-.
    destruct (IH reason s eq_refl) as (y0 & j & now & H0 & Ho & Hj & Hrt).
    exists y0, j, now. split_and!; try done. by eapply rtc_r.
Qed.

(** ** What the server guarantees *)

(** C24: At most one session is served. Whenever the reader is not in the middle of
    attaching one, every session still open is the attached one; while it is, the
    only other is the session it is about to expose or refuse, and that one
    becomes visible only after the last is closed. *)
Theorem one_session_at_a_time (y : System) (n : nat) :
  reachable y → open_in (world y) n →
  (reader_new (reader y) = None → attached (server (world y)) = Some n)
  ∧ (attached (server (world y)) = Some n ∨ reader_new (reader y) = Some n)
  ∧ (∀ m, reader y = RInstall m → (∃ p s r, server (world y) = Open p s r) → n = m).
Proof.
  intros Hr Ho. pose proof (server_reachable_inv y Hr) as Hy.
  destruct (i_open _ Hy n Ho) as [Hn|Ha]; split_and!; auto.
  - by rewrite Hn.
  - intros m Em _. rewrite Em in Hn. by injection Hn.
  - intros m Em (p & s & r & Es). pose proof (i_reader _ Hy) as Hrok.
    unfold reader_ok in Hrok. rewrite Em, Es in Hrok. rewrite Es in Ha.
    by destruct (Hrok n Ha).
Qed.

(** C25: Closing the server ends everything, for the first reason given. Once any call
    of close has returned, the server is closed and its stream is closed. The reason is
    the error of the one call that found the server open; no later call replaces it, and
    acceptance fails with it from then on. Every session is closed, but for one the
    reader has just started: that one is never attached, and once the reader refuses it
    no session is open. *)
Theorem server_close_ends_everything (y : System) (i : nat) :
  reachable y → closers y !! i = Some CDone →
  ∃ reason s, server (world y) = Closed reason s ∧ first_close reason y
    ∧ (∀ y', rtc step y y' → server (world y') = Closed reason s
         ∧ accept (world y') = Some (Err reason, world y'))
    ∧ stream_closed (world y) = true
    ∧ (∀ n, open_in (world y) n → reader_new (reader y) = Some n)
    ∧ (∀ n now, attach_install n now (world y) = (Err reason, world y))
    ∧ (∀ n now y', reader y = RRefuse n → reader_step now y = Some y' →
         ∀ m, ¬ open_in (world y') m).
Proof.
  intros Hr Hi. destruct (close_done y i (server_reachable_inv y Hr) Hi)
    as (reason & s & Es & Hst & Hopen).
  exists reason, s. split_and!; try done.
  - by eapply closed_by_first.
  - intros y' Hs. pose proof (steps_closed _ _ _ _ Hs Es) as Es'. unfold accept. by rewrite Es'.
  - intros n now. unfold attach_install. by rewrite Es.
  - intros n now y' Er. unfold reader_step. rewrite Er. intros [= <-] m Ho. simpl in Ho.
    assert (open_in (world y) m) as Hm
      by (eapply world_le_open; [apply (drop_session_le _ (Some n))|exact Ho]).
    specialize (Hopen m Hm). rewrite Er in Hopen. injection Hopen as ->.
    by apply close_session_closes in Ho.
Qed.

(** Acceptance hands over the newest session with the policy. What accept
    returns is the attached session, whose limits and timeout, while it is still
    open, are the server's current ones; it was not handed over before, and a
    second call waits for the next. *)
Theorem accept_newest_with_policy (y : System) (n : nat) (w : World) :
  reachable y → accept (world y) = Some (Ok n, w) →
  ∃ p, server (world y) = Open p (Some n) (Some n) ∧ n ∉ accepted y ∧ accept w = None
    ∧ ∀ x, sessions w !! n = Some x → s_policy x = None ∨ s_policy x = Some p.
Proof.
  intros Hr. pose proof (server_reachable_inv y Hr) as Hy. unfold accept.
  destruct (server (world y)) as [p s [m|]|] eqn:Es; try done. intros [= <- <-].
  pose proof (i_waiting _ Hy m) as Hw. rewrite Es in Hw. specialize (Hw eq_refl). simpl in Hw.
  subst s. exists p. split_and!; try done.
  - intros Hacc. destruct (i_accepted _ Hy m Hacc) as (_ & _ & Hne). by rewrite Es in Hne.
  - intros x Hx. destruct (s_policy x) as [q|] eqn:Eq; [|by left]. right.
    by rewrite (i_policy _ Hy p (Some m) m x q Es Hx Eq).
Qed.

(** A closed server stays closed. It keeps its first reason and the session it
    was serving through everything any thread does later, hands out no session and
    attaches none. *)
Theorem closed_server_final (y y' : System) (reason : Protocol.Error) (s : option nat) :
  rtc step y y' → server (world y) = Closed reason s →
  server (world y') = Closed reason s ∧ accept (world y') = Some (Err reason, world y')
  ∧ attach_begin (world y') = Err reason
  ∧ ∀ e, close_begin e (world y') = ((upgrade (world y') s, reason, None), world y').
Proof.
  intros Hs Es. pose proof (steps_closed _ _ _ _ Hs Es) as Es'.
  unfold accept, attach_begin, close_begin. by rewrite Es'.
Qed.
End server.
End Server.

(** ** The sessions of [session.rs] are such sessions *)

Section implementation.
Context {Payload : Variant → Type} `{Prost Payload}.
Abbreviation Session := (Session.Session (Payload:=Payload)).

Definition session_reason (s : Session) : option Protocol.Error :=
  match Session.state s with Session.Open _ => None | Session.Closed e => Some e end.

Definition session_policy (s : Session) : option Policy :=
  match Session.state s with
  | Session.Open o =>
      Some (MkPolicy (Session.max_inbound_requests o) (Session.max_inbound_bytes o)
              (Session.autoreply_timeout o))
  | Session.Closed _ => None
  end.

#[global] Instance session_sessions : Sessions Session := {
  s_new := Session.new Envelope.Server;
  s_close := Session.close Envelope.Server;
  s_limits := Session.set_inbound_limits Envelope.Server;
  s_autoreply := Session.set_autoreply_timeout;
  s_handle := Session.handle_message Envelope.Server;
  s_reason := session_reason;
  s_policy := session_policy;
  s_runs s s' :=
    SessionPass.keeps s s' ∧ ∀ p, session_policy s' = Some p → session_policy s = Some p;
}.

Lemma keeps_reason (s s' : Session) e :
  SessionPass.keeps s s' → session_reason s = Some e → session_reason s' = Some e.
Proof.
  intros Hk. unfold session_reason. destruct (Session.state s) as [|e0] eqn:E; [done|].
  intros [= <-]. by rewrite (SessionPass.keeps_closed _ _ Hk e0 E).
Qed.

Lemma close_policy_None e now (s : Session) :
  session_policy (Session.close Envelope.Server e now s) = None.
Proof. unfold session_policy. rewrite SessionInv.close_state. by destruct (Session.state s). Qed.

Lemma submit_policy b body dl now (s : Session) :
  session_policy (Session.submit b body dl now s).2 = session_policy s.
Proof.
  unfold session_policy, Session.submit, pair, Session.enqueue. simpl.
  destruct (Session.state s) as [o|e] eqn:E; simpl; [|done].
  by destruct (decide (dl ≤ now)%Z).
Qed.

Lemma autoreply_policy_eq i err now now' (s : Session) :
  session_policy (Session.autoreply i err now now' s) = session_policy s.
Proof.
  unfold Session.autoreply, Session.reply. destruct (Session.state s) as [o|e] eqn:E; [|done].
  set (dl := default now _).
  pose proof (submit_policy false (Session.OutReply i (Err err)) dl now' s) as Hs.
  by destruct (Session.submit _ _ _ _ s) as [[j|e] s'].
Qed.

Lemma handle_locked_policy bs now (s : Session) r s' :
  Session.handle_locked Envelope.Server bs now s = Ret (r, s') →
  session_policy s' = session_policy s.
Proof.
  unfold Session.handle_locked.
  destruct (decode_header _ bs) as [[h|e]| |]; try done; [|by intros [= _ <-]].
  unfold session_policy. destruct (from_id _ _).
  - destruct (failed h); [by intros [= _ <-]|]. unfold Session.admit_request.
    destruct (Session.state s) as [o|] eqn:E; [|by intros [= _ <-]; rewrite E].
    do 2 (case_decide; [by intros [= _ <-]; rewrite E|]).
    destruct (unknown h); [by intros [= _ <-]|].
    destruct (retain _ _ _) as [[|] h']; intros [= _ <-]; [done|]. simpl. by rewrite E.
  - unfold Session.route_response.
    destruct (Session.state s) as [o|] eqn:E; [|by intros [= _ <-]; rewrite E].
    destruct (Session.outstanding o !! _) as [k|]; [|by intros [= _ <-]; rewrite E].
    destruct (Session.operations o !! k) as [op|]; [|by intros [= _ <-]].
    destruct (complete_response _ _ _ _ _) as [[[|] h']| |]; try done; by intros [= _ <-].
Qed.

(** Every step of a session's own threads is one the server allows for; only its
    owner changes its policy. *)
Definition owner_event (ev : SessionMachine.Event (Payload:=Payload)) : bool :=
  match ev with
  | SessionMachine.ELimits _ _ _ | SessionMachine.EAutoreply _ => true
  | _ => false
  end.

Lemma expire_policy now (s : Session) : session_policy (Session.expire now s) = session_policy s.
Proof.
  unfold session_policy, Session.expire. destruct (Session.state s) eqn:E; simpl; by rewrite ?E.
Qed.

Lemma decode_policy e now (s : Session) p :
  session_policy (Session.decode_envelope Envelope.Server e now s).2 = Some p →
  session_policy s = Some p.
Proof.
  unfold Session.decode_envelope. destruct (Envelope.decode _ _) as [[? []]|]; simpl; try done.
  by rewrite close_policy_None.
Qed.

Lemma writer_policy y ev y' max p :
  SessionMachine.step_writer Envelope.Server max y ev = Some y' →
  session_policy (SessionMachine.sess y') = Some p →
  session_policy (SessionMachine.sess y) = Some p.
Proof.
  unfold SessionMachine.step_writer. destruct ev; try done;
    destruct (SessionMachine.writer y) as [|i m|m r|]; try done.
  - rewrite <-(expire_policy now (SessionMachine.sess y)). unfold Session.next_outgoing.
    set (s := Session.expire now _). destruct (Session.has_notifications _ _);
      [by intros [= <-]|]. unfold session_policy.
    destruct (Session.state s) as [o|] eqn:E.
    + destruct (Session.outgoing o) as [|m rest]; [by intros [= <-]; simpl; rewrite E|].
      destruct (Session.out_body m); [destruct (Session.next_id o); [|done]|];
        by intros [= <-].
    + intros [= <-]. simpl. unfold s, Session.expire in E.
      by destruct (Session.state (SessionMachine.sess y)).
  - set (r := Session.write_result _ _ _ _ _).
    assert (session_policy (Session.forget_unsent i m r (SessionMachine.sess y))
      = session_policy (SessionMachine.sess y)) as Hf.
    { unfold session_policy, Session.forget_unsent.
      destruct (Session.state (SessionMachine.sess y)) eqn:E; [|by rewrite E].
      destruct (_ && _); simpl; by rewrite ?E. }
    destruct r as [[]|[]]; intros [= <-]; simpl; rewrite ?Hf; try done.
    by rewrite close_policy_None.
  - intros [= <-]. simpl. unfold session_policy, Session.record_write.
    destruct (Session.state (SessionMachine.sess y)) as [o|] eqn:E; [|by rewrite E].
    destruct (Session.operations o !! _); [|by rewrite E].
    case_decide; [done|]. destruct (negb _); [done|by rewrite E].
Qed.

Lemma reader_policy y ev y' p :
  SessionMachine.step_reader Envelope.Server y ev = Some y' →
  session_policy (SessionMachine.sess y') = Some p →
  session_policy (SessionMachine.sess y) = Some p.
Proof.
  unfold SessionMachine.step_reader. destruct ev; try done;
    destruct (SessionMachine.reader y); try done.
  - destruct (Session.handle_locked _ _ _ _) as [[[[i|]|e] s1]| |] eqn:Eh; try done;
      apply handle_locked_policy in Eh; intros [= <-]; simpl; by rewrite Eh.
  - by intros [= <-].
  - intros [= <-]. simpl. unfold Session.reply_unknown. by rewrite autoreply_policy_eq.
  - intros [= <-]. simpl. by rewrite close_policy_None.
Qed.

Lemma app_policy y ev y' p :
  owner_event ev = false → SessionMachine.step_app Envelope.Server y ev = Some y' →
  session_policy (SessionMachine.sess y') = Some p →
  session_policy (SessionMachine.sess y) = Some p.
Proof.
  intros Ho. destruct ev; try done; simpl.
  - unfold Session.recv_take, session_policy.
    destruct (Session.state (SessionMachine.sess y)) as [o|] eqn:E; [|done].
    destruct (Session.incoming o) as [|[]]; [done|]. by intros [= <-].
  - destruct (take_result _ _) as [[[[]|] h]|]; try done; by intros [= <-].
  - destruct (SessionMachine.decoding y !! n) as [[]|]; [|done]. intros [= <-]. simpl.
    apply decode_policy.
  - intros [= <-]. simpl. unfold Session.request. by rewrite submit_policy.
  - destruct (SessionMachine.held y !! n); [|done]. intros [= <-]. simpl.
    unfold Session.responder_enqueue, Session.reply.
    pose proof (submit_policy false (Session.OutReply z r) deadline now
      (SessionMachine.sess y)) as Hs.
    destruct (Session.submit _ _ _ _ _) as [[]]; simpl in *; [by rewrite Hs|].
    unfold Session.reply_unanswered. by rewrite autoreply_policy_eq, Hs.
  - destruct (SessionMachine.held y !! n); [|done]. intros [= <-]. simpl.
    unfold Session.responder_drop, Session.reply_unanswered. by rewrite autoreply_policy_eq.
  - by intros [= <-].
  - destruct (notify _ _ _); try done. by intros [= <-].
  - intros [= <-]. simpl. by rewrite close_policy_None.
  - intros [= <-]. simpl. by rewrite expire_policy.
Qed.

Lemma machine_runs `{!ProstLaws Payload} max y ev y' :
  SessionMachine.reachable Envelope.Server max y →
  SessionMachine.step Envelope.Server max y ev = Some y' → owner_event ev = false →
  s_runs (SessionMachine.sess y) (SessionMachine.sess y').
Proof.
  intros Hr%SessionMachine.session_reachable_inv Hs Ho; [|done].
  destruct (SessionMachine.step_inv _ _ _ _ _ Hr Hs) as [_ [Hk _]]. split; [done|].
  intros p. destruct ev; first [exact (reader_policy _ _ _ _ Hs)
    |exact (writer_policy _ _ _ _ _ Hs)|exact (app_policy _ _ _ _ Ho Hs)].
Qed.

#[global] Instance session_sessions_laws : SessionsLaws Session.
Proof.
  split; simpl.
  - done.
  - intros e now s. unfold session_reason. rewrite SessionInv.close_state.
    by destruct (Session.state s).
  - intros s. unfold session_policy, session_reason. destruct (Session.state s); [|by split; eauto].
    split; [done|by intros []].
  - intros r b now s e. apply keeps_reason, SessionPass.keeps_set_limits.
  - intros r b now s p. unfold Session.set_inbound_limits.
    destruct (Session.state s) as [o|e] eqn:E.
    + repeat case_decide; rewrite ?close_policy_None; try done. intros [= <-].
      unfold session_policy. rewrite E. by eexists.
    + unfold session_policy. by rewrite E.
  - intros t s. unfold session_reason, Session.set_autoreply_timeout.
    destruct (Session.state s) eqn:E; simpl; by rewrite ?E.
  - intros t s. unfold session_policy, Session.set_autoreply_timeout.
    destruct (Session.state s) eqn:E; simpl; by rewrite ?E.
  - intros bs now now' s r s'. unfold Session.handle_message.
    destruct (Session.handle_locked _ bs now s) as [[[[i|]|e] s1]| |] eqn:Eh; try done;
      pose proof (SessionPass.keeps_handle _ _ _ _ _ _ Eh) as Hk;
      pose proof (handle_locked_policy _ _ _ _ _ Eh) as Hp; intros [= _ <-].
    + split; [by eapply SessionPass.keeps_trans, SessionPass.keeps_autoreply|].
      intros p. unfold Session.reply_unknown. by rewrite autoreply_policy_eq, Hp.
    + split; [done|]. by rewrite Hp.
    + split; [done|]. by rewrite Hp.
  - intros s s' e [Hk _]. by apply keeps_reason.
  - intros s s' p [_ Hp]. apply Hp.
Qed.
End implementation.

(** ** A concrete server

    A session connects and is attached; then the server is closed. *)
Module ServerDemo.
Import Server.
Abbreviation System := (System (S:=Session.Session (Payload:=Plain.Payload))).

Definition connected : System :=
  MkSystem (start new).2 (RAttach 0) (Some 0) [] ∅.

(** The reader's next [k] steps. *)
Fixpoint reader_run (k : nat) (y : System) : System :=
  match k with
  | O => y
  | S k => match reader_step 0 y with Some y => reader_run k y | None => y end
  end.

(** The next [k] steps of the first closer. *)
Fixpoint close_run (k : nat) (y : System) : System :=
  match k, closers y !! 0 with
  | S k, Some c =>
      let '(c, w) := close_step 0 c (world y) in
      close_run k (MkSystem w (reader y) (current y) (<[0:=c]> (closers y)) (accepted y))
  | _, _ => y
  end.

Definition serving : System := reader_run 4 connected.

Definition called : System :=
  MkSystem (world serving) (reader serving) (current serving)
    (closers serving ++ [CBegin Protocol.Closed]) (accepted serving).

Lemma reader_run_steps k y : rtc step y (reader_run k y).
Proof.
  revert y. induction k as [|k IH]; intros y; simpl; [done|].
  destruct (reader_step 0 y) as [y'|] eqn:E; [|done].
  eapply rtc_l; [by eapply st_reader|apply IH].
Qed.

Lemma close_run_steps k y : rtc step y (close_run k y).
Proof.
  revert y. induction k as [|k IH]; intros y; simpl; [done|].
  destruct (closers y !! 0) as [c|] eqn:E; [|done].
  destruct (close_step 0 c (world y)) as [c' w] eqn:Ec.
  eapply rtc_l; [by eapply st_close|apply IH].
Qed.

Lemma serving_reachable : reachable serving.
Proof.
  eapply rtc_l; [|apply reader_run_steps].
  by apply (st_connected init 0 (start new).2).
Qed.

Lemma closing_reachable k : reachable (close_run k called).
Proof.
  unfold reachable. etrans; [apply serving_reachable|].
  eapply rtc_l; [apply st_call|apply close_run_steps].
Qed.

Lemma one_session_at_a_time_witness :
  open_in (world serving) 0 ∧ attached (server (world serving)) = Some 0.
Proof.
  assert (open_in (world serving) 0) as Ho
    by (eexists; split; [vm_compute; reflexivity|reflexivity]).
  split; [exact Ho|]. apply (one_session_at_a_time serving 0 serving_reachable Ho).
  vm_compute. reflexivity.
Defined.

Lemma server_close_ends_everything_witness :
  let y := close_run 4 called in
  ∃ reason s, server (world y) = Closed reason s ∧ first_close reason y
    ∧ (∀ y', rtc step y y' → server (world y') = Closed reason s
         ∧ accept (world y') = Some (Err reason, world y'))
    ∧ stream_closed (world y) = true
    ∧ (∀ n, open_in (world y) n → reader_new (reader y) = Some n).
Proof.
  intros y. destruct (server_close_ends_everything y 0 (closing_reachable 4)
    ltac:(vm_compute; reflexivity)) as (reason & s & H1 & H2 & H3 & H4 & H5 & _).
  exists reason, s. split; [exact H1|]. split; [exact H2|]. split; [exact H3|].
  split; [exact H4|exact H5].
Defined.

Lemma accept_newest_with_policy_witness :
  match accept (world serving) with
  | Some (Ok n, w) =>
      ∃ p, server (world serving) = Open p (Some n) (Some n) ∧ n ∉ accepted serving
        ∧ accept w = None
        ∧ ∀ x, sessions w !! n = Some x → s_policy x = None ∨ s_policy x = Some p
  | _ => False
  end.
Proof.
  refine (accept_newest_with_policy serving 0 _ serving_reachable _).
  vm_compute. reflexivity.
Defined.

Lemma closed_server_final_witness :
  let y := close_run 1 called in
  let y' := close_run 3 y in
  server (world y') = Closed Protocol.Closed (Some 0)
  ∧ accept (world y') = Some (Err Protocol.Closed, world y').
Proof.
  intros y y'.
  destruct (closed_server_final y y' Protocol.Closed (Some 0)) as (Hs & Ha & _).
  - apply close_run_steps.
  - vm_compute. reflexivity.
  - exact (conj Hs Ha).
Defined.
End ServerDemo.
