(* ===== verification/ProtocolClient.v ===== *)
(** * The protocol client ([protocol/session.rs])

    [connect], which authenticates the peer and starts a session, and
    [run_reader], which routes what the transport receives into that session:
    the transport's client and the machine of session threads together, down to the
    closing of the stream by the session that ends and by the client that is dropped. *)

From S2P Require Import Prelude Closer Io Script Stream Cobs Framing Sealing Outbound Endpoint Handshake TransportClient Message Envelope Promise Session SessionInv SessionPass SessionMachine.

Module ProtocolClient.
Import SessionMachine.

(** The reader's own steps. *)
Definition of_reader {Payload} (ev : Event (Payload:=Payload)) : bool :=
  match ev with
  | EMessage _ _ | EReadError _ | EAnswer _ _ | EReaderClose _ => true
  | _ => false
  end.

(** What happens around one pass of the reader: the calls other threads complete
    through the sender while it reads, the steps they take in the session until
    the message is handled and from then to the end of the pass, and the clock
    as the pass reads it. *)
Record Turn {Payload : Variant → Type} := MkTurn {
  sends : list Outbound.Op;
  before : list (Event (Payload:=Payload));
  after : list (Event (Payload:=Payload));
  handled_at : Instant;
  answered_at : Instant * Instant;
  closed_at : Instant;
}.
Arguments Turn : clear implicits.
Arguments MkTurn {_} _ _ _ _ _ _.

Section client.
Context {Ω : Type} `{Env Ω, Cobs, Keys, !Messages, !Crypto, !Host Ω} (max fuel limit : nat).
Context {Payload : Variant → Type} `{Prost Payload} {Info : Type}.
Abbreviation System := (System (Payload:=Payload)).
Abbreviation Event := (Event (Payload:=Payload)).
Abbreviation Turn := (Turn Payload).
Abbreviation step := (step Envelope.Client limit).

(** The other threads take the steps they can. *)
Definition elsewhere (evs : list Event) (y : System) : System :=
  foldl (λ y ev, if of_reader ev then y else default y (step y ev)) y evs.

(** The reader's step on the result of a receive. *)
Definition received (r : result (list byte) Io.Error) (now : Instant) : Event :=
  match r with Ok bytes => EMessage bytes now | Err e => EReadError e end.

Definition still_turn : Turn := MkTurn [] [] [] 0%Z (0%Z, 0%Z) 0%Z.

(** [run_reader], with the messages it routed. A session that fails closes its stream
    (the last step of [SessionInner::close]) before the loop ends. *)
Fixpoint run_reader (n : nat) (turns : list Turn) (cl : Client.State) (y : System) :
  M Ω (list (list byte) * Client.State * System) :=
  match n with
  | O => diverge
  | S n =>
      let turn := default still_turn (head turns) in
      '(r, cl) ← Client.recv max fuel (sends turn) cl;
      y ← expect (step (elsewhere (before turn) y) (received r (handled_at turn)));
      let y := elsewhere (after turn) y in
      let ms := option_list (result_ok r) in
      match reader y with
      | RReading =>
          '(ms', cl, y) ← run_reader n (tail turns) cl y;
          mret (ms ++ ms', cl, y)
      | RAnswering _ =>
          y ← expect (step y (EAnswer (answered_at turn).1 (answered_at turn).2));
          '(ms', cl, y) ← run_reader n (tail turns) cl y;
          mret (ms ++ ms', cl, y)
      | RClosing _ =>
          y ← expect (step y (EReaderClose (closed_at turn)));
          _ ← (if Session.stream_closed (sess y) then Outbound.close fuel else mret tt);
          mret (ms, cl, y)
      | RDone => mret (ms, cl, y)
      end
  end.

(** [connect], over a stream with the write timeout [timeout]: the transport's
    client, the session's sender, the session among its threads, and the
    verifier's info. Where it fails, the transport's client is dropped. *)
Definition connect (verify : Verifier Info) (timeout : Duration) :
  M Ω (result (Client.State * Endpoint.handle * System * Info) Protocol.Error) :=
  '(r, client) ← Client.connect max fuel verify (Client.new max timeout);
  match r with
  | Err e => _ ← Client.drop fuel client; mret (Err (Protocol.Transport e))
  | Ok (sender, info) => mret (Ok (client, sender, init Envelope.Client, info))
  end.

(** A client's life: [connect], then its reader, which drops the transport's
    client as it returns. *)
Definition run (verify : Verifier Info) (timeout : Duration) (turns : list Turn) :
  M Ω (result (Info * list (list byte) * Client.State * System) Protocol.Error) :=
  r ← connect verify timeout;
  match r with
  | Err e => mret (Err e)
  | Ok (client, _, y, info) =>
      '(ms, client, y) ← run_reader fuel turns client y;
      client ← Client.drop fuel client;
      mret (Ok (info, ms, client, y))
  end.
End client.

(** The messages [ms] are what [rc] opens from the events [evs], one each. *)
Fixpoint opens `{Cobs, Hpke} (max : nat) (rc : OpenCtx) (evs : list event)
    (ms : list (list byte)) : Prop :=
  match evs, ms with
  | [], [] => True
  | ev :: evs, m :: ms => ∃ packet rc',
      meaning max ev = Ok (Some packet) ∧ open rc packet = (Ok m, rc') ∧ opens max rc' evs ms
  | _, _ => False
  end.

Definition turn_ok {Payload} (turn : Turn Payload) : Prop :=
  Forall (λ o, Endpoint.through_sender o = true) (sends turn).

(** A reader that has ended: its session is closed, and has closed its stream. *)
Definition ended `{Prost Payload} (limit : nat) (y : System (Payload:=Payload)) : Prop :=
  reachable Envelope.Client limit y ∧ reader y = RDone
  ∧ Session.stream_closed (sess y) = true
  ∧ ∃ e, Session.state (sess y) = Session.Closed e.

Section lemmas.
Context {Payload : Variant → Type} `{Prost Payload, !ProstLaws Payload} (limit : nat).
Abbreviation System := (System (Payload:=Payload)).
Abbreviation Event := (Event (Payload:=Payload)).
Abbreviation step := (step Envelope.Client limit).
Abbreviation reachable := (reachable Envelope.Client limit).

Lemma elsewhere_step (y : System) ev y' :
  of_reader ev = false → step y ev = Some y' → reader y' = reader y.
Proof.
  intros Ho. unfold SessionMachine.step, step_writer, step_app.
  destruct ev; try done; intros Hs; repeat case_match; by simplify_eq/=.
Qed.

Lemma elsewhere_keeps evs (y : System) :
  reachable y → reachable (elsewhere limit evs y)
  ∧ reader (elsewhere limit evs y) = reader y.
Proof.
  revert y. induction evs as [|ev evs IH]; intros y Hy; [done|]. simpl.
  destruct (of_reader ev) eqn:Eo; [by apply IH|].
  destruct (step y ev) as [y'|] eqn:Es; simpl; [|by apply IH].
  destruct (IH y') as [Hr ->]; [by eapply reachable_step|]. split; [done|].
  by eapply elsewhere_step.
Qed.

(** The reader handles what it received, and has then a next step. *)
Lemma received_step r now (y : System) :
  reachable y → reader y = RReading →
  ∃ y', step y (received r now) = Some y' ∧ reachable y'
    ∧ reader y' ≠ RDone ∧ (is_err r = true → ∃ e, reader y' = RClosing e).
Proof.
  intros Hy Er. assert (∃ y', step y (received r now) = Some y' ∧ reader y' ≠ RDone
    ∧ (is_err r = true → ∃ e, reader y' = RClosing e)) as (y' & Hs & ? & ?).
  { pose proof (session_reachable_inv _ _ _ Hy) as [Hi _ _]. destruct r as [bs|e]; simpl.
    - rewrite Er. destruct (SessionPass.inv_handle_locked Envelope.Client _ _ _ bs now _ Hi)
        as ([[i|]|e] & s' & -> & _); by eexists.
    - rewrite Er. eexists. split; [done|]. split; [done|]. eauto. }
  exists y'. split_and!; try done. by eapply reachable_step.
Qed.

Lemma answer_step i now now' (y : System) :
  reachable y → reader y = RAnswering i →
  ∃ y', step y (EAnswer now now') = Some y' ∧ reachable y' ∧ reader y' = RReading.
Proof.
  intros Hy Er. assert (∃ y', step y (EAnswer now now') = Some y' ∧ reader y' = RReading)
    as (y' & Hs & Er') by (simpl; rewrite Er; by eexists).
  exists y'. split_and!; try done. by eapply reachable_step.
Qed.

Lemma client_close_stream e now (s : Session.Session (Payload:=Payload)) :
  Session.stream_closed (Session.close Envelope.Client e now s) = true.
Proof.
  unfold Session.close, Session.finish_close.
  destruct (Session.state_close e now s) as [s' removed]. simpl. by rewrite orb_true_r.
Qed.

Lemma close_step e now (y : System) :
  reachable y → reader y = RClosing e →
  ∃ y', step y (EReaderClose now) = Some y' ∧ ended limit y'.
Proof.
  intros Hy Er. assert (∃ y', step y (EReaderClose now) = Some y' ∧ reader y' = RDone
    ∧ Session.stream_closed (sess y') = true
    ∧ ∃ e, Session.state (sess y') = Session.Closed e) as (y' & Hs & Er' & Hc).
  { simpl. rewrite Er. eexists. split; [done|]. split; [done|].
    split; [apply client_close_stream|]. simpl.
    rewrite SessionInv.close_state. destruct (Session.state (sess y)); eauto. }
  exists y'. split; [done|]. split; [by eapply reachable_step|done].
Qed.
End lemmas.

Section reader.
Context {Ω : Type} `{EnvLaws Ω, CobsLaws, Keys, !Crypto}.
Context (budget : Ω → nat) `{!EnvBudget Ω budget} (max fuel limit : nat) (Hmax : 0 < max).
Context {Payload : Variant → Type} `{Prost Payload, !ProstLaws Payload}.

(** Closing the stream within an endpoint's fuel. *)
Lemma close_enough ep ω :
  Endpoint.enough max fuel budget ep ω → tpost (Outbound.close fuel) ω (λ _ ω', shut budget ω ω').
Proof.
  intros Hf. apply close_stream_wp; [done|]. unfold Endpoint.enough, Framing.unread in Hf. nia.
Qed.

(** A run of the reader from the client [cl] with the receive context [rc]: the
    messages were opened from what was read, in order, and at most one event
    more was. *)
Definition routes (rc : OpenCtx) (cl : Client.State) (s : scanner) (ω : Ω)
    (p : list (list byte) * Client.State * System (Payload:=Payload)) (ω' : Ω) : Prop :=
  let '(ms, cl', y) := p in
  ended limit y ∧ Shutdown.phase (get_closer ω') = Shutdown.Closed
  ∧ unread max budget (Endpoint.reader (Client.endpoint cl')) ω'
    ≤ unread max budget (Endpoint.reader (Client.endpoint cl)) ω
  ∧ ∃ evs rest sent s',
    Endpoint.moves max (Client.endpoint cl) s ω (evs ++ rest) sent (Client.endpoint cl') s' ω'
    ∧ Endpoint.io_ok max (Client.endpoint cl') s' ∧ Endpoint.session_ok (Client.endpoint cl')
    ∧ opens max rc evs ms ∧ length rest ≤ 1.

(** A receive that returned [r], by what it read. *)
Lemma recv_step others c rc cl s ω r cl1 ω1 :
  Client.receives max others c rc cl s ω (r, cl1) ω1 →
  ∃ evs sent s1,
    Endpoint.moves max (Client.endpoint cl) s ω evs sent (Client.endpoint cl1) s1 ω1
    ∧ Endpoint.io_ok max (Client.endpoint cl1) s1 ∧ Endpoint.session_ok (Client.endpoint cl1)
    ∧ match r with
      | Ok m => ∃ rc1, Endpoint.receiver (Client.endpoint cl1) = Some rc1
          ∧ Endpoint.sealer (Client.endpoint cl1) = Some c
          ∧ ∀ evs' ms', opens max rc1 evs' ms' → opens max rc (evs ++ evs') (m :: ms')
      | Err _ => length evs ≤ 1
      end.
Proof.
  intros (r0 & bound & evs & sent & s1 & Hsays & Hmv & Hio & Hses & _ & _ & _ & Hr & Hs).
  exists evs, sent, s1. split_and!; try done. simpl in *.
  apply Endpoint.says_cases in Hsays as [(ev & -> & Hev & _)|[-> Hr0]].
  2:{ destruct Hr0 as [[k ->]| ->]; simpl in Hr; injection Hr as -> _; simpl; lia. }
  destruct r as [m|e]; [|simpl; lia].
  destruct r0 as [[packet|]|]; [|by injection Hr..]. simpl in Hr.
  destruct bound; [|by injection Hr]. destruct (open rc packet) as [[m'|] rc'] eqn:Eo;
    [|by injection Hr]. injection Hr as -> Hr. exists rc'. split_and!; [done|by apply Hs; eauto|].
  intros evs' ms' Ho. simpl. by exists packet, rc'.
Qed.

(** What a receive and the rest of the run make together. *)
Lemma routes_after m rc rc1 cl cl1 s s1 ω ω1 evs sent ms cl' y' ω' :
  Endpoint.moves max (Client.endpoint cl) s ω evs sent (Client.endpoint cl1) s1 ω1 →
  (∀ evs' ms', opens max rc1 evs' ms' → opens max rc (evs ++ evs') (m :: ms')) →
  unread max budget (Endpoint.reader (Client.endpoint cl1)) ω1
  ≤ unread max budget (Endpoint.reader (Client.endpoint cl)) ω →
  routes rc1 cl1 s1 ω1 (ms, cl', y') ω' → routes rc cl s ω (m :: ms, cl', y') ω'.
Proof.
  intros Hmv Ho Hu (Hy & Hp & Hu' & evs' & rest & sent' & s' & Hmv' & Hio & Hses & Ho' & Hl).
  split; [done|]. split; [done|]. split; [lia|].
  exists (evs ++ evs'), rest, (sent ++ sent'), s'. split_and!; [|done..|by apply Ho|done].
  rewrite <-app_assoc. by eapply Endpoint.moves_trans.
Qed.

(** The turn that ends the reader: the stream is closed after the session. *)
Lemma close_turn (r : result (list byte) Error) rc cl cl1 (y : System (Payload:=Payload)) s s1 ω ω1
    evs rest sent :
  ended limit y → Endpoint.enough max fuel budget (Client.endpoint cl1) ω1 →
  unread max budget (Endpoint.reader (Client.endpoint cl1)) ω1
  ≤ unread max budget (Endpoint.reader (Client.endpoint cl)) ω →
  Endpoint.moves max (Client.endpoint cl) s ω (evs ++ rest) sent (Client.endpoint cl1) s1 ω1 →
  Endpoint.io_ok max (Client.endpoint cl1) s1 → Endpoint.session_ok (Client.endpoint cl1) →
  opens max rc evs (option_list (result_ok r)) → length rest ≤ 1 →
  tpost (_ ← (if Session.stream_closed (sess y) then Outbound.close fuel else mret tt);
         mret (option_list (result_ok r), cl1, y)) ω1 (routes rc cl s ω).
Proof.
  intros Hend Hf Hu (bs & out & Hm) Hio Hses Ho Hl. pose proof Hend as (_ & _ & Hsc & _).
  rewrite Hsc. post_step. eapply wp_mono; [by apply (close_enough (Client.endpoint cl1))|].
  intros [] ω2 (Hp & Hrx & Htx & Hb). post_step. split; [done|]. split; [done|]. split.
  - pose proof (Endpoint.unread_budget max Hmax budget (Endpoint.reader (Client.endpoint cl1))
      _ _ Hb). lia.
  - exists evs, rest, sent, s1. split_and!; try done. exists bs, out. by rewrite Hrx, Htx.
Qed.

Lemma run_reader_wp n turns cl (y : System (Payload:=Payload)) s ω c rc :
  Endpoint.session_ok (Client.endpoint cl) → Endpoint.io_ok max (Client.endpoint cl) s →
  Endpoint.enough max fuel budget (Client.endpoint cl) ω →
  Endpoint.receiver (Client.endpoint cl) = Some rc →
  Endpoint.sealer (Client.endpoint cl) = Some c →
  unread max budget (Endpoint.reader (Client.endpoint cl)) ω < n →
  reachable Envelope.Client limit y → reader y = RReading → Forall turn_ok turns →
  tpost (run_reader max fuel limit n turns cl y) ω (routes rc cl s ω).
Proof.
  revert turns cl y s ω rc.
  induction n as [|n IH]; intros turns cl y s ω rc Hses Hio Hf Hrc Hc Hn Hy Er Hall; [lia|].
  cbn [run_reader]. set (turn := default still_turn (head turns)).
  assert (turn_ok turn ∧ Forall turn_ok (tail turns)) as [Hturn Htail].
  { unfold turn. destruct Hall; [by repeat constructor|done]. }
  post_step.
  eapply wp_mono; [by apply (Client.client_recv_wp budget max fuel Hmax (sends turn) cl s ω rc c)|].
  intros [r cl1] ω1 [(evs & sent & s1 & Hmv & Hio1 & Hses1 & Hr)%recv_step Hu]. cbn [fst snd] in Hu.
  destruct (elsewhere_keeps limit (before turn) y Hy) as [Hy0 Er0]. rewrite Er in Er0.
  destruct (received_step limit r (handled_at turn) _ Hy0 Er0)
    as (y1 & -> & Hy1 & Hnd & Herr). unfold expect. post_steps.
  destruct (elsewhere_keeps limit (after turn) y1 Hy1) as [Hy2 Er2].
  set (y2 := elsewhere limit (after turn) y1) in *. rewrite Er2.
  assert (∀ y3 m, r = Ok m → reachable Envelope.Client limit y3 → reader y3 = RReading →
    tpost ('(ms', cl, y) ← run_reader max fuel limit n (tail turns) cl1 y3;
           mret (option_list (result_ok r) ++ ms', cl, y)) ω1 (routes rc cl s ω)) as Hloop.
  { intros y3 m -> Hy3 Er3. destruct Hr as (rc1 & Hrc1 & Hc1 & Hop). simpl in Hu. post_step.
    eapply wp_mono; [apply (IH (tail turns) cl1 y3 s1 ω1 rc1); try done; [|lia]|].
    - eapply Endpoint.enough_le; [done..|lia].
    - intros [[ms' cl'] y'] ω' Hrt. post_step. eapply routes_after; [done..|lia|done]. }
  destruct (reader y1) as [|i|e|] eqn:Er1; [..|done].
  - destruct r as [m|e]; [by eapply Hloop|]. by destruct Herr.
  - destruct r as [m|e]; [|by destruct Herr].
    destruct (answer_step limit i (answered_at turn).1 (answered_at turn).2 y2 Hy2 Er2)
      as (y3 & -> & Hy3 & Er3). unfold expect. do 2 post_step. by eapply Hloop.
  - destruct (close_step limit e (closed_at turn) y2 Hy2 Er2) as (y3 & -> & Hend).
    unfold expect. do 2 post_step.
    assert (Endpoint.enough max fuel budget (Client.endpoint cl1) ω1) as Hf1
      by (eapply Endpoint.enough_le; [done..|lia]).
    destruct r as [m|e0]; simpl in Hu.
    + destruct Hr as (rc1 & _ & _ & Hop).
      eapply (close_turn (Ok m) rc cl cl1 y3 s s1 ω ω1 evs []); rewrite ?app_nil_r; try done;
        [lia| |simpl; lia]. rewrite <-(app_nil_r evs). by apply Hop.
    + eapply (close_turn (Err e0) rc cl cl1 y3 s s1 ω ω1 [] evs); try done. lia.
Qed.
End reader.

Section life.
Context {Ω : Type} `{EnvLaws Ω, CobsLaws, Keys, !Messages, !Crypto, !Host Ω, !HostLaws Ω}.
Context (in_step : SealCtx → OpenCtx → Prop) `{!CryptoLaws in_step}.
Context (budget : Ω → nat) `{!EnvBudget Ω budget, !HostBudget Ω budget, !AfterEpoch Ω}.
Context (max fuel limit : nat) (Hmax : 0 < max).
Context {Payload : Variant → Type} `{Prost Payload, !ProstLaws Payload} {Info : Type}.

(** A run of the client from a stream in [ω], for an attempt with these keys. *)
Definition run_spec (verify : Verifier Info) (timeout : Duration) (xsk : xdsa_SecretKey)
    (hsk : xhpke_SecretKey) (ω : Ω)
    (r : result (Info * list (list byte) * Client.State * System (Payload:=Payload))
           Protocol.Error) (ω' : Ω) : Prop :=
  match r with
  | Err e => ∃ t cl ω1, e = Protocol.Transport t
      ∧ Client.connect max fuel verify (Client.new max timeout) ω = Ret ((Err t, cl), ω1)
      ∧ Shutdown.phase (get_closer ω') = Shutdown.Closed
  | Ok (info, ms, cl, y) =>
      ended limit y ∧ Endpoint.no_session (Client.endpoint cl)
      ∧ Shutdown.phase (get_closer ω') = Shutdown.Closed
      ∧ ∃ hellos evs rest sent s' packet rc ctx ack identity hello,
        Endpoint.moves max (Client.endpoint (Client.new max timeout)) at_boundary ω
          (hellos ++ evs ++ rest) sent (Client.endpoint cl) s' ω'
        ∧ Client.hello_after_stale max (fingerprint (xhpke_public_key hsk)) hellos packet
        ∧ Client.answers verify xsk hsk packet rc ctx ack info identity hello
        ∧ opens max rc evs ms ∧ length rest ≤ 1
  end.

Lemma client_run_wp (verify : Verifier Info) timeout (turns : list (Turn Payload)) ω :
  max + 2 + (max + 1) * budget ω < fuel → Forall turn_ok turns →
  tpost (run max fuel limit verify timeout turns) ω (λ r ω',
    let '(xsk, ω1) := xdsa_generate (clock_now ω).2 in
    let '(hsk, _) := xhpke_generate ω1 in
    run_spec verify timeout xsk hsk ω r ω').
Proof.
  intros Hf Hall. assert (Endpoint.enough max fuel budget
    (Client.endpoint (Client.new max timeout)) ω) as Hen by exact Hf. clear Hf.
  unfold run, connect. do 2 post_step. eapply wp_mono; [apply wp_run, (Client.connect_wp in_step budget max fuel Hmax verify _ at_boundary)|].
  - apply (Client.new_wf max timeout).
  - split; [apply reader_new_ok|apply writer_new_ok].
  - exact Hen.
  - intros [r cl] ω1 [Hrun Hspec]. destruct (xdsa_generate _) as [xsk ω2].
    destruct (xhpke_generate ω2) as [hsk ω3].
    destruct Hspec as ((evs0 & sent0 & s0 & Hmv0 & Hio0 & _ & Hr) & _ & Hu). simpl in Hr, Hmv0, Hio0.
    assert (Endpoint.enough max fuel budget (Client.endpoint cl) ω1) as Hen1
      by by eapply Endpoint.enough_le.
    destruct r as [[[c ctx] info]|e].
    2:{ unfold Client.drop. do 2 post_step. eapply wp_mono; [by apply (close_enough budget max fuel Hmax (Client.endpoint cl))|].
        intros [] ω4 (Hp & _). do 3 post_step. by exists e, cl, ω1. }
    post_step.
    destruct Hr as (-> & Hal & Hs & Hb & packet & rc & ack & identity & hello & bytes & p1 & p2
      & p3 & Hrc & Hstale & Hans & _). post_step.
    eapply wp_mono; [apply (run_reader_wp budget max fuel limit Hmax fuel turns cl _ s0 ω1 0 rc)|].
    all: try done.
    + split; rewrite ?Hs, ?Hrc, ?Hb, ?Hal; [by split; eauto|done|]. intros c [= <-]. lia.
    + unfold Endpoint.enough in Hen. cbn [snd] in Hu. lia.
    + apply reachable_init.
    + intros [[ms cl'] y] ω' (Hend & _ & Hu' & evs & rest & sent & s' & Hmv & Hio & Hses & Hop & Hl).
      unfold Client.drop. do 2 post_step. eapply wp_mono; [apply (close_enough budget max fuel Hmax (Client.endpoint cl'));
        by eapply Endpoint.enough_le|]. intros [] ω4 (Hp & Hrx & Htx & _). do 2 post_step.
      destruct (Endpoint.end_session_idles max budget _ s' ω' Hses Hio) as [Hmv' _ Hno _ _ _].
      pose proof (Endpoint.moves_trans max _ _ _ _ _ _ _ _ _ _ _ _ _ Hmv Hmv') as Hmv2.
      rewrite !app_nil_r in Hmv2. split; [done|]. split; [done|]. split; [done|]. exists evs0, evs, rest, (sent0 ++ sent), s', packet, rc, ctx, ack, identity,
        hello. split_and!; try done.
      pose proof (Endpoint.moves_trans max _ _ _ _ _ _ _ _ _ _ _ _ _ Hmv0 Hmv2) as (bs & out & Hm).
      exists bs, out. rewrite Hrx, Htx. exact Hm.
Qed.
End life.

(** ** What a protocol client guarantees *)

(** C15: A client's life ends in order. Connecting and then reading returns,
    whatever the other threads do through the sender and in the session. Either
    the transport failed to connect, and its error is reported with the stream
    closed; or the reader ran until a receive or a message failed, and then the
    session is closed with its stream, and dropping the transport's client has left
    the stream closed and no session of the transport.
    Every message it routed into the session was opened, in order and one per
    frame, under the receive context of the handshake that the trust policy
    accepted, and nothing that arrived was passed over: the frames read are the
    handshake's, the routed ones, and at most the one that ended the session. *)
Theorem client_runs {Ω : Type}
    `{EnvLaws Ω, CobsLaws, Keys, !Messages, !Crypto, !Host Ω, !HostLaws Ω}
    (in_step : SealCtx → OpenCtx → Prop) `{!CryptoLaws in_step} (budget : Ω → nat)
    `{!EnvBudget Ω budget, !HostBudget Ω budget, !AfterEpoch Ω} (max fuel limit : nat)
    {Payload : Variant → Type} `{Prost Payload, !ProstLaws Payload} {Info : Type}
    (verify : Verifier Info) (timeout : Duration) (turns : list (Turn Payload)) (ω : Ω) :
  0 < max → max + 2 + (max + 1) * budget ω < fuel → Forall turn_ok turns →
  let '(xsk, ω1) := xdsa_generate (clock_now ω).2 in
  let '(hsk, _) := xhpke_generate ω1 in
  ∃ r ω', run max fuel limit verify timeout turns ω = Ret (r, ω')
    ∧ run_spec max fuel limit verify timeout xsk hsk ω r ω'.
Proof.
  intros Hm Hf Hall.
  destruct (tpost_returns _ _ _ (client_run_wp in_step budget max fuel limit Hm verify timeout turns ω
    Hf Hall)) as (r & ω' & Hrun & Hspec).
  destruct (xdsa_generate _), (xhpke_generate _). eauto.
Qed.

(** ** A concrete client *)

Import Handshake.Plain.

(** The Ark answers the handshake and sends a request; then the stream ends. *)
Definition visit : Script.world :=
  Script.start
    [Ok (Client.framed_packet Client.ark_packet);
     Ok (Client.framed_packet (Clear.tag 29 ++ SessionClaims.Demo.relay_bytes))] [].

(** Meanwhile the application asks a question of its own. *)
Definition asking : list (Turn Envelope.Plain.Payload) :=
  [MkTurn [] [ERequest SessionClaims.Demo.question 100%Z 0%Z] [ERecv] 1%Z (1%Z, 1%Z) 2%Z].

Example visit_runs :
  match run 60 9000 1000 (Client.trusting Byte.x0a) 5000%Z asking visit with
  | Ret (Ok (info, ms, _, y), _) =>
      ms = [SessionClaims.Demo.relay_bytes] ∧ reader y = RDone ∧ length (decoding y) = 1
      ∧ Session.state (sess y) = Session.Closed (Protocol.Transport Terminated)
  | _ => False
  end.
Proof. vm_compute. by split_and!. Qed.

Lemma client_runs_witness :
  let '(xsk, ω1) := xdsa_generate (clock_now visit).2 in
  let '(hsk, _) := xhpke_generate ω1 in
  ∃ r ω', run 60 9000 1000 (Client.trusting Byte.x0a) 5000%Z asking visit = Ret (r, ω')
    ∧ run_spec 60 9000 1000 (Client.trusting Byte.x0a) 5000%Z xsk hsk visit r ω'.
Proof.
  apply (client_runs (H3:=keys) (H5:=crypto) Clear.in_step Script.budget 60 9000 1000
    (Client.trusting Byte.x0a) 5000%Z asking visit);
    [lia|apply Nat.ltb_lt; vm_compute; reflexivity|by repeat constructor].
Defined.
End ProtocolClient.
