(* ===== verification/ServerWire.v ===== *)
(** * The protocol server over its transport ([protocol/server.rs])

    [run_reader] with the transport's server it owns: the two servers, which the
    other files treat apart, run together and agree on their sessions. *)

From stdpp Require Import relations.
From S2P Require Import Prelude Closer Io Script Stream Cobs Framing Sealing Outbound Endpoint Handshake TransportServer Message Envelope Promise Session SessionMachine ProtocolServer.

Module ServerWire.
Import ProtocolServer.Server.

(** ** State *)

(** The transport, the sender each session's writer was given, and the protocol's
    server. *)
Record Wire `{Keys, !Crypto} {A S : Type} := MkWire {
  transport : TransportServer.Server.State A;
  senders : gmap nat Endpoint.handle;
  protocol : System (S:=S);
}.
Arguments Wire {_ _} A S.
Arguments MkWire {_ _ _ _} _ _ _.

Section wire.
Context {Ω : Type} `{Env Ω, Cobs, Keys, !Messages, !Crypto, !Host Ω} (max fuel : nat).
Context {A : Type} (attest : A → Attestation * A) {S : Type} `{Sessions S}.
Abbreviation Wire := (Wire A S).
Abbreviation System := (System (S:=S)).

Definition with_protocol (x : Wire) (y : System) : Wire := MkWire (transport x) (senders x) y.

Definition with_transport (x : Wire) (sv : TransportServer.Server.State A) : Wire :=
  MkWire sv (senders x) (protocol x).

(** [Server::new] of both. *)
Definition new (timeout : Duration) (signer : xdsa_SecretKey) (attester : A) : Wire :=
  MkWire (TransportServer.Server.new max timeout signer attester) ∅ init.

(** The body of [run_reader]'s loop on what the transport returned; attaching a
    new session and closing one whose message failed are the reader's next
    steps. *)
Definition react (r : result TransportServer.Server.Event Io.Error) (now now' : Instant)
    (x : Wire) : outcome Wire :=
  let y := protocol x in
  match r with
  | Ok (TransportServer.Server.Connected sender) =>
      let '(n, w) := start (world y) in
      Ret (MkWire (transport x) (<[n:=sender]> (senders x))
             (MkSystem w (RAttach n) (Some n) (closers y) (accepted y)))
  | Ok TransportServer.Server.Disconnected =>
      Ret (with_protocol x
             (MkSystem (close_session (upgrade (world y) (current y))
                          (Protocol.Transport SessionReset) now (world y))
                RRecv None (closers y) (accepted y)))
  | Ok (TransportServer.Server.Message bytes) =>
      match upgrade (world y) (current y) with
      | None => Ret x
      | Some n =>
          match sessions (world y) !! n with
          | None => Ret x
          | Some s =>
              match s_handle bytes now now' s with
              | Ret (r, s') =>
                  Ret (with_protocol x
                         (set_reader (match r with Ok _ => RRecv | Err e => RFail n e end)
                            (on_session n (λ _, s') (world y)) y))
              | Panicked => Panicked
              | Diverged => Diverged
              end
          end
      end
  | Err (RecvFailed _) => Ret (with_protocol x (set_reader RPause (world y) y))
  | Err (SendFailed _) => Ret x
  | Err e =>
      Ret (with_protocol x
             (MkSystem (world y) RExit (current y)
                (closers y ++ [CBegin (Protocol.Transport e)]) (accepted y)))
  end.

(** ** The two servers among their threads *)

(** Every step of the protocol's server but the reception of an event: it starts
    no session and the reader's current one stays. *)
Definition elsewhere (y y' : System) : Prop :=
  step y y' ∧ current y' = current y ∧ next (world y') = next (world y).

Inductive wstep : Wire * Ω → Wire * Ω → Prop :=
  | w_recv x ω others now now' r sv ω' x' :
      reader (protocol x) = RRecv →
      Forall (Forall (λ o, Endpoint.through_sender o = true)) others →
      TransportServer.Server.recv max fuel attest others (transport x) ω
      = Ret ((r, sv), ω') →
      react r now now' (with_transport x sv) = Ret x' →
      wstep (x, ω) (x', ω')
  | w_senders x ω others ep ω' :
      Forall (λ o, Endpoint.through_sender o = true) others →
      Endpoint.interfere max fuel others
        (TransportServer.Server.endpoint (transport x)) ω = Ret (ep, ω') →
      wstep (x, ω)
        (with_transport x (TransportServer.Server.with_endpoint (transport x) ep), ω')
  | w_elsewhere x ω y : elsewhere (protocol x) y → wstep (x, ω) (with_protocol x y, ω).
End wire.

(** ** Agreement *)

Section agreement.
Context {Ω : Type} `{EnvLaws Ω, CobsLaws, Keys, !Messages, !Crypto, !Host Ω, !HostLaws Ω}.
Context (budget : Ω → nat) `{!EnvBudget Ω budget, !HostBudget Ω budget, !AfterEpoch Ω}.
Context (max fuel : nat) (Hmax : 0 < max) {A : Type} (attest : A → Attestation * A).
Context {S : Type} `{Sessions S, !SessionsLaws S}.
Abbreviation Wire := (Wire A S).
Abbreviation System := (System (S:=S)).

(** The session of the transport. *)
Abbreviation session x := (Endpoint.sealer (TransportServer.Server.endpoint (transport x))).

(** The sessions of the two servers are the same, under the same numbers. *)
Record agree (x : Wire) : Prop := MkAgree {
  ag_current : current (protocol x) = session x;
  ag_next : next (world (protocol x))
    = Endpoint.allocated (TransportServer.Server.endpoint (transport x));
  ag_open n : open_in (world (protocol x)) n → session x = Some n;
  ag_senders n h : senders x !! n = Some h → h.1 = n;
  ag_started n : n < next (world (protocol x)) → is_Some (senders x !! n);
}.

Record wire_ok (c : Wire * Ω) : Prop := MkWireOk {
  wo_transport : ∃ s, TransportServer.Server.server_ok max (transport c.1) s;
  wo_enough : Endpoint.enough max fuel budget
                (TransportServer.Server.endpoint (transport c.1)) c.2;
  wo_protocol : reachable (protocol c.1);
  wo_agree : agree c.1;
}.

(** Only starting a session opens one. *)
Lemma on_session_open n f w m :
  (∀ s e, s_reason s = Some e → s_reason (f s) = Some e) →
  open_in (on_session n f w) m → open_in w m.
Proof.
  intros Hf (s & Hs & Ho). simpl in Hs. destruct (decide (m = n)) as [->|Hne].
  - rewrite lookup_alter_Some in Hs. destruct Hs as [(_ & s0 & Hs0 & ->)|[? _]]; [|done].
    exists s0. split; [done|]. destruct (s_reason s0) as [e|] eqn:E; [|done].
    by rewrite (Hf _ _ E) in Ho.
  - rewrite lookup_alter_ne in Hs by done. by exists s.
Qed.

Lemma reader_open now (y y' : System) m :
  reader_step now y = Some y' → open_in (world y') m → open_in (world y) m.
Proof.
  unfold reader_step, attach_begin, attach_install.
  destruct (reader y), (server (world y)); try done; intros [= <-].
  all: first [done|apply world_le_open, drop_session_le|apply world_le_open, close_session_le
    |apply (world_le_open (world y)), (close_session_le _ (Some _))|idtac].
  apply on_session_open. intros s e He. rewrite autoreply_reason. by apply limits_reason.
Qed.

Lemma close_step_open now c c' (w w' : World (S:=S)) m :
  close_step now c w = (c', w') → open_in w' m → open_in w m.
Proof.
  destruct c as [e|t reason ready|ready| |]; simpl; unfold close_begin.
  - destruct (server w); by intros [= <- <-].
  - intros [= <- <-]. apply world_le_open, close_session_le.
  - intros [= <- <-]. apply world_le_open, drop_session_le.
  - by intros [= <- <-].
  - by intros [= <- <-].
Qed.

Lemma limits_open r b now (w : World (S:=S)) m :
  open_in (set_inbound_limits r b now w) m → open_in w m.
Proof.
  unfold set_inbound_limits. destruct (server w); [|done].
  destruct (upgrade _ _); [|done]. apply on_session_open. intros s e. apply limits_reason.
Qed.

Lemma autoreply_open t (w : World (S:=S)) m :
  open_in (set_autoreply_timeout t w) m → open_in w m.
Proof.
  unfold set_autoreply_timeout. destruct (server w); [|done].
  destruct (upgrade _ _); [|done]. apply on_session_open. intros s e. by rewrite autoreply_reason.
Qed.

Lemma elsewhere_open (y y' : System) m :
  elsewhere y y' → open_in (world y') m → open_in (world y) m.
Proof.
  intros (Hs & _ & Hn). destruct Hs as [y n w Er Hst|now y y' Hst|now y Er
    |y n s bs now now' r s' Er Hup Hs Hh| | | | | |now y i c c' w Hi Hc|y n w Hacc|r b now y|t y
    |y n s s' Hs Hr|y n r b now Hac|y n t Hac|y n now Hac|]; simpl in *; try done.
  - exfalso. injection Hst as <- <-. simpl in Hn. lia.
  - by eapply reader_open.
  - apply world_le_open, close_session_le.
  - eapply world_le_open, runs_le; [done|]. by eapply handle_runs.
  - by eapply close_step_open.
  - unfold accept in Hacc. repeat case_match; by simplify_eq/=.
  - apply limits_open.
  - apply autoreply_open.
  - by eapply world_le_open, runs_le.
  - apply on_session_open. intros s e. apply limits_reason.
  - apply on_session_open. intros s e. by rewrite autoreply_reason.
  - apply world_le_open, (drop_session_le _ (Some n)).
Qed.

(** Whatever the transport returned, the reader takes a step or stays. *)
Lemma react_steps r now now' (x x' : Wire) :
  reader (protocol x) = RRecv → react r now now' x = Ret x' →
  rtc step (protocol x) (protocol x') ∧ transport x' = transport x.
Proof.
  intros Er. unfold react. destruct r as [[sender| |bytes]|e].
  - destruct (start (world (protocol x))) as [n w] eqn:E. intros [= <-].
    split; [|done]. by apply rtc_once, st_connected.
  - intros [= <-]. split; [|done]. by apply rtc_once, st_disconnected.
  - destruct (upgrade _ _) as [n|] eqn:Eu; [|by intros [= <-]].
    destruct (sessions _ !! n) as [s|] eqn:Es; [|by intros [= <-]].
    destruct (s_handle bytes now now' s) as [[r s']| |] eqn:Eh; try done. intros [= <-].
    split; [|done]. by apply rtc_once; eapply st_message.
  - destruct e; intros [= <-]; (split; [|done]); try done; apply rtc_once;
      first [by apply st_recv_failed|by apply st_failed].
Qed.

(** Only the current session can be open, so a disconnect leaves none. *)
Lemma disconnect_closes (y : System) now m :
  reachable y → (∀ n, open_in (world y) n → current y = Some n) →
  ¬ open_in (close_session (upgrade (world y) (current y)) (Protocol.Transport SessionReset)
               now (world y)) m.
Proof.
  intros Hr%server_reachable_inv Hcur Ho.
  assert (open_in (world y) m) as Ho' by (by eapply world_le_open, Ho; apply close_session_le).
  rewrite (upgrade_open (world y) (current y) m) in Ho; [|..|by auto|done].
  - by apply close_session_closes in Ho.
  - intros k Hk. by apply (i_freed _ Hr k Hk).
Qed.

(** Steps that keep the session on both sides. *)
Lemma agree_kept (x : Wire) sv (y : System) :
  agree x → TransportServer.Server.abstract sv = TransportServer.Server.abstract (transport x) →
  current y = current (protocol x) → next (world y) = next (world (protocol x)) →
  (∀ m, open_in (world y) m → open_in (world (protocol x)) m) →
  agree (MkWire sv (senders x) y).
Proof.
  intros [Hcur Hnext Hopen Hsnd Hst] [= Hs Ha] Ec En Ho.
  split; simpl; rewrite ?Hs, ?Ha, ?Ec, ?En; try done. intros n Hn. by apply Hopen, Ho.
Qed.

(** The events of the transport keep the agreement. *)
Lemma react_agrees r now now' (x x' : Wire) sv :
  reachable (protocol x) → agree x →
  TransportServer.Server.session_step (TransportServer.Server.abstract (transport x))
    (TransportServer.Server.SeenRecv r) (TransportServer.Server.abstract sv) →
  react r now now' (with_transport x sv) = Ret x' → agree x'.
Proof.
  intros Hr Hag Hs.
  assert (∀ y, TransportServer.Server.abstract sv
    = TransportServer.Server.abstract (transport x) → current y = current (protocol x) →
    next (world y) = next (world (protocol x)) →
    (∀ m, open_in (world y) m → open_in (world (protocol x)) m) →
    agree (with_protocol (with_transport x sv) y)) as Hkept
    by (intros y; by apply (agree_kept x sv y Hag)).
  destruct Hag as [Hcur Hnext Hopen Hsnd Hst]. rewrite <-Hcur in Hopen.
  remember (TransportServer.Server.abstract (transport x)) as a eqn:Ea.
  remember (TransportServer.Server.abstract sv) as a' eqn:Ea'.
  remember (TransportServer.Server.SeenRecv r) as seen eqn:Er.
  destruct Hs as [c ctx|c n|c n m|z n|z n k|n k| |]; try done; injection Er as <-;
    injection Ea as Es En; injection Ea' as Es' En'; unfold react; simpl.
  - rewrite <-En in Hnext. rewrite Hnext. intros [= <-].
    split; simpl; rewrite <-?Es', <-?En'; try done.
    + intros m (s & Hm & Ho). simpl in Hm. f_equal. apply lookup_insert_Some in Hm as [[? _]|[_ Hm]];
        [done|]. assert (open_in (world (protocol x)) m) as Hm' by (by exists s).
      apply Hopen in Hm'. congruence.
    + intros m h [[<- <-]|[_ Hm]]%lookup_insert_Some; [done|]. by apply Hsnd.
    + intros m Hm. rewrite lookup_insert_is_Some. destruct (decide (c = m)); [by left|].
      right. split; [done|]. apply Hst. lia.
  - intros [= <-]. split; simpl; rewrite <-?Es', <-?En'; try done.
    + destruct (upgrade _ _); simpl; congruence.
    + intros m Ho. by apply disconnect_closes in Ho.
    + destruct (upgrade _ _); simpl; apply Hst.
  - destruct (upgrade _ _) as [k|] eqn:Eu; [|intros [= <-]; by apply Hkept].
    destruct (sessions _ !! k) as [s|] eqn:Ek; [|intros [= <-]; by apply Hkept].
    destruct (s_handle m now now' s) as [[r s']| |] eqn:Eh; try done. intros [= <-].
    apply Hkept; try done. intros j. eapply world_le_open, runs_le; [done|]. by eapply handle_runs.
  - intros [= <-]. by apply Hkept.
  - intros [= <-]. by apply Hkept.
  - intros [= <-]. by apply Hkept.
Qed.

(** A call that returned, by its specification. *)
Lemma run_cmd_returned cmd (x : Wire) ω seen sv ω' :
  wire_ok (x, ω) → TransportServer.Server.senders_only cmd →
  TransportServer.Server.run_cmd max fuel attest cmd (transport x) ω = Ret ((seen, sv), ω') →
  (∃ s, TransportServer.Server.server_ok max sv s)
  ∧ Endpoint.enough max fuel budget (TransportServer.Server.endpoint sv) ω'
  ∧ TransportServer.Server.session_step (TransportServer.Server.abstract (transport x)) seen
      (TransportServer.Server.abstract sv).
Proof.
  intros [[s Hok] Hf _ _] Hcmd Hrun.
  pose proof (TransportServer.Server.run_cmd_wp budget max fuel Hmax attest cmd (transport x) s ω
    Hok Hf Hcmd) as Hwp. unfold wp in Hwp. by rewrite Hrun in Hwp.
Qed.

Lemma wire_step_ok c c' : wire_ok c → wstep max fuel attest c c' → wire_ok c'.
Proof.
  intros Hc Hs. pose proof Hc as [Hok Hf Hr Hag].
  destruct Hs as [x ω others now now' r sv ω' x' Er Hall Hrun Hre
    |x ω others ep ω' Hall Hrun|x ω y Hel]; cbn [fst snd] in *.
  - destruct (run_cmd_returned (TransportServer.Server.CmdRecv others) x ω
      (TransportServer.Server.SeenRecv r) sv ω' Hc Hall) as (Hok' & Hf' & Hst).
    { simpl. unfold mbind, M_bind. by rewrite Hrun. }
    destruct (react_steps r now now' (with_transport x sv) x' Er Hre) as [Hsteps Ht].
    split; cbn [fst snd]; rewrite ?Ht; try done; [exact (transitivity Hr Hsteps)|by eapply react_agrees].
  - destruct (run_cmd_returned (TransportServer.Server.CmdSenders others) x ω
      TransportServer.Server.SeenSenders
      (TransportServer.Server.with_endpoint (transport x) ep) ω' Hc Hall) as (Hok' & Hf' & Hst).
    { simpl. unfold mbind, M_bind. by rewrite Hrun. }
    split; try done. apply (agree_kept x _ (protocol x)); try done.
    unfold TransportServer.Server.abstract in *. inversion Hst. simpl. congruence.
  - split; try done; cbn [fst snd].
    + destruct Hel as [Hstep _]. by eapply rtc_r.
    + apply (agree_kept x (transport x)); [done..|apply Hel|apply Hel|].
      intros m. by apply elsewhere_open.
Qed.

Lemma wire_new_ok timeout signer (a : A) ω :
  max + 2 + (max + 1) * budget ω < fuel →
  wire_ok (new (S:=S) max timeout signer a, ω).
Proof.
  intros Hf. split; simpl.
  - exists at_boundary. apply TransportServer.Server.new_ok.
  - exact Hf.
  - by apply rtc_refl.
  - split; simpl; try done; [|lia]. by intros n (s & Hs & _).
Qed.
End agreement.

(** ** What the two servers guarantee together *)

(** C14: The protocol's sessions are the transport's. However the transport's
    events, the sends of session writers and the steps of all other threads
    interleave, the reader's current session is the transport's session, under
    the same number; a session still open is that one, so it is never served
    beside another; the writer of each session was given the sender of the
    transport's session of that number; and the next receive returns, with a
    message only while the current session is there to take it, whose sender
    answers under the same keys. *)
Theorem sessions_match {Ω : Type}
    `{EnvLaws Ω, CobsLaws, Keys, !Messages, !Crypto, !Host Ω, !HostLaws Ω} (budget : Ω → nat)
    `{!EnvBudget Ω budget, !HostBudget Ω budget, !AfterEpoch Ω} (max fuel : nat)
    {A : Type} (attest : A → Attestation * A) {S : Type} `{Sessions S, !SessionsLaws S}
    (timeout : Duration) (signer : xdsa_SecretKey) (attester : A) (ω0 ω : Ω) (x : Wire A S)
    (others : list (list Outbound.Op)) :
  0 < max → max + 2 + (max + 1) * budget ω0 < fuel →
  Forall (Forall (λ o, Endpoint.through_sender o = true)) others →
  rtc (wstep max fuel attest) (new max timeout signer attester, ω0) (x, ω) →
  agree x ∧ reachable (protocol x)
  ∧ ∃ r sv' ω',
      TransportServer.Server.recv max fuel attest others (transport x) ω = Ret ((r, sv'), ω')
      ∧ ∀ m, r = Ok (TransportServer.Server.Message m) → ∃ n ctx,
          current (protocol x) = Some n ∧ senders x !! n = Some (n, ctx).
Proof.
  intros Hm Hf Hall Hrtc.
  assert (wire_ok budget max fuel (x, ω)) as Hok.
  { remember (x, ω) as c eqn:Ec. clear Ec.
    assert (∀ c0, rtc (wstep max fuel attest) c0 c → wire_ok budget max fuel c0 →
      wire_ok budget max fuel c) as Hsteps.
    { induction 1 as [|c0 c1 c2 Hs _ IH]; [done|]. intros H0'. by eapply IH, wire_step_ok. }
    by eapply Hsteps, wire_new_ok. }
  pose proof Hok as [[s Hsv] Hen Hr Hag]. cbn [fst snd] in *. split_and!; try done.
  destruct (tpost_returns _ _ _ (TransportServer.Server.server_recv_wp budget max fuel Hm attest
    others (transport x) s ω Hsv Hen Hall)) as ([r sv'] & ω' & Hrun & evs & sent & s' & _ & _ & _ & _ & Ho & _).
  exists r, sv', ω'. split; [done|]. intros m ->.
  destruct Ho as (c & _ & _ & _ & _ & Hs & _). destruct Hag as [Hcur Hnext _ Hsnd Hst].
  assert (c < next (world (protocol x))) as Hlt.
  { rewrite Hnext. apply (Endpoint.ok_allocated _ (TransportServer.Server.sok_session _ _ _ Hsv) c Hs). }
  destruct (Hst c Hlt) as [[c' ctx] Hc]. exists c, ctx. split; [congruence|].
  rewrite Hc. apply Hsnd in Hc. simpl in Hc. by subst.
Qed.

(** ** A concrete server *)

Import Handshake.Plain.

Abbreviation Demo := (Wire Attestation (Session.Session (Payload:=Envelope.Plain.Payload))).

(** The reader's next receive and its reaction. *)
Definition after_recv (c : Demo * Script.world) : Demo * Script.world :=
  match TransportServer.Server.recv 60 9000 attest_fixed [] (transport c.1) c.2 with
  | Ret ((r, sv), ω) =>
      match react r 0%Z 0%Z (with_transport c.1 sv) with Ret x => (x, ω) | _ => c end
  | _ => c
  end.

Lemma after_recv_steps c :
  reader (protocol c.1) = RRecv → rtc (wstep 60 9000 attest_fixed) c (after_recv c).
Proof.
  destruct c as [x ω]. intros Er. unfold after_recv. cbn [fst snd].
  destruct (TransportServer.Server.recv _ _ _ _ _ _) as [[[r sv] ω']| |] eqn:E; try done.
  destruct (react r 0 0 _) as [x'| |] eqn:E'; try done.
  eapply rtc_once, w_recv; [done| |exact E|exact E']. constructor.
Qed.

Definition waiting_ark : Demo :=
  new 60 5000%Z (Byte.x0a : byte) (MkAttestation [Byte.x48; Byte.x01]).

(** A host has connected. *)
Definition visited : Demo * Script.world :=
  after_recv (waiting_ark, TransportServer.Server.requests).

Lemma sessions_match_witness :
  current (protocol visited.1) = Some 0 ∧ agree visited.1 ∧ reachable (protocol visited.1)
  ∧ ∃ r sv' ω',
      TransportServer.Server.recv 60 9000 attest_fixed [] (transport visited.1) visited.2
      = Ret ((r, sv'), ω')
      ∧ ∀ m, r = Ok (TransportServer.Server.Message m) → ∃ n ctx,
          current (protocol visited.1) = Some n ∧ senders visited.1 !! n = Some (n, ctx).
Proof.
  split; [vm_compute; reflexivity|].
  apply (sessions_match (H3:=keys) (H5:=crypto) Script.budget 60 9000 attest_fixed 5000%Z
    (Byte.x0a : byte) (MkAttestation [Byte.x48; Byte.x01]) TransportServer.Server.requests
    visited.2 visited.1 []).
  - lia.
  - apply Nat.ltb_lt. vm_compute. reflexivity.
  - constructor.
  - rewrite <-surjective_pairing. apply after_recv_steps. reflexivity.
Defined.
End ServerWire.
