(* ===== verification/EndToEnd.v ===== *)
(** * From the peer's session to the application

    The whole stack of the server at work: a request that the peer encoded, sealed
    and framed comes off the byte stream through the transport's server
    ([transport/server.rs]), is routed by the protocol server's reader
    ([protocol/server.rs]) into its session ([protocol/session.rs]), and is what the
    application receives. *)

From stdpp Require Import relations.
From S2P Require Import Prelude Closer Io Script Stream Cobs Framing Sealing Outbound Endpoint Handshake TransportClient TransportServer Connection Message Envelope Promise Session SessionInv SessionPass SessionMachine ProtocolServer ServerWire Protobuf Schema SchemaContent SchemaCodec.

Module EndToEnd.
Import ServerWire Connection.
Import ProtocolServer.Server.

Section routing.
Context {Payload : Variant → Type} `{Prost Payload, !ProstLaws Payload}.
Abbreviation Session := (Session.Session (Payload:=Payload)).
Abbreviation OpenState := (Session.OpenState (Payload:=Payload)).

(** The request [m] under the ID [i], encoded by the peer as [bs], and a session that
    has room for it. *)
Record expected (limit : nat) (o : OpenState) (used : Z) (i : Z) (m : Message Payload)
    (bs : list byte) : Prop := MkExpected {
  ex_sendable : sendable i (Ok m) = true;
  ex_limit : (Z.of_nat limit ≤ usize_max)%Z;
  ex_encoded : Envelope.encode limit Envelope.Client i (Ok m) = Ok bs;
  ex_parity : parity_of i = parity Envelope.Client;
  ex_fresh : i ∉ Session.reserved_ids o;
  ex_requests :
    (Z.of_nat (size (Session.reserved_ids o)) < Session.max_inbound_requests o)%Z;
  ex_bytes : (used + Z.of_nat (length bs) ≤ Session.max_inbound_bytes o)%Z;
  ex_width : (Session.max_inbound_bytes o ≤ usize_max)%Z;
}.

(** What the session makes of it: it waits behind the earlier ones, and decodes to
    the message the peer sent. *)
Definition queued (o : OpenState) (used : Z) (i : Z) (m : Message Payload) (bs : list byte)
    (s' : Session) : Prop :=
  ∃ o' e, Session.state s' = Session.Open o'
    ∧ Session.incoming o' = Session.incoming o ++ [(i, e)]
    ∧ Session.reserved_ids o' = {[i]} ∪ Session.reserved_ids o
    ∧ retained_bytes (Session.store s') = (used + Z.of_nat (length bs))%Z
    ∧ ∀ later s, (Session.recv_decode Envelope.Server i e later s).1 = Ok (m, i).

Lemma expected_queued limit (s : Session) o i m bs now now' :
  Session.state s = Session.Open o →
  expected limit o (retained_bytes (Session.store s)) i m bs →
  ∃ s', Session.handle_message Envelope.Server bs now now' s = Ret (Ok tt, s')
    ∧ queued o (retained_bytes (Session.store s)) i m bs s'.
Proof.
  intros Es [Hok Hlim Henc Hpar Hid Hreq Hfit Hw].
  pose proof (encode_decodes _ _ _ _ _ Hok Hlim Henc) as (_ & Hdec & Hh). simpl in Hdec, Hh.
  unfold Session.handle_message, Session.handle_locked. rewrite Hh. cbn [id].
  rewrite (from_id_peer Envelope.Client i Hpar : from_id i (parity Envelope.Server) = Request).
  cbn [failed is_err is_ok negb]. unfold Session.admit_request. rewrite Es. cbn [id unknown].
  rewrite (decide_False _ _ Hid), decide_False by lia.
  rewrite SessionClaims.retain_exact by done. unfold charge. cbn [bytes].
  rewrite decide_True by done. eexists. split; [done|].
  eexists _, _. split; [done|]. split; [done|]. split; [done|]. split; [done|].
  intros later s0. unfold Session.recv_decode, Session.decode_envelope. simpl. by rewrite Hdec.
Qed.
End routing.

Section arrival.
Context {Ω : Type} `{EnvLaws Ω, CobsLaws, Keys, !Messages, !Crypto, !Host Ω, !HostLaws Ω}.
Context (in_step : SealCtx → OpenCtx → Prop) `{!HpkeLaws in_step}.
Context (budget : Ω → nat) `{!EnvBudget Ω budget, !HostBudget Ω budget, !AfterEpoch Ω}.
Context (max fuel seal_limit : nat) (Hmax : 0 < max).
Context {A : Type} (attest : A → Attestation * A).
Context {Payload : Variant → Type} `{Prost Payload, !ProstLaws Payload}.
Abbreviation Session := (Session.Session (Payload:=Payload)).
Abbreviation Wire := (Wire A Session).

(** A server whose reader waits for the transport, in an open session [n] with a peer
    whose messages [ms] are on their way in the bytes [out]. *)
Record listening (x : Wire) (ω : Ω) (n : nat) (s : Session) (out : list byte)
    (ms : list (list byte)) : Prop := MkListening {
  li_reader : reader (protocol x) = RRecv;
  li_current : current (protocol x) = Some n;
  li_alive : n ∉ freed (world (protocol x));
  li_session : sessions (world (protocol x)) !! n = Some s;
  li_delivering : ∃ sc ps,
    delivering in_step max seal_limit (transport x) sc out ms ps;
  li_enough : Endpoint.enough max fuel budget
                (TransportServer.Server.endpoint (transport x)) ω;
}.

(** A receive of the transport, by [deliver_step]. *)
Lemma receive_next x ω n s out ms :
  listening x ω n s out ms →
  ∃ r sv ω', TransportServer.Server.recv max fuel attest [] (transport x) ω = Ret ((r, sv), ω')
    ∧ Endpoint.enough max fuel budget (TransportServer.Server.endpoint sv) ω'
    ∧ ∃ bs, rx ω' = rx ω ++ bs
      ∧ ∀ out', out = bs ++ out' → ∃ sc ms' ps,
          delivering in_step max seal_limit sv sc out' ms' ps
          ∧ (ms' = ms ∧ stream_failed (TransportServer.Server.SeenRecv r)
             ∨ ∃ m, ms = m :: ms' ∧ r = Ok (TransportServer.Server.Message m)).
Proof.
  intros [_ _ _ _ (sc & ps & Hdl) Hf].
  destruct (tpost_returns _ _ _ (deliver_step in_step budget max fuel seal_limit Hmax attest
    (transport x) sc ω out ms ps Hdl Hf)) as ([seen sv] & ω' & Hrun & Hf' & _ & bs & Hrx & Hall).
  revert Hrun. simpl. unfold mbind, M_bind, mret, M_ret.
  destruct (TransportServer.Server.recv _ _ _ _ _ _) as [[[r sv1] ω1]| |] eqn:Er; try done.
  intros [= <- -> ->]. exists r, sv, ω'. split; [done|]. split; [done|].
  exists bs. split; [done|]. intros out' Hout.
  destruct (Hall out' Hout) as (s' & ms' & ps' & Hdl' & Hcase). exists s', ms', ps'.
  split; [done|]. destruct Hcase as [?|(m & -> & Hm)]; [by left|]. right. exists m.
  split; [done|]. by injection Hm.
Qed.

(** The reader's reaction to a message of the session. *)
Lemma react_message (x : Wire) sv n s bs now now' s' :
  current (protocol x) = Some n → n ∉ freed (world (protocol x)) →
  sessions (world (protocol x)) !! n = Some s →
  Session.handle_message Envelope.Server bs now now' s = Ret (Ok tt, s') →
  react (Ok (TransportServer.Server.Message bs)) now now' (with_transport x sv)
  = Ret (with_protocol (with_transport x sv)
           (set_reader RRecv (on_session n (λ _, s') (world (protocol x))) (protocol x))).
Proof.
  intros Hc Ha Hs Hh. unfold react. simpl. rewrite Hc. simpl. rewrite decide_False by done.
  rewrite Hs. simpl. by rewrite Hh.
Qed.

(** The server after it routed a message into session [n], which left it [s']. *)
Definition routed (x : Wire) sv n (s' : Session) : Wire :=
  with_protocol (with_transport x sv)
    (set_reader RRecv (on_session n (λ _, s') (world (protocol x))) (protocol x)).

Lemma routed_listening x ω sv ω' n s s' out out' bs ms sc ps :
  listening x ω n s out (bs :: ms) →
  delivering in_step max seal_limit sv sc out' ms ps →
  Endpoint.enough max fuel budget (TransportServer.Server.endpoint sv) ω' →
  listening (routed x sv n s') ω' n s' out' ms.
Proof.
  intros [_ Hc Ha Hs _ _] Hdl Hf. split; simpl; try done; [|by exists sc, ps].
  by rewrite lookup_alter_eq, Hs.
Qed.
End arrival.

(** ** What the whole stack guarantees *)

(** C3: A request arrives. Let the server's reader wait for its transport in an open
    session, with the peer's sealed messages on the stream, the first of them a
    request that the peer encoded within its limits and that the session has room
    for. Then the next receive returns, and whatever it read of those bytes: either
    the stream failed before the message was complete and all of it is still to
    come, or the request was opened and routed, waits behind the session's earlier
    requests under its ID and with its bytes charged, decodes to the message the
    peer sent, and the server waits for the following ones. *)
Theorem request_arrives {Ω : Type}
    `{EnvLaws Ω, CobsLaws, Keys, !Messages, !Crypto, !Host Ω, !HostLaws Ω}
    (in_step : SealCtx → OpenCtx → Prop) `{!HpkeLaws in_step} (budget : Ω → nat)
    `{!EnvBudget Ω budget, !HostBudget Ω budget, !AfterEpoch Ω}
    (max fuel seal_limit limit : nat) {A : Type} (attest : A → Attestation * A)
    {Payload : Variant → Type} `{Prost Payload, !ProstLaws Payload}
    (x : Wire A (Session.Session (Payload:=Payload))) (ω : Ω) (n : nat)
    (s : Session.Session (Payload:=Payload)) (o : Session.OpenState (Payload:=Payload))
    (out : list byte) (i : Z) (m : Message Payload) (bs : list byte) (ms : list (list byte))
    (now now' : Instant) :
  0 < max →
  listening in_step budget max fuel seal_limit x ω n s out (bs :: ms) →
  Session.state s = Session.Open o →
  expected limit o (retained_bytes (Session.store s)) i m bs →
  ∃ r sv ω', TransportServer.Server.recv max fuel attest [] (transport x) ω = Ret ((r, sv), ω')
    ∧ ∃ read, rx ω' = rx ω ++ read
      ∧ ∀ out', out = read ++ out' →
          stream_failed (TransportServer.Server.SeenRecv r)
            ∧ (∃ sc ps, delivering in_step max seal_limit sv sc out' (bs :: ms) ps)
          ∨ ∃ s', r = Ok (TransportServer.Server.Message bs)
              ∧ react r now now' (with_transport x sv) = Ret (routed x sv n s')
              ∧ wstep max fuel attest (x, ω) (routed x sv n s', ω')
              ∧ queued o (retained_bytes (Session.store s)) i m bs s'
              ∧ listening in_step budget max fuel seal_limit (routed x sv n s') ω' n s' out' ms.
Proof.
  intros Hm Hl Es Hex.
  destruct (receive_next in_step budget max fuel seal_limit Hm attest x ω n s out (bs :: ms) Hl)
    as (r & sv & ω' & Hrun & Hf & read & Hrx & Hall).
  exists r, sv, ω'. split; [done|]. exists read. split; [done|]. intros out' Hout.
  destruct (Hall out' Hout) as (sc & ms' & ps & Hdl & [[-> Hfail]|(m' & [= <- <-] & ->)]).
  { left. split; [done|]. by exists sc, ps. }
  right. destruct (expected_queued limit s o i m bs now now' Es Hex) as (s' & Hh & Hq).
  pose proof Hl as [Hr Hc Ha Hs _ _].
  pose proof (react_message x sv n s bs now now' s' Hc Ha Hs Hh) as Hre.
  exists s'. split_and!; try done.
  - by eapply w_recv; [| |exact Hrun|exact Hre].
  - by eapply routed_listening.
Qed.

(** ** A concrete request *)

Import Handshake.Plain.

(** The host's [device_info] of ID 3, under the schema, sealed and framed behind the
    handshake. *)
Definition ask : list byte := Cases.device_info.
Definition ask_packet : list byte := Clear.tag 30 ++ ask.
Definition ask_bytes : list byte := Client.framed_packet ask_packet.

Definition line_to_ark : Script.world :=
  Script.MkWorld 0 1 Shutdown.closer_new
    [Ok [Byte.x00]; Ok (Client.framed_packet hello_bytes);
     Ok (Client.framed_packet TransportServer.Server.host_ack); Ok ask_bytes] [] [] [].

Definition hosted : TransportServer.Server.State Attestation * Script.world :=
  served (TransportServer.Server.ark, line_to_ark)
    (TransportServer.Server.recv 60 9000 attest_fixed [] TransportServer.Server.ark line_to_ark).

Abbreviation SchemaSession := (Session.Session (Payload:=SchemaContent.Payload)).

(** The reader attached the session of that handshake. *)
Definition attached : System (S:=SchemaSession) :=
  Nat.iter 4 (λ y, default y (reader_step 0%Z y))
    (MkSystem (start (world init)).2 (RAttach 0) (Some 0) [] ∅).

Definition serving : Wire Attestation SchemaSession := MkWire hosted.1 ∅ attached.

Definition fresh_session : SchemaSession :=
  default (Session.new Envelope.Server) (sessions (world attached) !! 0).

Definition fresh_state : Session.OpenState (Payload:=SchemaContent.Payload) :=
  match Session.state fresh_session with
  | Session.Open o => o
  | Session.Closed _ => Session.MkOpen 0 0 0 [] ∅ [] None ∅ ∅
  end.

Lemma line_to_ark_enough :
  Endpoint.enough 60 9000 Script.budget
    (TransportServer.Server.endpoint TransportServer.Server.ark) line_to_ark.
Proof. apply Nat.ltb_lt. vm_compute. reflexivity. Qed.

Lemma hosted_ok :
  (∃ s, TransportServer.Server.server_ok 60 hosted.1 s)
  ∧ Endpoint.enough 60 9000 Script.budget (TransportServer.Server.endpoint hosted.1) hosted.2.
Proof.
  unfold hosted. apply (served_wp _ _ _ (λ sv ω, (∃ s, TransportServer.Server.server_ok 60 sv s)
    ∧ Endpoint.enough 60 9000 Script.budget (TransportServer.Server.endpoint sv) ω)).
  eapply wp_mono; [apply (TransportServer.Server.server_recv_wp (H3:=keys) (H5:=crypto)
    Script.budget 60 9000) with (s := at_boundary);
    [lia|apply TransportServer.Server.new_ok|apply line_to_ark_enough|constructor]|].
  intros [r sv] ω (evs & sent & s & _ & Hok & _ & _ & _ & Hu & _). split; [eauto|].
  eapply Endpoint.enough_le; [lia|apply line_to_ark_enough|exact Hu].
Qed.

Lemma hosted_session :
  Endpoint.sealer (TransportServer.Server.endpoint hosted.1) = Some 0
  ∧ Outbound.binding (Endpoint.outbound (TransportServer.Server.endpoint hosted.1)) = Some 0
  ∧ Endpoint.receiver (TransportServer.Server.endpoint hosted.1) = Some (30 : nat)
  ∧ seal_all 100 (30 : nat) [ask] = ([Ok ask_packet], 31 : nat)
  ∧ (ahead 60 (Endpoint.reader (TransportServer.Server.endpoint hosted.1)) ask_bytes).2
    = [Client.frame_of 60 ask_packet].
Proof. vm_compute. by split_and!. Qed.

Lemma serving_listens :
  listening Clear.in_step Script.budget 60 9000 100 serving hosted.2 0 fresh_session ask_bytes [ask].
Proof.
  destruct hosted_ok as [[s Hok] Hf]. destruct hosted_session as (Hs & Hb & Hr & Hall & Ha).
  split; try (vm_compute; reflexivity); [vm_compute; done| |exact Hf].
  exists s, [ask_packet].
  split; [exact Hok| |by repeat constructor; vm_compute; lia|exact Ha].
  exists 0, (30 : nat), (31 : nat), (30 : nat).
  split; [exact Hs|]. split; [exact Hb|]. split; [exact Hr|]. by split; [|exact Hall].
Qed.

Example ask_received :
  match TransportServer.Server.recv 60 9000 attest_fixed [] (transport serving) hosted.2 with
  | Ret ((r, _), ω) =>
      r = Ok (TransportServer.Server.Message ask) ∧ rx ω = rx hosted.2 ++ ask_bytes
  | _ => False
  end.
Proof. vm_compute. by split. Qed.

#[local] Existing Instance Clear.hpke_laws.

Lemma request_arrives_witness :
  let m := MkMessage (Payload:=SchemaContent.Payload) VDeviceInfoRequest DeviceInfoRequest.Mk in
  ∃ r sv ω', TransportServer.Server.recv 60 9000 attest_fixed [] (transport serving) hosted.2
             = Ret ((r, sv), ω')
    ∧ ∃ read, rx ω' = rx hosted.2 ++ read
      ∧ ∀ out', ask_bytes = read ++ out' →
          stream_failed (TransportServer.Server.SeenRecv r)
            ∧ (∃ sc ps, delivering Clear.in_step 60 100 sv sc out' [ask] ps)
          ∨ ∃ s', r = Ok (TransportServer.Server.Message ask)
              ∧ react r 0%Z 0%Z (with_transport serving sv) = Ret (routed serving sv 0 s')
              ∧ wstep 60 9000 attest_fixed (serving, hosted.2) (routed serving sv 0 s', ω')
              ∧ queued fresh_state 0 3 m ask s'
              ∧ listening Clear.in_step Script.budget 60 9000 100 (routed serving sv 0 s') ω' 0
                  s' out' [].
Proof.
  apply (request_arrives (H3:=keys) (H5:=crypto) Clear.in_step Script.budget 60 9000 100 1000
    attest_fixed serving hosted.2 0 fresh_session fresh_state ask_bytes 3).
  - lia.
  - exact serving_listens.
  - vm_compute. reflexivity.
  - split; try (vm_compute; reflexivity); vm_compute; discriminate.
Defined.
End EndToEnd.
