(* ===== verification/EndToEndClient.v ===== *)
(** * From the peer's reply to the promise

    The whole stack of the client at work: a reply that the server encoded, sealed
    and framed comes off the byte stream through the transport's client
    ([transport/client.rs]), is routed by the session's reader ([protocol/session.rs])
    to the request that waits for it, and is what waiting on its promise returns. *)

From S2P Require Import Prelude Closer Io Script Stream Cobs Framing Sealing Outbound Endpoint Handshake TransportClient TransportServer Connection Message Envelope Promise Session SessionInv SessionPass SessionMachine ProtocolClient Protobuf Schema SchemaContent SchemaCodec.

Module EndToEndClient.
Import SessionMachine ProtocolClient Connection.

(** ** The transport *)

Section delivery.
Context {Ω : Type} `{EnvLaws Ω, CobsLaws, Keys, !Messages, !Crypto, !Host Ω, !HostLaws Ω}.
Context (in_step : SealCtx → OpenCtx → Prop) `{!HpkeLaws in_step}.
Context (budget : Ω → nat) `{!EnvBudget Ω budget, !HostBudget Ω budget, !AfterEpoch Ω}.
Context (max fuel limit : nat) (Hmax : 0 < max).

(** A client in a session with a server whose next messages [ms], sealed to the
    packets [ps], are ahead in the bytes [out] still to come. *)
Record hearing (cl : Client.State) (s : scanner) (ω : Ω) (out : list byte)
    (ms ps : list (list byte)) : Prop := MkHearing {
  he_io : Endpoint.io_ok max (Client.endpoint cl) s;
  he_ok : Endpoint.session_ok (Client.endpoint cl);
  he_session : ∃ c ctx ctx' rc,
    Endpoint.sealer (Client.endpoint cl) = Some c
    ∧ Outbound.binding (Endpoint.outbound (Client.endpoint cl)) = Some c
    ∧ Endpoint.receiver (Client.endpoint cl) = Some rc
    ∧ in_step ctx rc ∧ seal_all limit ctx ms = (Ok <$> ps, ctx');
  he_fits : Forall (λ p, Framing.fits max (OpPacket p)) ps;
  he_ahead : (ahead max (Endpoint.reader (Client.endpoint cl)) out).2
             = Client.frame_of max <$> ps;
  he_enough : Endpoint.enough max fuel budget (Client.endpoint cl) ω;
}.

(** What a receive brings while only those bytes come. *)
Definition brings (ms : list (list byte)) (out' : list byte) (ω' : Ω)
    (r : result (list byte) Error) (cl : Client.State) : Prop :=
  (∃ e, r = Err e ∧ Client.read_failed e = true)
  ∨ ∃ m ms' s' ps', ms = m :: ms' ∧ r = Ok m ∧ hearing cl s' ω' out' ms' ps'.

Lemma hear_next cl s ω out ms ps :
  hearing cl s ω out ms ps →
  ∃ r cl' ω', Client.recv max fuel [] cl ω = Ret ((r, cl'), ω')
    ∧ ∃ read, rx ω' = rx ω ++ read ∧ ∀ out', out = read ++ out' → brings ms out' ω' r cl'.
Proof.
  intros [Hio Hok (c & ctx & ctx' & rc & Hc & Hb & Hr & Hst & Hseal) Hfits Ha Hf].
  destruct (tpost_returns _ _ _ (Client.client_recv_wp budget max fuel Hmax [] cl s ω rc c Hok Hio
    Hf ltac:(constructor) Hr Hc)) as ([r cl'] & ω' & Hrun & Hrec & Hu).
  exists r, cl', ω'. split; [done|].
  destruct Hrec as (r0 & bound & evs & sent & s' & Hsays & (read & o & Hrx & Htx & Hah & Hsc)
    & Hio' & Hok' & _ & _ & Hbd & Href & Hs). cbn [fst snd] in *.
  exists read. split; [done|]. intros out' ->. rewrite Hah in Ha. unfold report in Ha. simpl in Ha.
  destruct Hbd as [->|[? _]]; [|done]. rewrite bool_decide_eq_true_2 in Href by done.
  apply Endpoint.says_cases in Hsays as [(ev & -> & Hev & _)|[-> Hr0]].
  2:{ left. destruct Hr0 as [[k ->]| ->]; simpl in Href; injection Href as -> _; by eexists. }
  right. destruct ps as [|p ps]; [done|]. injection Ha as -> Ha.
  apply Forall_cons in Hfits as [Hfit Hfits]. rewrite meaning_frame_of in Hev by done. subst r0.
  destruct (seal_all_cons in_step limit _ _ _ _ _ _ Hst Hseal)
    as (m & ms' & ctx1 & rc' & -> & Hop & Hst' & Hall).
  simpl in Href. rewrite Hop in Href. simpl in Href. injection Href as -> Hrc.
  exists m, ms', s', ps. split; [done|]. split; [done|].
  destruct Hs as [Hs1 Hs2]; [by rewrite Hrc|]. split; try done.
  - by exists c, ctx1, ctx', rc'.
  - eapply Endpoint.enough_le; [done..|]. simpl in Hu. lia.
Qed.
End delivery.

(** ** The session *)

Section session.
Context {Payload : Variant → Type} `{Prost Payload, !ProstLaws Payload} (size_limit : nat).
Abbreviation System := (System (Payload:=Payload)).
Abbreviation step := (step Envelope.Client size_limit).

(** The peer's reply [body], encoded as [bs], to the request under the ID [i] that
    still waits with the promise [p], in time and within the byte limit. *)
Record awaited (limit : nat) (y : System) (o : Session.OpenState) (i : Z)
    (body : result (Message Payload) SchemaError) (bs : list byte) (k : nat)
    (op : PendingOperation) (p : Promise) (now : Instant) : Prop := MkAwaited {
  aw_reachable : reachable Envelope.Client size_limit y;
  aw_reader : reader y = RReading;
  aw_open : Session.state (sess y) = Session.Open o;
  aw_sendable : sendable i body = true;
  aw_limit : (Z.of_nat limit ≤ usize_max)%Z;
  aw_encoded : Envelope.encode limit Envelope.Server i body = Ok bs;
  aw_outstanding : Session.outstanding o !! i = Some k;
  aw_operation : Session.operations o !! k = Some op;
  aw_promise : promises (Session.store (sess y)) !! promise (sender op) = Some p;
  aw_held : gone p = false;
  aw_time : (now < deadline op)%Z;
  aw_bytes : (retained_bytes (Session.store (sess y)) + Z.of_nat (length bs)
    ≤ Session.max_inbound_bytes o)%Z;
}.

(** Content the schema knows is handled in one step. *)
Lemma known_one_step side bs h now (s s' : Session.Session (Payload:=Payload)) x :
  decode_header side bs = Ret (Ok h) → unknown h = false →
  Session.handle_locked side bs now s = Ret (Ok x, s') → x = None.
Proof.
  intros Hh Hu. unfold Session.handle_locked. rewrite Hh, Hu. repeat case_match; by intros [= <-].
Qed.

Lemma awaited_settles limit (y : System) o i body bs k op p now :
  awaited limit y o i body bs k op p now →
  ∃ y', step y (EMessage bs now) = Some y' ∧ reader y' = RReading
    ∧ reachable Envelope.Client size_limit y'
    ∧ ∀ later later', ∃ s,
        Session.wait_response Envelope.Client (promise (sender op)) later later' (sess y')
        = Some (Ret (map_err Protocol.Remote body, s)).
Proof.
  intros [Hr Er Es Hok Hlim Henc Hk Hop Hp Hg Hdl Hfit].
  destruct (SessionClaims.answer_delivered Envelope.Client size_limit y o limit i body bs k op p
    now now Hr Es Hok Hlim Henc Hk Hop Hp Hg Hdl Hfit) as (s1 & Hm & Hw).
  pose proof (encode_decodes _ _ _ _ _ Hok Hlim Henc) as (_ & _ & Hh).
  assert (Session.handle_locked Envelope.Client bs now (sess y) = Ret (Ok None, s1)) as Hl.
  { revert Hm. unfold Session.handle_message.
    destruct (Session.handle_locked _ bs now (sess y)) as [[[x|e] s']| |] eqn:E; try done.
    rewrite (known_one_step _ _ _ _ _ _ _ Hh eq_refl E) in *. by intros [= ->]. }
  assert (step y (EMessage bs now)
    = Some (MkSystem s1 RReading (writer y) (decoding y) (held y) (wire y))) as Hs
    by (simpl; by rewrite Er, Hl).
  eexists. split; [exact Hs|]. split_and!; [done|by eapply reachable_step|].
  intros later later'. destruct (Hw later later') as (s2 & _ & Hs2). by exists s2.
Qed.
End session.

(** ** What the whole stack guarantees *)

(** C4: An answer arrives. Let the client be in a session with the server's sealed
    messages on the stream, the first of them a reply, encoded within its limits, to
    a request still waiting. Then the next receive returns, and whatever it read of
    those bytes: either reading failed, or the reply was opened, the reader's step
    routes it and leaves the session running, waiting on that request's promise
    returns the reply, the message or the peer's error, however late, and the client
    hears the following ones. *)
Theorem answer_arrives {Ω : Type}
    `{EnvLaws Ω, CobsLaws, Keys, !Messages, !Crypto, !Host Ω, !HostLaws Ω}
    (in_step : SealCtx → OpenCtx → Prop) `{!HpkeLaws in_step} (budget : Ω → nat)
    `{!EnvBudget Ω budget, !HostBudget Ω budget, !AfterEpoch Ω}
    (max fuel seal_limit size_limit limit : nat)
    {Payload : Variant → Type} `{Prost Payload, !ProstLaws Payload}
    (cl : Client.State) (s : scanner) (ω : Ω) (out : list byte) (bs : list byte)
    (ms ps : list (list byte)) (y : System (Payload:=Payload)) (o : Session.OpenState)
    (i : Z) (body : result (Message Payload) SchemaError) (k : nat) (op : PendingOperation)
    (p : Promise) (now : Instant) :
  0 < max → hearing in_step budget max fuel seal_limit cl s ω out (bs :: ms) ps →
  awaited size_limit limit y o i body bs k op p now →
  ∃ r cl' ω', Client.recv max fuel [] cl ω = Ret ((r, cl'), ω')
    ∧ ∃ read, rx ω' = rx ω ++ read
      ∧ ∀ out', out = read ++ out' →
          (∃ e, r = Err e ∧ Client.read_failed e = true)
          ∨ ∃ y' s' ps', r = Ok bs
              ∧ step Envelope.Client size_limit y (received r now) = Some y'
              ∧ reader y' = RReading
              ∧ (∀ later later', ∃ s2,
                  Session.wait_response Envelope.Client (promise (sender op)) later later' (sess y')
                  = Some (Ret (map_err Protocol.Remote body, s2)))
              ∧ hearing in_step budget max fuel seal_limit cl' s' ω' out' ms ps'.
Proof.
  intros Hm Hh Haw.
  destruct (hear_next in_step budget max fuel seal_limit Hm cl s ω out (bs :: ms) ps Hh)
    as (r & cl' & ω' & Hrun & read & Hrx & Hall).
  exists r, cl', ω'. split; [done|]. exists read. split; [done|]. intros out' Hout.
  destruct (Hall out' Hout) as [?|(m & ms' & s' & ps' & [= <- <-] & -> & Hh')]; [by left|].
  right. destruct (awaited_settles _ _ _ _ _ _ _ _ _ _ _ Haw) as (y' & Hs & Er & _ & Hw).
  by exists y', s', ps'.
Qed.

(** ** A concrete answer *)

Import Handshake.Plain.

Abbreviation SchemaSystem := (System (Payload:=SchemaContent.Payload)).
Abbreviation SchemaEvent := (Event (Payload:=SchemaContent.Payload)).

(** The host asked for [device_info]; the request is queued, taken and sent. *)
Definition asked : list SchemaEvent :=
  [ERequest (MkMessage (Payload:=SchemaContent.Payload) VDeviceInfoRequest DeviceInfoRequest.Mk)
     100%Z 0%Z; ETake 1%Z; ESent (Ok tt) 2%Z; ERecord 3%Z].

Definition waiting : SchemaSystem :=
  default (init Envelope.Client)
    (SessionMachine.run Envelope.Client 1000 (init Envelope.Client) asked).

Definition waiting_state : Session.OpenState (Payload:=SchemaContent.Payload) :=
  match Session.state (sess waiting) with
  | Session.Open o => o
  | Session.Closed _ => Session.MkOpen 0 0 0 [] ∅ [] None ∅ ∅
  end.

(** The Ark answers. *)
Definition reply : result (Message SchemaContent.Payload) SchemaError :=
  Ok (MkMessage (Payload:=SchemaContent.Payload) VDeviceInfoResponse
        (k_default DeviceInfoResponse.layout)).

Definition reply_bytes : list byte :=
  match Envelope.encode 1000 Envelope.Server 1 reply with Ok bs => bs | Err _ => [] end.

Definition reply_packet : list byte := Clear.tag 29 ++ reply_bytes.
Definition reply_frame : list byte := Client.framed_packet reply_packet.

Definition line_to_host : Script.world :=
  Script.start [Ok (Client.framed_packet Client.ark_packet); Ok reply_frame] [].

Definition joined : Client.State * Script.world :=
  Client.settled (Client.host, line_to_host)
    (Client.connect 60 9000 (Client.trusting Byte.x0a) Client.host line_to_host).

Lemma line_to_host_enough :
  Endpoint.enough 60 9000 Script.budget (Client.endpoint Client.host) line_to_host.
Proof. apply Nat.ltb_lt. vm_compute. reflexivity. Qed.

Lemma joined_ok :
  Client.well_formed 60 joined.1
  ∧ Endpoint.enough 60 9000 Script.budget (Client.endpoint joined.1) joined.2.
Proof.
  unfold joined. apply (Client.settled_wp _ _ _ (λ cl ω, Client.well_formed 60 cl
    ∧ Endpoint.enough 60 9000 Script.budget (Client.endpoint cl) ω)).
  eapply wp_mono; [apply (Client.connect_wf (H3:=keys) (H5:=crypto) Clear.in_step Script.budget);
    [lia|apply Client.host_wf|apply line_to_host_enough]|].
  by intros p ω (?&?&_).
Qed.

Lemma joined_session :
  Endpoint.sealer (Client.endpoint joined.1) = Some 0
  ∧ Outbound.binding (Endpoint.outbound (Client.endpoint joined.1)) = Some 0
  ∧ Endpoint.receiver (Client.endpoint joined.1) = Some (29 : nat)
  ∧ seal_all 100 (29 : nat) [reply_bytes] = ([Ok reply_packet], 30 : nat)
  ∧ (ahead 60 (Endpoint.reader (Client.endpoint joined.1)) reply_frame).2
    = [Client.frame_of 60 reply_packet].
Proof. vm_compute. by split_and!. Qed.

Lemma joined_hears :
  ∃ s, hearing Clear.in_step Script.budget 60 9000 100 joined.1 s joined.2 reply_frame
    [reply_bytes] [reply_packet].
Proof.
  destruct joined_ok as [Hwf Hf]. pose proof Hwf as Hwf'.
  destruct joined_session as (Hs & Hb & Hr & Hall & Ha).
  destruct (Client.wf_io _ _ Hwf) as [s Hio]. exists s.
  split; [exact Hio|exact (Client.wf_session _ _ Hwf')| |by repeat constructor; vm_compute; lia
    |exact Ha|exact Hf].
  exists 0, (29 : nat), (30 : nat), (29 : nat).
  split; [exact Hs|]. split; [exact Hb|]. split; [exact Hr|]. by split; [|exact Hall].
Qed.

Lemma waiting_reachable : reachable Envelope.Client 1000 waiting.
Proof.
  assert (bool_decide (is_Some
    (SessionMachine.run Envelope.Client 1000 (init Envelope.Client) asked)) = true)
    as [y Hy]%bool_decide_eq_true by (vm_compute; reflexivity).
  unfold waiting. rewrite Hy. eapply run_reachable; [apply reachable_init|done].
Qed.

Lemma waiting_awaits :
  awaited 1000 1000 waiting waiting_state 1 reply reply_bytes 1
    (MkOperation 100 (MkSender true 0)) (MkPromise true None false false false None) 6.
Proof.
  split; [exact waiting_reachable|(vm_compute; first [reflexivity|discriminate])..].
Qed.

Example reply_heard :
  match Client.recv 60 9000 [] joined.1 joined.2 with
  | Ret ((r, _), ω) => r = Ok reply_bytes ∧ rx ω = rx joined.2 ++ reply_frame
  | _ => False
  end.
Proof. vm_compute. by split. Qed.

#[local] Existing Instance Clear.hpke_laws.

Lemma answer_arrives_witness :
  ∃ r cl' ω', Client.recv 60 9000 [] joined.1 joined.2 = Ret ((r, cl'), ω')
    ∧ ∃ read, rx ω' = rx joined.2 ++ read
      ∧ ∀ out', reply_frame = read ++ out' →
          (∃ e, r = Err e ∧ Client.read_failed e = true)
          ∨ ∃ y' s' ps', r = Ok reply_bytes
              ∧ step Envelope.Client 1000 waiting (received r 6%Z) = Some y'
              ∧ reader y' = RReading
              ∧ (∀ later later', ∃ s2, Session.wait_response Envelope.Client 0 later later' (sess y')
                  = Some (Ret (map_err Protocol.Remote reply, s2)))
              ∧ hearing Clear.in_step Script.budget 60 9000 100 cl' s' ω' out' [] ps'.
Proof.
  destruct joined_hears as [s Hh].
  refine (answer_arrives (H3:=keys) (H5:=crypto) Clear.in_step Script.budget 60 9000 100 1000 1000
    joined.1 s joined.2 reply_frame reply_bytes [] [reply_packet] waiting waiting_state 1 reply 1
    (MkOperation 100 (MkSender true 0)) (MkPromise true None false false false None) 6
    _ Hh waiting_awaits).
  lia.
Defined.
End EndToEndClient.
