(* ===== verification/Handles.v ===== *)
(** * Requesters, responders, operation handles and closers
    ([protocol/requester.rs], [protocol/responder.rs], [protocol/operation.rs],
    [protocol/closer.rs])

    The weak handles that an application, and a session's writer, keep: each names
    the session or server that created it, and acts on it only while it can still be
    reached. *)

From stdpp Require Import relations.
From S2P Require Import Prelude Io Message Envelope Promise Session SessionInv SessionPass SessionMachine ProtocolServer.

Module Handles.
Import ProtocolServer.Server.

(** [Requester], by the number of its session. *)
Record Requester := MkRequester { requester_session : nat }.

(** [Responder]; the ID is cleared once a reply is queued. *)
Record Responder := MkResponder { responder_session : nat; responder_id : option Z }.

(** [OperationHandle]: the session and operation a write result is for. *)
Record OperationHandle := MkOperationHandle { handle_session : nat; handle_key : nat }.

(** [Target] *)
Inductive Target := TSession (n : nat) | TServer.

(** [Closer] *)
Record Closer := MkCloser { target : Target }.

Section handles.
Context {Payload : Variant → Type} `{Prost Payload}.
Abbreviation Session := (Session.Session (Payload:=Payload)).
Abbreviation World := (World (S:=Session)).

(** A call on the session a weak reference leads to; [gone] is its result without
    one. *)
Definition on_upgraded {B : Type} (n : nat) (gone : B) (f : Session → B * Session)
    (w : World) : B * World :=
  match upgrade w (Some n) with
  | None => (gone, w)
  | Some n =>
      match sessions w !! n with
      | None => (gone, w)
      | Some s => let '(b, s) := f s in (b, on_session n (λ _, s) w)
      end
  end.

(** [Requester::request] *)
Definition request (h : Requester) (m : Message Payload) (deadline now : Instant) (w : World) :
  result nat Protocol.Error * World :=
  on_upgraded (requester_session h) (Err Protocol.Closed) (Session.request m deadline now) w.

(** [Responder::drop] *)
Definition responder_drop (h : Responder) (now now' : Instant) (w : World) : World :=
  match responder_id h with
  | None => w
  | Some id =>
      (on_upgraded (responder_session h) tt
         (λ s, (tt, Session.reply_unanswered id now now' s)) w).2
  end.

(** [Responder::enqueue], and the drop of the responder it consumes. *)
Definition responder_enqueue (h : Responder) (r : result (Message Payload) SchemaError)
    (deadline now : Instant) (w : World) : outcome (result nat Protocol.Error * World) :=
  match responder_id h, upgrade w (Some (responder_session h)) with
  | None, None => Ret (Err Protocol.Closed, w)
  | None, Some _ => Panicked
  | Some id, _ =>
      let '(answer, w) :=
        on_upgraded (responder_session h) (Err Protocol.Closed)
          (Session.reply id r deadline now) w in
      let h := match answer with
               | Ok _ => MkResponder (responder_session h) None
               | Err _ => h
               end in
      Ret (answer, responder_drop h now now w)
  end.

(** [OperationHandle::record_write] *)
Definition record_write (h : OperationHandle) (r : result unit Protocol.Error) (now : Instant)
    (w : World) : World :=
  (on_upgraded (handle_session h) tt
     (λ s, (tt, Session.record_write (handle_key h) r now s)) w).2.

(** [ServerInner::close], all of it. *)
Definition close_server (e : Protocol.Error) (now : Instant) (w : World) : World :=
  (Nat.iter 4 (λ '(c, w), close_step now c w) (CBegin e, w)).2.

(** [Closer::close]; [alive] is whether the server can still be reached. *)
Definition close (alive : bool) (h : Closer) (now : Instant) (w : World) : World :=
  match target h with
  | TSession n =>
      (on_upgraded n tt (λ s, (tt, Session.close Envelope.Server Protocol.Closed now s)) w).2
  | TServer => if alive then close_server Protocol.Closed now w else w
  end.

(** ** What a handle can touch *)

(** The calls of a session's handles. *)
Inductive Call :=
  | CallRequest (m : Message Payload) (deadline now : Instant)
  | CallReply (id : Z) (r : result (Message Payload) SchemaError) (deadline now : Instant)
  | CallDrop (id : Z) (now now' : Instant)
  | CallWritten (key : nat) (r : result unit Protocol.Error) (now : Instant)
  | CallClose (now : Instant).

(** Their result, where they have one, and what they leave. *)
Definition act (n : nat) (c : Call) (w : World) :
  outcome (option (result nat Protocol.Error) * World) :=
  match c with
  | CallRequest m dl now =>
      let '(r, w) := request (MkRequester n) m dl now w in Ret (Some r, w)
  | CallReply id r dl now =>
      match responder_enqueue (MkResponder n (Some id)) r dl now w with
      | Ret (r, w) => Ret (Some r, w)
      | Panicked => Panicked
      | Diverged => Diverged
      end
  | CallDrop id now now' => Ret (None, responder_drop (MkResponder n (Some id)) now now' w)
  | CallWritten key r now => Ret (None, record_write (MkOperationHandle n key) r now w)
  | CallClose now => Ret (None, close true (MkCloser (TSession n)) now w)
  end.

(** Everything but the session [n] stays. *)
Definition only (n : nat) (w w' : World) : Prop :=
  server w' = server w ∧ freed w' = freed w ∧ next w' = next w
  ∧ stream_closed w' = stream_closed w ∧ ∀ m, m ≠ n → sessions w' !! m = sessions w !! m.

(** The state of a session's queues and operations. *)
Definition state_of (w : World) (n : nat) : option (Session.State (Payload:=Payload)) :=
  Session.state <$> sessions w !! n.

(** The error a handle of a closed session reports. *)
Definition verdict (w : World) (n : nat) : Protocol.Error :=
  match upgrade w (Some n), sessions w !! n with
  | Some _, Some s => default Protocol.Closed (s_reason s)
  | _, _ => Protocol.Closed
  end.

Lemma only_refl n w : only n w w.
Proof. done. Qed.

Lemma only_trans n w w1 w2 : only n w w1 → only n w1 w2 → only n w w2.
Proof.
  intros (? & ? & ? & ? & Hs) (? & ? & ? & ? & Hs').
  split_and!; try congruence. intros m Hm. by rewrite Hs', Hs.
Qed.

Lemma on_upgraded_only {B} n (gone : B) f w : only n w (on_upgraded n gone f w).2.
Proof.
  unfold on_upgraded, upgrade. case_decide; [done|].
  destruct (sessions w !! n) as [s|]; [|done]. destruct (f s) as [b s']. simpl.
  split_and!; try done. intros m Hm. by apply lookup_alter_ne.
Qed.

Lemma drop_only n id now now' w : only n w (responder_drop (MkResponder n id) now now' w).
Proof. destruct id; [apply on_upgraded_only|apply only_refl]. Qed.

(** Every call returns, and stays with its session. *)
Lemma act_only n c w : ∃ r w', act n c w = Ret (r, w') ∧ only n w w'.
Proof.
  destruct c as [m dl now|id r dl now|id now now'|key r now|now]; cbn [act].
  - unfold request. pose proof (on_upgraded_only n (Err Protocol.Closed)
      (Session.request m dl now) w) as Ho. cbn [requester_session].
    destruct (on_upgraded n _ _ w) as [r w']. eauto.
  - unfold responder_enqueue. cbn [responder_id responder_session].
    pose proof (on_upgraded_only n (Err Protocol.Closed) (Session.reply id r dl now) w) as Ho.
    destruct (on_upgraded n _ _ w) as [a w']. eexists _, _. split; [done|].
    eapply only_trans; [exact Ho|]. destruct a; apply drop_only.
  - eexists _, _. split; [done|]. apply drop_only.
  - eexists _, _. split; [done|]. apply on_upgraded_only.
  - eexists _, _. split; [done|]. apply on_upgraded_only.
Qed.

(** ** Handles of a closed session *)

Lemma closed_submit b body dl now (s : Session) e :
  Session.state s = Session.Closed e →
  (Session.submit b body dl now s).1 = Err e
  ∧ Session.state (Session.submit b body dl now s).2 = Session.Closed e.
Proof. intros E. unfold Session.submit, pair, Session.enqueue. simpl. by rewrite E. Qed.

Lemma closed_unanswered id now now' (s : Session) e :
  Session.state s = Session.Closed e → Session.reply_unanswered id now now' s = s.
Proof. intros E. unfold Session.reply_unanswered, Session.autoreply. by rewrite E. Qed.

(** A call on a session that is closed or gone, where [f] keeps a closed one. *)
Lemma on_upgraded_closed {B} n (gone : B) f w :
  ¬ open_in w n → (∀ s e, Session.state s = Session.Closed e →
    Session.state (f s).2 = Session.Closed e) →
  let p := on_upgraded n gone f w in
  state_of p.2 n = state_of w n ∧ verdict p.2 n = verdict w n
  ∧ (p.1 = gone ∧ verdict w n = Protocol.Closed
     ∨ ∃ s e, p.1 = (f s).1 ∧ Session.state s = Session.Closed e ∧ verdict w n = e).
Proof.
  intros Hno Hf. unfold on_upgraded, verdict, upgrade, state_of. simpl.
  destruct (decide (n ∈ freed w)) as [Hin|Hin].
  { simpl. rewrite decide_True by done. split_and!; try done. by left. }
  destruct (sessions w !! n) as [s|] eqn:Es; simpl;
    [|rewrite decide_False, Es by done; split_and!; try done; by left].
  destruct (Session.state s) as [o|e] eqn:Est.
  { destruct Hno. exists s. split; [done|]. simpl. unfold session_reason. by rewrite Est. }
  pose proof (Hf s e Est) as Hst. destruct (f s) as [b s'] eqn:Ef. simpl in *.
  rewrite lookup_alter_eq, Es. simpl. rewrite decide_False by done.
  unfold session_reason. rewrite Hst, Est. simpl. split_and!; try done.
  right. exists s, e. by rewrite Ef.
Qed.

Lemma open_in_state w n : open_in w n ↔ ∃ o, state_of w n = Some (Session.Open o).
Proof.
  unfold open_in, state_of. simpl. unfold session_reason. split.
  - intros (s & -> & Hr). simpl. destruct (Session.state s); [eauto|done].
  - intros [o Ho]. destruct (sessions w !! n) as [s|]; [|done]. injection Ho as Ho.
    exists s. split; [done|]. by rewrite Ho.
Qed.

Lemma drop_closed n id now now' w :
  ¬ open_in w n → state_of (responder_drop (MkResponder n id) now now' w) n = state_of w n.
Proof.
  intros Hno. destruct id as [id|]; [|done]. unfold responder_drop. cbn [responder_id responder_session].
  apply on_upgraded_closed; [done|]. intros s e E. simpl. by rewrite (closed_unanswered _ _ _ _ e).
Qed.

Lemma act_closed n c w r w' :
  ¬ open_in w n → act n c w = Ret (r, w') →
  state_of w' n = state_of w n ∧ ∀ x, r = Some x → x = Err (verdict w n).
Proof.
  intros Hno. destruct c as [m dl now|id a dl now|id now now'|key a now|now]; cbn [act].
  - unfold request. cbn [requester_session].
    destruct (on_upgraded_closed n (Err Protocol.Closed) (Session.request m dl now) w Hno)
      as (Hst & _ & Hr); [intros s e E; by apply closed_submit|].
    destruct (on_upgraded n _ _ w) as [r1 w1]. intros [= <- <-]. simpl in Hr. split; [done|].
    intros x [= <-]. destruct Hr as [[-> ->]|(s & e & -> & E & ->)]; [done|]. by apply closed_submit.
  - unfold responder_enqueue. cbn [responder_id responder_session].
    destruct (on_upgraded_closed n (Err Protocol.Closed) (Session.reply id a dl now) w Hno)
      as (Hst & _ & Hr); [intros s e E; by apply closed_submit|].
    destruct (on_upgraded n _ _ w) as [r1 w1]. intros [= <- <-]. simpl in Hst, Hr. split.
    + rewrite <-Hst. destruct r1; apply drop_closed; rewrite open_in_state, Hst, <-open_in_state;
        done.
    + intros x [= <-]. destruct Hr as [[-> ->]|(s & e & -> & E & ->)]; [done|].
      by apply closed_submit.
  - intros [= <- <-]. split; [by apply drop_closed|done].
  - intros [= <- <-]. split; [|done]. unfold record_write. cbn [handle_session handle_key].
    apply on_upgraded_closed; [done|]. intros s e E. simpl. unfold Session.record_write.
    by rewrite E.
  - intros [= <- <-]. split; [|done]. unfold close. cbn [target].
    apply on_upgraded_closed; [done|]. intros s e E. simpl.
    by rewrite SessionInv.close_state, E.
Qed.

(** Closing through a handle of a server that can be reached is a call of close
    that returned. *)
Lemma close_server_reached e now (y : System (S:=Session)) :
  srv_inv y →
  let y' := MkSystem (close_server e now (world y)) (reader y) (current y)
              (closers y ++ [CDone]) (accepted y) in
  srv_inv y'.
Proof.
  intros Hy. assert (∀ k c w, Nat.iter k (λ '(c, w), close_step now c w) (CBegin e, world y)
    = (c, w) → srv_inv (MkSystem w (reader y) (current y) (closers y ++ [c]) (accepted y)))
    as Hk.
  { induction k as [|k IH]; simpl; intros c w.
    - intros [= <- <-]. apply inv_closers; [done|]. apply Forall_app.
      split; [apply (i_closers _ Hy)|by apply Forall_singleton].
    - destruct (Nat.iter k _ _) as [c0 w0]. intros Hc.
      pose proof (inv_close_step now _ (length (closers y)) c0 c w (IH c0 w0 eq_refl)) as Hs.
      simpl in Hs. rewrite list_lookup_middle in Hs by done. specialize (Hs eq_refl Hc).
      by rewrite insert_app_r_alt, Nat.sub_diag in Hs by lia. }
  apply (Hk 4). unfold close_server. simpl. by destruct (close_begin e (world y)) as [[[] ?] ?].
Qed.
End handles.

(** ** What handles guarantee *)

(** C26: A handle keeps its target. In any reachable state of the server a call
    through a requester, responder, operation handle or closer of a session returns, and changes
    that session alone: no replacement, not the server, not its stream. Once the
    session is no longer the attached one nor about to be, its handles are
    inert: they leave its queues and operations as they are, and report why it
    closed, or that it is closed when it is gone. A closer of the server closes
    server, stream and every session but one the reader has just started, and
    nothing at all when the server is gone. *)
Theorem handles_keep_their_target {Payload : Variant → Type} `{Prost Payload}
    (y : System (S:=Session.Session (Payload:=Payload))) (n : nat) (c : Call) (now : Instant) :
  reachable y →
  (∃ r w', act n c (world y) = Ret (r, w') ∧ only n (world y) w'
    ∧ (attached (server (world y)) ≠ Some n → reader_new (reader y) ≠ Some n →
       state_of w' n = state_of (world y) n
       ∧ ∀ x, r = Some x → x = Err (verdict (world y) n)))
  ∧ (let w' := close true (MkCloser TServer) now (world y) in
     (∃ reason s, server w' = Closed reason s) ∧ stream_closed w' = true
     ∧ ∀ m, open_in w' m → reader_new (reader y) = Some m)
  ∧ close false (MkCloser TServer) now (world y) = world y.
Proof.
  intros Hy%server_reachable_inv. split_and!; [|..|done].
  - destruct (act_only n c (world y)) as (r & w' & Ha & Ho). exists r, w'. split_and!; try done.
    intros Hat Hnew. apply (act_closed n c (world y) r w'); [|done]. intros Hn.
    by destruct (i_open _ Hy n Hn).
  - destruct (close_done _ (length (closers y)) (close_server_reached Protocol.Closed now y Hy))
      as (reason & s & Hs & Hst & Hopen); [simpl; by rewrite list_lookup_middle|].
    simpl in *. eauto.
Qed.

(** ** A concrete replacement

    The session 0 is served, its peer resets, and the session 1 takes over. *)
Definition reset_world : Server.World (S:=Session.Session (Payload:=Envelope.Plain.Payload)) :=
  close_session (Some 0) (Protocol.Transport SessionReset) 1%Z (world ServerDemo.serving).

Definition replaced : ServerDemo.System :=
  ServerDemo.reader_run 4
    (MkSystem (start reset_world).2 (RAttach 1) (Some 1) [] ∅).

Lemma replaced_reachable : reachable replaced.
Proof.
  unfold reachable. etrans; [apply ServerDemo.serving_reachable|].
  eapply rtc_l; [apply (st_disconnected 1%Z); reflexivity|].
  eapply rtc_l; [|apply ServerDemo.reader_run_steps].
  by apply (st_connected (MkSystem reset_world RRecv None [] ∅)).
Qed.

Lemma handles_keep_their_target_witness :
  (∃ r w', act 0 (CallRequest SessionClaims.Demo.question 100%Z 2%Z) (world replaced)
           = Ret (r, w')
     ∧ only 0 (world replaced) w' ∧ state_of w' 0 = state_of (world replaced) 0
     ∧ ∀ x, r = Some x → x = Err (Protocol.Transport SessionReset))
  ∧ close false (MkCloser TServer) 3%Z (world replaced) = world replaced.
Proof.
  destruct (handles_keep_their_target replaced 0
    (CallRequest SessionClaims.Demo.question 100%Z 2%Z) 3%Z replaced_reachable)
    as ((r & w' & Ha & Ho & Hin) & _ & Hc).
  split; [|exact Hc]. exists r, w'. split; [exact Ha|]. split; [exact Ho|].
  destruct Hin as [Hs Hx]; [vm_compute; discriminate|vm_compute; discriminate|].
  split; [exact Hs|]. intros x Hr. rewrite (Hx x Hr). vm_compute. reflexivity.
Defined.
End Handles.
