(* ===== verification/Worker.v ===== *)
(** * Worker threads ([protocol/worker.rs])

    [spawn], the guard that aborts the process when its worker panics, and the
    tracker that counts workers until they released their state, as a machine of the
    threads that spawn, work and wait. *)

From stdpp Require Import relations.
From S2P Require Import Prelude.

Module Worker.

(** ** State *)

(** A worker: counted by [spawn]; running; its closure dropped with the captured state
    but the guard not yet; counted out but the waiters not yet notified; gone. The
    boolean says whether the thread started: a failed start drops the closure, and the
    guard with it, in the spawning thread before it aborts. *)
Inductive Phase :=
  | Counted
  | Running
  | Released (started : bool)
  | Notifying (started : bool)
  | Exited (started : bool).

#[global] Instance Phase_eq_dec : EqDecision Phase.
Proof. solve_decision. Defined.

(** Still in the count. *)
Definition alive (p : Phase) : bool :=
  match p with Counted | Running | Released _ => true | Notifying _ | Exited _ => false end.

(** A call of [wait_stopped]: about to look at the count with the lock held, waiting
    on the condition variable, returned. *)
Inductive Waiter := Looking | Asleep | Returned.

(** [Tracker] with the threads around it; [aborted] once the process is. *)
Record System := MkSystem {
  active : Z;
  workers : list Phase;
  waiters : list Waiter;
  aborted : bool;
}.

Definition init : System := MkSystem 0 [] [] false.

Definition set_worker (k : nat) (p : Phase) (y : System) : System :=
  MkSystem (active y) (<[k:=p]> (workers y)) (waiters y) (aborted y).

Definition set_waiter (j : nat) (w : Waiter) (y : System) : System :=
  MkSystem (active y) (workers y) (<[j:=w]> (waiters y)) (aborted y).

Definition abort (y : System) : System :=
  MkSystem (active y) (workers y) (waiters y) true.

(** [Condvar::notify_all] *)
Definition wake (w : Waiter) : Waiter := match w with Asleep => Looking | _ => w end.

(** ** Steps *)

(** [spawn], up to the count. *)
Definition spawn_count (y : System) : System :=
  MkSystem (active y + 1) (workers y ++ [Counted]) (waiters y) (aborted y).

(** [spawn], the thread: a failed start drops the closure and its guard. *)
Definition spawn_thread (k : nat) (started : bool) (y : System) : System :=
  set_worker k (if started then Running else Released false) y.

(** [spawn], the error branch, once the failed start has dropped everything. *)
Definition spawn_failed (y : System) : System := abort y.

(** The end of [run]: on a panic, unwinding drops the guard, which aborts. *)
Definition run_end (k : nat) (panicked : bool) (y : System) : System :=
  if panicked then abort y else set_worker k (Released true) y.

(** [WorkerGuard::drop] without a panic, first half: under the lock the count goes
    down, where it can; the lock is released. *)
Definition guard_decrement (k : nat) (started : bool) (y : System) : outcome System :=
  if decide (active y ≤ 0)%Z then Panicked
  else Ret (MkSystem (active y - 1) (<[k:=Notifying started]> (workers y)) (waiters y) (aborted y)).

(** [WorkerGuard::drop], second half, without the lock: every waiter asleep now wakes. *)
Definition guard_notify (k : nat) (started : bool) (y : System) : System :=
  MkSystem (active y) (<[k:=Exited started]> (workers y)) (wake <$> waiters y) (aborted y).

(** [Tracker::wait_stopped], with the lock held. *)
Definition look (j : nat) (y : System) : System :=
  set_waiter j (if decide (active y = 0)%Z then Returned else Asleep) y.

Inductive Event :=
  | ESpawn
  | EThread (k : nat) (started : bool)
  | ERunEnd (k : nat) (panicked : bool)
  | EGuard (k : nat)
  | ENotify (k : nat)
  | EFailed (k : nat)
  | EWait
  | ELook (j : nat)
  | EWake (j : nat).

(** One step of one thread, while the process lives; a waiter may also wake for no
    reason. Other threads may go between any two of them. *)
Definition step (y : System) (ev : Event) : option (outcome System) :=
  if aborted y then None
  else
    match ev with
    | ESpawn => Some (Ret (spawn_count y))
    | EThread k started =>
        match workers y !! k with Some Counted => Some (Ret (spawn_thread k started y)) | _ => None end
    | ERunEnd k panicked =>
        match workers y !! k with Some Running => Some (Ret (run_end k panicked y)) | _ => None end
    | EGuard k =>
        match workers y !! k with Some (Released b) => Some (guard_decrement k b y) | _ => None end
    | ENotify k =>
        match workers y !! k with Some (Notifying b) => Some (Ret (guard_notify k b y)) | _ => None end
    | EFailed k =>
        match workers y !! k with Some (Exited false) => Some (Ret (spawn_failed y)) | _ => None end
    | EWait => Some (Ret (MkSystem (active y) (workers y) (waiters y ++ [Looking]) (aborted y)))
    | ELook j => match waiters y !! j with Some Looking => Some (Ret (look j y)) | _ => None end
    | EWake j =>
        match waiters y !! j with Some Asleep => Some (Ret (set_waiter j Looking y)) | _ => None end
    end.

Inductive reachable : System → Prop :=
  | reachable_init : reachable init
  | reachable_step y ev y' : reachable y → step y ev = Some (Ret y') → reachable y'.

(** ** Invariant *)

Definition count (ps : list Phase) : nat := length (filter (λ p, alive p = true) ps).

(** A worker that has counted itself out and is about to notify. *)
Definition notifying (y : System) (k : nat) : Prop := ∃ b, workers y !! k = Some (Notifying b).

(** Every worker has dropped what it captured and is out of the count. *)
Definition all_stopped (y : System) : Prop := Forall (λ p, alive p = false) (workers y).

(** Nobody sleeps on a zero count but for the notification that is on its way. *)
Record inv (y : System) : Prop := MkInv {
  inv_count : active y = Z.of_nat (count (workers y));
  inv_asleep : Asleep ∈ waiters y → active y = 0%Z → ∃ k, notifying y k;
}.

Lemma count_app ps p : count (ps ++ [p]) = count ps + (if alive p then 1 else 0).
Proof. unfold count. rewrite filter_app, length_app. by destruct p. Qed.

Lemma count_insert ps k p q :
  ps !! k = Some p →
  count (<[k:=q]> ps) + (if alive p then 1 else 0) = count ps + (if alive q then 1 else 0).
Proof.
  unfold count. revert k. induction ps as [|r ps IH]; intros [|k]; simpl; try done.
  - intros [= ->]. rewrite !filter_cons. destruct p, q; simpl; lia.
  - intros Hk. specialize (IH k Hk). rewrite !filter_cons. destruct r; simpl; lia.
Qed.

Lemma count_zero ps : count ps = 0 ↔ Forall (λ p, alive p = false) ps.
Proof.
  unfold count. induction ps as [|p ps IH]; [by split; [constructor|]|].
  rewrite filter_cons, Forall_cons. destruct p; simpl; naive_solver.
Qed.

Lemma asleep_insert (ws : list Waiter) (j : nat) w :
  Asleep ∈ <[j:=w]> ws → w = Asleep ∨ Asleep ∈ ws.
Proof.
  intros [k Hk]%list_elem_of_lookup. apply list_lookup_insert_Some in Hk as [(_ & <- & _)|[_ Hk]];
    [by left|]. right. by eapply list_elem_of_lookup_2.
Qed.

Lemma none_asleep (ws : list Waiter) : Asleep ∉ wake <$> ws.
Proof. intros (w & Hw & _)%list_elem_of_fmap. by destruct w. Qed.

(** A worker that does not notify now keeps the notification of another on its way. *)
Lemma notifying_insert y k p q :
  workers y !! k = Some p → alive p = true →
  (∃ i, notifying y i) → ∃ i, notifying (set_worker k q y) i.
Proof.
  intros Hk Hp (i & b & Hi). exists i, b. simpl. rewrite list_lookup_insert_ne; [done|].
  intros ->. by simplify_eq.
Qed.

Lemma inv_same y y' :
  inv y → active y' = active y → workers y' = workers y →
  (Asleep ∈ waiters y' → Asleep ∈ waiters y ∨ (active y ≠ 0)%Z) → inv y'.
Proof.
  intros [Hc Ha] E1 E2 Hw. split; rewrite E1; [by rewrite E2|].
  unfold notifying. rewrite E2. intros [Hs|?]%Hw Hz; [auto|done].
Qed.

(** A worker that changes phase and stays in the count. *)
Lemma inv_phase y k p q :
  inv y → workers y !! k = Some p → alive p = true → alive q = true → inv (set_worker k q y).
Proof.
  intros [Hc Ha] Hk Hp Hq. pose proof (count_insert _ _ _ q Hk) as E. rewrite Hp, Hq in E.
  split; simpl; [lia|]. intros Hs Hz. eapply notifying_insert; eauto.
Qed.

Lemma inv_decrement y k b y' :
  inv y → workers y !! k = Some (Released b) → guard_decrement k b y = Ret y' → inv y'.
Proof.
  intros [Hc Ha] Hk. unfold guard_decrement. case_decide; [done|]. intros [= <-].
  pose proof (count_insert _ _ _ (Notifying b) Hk) as E. simpl in E.
  split; simpl; [lia|]. intros _ _. exists k, b. simpl.
  by rewrite list_lookup_insert_eq by (by eapply lookup_lt_Some).
Qed.

Lemma inv_guard_notify y k b : inv y → workers y !! k = Some (Notifying b) → inv (guard_notify k b y).
Proof.
  intros [Hc Ha] Hk. pose proof (count_insert _ _ _ (Exited b) Hk) as E. simpl in E.
  split; simpl; [lia|]. by intros ?%none_asleep.
Qed.

Lemma worker_step_inv y ev y' : inv y → step y ev = Some (Ret y') → inv y'.
Proof.
  intros Hy. unfold step. destruct (aborted y); [done|].
  destruct ev as [|k b|k b|k|k|k| |j|j]; simpl.
  - intros [= <-]. destruct Hy as [Hc Ha]. split; simpl; [rewrite count_app; simpl; lia|]. lia.
  - destruct (workers y !! k) as [[]|] eqn:Ek; try done. intros [= <-].
    eapply inv_phase; eauto. by destruct b.
  - destruct (workers y !! k) as [[]|] eqn:Ek; try done. intros [= <-].
    destruct b; [eapply inv_same; eauto|by eapply inv_phase].
  - destruct (workers y !! k) as [[| |b| |]|] eqn:Ek; try done. intros [= E].
    by eapply inv_decrement.
  - destruct (workers y !! k) as [[| | |b|]|] eqn:Ek; try done. intros [= <-].
    by apply inv_guard_notify.
  - destruct (workers y !! k) as [[| | | |[]]|] eqn:Ek; try done. intros [= <-].
    eapply inv_same; eauto.
  - intros [= <-]. eapply inv_same; eauto. simpl. intros [Hs|Hs]%elem_of_app; [auto|].
    by apply list_elem_of_singleton in Hs.
  - destruct (waiters y !! j) as [[]|] eqn:Ej; try done. intros [= <-].
    eapply inv_same; eauto. simpl. intros [Hs|Hs]%asleep_insert; [|auto]. by case_decide; auto.
  - destruct (waiters y !! j) as [[]|] eqn:Ej; try done. intros [= <-].
    eapply inv_same; eauto. simpl. intros [Hs|Hs]%asleep_insert; [done|auto].
Qed.

Lemma worker_reachable_inv y : reachable y → inv y.
Proof.
  induction 1 as [|y ev y' _ IH Hs]; [split; simpl; [done|by intros ?%elem_of_nil]|].
  by eapply worker_step_inv.
Qed.

(** ** What the tracker guarantees *)

(** C37: Waiting for the workers is exact and no wakeup is lost, although a worker
    counts itself out and notifies in two steps that others may come between. However
    threads spawn, start, return and wait, the count is the number of workers that have
    not released everything, counting those still starting; no guard takes it below
    zero; a waiter that looks returns precisely when every worker has stopped; a waiter
    found asleep after that has a notification on its way, so that once the last
    notifier is through nobody sleeps; and each notification sends every waiter asleep
    back to look, where it returns if the workers have stopped. *)
Theorem wait_stopped_exact (y : System) :
  reachable y →
  active y = Z.of_nat (count (workers y))
  ∧ (∀ k, step y (EGuard k) ≠ Some Panicked)
  ∧ (∀ j y', step y (ELook j) = Some (Ret y') →
      waiters y' !! j = Some Returned ↔ all_stopped y)
  ∧ (all_stopped y → Asleep ∈ waiters y → ∃ k, notifying y k)
  ∧ (all_stopped y → (∀ k, ¬ notifying y k) → Asleep ∉ waiters y)
  ∧ (∀ k j, aborted y = false → notifying y k → waiters y !! j = Some Asleep →
      ∃ y', step y (ENotify k) = Some (Ret y')
            ∧ waiters y' !! j = Some Looking
            ∧ (all_stopped y → ∃ y'', step y' (ELook j) = Some (Ret y'')
                                      ∧ waiters y'' !! j = Some Returned)).
Proof.
  intros Hr%worker_reachable_inv. pose proof Hr as [Hc Ha].
  assert (Hz : all_stopped y ↔ active y = 0%Z) by (unfold all_stopped; rewrite <-count_zero; lia).
  split_and!; [done| | | | |].
  - intros k. unfold step. destruct (aborted y); [done|].
    destruct (workers y !! k) as [[| |b| |]|] eqn:Ek; try done. unfold guard_decrement.
    rewrite decide_False; [done|].
    pose proof (count_insert _ _ _ (Notifying b) Ek) as E. simpl in E. lia.
  - intros j y'. unfold step. destruct (aborted y); [done|].
    destruct (waiters y !! j) as [[]|] eqn:Ej; try done. intros [= <-]. simpl. rewrite Hz.
    rewrite list_lookup_insert_eq by (by eapply lookup_lt_Some). by case_decide.
  - intros Hs Hw. apply Ha; [done|by apply Hz].
  - intros Hs Hn Hw. destruct Ha as [k Hk]; [done|by apply Hz|]. by eapply Hn.
  - intros k j Hb (b & Hk) Hj. unfold step. rewrite Hb, Hk. eexists. split; [done|]. simpl.
    rewrite list_lookup_fmap, Hj, Hb. simpl. split; [done|]. intros Hs%Hz. eexists. split; [done|].
    simpl. rewrite list_lookup_insert_eq; [by rewrite decide_True|].
    rewrite length_fmap. by eapply lookup_lt_Some.
Qed.

(** Two workers, both counted out, the second about to notify, and a waiter that looked
    in between and sleeps. *)
Definition busy : System := MkSystem 0 [Exited true; Notifying true] [Asleep] false.

Fixpoint run_events (evs : list Event) (y : System) : option System :=
  match evs with
  | [] => Some y
  | ev :: evs => match step y ev with Some (Ret y) => run_events evs y | _ => None end
  end.

Lemma run_events_reachable evs y y' : reachable y → run_events evs y = Some y' → reachable y'.
Proof.
  revert y. induction evs as [|ev evs IH]; intros y Hy; simpl; [by intros [= <-]|].
  destruct (step y ev) as [[y1| |]|] eqn:E; try done. apply IH. by eapply reachable_step.
Qed.

Lemma wait_stopped_exact_witness :
  ∃ y', step busy (ENotify 1) = Some (Ret y') ∧ waiters y' !! 0 = Some Looking
        ∧ ∃ y'', step y' (ELook 0) = Some (Ret y'') ∧ waiters y'' !! 0 = Some Returned.
Proof.
  destruct (wait_stopped_exact busy) as (_ & _ & _ & _ & _ & H).
  - apply (run_events_reachable [ESpawn; ESpawn; EThread 1 true; EThread 0 true; ERunEnd 0 false;
      EWait; ERunEnd 1 false; EGuard 0; ELook 0; ENotify 0; ELook 0; EGuard 1] init busy
      reachable_init).
    vm_compute. reflexivity.
  - destruct (H 1 0) as (y' & Hs & Hl & Hr); [reflexivity|by exists true|reflexivity|].
    exists y'. split; [exact Hs|]. split; [exact Hl|]. apply Hr. repeat constructor.
Defined.
End Worker.
